(* ===== verification/_CoqProject ===== *)
-Q . S2P
Prelude.v
GoNet.v
CidrSet.v
CidrSetGeometry.v
CidrSetSpec.v
CidrPool.v
CidrSetTheorems.v
Kube.v
CidrAllocator.v
AllocatorParams.v
RangeAllocator.v
RangeAllocatorSpec.v
RangeAllocatorRuns.v
RangeAllocatorInit.v
RangeAllocatorTheorems.v
Interleaving.v
Workers.v
RangeWorkers.v
Ownership.v
RangeConcurrent.v
RangeConcurrentSafety.v
RangeConcurrentTheorems.v
RangeReleaseTwice.v
GoStrings.v
NetIP.v
NetIPRoundTrip.v
NetIPParse.v
NetUtils.v
Azure.v
NodeSelector.v
Transformer.v
TransformerTheorems.v
TemplateFuncs.v
TemplateFuncsTheorems.v
Csr.v
CsrTheorems.v
CsrRun.v
CsrRunTheorems.v
TalosClient.v
TalosSession.v
TalosSessionTheorems.v
NodeUtils.v
NodePatch.v
NodePatchTheorems.v
CloudAllocator.v
CloudAllocatorSpec.v
CloudAllocatorSafety.v
CloudAllocatorRuns.v
CloudAllocatorInit.v
CloudAllocatorUndo.v
CloudAllocatorDemo.v
CloudAllocatorTheorems.v
CloudRestart.v
CloudWorkers.v
CloudConcurrent.v
CloudConcurrentSafety.v
CloudConcurrentTheorems.v
IpamController.v
IpamTheorems.v
IpamRun.v
Provider.v
ProviderTheorems.v
CloudSetup.v
CloudSetupTheorems.v
Command.v
CommandTheorems.v
Metrics.v
