(* ===== verification/Prelude.v ===== *)
(** * Talos Cloud Controller Manager

    A model of the Talos cloud controller manager and proofs that its parts do what
    they are meant to do.

    ** The program

    The manager runs beside a Kubernetes cluster whose nodes run Talos Linux.
    - The node IPAM controller gives every node its pod networks.  The command
      [cmd/talos-cloud-controller-manager/nodeipamcontroller.go] turns flags and the
      configuration of Talos into parameters, [pkg/nodeipam] checks them and makes
      one of two allocators ([pkg/nodeipam/ipam]).  The range allocator cuts the
      cluster ranges into node networks; the cloud allocator also serves the public
      IPv6 networks it discovers on the nodes through the Talos API
      ([pkg/talosclient]).  Both keep a bitmap per range ([cidrset]) and patch the
      node through the API server ([pkg/utils/node]).
    - The cloud provider ([pkg/talos]) answers what a node is: its addresses
      ([pkg/utils/net]), provider ID ([pkg/utils/platform]), zone and region.  It
      brings labels, annotations and taints in line with transformation rules
      ([pkg/transformer]) that apply to the nodes a selector matches
      ([pkg/nodeselector]).
    - The certificate controller ([pkg/certificatesigningrequest]) approves a
      kubelet's request for a serving certificate after the provider has checked it
      ([CSRNodeChecks] of [pkg/talos/helper.go]).
    - The command ([main.go]) adds the two controllers to those of the cloud-provider
      library and makes the provider; [pkg/talos/cloud.go] sets the provider up.

    ** How it is modelled

    Go functions are Rocq functions of the same name.  A result is an [outcome]: a
    value, an error, or a panic, so that nil pointers, indices out of range, failed
    type assertions and the [Must] functions are visible.  Code with state is in the
    monad [GoM]; a mutable object is its record of fields.  Machine integers are [Z]
    with the wrap-around written out; byte slices are lists of [Z]; Go maps are
    [gmap].  Go visits a map in an arbitrary order: every such loop takes its order
    as a parameter, and the theorems hold for all orders.  What happens outside (API
    server, informer cache, work queue, Talos) is a trace of [action]s; the answers
    from outside are functions of the trace, about which nothing is assumed beyond
    the documented laws stated as records ([KubeLaws], [CIDRLaws], [TalosLaws],
    [NetLaws]).  Each record of laws is met by a concrete environment in the
    witnesses.  Log lines are left out.

    ** Files

    Foundations
    - [Prelude]: results, the monad and its loops, the logic of preserved relations
      ([gsteps]) and of absence of panics ([gok]) with their automation ([go_steps],
      [go_ok]), machine integers, lists and bitmaps.
    - [GoNet], [GoStrings], [NetIP]: what the program uses of Go's [net], [strings],
      [strconv], [slices] and [net/netip].  [NetIPRoundTrip] and [NetIPParse]: texts
      and addresses are inverse to each other.
    - [Kube]: nodes, actions, the cluster; [PatchNodeCIDRs], [RecordNodeStatusChange].

    Node networks
    - [CidrSet] ([cidrset/cidr_set.go]): the record [CidrSet] and its operations.
      [CidrSetGeometry]: index arithmetic.  [CidrSetSpec]: the invariant [wf] and each
      operation on a well-formed set.  [CidrPool]: the abstract pool of positions as a
      step relation, and the refinement.  [CidrSetTheorems]: the results.
    - [CidrAllocator] ([cidr_allocator.go]): parameters, node list, the interface as
      the class [CIDRAllocator] with histories of operations over it, the retry loop.
      [AllocatorParams]: parameters in order.
    - [RangeAllocator] ([range_allocator.go]), with [RangeAllocatorSpec] (invariant
      [ra_ok], operations preserve it and do not panic), [RangeAllocatorRuns]
      (histories), [RangeAllocatorInit] (construction), [RangeAllocatorTheorems].
    - [Workers]: the loop [runWorker] over a queue that may be shut down.
      [RangeWorkers], [CloudWorkers]: it terminates.
    - [Interleaving]: threads of atomic steps and a program logic for them.
      [Ownership]: workers on one allocator, and the discipline of owned networks under
      which no two assignments share one; a release of a node that holds no accepted
      assignment breaks the discipline and is recorded as stray.  Both allocators are
      instances.
      [RangeConcurrent]: the range allocator's operations in atomic steps;
      [RangeConcurrentSafety], [RangeConcurrentTheorems]: goroutines that interleave.
      [RangeReleaseTwice]: a node with a finalizer is released twice.
      [CloudConcurrent], [CloudConcurrentSafety], [CloudConcurrentTheorems]: the same
      for the cloud allocator.
    - [TalosClient] ([pkg/talosclient]): discovery.  [TalosSession],
      [TalosSessionTheorems]: the client's connection, its retries and refreshes.
    - [NodeUtils]: [GetNodeIPs].  [NodePatch], [NodePatchTheorems] ([pkg/utils/node],
      [pkg/utils/controller/node]): the bytes of patches, handlers, conditions.
    - [CloudAllocator] ([cloud_allocator.go]), with [CloudAllocatorSpec] (invariant
      [ca_ok]), [CloudAllocatorSafety] (no panics), [CloudAllocatorRuns] (histories),
      [CloudAllocatorInit] (construction), [CloudAllocatorUndo] (failed assignments),
      [CloudAllocatorDemo] (a small cluster), [CloudAllocatorTheorems], [CloudRestart]
      (networks of listed nodes that are not marked).
    - [IpamController], [IpamTheorems]: flags, checks and start of the controller,
      down to the allocator it makes.  [IpamRun]: the calls [Run] of the
      controller and of the allocators makes, in order.
    - [Metrics] ([pkg/metrics]): latencies and error counts.

    Cloud provider
    - [NetUtils], [Azure]: addresses per family; the resource group of an Azure ID.
    - [NodeSelector], [Transformer], [TransformerTheorems]: selectors and rules.
    - [TemplateFuncs] ([functions.go]), [TemplateFuncsTheorems]: the functions offered
      to templates.
    - [Provider] ([pkg/talos/instances.go], [helper.go]), [ProviderTheorems].
    - [CloudSetup] ([cloud.go], [cloud_config.go]), [CloudSetupTheorems]: construction,
      initialisation and the stop signal, with the objects in a store.
    - [Csr], [CsrTheorems]: certificate requests and the provider's checks.
      [CsrRun], [CsrRunTheorems]: the watch loop.

    Command
    - [Command] ([main.go], [nodecsrapprovalcontroller.go], [controller_names.go]),
      [CommandTheorems].

    ** What is proved

    - A [CidrSet] refines the abstract pool for any sequence of operations; it never
      hands out a network twice, marks and clears exactly the networks that meet the
      one it is given, finds a free network when there is one, serves every network
      of a fresh set, and its metrics follow its state.
    - Both allocators: two nodes never get networks with a common address, for any
      history that does not release the first, any map order and answers; all outcomes
      of an allocation, with the marks that are kept, given back or left behind; a
      worker's turn never panics and leaves the invariant, and its loop
      returns once the queue is shut down; construction
      marks service ranges and existing nodes.  The cloud allocator avoids the node's
      own addresses; discovery reports exactly the maximal public networks; the set
      for a discovered network has the stated bounds.  Where the safety of the cloud
      allocator depends on sets that do not overlap, the theorems say "unless of two
      sets one starts inside the other" ([sets_nested]), which the code does not
      prevent.
    - Goroutines of either allocator that interleave step by step leave no two nodes
      with a common address, except in networks named by a stray release.  Alone they
      behave as the sequential model.
    - The Talos client keeps one connection open and never uses a closed one; a request
      is made a bounded number of times.  Two refreshes at once break this.
    - The bytes [PatchNodeCIDRs] sends decode to the networks; the handlers are total where
      they are meant to be.
    - The controller starts with an allocator of the type asked for, or not at all; it
      is in order when the mask sizes fit the ranges, which the program does not check;
      the only panics are those on missing service ranges and misfit mask sizes.
    - The provider reports well-formed addresses, touches only the node and only what
      differs, converges, and reports exactly lost spot nodes as gone.
    - Approved certificate requests are sound, own requests are approved, and a
      request is decided once; so also for the watch loop as a whole, which never
      panics.  The provider that comes up shares its client with its instances, and
      the stop signal reaches its context.
    - The command starts the two controllers exactly when they are named (and not also
      refused) and leaves the library's as they are.
    - Transformations are a fold of the matching rules independent of map order and
      protect host name and platform; selectors mean what they say; [getValue] is a
      lookup and the base64 functions are inverse to each other.
    - Behaviours the maintainers should know are theorems too: networks stranded
      when a later range is exhausted or the cache fails, node mask sizes longer than
      an address that are accepted, nested public networks that overlap, a /128
      that yields a nil network, a network assigned again after a restart, taint
      templates that are not rendered, a node released twice, documented template calls
      with their arguments in the wrong order, a watch loop that outlives its context,
      a life cycle controller that is on by default although the documentation says
      otherwise.

    ** Bounds and fuel

    The search of [AllocateNext] is bounded by [maxCIDRs] as in the source, parsing
    an IPv6 address by its eight groups, printing a number by its digits.
    [runWorker] takes fuel: as many turns as the queue still delivers items, and one
    more, are enough.  The watch loop [Run] is meant to go on for ever: its theorems
    are for every number of turns, and [csr_run_stops] gives one that is enough to
    return.  A request is retried at most 101 times (ten seconds in units of 100
    milliseconds).  All other recursion is on the data.  Where a theorem bounds its
    input (cluster and node masks less than 32 bits apart, no IPv4-mapped networks)
    the bound is in the records [geom], [layout_ok], [layout_fits].

    ** Not modelled

    In the theorems about sequences of operations each operation of an allocator is
    one step; both allocators are also shown with interleaved goroutines. The cloud
    allocator reads its map of sets without the lock that guards its writes, which
    is a data race: the interleaved model takes these reads to be atomic, as the
    sequential one does, and says nothing about what the Go run time does with the
    race. The goroutines [Run] starts, the informers and the work queue belong to
    client-go: the order of events is arbitrary in the theorems, and nothing is proved
    about the queue itself. Upper and lower case, white space, [%q] and JSON are
    modelled for ASCII texts; bytes outside ASCII are left alone. YAML decoding, Prometheus registration, the command line framework, the
    regular expression and template engines are parameters or left out. *)

From Stdlib Require Export ZArith Lia.
From stdpp Require Export base tactics numbers list strings gmap.

#[global] Open Scope Z_scope.

(** ** Go results *)

(** An [error] value as the Go code builds it.  [fmt.Errorf] with [%v] or [%s]
    keeps only the text of its cause, [%w] keeps the cause reachable for
    [errors.As]; the two are different constructors because the code branches on
    what [errors.As] finds. *)
Inductive error :=
  | ErrNew (msg : string)
  | ErrAPI (reason : string)
  | ErrV (msg : string) (cause : error)
  | ErrW (msg : string) (cause : error).

#[export] Instance error_eq_dec : EqDecision error.
Proof. solve_decision. Defined.

(** [err.Error()]. *)
Fixpoint Error (e : error) : string :=
  match e with
  | ErrNew m => m
  | ErrAPI r => r
  | ErrV m e' | ErrW m e' => m +:+ Error e'
  end.

(** What a Go call delivers: a value, a non-nil error, or a run-time panic. *)
Inductive outcome (A : Type) :=
  | Ok (a : A)
  | Err (e : error)
  | Panic.
Arguments Ok {A} a.
Arguments Err {A} e.
Arguments Panic {A}.

#[export] Instance outcome_eq_dec {A} `{EqDecision A} : EqDecision (outcome A).
Proof. solve_decision. Defined.

Definition obind {A B} (m : outcome A) (k : A → outcome B) : outcome B :=
  match m with Ok a => k a | Err e => Err e | Panic => Panic end.

(** Methods that mutate their receiver: the state survives an [Err]. *)
Definition GoM (S A : Type) : Type := S → outcome A * S.

Definition gret {S A} (a : A) : GoM S A := λ s, (Ok a, s).
Definition gfail {S A} (e : error) : GoM S A := λ s, (Err e, s).
Definition gpanic {S A} : GoM S A := λ s, (Panic, s).
Definition gbind {S A B} (m : GoM S A) (k : A → GoM S B) : GoM S B :=
  λ s, match m s with
       | (Ok a, s') => k a s'
       | (Err e, s') => (Err e, s')
       | (Panic, s') => (Panic, s')
       end.
Definition gget {S} : GoM S S := λ s, (Ok s, s).
Definition gmodify {S} (f : S → S) : GoM S unit := λ s, (Ok tt, f s).
(** [if err := m; err != nil { h(err) }]: the error is handled in place. *)
Definition gcatch {S A} (m : GoM S A) (h : error → GoM S A) : GoM S A :=
  λ s, match m s with
       | (Err e, s') => h e s'
       | r => r
       end.
Definition gof_outcome {S A} (o : outcome A) : GoM S A := λ s, (o, s).

Declare Scope go_scope.
Delimit Scope go_scope with go.
Notation "x <- m ;; k" := (gbind m (λ x, k))
  (at level 100, m at next level, right associativity) : go_scope.
Notation "m ;;; k" := (gbind m (λ _, k))
  (at level 100, right associativity) : go_scope.
Notation "'let?' x := m 'in' k" := (obind m (λ x, k))
  (at level 10, x name, m at level 100, k at level 200) : go_scope.

(** [for _, x := range l { body(x) }] with the loop left at the first error. *)
Fixpoint gforeach {S A} (l : list A) (body : A → GoM S unit) : GoM S unit :=
  match l with
  | [] => gret tt
  | x :: l' => gbind (body x) (λ _, gforeach l' body)
  end.

(** [for i := range l] with the index handed to the body. *)
Fixpoint gforeachi {S A} (i : nat) (l : list A) (body : nat → A → GoM S unit) : GoM S unit :=
  match l with
  | [] => gret tt
  | x :: l' => gbind (body i x) (λ _, gforeachi (Datatypes.S i) l' body)
  end.

(** ** Reasoning about state-passing code *)

(** [gsteps R m]: whatever [m] delivers, the state it leaves is related by [R]
    to the state it found.  For a preorder [R] this follows the structure of the
    code; the hint database [go_steps] does it. *)
Definition gsteps {S A} (R : relation S) (m : GoM S A) : Prop := ∀ s, R s (m s).2.

Section steps.
Context {S : Type} (R : relation S) `{!PreOrder R}.

Lemma gsteps_ret {A} (a : A) : gsteps R (gret a).
Proof. intros s. cbn. reflexivity. Qed.
Lemma gsteps_fail {A} e : gsteps R (gfail (A := A) e).
Proof. intros s. cbn. reflexivity. Qed.
Lemma gsteps_panic {A} : gsteps R (gpanic (A := A)).
Proof. intros s. cbn. reflexivity. Qed.
Lemma gsteps_get : gsteps R gget.
Proof. intros s. cbn. reflexivity. Qed.
Lemma gsteps_of_outcome {A} (o : outcome A) : gsteps R (gof_outcome o).
Proof. intros s. cbn. reflexivity. Qed.

Lemma gsteps_bind {A B} (m : GoM S A) (k : A → GoM S B) :
  gsteps R m → (∀ a, gsteps R (k a)) → gsteps R (gbind m k).
Proof.
  intros Hm Hk s. specialize (Hm s). unfold gbind. destruct (m s) as [[a|e|] s']; cbn in *; [|done..].
  etransitivity; [exact Hm|apply Hk].
Qed.

(** The continuation only runs on results of [m]. *)
Lemma gsteps_bind_result {A B} (m : GoM S A) (k : A → GoM S B) :
  gsteps R m → (∀ a s s', m s = (Ok a, s') → gsteps R (k a)) → gsteps R (gbind m k).
Proof.
  intros Hm Hk s. specialize (Hm s). unfold gbind. destruct (m s) as [[a|e|] s'] eqn:E; cbn in *; [|done..].
  etransitivity; [exact Hm|by eapply Hk].
Qed.

Lemma gsteps_catch {A} (m : GoM S A) h :
  gsteps R m → (∀ e, gsteps R (h e)) → gsteps R (gcatch m h).
Proof.
  intros Hm Hh s. specialize (Hm s). unfold gcatch. destruct (m s) as [[a|e|] s']; cbn in *; [done| |done].
  etransitivity; [exact Hm|apply Hh].
Qed.

Lemma gsteps_foreach {A} (l : list A) body :
  (∀ x, gsteps R (body x)) → gsteps R (gforeach l body).
Proof.
  intros Hb. induction l; cbn; [apply gsteps_ret|]. apply gsteps_bind; auto.
Qed.

Lemma gsteps_foreach_elem {A} (l : list A) body :
  Forall (λ x, gsteps R (body x)) l → gsteps R (gforeach l body).
Proof. induction 1; cbn; [apply gsteps_ret|]. by apply gsteps_bind. Qed.

Lemma gsteps_foreachi {A} (l : list A) i body :
  (∀ i x, gsteps R (body i x)) → gsteps R (gforeachi i l body).
Proof.
  intros Hb. revert i. induction l; intros i; cbn; [apply gsteps_ret|]. apply gsteps_bind; auto.
Qed.
End steps.

Create HintDb go_steps discriminated.
#[export] Hint Extern 0 (PreOrder _) => exact _ : go_steps.
#[export] Hint Resolve gsteps_ret gsteps_fail gsteps_panic gsteps_get gsteps_of_outcome : go_steps.

(** Follows the code down to its primitive operations, splitting on every
    condition on the way. *)
Ltac go_steps :=
  intros;
  repeat (first
    [ solve [auto with go_steps]
    | match goal with
      | |- gsteps _ (gbind _ _) => apply gsteps_bind; [exact _| |intros]
      | |- gsteps _ (gcatch _ _) => apply gsteps_catch; [exact _| |intros]
      | |- gsteps _ (gforeach _ _) => apply gsteps_foreach; [exact _|intros]
      | |- gsteps _ (gforeachi _ _ _) => apply gsteps_foreachi; [exact _|intros]
      | |- gsteps _ (match ?x with _ => _ end) => destruct x
      | |- gsteps _ (if ?x then _ else _) => destruct x
      end ]).

(** [gok I m]: started in a state with [I], [m] does not panic and leaves a state
    with [I]. *)
Definition gok {S A} (I : S → Prop) (m : GoM S A) : Prop :=
  ∀ s, I s → (m s).1 ≠ Panic ∧ I (m s).2.

Section ok.
Context {S : Type} (I : S → Prop).

Lemma gok_ret {A} (a : A) : gok I (gret a).
Proof. by intros s Hs. Qed.
Lemma gok_fail {A} e : gok I (gfail (A := A) e).
Proof. by intros s Hs. Qed.

Lemma gok_bind {A B} (m : GoM S A) (k : A → GoM S B) :
  gok I m → (∀ a, gok I (k a)) → gok I (gbind m k).
Proof.
  intros Hm Hk s Hs. destruct (Hm s Hs) as [Hp Hi]. unfold gbind.
  destruct (m s) as [[a|e|] s']; cbn in *; [by apply Hk|done..].
Qed.

(** The continuation only runs on results of [m] from a state with [I]. *)
Lemma gok_bind_result {A B} (m : GoM S A) (k : A → GoM S B) :
  gok I m → (∀ a s s', I s → m s = (Ok a, s') → gok I (k a)) → gok I (gbind m k).
Proof.
  intros Hm Hk s Hs. destruct (Hm s Hs) as [Hp Hi]. unfold gbind.
  destruct (m s) as [[a|e|] s'] eqn:E; cbn in *; [exact (Hk a s s' Hs E s' Hi)|done..].
Qed.

Lemma gok_foreach_elem {A} (l : list A) body :
  Forall (λ x, gok I (body x)) l → gok I (gforeach l body).
Proof. induction 1; cbn; [apply gok_ret|]. by apply gok_bind. Qed.

Lemma gok_get {B} (k : S → GoM S B) :
  (∀ s, I s → gok I (k s)) → gok I (gbind gget k).
Proof. intros Hk s Hs. by apply Hk. Qed.

Lemma gok_catch {A} (m : GoM S A) h :
  gok I m → (∀ e, gok I (h e)) → gok I (gcatch m h).
Proof.
  intros Hm Hh s Hs. destruct (Hm s Hs) as [Hp Hi]. unfold gcatch.
  destruct (m s) as [[a|e|] s']; cbn in *; [done|by apply Hh|done].
Qed.

Lemma gok_foreach {A} (l : list A) body :
  (∀ x, gok I (body x)) → gok I (gforeach l body).
Proof. intros Hb. induction l; cbn; [apply gok_ret|]. apply gok_bind; auto. Qed.

(** The body at index [k] runs on the [k]-th element. *)
Lemma gok_foreachi {A} (l : list A) i body :
  (∀ k x, l !! k = Some x → gok I (body (i + k)%nat x)) → gok I (gforeachi i l body).
Proof.
  revert i. induction l as [|x l IH]; intros i Hb; cbn; [apply gok_ret|].
  apply gok_bind; [rewrite <-(Nat.add_0_r i); by apply Hb|]. intros _. apply IH.
  intros k y Hk. rewrite Nat.add_succ_comm. by apply Hb.
Qed.
End ok.

Lemma gsteps_foreachi_lookup {S A} (R : relation S) `{!PreOrder R} (l : list A) i body :
  (∀ k x, l !! k = Some x → gsteps R (body (i + k)%nat x)) → gsteps R (gforeachi i l body).
Proof.
  revert i. induction l as [|x l IH]; intros i Hb; cbn; [by apply gsteps_ret|].
  apply gsteps_bind; [done|rewrite <-(Nat.add_0_r i); by apply Hb|]. intros _. apply IH.
  intros k y Hk. rewrite Nat.add_succ_comm. by apply Hb.
Qed.

(** A loop that ended without an error ran its body on every element. *)
Section reaches.
Context {S : Type} (R : relation S) `{!PreOrder R}.

Lemma gforeachi_reaches {A} (l : list A) i body s s' k x :
  (∀ i x, gsteps R (body i x)) →
  gforeachi i l body s = (Ok tt, s') → l !! k = Some x →
  ∃ s1 s2, R s s1 ∧ body (i + k)%nat x s1 = (Ok tt, s2) ∧ R s2 s'.
Proof.
  intros Hb. revert i s k. induction l as [|y l IH]; intros i s k E Hk; [done|].
  cbn in E. unfold gbind in E. destruct (body i y s) as [[[]|e|] s1] eqn:Ey; [|done..].
  destruct k as [|k]; cbn in Hk.
  - injection Hk as ->. exists s, s1. rewrite Nat.add_0_r. split_and!; [reflexivity|done|].
    pose proof (gsteps_foreachi R l (Datatypes.S i) body Hb s1) as H. by rewrite E in H.
  - destruct (IH _ _ _ E Hk) as (s2 & s3 & H2 & E2 & H3). exists s2, s3.
    rewrite <-Nat.add_succ_comm. split_and!; [|done|done].
    transitivity s1; [|done]. pose proof (Hb i y s) as H. by rewrite Ey in H.
Qed.

Lemma gforeach_reaches {A} (l : list A) body s s' x :
  (∀ x, gsteps R (body x)) →
  gforeach l body s = (Ok tt, s') → x ∈ l →
  ∃ s1 s2, R s s1 ∧ body x s1 = (Ok tt, s2) ∧ R s2 s'.
Proof.
  intros Hb. revert s. induction l as [|y l IH]; intros s E Hx; [by apply elem_of_nil in Hx|].
  cbn in E. unfold gbind in E. destruct (body y s) as [[[]|e|] s1] eqn:Ey; [|done..].
  apply elem_of_cons in Hx as [->|Hx].
  - exists s, s1. split_and!; [reflexivity|done|].
    pose proof (gsteps_foreach R l body Hb s1) as H. by rewrite E in H.
  - destruct (IH _ E Hx) as (s2 & s3 & H2 & E2 & H3). exists s2, s3. split_and!; [|done|done].
    transitivity s1; [|done]. pose proof (Hb y s) as H. by rewrite Ey in H.
Qed.

(** ... and one that ended with an error stopped at an element. *)
Lemma gforeach_stops {A} (l : list A) (body : A → GoM S unit) s s' e :
  gforeach l body s = (Err e, s') → ∃ x s1 s2, x ∈ l ∧ body x s1 = (Err e, s2).
Proof.
  revert s. induction l as [|y l IH]; intros s E; [done|].
  cbn in E. unfold gbind in E. destruct (body y s) as [[[]|e'|] s1] eqn:Ey; [|injection E as -> ->|done].
  - destruct (IH _ E) as (x & s2 & s3 & Hx & E2). exists x, s2, s3. by split; [right|].
  - exists y, s, s'. by split; [left|].
Qed.
End reaches.

Create HintDb go_ok discriminated.
#[export] Hint Resolve gok_ret gok_fail : go_ok.

Ltac go_ok :=
  intros;
  repeat (first
    [ solve [auto with go_ok]
    | match goal with
      | |- gok _ (gbind gget _) => apply gok_get; intros
      | |- gok _ (gbind _ _) => apply gok_bind; [|intros]
      | |- gok _ (gcatch _ _) => apply gok_catch; [|intros]
      | |- gok _ (gforeach _ _) => apply gok_foreach; intros
      | |- gok _ (gforeachi _ _ _) => apply gok_foreachi; intros
      | |- gok _ (match ?x with _ => _ end) => destruct x eqn:?
      | |- gok _ (if ?x then _ else _) => destruct x eqn:?
      end ]).

(** ** Machine integers *)

(** Conversion of an integer to an unsigned [w]-bit one. *)
Definition wrapu (w x : Z) : Z := x `mod` 2 ^ w.
(** Conversion to Go's 64-bit [int]. *)
Definition wraps64 (x : Z) : Z := (x + 2 ^ 63) `mod` 2 ^ 64 - 2 ^ 63.
(** [x << n] and [x >> n] on an unsigned [w]-bit [x]: a count of [w] or more
    gives zero, there is no masking of the count. *)
Definition shlu (w x n : Z) : Z := if w <=? n then 0 else wrapu w (x ≪ n).
Definition shru (w x n : Z) : Z := if w <=? n then 0 else x ≫ n.
(** [1 << n] on [int]. *)
Definition shl1_int (n : Z) : Z := if 64 <=? n then 0 else wraps64 (2 ^ n).
(** [^x] on an unsigned [w]-bit [x]. *)
Definition notu (w x : Z) : Z := 2 ^ w - 1 - x.
(** [64 - bits.LeadingZeros64(x)]. *)
Definition bitlen (x : Z) : Z := if x <=? 0 then 0 else Z.log2 x + 1.

Lemma wrapu_small w x : 0 ≤ x < 2 ^ w → wrapu w x = x.
Proof. apply Z.mod_small. Qed.

Lemma wraps64_small x : - 2 ^ 63 ≤ x < 2 ^ 63 → wraps64 x = x.
Proof. intros. unfold wraps64. rewrite Z.mod_small; lia. Qed.

Lemma pow2_pos n : 0 ≤ n → 0 < 2 ^ n.
Proof. intros. apply Z.pow_pos_nonneg; lia. Qed.

Lemma pow2_split a b : 0 ≤ a → 0 ≤ b → 2 ^ (a + b) = 2 ^ a * 2 ^ b.
Proof. intros. by apply Z.pow_add_r. Qed.

Lemma shl1_int_pow n : 0 ≤ n < 63 → shl1_int n = 2 ^ n.
Proof.
  intros. unfold shl1_int. destruct (Z.leb_spec 64 n); [lia|].
  assert (2 ^ n < 2 ^ 63) by (apply Z.pow_lt_mono_r; lia).
  pose proof (pow2_pos n). apply wraps64_small; lia.
Qed.

(** ** Bit operations as arithmetic *)

(** A number put together from a high and a low part. *)
Lemma testbit_split k b x i :
  0 ≤ k → 0 ≤ x < 2 ^ k →
  Z.testbit (b * 2 ^ k + x) i = if i <? k then Z.testbit x i else Z.testbit b (i - k).
Proof.
  intros Hk Hx. destruct (Z.ltb_spec i k) as [Hi|Hi].
  - destruct (decide (0 ≤ i)); [|by rewrite !Z.testbit_neg_r by lia].
    rewrite <-(Z.mod_pow2_bits_low _ k i) by lia.
    rewrite Z.add_comm, Z_mod_plus_full, Z.mod_small by lia. done.
  - rewrite <-(Z.sub_add k i) at 1. rewrite <-Z.shiftr_spec by lia.
    rewrite Z.shiftr_div_pow2 by lia. rewrite Z.div_add_l by (pose proof (pow2_pos k); lia).
    by rewrite Z.div_small, Z.add_0_r by lia.
Qed.

Lemma land_split k b b' x y :
  0 ≤ k → 0 ≤ x < 2 ^ k → 0 ≤ y < 2 ^ k →
  Z.land (b * 2 ^ k + x) (b' * 2 ^ k + y) = Z.land b b' * 2 ^ k + Z.land x y.
Proof.
  intros Hk Hx Hy.
  assert (0 ≤ Z.land x y < 2 ^ k) as Hxy.
  { pose proof (Z.land_nonneg x y). split; [lia|].
    destruct (decide (Z.land x y = 0)) as [->|]; [by apply pow2_pos|].
    destruct (decide (x = 0)) as [->|]; [done|]. destruct (decide (y = 0)) as [->|].
    { by rewrite Z.land_0_r in *. }
    apply Z.log2_lt_pow2; [lia|]. eapply Z.le_lt_trans; [apply Z.log2_land; lia|].
    apply Z.min_lt_iff. left. apply Z.log2_lt_pow2; lia. }
  apply Z.bits_inj'. intros i Hi.
  rewrite Z.land_spec, !testbit_split by done. rewrite !Z.land_spec.
  by destruct (i <? k).
Qed.

Lemma lor_bound k x y : 0 ≤ k → 0 ≤ x < 2 ^ k → 0 ≤ y < 2 ^ k → 0 ≤ Z.lor x y < 2 ^ k.
Proof.
  intros Hk Hx Hy. split; [apply Z.lor_nonneg; lia|].
  destruct (decide (x = 0)) as [->|]; [rewrite Z.lor_0_l; lia|].
  destruct (decide (y = 0)) as [->|]; [rewrite Z.lor_0_r; lia|].
  assert (Z.lor x y ≠ 0) by (rewrite Z.lor_eq_0_iff; lia).
  pose proof (Z.lor_nonneg x y). apply Z.log2_lt_pow2; [lia|].
  rewrite Z.log2_lor by lia. apply Z.max_lub_lt; apply Z.log2_lt_pow2; lia.
Qed.

Lemma lor_split k b b' x y :
  0 ≤ k → 0 ≤ x < 2 ^ k → 0 ≤ y < 2 ^ k →
  Z.lor (b * 2 ^ k + x) (b' * 2 ^ k + y) = Z.lor b b' * 2 ^ k + Z.lor x y.
Proof.
  intros Hk Hx Hy. pose proof (lor_bound k x y Hk Hx Hy).
  apply Z.bits_inj'. intros i Hi.
  rewrite Z.lor_spec, !testbit_split by done. rewrite !Z.lor_spec.
  by destruct (i <? k).
Qed.

(** [Z.lor] of a multiple of [2^k] with a smaller number is their sum. *)
Lemma lor_aligned k c y :
  0 ≤ k → c `mod` 2 ^ k = 0 → 0 ≤ y < 2 ^ k → Z.lor c y = c + y.
Proof.
  intros Hk Hc Hy. pose proof (pow2_pos k Hk).
  rewrite (Z.div_mod c (2 ^ k)), Hc, Z.add_0_r, Z.mul_comm by lia.
  apply Z.bits_inj'. intros i Hi. rewrite Z.lor_spec, testbit_split by done.
  rewrite <-(Z.add_0_r (c / 2 ^ k * 2 ^ k)), testbit_split by lia.
  destruct (i <? k) eqn:E; [by rewrite Z.bits_0|].
  apply Z.ltb_ge in E.
  rewrite <-(Z.mod_small y (2 ^ k)), Z.mod_pow2_bits_high by lia. apply orb_false_r.
Qed.

(** [Z.lxor] with a multiple of [2^k] that agrees above bit [k] is the
    difference. *)
Lemma lxor_aligned k c x :
  0 ≤ k → c `mod` 2 ^ k = 0 → x / 2 ^ k = c / 2 ^ k → Z.lxor c x = x - c.
Proof.
  intros Hk Hc Hd. pose proof (pow2_pos k Hk).
  pose proof (Z.div_mod x (2 ^ k)) as Hx. pose proof (Z.div_mod c (2 ^ k)) as Hc'.
  rewrite Hd in Hx. rewrite Hc, Z.add_0_r in Hc'.
  replace (x - c) with (x `mod` 2 ^ k) by lia.
  rewrite Hx at 1 by lia. rewrite Hc' at 1 by lia.
  pose proof (Z.mod_pos_bound x (2 ^ k)).
  apply Z.bits_inj'. intros i Hi. rewrite Z.lxor_spec, !(Z.mul_comm (2 ^ k)).
  rewrite (testbit_split k _ (x `mod` 2 ^ k)) by lia.
  rewrite <-(Z.add_0_r (c / 2 ^ k * 2 ^ k)), testbit_split by lia.
  destruct (Z.ltb_spec i k); [by rewrite Z.bits_0, xorb_false_l|].
  by rewrite xorb_nilpotent, Z.mod_pow2_bits_high by lia.
Qed.

(** The value of a network mask of [m] leading ones in [w] bits. *)
Definition maskval (w m : Z) : Z := 2 ^ w - 2 ^ (w - m).

Lemma maskval_range w m : 0 ≤ m ≤ w → 0 ≤ maskval w m < 2 ^ w.
Proof.
  intros. unfold maskval. pose proof (pow2_pos (w - m)).
  assert (2 ^ (w - m) ≤ 2 ^ w) by (apply Z.pow_le_mono_r; lia). lia.
Qed.

(** Masking keeps the leading [m] bits: it rounds down to a multiple of the
    network size. *)
Lemma land_maskval w m x :
  0 ≤ m ≤ w → 0 ≤ x < 2 ^ w →
  Z.land x (maskval w m) = x / 2 ^ (w - m) * 2 ^ (w - m).
Proof.
  intros Hm Hx. pose proof (pow2_pos (w - m)) as Hp. unfold maskval.
  assert (2 ^ w = 2 ^ m * 2 ^ (w - m)) as Hw by (rewrite <-pow2_split by lia; f_equal; lia).
  replace (2 ^ w - 2 ^ (w - m)) with ((2 ^ m - 1) * 2 ^ (w - m) + 0) by lia.
  pose proof (Z.mod_pos_bound x (2 ^ (w - m))).
  rewrite (Z.div_mod x (2 ^ (w - m))) at 1 by lia. rewrite (Z.mul_comm (2 ^ (w - m))).
  rewrite land_split by lia. rewrite Z.land_0_r, Z.add_0_r. f_equal.
  rewrite Z.sub_1_r, <-Z.ones_equiv, Z.land_ones by lia.
  apply Z.mod_small. split; [apply Z.div_pos; lia|].
  apply Z.div_lt_upper_bound; lia.
Qed.

(** The complement of a mask covers the host part. *)
Lemma notu_maskval w m : notu w (maskval w m) = 2 ^ (w - m) - 1.
Proof. unfold notu, maskval. lia. Qed.

(** ** Multiples and quotients of powers of two *)

Lemma div_pow2_pow2 x a b : 0 ≤ a → 0 ≤ b → x / 2 ^ a / 2 ^ b = x / 2 ^ (a + b).
Proof.
  intros. pose proof (pow2_pos a). pose proof (pow2_pos b).
  rewrite pow2_split by lia. apply Z.div_div; lia.
Qed.

Lemma div_pow2_mono a b x y :
  0 ≤ a ≤ b → x / 2 ^ a = y / 2 ^ a → x / 2 ^ b = y / 2 ^ b.
Proof.
  intros Hab H. replace b with (a + (b - a)) by lia.
  rewrite <-!div_pow2_pow2 by lia. by rewrite H.
Qed.

Lemma mod_pow2_mono a b x : 0 ≤ a ≤ b → x `mod` 2 ^ b = 0 → x `mod` 2 ^ a = 0.
Proof.
  intros Hab H. pose proof (pow2_pos a). pose proof (pow2_pos b).
  apply Z.mod_divide in H as [k ->]; [|lia].
  replace b with ((b - a) + a) by lia. rewrite pow2_split, Z.mul_assoc by lia.
  apply Z_mod_mult.
Qed.

(** [x] lies in the aligned interval of size [2^k] that starts at [c]. *)
Lemma div_pow2_interval k c x :
  0 ≤ k → c `mod` 2 ^ k = 0 → (x / 2 ^ k = c / 2 ^ k ↔ c ≤ x < c + 2 ^ k).
Proof.
  intros Hk Hc. pose proof (pow2_pos k Hk).
  pose proof (Z.div_mod x (2 ^ k)). pose proof (Z.div_mod c (2 ^ k)).
  pose proof (Z.mod_pos_bound x (2 ^ k)). split.
  - intros E. rewrite E in *. lia.
  - intros. symmetry. apply Z.div_unique with (x - c); lia.
Qed.

(** ** Counting the set bits below a bound *)

Lemma filter_Forall_id {A} (P : A → Prop) `{∀ x, Decision (P x)} (l : list A) :
  Forall P l → filter P l = l.
Proof. induction 1; [done|]. rewrite filter_cons_True by done. by f_equal. Qed.

Definition bits_below (u n : Z) : list Z := filter (λ i, Z.testbit u i = true) (seqZ 0 n).
Definition popcount (u n : Z) : Z := Z.of_nat (length (bits_below u n)).

Lemma elem_of_bits_below u n i : i ∈ bits_below u n ↔ 0 ≤ i < n ∧ Z.testbit u i = true.
Proof.
  unfold bits_below. rewrite list_elem_of_filter, elem_of_seqZ.
  split; intros [? ?]; split; (lia || done).
Qed.

Lemma NoDup_bits_below u n : NoDup (bits_below u n).
Proof. apply NoDup_filter, NoDup_seqZ. Qed.

Lemma setbit_testbit u i j : 0 ≤ i → Z.testbit (Z.setbit u i) j = true ↔ j = i ∨ Z.testbit u j = true.
Proof.
  intros. rewrite Z.setbit_eqb, orb_true_iff, Z.eqb_eq by lia. naive_solver.
Qed.

Lemma clearbit_testbit u i j :
  0 ≤ i → Z.testbit (Z.clearbit u i) j = true ↔ j ≠ i ∧ Z.testbit u j = true.
Proof.
  intros. rewrite Z.clearbit_eqb, andb_true_iff, negb_true_iff, Z.eqb_neq. naive_solver.
Qed.

Lemma popcount_setbit u i n :
  0 ≤ i < n → Z.testbit u i = false → popcount (Z.setbit u i) n = popcount u n + 1.
Proof.
  intros Hi Hb. unfold popcount.
  rewrite (Permutation_length (l' := i :: bits_below u n)); [simpl; lia|].
  apply NoDup_Permutation; [apply NoDup_bits_below| |].
  - constructor; [|apply NoDup_bits_below]. rewrite elem_of_bits_below. naive_solver congruence.
  - intros j. rewrite elem_of_cons, !elem_of_bits_below, setbit_testbit by lia. naive_solver.
Qed.

Lemma popcount_clearbit u i n :
  0 ≤ i < n → Z.testbit u i = true → popcount (Z.clearbit u i) n = popcount u n - 1.
Proof.
  intros Hi Hb. unfold popcount.
  enough (i :: bits_below (Z.clearbit u i) n ≡ₚ bits_below u n) as <-%Permutation_length
    by (simpl; lia).
  apply NoDup_Permutation; [|apply NoDup_bits_below|].
  - constructor; [|apply NoDup_bits_below]. rewrite elem_of_bits_below, clearbit_testbit by lia. naive_solver.
  - intros j. rewrite elem_of_cons, !elem_of_bits_below, clearbit_testbit by lia.
    destruct (decide (j = i)); naive_solver.
Qed.

Lemma popcount_0 n : popcount 0 n = 0.
Proof.
  unfold popcount, bits_below. induction (seqZ 0 n) as [|i l IH]; [done|].
  rewrite filter_cons. case_decide as Hd; [|done]. by rewrite Z.bits_0 in Hd.
Qed.

Lemma popcount_range u n : 0 ≤ n → 0 ≤ popcount u n ≤ n.
Proof.
  intros. unfold popcount, bits_below.
  pose proof (length_filter (λ i, Z.testbit u i = true) (seqZ 0 n)) as Hl.
  rewrite length_seqZ in Hl. lia.
Qed.

(** A bitmap that is not full has a free position, and conversely. *)
Lemma popcount_full u n : 0 ≤ n → popcount u n = n ↔ ∀ i, 0 ≤ i < n → Z.testbit u i = true.
Proof.
  intros Hn. split.
  - intros Hp i Hi. destruct (Z.testbit u i) eqn:Hb; [done|].
    pose proof (popcount_setbit u i n Hi Hb). pose proof (popcount_range (Z.setbit u i) n Hn). lia.
  - intros Hall. unfold popcount, bits_below.
    rewrite filter_Forall_id, length_seqZ; [lia|].
    apply Forall_forall. intros i Hi%elem_of_seqZ. apply Hall. lia.
Qed.

(** Checking a property of a bounded integer by evaluation. *)
Lemma forall_below (P : Z → Prop) `{∀ i, Decision (P i)} n i :
  forallb (λ i, bool_decide (P i)) (seqZ 0 n) = true → 0 ≤ i < n → P i.
Proof.
  rewrite forallb_forall. intros H' Hi. apply (bool_decide_eq_true (P i)), H'.
  apply list_elem_of_In, elem_of_seqZ. lia.
Qed.

Lemma insert_middle_nat {A} (pre suf : list A) x y :
  <[length pre := y]> (pre ++ x :: suf) = pre ++ y :: suf.
Proof. rewrite <-(Nat.add_0_r (length pre)), insert_app_r. done. Qed.
