(* ===== verification/GoNet.v ===== *)
(** * The parts of Go's [net], [encoding/binary] and [strconv] the program uses

    Addresses are byte slices, as in Go: [net.IP] and [net.IPMask] are lists of
    bytes of any length, [nil] is the empty list, and every function branches on
    the lengths the way the library does, the IPv4-mapped form included.  The
    second half relates the byte-level functions to intervals of addresses for
    canonical networks ([canon]). *)

From S2P Require Import Prelude.

(** ** Big-endian integers *)

Fixpoint be_uint (bs : list Z) : Z :=
  match bs with
  | [] => 0
  | b :: bs' => b * 2 ^ (8 * Z.of_nat (length bs')) + be_uint bs'
  end.

Fixpoint be_bytes (n : nat) (x : Z) : list Z :=
  match n with
  | O => []
  | S n' => (x / 2 ^ (8 * Z.of_nat n')) `mod` 256 :: be_bytes n' x
  end.

(** [binary.BigEndian.Uint32(b)] reads the first four bytes and panics on a
    shorter slice; [Uint64] the same with eight. *)
Definition Uint32 (b : list Z) : outcome Z :=
  if (length b <? 4)%nat then Panic else Ok (be_uint (take 4 b)).
Definition Uint64 (b : list Z) : outcome Z :=
  if (length b <? 8)%nat then Panic else Ok (be_uint (take 8 b)).

(** ** Addresses, masks and networks *)

Definition IPv4len : nat := 4.
Definition IPv6len : nat := 16.

Record IPNet := mkIPNet { ip_of : list Z; mask_of : list Z }.

#[export] Instance IPNet_eq_dec : EqDecision IPNet.
Proof. solve_decision. Defined.

Definition v4InV6Prefix : list Z := [0;0;0;0;0;0;0;0;0;0;255;255].

(** [ip.To4()]; [None] is Go's [nil]. *)
Definition To4 (ip : list Z) : option (list Z) :=
  if decide (length ip = IPv4len) then Some ip
  else if decide (length ip = IPv6len ∧ take 12 ip = v4InV6Prefix) then Some (drop 12 ip)
  else None.

Definition To16 (ip : list Z) : option (list Z) :=
  if decide (length ip = IPv4len) then Some (v4InV6Prefix ++ ip)
  else if decide (length ip = IPv6len) then Some ip
  else None.

Definition allFF (bs : list Z) : bool := forallb (λ b, b =? 255) bs.

(** [ip.Mask(mask)]; [nil] (a length mismatch) is the empty list. *)
Definition IP_Mask (ip mask : list Z) : list Z :=
  let mask := if (length mask =? IPv6len)%nat && (length ip =? IPv4len)%nat && allFF (take 12 mask)
              then drop 12 mask else mask in
  let ip := if (length mask =? IPv4len)%nat && (length ip =? IPv6len)%nat &&
               bool_decide (take 12 ip = v4InV6Prefix)
            then drop 12 ip else ip in
  if (length ip =? length mask)%nat then zip_with Z.land ip mask else [].

(** One byte of [net.CIDRMask]: [^byte(0xff >> n)]. *)
Definition mask_byte (n : Z) : Z := 255 - Z.shiftr 255 n.

Fixpoint cidr_mask_bytes (l : nat) (n : Z) : list Z :=
  match l with
  | O => []
  | S l' => if 8 <=? n then 255 :: cidr_mask_bytes l' (n - 8)
            else mask_byte n :: cidr_mask_bytes l' 0
  end.

Definition CIDRMask (ones bits : Z) : list Z :=
  if negb (bits =? 32) && negb (bits =? 128) then []
  else if (ones <? 0) || (bits <? ones) then []
  else cidr_mask_bytes (Z.to_nat (bits / 8)) ones.

(** The leading one bits of a byte, and what is left after them. *)
Fixpoint lead_ones (fuel : nat) (v : Z) : Z * Z :=
  match fuel with
  | O => (0, v)
  | S f => if Z.testbit v 7 then let '(k, r) := lead_ones f ((v * 2) `mod` 256) in (k + 1, r)
           else (0, v)
  end.

(** [simpleMaskLength]: [None] is the library's [-1], a mask that is not a run
    of ones followed by zeros. *)
Fixpoint simpleMaskLength (mask : list Z) : option Z :=
  match mask with
  | [] => Some 0
  | v :: rest =>
      if v =? 255 then (λ n, n + 8) <$> simpleMaskLength rest
      else let '(k, r) := lead_ones 8 v in
           if (r =? 0) && forallb (λ b, b =? 0) rest then Some k else None
  end.

(** [mask.Size()]. *)
Definition Mask_Size (mask : list Z) : Z * Z :=
  match simpleMaskLength mask with
  | None => (0, 0)
  | Some n => (n, Z.of_nat (length mask) * 8)
  end.

(** [networkNumberAndMask]: [None] is the pair of [nil]s. *)
Definition networkNumberAndMask (n : IPNet) : option (list Z * list Z) :=
  let ip := match To4 (ip_of n) with Some x => x | None => ip_of n end in
  if (length ip =? IPv4len)%nat || (length ip =? IPv6len)%nat then
    if (length (mask_of n) =? IPv4len)%nat then
      if (length ip =? IPv4len)%nat then Some (ip, mask_of n) else None
    else if (length (mask_of n) =? IPv6len)%nat then
      if (length ip =? IPv4len)%nat then Some (ip, drop 12 (mask_of n)) else Some (ip, mask_of n)
    else None
  else None.

(** [n.Contains(ip)]. *)
Definition IPNet_Contains (n : IPNet) (ip : list Z) : bool :=
  let '(nn, m) := default ([], []) (networkNumberAndMask n) in
  let ip := match To4 ip with Some x => x | None => ip end in
  (length ip =? length nn)%nat && bool_decide (zip_with Z.land nn m = zip_with Z.land ip m).

(** ** Printing *)

Definition digit (n : Z) : string :=
  match n with
  | 0 => "0" | 1 => "1" | 2 => "2" | 3 => "3" | 4 => "4" | 5 => "5" | 6 => "6" | 7 => "7"
  | 8 => "8" | 9 => "9" | 10 => "a" | 11 => "b" | 12 => "c" | 13 => "d" | 14 => "e" | _ => "f"
  end%string.

(** Digits of a non-negative number without leading zeros. *)
Fixpoint print_base (fuel : nat) (base n : Z) : string :=
  match fuel with
  | O => ""
  | S f => if n <? base then digit n else print_base f base (n / base) +:+ digit (n `mod` base)
  end.
Definition Uitoa (n : Z) : string := print_base 20 10 n.
Definition hex16 (n : Z) : string := print_base 4 16 n.
Definition hexString (bs : list Z) : string :=
  String.concat "" (map (λ b, digit (b / 16) +:+ digit (b `mod` 16)) bs).

Fixpoint u16_groups (bs : list Z) : list Z :=
  match bs with
  | hi :: lo :: rest => (hi * 256 + lo) :: u16_groups rest
  | _ => []
  end.

Fixpoint zero_run (gs : list Z) : nat :=
  match gs with
  | 0 :: gs' => S (zero_run gs')
  | _ => O
  end.

(** The run of zero groups [::] stands for: the first longest one of at least
    two groups, as start and end. *)
Fixpoint zero_scan (i : nat) (gs : list Z) (best : option (nat * nat)) : option (nat * nat) :=
  match gs with
  | [] => best
  | _ :: gs' =>
      let l := zero_run gs in
      let cur := match best with None => O | Some (s, e) => (e - s)%nat end in
      zero_scan (S i) gs' (if (2 <=? l)%nat && (cur <? l)%nat then Some (i, (i + l)%nat) else best)
  end.

Definition print6 (gs : list Z) : string :=
  match zero_scan 0 gs None with
  | None => String.concat ":" (map hex16 gs)
  | Some (s, e) =>
      String.concat ":" (map hex16 (take s gs)) +:+ "::" +:+ String.concat ":" (map hex16 (drop e gs))
  end.

(** [ip.String()]. *)
Definition IP_String (ip : list Z) : string :=
  if (length ip =? 0)%nat then "<nil>"
  else match To4 ip with
       | Some v4 => String.concat "." (map Uitoa v4)
       | None => if (length ip =? IPv6len)%nat then print6 (u16_groups ip)
                 else "?" +:+ hexString ip
       end.

(** [n.String()] on a possibly nil [*net.IPNet]. *)
Definition IPNet_String (n : option IPNet) : string :=
  match n with
  | None => "<nil>"
  | Some n =>
      match networkNumberAndMask n with
      | None => "<nil>"
      | Some (nn, m) =>
          match simpleMaskLength m with
          | None => IP_String nn +:+ "/" +:+ hexString m
          | Some l => IP_String nn +:+ "/" +:+ Uitoa l
          end
      end
  end.

(** ** Byte strings of a number *)

Lemma length_be_bytes n x : length (be_bytes n x) = n.
Proof. induction n; simpl; auto. Qed.

Lemma be_uint_bytes n x : be_uint (be_bytes n x) = x `mod` 2 ^ (8 * Z.of_nat n).
Proof.
  induction n as [|n IH]; simpl; [by rewrite Z.mod_1_r|].
  rewrite length_be_bytes, IH. set (k := 8 * Z.of_nat n).
  replace (2 ^ (8 * Z.of_nat (S n))) with (2 ^ k * 256)
    by (change 256 with (2 ^ 8); rewrite <-pow2_split by lia; f_equal; lia).
  pose proof (pow2_pos k). rewrite Z.rem_mul_r by lia. lia.
Qed.

Lemma drop_be_bytes k n x : (k ≤ n)%nat → drop k (be_bytes n x) = be_bytes (n - k) x.
Proof.
  revert n. induction k as [|k IH]; intros n Hk; [by rewrite drop_0, Nat.sub_0_r|].
  destruct n as [|n]; [lia|]. simpl. apply IH. lia.
Qed.

Lemma take_be_bytes k n x :
  (k ≤ n)%nat → take k (be_bytes n x) = be_bytes k (x / 2 ^ (8 * Z.of_nat (n - k))).
Proof.
  revert n. induction k as [|k IH]; intros n Hk; [done|].
  destruct n as [|n]; [lia|]. simpl. rewrite IH by lia. f_equal.
  rewrite div_pow2_pow2 by lia. f_equal. f_equal. f_equal. lia.
Qed.

Lemma be_uint_bytes_small n x : 0 ≤ x < 2 ^ (8 * Z.of_nat n) → be_uint (be_bytes n x) = x.
Proof. intros. by rewrite be_uint_bytes, Z.mod_small. Qed.

Lemma be_bytes_inj n x y :
  0 ≤ x < 2 ^ (8 * Z.of_nat n) → 0 ≤ y < 2 ^ (8 * Z.of_nat n) →
  be_bytes n x = be_bytes n y ↔ x = y.
Proof.
  intros Hx Hy. split; [|by intros ->]. intros E.
  by rewrite <-(be_uint_bytes_small n x), E, be_uint_bytes_small.
Qed.

Lemma be_bytes_mod n x : be_bytes n (x `mod` 2 ^ (8 * Z.of_nat n)) = be_bytes n x.
Proof.
  enough (∀ k, (k ≤ n)%nat → be_bytes k (x `mod` 2 ^ (8 * Z.of_nat n)) = be_bytes k x) by eauto.
  induction k as [|k IH]; intros Hk; [done|]. simpl. rewrite IH by lia. f_equal.
  set (a := 8 * Z.of_nat k). change 256 with (2 ^ 8).
  rewrite <-!Z.land_ones, <-!Z.shiftr_div_pow2, Z.shiftr_land by lia.
  rewrite <-Z.land_assoc. f_equal.
  rewrite Z.shiftr_div_pow2, Z.ones_div_pow2, Z.land_comm by lia.
  rewrite Z.land_ones, Z.ones_equiv by lia. apply Z.mod_small.
  assert (2 ^ 8 ≤ 2 ^ (8 * Z.of_nat n - a)) by (apply Z.pow_le_mono_r; lia). lia.
Qed.

(** Two 64-bit halves. *)
Lemma be_bytes_halves l r :
  0 ≤ r < 2 ^ 64 → be_bytes 8 l ++ be_bytes 8 r = be_bytes 16 (l * 2 ^ 64 + r).
Proof.
  intros Hr. rewrite <-(take_drop 8 (be_bytes 16 _)).
  rewrite take_be_bytes, drop_be_bytes by lia. change (16 - 8)%nat with 8%nat.
  change (8 * Z.of_nat 8) with 64.
  rewrite Z.div_add_l, (Z.div_small r), Z.add_0_r by lia. f_equal.
  rewrite <-(be_bytes_mod 8 (l * 2 ^ 64 + r)). change (8 * Z.of_nat 8) with 64.
  rewrite Z.add_comm, Z_mod_plus_full, Z.mod_small by lia. done.
Qed.

Lemma zip_land_be_bytes n x y :
  zip_with Z.land (be_bytes n x) (be_bytes n y) = be_bytes n (Z.land x y).
Proof.
  induction n as [|n IH]; [done|]. simpl. rewrite IH. f_equal.
  change 256 with (2 ^ 8).
  rewrite <-!Z.land_ones, <-!Z.shiftr_div_pow2, Z.shiftr_land by lia.
  rewrite <-(Z.land_diag (Z.ones 8)) at 3. rewrite !Z.land_assoc. f_equal.
  rewrite <-!Z.land_assoc. f_equal. apply Z.land_comm.
Qed.

(** ** Canonical networks *)

Inductive family := V4 | V6.

#[export] Instance family_eq_dec : EqDecision family.
Proof. solve_decision. Defined.

Definition nbytes (f : family) : nat := match f with V4 => IPv4len | V6 => IPv6len end.
Definition width (f : family) : Z := match f with V4 => 32 | V6 => 128 end.

(** The slice that holds address [x], and the network [x/m]. *)
Definition mk_ip (f : family) (x : Z) : list Z := be_bytes (nbytes f) x.
Definition mk_net (f : family) (a m : Z) : IPNet := mkIPNet (mk_ip f a) (CIDRMask m (width f)).

(** An IPv6 address that is not in the IPv4-mapped range [::ffff:0:0/96]. *)
Definition plain (f : family) (x : Z) : Prop := f = V6 → x / 2 ^ 32 ≠ 65535.

(** Network [a/m] as [net.ParseCIDR] delivers it: a mask within the width and an
    address with no host bits. *)
Record canon (f : family) (a m : Z) : Prop := {
  canon_mask : 0 ≤ m ≤ width f;
  canon_addr : 0 ≤ a < 2 ^ width f;
  canon_aligned : a `mod` 2 ^ (width f - m) = 0;
  canon_plain : plain f a }.

(** Address [x] belongs to network [a/m]. *)
Definition in_net (f : family) (a m x : Z) : Prop := a ≤ x < a + 2 ^ (width f - m).

#[export] Instance plain_dec f x : Decision (plain f x).
Proof. unfold plain. destruct f; [left; discriminate|]. apply _. Defined.
#[export] Instance in_net_dec f a m x : Decision (in_net f a m x).
Proof. unfold in_net. apply _. Defined.

Lemma width_pos f : 0 < width f. Proof. by destruct f. Qed.
Lemma width_nbytes f : width f = 8 * Z.of_nat (nbytes f). Proof. by destruct f. Qed.

Lemma length_mk_ip f x : length (mk_ip f x) = nbytes f.
Proof. apply length_be_bytes. Qed.

Lemma be_uint_mk_ip f x : 0 ≤ x < 2 ^ width f → be_uint (mk_ip f x) = x.
Proof. rewrite width_nbytes. apply be_uint_bytes_small. Qed.

Lemma mk_ip_inj f x y :
  0 ≤ x < 2 ^ width f → 0 ≤ y < 2 ^ width f → mk_ip f x = mk_ip f y ↔ x = y.
Proof. rewrite width_nbytes. apply be_bytes_inj. Qed.

(** The mask bytes are the big-endian bytes of [maskval]; checked by evaluation
    at each of the 33 and 129 mask sizes. *)
Lemma CIDRMask_bytes f m : 0 ≤ m ≤ width f → CIDRMask m (width f) = mk_ip f (maskval (width f) m).
Proof.
  intros Hm.
  apply (forall_below (λ m, CIDRMask m (width f) = mk_ip f (maskval (width f) m)) (width f + 1));
    [|lia].
  destruct f; vm_compute; reflexivity.
Qed.

Lemma Mask_Size_CIDRMask f m : 0 ≤ m ≤ width f → Mask_Size (CIDRMask m (width f)) = (m, width f).
Proof.
  intros Hm.
  apply (forall_below (λ m, Mask_Size (CIDRMask m (width f)) = (m, width f)) (width f + 1)); [|lia].
  destruct f; vm_compute; reflexivity.
Qed.

Lemma length_CIDRMask f m : 0 ≤ m ≤ width f → length (CIDRMask m (width f)) = nbytes f.
Proof. intros. by rewrite CIDRMask_bytes, length_mk_ip. Qed.

Lemma To4_v4 x : To4 (mk_ip V4 x) = Some (mk_ip V4 x).
Proof. done. Qed.

Lemma mapped_prefix x :
  0 ≤ x < 2 ^ 128 → take 12 (mk_ip V6 x) = v4InV6Prefix ↔ x / 2 ^ 32 = 65535.
Proof.
  intros Hx. unfold mk_ip, nbytes, IPv6len. rewrite take_be_bytes by lia.
  change v4InV6Prefix with (be_bytes 12 65535). change (8 * Z.of_nat (16 - 12)) with 32.
  apply be_bytes_inj; [|done]. change (8 * Z.of_nat 12) with 96.
  split; [apply Z.div_pos; lia|]. apply Z.div_lt_upper_bound; lia.
Qed.

Lemma To4_v6 x : 0 ≤ x < 2 ^ 128 → plain V6 x → To4 (mk_ip V6 x) = None.
Proof.
  intros Hx Hp. unfold To4. rewrite length_mk_ip.
  rewrite decide_False by discriminate. rewrite decide_False; [done|].
  rewrite mapped_prefix by done. intros [_ ?]. by apply Hp.
Qed.

Lemma To4_None f x : 0 ≤ x < 2 ^ width f → plain f x → To4 (mk_ip f x) = None ↔ f = V6.
Proof. intros ? ?. destruct f; [done|]. by rewrite To4_v6. Qed.

Lemma To4_or f x :
  0 ≤ x < 2 ^ width f → plain f x →
  match To4 (mk_ip f x) with Some y => y | None => mk_ip f x end = mk_ip f x.
Proof. intros ? ?. destruct f; [done|]. by rewrite To4_v6. Qed.

Lemma To16_mk_ip f x : is_Some (To16 (mk_ip f x)).
Proof. destruct f; by eexists. Qed.

Lemma IP_Mask_mk f x m :
  0 ≤ m ≤ width f → 0 ≤ x < 2 ^ width f →
  IP_Mask (mk_ip f x) (CIDRMask m (width f)) = mk_ip f (x / 2 ^ (width f - m) * 2 ^ (width f - m)).
Proof.
  intros Hm Hx. unfold IP_Mask. rewrite length_mk_ip, length_CIDRMask by done.
  assert (zip_with Z.land (mk_ip f x) (CIDRMask m (width f)) =
    mk_ip f (x / 2 ^ (width f - m) * 2 ^ (width f - m))) as E.
  { rewrite CIDRMask_bytes by done. unfold mk_ip. by rewrite zip_land_be_bytes, land_maskval. }
  destruct f; cbn -[mk_ip CIDRMask width take]; rewrite ?length_mk_ip, ?length_CIDRMask by done; done.
Qed.

Lemma round_down_range f m x :
  0 ≤ m ≤ width f → 0 ≤ x < 2 ^ width f →
  0 ≤ x / 2 ^ (width f - m) * 2 ^ (width f - m) < 2 ^ width f.
Proof.
  intros Hm Hx. pose proof (pow2_pos (width f - m)).
  pose proof (Z.mul_div_le x (2 ^ (width f - m))). pose proof (Z.div_pos x (2 ^ (width f - m))). nia.
Qed.

(** Masking a plain address gives a plain address. *)
Lemma round_down_plain f m x :
  0 ≤ m ≤ width f → plain f x → plain f (x / 2 ^ (width f - m) * 2 ^ (width f - m)).
Proof.
  intros Hm Hp ->. specialize (Hp eq_refl). simpl in *. set (k := 128 - m).
  destruct (decide (k ≤ 32)) as [Hk|Hk].
  - replace 32 with (k + (32 - k)) by lia. rewrite <-div_pow2_pow2 by lia.
    rewrite Z.div_mul by (pose proof (pow2_pos k); lia).
    rewrite div_pow2_pow2 by lia. by replace (k + (32 - k)) with 32 by lia.
  - replace k with ((k - 33) + 1 + 32) by lia. rewrite !(pow2_split _ 32), !Z.mul_assoc by lia.
    rewrite Z.div_mul by done. rewrite (pow2_split _ 1) by lia. change (2 ^ 1) with 2. lia.
Qed.

Lemma networkNumberAndMask_mk f a m :
  0 ≤ m ≤ width f → 0 ≤ a < 2 ^ width f → plain f a →
  networkNumberAndMask (mk_net f a m) = Some (mk_ip f a, CIDRMask m (width f)).
Proof.
  intros Hm Ha Hp. unfold networkNumberAndMask, mk_net; cbn [ip_of mask_of].
  rewrite To4_or by done. rewrite length_mk_ip, length_CIDRMask by done. by destruct f.
Qed.

(** [Contains] compares network numbers. *)
Lemma Contains_mk f a m x :
  0 ≤ m ≤ width f → 0 ≤ a < 2 ^ width f → plain f a → 0 ≤ x < 2 ^ width f → plain f x →
  IPNet_Contains (mk_net f a m) (mk_ip f x) =
  bool_decide (a / 2 ^ (width f - m) = x / 2 ^ (width f - m)).
Proof.
  intros Hm Ha Hpa Hx Hpx. unfold IPNet_Contains.
  rewrite networkNumberAndMask_mk, To4_or by done. cbn [from_option id].
  rewrite !length_mk_ip, Nat.eqb_refl, andb_true_l. apply bool_decide_ext.
  rewrite CIDRMask_bytes by done. unfold mk_ip. rewrite !zip_land_be_bytes, !land_maskval by done.
  fold (mk_ip f). rewrite be_bytes_inj by (rewrite <-width_nbytes; by apply round_down_range).
  pose proof (pow2_pos (width f - m)). split; [|by intros ->]. nia.
Qed.

(** For a canonical network it is membership in its interval of addresses. *)
Lemma Contains_canon f a m x :
  canon f a m → 0 ≤ x < 2 ^ width f → plain f x →
  IPNet_Contains (mk_net f a m) (mk_ip f x) = bool_decide (in_net f a m x).
Proof.
  intros [Hm Ha Hal Hp] Hx Hpx. rewrite Contains_mk by done. apply bool_decide_ext.
  unfold in_net. rewrite <-div_pow2_interval by (done || lia). naive_solver.
Qed.

Lemma canon_top f a m : canon f a m → a + 2 ^ (width f - m) ≤ 2 ^ width f.
Proof.
  intros [Hm Ha Hal _]. pose proof (pow2_pos (width f - m)) as Hp.
  assert (2 ^ width f = 2 ^ m * 2 ^ (width f - m)) as E by (rewrite <-pow2_split by lia; f_equal; lia).
  pose proof (Z.div_mod a (2 ^ (width f - m))) as Hd. rewrite Hal in Hd.
  assert (a / 2 ^ (width f - m) < 2 ^ m) by (apply Z.div_lt_upper_bound; lia). nia.
Qed.

Lemma in_net_range f a m x : canon f a m → in_net f a m x → 0 ≤ x < 2 ^ width f.
Proof. intros Hc. pose proof (canon_top f a m Hc). destruct Hc. unfold in_net. lia. Qed.

(** Reading the words of an address. *)
Lemma Uint32_mk x : 0 ≤ x < 2 ^ 32 → Uint32 (mk_ip V4 x) = Ok x.
Proof.
  intros. unfold Uint32. rewrite length_mk_ip. change (nbytes V4 <? 4)%nat with false. cbn iota.
  rewrite take_ge by (by rewrite length_mk_ip). by rewrite be_uint_mk_ip.
Qed.

Lemma Uint64_high x : 0 ≤ x < 2 ^ 128 → Uint64 (take 8 (mk_ip V6 x)) = Ok (x / 2 ^ 64).
Proof.
  intros. unfold Uint64, mk_ip, nbytes, IPv6len.
  rewrite take_take. change (8 `min` 8)%nat with 8%nat. rewrite take_be_bytes by lia.
  rewrite length_be_bytes. change (8 <? 8)%nat with false. cbn iota.
  change (8 * Z.of_nat (16 - 8)) with 64. rewrite be_uint_bytes_small; [done|]. split; [apply Z.div_pos; lia|].
  apply Z.div_lt_upper_bound; lia.
Qed.

Lemma Uint64_low x : 0 ≤ x < 2 ^ 128 → Uint64 (drop 8 (mk_ip V6 x)) = Ok (x `mod` 2 ^ 64).
Proof.
  intros. unfold Uint64, mk_ip, nbytes, IPv6len.
  rewrite drop_be_bytes, length_be_bytes by lia. change (16 - 8)%nat with 8%nat.
  change (8 <? 8)%nat with false. cbn iota.
  rewrite take_ge by (rewrite length_be_bytes; lia). by rewrite be_uint_bytes.
Qed.

(** ** Overlap of networks *)

Definition overlap (f : family) (a m b n : Z) : Prop := ∃ x, in_net f a m x ∧ in_net f b n x.

Lemma overlap_interval f a m b n :
  overlap f a m b n ↔ a `max` b < (a + 2 ^ (width f - m)) `min` (b + 2 ^ (width f - n)).
Proof. unfold overlap, in_net. split; [intros (x & ? & ?); lia|]. exists (a `max` b). lia. Qed.

#[export] Instance overlap_dec f a m b n : Decision (overlap f a m b n).
Proof.
  refine (cast_if (decide (a `max` b < (a + 2 ^ (width f - m)) `min` (b + 2 ^ (width f - n)))));
    by rewrite overlap_interval.
Defined.

(** Two canonical networks meet exactly when one contains the address of the
    other: the test of [getBeginningAndEndIndices] and [filterOutServiceRange]. *)
Lemma overlap_iff f a m b n :
  canon f a m → canon f b n →
  overlap f a m b n ↔
  a / 2 ^ (width f - m) = b / 2 ^ (width f - m) ∨ b / 2 ^ (width f - n) = a / 2 ^ (width f - n).
Proof.
  intros [Hm Ha Hal _] [Hn Hb Hbl _]. unfold overlap, in_net. split.
  - intros (x & Hx1 & Hx2).
    apply div_pow2_interval in Hx1; [|lia|done]. apply div_pow2_interval in Hx2; [|lia|done].
    destruct (decide (m ≤ n)) as [Hle|Hle].
    + left. rewrite <-Hx1. eapply div_pow2_mono; [|exact Hx2]. lia.
    + right. rewrite <-Hx2. eapply div_pow2_mono; [|exact Hx1]. lia.
  - pose proof (pow2_pos (width f - m)). pose proof (pow2_pos (width f - n)).
    intros [E|E]; [exists b|exists a]; split; try lia.
    + by apply div_pow2_interval; [lia|done|].
    + by apply div_pow2_interval; [lia|done|].
Qed.

Lemma overlap_sym f a m b n : overlap f a m b n ↔ overlap f b n a m.
Proof. unfold overlap. naive_solver. Qed.

(** Membership test after masking, the form the code uses. *)
Lemma Contains_masked f a m b n :
  canon f a m → 0 ≤ n ≤ width f → 0 ≤ b < 2 ^ width f → plain f b →
  IPNet_Contains (mk_net f a m) (IP_Mask (mk_ip f b) (CIDRMask m (width f))) =
  bool_decide (a / 2 ^ (width f - m) = b / 2 ^ (width f - m)).
Proof.
  intros [Hm Ha Hal Hp] Hn Hb Hpb. rewrite IP_Mask_mk by done.
  rewrite Contains_mk by (done || by apply round_down_range || by apply round_down_plain).
  by rewrite Z.div_mul by (pose proof (pow2_pos (width f - m)); lia).
Qed.

Lemma Mask_Size_canon f a m : canon f a m → Mask_Size (mask_of (mk_net f a m)) = (m, width f).
Proof. intros H. apply Mask_Size_CIDRMask, H. Qed.

(** ** Networks of the other family *)

Lemma Contains_length f a m ip :
  canon f a m → length (match To4 ip with Some y => y | None => ip end) ≠ nbytes f →
  IPNet_Contains (mk_net f a m) ip = false.
Proof.
  intros [Hm Ha _ Hp] Hl. unfold IPNet_Contains. rewrite networkNumberAndMask_mk by done.
  cbn [from_option id]. rewrite length_mk_ip. by rewrite (proj2 (Nat.eqb_neq _ _)).
Qed.

Lemma To4_length4 ip : length ip = 4%nat → To4 ip = Some ip.
Proof. intros H. unfold To4. by rewrite decide_True. Qed.

(** An address of the other family, masked or not, is never contained. *)
Lemma Contains_other_family f f' a m b :
  f ≠ f' → canon f a m → 0 ≤ b < 2 ^ width f' → plain f' b →
  IPNet_Contains (mk_net f a m) (IP_Mask (mk_ip f' b) (CIDRMask m (width f))) = false.
Proof.
  intros Hf Hc Hb Hp. apply Contains_length; [done|]. pose proof (canon_mask _ _ _ Hc) as Hm.
  pose proof (length_CIDRMask f m Hm) as Hlm. pose proof (length_mk_ip f' b) as Hli.
  assert (f' = V6 → take 12 (mk_ip f' b) ≠ v4InV6Prefix) as Hpre.
  { intros ->. rewrite mapped_prefix by done. by apply Hp. }
  generalize dependent (mk_ip f' b). generalize dependent (CIDRMask m (width f)).
  intros mask Hlm ip Hli Hpre.
  unfold IP_Mask. destruct f, f'; try done; cbn in Hlm, Hli; rewrite Hlm, Hli; cbn -[take drop].
  - rewrite Hlm. cbn -[take drop]. rewrite bool_decide_false by auto. by rewrite Hli.
  - destruct (allFF (take 12 mask)); cbn -[take drop].
    + rewrite length_drop, ?Hlm. cbn -[take drop]. rewrite ?Hli. cbn -[take drop].
      rewrite To4_length4; rewrite length_zip_with, length_drop, Hli, Hlm; done.
    + rewrite ?Hlm, ?Hli. cbn -[take drop]. by rewrite Hli.
Qed.

Lemma mk_net_addr_inj f a b m n :
  0 ≤ a < 2 ^ width f → 0 ≤ b < 2 ^ width f → mk_net f a m = mk_net f b n → a = b.
Proof. intros Ha Hb E. injection E as E _. by apply (mk_ip_inj f). Qed.

Lemma mk_net_inj f a m f' b n :
  canon f a m → canon f' b n → mk_net f a m = mk_net f' b n → f = f' ∧ a = b ∧ m = n.
Proof.
  intros Ha Hb E. pose proof (Mask_Size_canon f a m Ha) as E1. rewrite E, (Mask_Size_canon f' b n Hb) in E1.
  injection E1 as -> Ew. assert (f = f') as <- by (by destruct f, f').
  split_and!; [done|by eapply mk_net_addr_inj; [apply Ha|apply Hb|]|done].
Qed.

#[export] Instance canon_dec f a m : Decision (canon f a m).
Proof.
  refine (cast_if (decide (0 ≤ m ≤ width f ∧ 0 ≤ a < 2 ^ width f ∧ a `mod` 2 ^ (width f - m) = 0 ∧ plain f a)));
    [abstract (by split; naive_solver)|abstract (intros []; naive_solver)].
Defined.

(** The family, address and mask size of a network; none where the value is no
    network. *)
Definition net_parts (n : IPNet) : option (family * Z * Z) :=
  let f := if decide (length (ip_of n) = IPv4len) then V4 else V6 in
  let a := be_uint (ip_of n) in
  let m := (Mask_Size (mask_of n)).1 in
  if decide (n = mk_net f a m ∧ canon f a m) then Some (f, a, m) else None.

Lemma net_parts_mk f a m : canon f a m → net_parts (mk_net f a m) = Some (f, a, m).
Proof.
  intros Hc. unfold net_parts. cbn [mk_net ip_of mask_of].
  assert ((if decide (length (mk_ip f a) = IPv4len) then V4 else V6) = f) as ->.
  { rewrite length_mk_ip. destruct f; by case_decide. }
  rewrite be_uint_mk_ip by apply Hc. rewrite Mask_Size_CIDRMask by apply Hc. cbn [fst]. by rewrite decide_True.
Qed.

Lemma net_parts_Some n f a m : net_parts n = Some (f, a, m) → n = mk_net f a m ∧ canon f a m.
Proof. unfold net_parts. case_decide as H; [|done]. by intros [= <- <- <-]. Qed.

(** Networks of one family that share no address, or of different families. *)
Definition clear_nets (x y : IPNet) : Prop :=
  ∃ f a m f' b n, x = mk_net f a m ∧ canon f a m ∧ y = mk_net f' b n ∧ canon f' b n ∧
    (f' = f → ¬ overlap f a m b n).

Lemma clear_nets_parts x y : clear_nets x y ↔
  match net_parts x, net_parts y with
  | Some (f, a, m), Some (f', b, n) => ¬ (f' = f ∧ overlap f a m b n)
  | _, _ => False
  end.
Proof.
  split.
  - intros (f & a & m & f' & b & n & -> & Ha & -> & Hb & Hno). rewrite !net_parts_mk by done. naive_solver.
  - destruct (net_parts x) as [[[f a] m]|] eqn:Ex; [|done]. destruct (net_parts y) as [[[f' b] n]|] eqn:Ey; [|done].
    intros Hno. apply net_parts_Some in Ex as [-> Ha], Ey as [-> Hb]. exists f, a, m, f', b, n. naive_solver.
Qed.

#[export] Instance clear_nets_dec x y : Decision (clear_nets x y).
Proof.
  destruct (net_parts x) as [[[f a] m]|] eqn:Ex; [|right; abstract (rewrite clear_nets_parts, Ex; by intros [])].
  destruct (net_parts y) as [[[f' b] n]|] eqn:Ey; [|right; abstract (rewrite clear_nets_parts, Ex, Ey; by intros [])].
  refine (cast_if_not (decide (f' = f ∧ overlap f a m b n))); abstract (rewrite clear_nets_parts, Ex, Ey; tauto).
Defined.

(** The two shapes of a network that [net.ParseCIDR] and its relatives deliver. *)
Definition sized (n : IPNet) : Prop :=
  (length (ip_of n) = 4 ∧ length (mask_of n) = 4)%nat ∨
  (length (ip_of n) = 16 ∧ length (mask_of n) = 16)%nat.
