(* ===== verification/CidrSet.v ===== *)
(** * [pkg/nodeipam/ipam/cidrset]: the bitmap allocator of node CIDRs

    [CidrSet] is the Go struct field for field; [used] (a [big.Int]) is a
    non-negative [Z] read and written with [Z.testbit], [Z.setbit] and
    [Z.clearbit].  Each method is one definition.  A method that changes its
    receiver returns the new receiver next to its result; each of them holds the
    mutex for its whole effect, so one call is one atomic step.  The metrics a
    method emits are logged, newest first, in [metrics]. *)

From S2P Require Import Prelude GoNet.

Local Open Scope go_scope.

(** ** State *)

(** The Prometheus calls of the package, each under the label of its set. *)
Inductive metric :=
  | MaxCidrs_Set (n : Z)
  | Allocations_Inc
  | Releases_Inc
  | Tries_Observe (i : Z)
  | Usage_Set (allocated max : Z).

#[export] Instance metric_eq_dec : EqDecision metric.
Proof. solve_decision. Defined.

Record CidrSet := mkCidrSet {
  clusterCIDR : IPNet;
  clusterMaskSize : Z;
  nodeMask : list Z;
  nodeMaskSize : Z;
  maxCIDRs : Z;
  allocatedCIDRs : Z;
  nextCandidate : Z;
  used : Z;
  label : string;
  metrics : list metric }.

#[export] Instance CidrSet_eq_dec : EqDecision CidrSet.
Proof. solve_decision. Defined.

Definition clusterSubnetMaxDiff : Z := 16.

Definition ErrCIDRRangeNoCIDRsRemaining : error :=
  ErrNew "CIDR allocation failed; there are no remaining CIDRs left to allocate in the accepted range".
Definition ErrCIDRSetSubNetTooBig : error :=
  ErrNew "New CIDR set failed; the node CIDR size is too big".
Definition ErrNilCIDR : error := ErrNew "error getting indices for cluster cidr, cidr is nil".
Definition ErrOutOfCluster : error := ErrNew "cidr is out the range of cluster cidr".
Definition ErrOutOfAllocator : error := ErrNew "CIDR is out of the range of CIDR allocator".
Definition ErrInvalidIP : error := ErrNew "invalid IP".

(** ** Operations *)

(** [1 << uint32(subNetMaskSize-clusterMaskSize)] *)
Definition getMaxCIDRs (subNetMaskSize clusterMaskSize : Z) : Z :=
  shl1_int (wrapu 32 (subNetMaskSize - clusterMaskSize)).

Definition NewCIDRSet (cluster : IPNet) (subNetMaskSize : Z) : outcome CidrSet :=
  let '(cms, bits) := Mask_Size (mask_of cluster) in
  if bool_decide (To4 (ip_of cluster) = None) && (clusterSubnetMaxDiff <? subNetMaskSize - cms)
  then Err ErrCIDRSetSubNetTooBig
  else
    let max := getMaxCIDRs subNetMaskSize cms in
    Ok {| clusterCIDR := cluster;
          clusterMaskSize := cms;
          nodeMask := CIDRMask subNetMaskSize bits;
          nodeMaskSize := subNetMaskSize;
          maxCIDRs := max;
          allocatedCIDRs := 0;
          nextCandidate := 0;
          used := 0;
          label := IPNet_String (Some cluster);
          metrics := [MaxCidrs_Set max] |}.

Definition indexToCIDRBlock (s : CidrSet) (index : Z) : outcome IPNet :=
  let cip := ip_of (clusterCIDR s) in
  let block ip := Ok (mkIPNet ip (nodeMask s)) in
  match To4 cip with
  | Some _ =>
      let j := shlu 32 (wrapu 32 index) (wrapu 32 (32 - nodeMaskSize s)) in
      let? c := Uint32 cip in
      block (be_bytes 4 (Z.lor c j))
  | None =>
      match To16 cip with
      | Some _ =>
          let? left := Uint64 (take 8 cip) in
          let? right := Uint64 (drop 8 cip) in
          if nodeMaskSize s <=? 64 then
            let left := Z.lor left (shlu 64 (wrapu 64 index) (wrapu 64 (64 - nodeMaskSize s))) in
            block (be_bytes 8 left ++ be_bytes 8 right)
          else
            let left :=
              if clusterMaskSize s <? 64 then
                let btl := wrapu 64 (nodeMaskSize s - 64) in
                let indexMaxBit := bitlen (wrapu 64 index) in
                if btl <? indexMaxBit then Z.lor left (shru 64 (wrapu 64 index) btl) else left
              else left in
            let right := Z.lor right (shlu 64 (wrapu 64 index) (wrapu 64 (128 - nodeMaskSize s))) in
            block (be_bytes 8 left ++ be_bytes 8 right)
      | None => block []
      end
  end.

Definition CidrSet_String (s : CidrSet) : string :=
  "CIDRSet{used: " +:+ Uitoa (allocatedCIDRs s) +:+ ", max: " +:+ Uitoa (maxCIDRs s) +:+ "}".

(** The search loop of [AllocateNext]: at most [fuel] (the loop bound
    [maxCIDRs]) probes; returns the candidate and the number of steps taken. *)
Fixpoint find_free (fuel : nat) (u max candidate i : Z) : Z * Z :=
  match fuel with
  | O => (candidate, i)
  | S fuel' =>
      if Z.testbit u candidate
      then find_free fuel' u max (Z.rem (candidate + 1) max) (i + 1)
      else (candidate, i)
  end.

Definition AllocateNext (s : CidrSet) : outcome IPNet * CidrSet :=
  if allocatedCIDRs s =? maxCIDRs s then (Err ErrCIDRRangeNoCIDRsRemaining, s)
  else if maxCIDRs s =? 0 then (Panic, s) (* integer divide by zero *)
  else
    let '(candidate, i) :=
      find_free (Z.to_nat (maxCIDRs s)) (used s) (maxCIDRs s) (nextCandidate s) 0 in
    let s' := {| clusterCIDR := clusterCIDR s;
                 clusterMaskSize := clusterMaskSize s;
                 nodeMask := nodeMask s;
                 nodeMaskSize := nodeMaskSize s;
                 maxCIDRs := maxCIDRs s;
                 allocatedCIDRs := allocatedCIDRs s + 1;
                 nextCandidate := Z.rem (candidate + 1) (maxCIDRs s);
                 used := Z.setbit (used s) candidate;
                 label := label s;
                 metrics := Usage_Set (allocatedCIDRs s + 1) (maxCIDRs s)
                              :: Tries_Observe i :: Allocations_Inc :: metrics s |} in
    (indexToCIDRBlock s' candidate, s').

Definition getIndexForIP (s : CidrSet) (ip : list Z) : outcome Z :=
  match To4 ip with
  | Some ip4 =>
      let? c := Uint32 (ip_of (clusterCIDR s)) in
      let? x := Uint32 ip4 in
      let cidrIndex := shru 32 (Z.lxor c x) (wrapu 32 (32 - nodeMaskSize s)) in
      if wrapu 32 (maxCIDRs s) <=? cidrIndex then Err ErrOutOfAllocator else Ok cidrIndex
  | None =>
      match To16 ip with
      | Some _ =>
          let bigIP := Z.lxor (be_uint (ip_of (clusterCIDR s))) (be_uint ip) in
          let cidrIndexBig := Z.shiftr bigIP (wrapu 64 (128 - nodeMaskSize s)) in
          let cidrIndex := wrapu 64 cidrIndexBig in
          if wrapu 64 (maxCIDRs s) <=? cidrIndex then Err ErrOutOfAllocator else Ok cidrIndex
      | None => Err ErrInvalidIP
      end
  end.

(** The last address of a network: its bytes with every host bit set. *)
Definition lastIP (cidr : IPNet) : outcome (list Z) :=
  match To4 (ip_of cidr) with
  | Some _ =>
      let? x := Uint32 (ip_of cidr) in
      let? m := Uint32 (mask_of cidr) in
      Ok (be_bytes 4 (Z.lor x (notu 32 m)))
  | None =>
      let? xl := Uint64 (take 8 (ip_of cidr)) in
      let? ml := Uint64 (take 8 (mask_of cidr)) in
      let? xr := Uint64 (drop 8 (ip_of cidr)) in
      let? mr := Uint64 (drop 8 (mask_of cidr)) in
      Ok (be_bytes 8 (Z.lor xl (notu 64 ml)) ++ be_bytes 8 (Z.lor xr (notu 64 mr)))
  end.

Definition getBeginningAndEndIndices (s : CidrSet) (cidr : option IPNet) : outcome (Z * Z) :=
  match cidr with
  | None => Err ErrNilCIDR
  | Some cidr =>
      let '(maskSize, _) := Mask_Size (mask_of cidr) in
      if negb (IPNet_Contains (clusterCIDR s) (IP_Mask (ip_of cidr) (mask_of (clusterCIDR s)))) &&
         negb (IPNet_Contains cidr (IP_Mask (ip_of (clusterCIDR s)) (mask_of cidr)))
      then Err ErrOutOfCluster
      else if clusterMaskSize s <? maskSize then
        let? b := getIndexForIP s (IP_Mask (ip_of cidr) (nodeMask s)) in
        let? ip := lastIP cidr in
        let? e := getIndexForIP s (IP_Mask ip (nodeMask s)) in
        Ok (b, e)
      else Ok (0, maxCIDRs s - 1)
  end.

(** The body of the loop of [Release] at index [i]. *)
Definition release_bit (s : CidrSet) (i : Z) : CidrSet :=
  if Z.testbit (used s) i then
    {| clusterCIDR := clusterCIDR s; clusterMaskSize := clusterMaskSize s;
       nodeMask := nodeMask s; nodeMaskSize := nodeMaskSize s; maxCIDRs := maxCIDRs s;
       allocatedCIDRs := allocatedCIDRs s - 1;
       nextCandidate := nextCandidate s;
       used := Z.clearbit (used s) i;
       label := label s;
       metrics := Releases_Inc :: metrics s |}
  else s.

(** The body of the loop of [Occupy] at index [i]. *)
Definition occupy_bit (s : CidrSet) (i : Z) : CidrSet :=
  if Z.testbit (used s) i then s
  else
    {| clusterCIDR := clusterCIDR s; clusterMaskSize := clusterMaskSize s;
       nodeMask := nodeMask s; nodeMaskSize := nodeMaskSize s; maxCIDRs := maxCIDRs s;
       allocatedCIDRs := allocatedCIDRs s + 1;
       nextCandidate := nextCandidate s;
       used := Z.setbit (used s) i;
       label := label s;
       metrics := Allocations_Inc :: metrics s |}.

Definition set_usage (s : CidrSet) : CidrSet :=
  {| clusterCIDR := clusterCIDR s; clusterMaskSize := clusterMaskSize s;
     nodeMask := nodeMask s; nodeMaskSize := nodeMaskSize s; maxCIDRs := maxCIDRs s;
     allocatedCIDRs := allocatedCIDRs s; nextCandidate := nextCandidate s; used := used s;
     label := label s;
     metrics := Usage_Set (allocatedCIDRs s) (maxCIDRs s) :: metrics s |}.

(** [for i := begin; i <= end; i++] *)
Definition index_range (b e : Z) : list Z := seqZ b (e - b + 1).

Definition Release (s : CidrSet) (cidr : option IPNet) : outcome unit * CidrSet :=
  match getBeginningAndEndIndices s cidr with
  | Ok (b, e) => (Ok tt, set_usage (foldl release_bit s (index_range b e)))
  | Err err => (Err err, s)
  | Panic => (Panic, s)
  end.

Definition Occupy (s : CidrSet) (cidr : option IPNet) : outcome unit * CidrSet :=
  match getBeginningAndEndIndices s cidr with
  | Ok (b, e) => (Ok tt, set_usage (foldl occupy_bit s (index_range b e)))
  | Err err => (Err err, s)
  | Panic => (Panic, s)
  end.
