(* ===== verification/CidrSetGeometry.v ===== *)
(** * Index arithmetic of a [CidrSet]

    A well-formed set splits a canonical cluster network [c/clusterMaskSize] into
    [2^(nodeMaskSize-clusterMaskSize)] node networks.  This file shows that the
    byte- and bit-level code computes that: [indexToCIDRBlock] yields the [i]-th
    node network, [getIndexForIP] the position of an address, and
    [getBeginningAndEndIndices] the positions whose networks meet a given one. *)

From S2P Require Import Prelude GoNet CidrSet.

(** ** The last address of a network *)

Lemma lastIP_v4 b m : canon V4 b m → lastIP (mk_net V4 b m) = Ok (mk_ip V4 (b + 2 ^ (32 - m) - 1)).
Proof.
  intros [Hm Hb Hal _]. cbn [width] in *. unfold lastIP, mk_net; cbn [ip_of mask_of].
  rewrite To4_v4. rewrite CIDRMask_bytes by done.
  pose proof (maskval_range 32 m Hm). rewrite !Uint32_mk by done. unfold obind.
  cbn [width]. rewrite notu_maskval. pose proof (pow2_pos (32 - m)).
  rewrite (lor_aligned (32 - m)) by lia. do 2 f_equal. lia.
Qed.

Lemma lastIP_v6 b m : canon V6 b m → lastIP (mk_net V6 b m) = Ok (mk_ip V6 (b + 2 ^ (128 - m) - 1)).
Proof.
  intros [Hm Hb Hal Hp]. cbn [width] in *. unfold lastIP, mk_net; cbn [ip_of mask_of].
  rewrite To4_v6 by done. rewrite CIDRMask_bytes by done.
  pose proof (maskval_range 128 m Hm). pose proof (pow2_pos (128 - m)).
  rewrite !Uint64_high, !Uint64_low by done. unfold obind. cbn [width].
  set (h := 2 ^ (128 - m) - 1).
  assert (maskval 128 m = 2 ^ 128 - 1 - h) as HM by (unfold maskval, h; lia).
  assert (0 ≤ h < 2 ^ 128) as Hh.
  { assert (2 ^ (128 - m) ≤ 2 ^ 128) by (apply Z.pow_le_mono_r; lia). lia. }
  pose proof (Z.div_mod h (2 ^ 64)). pose proof (Z.mod_pos_bound h (2 ^ 64)).
  pose proof (Z.mod_pos_bound b (2 ^ 64)).
  assert (notu 64 (maskval 128 m / 2 ^ 64) = h / 2 ^ 64) as ->.
  { rewrite HM. unfold notu.
    rewrite <-(Z.div_unique (2 ^ 128 - 1 - h) (2 ^ 64) (2 ^ 64 - 1 - h / 2 ^ 64)
                 (2 ^ 64 - 1 - h `mod` 2 ^ 64)); lia. }
  assert (notu 64 (maskval 128 m `mod` 2 ^ 64) = h `mod` 2 ^ 64) as ->.
  { rewrite HM. unfold notu.
    rewrite <-(Z.mod_unique (2 ^ 128 - 1 - h) (2 ^ 64) (2 ^ 64 - 1 - h / 2 ^ 64)
                 (2 ^ 64 - 1 - h `mod` 2 ^ 64)); lia. }
  rewrite be_bytes_halves by (apply (lor_bound 64); lia).
  rewrite <-lor_split by lia. rewrite !(Z.mul_comm _ (2 ^ 64)), <-!Z.div_mod by lia.
  rewrite (lor_aligned (128 - m)) by lia. unfold mk_ip, nbytes, IPv6len. do 2 f_equal. lia.
Qed.

Lemma lastIP_spec f b m :
  canon f b m → lastIP (mk_net f b m) = Ok (mk_ip f (b + 2 ^ (width f - m) - 1)).
Proof. destruct f; [apply lastIP_v4|apply lastIP_v6]. Qed.

(** ** Geometry of a well-formed set *)

(** The fields [NewCIDRSet] fixes for good. [geom_small] is what keeps the
    conversions [uint32(maxCIDRs)] and [1 << n] exact; IPv6 sets have at most
    [2^16] networks by construction. *)
Record geom (f : family) (c : Z) (s : CidrSet) : Prop := {
  geom_canon : canon f c (clusterMaskSize s);
  geom_cluster : clusterCIDR s = mk_net f c (clusterMaskSize s);
  geom_nodeMask : nodeMask s = CIDRMask (nodeMaskSize s) (width f);
  geom_masks : clusterMaskSize s ≤ nodeMaskSize s ≤ width f;
  geom_small : nodeMaskSize s - clusterMaskSize s < 32;
  geom_max : maxCIDRs s = 2 ^ (nodeMaskSize s - clusterMaskSize s);
  geom_plain : ∀ x, in_net f c (clusterMaskSize s) x → plain f x }.

(** Size of one node network, and the first address of the [i]-th. *)
Definition block_size (f : family) (s : CidrSet) : Z := 2 ^ (width f - nodeMaskSize s).
Definition block_base (f : family) (c : Z) (s : CidrSet) (i : Z) : Z := c + i * block_size f s.

Section geometry.
Context (f : family) (c : Z) (s : CidrSet) (G : geom f c s).

Lemma geom_cm_range : 0 ≤ clusterMaskSize s ≤ width f.
Proof. by destruct (geom_canon _ _ _ G). Qed.

Lemma geom_c_range : 0 ≤ c < 2 ^ width f.
Proof. by destruct (geom_canon _ _ _ G). Qed.

Lemma geom_c_aligned : c `mod` 2 ^ (width f - clusterMaskSize s) = 0.
Proof. by destruct (geom_canon _ _ _ G). Qed.

Lemma block_size_pos : 0 < block_size f s.
Proof. apply pow2_pos. pose proof (geom_masks _ _ _ G). lia. Qed.

(** The node networks fill the cluster network exactly. *)
Lemma cluster_size : 2 ^ (width f - clusterMaskSize s) = maxCIDRs s * block_size f s.
Proof.
  rewrite (geom_max _ _ _ G). unfold block_size. pose proof (geom_masks _ _ _ G).
  pose proof geom_cm_range. rewrite <-pow2_split by lia. f_equal. lia.
Qed.

Lemma maxCIDRs_pos : 0 < maxCIDRs s.
Proof. rewrite (geom_max _ _ _ G). apply pow2_pos. pose proof (geom_masks _ _ _ G). lia. Qed.

Lemma maxCIDRs_lt : maxCIDRs s < 2 ^ 32.
Proof.
  rewrite (geom_max _ _ _ G). apply Z.pow_lt_mono_r; [lia..|].
  pose proof (geom_small _ _ _ G). lia.
Qed.

Lemma block_offset_range i :
  0 ≤ i < maxCIDRs s → 0 ≤ i * block_size f s < 2 ^ (width f - clusterMaskSize s).
Proof. intros. pose proof block_size_pos. pose proof cluster_size. nia. Qed.

Lemma block_offset_aligned i :
  (i * block_size f s) `mod` block_size f s = 0.
Proof. apply Z_mod_mult. Qed.

(** Every node network lies in the cluster network. *)
Lemma block_in_cluster i x :
  0 ≤ i < maxCIDRs s → in_net f (block_base f c s i) (nodeMaskSize s) x →
  in_net f c (clusterMaskSize s) x.
Proof.
  unfold in_net, block_base. fold (block_size f s). rewrite cluster_size.
  pose proof block_size_pos. intros. nia.
Qed.

Lemma block_base_in i :
  0 ≤ i < maxCIDRs s → in_net f c (clusterMaskSize s) (block_base f c s i).
Proof.
  intros Hi. apply (block_in_cluster i); [done|]. unfold in_net. fold (block_size f s).
  pose proof block_size_pos. lia.
Qed.

Lemma block_canon i : 0 ≤ i < maxCIDRs s → canon f (block_base f c s i) (nodeMaskSize s).
Proof.
  intros Hi. pose proof (geom_masks _ _ _ G). pose proof geom_cm_range.
  pose proof (block_base_in i Hi) as Hin. split.
  - lia.
  - by apply (in_net_range f c (clusterMaskSize s)); [apply G|].
  - unfold block_base. fold (block_size f s). rewrite Z_mod_plus_full.
    apply (mod_pow2_mono _ (width f - clusterMaskSize s)); [lia|]. apply geom_c_aligned.
  - by apply (geom_plain _ _ _ G).
Qed.

(** ** [indexToCIDRBlock] *)

Lemma shlu_exact w x n : 0 ≤ n → 0 ≤ x → x * 2 ^ n < 2 ^ w → shlu w x n = x * 2 ^ n.
Proof.
  intros Hn Hx Hlt. pose proof (pow2_pos n Hn). unfold shlu. destruct (Z.leb_spec w n) as [Hwn|].
  - assert (2 ^ w ≤ 2 ^ n). { destruct (decide (0 ≤ w)); [apply Z.pow_le_mono_r; lia|].
      rewrite (Z.pow_neg_r 2 w) by lia. lia. }
    assert (x = 0) as -> by nia. lia.
  - rewrite Z.shiftl_mul_pow2 by lia. apply wrapu_small. nia.
Qed.

Lemma wrapu_index w i : 32 ≤ w → 0 ≤ i < maxCIDRs s → wrapu w i = i.
Proof.
  intros Hw Hi. apply wrapu_small. pose proof maxCIDRs_lt.
  assert (2 ^ 32 ≤ 2 ^ w) by (apply Z.pow_le_mono_r; lia). lia.
Qed.

Lemma wrapu_count w n : 0 ≤ n → n ≤ 128 → 32 ≤ w → wrapu w n = n.
Proof.
  intros. apply wrapu_small. assert (2 ^ 32 ≤ 2 ^ w) by (apply Z.pow_le_mono_r; lia). lia.
Qed.

Lemma block_v4 i :
  f = V4 → 0 ≤ i < maxCIDRs s →
  indexToCIDRBlock s i = Ok (mk_net f (block_base f c s i) (nodeMaskSize s)).
Proof.
  intros Hf Hi. pose proof (geom_masks _ _ _ G). pose proof geom_cm_range.
  pose proof (block_offset_range i Hi) as Ho. pose proof geom_c_aligned as Hal.
  pose proof geom_c_range as Hc. pose proof (geom_nodeMask _ _ _ G) as Hm.
  pose proof (wrapu_index 32 i) as Hw.
  unfold indexToCIDRBlock. rewrite (geom_cluster _ _ _ G), Hm, Hw by lia.
  unfold mk_net, block_base, block_size in *; cbn [ip_of mask_of]. rewrite Hf in *. cbn [width] in *.
  rewrite To4_v4, Uint32_mk by done. unfold obind. rewrite wrapu_count by lia.
  assert (2 ^ (32 - clusterMaskSize s) ≤ 2 ^ 32) by (apply Z.pow_le_mono_r; lia).
  rewrite shlu_exact by lia. rewrite (lor_aligned (32 - clusterMaskSize s)) by lia. done.
Qed.

(** The left and right halves of the cluster address. *)
Lemma high_aligned :
  f = V6 → clusterMaskSize s ≤ 64 → (c / 2 ^ 64) `mod` 2 ^ (64 - clusterMaskSize s) = 0.
Proof.
  intros Hf Hcm. pose proof geom_c_aligned as Hal. pose proof geom_cm_range. rewrite Hf in *.
  cbn [width] in *. set (k := 64 - clusterMaskSize s) in *.
  replace (128 - clusterMaskSize s) with (k + 64) in Hal by lia.
  rewrite pow2_split in Hal by lia. pose proof (pow2_pos k).
  apply Z.mod_divide in Hal as [q ->]; [|lia].
  rewrite Z.mul_assoc, Z.div_mul by lia. apply Z_mod_mult.
Qed.

Lemma low_zero : f = V6 → clusterMaskSize s ≤ 64 → c `mod` 2 ^ 64 = 0.
Proof.
  intros Hf Hcm. pose proof geom_c_aligned as Hal. pose proof geom_cm_range. rewrite Hf in *.
  cbn [width] in *. eapply mod_pow2_mono; [|exact Hal]. lia.
Qed.

Lemma block_v6_left i :
  f = V6 → 0 ≤ i < maxCIDRs s → nodeMaskSize s ≤ 64 →
  Z.lor (c / 2 ^ 64) (shlu 64 i (64 - nodeMaskSize s)) * 2 ^ 64 + c `mod` 2 ^ 64 =
  block_base f c s i.
Proof.
  intros Hf Hi Hn. pose proof (geom_masks _ _ _ G). pose proof geom_cm_range.
  pose proof (block_offset_range i Hi) as Ho. pose proof (high_aligned Hf) as Hh.
  unfold block_base, block_size in *. rewrite Hf in *; cbn [width] in *.
  set (k := 64 - nodeMaskSize s). replace (128 - nodeMaskSize s) with (k + 64) in * by lia.
  replace (128 - clusterMaskSize s) with ((64 - clusterMaskSize s) + 64) in Ho by lia.
  rewrite !pow2_split, !Z.mul_assoc in * by lia. pose proof (pow2_pos k).
  assert (0 ≤ i * 2 ^ k < 2 ^ (64 - clusterMaskSize s)) by nia.
  assert (2 ^ (64 - clusterMaskSize s) ≤ 2 ^ 64) by (apply Z.pow_le_mono_r; lia).
  rewrite shlu_exact by lia.
  rewrite (lor_aligned (64 - clusterMaskSize s)) by (lia || apply Hh; lia).
  pose proof (Z.div_mod c (2 ^ 64)). lia.
Qed.

(** A node mask past the middle and a cluster mask before it: the index spills
    over into the left half. *)
Lemma block_v6_both i :
  f = V6 → 0 ≤ i < maxCIDRs s → 64 < nodeMaskSize s → clusterMaskSize s < 64 →
  (Z.lor (c / 2 ^ 64)
     (if nodeMaskSize s - 64 <? bitlen i then shru 64 i (nodeMaskSize s - 64) else 0)) * 2 ^ 64 +
  Z.lor (c `mod` 2 ^ 64) (shlu 64 i (128 - nodeMaskSize s)) =
  block_base f c s i.
Proof.
  intros Hf Hi Hn Hcm. pose proof (geom_masks _ _ _ G). pose proof geom_cm_range.
  pose proof (geom_small _ _ _ G). pose proof (block_offset_range i Hi) as Ho.
  pose proof (high_aligned Hf) as Hh. pose proof (low_zero Hf) as Hl.
  pose proof (geom_max _ _ _ G) as Hmax.
  unfold block_base, block_size in *. rewrite Hf in *; cbn [width] in *.
  set (k := nodeMaskSize s - 64) in *. set (b := 128 - nodeMaskSize s) in *.
  assert ((if k <? bitlen i then shru 64 i k else 0) = i / 2 ^ k) as ->.
  { unfold shru, bitlen. destruct (Z.leb_spec i 0).
    { assert (i = 0) as -> by lia. destruct (Z.ltb_spec k 0); [lia|]. by rewrite Z.div_0_l by lia. }
    destruct (Z.ltb_spec k (Z.log2 i + 1)).
    - destruct (Z.leb_spec 64 k); [lia|]. by rewrite Z.shiftr_div_pow2 by lia.
    - rewrite Z.div_small; [done|]. split; [lia|]. apply Z.log2_lt_pow2; lia. }
  pose proof (pow2_pos k). pose proof (pow2_pos b).
  assert (2 ^ 64 = 2 ^ k * 2 ^ b) as Hkb by (rewrite <-pow2_split by lia; f_equal; lia).
  assert (0 ≤ i / 2 ^ k < 2 ^ (64 - clusterMaskSize s)).
  { split; [apply Z.div_pos; lia|]. apply Z.div_lt_upper_bound; [lia|].
    rewrite Hmax in Hi. rewrite <-pow2_split by lia.
    replace (k + (64 - clusterMaskSize s)) with (nodeMaskSize s - clusterMaskSize s) by lia. lia. }
  rewrite (lor_aligned (64 - clusterMaskSize s)) by (lia || apply Hh; lia).
  rewrite Hl, Z.lor_0_l by lia. unfold shlu, wrapu.
  destruct (Z.leb_spec 64 b); [lia|]. rewrite Z.shiftl_mul_pow2 by lia.
  assert (i * 2 ^ b / 2 ^ 64 = i / 2 ^ k) as Hq
    by (rewrite Hkb; apply Z.div_mul_cancel_r; lia).
  pose proof (Z.div_mod (i * 2 ^ b) (2 ^ 64)). pose proof (Z.div_mod c (2 ^ 64)).
  rewrite Hl in * by lia. lia.
Qed.

Lemma block_v6_right i :
  f = V6 → 0 ≤ i < maxCIDRs s → 64 < nodeMaskSize s → 64 ≤ clusterMaskSize s →
  c / 2 ^ 64 * 2 ^ 64 + Z.lor (c `mod` 2 ^ 64) (shlu 64 i (128 - nodeMaskSize s)) =
  block_base f c s i ∧
  0 ≤ Z.lor (c `mod` 2 ^ 64) (shlu 64 i (128 - nodeMaskSize s)) < 2 ^ 64.
Proof.
  intros Hf Hi Hn Hcm. pose proof (geom_masks _ _ _ G). pose proof geom_cm_range.
  pose proof (block_offset_range i Hi) as Ho. pose proof geom_c_aligned as Hal.
  unfold block_base, block_size in *. rewrite Hf in *; cbn [width] in *.
  assert (2 ^ (128 - clusterMaskSize s) ≤ 2 ^ 64) by (apply Z.pow_le_mono_r; lia).
  rewrite shlu_exact by lia.
  set (k := 128 - clusterMaskSize s) in *. pose proof (pow2_pos k).
  assert ((c `mod` 2 ^ 64) `mod` 2 ^ k = 0) as Hlow.
  { replace 64 with (k + (64 - k)) by lia. rewrite pow2_split by lia.
    pose proof (pow2_pos (64 - k)). rewrite Z.rem_mul_r, Hal, Z.add_0_l by lia.
    rewrite Z.mul_comm. apply Z_mod_mult. }
  rewrite (lor_aligned k) by lia. pose proof (Z.div_mod c (2 ^ 64)).
  pose proof (Z.mod_pos_bound c (2 ^ 64)). split; [lia|].
  pose proof (Z.div_mod (c `mod` 2 ^ 64) (2 ^ k)) as Hd. rewrite Hlow in Hd.
  assert (2 ^ 64 = 2 ^ (64 - k) * 2 ^ k) by (rewrite <-pow2_split by lia; f_equal; lia).
  assert (c `mod` 2 ^ 64 / 2 ^ k < 2 ^ (64 - k)) by (apply Z.div_lt_upper_bound; lia). nia.
Qed.

Lemma block_v6 i :
  f = V6 → 0 ≤ i < maxCIDRs s →
  indexToCIDRBlock s i = Ok (mk_net f (block_base f c s i) (nodeMaskSize s)).
Proof.
  intros Hf Hi. pose proof (geom_masks _ _ _ G). pose proof geom_cm_range.
  pose proof geom_c_range as Hc. pose proof (canon_plain _ _ _ (geom_canon _ _ _ G)) as Hp.
  pose proof (block_v6_left i Hf Hi) as HL. pose proof (block_v6_both i Hf Hi) as HB.
  pose proof (block_v6_right i Hf Hi) as HR. pose proof (low_zero Hf) as Hz.
  unfold indexToCIDRBlock. rewrite (geom_cluster _ _ _ G), (geom_nodeMask _ _ _ G).
  rewrite !(wrapu_index 64 i) by lia. unfold mk_net; cbn [ip_of mask_of]. rewrite Hf in *. cbn [width] in *.
  rewrite To4_v6 by done. destruct (To16_mk_ip V6 c) as [? ->].
  rewrite Uint64_high, Uint64_low by done. unfold obind.
  pose proof (Z.mod_pos_bound c (2 ^ 64)).
  destruct (Z.leb_spec (nodeMaskSize s) 64) as [Hn|Hn].
  { rewrite wrapu_count by lia. rewrite be_bytes_halves, HL by lia. done. }
  rewrite !wrapu_count by lia.
  destruct (Z.ltb_spec (clusterMaskSize s) 64) as [Hcm|Hcm].
  - rewrite <-HB by lia.
    rewrite be_bytes_halves.
    2:{ rewrite Hz, Z.lor_0_l by lia. unfold shlu. destruct (_ <=? _); [lia|].
        apply Z.mod_pos_bound. lia. }
    do 4 f_equal. destruct (_ <? _); [done|]. by rewrite Z.lor_0_r.
  - destruct HR as [HR1 HR2]; [lia..|]. rewrite be_bytes_halves, HR1 by done. done.
Qed.

(** The [i]-th block is the [i]-th node network of the cluster. *)
Lemma indexToCIDRBlock_spec i :
  0 ≤ i < maxCIDRs s →
  indexToCIDRBlock s i = Ok (mk_net f (block_base f c s i) (nodeMaskSize s)).
Proof.
  intros Hi. assert (f = V4 ∨ f = V6) as [Hf|Hf] by (destruct f; auto);
    [by apply block_v4|by apply block_v6].
Qed.

(** ** [getIndexForIP] *)

Lemma offset_lxor x :
  in_net f c (clusterMaskSize s) x → Z.lxor c x = x - c.
Proof.
  intros Hx. pose proof geom_cm_range.
  apply (lxor_aligned (width f - clusterMaskSize s)); [lia|apply geom_c_aligned|].
  apply div_pow2_interval; [lia|apply geom_c_aligned|done].
Qed.

(** Position of an address of the cluster. *)
Definition position (x : Z) : Z := (x - c) / block_size f s.

Lemma position_range x :
  in_net f c (clusterMaskSize s) x → 0 ≤ position x < maxCIDRs s.
Proof.
  unfold in_net, position. rewrite cluster_size. pose proof block_size_pos. intros.
  split; [apply Z.div_pos; lia|apply Z.div_lt_upper_bound; lia].
Qed.

(** The node network an address lies in is the one at its position. *)
Lemma position_iff i x :
  in_net f (block_base f c s i) (nodeMaskSize s) x ↔ position x = i.
Proof.
  unfold in_net, block_base, position. fold (block_size f s). pose proof block_size_pos.
  pose proof (Z.div_mod (x - c) (block_size f s)).
  pose proof (Z.mod_pos_bound (x - c) (block_size f s)). split.
  - intros. symmetry. apply Z.div_unique with (x - c - i * block_size f s); lia.
  - intros <-. lia.
Qed.

Lemma getIndexForIP_spec x :
  in_net f c (clusterMaskSize s) x → getIndexForIP s (mk_ip f x) = Ok (position x).
Proof.
  intros Hx. pose proof (geom_masks _ _ _ G). pose proof geom_cm_range.
  pose proof (offset_lxor x Hx) as Hlx. pose proof (position_range x Hx) as Hp.
  pose proof (in_net_range _ _ _ _ (geom_canon _ _ _ G) Hx) as Hxr.
  pose proof (geom_plain _ _ _ G x Hx) as Hpx. pose proof geom_c_range as Hc.
  pose proof maxCIDRs_lt. pose proof maxCIDRs_pos.
  unfold getIndexForIP. rewrite (geom_cluster _ _ _ G). unfold mk_net; cbn [ip_of].
  unfold position, block_size in *. destruct f; cbn [width] in *.
  - rewrite To4_v4, !Uint32_mk by done. unfold obind, shru.
    rewrite (wrapu_small 32 (maxCIDRs s)), wrapu_count, Hlx by lia.
    assert ((if 32 <=? 32 - nodeMaskSize s then 0 else (x - c) ≫ (32 - nodeMaskSize s)) =
            (x - c) / 2 ^ (32 - nodeMaskSize s)) as ->.
    { destruct (Z.leb_spec 32 (32 - nodeMaskSize s)); [|by rewrite Z.shiftr_div_pow2 by lia].
      assert (nodeMaskSize s = 0) as -> by lia. unfold in_net in Hx. rewrite Z.div_small; [done|].
      assert (c ≤ x) by lia. change (32 - 0) with 32. lia. }
    destruct (Z.leb_spec (maxCIDRs s) ((x - c) / 2 ^ (32 - nodeMaskSize s))); [lia|done].
  - rewrite To4_v6 by done. destruct (To16_mk_ip V6 x) as [? ->].
    rewrite !be_uint_mk_ip by done. rewrite Hlx, (wrapu_count 64 (128 - nodeMaskSize s)) by lia.
    rewrite Z.shiftr_div_pow2 by lia. rewrite !(wrapu_small 64) by lia.
    destruct (Z.leb_spec (maxCIDRs s) ((x - c) / 2 ^ (128 - nodeMaskSize s))); [lia|done].
Qed.

(** Rounding an address down to its node network keeps it in the cluster, at the
    same position. *)
Lemma node_round_down x :
  in_net f c (clusterMaskSize s) x →
  x / block_size f s * block_size f s = block_base f c s (position x).
Proof.
  intros Hx. pose proof block_size_pos. pose proof (geom_masks _ _ _ G). pose proof geom_cm_range.
  assert (c `mod` block_size f s = 0) as Hal.
  { apply (mod_pow2_mono _ (width f - clusterMaskSize s)); [lia|apply geom_c_aligned]. }
  unfold block_base, position. pose proof (Z.div_mod c (block_size f s)) as Hd. rewrite Hal in Hd.
  assert ((x - c) / block_size f s = x / block_size f s - c / block_size f s) as ->; [|lia].
  rewrite Hd at 1 by lia. rewrite Z.add_0_r, Z.mul_comm, <-Z.add_opp_r, <-Z.mul_opp_l.
  rewrite Z.div_add by lia. lia.
Qed.

(** What the code computes for an address: mask it to the node size, then index. *)
Lemma masked_index x :
  in_net f c (clusterMaskSize s) x →
  getIndexForIP s (IP_Mask (mk_ip f x) (nodeMask s)) = Ok (position x).
Proof.
  intros Hx. pose proof (geom_masks _ _ _ G). pose proof geom_cm_range.
  pose proof (in_net_range _ _ _ _ (geom_canon _ _ _ G) Hx) as Hxr.
  rewrite (geom_nodeMask _ _ _ G), IP_Mask_mk by lia. fold (block_size f s).
  rewrite node_round_down by done. pose proof (position_range x Hx) as Hp.
  rewrite getIndexForIP_spec by (by apply block_base_in).
  f_equal. apply position_iff. unfold in_net. fold (block_size f s).
  pose proof block_size_pos. lia.
Qed.

(** ** [getBeginningAndEndIndices] *)

(** A network inside the cluster, or around it. *)
Lemma overlap_inside b m :
  canon f b m → clusterMaskSize s < m → overlap f c (clusterMaskSize s) b m →
  ∀ x, in_net f b m x → in_net f c (clusterMaskSize s) x.
Proof.
  intros Hb Hlt Ho x Hx. pose proof geom_cm_range. pose proof (canon_mask _ _ _ Hb).
  unfold in_net in *. apply div_pow2_interval; [lia|apply geom_c_aligned|].
  destruct Ho as (y & Hy1 & Hy2).
  apply div_pow2_interval in Hx; [|lia|apply Hb]. apply div_pow2_interval in Hy2; [|lia|apply Hb].
  apply div_pow2_interval in Hy1; [|lia|apply geom_c_aligned]. rewrite <-Hy1.
  eapply (div_pow2_mono (width f - m)); [lia|]. congruence.
Qed.

Lemma overlap_around b m :
  canon f b m → m ≤ clusterMaskSize s → overlap f c (clusterMaskSize s) b m →
  ∀ x, in_net f c (clusterMaskSize s) x → in_net f b m x.
Proof.
  intros Hb Hle Ho x Hx. pose proof geom_cm_range. pose proof (canon_mask _ _ _ Hb).
  unfold in_net in *. apply div_pow2_interval; [lia|apply Hb|].
  destruct Ho as (y & Hy1 & Hy2).
  apply div_pow2_interval in Hx; [|lia|apply geom_c_aligned].
  apply div_pow2_interval in Hy1; [|lia|apply geom_c_aligned].
  apply div_pow2_interval in Hy2; [|lia|apply Hb]. rewrite <-Hy2.
  eapply (div_pow2_mono (width f - clusterMaskSize s)); [lia|]. congruence.
Qed.

(** The two range tests of the code decide overlap with the cluster. *)
Lemma range_test b m :
  canon f b m →
  negb (IPNet_Contains (clusterCIDR s)
          (IP_Mask (ip_of (mk_net f b m)) (mask_of (clusterCIDR s)))) &&
  negb (IPNet_Contains (mk_net f b m)
          (IP_Mask (ip_of (clusterCIDR s)) (mask_of (mk_net f b m)))) =
  bool_decide (¬ overlap f c (clusterMaskSize s) b m).
Proof.
  intros Hb. pose proof (geom_canon _ _ _ G) as Hc.
  rewrite (geom_cluster _ _ _ G). cbn [mk_net ip_of mask_of].
  change (mkIPNet (mk_ip f ?a) (CIDRMask ?m (width f))) with (mk_net f a m).
  rewrite (Contains_masked f c _ b m) by (done || apply Hb).
  rewrite (Contains_masked f b _ c (clusterMaskSize s)) by (done || apply Hc).
  rewrite <-!bool_decide_not, <-bool_decide_and. apply bool_decide_ext.
  rewrite (overlap_iff f c (clusterMaskSize s) b m) by done. tauto.
Qed.

(** Out of the cluster: an error, whatever the masks. *)
Lemma indices_outside b m :
  canon f b m → ¬ overlap f c (clusterMaskSize s) b m →
  getBeginningAndEndIndices s (Some (mk_net f b m)) = Err ErrOutOfCluster.
Proof.
  intros Hb Ho. unfold getBeginningAndEndIndices. rewrite (Mask_Size_canon f b m Hb).
  by rewrite (range_test b m Hb), bool_decide_true by done.
Qed.

(** Meeting the cluster: the indices are those of the node networks the given
    network meets.  No index computation fails after the range test. *)
Lemma indices_overlap b m :
  canon f b m → overlap f c (clusterMaskSize s) b m →
  ∃ bi ei, getBeginningAndEndIndices s (Some (mk_net f b m)) = Ok (bi, ei) ∧
    0 ≤ bi ∧ bi ≤ ei < maxCIDRs s ∧
    ∀ i, 0 ≤ i < maxCIDRs s →
      bi ≤ i ≤ ei ↔ overlap f (block_base f c s i) (nodeMaskSize s) b m.
Proof.
  intros Hb Ho. unfold getBeginningAndEndIndices. rewrite (Mask_Size_canon f b m Hb).
  rewrite (range_test b m Hb), bool_decide_false by tauto.
  pose proof (pow2_pos (width f - m)) as Hpm. pose proof (canon_mask _ _ _ Hb).
  destruct (Z.ltb_spec (clusterMaskSize s) m) as [Hlt|Hle].
  - pose proof (overlap_inside b m Hb Hlt Ho) as Hin.
    assert (in_net f b m b) as Hfst by (unfold in_net; lia).
    assert (in_net f b m (b + 2 ^ (width f - m) - 1)) as Hlst by (unfold in_net; lia).
    rewrite lastIP_spec by done. cbn [mk_net ip_of].
    rewrite !masked_index by auto. cbn [obind]. rewrite ?masked_index by auto. cbn [obind].
    eexists _, _. split; [done|].
    pose proof (position_range _ (Hin _ Hfst)). pose proof (position_range _ (Hin _ Hlst)).
    assert (position b ≤ position (b + 2 ^ (width f - m) - 1)).
    { unfold position. pose proof block_size_pos. apply Z.div_le_mono; lia. }
    split_and!; [lia..|]. intros i Hi. split.
    + intros [Hb1 Hb2]. rewrite overlap_interval.
      pose proof (proj2 (position_iff (position b) b) eq_refl) as P1.
      pose proof (proj2 (position_iff _ (b + 2 ^ (width f - m) - 1)) eq_refl) as P2.
      unfold in_net, block_base in *. fold (block_size f s) in *.
      pose proof block_size_pos. nia.
    + intros (x & Hx1%position_iff & Hx2). subst i. unfold in_net in Hx2. unfold position.
      pose proof block_size_pos. split; apply Z.div_le_mono; lia.
  - eexists _, _. split; [done|]. pose proof maxCIDRs_pos. split_and!; [lia..|].
    intros i Hi. split; [|lia]. intros _. exists (block_base f c s i). split.
    + unfold in_net. fold (block_size f s). pose proof block_size_pos. lia.
    + by apply (overlap_around b m Hb Hle Ho), block_base_in.
Qed.

(** A node network of the set is indexed by its own position alone. *)
Lemma indices_block i :
  0 ≤ i < maxCIDRs s →
  getBeginningAndEndIndices s (Some (mk_net f (block_base f c s i) (nodeMaskSize s))) = Ok (i, i).
Proof.
  intros Hi. pose proof (block_canon i Hi) as Hb. pose proof block_size_pos as Hp.
  destruct (indices_overlap _ _ Hb) as (bi & ei & -> & ? & ? & Hiff).
  { exists (block_base f c s i). split; [by apply block_base_in|].
    unfold in_net. fold (block_size f s). lia. }
  assert (∀ j, 0 ≤ j < maxCIDRs s → bi ≤ j ≤ ei ↔ j = i) as Hj.
  { intros j Hj. rewrite (Hiff j Hj). split.
    - intros (x & Hx1%position_iff & Hx2%position_iff). congruence.
    - intros ->. exists (block_base f c s i). unfold in_net. fold (block_size f s). lia. }
  pose proof (proj1 (Hj bi ltac:(lia))). pose proof (proj1 (Hj ei ltac:(lia))).
  repeat f_equal; lia.
Qed.
End geometry.
