(* ===== verification/CidrSetSpec.v ===== *)
(** * Correctness of [CidrSet]

    The representation invariant [wf], the effect of every operation on the set
    of used positions, the abstract pool of networks the code refines, and the
    safety of any sequence of operations. *)

From S2P Require Import Prelude GoNet CidrSet CidrSetGeometry.

(** ** Representation invariant *)

Record wf (f : family) (c : Z) (s : CidrSet) : Prop := {
  wf_geom : geom f c s;
  wf_next : 0 ≤ nextCandidate s < maxCIDRs s;
  wf_used : ∀ i, Z.testbit (used s) i = true → 0 ≤ i < maxCIDRs s;
  wf_count : allocatedCIDRs s = popcount (used s) (maxCIDRs s) }.

(** The fields no operation changes. *)
Definition config (s : CidrSet) :=
  (clusterCIDR s, clusterMaskSize s, nodeMask s, nodeMaskSize s, maxCIDRs s, label s).

Lemma geom_config f c s s' : config s' = config s → geom f c s → geom f c s'.
Proof.
  unfold config. intros E [H1 H2 H3 H4 H5 H6 H7].
  injection E as E1 E2 E3 E4 E5 E6. split; congruence || (rewrite ?E2, ?E4, ?E5 in *; done).
Qed.

Lemma block_base_config f c s s' i : config s' = config s → block_base f c s' i = block_base f c s i.
Proof. unfold config, block_base, block_size. congruence. Qed.

(** ** The loops of [Occupy] and [Release] *)

(** Value of a counter metric in a log. *)
Definition allocations (s : CidrSet) : Z :=
  Z.of_nat (length (filter (λ m, m = Allocations_Inc) (metrics s))).
Definition releases (s : CidrSet) : Z :=
  Z.of_nat (length (filter (λ m, m = Releases_Inc) (metrics s))).

Section loops.
Context (f : family) (c : Z).

Lemma occupy_bit_spec s i :
  0 ≤ i < maxCIDRs s → wf f c s →
  wf f c (occupy_bit s i) ∧ config (occupy_bit s i) = config s ∧
  nextCandidate (occupy_bit s i) = nextCandidate s ∧
  (∀ j, Z.testbit (used (occupy_bit s i)) j = true ↔ j = i ∨ Z.testbit (used s) j = true).
Proof.
  intros Hi [HG Hn Hu Hc]. unfold occupy_bit. destruct (Z.testbit (used s) i) eqn:Hb.
  { split; [done|]. naive_solver. }
  split_and!; [|done|done|].
  - split; cbn; [by apply (geom_config f c s)|done| |].
    + intros j [->|Hj]%setbit_testbit; [done| |lia]. by apply Hu.
    + rewrite popcount_setbit by done. by rewrite Hc.
  - intros j. cbn. apply setbit_testbit. lia.
Qed.

Lemma release_bit_spec s i :
  0 ≤ i < maxCIDRs s → wf f c s →
  wf f c (release_bit s i) ∧ config (release_bit s i) = config s ∧
  nextCandidate (release_bit s i) = nextCandidate s ∧
  (∀ j, Z.testbit (used (release_bit s i)) j = true ↔ j ≠ i ∧ Z.testbit (used s) j = true).
Proof.
  intros Hi [HG Hn Hu Hc]. unfold release_bit. destruct (Z.testbit (used s) i) eqn:Hb.
  2:{ split; [done|]. naive_solver congruence. }
  split_and!; [|done|done|].
  - split; cbn; [by apply (geom_config f c s)|done| |].
    + intros j [_ Hj]%clearbit_testbit; [|lia]. by apply Hu.
    + rewrite popcount_clearbit by done. by rewrite Hc.
  - intros j. cbn. apply clearbit_testbit. lia.
Qed.

Lemma occupy_loop l s :
  (∀ i, i ∈ l → 0 ≤ i < maxCIDRs s) → wf f c s →
  wf f c (foldl occupy_bit s l) ∧ config (foldl occupy_bit s l) = config s ∧
  nextCandidate (foldl occupy_bit s l) = nextCandidate s ∧
  (∀ j, Z.testbit (used (foldl occupy_bit s l)) j = true ↔ j ∈ l ∨ Z.testbit (used s) j = true).
Proof.
  revert s. induction l as [|i l IH]; intros s Hl Hs; cbn.
  { split; [done|]. set_solver. }
  destruct (occupy_bit_spec s i) as (Hs' & Hc' & Hn' & Hu'); [by apply Hl; left|done|].
  destruct (IH (occupy_bit s i)) as (? & -> & -> & Hu''); [|done|].
  { intros j Hj. replace (maxCIDRs (occupy_bit s i)) with (maxCIDRs s)
      by (unfold config in Hc'; congruence). apply Hl. by right. }
  split_and!; [done..|]. intros j. rewrite Hu'', Hu'. set_solver.
Qed.

Lemma release_loop l s :
  (∀ i, i ∈ l → 0 ≤ i < maxCIDRs s) → wf f c s →
  wf f c (foldl release_bit s l) ∧ config (foldl release_bit s l) = config s ∧
  nextCandidate (foldl release_bit s l) = nextCandidate s ∧
  (∀ j, Z.testbit (used (foldl release_bit s l)) j = true ↔ j ∉ l ∧ Z.testbit (used s) j = true).
Proof.
  revert s. induction l as [|i l IH]; intros s Hl Hs; cbn.
  { split; [done|]. set_solver. }
  destruct (release_bit_spec s i) as (Hs' & Hc' & Hn' & Hu'); [by apply Hl; left|done|].
  destruct (IH (release_bit s i)) as (? & -> & -> & Hu''); [|done|].
  { intros j Hj. replace (maxCIDRs (release_bit s i)) with (maxCIDRs s)
      by (unfold config in Hc'; congruence). apply Hl. by right. }
  split_and!; [done..|]. intros j. rewrite Hu'', Hu'. set_solver.
Qed.
End loops.

Lemma elem_of_index_range b e i : i ∈ index_range b e ↔ b ≤ i ≤ e.
Proof. unfold index_range. rewrite elem_of_seqZ. lia. Qed.

Lemma index_range_single i : index_range i i = [i].
Proof. unfold index_range. by rewrite Z.sub_diag. Qed.

Lemma set_usage_wf f c s : wf f c s → wf f c (set_usage s).
Proof. intros [HG ? ? ?]. split; [by apply (geom_config f c s)|done..]. Qed.

(** ** Occupy and Release *)

(** [s'] differs from [s] only in the used positions (and the metrics), which are
    now those of [U]. *)
Record updated (f : family) (c : Z) (s s' : CidrSet) (U : Z → Prop) : Prop := {
  upd_wf : wf f c s';
  upd_config : config s' = config s;
  upd_next : nextCandidate s' = nextCandidate s;
  upd_used : ∀ i, 0 ≤ i < maxCIDRs s → Z.testbit (used s') i = true ↔ U i }.

(** Position [i] of [s] holds a network that meets [b/m]. *)
Definition meets (f : family) (c : Z) (s : CidrSet) (b m i : Z) : Prop :=
  overlap f (block_base f c s i) (nodeMaskSize s) b m.

Lemma Occupy_inside f c s b m :
  wf f c s → canon f b m → overlap f c (clusterMaskSize s) b m →
  ∃ s', Occupy s (Some (mk_net f b m)) = (Ok tt, s') ∧
    updated f c s s' (λ i, Z.testbit (used s) i = true ∨ meets f c s b m i).
Proof.
  intros Hs Hb Ho.
  destruct (indices_overlap f c s (wf_geom _ _ _ Hs) b m Hb Ho) as (bi & ei & E & ? & ? & Hiff).
  unfold Occupy. rewrite E. eexists. split; [done|].
  destruct (occupy_loop f c (index_range bi ei) s) as (Hw & Hc & Hn & Hu); [|done|].
  { intros i Hi%elem_of_index_range. lia. }
  split; [by apply set_usage_wf|done|done|]. intros i Hi. cbn. rewrite Hu, elem_of_index_range.
  unfold meets. rewrite <-(Hiff i Hi). tauto.
Qed.

Lemma Release_inside f c s b m :
  wf f c s → canon f b m → overlap f c (clusterMaskSize s) b m →
  ∃ s', Release s (Some (mk_net f b m)) = (Ok tt, s') ∧
    updated f c s s' (λ i, Z.testbit (used s) i = true ∧ ¬ meets f c s b m i).
Proof.
  intros Hs Hb Ho.
  destruct (indices_overlap f c s (wf_geom _ _ _ Hs) b m Hb Ho) as (bi & ei & E & ? & ? & Hiff).
  unfold Release. rewrite E. eexists. split; [done|].
  destruct (release_loop f c (index_range bi ei) s) as (Hw & Hc & Hn & Hu); [|done|].
  { intros i Hi%elem_of_index_range. lia. }
  split; [by apply set_usage_wf|done|done|]. intros i Hi. cbn. rewrite Hu, elem_of_index_range.
  unfold meets. rewrite <-(Hiff i Hi). tauto.
Qed.

Lemma Occupy_outside f c s b m :
  wf f c s → canon f b m → ¬ overlap f c (clusterMaskSize s) b m →
  Occupy s (Some (mk_net f b m)) = (Err ErrOutOfCluster, s).
Proof. intros Hs Hb Ho. unfold Occupy. by rewrite (indices_outside f c s (wf_geom _ _ _ Hs)). Qed.

Lemma Release_outside f c s b m :
  wf f c s → canon f b m → ¬ overlap f c (clusterMaskSize s) b m →
  Release s (Some (mk_net f b m)) = (Err ErrOutOfCluster, s).
Proof. intros Hs Hb Ho. unfold Release. by rewrite (indices_outside f c s (wf_geom _ _ _ Hs)). Qed.

(** ** AllocateNext *)

Lemma rem_next max k : 0 ≤ k < max → Z.rem (k + 1) max = (k + 1) `mod` max.
Proof. intros. apply Z.rem_mod_nonneg; lia. Qed.

(** The search visits [cand], [cand+1], ... cyclically and stops at the first
    free position. *)
Lemma find_free_spec fuel u max cand i0 :
  0 ≤ cand < max →
  ∃ t, find_free fuel u max cand i0 = ((cand + t) `mod` max, i0 + t) ∧
    0 ≤ t ≤ Z.of_nat fuel ∧
    (∀ j, 0 ≤ j < t → Z.testbit u ((cand + j) `mod` max) = true) ∧
    (t < Z.of_nat fuel → Z.testbit u ((cand + t) `mod` max) = false).
Proof.
  revert cand i0. induction fuel as [|fuel IH]; intros cand i0 Hc; cbn -[Z.of_nat].
  { exists 0. rewrite !Z.add_0_r, Z.mod_small by lia. split_and!; [done|lia..|intros; lia]. }
  destruct (Z.testbit u cand) eqn:Hb.
  - rewrite rem_next by lia.
    destruct (IH ((cand + 1) `mod` max) (i0 + 1)) as (t & -> & Ht & Hall & Hfree).
    { apply Z.mod_pos_bound. lia. }
    assert (∀ j, ((cand + 1) `mod` max + j) `mod` max = (cand + (j + 1)) `mod` max) as Hmod.
    { intros j. rewrite Z.add_mod_idemp_l by lia. f_equal. lia. }
    exists (t + 1). rewrite Hmod in *. split_and!; [f_equal; lia|lia..| |].
    + intros j Hj. destruct (decide (j = 0)) as [->|]; [by rewrite Z.add_0_r, Z.mod_small|].
      specialize (Hall (j - 1)). rewrite Hmod, Z.sub_add in Hall. apply Hall. lia.
    + intros. apply Hfree. lia.
  - exists 0. rewrite !Z.add_0_r, Z.mod_small by lia. split_and!; [done|lia..|intros; lia|done].
Qed.

(** Every position is visited in one round. *)
Lemma cyclic_cover max cand i : 0 ≤ cand < max → 0 ≤ i < max →
  (cand + (i - cand) `mod` max) `mod` max = i.
Proof.
  intros. rewrite Z.add_mod_idemp_r by lia. replace (cand + (i - cand)) with i by lia.
  by apply Z.mod_small.
Qed.

(** [i] is the first free position at or after [nextCandidate], cyclically. *)
Definition first_free (s : CidrSet) (i : Z) : Prop :=
  0 ≤ i < maxCIDRs s ∧ Z.testbit (used s) i = false ∧
  ∀ j, 0 ≤ j < (i - nextCandidate s) `mod` maxCIDRs s →
    Z.testbit (used s) ((nextCandidate s + j) `mod` maxCIDRs s) = true.

Lemma AllocateNext_full f c s :
  wf f c s → (∀ i, 0 ≤ i < maxCIDRs s → Z.testbit (used s) i = true) →
  AllocateNext s = (Err ErrCIDRRangeNoCIDRsRemaining, s).
Proof.
  intros Hs Hall. pose proof (maxCIDRs_pos _ _ _ (wf_geom _ _ _ Hs)).
  unfold AllocateNext. rewrite (wf_count _ _ _ Hs), (proj2 (popcount_full (used s) (maxCIDRs s) ltac:(lia)) Hall).
  by rewrite Z.eqb_refl.
Qed.

(** What a successful allocation does. *)
Record allocated (f : family) (c : Z) (s s' : CidrSet) (i : Z) : Prop := {
  all_wf : wf f c s';
  all_config : config s' = config s;
  all_next : nextCandidate s' = (i + 1) `mod` maxCIDRs s;
  all_used : ∀ j, Z.testbit (used s') j = true ↔ j = i ∨ Z.testbit (used s) j = true;
  all_first : first_free s i }.

Lemma AllocateNext_free f c s :
  wf f c s → (∃ i, 0 ≤ i < maxCIDRs s ∧ Z.testbit (used s) i = false) →
  ∃ i s', AllocateNext s = (Ok (mk_net f (block_base f c s i) (nodeMaskSize s)), s') ∧
    allocated f c s s' i.
Proof.
  intros Hs (k & Hk & Hkb). pose proof (wf_geom _ _ _ Hs) as HG. pose proof (wf_next _ _ _ Hs) as Hn.
  pose proof (maxCIDRs_pos _ _ _ HG) as Hpos. unfold AllocateNext.
  destruct (Z.eqb_spec (allocatedCIDRs s) (maxCIDRs s)) as [E|_].
  { rewrite (wf_count _ _ _ Hs) in E. rewrite popcount_full in E by lia.
    rewrite (E k Hk) in Hkb. done. }
  destruct (Z.eqb_spec (maxCIDRs s) 0); [lia|].
  destruct (find_free_spec (Z.to_nat (maxCIDRs s)) (used s) (maxCIDRs s) (nextCandidate s) 0 Hn)
    as (t & -> & Ht & Hall & Hfree).
  rewrite Z2Nat.id in * by lia. set (i := (nextCandidate s + t) `mod` maxCIDRs s) in *.
  assert (t < maxCIDRs s) as Htm.
  { destruct (decide (t < maxCIDRs s)); [done|]. exfalso.
    specialize (Hall ((k - nextCandidate s) `mod` maxCIDRs s)).
    rewrite cyclic_cover in Hall by lia.
    pose proof (Z.mod_pos_bound (k - nextCandidate s) (maxCIDRs s)).
    rewrite Hall in Hkb; [done|lia]. }
  specialize (Hfree Htm). assert (0 ≤ i < maxCIDRs s) as Hi by (apply Z.mod_pos_bound; lia).
  match goal with |- context [(indexToCIDRBlock ?st i, _)] => set (s' := st) end.
  assert (config s' = config s) as Hcfg by done.
  exists i, s'. split.
  { rewrite (indexToCIDRBlock_spec f c s') by (done || by apply (geom_config f c s)). done. }
  assert (nextCandidate s' = (i + 1) `mod` maxCIDRs s) as Hnext by (cbn; by apply rem_next).
  split; [|done|done| |].
  - split; [by apply (geom_config f c s)| | |].
    + rewrite Hnext. change (maxCIDRs s') with (maxCIDRs s). apply Z.mod_pos_bound. lia.
    + intros j [->|Hj]%setbit_testbit; [done| |lia]. by apply (wf_used _ _ _ Hs).
    + cbn. rewrite popcount_setbit by done. by rewrite (wf_count _ _ _ Hs).
  - intros j. cbn. apply setbit_testbit. lia.
  - split_and!; [lia..|done|]. intros j Hj. apply Hall.
    assert ((i - nextCandidate s) `mod` maxCIDRs s = t) as Hit; [|lia].
    unfold i. rewrite Zminus_mod_idemp_l. replace (nextCandidate s + t - nextCandidate s) with t by lia.
    apply Z.mod_small. lia.
Qed.

(** The only free network of a set is the next one handed out. *)
Lemma AllocateNext_last f c s i :
  wf f c s → 0 ≤ i < maxCIDRs s → Z.testbit (used s) i = false →
  (∀ j, 0 ≤ j < maxCIDRs s → j ≠ i → Z.testbit (used s) j = true) →
  (AllocateNext s).1 = Ok (mk_net f (block_base f c s i) (nodeMaskSize s)).
Proof.
  intros Hw Hi Hb Hall. destruct (AllocateNext_free f c s Hw) as (j & s' & -> & Ha); [by exists i|].
  destruct (all_first _ _ _ _ _ Ha) as (Hj & Hbj & _). destruct (decide (j = i)) as [->|Hne]; [done|].
  by rewrite (Hall j Hj Hne) in Hbj.
Qed.

(** Whether a set is full is decided by its counter. *)
Lemma full_dec f c s : wf f c s →
  (∀ i, 0 ≤ i < maxCIDRs s → Z.testbit (used s) i = true) ∨
  (∃ i, 0 ≤ i < maxCIDRs s ∧ Z.testbit (used s) i = false).
Proof.
  intros Hs. destruct (decide (Forall (λ i, Z.testbit (used s) i = true) (seqZ 0 (maxCIDRs s)))) as [H|H].
  - left. intros i Hi. rewrite Forall_forall in H. apply H, elem_of_seqZ. lia.
  - right. apply not_Forall_Exists, Exists_exists in H as (i & Hi%elem_of_seqZ & Hb); [|apply _].
    exists i. split; [lia|]. by apply not_true_is_false.
Qed.

(** ** NewCIDRSet *)

Lemma NewCIDRSet_ok f c cm nm :
  canon f c cm → cm ≤ nm ≤ width f → nm - cm < 32 → (f = V6 → nm - cm ≤ 16) →
  (∀ x, in_net f c cm x → plain f x) →
  ∃ s, NewCIDRSet (mk_net f c cm) nm = Ok s ∧ wf f c s ∧ used s = 0 ∧
    clusterMaskSize s = cm ∧ nodeMaskSize s = nm ∧ nextCandidate s = 0.
Proof.
  intros Hc Hnm Hd H6 Hpl. unfold NewCIDRSet. rewrite (Mask_Size_canon f c cm Hc).
  pose proof Hc as [Hm Ha Hal Hp].
  assert (bool_decide (To4 (ip_of (mk_net f c cm)) = None) && (clusterSubnetMaxDiff <? nm - cm) = false)
    as ->.
  { destruct f; [done|]. apply andb_false_intro2. specialize (H6 eq_refl).
    unfold clusterSubnetMaxDiff. apply Z.ltb_ge. lia. }
  eexists. split; [done|]. pose proof (pow2_pos (nm - cm)).
  assert (getMaxCIDRs nm cm = 2 ^ (nm - cm)) as Hmax.
  { unfold getMaxCIDRs. rewrite wrapu_small by (assert (width f ≤ 128) by (by destruct f); lia).
    apply shl1_int_pow. lia. }
  split_and!; [|done..]. split; cbn; rewrite ?Hmax; [|lia| |by rewrite popcount_0].
  - split; cbn; auto.
  - intros i. by rewrite Z.bits_0.
Qed.

Lemma NewCIDRSet_too_big c cm nm :
  canon V6 c cm → 16 < nm - cm → NewCIDRSet (mk_net V6 c cm) nm = Err ErrCIDRSetSubNetTooBig.
Proof.
  intros Hc Hd. unfold NewCIDRSet. rewrite (Mask_Size_canon V6 c cm Hc).
  cbn [mk_net ip_of]. rewrite To4_v6 by apply Hc. rewrite bool_decide_true by done.
  unfold clusterSubnetMaxDiff. by destruct (Z.ltb_spec 16 (nm - cm)); [|lia].
Qed.

(** ** Arbitrary networks

    [Occupy] and [Release] keep the invariant for any network at all: whatever
    indices they compute lie within the bitmap. *)

Lemma Forall_zip_land (l m : list Z) : Forall (Z.le 0) m → Forall (Z.le 0) (zip_with Z.land l m).
Proof.
  intros Hm. revert l. induction Hm as [|y m Hy _ IH]; intros [|x l]; cbn; constructor; auto.
  apply Z.land_nonneg. by right.
Qed.

Lemma be_uint_nonneg bs : Forall (Z.le 0) bs → 0 ≤ be_uint bs.
Proof.
  induction 1 as [|b bs Hb _ IH]; cbn; [done|].
  pose proof (pow2_pos (8 * Z.of_nat (length bs))). nia.
Qed.

Lemma Forall_be_bytes n x : Forall (Z.le 0) (be_bytes n x).
Proof. induction n; cbn; constructor; [|done]. apply Z.mod_pos_bound. lia. Qed.

Lemma IP_Mask_nonneg ip mask : Forall (Z.le 0) mask → Forall (Z.le 0) (IP_Mask ip mask).
Proof.
  intros Hm. unfold IP_Mask. case_match; [|constructor].
  apply Forall_zip_land. destruct (_ && allFF _); [by apply Forall_drop|done].
Qed.

Section arbitrary.
Context (f : family) (c : Z).

Lemma getIndexForIP_range s ip i :
  geom f c s → Forall (Z.le 0) ip → getIndexForIP s ip = Ok i → 0 ≤ i < maxCIDRs s.
Proof.
  intros HG Hip. pose proof (maxCIDRs_pos _ _ _ HG). pose proof (maxCIDRs_lt _ _ _ HG).
  unfold getIndexForIP. destruct (To4 ip) as [ip4|] eqn:E4.
  - assert (Forall (Z.le 0) ip4).
    { unfold To4 in E4. repeat case_decide; simplify_eq; [done|by apply Forall_drop]. }
    unfold Uint32. repeat case_match; cbn; try done. rewrite (wrapu_small 32 (maxCIDRs s)) in * by lia.
    case_match; intros; simplify_eq. split; [|lia].
    unfold shru. case_match; [lia|]. apply Z.shiftr_nonneg, Z.lxor_nonneg.
    rewrite (geom_cluster _ _ _ HG). cbn [mk_net ip_of].
    split; intros; apply be_uint_nonneg, Forall_take; [done|apply Forall_be_bytes].
  - case_match; [|done]. rewrite (wrapu_small 64 (maxCIDRs s)) by lia.
    case_match; intros; simplify_eq. split; [apply Z.mod_pos_bound; lia|lia].
Qed.

Lemma indices_in_range s cidr b e i :
  geom f c s → getBeginningAndEndIndices s cidr = Ok (b, e) → b ≤ i ≤ e → 0 ≤ i < maxCIDRs s.
Proof.
  intros HG. unfold getBeginningAndEndIndices. destruct cidr as [n|]; [|done].
  pose proof (geom_masks _ _ _ HG). pose proof (geom_cm_range _ _ _ HG).
  assert (Forall (Z.le 0) (nodeMask s)).
  { rewrite (geom_nodeMask _ _ _ HG), CIDRMask_bytes by lia. apply Forall_be_bytes. }
  destruct (Mask_Size (mask_of n)) as [ms bits]. case_match; [done|]. case_match; [|intros [= <- <-]; lia].
  destruct (getIndexForIP s (IP_Mask (ip_of n) _)) as [bi| |] eqn:Eb; cbn; try done.
  destruct (lastIP n) as [l| |]; cbn; try done.
  destruct (getIndexForIP s (IP_Mask l _)) as [ei| |] eqn:Ee; cbn; try done.
  apply getIndexForIP_range in Eb, Ee; auto using IP_Mask_nonneg.
  intros [= -> ->]. lia.
Qed.

Lemma Occupy_wf s cidr : wf f c s → wf f c (Occupy s cidr).2 ∧ config (Occupy s cidr).2 = config s.
Proof.
  intros Hs. unfold Occupy. destruct (getBeginningAndEndIndices s cidr) as [[b e]| |] eqn:E; [|done..].
  destruct (occupy_loop f c (index_range b e) s) as (Hw & Hc & _); [|done|].
  { intros i Hi%elem_of_index_range. by apply (indices_in_range s cidr b e i (wf_geom _ _ _ Hs)). }
  split; [by apply set_usage_wf|done].
Qed.

Lemma Release_wf s cidr : wf f c s → wf f c (Release s cidr).2 ∧ config (Release s cidr).2 = config s.
Proof.
  intros Hs. unfold Release. destruct (getBeginningAndEndIndices s cidr) as [[b e]| |] eqn:E; [|done..].
  destruct (release_loop f c (index_range b e) s) as (Hw & Hc & _); [|done|].
  { intros i Hi%elem_of_index_range. by apply (indices_in_range s cidr b e i (wf_geom _ _ _ Hs)). }
  split; [by apply set_usage_wf|done].
Qed.

Lemma AllocateNext_wf s :
  wf f c s → wf f c (AllocateNext s).2 ∧ config (AllocateNext s).2 = config s.
Proof.
  intros Hs. destruct (full_dec f c s Hs) as [Hfull|Hfree].
  { by rewrite (AllocateNext_full f c). }
  destruct (AllocateNext_free f c s Hs Hfree) as (i & s' & -> & [Hw Hc _ _ _]). done.
Qed.
End arbitrary.

(** ** Giving an allocation back *)

Lemma allocated_indices f c s s1 i :
  allocated f c s s1 i →
  getBeginningAndEndIndices s1 (Some (mk_net f (block_base f c s i) (nodeMaskSize s))) = Ok (i, i).
Proof.
  intros [Hw Hc _ _ (Hi & _ & _)]. unfold config in Hc.
  assert (maxCIDRs s1 = maxCIDRs s) as Hm by congruence.
  rewrite <-(block_base_config f c s s1 i Hc).
  replace (nodeMaskSize s) with (nodeMaskSize s1) by congruence.
  apply indices_block; [apply Hw|lia].
Qed.

Lemma allocated_count f c s s1 i :
  wf f c s → allocated f c s s1 i → allocatedCIDRs s1 = allocatedCIDRs s + 1.
Proof.
  intros Hs [Hw Hc _ Hu (Hi & Hb & _)]. rewrite (wf_count _ _ _ Hw), (wf_count _ _ _ Hs).
  rewrite <-(popcount_setbit (used s) i) by done.
  replace (maxCIDRs s1) with (maxCIDRs s) by (unfold config in Hc; congruence). f_equal.
  apply Z.bits_inj'. intros j Hj. apply eq_true_iff_eq. rewrite Hu, setbit_testbit by lia. done.
Qed.

Lemma Release_allocated f c s s1 i :
  wf f c s → allocated f c s s1 i →
  ∃ s2, Release s1 (Some (mk_net f (block_base f c s i) (nodeMaskSize s))) = (Ok tt, s2) ∧
    wf f c s2 ∧ config s2 = config s ∧ used s2 = used s ∧ allocatedCIDRs s2 = allocatedCIDRs s.
Proof.
  intros Hs Ha. pose proof (allocated_indices f c s s1 i Ha) as Hidx.
  destruct (Release_wf f c s1 (Some (mk_net f (block_base f c s i) (nodeMaskSize s))) (all_wf _ _ _ _ _ Ha))
    as [Hw2 Hc2].
  destruct Ha as [Hw Hc _ Hu (Hi & Hb & _)]. unfold Release in *. rewrite Hidx in *. cbn [snd] in *.
  set (s2 := set_usage _) in *. exists s2.
  assert (used s2 = used s) as Hused.
  { unfold s2. rewrite index_range_single. cbn. unfold release_bit.
    rewrite (proj2 (Hu i) ltac:(by left)). cbn.
    apply Z.bits_inj'. intros j Hj. apply eq_true_iff_eq. rewrite clearbit_testbit, Hu by lia.
    destruct (decide (j = i)) as [->|]; [rewrite Hb|]; naive_solver. }
  assert (config s2 = config s) as Hcfg by congruence.
  split_and!; [done..|]. rewrite (wf_count _ _ _ Hw2), (wf_count _ _ _ Hs), Hused.
  f_equal. unfold config in Hcfg. congruence.
Qed.

Lemma Occupy_allocated f c s s1 i :
  allocated f c s s1 i →
  ∃ s2, Occupy s1 (Some (mk_net f (block_base f c s i) (nodeMaskSize s))) = (Ok tt, s2) ∧
    used s2 = used s1 ∧ allocatedCIDRs s2 = allocatedCIDRs s1.
Proof.
  intros Ha. unfold Occupy. rewrite (allocated_indices f c s s1 i Ha).
  destruct Ha as [_ _ _ Hu _]. rewrite index_range_single. cbn.
  unfold occupy_bit. rewrite (proj2 (Hu i) ltac:(by left)). by eexists.
Qed.

(** ** Networks of the other family *)

Lemma indices_other_family f f' c s b m :
  geom f c s → f ≠ f' → canon f' b m →
  getBeginningAndEndIndices s (Some (mk_net f' b m)) = Err ErrOutOfCluster.
Proof.
  intros HG Hf Hb. pose proof (geom_canon _ _ _ HG) as Hc.
  unfold getBeginningAndEndIndices. rewrite (Mask_Size_canon f' b m Hb), (geom_cluster _ _ _ HG).
  cbn [mk_net ip_of mask_of].
  change (mkIPNet (mk_ip ?g ?a) (CIDRMask ?m (width ?g))) with (mk_net g a m).
  rewrite (Contains_other_family f f') by (done || apply Hb).
  by rewrite (Contains_other_family f' f) by (done || apply Hc).
Qed.

(** ** Marks that stay *)

(** [Occupy] and [AllocateNext] never clear a mark, whatever their argument. *)
Lemma Occupy_keeps s cidr j :
  Z.testbit (used s) j = true → Z.testbit (used (Occupy s cidr).2) j = true.
Proof.
  unfold Occupy. destruct (getBeginningAndEndIndices s cidr) as [[b e]| |]; [|done..]. cbn [snd].
  unfold set_usage. cbn [used]. generalize (index_range b e). intros l. revert s.
  induction l as [|i l IH]; intros s Hj; cbn; [done|]. apply IH. unfold occupy_bit.
  destruct (Z.testbit (used s) i); [done|]. cbn. unfold Z.setbit. by rewrite Z.lor_spec, Hj.
Qed.

Lemma AllocateNext_keeps s j :
  Z.testbit (used s) j = true → Z.testbit (used (AllocateNext s).2) j = true.
Proof.
  intros Hj. unfold AllocateNext. repeat case_match; [done..|]. cbn.
  unfold Z.setbit. by rewrite Z.lor_spec, Hj.
Qed.

(** [Release] of a canonical network keeps the marks of the networks it does not
    meet. *)
Lemma Release_keeps f c s f' b m i :
  wf f c s → canon f' b m → 0 ≤ i < maxCIDRs s → (f' = f → ¬ meets f c s b m i) →
  Z.testbit (used s) i = true → Z.testbit (used (Release s (Some (mk_net f' b m))).2) i = true.
Proof.
  intros Hs Hb Hi Hne Hbit. destruct (decide (f' = f)) as [->|Hf].
  - destruct (decide (overlap f c (clusterMaskSize s) b m)) as [Ho|Ho].
    + destruct (Release_inside f c s b m Hs Hb Ho) as (s' & -> & [_ _ _ Hu]). cbn.
      apply Hu; [done|]. split; [done|by apply Hne].
    + by rewrite (Release_outside f c).
  - unfold Release. rewrite (indices_other_family f f' c s b m); [done|apply Hs|congruence|done].
Qed.

(** ** Panics *)

Lemma Uint32_no_panic b : (4 ≤ length b)%nat → ∃ x, Uint32 b = Ok x.
Proof. intros. unfold Uint32. destruct (Nat.ltb_spec (length b) 4); [lia|by eexists]. Qed.
Lemma Uint64_no_panic b : (8 ≤ length b)%nat → ∃ x, Uint64 b = Ok x.
Proof. intros. unfold Uint64. destruct (Nat.ltb_spec (length b) 8); [lia|by eexists]. Qed.

Lemma To4_length ip x : To4 ip = Some x → length x = 4%nat.
Proof.
  unfold To4. repeat case_decide; intros; simplify_eq; [done|].
  rewrite length_drop. unfold IPv6len in *. lia.
Qed.

Lemma getIndexForIP_no_panic f c s ip : geom f c s → getIndexForIP s ip ≠ Panic.
Proof.
  intros HG. unfold getIndexForIP. destruct (To4 ip) as [ip4|] eqn:E4; [|repeat case_match; done].
  destruct (Uint32_no_panic (ip_of (clusterCIDR s))) as [x1 ->].
  { rewrite (geom_cluster _ _ _ HG). cbn [mk_net ip_of]. rewrite length_mk_ip. destruct f; unfold nbytes, IPv4len, IPv6len; lia. }
  destruct (Uint32_no_panic ip4) as [x2 ->]; [by rewrite (To4_length _ _ E4)|].
  cbn. by case_match.
Qed.

Lemma lastIP_no_panic n : sized n → ∃ x, lastIP n = Ok x.
Proof.
  intros Hn. unfold lastIP. destruct (To4 (ip_of n)) eqn:E4.
  - destruct (Uint32_no_panic (ip_of n)) as [x1 ->]; [destruct Hn; lia|].
    destruct (Uint32_no_panic (mask_of n)) as [x2 ->]; [destruct Hn; lia|]. by eexists.
  - destruct Hn as [[Hi _]|[Hi Hm]]; [by rewrite To4_length4 in E4|].
    destruct (Uint64_no_panic (take 8 (ip_of n))) as [x1 ->]; [rewrite length_take; lia|].
    destruct (Uint64_no_panic (take 8 (mask_of n))) as [x2 ->]; [rewrite length_take; lia|].
    destruct (Uint64_no_panic (drop 8 (ip_of n))) as [x3 ->]; [rewrite length_drop; lia|].
    destruct (Uint64_no_panic (drop 8 (mask_of n))) as [x4 ->]; [rewrite length_drop; lia|].
    by eexists.
Qed.

Lemma indices_no_panic f c s n :
  geom f c s → sized n → getBeginningAndEndIndices s (Some n) ≠ Panic.
Proof.
  intros HG Hn. unfold getBeginningAndEndIndices. destruct (Mask_Size (mask_of n)) as [ms bits].
  case_match; [done|]. case_match; [|done].
  pose proof (getIndexForIP_no_panic f c s (IP_Mask (ip_of n) (nodeMask s)) HG).
  destruct (getIndexForIP s (IP_Mask (ip_of n) (nodeMask s))); cbn; [|done..].
  destruct (lastIP_no_panic n Hn) as [x ->]. cbn.
  pose proof (getIndexForIP_no_panic f c s (IP_Mask x (nodeMask s)) HG).
  by destruct (getIndexForIP s (IP_Mask x (nodeMask s))).
Qed.

Lemma Occupy_no_panic f c s n : wf f c s → sized n → (Occupy s (Some n)).1 ≠ Panic.
Proof.
  intros Hs Hn. pose proof (indices_no_panic f c s n (wf_geom _ _ _ Hs) Hn). unfold Occupy.
  by destruct (getBeginningAndEndIndices s (Some n)) as [[b e]| |].
Qed.

Lemma Release_no_panic f c s n : wf f c s → sized n → (Release s (Some n)).1 ≠ Panic.
Proof.
  intros Hs Hn. pose proof (indices_no_panic f c s n (wf_geom _ _ _ Hs) Hn). unfold Release.
  by destruct (getBeginningAndEndIndices s (Some n)) as [[b e]| |].
Qed.

Lemma AllocateNext_no_panic f c s : wf f c s → (AllocateNext s).1 ≠ Panic.
Proof.
  intros Hs. destruct (full_dec f c s Hs) as [Hfull|Hfree]; [by rewrite (AllocateNext_full f c)|].
  by destruct (AllocateNext_free f c s Hs Hfree) as (i & s' & -> & _).
Qed.

Lemma sized_mk_net f a m : 0 ≤ m ≤ width f → sized (mk_net f a m).
Proof.
  intros Hm. unfold sized. cbn [mk_net ip_of mask_of]. rewrite length_mk_ip, length_CIDRMask by done.
  destruct f; auto.
Qed.

(** ** Operations in general *)

(** An operation of [CidrSet] that keeps any well-formed set well-formed. *)
Definition set_op_safe {A} (op : CidrSet → outcome A * CidrSet) : Prop :=
  ∀ f c s, wf f c s → wf f c (op s).2 ∧ config (op s).2 = config s.

Lemma config_cluster s s' : config s' = config s → clusterCIDR s' = clusterCIDR s.
Proof. unfold config. congruence. Qed.
Lemma config_nodeMaskSize s s' : config s' = config s → nodeMaskSize s' = nodeMaskSize s.
Proof. unfold config. congruence. Qed.
Lemma config_maxCIDRs s s' : config s' = config s → maxCIDRs s' = maxCIDRs s.
Proof. unfold config. congruence. Qed.
Lemma config_clusterMaskSize s s' : config s' = config s → clusterMaskSize s' = clusterMaskSize s.
Proof. unfold config. congruence. Qed.

Lemma Occupy_safe n : set_op_safe (λ s, Occupy s n).
Proof. intros f c s. apply Occupy_wf. Qed.
Lemma Release_safe n : set_op_safe (λ s, Release s n).
Proof. intros f c s. apply Release_wf. Qed.
Lemma AllocateNext_safe : set_op_safe AllocateNext.
Proof. intros f c s. apply AllocateNext_wf. Qed.

#[export] Hint Resolve Occupy_safe Release_safe AllocateNext_safe : go_steps.

(** An operation of [CidrSet] that does not panic on a well-formed set. *)
Definition set_op_total {A} (op : CidrSet → outcome A * CidrSet) : Prop :=
  ∀ f c s, wf f c s → (op s).1 ≠ Panic.

Lemma Occupy_total n : sized n → set_op_total (λ s, Occupy s (Some n)).
Proof. intros Hn f c s Hs. by apply (Occupy_no_panic f c). Qed.
Lemma Release_total n : sized n → set_op_total (λ s, Release s (Some n)).
Proof. intros Hn f c s Hs. by apply (Release_no_panic f c). Qed.
Lemma AllocateNext_total : set_op_total AllocateNext.
Proof. intros f c s Hs. by apply (AllocateNext_no_panic f c). Qed.

#[export] Hint Resolve Occupy_safe Release_safe AllocateNext_safe Occupy_total Release_total
  AllocateNext_total : go_ok.
