(* ===== verification/CidrPool.v ===== *)
(** * The abstract pool of node networks, and what [CidrSet] promises to it

    A pool is a set of positions in use.  [pool_step] says which results and next
    states each request may have; it leaves the choice of the allocated position
    open.  [CidrSet] refines it ([exec_refines]), and the safety of a pool's
    history ([pool_no_reuse]) is proved on the abstract side and carried over. *)

From S2P Require Import Prelude GoNet CidrSet CidrSetGeometry CidrSetSpec.

(** ** Abstract pool *)

Record layout := mkLayout { l_fam : family; l_base : Z; l_cmask : Z; l_nmask : Z }.

Definition l_size (L : layout) : Z := 2 ^ (l_nmask L - l_cmask L).
Definition l_addr (L : layout) (i : Z) : Z := l_base L + i * 2 ^ (width (l_fam L) - l_nmask L).
Definition l_block (L : layout) (i : Z) : IPNet := mk_net (l_fam L) (l_addr L i) (l_nmask L).

(** All positions, and those whose network meets [b/m]. *)
Definition positions (L : layout) : gset Z := list_to_set (seqZ 0 (l_size L)).
Definition touched (L : layout) (b m : Z) : gset Z :=
  filter (λ i, overlap (l_fam L) (l_addr L i) (l_nmask L) b m) (positions L).
Definition in_reach (L : layout) (b m : Z) : Prop :=
  overlap (l_fam L) (l_base L) (l_cmask L) b m.

(** Requests name a network by address and mask size. *)
Inductive request :=
  | ReqAlloc
  | ReqOccupy (b m : Z)
  | ReqRelease (b m : Z).

Definition request_ok (f : family) (q : request) : Prop :=
  match q with ReqAlloc => True | ReqOccupy b m | ReqRelease b m => canon f b m end.

(** Answers: [Ok (Some n)] for an allocation, [Ok None] for the others. *)
Definition answer : Type := outcome (option IPNet).

Inductive pool_step (L : layout) (U : gset Z) : request → answer → gset Z → Prop :=
  | step_alloc i : i ∈ positions L → i ∉ U →
      pool_step L U ReqAlloc (Ok (Some (l_block L i))) ({[i]} ∪ U)
  | step_full : positions L ⊆ U →
      pool_step L U ReqAlloc (Err ErrCIDRRangeNoCIDRsRemaining) U
  | step_occupy b m : in_reach L b m →
      pool_step L U (ReqOccupy b m) (Ok None) (touched L b m ∪ U)
  | step_occupy_out b m : ¬ in_reach L b m →
      pool_step L U (ReqOccupy b m) (Err ErrOutOfCluster) U
  | step_release b m : in_reach L b m →
      pool_step L U (ReqRelease b m) (Ok None) (U ∖ touched L b m)
  | step_release_out b m : ¬ in_reach L b m →
      pool_step L U (ReqRelease b m) (Err ErrOutOfCluster) U.

Inductive pool_run (L : layout) : gset Z → list (request * answer) → gset Z → Prop :=
  | run_nil U : pool_run L U [] U
  | run_cons U q a U' evs U'' :
      pool_step L U q a U' → pool_run L U' evs U'' → pool_run L U ((q, a) :: evs) U''.

Lemma pool_run_app L U evs1 evs2 U'' :
  pool_run L U (evs1 ++ evs2) U'' → ∃ U', pool_run L U evs1 U' ∧ pool_run L U' evs2 U''.
Proof.
  revert U. induction evs1 as [|[q a] evs1 IH]; intros U; cbn.
  { intros. eexists. split; [constructor|done]. }
  intros H. inversion H as [|? ? ? U1 ? ? Hs Hr]; subst.
  destruct (IH _ Hr) as (U' & ? & ?). exists U'. split; [by econstructor|done].
Qed.

(** No release among the events touches position [i]. *)
Definition undisturbed (L : layout) (i : Z) (evs : list (request * answer)) : Prop :=
  ∀ b m a, (ReqRelease b m, a) ∈ evs → i ∉ touched L b m.

(** A position in use stays in use until a release touches it. *)
Lemma pool_run_keeps L U evs U' i :
  pool_run L U evs U' → undisturbed L i evs → i ∈ U → i ∈ U'.
Proof.
  induction 1 as [|U q a U1 evs U2 Hs _ IH]; intros Hu Hi; [done|]. apply IH.
  { intros b m a' Hin. apply (Hu b m a'). by right. }
  inversion Hs; subst; try set_solver.
  assert (i ∉ touched L b m) by (eapply Hu; by left). set_solver.
Qed.

Lemma pool_step_alloc L U n U' :
  pool_step L U ReqAlloc (Ok (Some n)) U' →
  ∃ i, n = l_block L i ∧ i ∈ positions L ∧ i ∉ U ∧ U' = {[i]} ∪ U.
Proof. inversion 1; subst. eauto. Qed.

(** Two allocations with no release of the first position in between hand out
    different positions. *)
Lemma pool_no_reuse L U evs U' n1 n2 evs' :
  pool_run L U ((ReqAlloc, Ok (Some n1)) :: evs ++ (ReqAlloc, Ok (Some n2)) :: evs') U' →
  ∃ i j, n1 = l_block L i ∧ n2 = l_block L j ∧ i ∈ positions L ∧ j ∈ positions L ∧
    (undisturbed L i evs → i ≠ j).
Proof.
  intros H. inversion H as [|? ? ? U1 ? ? Hs Hr]; subst.
  apply pool_run_app in Hr as (U2 & Hr1 & Hr2).
  inversion Hr2 as [|? ? ? U3 ? ? Hs2 _]; subst.
  apply pool_step_alloc in Hs as (i & -> & Hi & Hni & ->).
  apply pool_step_alloc in Hs2 as (j & -> & Hj & Hnj & ->).
  exists i, j. split_and!; [done..|]. intros Hu ->. apply Hnj.
  by apply (pool_run_keeps _ _ _ _ j Hr1 Hu); set_solver.
Qed.

(** ** [CidrSet] as a pool *)

Definition layout_of (f : family) (c : Z) (s : CidrSet) : layout :=
  mkLayout f c (clusterMaskSize s) (nodeMaskSize s).

Definition view (s : CidrSet) : gset Z := list_to_set (bits_below (used s) (maxCIDRs s)).

(** One request on the concrete set. *)
Definition exec (f : family) (s : CidrSet) (q : request) : answer * CidrSet :=
  match q with
  | ReqAlloc => let '(r, s') := AllocateNext s in (obind r (λ n, Ok (Some n)), s')
  | ReqOccupy b m => let '(r, s') := Occupy s (Some (mk_net f b m)) in (obind r (λ _, Ok None), s')
  | ReqRelease b m => let '(r, s') := Release s (Some (mk_net f b m)) in (obind r (λ _, Ok None), s')
  end.

Fixpoint exec_all (f : family) (s : CidrSet) (qs : list request) : list (request * answer) * CidrSet :=
  match qs with
  | [] => ([], s)
  | q :: qs' => let '(a, s1) := exec f s q in
                let '(evs, s2) := exec_all f s1 qs' in ((q, a) :: evs, s2)
  end.

Section refinement.
Context (f : family) (c : Z).

Lemma elem_of_view s i : i ∈ view s ↔ 0 ≤ i < maxCIDRs s ∧ Z.testbit (used s) i = true.
Proof. unfold view. by rewrite elem_of_list_to_set, elem_of_bits_below. Qed.

Lemma elem_of_positions s i :
  geom f c s → i ∈ positions (layout_of f c s) ↔ 0 ≤ i < maxCIDRs s.
Proof.
  intros HG. unfold positions, l_size, layout_of; cbn. rewrite <-(geom_max _ _ _ HG).
  rewrite elem_of_list_to_set, elem_of_seqZ. lia.
Qed.

Lemma elem_of_touched s b m i :
  geom f c s →
  i ∈ touched (layout_of f c s) b m ↔ 0 ≤ i < maxCIDRs s ∧ meets f c s b m i.
Proof.
  intros HG. unfold touched. rewrite elem_of_filter, elem_of_positions by done.
  unfold meets, l_addr, block_base, block_size; cbn. tauto.
Qed.

Lemma layout_config s s' : config s' = config s → layout_of f c s' = layout_of f c s.
Proof. unfold config, layout_of. congruence. Qed.

Lemma view_updated s s' U :
  updated f c s s' U → ∀ i, i ∈ view s' ↔ 0 ≤ i < maxCIDRs s ∧ U i.
Proof.
  intros [Hw Hc _ Hu] i. assert (maxCIDRs s' = maxCIDRs s) as E by (unfold config in Hc; congruence).
  rewrite elem_of_view, E. split; intros [Hi ?]; (split; [done|]); by apply Hu.
Qed.

(** Every request on a well-formed set is a step of the abstract pool, keeps the
    set well-formed, and never panics. *)
Lemma exec_refines s q a s' :
  wf f c s → request_ok f q → exec f s q = (a, s') →
  wf f c s' ∧ layout_of f c s' = layout_of f c s ∧
  pool_step (layout_of f c s) (view s) q a (view s').
Proof.
  intros Hs Hq E. pose proof (wf_geom _ _ _ Hs) as HG. destruct q as [|b m|b m]; cbn in *.
  - destruct (full_dec f c s Hs) as [Hfull|Hfree].
    + rewrite (AllocateNext_full f c s Hs Hfull) in E. cbn in E. simplify_eq.
      split_and!; [done..|]. constructor. intros i Hi%elem_of_positions; [|done].
      apply elem_of_view. auto.
    + destruct (AllocateNext_free f c s Hs Hfree) as (i & s1 & E1 & Ha).
      rewrite E1 in E. cbn in E. simplify_eq. destruct Ha as [Hw Hc _ Hu (Hi & Hb & _)].
      split_and!; [done|by apply layout_config|].
      change (mk_net f (block_base f c s i) (nodeMaskSize s)) with (l_block (layout_of f c s) i).
      replace (view s') with ({[i]} ∪ view s); [apply (step_alloc _ _ i)|].
      * by apply elem_of_positions.
      * rewrite elem_of_view. naive_solver congruence.
      * apply set_eq. intros j. rewrite elem_of_union, elem_of_singleton, !elem_of_view, Hu.
        assert (maxCIDRs s' = maxCIDRs s) as -> by (unfold config in Hc; congruence). naive_solver.
  - destruct (decide (overlap f c (clusterMaskSize s) b m)) as [Ho|Ho].
    + destruct (Occupy_inside f c s b m Hs Hq Ho) as (s1 & E1 & Hup). rewrite E1 in E. simplify_eq.
      split_and!; [apply Hup|apply layout_config, Hup|].
      replace (view s') with (touched (layout_of f c s) b m ∪ view s); [by constructor|].
      apply set_eq. intros i. rewrite elem_of_union, (view_updated _ _ _ Hup), elem_of_touched by done.
      rewrite elem_of_view. tauto.
    + rewrite Occupy_outside with (c := c) in E by done. simplify_eq. split_and!; [done..|by constructor].
  - destruct (decide (overlap f c (clusterMaskSize s) b m)) as [Ho|Ho].
    + destruct (Release_inside f c s b m Hs Hq Ho) as (s1 & E1 & Hup). rewrite E1 in E. simplify_eq.
      split_and!; [apply Hup|apply layout_config, Hup|].
      replace (view s') with (view s ∖ touched (layout_of f c s) b m); [by constructor|].
      apply set_eq. intros i. rewrite elem_of_difference, (view_updated _ _ _ Hup), elem_of_touched by done.
      rewrite elem_of_view. tauto.
    + rewrite Release_outside with (c := c) in E by done. simplify_eq. split_and!; [done..|by constructor].
Qed.

Lemma exec_all_refines qs s evs s' :
  wf f c s → Forall (request_ok f) qs → exec_all f s qs = (evs, s') →
  wf f c s' ∧ layout_of f c s' = layout_of f c s ∧
  pool_run (layout_of f c s) (view s) evs (view s').
Proof.
  revert s evs. induction qs as [|q qs IH]; intros s evs Hs Hq; cbn.
  { intros E. simplify_eq. split_and!; [done..|constructor]. }
  apply Forall_cons in Hq as [Hq Hqs].
  destruct (exec f s q) as [a s1] eqn:E1. destruct (exec_all f s1 qs) as [evs1 s2] eqn:E2.
  intros E. simplify_eq. destruct (exec_refines s q a s1 Hs Hq E1) as (Hw1 & HL & Hstep).
  destruct (IH s1 evs1 Hw1 Hqs E2) as (? & HL2 & Hrun).
  split_and!; [done|congruence|]. rewrite HL in Hrun. by econstructor.
Qed.

(** Distinct positions have disjoint networks. *)
Lemma blocks_disjoint s i j :
  geom f c s → i ≠ j →
  ¬ overlap f (block_base f c s i) (nodeMaskSize s) (block_base f c s j) (nodeMaskSize s).
Proof.
  intros HG Hij (x & Hx1 & Hx2). apply (position_iff f c s HG) in Hx1, Hx2. congruence.
Qed.
End refinement.
