(* ===== verification/CidrSetTheorems.v ===== *)
(** * Theorems about [CidrSet]

    The main results on [pkg/nodeipam/ipam/cidrset], each with an instance on a
    small concrete set. *)

From S2P Require Import Prelude GoNet CidrSet CidrSetGeometry CidrSetSpec CidrPool.

(** ** Supporting lemmas *)

Lemma pool_run_no_panic L U evs U' q a : pool_run L U evs U' → (q, a) ∈ evs → a ≠ Panic.
Proof.
  induction 1 as [|U q' a' U1 evs U2 Hs _ IH]; [set_solver|].
  intros [E|?]%elem_of_cons; [|by apply IH]. simplify_eq. by inversion Hs.
Qed.

(** *** Metrics *)

(** The counters agree with the bookkeeping. *)
Definition metrics_agree (s : CidrSet) : Prop := allocations s - releases s = allocatedCIDRs s.

Lemma metrics_occupy_loop l s : metrics_agree s → metrics_agree (foldl occupy_bit s l).
Proof.
  revert s. induction l as [|i l IH]; intros s Hs; [done|]. apply IH. unfold occupy_bit.
  destruct (Z.testbit (used s) i); [done|]. unfold metrics_agree, allocations, releases in *.
  cbn [metrics allocatedCIDRs].
  rewrite filter_cons_True, filter_cons_False by done. cbn [length]. lia.
Qed.

Lemma metrics_release_loop l s : metrics_agree s → metrics_agree (foldl release_bit s l).
Proof.
  revert s. induction l as [|i l IH]; intros s Hs; [done|]. apply IH. unfold release_bit.
  destruct (Z.testbit (used s) i); [|done]. unfold metrics_agree, allocations, releases in *.
  cbn [metrics allocatedCIDRs].
  rewrite filter_cons_False, filter_cons_True by done. cbn [length]. lia.
Qed.

Lemma metrics_set_usage s : metrics_agree s → metrics_agree (set_usage s).
Proof.
  unfold metrics_agree, allocations, releases, set_usage.
  cbn [metrics allocatedCIDRs]. by rewrite !filter_cons_False.
Qed.

(** The gauge holds the current ratio. *)
Definition usage_current (s : CidrSet) : Prop :=
  head (metrics s) = Some (Usage_Set (allocatedCIDRs s) (maxCIDRs s)).

(** *** Successive allocations from a fresh set *)

(** The first [k] positions are taken and the search starts at the next one. *)
Definition taken (s : CidrSet) (k : Z) : Prop :=
  nextCandidate s = k `mod` maxCIDRs s ∧ ∀ j, Z.testbit (used s) j = true ↔ 0 ≤ j < k.

Lemma allocate_taken f c s k :
  wf f c s → taken s k → 0 ≤ k < maxCIDRs s →
  ∃ s', AllocateNext s = (Ok (mk_net f (block_base f c s k) (nodeMaskSize s)), s') ∧
    wf f c s' ∧ config s' = config s ∧ taken s' (k + 1).
Proof.
  intros Hs [Hn Hu] Hk. destruct (AllocateNext_free f c s Hs) as (i & s' & E & Ha).
  { exists k. split; [done|]. apply not_true_is_false. rewrite Hu. lia. }
  destruct Ha as [Hw Hc Hnext Hused (Hi & Hb & Hfirst)].
  assert (i = k) as ->.
  { destruct (decide (i = k)) as [|Hne]; [done|]. exfalso.
    rewrite Hn, (Z.mod_small k) in Hfirst by lia. specialize (Hfirst 0).
    rewrite Z.add_0_r, (Z.mod_small k), Hu in Hfirst by lia.
    assert (0 < (i - k) `mod` maxCIDRs s); [|lia].
    pose proof (Z.mod_pos_bound (i - k) (maxCIDRs s)).
    destruct (decide ((i - k) `mod` maxCIDRs s = 0)) as [Hz|]; [|lia].
    apply Z.mod_divide in Hz as [q Hq]; [|lia].
    assert (q = 0 ∨ 1 ≤ q ∨ q ≤ -1) as [->|[?|?]] by lia; nia. }
  exists s'. split_and!; [done..|].
  assert (maxCIDRs s' = maxCIDRs s) as Hm by (unfold config in Hc; congruence).
  split; [by rewrite Hnext, Hm|]. intros j. rewrite Hused, Hu. lia.
Qed.

Lemma allocate_run f c n s k :
  wf f c s → taken s k → 0 ≤ k → k + Z.of_nat n ≤ maxCIDRs s →
  ∃ s', exec_all f s (replicate n ReqAlloc) =
        (map (λ i, (ReqAlloc, Ok (Some (mk_net f (block_base f c s i) (nodeMaskSize s)))))
           (seqZ k (Z.of_nat n)), s') ∧
    wf f c s' ∧ config s' = config s ∧ taken s' (k + Z.of_nat n).
Proof.
  revert s k. induction n as [|n IH]; intros s k Hs Ht Hk Hle.
  { exists s. cbn. rewrite Z.add_0_r. done. }
  destruct (allocate_taken f c s k Hs Ht ltac:(lia)) as (s1 & E1 & Hw1 & Hc1 & Ht1).
  assert (maxCIDRs s1 = maxCIDRs s ∧ nodeMaskSize s1 = nodeMaskSize s) as [Hm1 Hn1]
    by (unfold config in Hc1; split; congruence).
  destruct (IH s1 (k + 1) Hw1 Ht1) as (s2 & E2 & Hw2 & Hc2 & Ht2); [lia..|].
  exists s2. split_and!; [|done|congruence|].
  - cbn [replicate exec_all exec]. rewrite E1. cbn [obind]. rewrite E2.
    rewrite (seqZ_cons k) by lia. cbn [map]. f_equal. f_equal.
    replace (Z.pred (Z.of_nat (S n))) with (Z.of_nat n) by lia.
    apply map_ext. intros i. by rewrite Hn1, (block_base_config f c s s1).
  - by replace (k + Z.of_nat (S n)) with (k + 1 + Z.of_nat n) by lia.
Qed.

(** *** Concrete sets used as instances *)

Definition base4 : Z := 10 * 2 ^ 24. (* 10.0.0.0 *)
Definition base6 : Z := 0x20010db8 * 2 ^ 96. (* 2001:db8:: *)

Definition demo_set (f : family) (c cm nm : Z) : CidrSet :=
  match NewCIDRSet (mk_net f c cm) nm with
  | Ok s => s
  | _ => mkCidrSet (mk_net f c cm) cm [] nm 0 0 0 0 "" []
  end.
(** 10.0.0.0/28 in /30 blocks, and 2001:db8::/62 in /64 blocks: four each. *)
Definition demo4 : CidrSet := demo_set V4 base4 28 30.
Definition demo6 : CidrSet := demo_set V6 base6 62 64.

Lemma canon_dec f a m :
  (0 <=? m) && (m <=? width f) && (0 <=? a) && (a <? 2 ^ width f) &&
  (a `mod` 2 ^ (width f - m) =? 0) && bool_decide (plain f a) = true → canon f a m.
Proof.
  rewrite !andb_true_iff, bool_decide_eq_true, !Z.leb_le, Z.ltb_lt, Z.eqb_eq.
  intros (((((?&?)&?)&?)&?)&?). by split.
Qed.

Lemma base4_range : 0 ≤ base4 < 2 ^ width V4 ∧ 0 ≤ base4 + 4 < 2 ^ width V4.
Proof. unfold base4. cbn [width]. lia. Qed.

Lemma demo4_wf : wf V4 base4 demo4.
Proof.
  destruct (NewCIDRSet_ok V4 base4 28 30) as (s & E & Hw & _);
    [by apply canon_dec|done|done|done|done|].
  unfold demo4, demo_set. by rewrite E.
Qed.

Lemma demo6_plain x : in_net V6 base6 62 x → plain V6 x.
Proof.
  unfold in_net, base6. cbn [width]. intros Hx _.
  assert (65536 ≤ x / 2 ^ 32); [|lia]. apply Z.div_le_lower_bound; lia.
Qed.

Lemma demo6_wf : wf V6 base6 demo6.
Proof.
  destruct (NewCIDRSet_ok V6 base6 62 64) as (s & E & Hw & _);
    [by apply canon_dec|done|done|done|apply demo6_plain|].
  unfold demo6, demo_set. by rewrite E.
Qed.

(** ** Main theorems *)

(** C1. Refinement: any sequence of allocations, occupations and releases of
    canonical networks, run on a well-formed [CidrSet], is a run of the abstract
    pool of positions with the same answers; the set stays well-formed and no
    operation panics. *)
Theorem cidrset_refines_pool f c s qs evs s' :
  wf f c s → Forall (request_ok f) qs → exec_all f s qs = (evs, s') →
  wf f c s' ∧ pool_run (layout_of f c s) (view s) evs (view s') ∧
  ∀ q a, (q, a) ∈ evs → a ≠ Panic.
Proof.
  intros Hs Hq E. destruct (exec_all_refines f c qs s evs s' Hs Hq E) as (Hw & _ & Hrun).
  split_and!; [done..|]. intros q a. by apply (pool_run_no_panic _ _ _ _ q a Hrun).
Qed.

Definition demo_requests : list request :=
  [ReqAlloc; ReqOccupy (base4 + 8) 29; ReqAlloc; ReqAlloc; ReqRelease base4 30; ReqAlloc].

Lemma demo_requests_ok : Forall (request_ok V4) demo_requests.
Proof. unfold demo_requests. rewrite !Forall_cons. split_and!; (exact I || by apply canon_dec || done). Qed.

Lemma cidrset_refines_pool_witness :
  pool_run (layout_of V4 base4 demo4) (view demo4) (exec_all V4 demo4 demo_requests).1
    (view (exec_all V4 demo4 demo_requests).2).
Proof.
  apply (cidrset_refines_pool V4 base4 demo4 demo_requests
           (exec_all V4 demo4 demo_requests).1 (exec_all V4 demo4 demo_requests).2).
  - exact demo4_wf.
  - exact demo_requests_ok.
  - apply surjective_pairing.
Defined.

(** C2. No double allocation: in any sequence of operations, a network handed out
    by [AllocateNext] and one handed out later share no address, unless a release
    in between touched the first. *)
Theorem cidrset_no_double_allocation f c s qs evs1 n1 evs2 n2 evs3 s' :
  wf f c s → Forall (request_ok f) qs →
  exec_all f s qs =
    (evs1 ++ (ReqAlloc, Ok (Some n1)) :: evs2 ++ (ReqAlloc, Ok (Some n2)) :: evs3, s') →
  ∃ a1 a2, n1 = mk_net f a1 (nodeMaskSize s) ∧ n2 = mk_net f a2 (nodeMaskSize s) ∧
    canon f a1 (nodeMaskSize s) ∧ canon f a2 (nodeMaskSize s) ∧
    ((∀ b m r, (ReqRelease b m, r) ∈ evs2 → ¬ overlap f a1 (nodeMaskSize s) b m) →
     ¬ overlap f a1 (nodeMaskSize s) a2 (nodeMaskSize s)).
Proof.
  intros Hs Hq E. pose proof (wf_geom _ _ _ Hs) as HG.
  destruct (exec_all_refines f c qs s _ s' Hs Hq E) as (_ & _ & Hrun).
  apply pool_run_app in Hrun as (U & _ & Hrun).
  destruct (pool_no_reuse _ _ _ _ _ _ _ Hrun) as (i & j & -> & -> & Hi & Hj & Hne).
  apply elem_of_positions in Hi, Hj; [|done..].
  exists (block_base f c s i), (block_base f c s j).
  split_and!; [done|done|by apply block_canon|by apply block_canon|]. intros Hrel.
  apply blocks_disjoint; [done|]. apply Hne. intros b m r Hin Ht.
  apply (Hrel b m r Hin). by apply elem_of_touched in Ht as [_ Ht].
Qed.

Lemma cidrset_no_double_allocation_witness :
  ¬ overlap V4 base4 30 (base4 + 4) 30.
Proof.
  assert (exec_all V4 demo4 [ReqAlloc; ReqAlloc] =
    ([] ++ (ReqAlloc, Ok (Some (mk_net V4 base4 30))) :: [] ++
       (ReqAlloc, Ok (Some (mk_net V4 (base4 + 4) 30))) :: [],
     (exec_all V4 demo4 [ReqAlloc; ReqAlloc]).2)) as E by (vm_compute; reflexivity).
  destruct (cidrset_no_double_allocation V4 base4 demo4 [ReqAlloc; ReqAlloc] [] _ [] _ [] _
              demo4_wf ltac:(repeat constructor) E) as (a1 & a2 & E1 & E2 & C1 & C2 & H).
  apply (mk_net_addr_inj V4 base4 a1) in E1; [|exact (proj1 base4_range)|apply C1].
  apply (mk_net_addr_inj V4 (base4 + 4) a2) in E2; [|exact (proj2 base4_range)|apply C2]. subst a1 a2.
  apply H. intros b m r Hin. inversion Hin.
Defined.

(** C3. [AllocateNext] on every branch: with no free position it fails and changes
    nothing; otherwise it takes the first free position at or after
    [nextCandidate] (cyclically), returns that position's network, and moves
    [nextCandidate] just past it. *)
Theorem allocate_next_takes_first_free f c s :
  wf f c s →
  ((∀ i, 0 ≤ i < maxCIDRs s → Z.testbit (used s) i = true) ∧
    AllocateNext s = (Err ErrCIDRRangeNoCIDRsRemaining, s)) ∨
  ∃ i s', first_free s i ∧
    AllocateNext s = (Ok (mk_net f (block_base f c s i) (nodeMaskSize s)), s') ∧
    wf f c s' ∧ allocatedCIDRs s' = allocatedCIDRs s + 1 ∧
    nextCandidate s' = (i + 1) `mod` maxCIDRs s ∧
    ∀ j, Z.testbit (used s') j = true ↔ j = i ∨ Z.testbit (used s) j = true.
Proof.
  intros Hs. destruct (full_dec f c s Hs) as [Hfull|Hfree].
  { left. split; [done|]. by apply (AllocateNext_full f c). }
  right. destruct (AllocateNext_free f c s Hs Hfree) as (i & s' & E & [Hw Hc Hn Hu Hf]).
  exists i, s'. split_and!; try done. unfold AllocateNext in E.
  repeat case_match; by simplify_eq.
Qed.

Lemma allocate_next_takes_first_free_witness :
  (AllocateNext demo6).1 = Ok (mk_net V6 base6 64) ∧
  (∀ i, 0 ≤ i < maxCIDRs demo6 → Z.testbit (used demo6) i = true) ∨
  ∃ i s', first_free demo6 i ∧
    AllocateNext demo6 = (Ok (mk_net V6 (block_base V6 base6 demo6 i) 64), s').
Proof.
  destruct (allocate_next_takes_first_free V6 base6 demo6 demo6_wf)
    as [[Hf E]|(i & s' & Hi & E & _)].
  - vm_compute in E. discriminate E.
  - right. exists i, s'. split; [exact Hi|exact E].
Defined.

(** C4. [Occupy] of a canonical network marks exactly the positions whose node
    network shares an address with it, keeping the marks that were there; a
    network that does not meet the cluster range is refused with no change. *)
Theorem occupy_marks_exactly f c s b m :
  wf f c s → canon f b m →
  if decide (overlap f c (clusterMaskSize s) b m) then
    ∃ s', Occupy s (Some (mk_net f b m)) = (Ok tt, s') ∧
      updated f c s s' (λ i, Z.testbit (used s) i = true ∨ meets f c s b m i)
  else Occupy s (Some (mk_net f b m)) = (Err ErrOutOfCluster, s).
Proof.
  intros Hs Hb. case_decide; [by apply Occupy_inside|by apply (Occupy_outside f c)].
Qed.

Lemma occupy_marks_exactly_witness :
  ∃ s', Occupy demo4 (Some (mk_net V4 (base4 + 8) 29)) = (Ok tt, s') ∧
    updated V4 base4 demo4 s'
      (λ i, Z.testbit (used demo4) i = true ∨ meets V4 base4 demo4 (base4 + 8) 29 i).
Proof.
  pose proof (occupy_marks_exactly V4 base4 demo4 (base4 + 8) 29 demo4_wf
                ltac:(by apply canon_dec)) as H.
  rewrite decide_True in H; [exact H|]. apply overlap_interval. vm_compute. reflexivity.
Defined.

(** C5. [Release] clears exactly the positions whose node network shares an
    address with the given one; outside the cluster range it is refused with no
    change. *)
Theorem release_clears_exactly f c s b m :
  wf f c s → canon f b m →
  if decide (overlap f c (clusterMaskSize s) b m) then
    ∃ s', Release s (Some (mk_net f b m)) = (Ok tt, s') ∧
      updated f c s s' (λ i, Z.testbit (used s) i = true ∧ ¬ meets f c s b m i)
  else Release s (Some (mk_net f b m)) = (Err ErrOutOfCluster, s).
Proof.
  intros Hs Hb. case_decide; [by apply Release_inside|by apply (Release_outside f c)].
Qed.

Lemma release_clears_exactly_witness :
  Release demo6 (Some (mk_net V6 0 8)) = (Err ErrOutOfCluster, demo6).
Proof.
  pose proof (release_clears_exactly V6 base6 demo6 0 8 demo6_wf ltac:(by apply canon_dec)) as H.
  rewrite decide_False in H; [exact H|]. rewrite overlap_interval. vm_compute. discriminate.
Defined.

(** C6. Index round trip: for both address families and every mask layout, the
    block of position [i] is a canonical network inside the cluster range, is
    looked up at exactly [i], and shares no address with the block of another
    position. *)
Theorem index_block_roundtrip f c s i :
  geom f c s → 0 ≤ i < maxCIDRs s →
  ∃ a, indexToCIDRBlock s i = Ok (mk_net f a (nodeMaskSize s)) ∧
    canon f a (nodeMaskSize s) ∧
    (∀ x, in_net f a (nodeMaskSize s) x → in_net f c (clusterMaskSize s) x) ∧
    getBeginningAndEndIndices s (Some (mk_net f a (nodeMaskSize s))) = Ok (i, i) ∧
    ∀ j, 0 ≤ j < maxCIDRs s → j ≠ i →
      ∃ a', indexToCIDRBlock s j = Ok (mk_net f a' (nodeMaskSize s)) ∧
        ¬ overlap f a (nodeMaskSize s) a' (nodeMaskSize s).
Proof.
  intros HG Hi. exists (block_base f c s i). split_and!.
  - by apply indexToCIDRBlock_spec.
  - by apply block_canon.
  - intros x. by apply block_in_cluster.
  - by apply indices_block.
  - intros j Hj Hne. exists (block_base f c s j). split; [by apply indexToCIDRBlock_spec|].
    by apply blocks_disjoint.
Qed.

Lemma index_block_roundtrip_witness :
  ∃ a, indexToCIDRBlock demo6 3 = Ok (mk_net V6 a 64) ∧
    getBeginningAndEndIndices demo6 (Some (mk_net V6 a 64)) = Ok (3, 3).
Proof.
  destruct (index_block_roundtrip V6 base6 demo6 3 (wf_geom _ _ _ demo6_wf) ltac:(vm_compute; split; congruence))
    as (a & E & _ & _ & E2 & _).
  exists a. split; [exact E|exact E2].
Defined.

(** C7. Every network is handed out: a fresh set serves exactly [maxCIDRs]
    allocations, the blocks in order of position, and then reports exhaustion. *)
Theorem fresh_set_serves_all_blocks f c cm nm s :
  canon f c cm → cm ≤ nm ≤ width f → nm - cm < 32 →
  (∀ x, in_net f c cm x → plain f x) →
  NewCIDRSet (mk_net f c cm) nm = Ok s →
  ∃ s', exec_all f s (replicate (Z.to_nat (2 ^ (nm - cm))) ReqAlloc) =
        (map (λ i, (ReqAlloc, Ok (Some (mk_net f (c + i * 2 ^ (width f - nm)) nm))))
           (seqZ 0 (2 ^ (nm - cm))), s') ∧
    AllocateNext s' = (Err ErrCIDRRangeNoCIDRsRemaining, s').
Proof.
  intros Hc Hnm Hd Hpl E.
  assert (f = V6 → nm - cm ≤ 16) as H6.
  { intros ->. destruct (decide (nm - cm ≤ 16)); [done|].
    rewrite NewCIDRSet_too_big in E by (done || lia). done. }
  destruct (NewCIDRSet_ok f c cm nm Hc Hnm Hd H6 Hpl) as (s0 & E0 & Hw & Hu & Hcm & Hn & Hnext).
  rewrite E in E0. simplify_eq. pose proof (pow2_pos (nodeMaskSize s0 - clusterMaskSize s0)).
  pose proof (geom_max _ _ _ (wf_geom _ _ _ Hw)) as Hmax.
  destruct (allocate_run f c (Z.to_nat (maxCIDRs s0)) s0 0 Hw) as (s' & Er & Hw' & Hc' & Ht);
    [|lia|lia|].
  { split; [rewrite Hnext; by rewrite Z.mod_0_l by lia|].
    intros j. rewrite Hu, Z.bits_0. split; [done|lia]. }
  rewrite Z2Nat.id in * by lia. exists s'. rewrite <-Hmax. split; [exact Er|].
  apply (AllocateNext_full f c); [done|]. intros i Hi. destruct Ht as [_ Ht]. apply Ht.
  assert (maxCIDRs s' = maxCIDRs s0) by (unfold config in Hc'; congruence). lia.
Qed.

Lemma fresh_set_serves_all_blocks_witness :
  ∃ s', exec_all V6 demo6 (replicate 4 ReqAlloc) =
        (map (λ i, (ReqAlloc, Ok (Some (mk_net V6 (base6 + i * 2 ^ 64) 64)))) (seqZ 0 4), s') ∧
    AllocateNext s' = (Err ErrCIDRRangeNoCIDRsRemaining, s').
Proof.
  exact (fresh_set_serves_all_blocks V6 base6 62 64 demo6 ltac:(by apply canon_dec)
           ltac:(done) ltac:(done) demo6_plain ltac:(reflexivity)).
Defined.

(** Metrics: whatever networks are occupied or released (canonical or not),
    the counter of allocations minus the counter of releases equals
    [allocatedCIDRs], and after every operation that succeeds the usage gauge
    holds the current [allocatedCIDRs / maxCIDRs]. *)
Theorem metrics_follow_state s (cidr : option IPNet) :
  metrics_agree s →
  metrics_agree (AllocateNext s).2 ∧ metrics_agree (Occupy s cidr).2 ∧
  metrics_agree (Release s cidr).2 ∧
  ((AllocateNext s).2 ≠ s → usage_current (AllocateNext s).2) ∧
  ((Occupy s cidr).1 = Ok tt → usage_current (Occupy s cidr).2) ∧
  ((Release s cidr).1 = Ok tt → usage_current (Release s cidr).2).
Proof.
  intros Hs. unfold Occupy, Release, AllocateNext.
  split_and!; repeat case_match; cbn; try done;
    auto using metrics_set_usage, metrics_occupy_loop, metrics_release_loop.
  unfold metrics_agree, allocations, releases in *. cbn [metrics allocatedCIDRs].
  rewrite 2!(filter_cons_False (λ m, m = Allocations_Inc)), filter_cons_True,
    3!(filter_cons_False (λ m, m = Releases_Inc)) by done.
  cbn [length]. lia.
Qed.

Lemma metrics_follow_state_witness :
  metrics_agree (AllocateNext demo4).2 ∧ metrics_agree (Occupy demo4 None).2.
Proof.
  destruct (metrics_follow_state demo4 None) as (H1 & H2 & _); [reflexivity|].
  split; [exact H1|exact H2].
Defined.

(** Allocate then release: releasing the network [AllocateNext] returned gives
    back the bitmap and the counter from before the allocation; occupying it
    instead changes neither. *)
Theorem release_undoes_allocate f c s n s1 :
  wf f c s → AllocateNext s = (Ok n, s1) →
  (∃ s2, Release s1 (Some n) = (Ok tt, s2) ∧ used s2 = used s ∧
         allocatedCIDRs s2 = allocatedCIDRs s) ∧
  (∃ s3, Occupy s1 (Some n) = (Ok tt, s3) ∧ used s3 = used s1 ∧
         allocatedCIDRs s3 = allocatedCIDRs s1).
Proof.
  intros Hs E. destruct (full_dec f c s Hs) as [Hfull|Hfree].
  { rewrite (AllocateNext_full f c) in E by done. done. }
  destruct (AllocateNext_free f c s Hs Hfree) as (i & s1' & E' & Ha).
  rewrite E in E'. injection E' as -> ->. split; [|by apply (Occupy_allocated f c)].
  destruct (Release_allocated f c s s1' i Hs Ha) as (s2 & ? & _ & _ & ? & ?). by exists s2.
Qed.

Lemma release_undoes_allocate_witness :
  ∃ s2, Release (AllocateNext demo4).2 (Some (mk_net V4 base4 30)) = (Ok tt, s2) ∧
    used s2 = used demo4 ∧ allocatedCIDRs s2 = allocatedCIDRs demo4.
Proof.
  exact (proj1 (release_undoes_allocate V4 base4 demo4 (mk_net V4 base4 30) (AllocateNext demo4).2
           demo4_wf ltac:(vm_compute; reflexivity))).
Defined.

(** Networks of the other IP family, and a nil network, are refused by
    [Occupy] and [Release] with an error and no change: an IPv4 set never acts on
    an IPv6 network and the other way round. *)
Theorem other_family_refused f f' c s b m :
  wf f c s → f ≠ f' → canon f' b m →
  Occupy s (Some (mk_net f' b m)) = (Err ErrOutOfCluster, s) ∧
  Release s (Some (mk_net f' b m)) = (Err ErrOutOfCluster, s) ∧
  Occupy s None = (Err ErrNilCIDR, s) ∧ Release s None = (Err ErrNilCIDR, s).
Proof.
  intros Hs Hf Hb. unfold Occupy, Release.
  by rewrite (indices_other_family f f' c s b m (wf_geom _ _ _ Hs)).
Qed.

Lemma other_family_refused_witness :
  Occupy demo4 (Some (mk_net V6 base6 64)) = (Err ErrOutOfCluster, demo4).
Proof.
  exact (proj1 (other_family_refused V4 V6 base4 demo4 base6 64 demo4_wf ltac:(discriminate)
           ltac:(by apply canon_dec))).
Defined.
