(* ===== verification/Kube.v ===== *)
(** * Nodes, the API server and the work queue as the controllers see them

    The [v1.Node] fields the program reads, the calls it makes to the cluster,
    and [pkg/utils/node], [pkg/utils/controller/node].

    The API server, the informer cache and the Kubernetes libraries are not part
    of the program: they are the parameter [Kube].  An answer of the API server
    or of the informer cache may depend on everything that was done before, so
    the answering functions take the trace of the past actions; nothing is
    assumed about them.  [KubeLaws] states the documented behaviour of the
    library functions some theorems rely on. *)

From S2P Require Import Prelude GoNet.

Local Open Scope go_scope.

(** ** Objects *)

Record Taint := mkTaint { taint_key : string; taint_value : string; taint_effect : string }.

#[export] Instance Taint_eq_dec : EqDecision Taint.
Proof. solve_decision. Defined.

(** [v1.NodeAddress]: type and address. *)
Record NodeAddress := mkNodeAddress { addr_type : string; address : string }.

#[export] Instance NodeAddress_eq_dec : EqDecision NodeAddress.
Proof. solve_decision. Defined.

Record Node := mkNode {
  Name : string;
  Labels : gmap string string;
  Annotations : gmap string string;
  Deleting : bool; (* DeletionTimestamp is set *)
  PodCIDR : string;
  PodCIDRs : list string;
  ProviderID : string;
  Taints : list Taint;
  Addresses : list NodeAddress;
  (* [Status.Allocatable["pods"]], [Status.Capacity["pods"]]: [None] when the
     resource is not listed, [Some None] when the quantity is not an int64 *)
  AllocatablePods : option (option Z);
  CapacityPods : option (option Z) }.

#[export] Instance Node_eq_dec : EqDecision Node.
Proof. solve_decision. Defined.

Definition NodeExternalIP : string := "ExternalIP".
Definition NodeInternalIP : string := "InternalIP".
Definition NodeHostName : string := "Hostname".
Definition NodeInternalDNS : string := "InternalDNS".
Definition NodeExternalDNS : string := "ExternalDNS".

(** ** Actions *)

(** What the controllers do to the outside, newest first in a trace. *)
Inductive action :=
  | ActGet (key : string)
  | ActPatch (node : string) (podCIDR : string) (podCIDRs : list string) (refused : option error)
  | ActEvent (node : string) (status : string)
  | ActQueueAdd (key : string)
  | ActQueueAddRateLimited (key : string)
  | ActQueueForget (key : string)
  | ActQueueDone (key : string)
  | ActHandleError (e : error)
  (* calls to the Talos API *)
  | ActTalosNew
  | ActGetNodeIfaces (ip : string)
  | ActGetNodeMetadata (ip : string)
  | ActGetNodeSystemInfo (ip : string)
  (* updates of a node's metadata *)
  | ActPatchNode (node : string) (patch : string)
  | ActTaintNode (node : string) (taints : list Taint)
  | ActLabelNode (node : string) (labels : gmap string string)
  (* metrics of a call: what was called, and whether it failed *)
  | ActObserve (what : string) (failed : bool).

#[export] Instance action_eq_dec : EqDecision action.
Proof. solve_decision. Defined.

(** A controller state that carries the trace. *)
Class Traced (S : Type) := {
  trace : S → list action;
  add_action : action → S → S }.

Definition emit {S} `{!Traced S} (a : action) : GoM S unit := gmodify (add_action a).

(** ** The cluster and the Kubernetes libraries *)

Record Kube := mkKube {
  (* k8s.io/utils/net *)
  ParseCIDRSloppy : string → error + IPNet;
  ParseCIDRs : list string → error + list IPNet;
  (* k8s.io/apimachinery/pkg/api/errors *)
  IsNotFound : error → bool;
  IsServerTimeout : error → bool;
  (* k8s.io/api/core/v1 *)
  MatchTaint : Taint → Taint → bool;
  (* the informer's cache and the API server *)
  lister_Get : list action → string → error + Node;
  api_Patch : list action → string → string → list string → option error }.

(** [errors.As(err, &status)]: the API status in the chain of wrapped errors.
    A cause formatted with [%v] is not in the chain. *)
Fixpoint errors_As (e : error) : option string :=
  match e with
  | ErrNew _ => None
  | ErrAPI reason => Some reason
  | ErrV _ _ => None
  | ErrW _ e' => errors_As e'
  end.

(** Documented behaviour of the library functions: the error predicates look at
    the API status in the chain and are false without one; a taint matches on key
    and effect; a parsed network has an address and a mask of one length. *)
Record KubeLaws (K : Kube) : Prop := {
  not_found_status : ∀ e, errors_As e = None → IsNotFound K e = false;
  timeout_status : ∀ e, errors_As e = None → IsServerTimeout K e = false;
  match_taint : ∀ t u, MatchTaint K t u = true ↔
    taint_key t = taint_key u ∧ taint_effect t = taint_effect u;
  parse_sized : ∀ s n, ParseCIDRSloppy K s = inr n → sized n }.

Section cluster.
Context (K : Kube) {S : Type} `{!Traced S}.

(** [nodeLister.Get(name)]. *)
Definition nodeLister_Get (key : string) : GoM S Node :=
  s <- gget ;;
  emit (ActGet key) ;;;
  match lister_Get K (trace s) key with
  | inl e => gfail e
  | inr n => gret n
  end.

(** [nodeutil.PatchNodeCIDRs]: [cidrs[0]] of an empty list panics; the API error
    is formatted with [%v]. *)
Definition PatchNodeCIDRs (node : string) (cidrs : list string) : GoM S unit :=
  match cidrs with
  | [] => gpanic
  | podCIDR :: _ =>
      s <- gget ;;
      let err := api_Patch K (trace s) node podCIDR cidrs in
      emit (ActPatch node podCIDR cidrs err) ;;;
      match err with
      | Some e => gfail (ErrV "failed to patch node CIDR: " e)
      | None => gret tt
      end
  end.

(** [controllerutil.RecordNodeStatusChange]. *)
Definition RecordNodeStatusChange (node : Node) (newStatus : string) : GoM S unit :=
  emit (ActEvent (Name node) newStatus).

(** [utilruntime.HandleError]. *)
Definition HandleError (e : error) : GoM S unit := emit (ActHandleError e).
End cluster.

(** What an informer hands to a delete handler: the node, or the tombstone
    [cache.DeletedFinalStateUnknown] when the watch missed the deletion. *)
Inductive deleted_object :=
  | ObjNode (n : Node)
  | ObjTombstone (key : string) (n : Node).

(** [ipnetToStringList]. *)
Definition ipnetToStringList (inCIDRs : list (option IPNet)) : list string := map IPNet_String inCIDRs.
