(* ===== verification/CidrAllocator.v ===== *)
(** * [pkg/nodeipam/ipam/cidr_allocator.go]: what the two allocators share

    The parameters, the node list taken at start-up, and the interface
    [CIDRAllocator] as a class; the retry loop that both
    [updateCIDRsAllocation] methods run. *)

From S2P Require Import Prelude GoNet Kube.

Local Open Scope go_scope.

Definition RangeAllocatorType : string := "RangeAllocator".
Definition CloudAllocatorType : string := "CloudAllocator".

(** The number of times a node update is tried before it is dropped. *)
Definition cidrUpdateRetries : nat := 3.

Record CIDRAllocatorParams := mkParams {
  ClusterCIDRs : list IPNet;
  ServiceCIDR : option IPNet;
  SecondaryServiceCIDR : option IPNet;
  NodeCIDRMaskSizes : list Z }.

Definition ErrListNodes : error :=
  ErrNew "failed to list all nodes in 10m0s, cannot proceed without updating CIDR map".

(** [listNodes]: [polls] are the answers of the API server to the polls that fit
    into the start-up grace period. *)
Fixpoint listNodes (polls : list (error + list Node)) : outcome (list Node) :=
  match polls with
  | [] => Err ErrListNodes
  | inl _ :: polls' => listNodes polls'
  | inr nodes :: _ => Ok nodes
  end.

(** The interface [CIDRAllocator]. *)
Class CIDRAllocator (S : Type) := {
  AllocateOrOccupyCIDR : Kube → option Node → GoM S unit;
  ReleaseCIDR : Kube → option Node → GoM S unit }.

Section retries.
Context (K : Kube) {S : Type} `{!Traced S}.

(** [for i := 0; i < n; i++ { if err = PatchNodeCIDRs(...); err == nil { return nil } }]:
    delivers [None] when a try was accepted and the last error otherwise. *)
Fixpoint patch_attempts (n : nat) (err : option error) (node : string) (cidrs : list string)
    : GoM S (option error) :=
  match n with
  | O => gret err
  | Datatypes.S n' =>
      gcatch (PatchNodeCIDRs K node cidrs ;;; gret None)
             (λ e, patch_attempts n' (Some e) node cidrs)
  end.
End retries.

(** ** The retry loop *)

(** A refused try to give [node] the networks [cidrs]. *)
Definition refused_patch (node : string) (cidrs : list string) (a : action) : Prop :=
  ∃ e, a = ActPatch node (default "" (head cidrs)) cidrs (Some e).

Definition accepted_patch (node : string) (cidrs : list string) : action :=
  ActPatch node (default "" (head cidrs)) cidrs None.

(** The state with the actions [l] (newest first) added to its trace. *)
Definition add_actions {S} `{!Traced S} (l : list action) (s : S) : S := foldr add_action s l.

Definition ErrPatch (e : error) : error := ErrV "failed to patch node CIDR: " e.

(** At most [k] tries: refused ones, ended by an accepted one or by exhaustion. *)
Lemma patch_attempts_spec (K : Kube) {St : Type} `{!Traced St} k (s : St) err node cidrs :
  cidrs ≠ [] →
  (∃ l, Forall (refused_patch node cidrs) l ∧ (length l < k)%nat ∧
     api_Patch K (trace (add_actions l s)) node (default "" (head cidrs)) cidrs = None ∧
     patch_attempts K k err node cidrs s = (Ok None, add_actions (accepted_patch node cidrs :: l) s)) ∨
  (∃ l err', Forall (refused_patch node cidrs) l ∧ length l = k ∧
     patch_attempts K k err node cidrs s = (Ok err', add_actions l s) ∧
     (k = O → err' = err) ∧ (k ≠ O → ∃ e, err' = Some (ErrPatch e))).
Proof.
  intros Hne. revert err s. induction k as [|k IH]; intros err s.
  { right. exists [], err. done. }
  cbn [patch_attempts]. unfold gcatch, PatchNodeCIDRs, gbind.
  destruct cidrs as [|podCIDR cidrs]; [done|]. cbn [gget gret].
  destruct (api_Patch K (trace s) node podCIDR (podCIDR :: cidrs)) as [e|] eqn:Eapi.
  - change (emit ?a s) with (@Ok unit tt, add_action a s). cbn [gfail].
    set (a := ActPatch _ _ _ (Some e)).
    assert (refused_patch node (podCIDR :: cidrs) a) as Ha by (by exists e).
    destruct (IH (Some (ErrPatch e)) (add_action a s))
      as [(l & Hl & Hlen & Hacc & E)|(l & err' & Hl & Hlen & E & H0 & H1)];
      unfold ErrPatch in E; rewrite E.
    + left. exists (l ++ [a]). unfold add_actions in *. cbn [foldr]. rewrite foldr_app, length_app.
      split_and!; [by apply Forall_app; auto|cbn; lia|done|done].
    + right. exists (l ++ [a]), err'. unfold add_actions. rewrite foldr_app, length_app.
      split_and!; [by apply Forall_app; auto|cbn; lia|done|done|]. intros _.
      destruct k; [rewrite H0 by done; by eexists|by apply H1].
  - left. exists []. split_and!; [constructor|cbn; lia|done|done].
Qed.

(** The last error of a failed loop hides its cause: no API status is left in its
    chain. *)
Lemma ErrPatch_no_status e : errors_As (ErrPatch e) = None.
Proof. done. Qed.

(** ** Histories *)

(** What a client of the interface does, in sequence; an operation that fails is
    reported and the next one runs. *)
Inductive alloc_op := OpAllocate (n : option Node) | OpRelease (n : option Node).

Section histories.
Context {S : Type} (A : CIDRAllocator S) `{!Traced S} (K : Kube).

Definition alloc_step (op : alloc_op) : GoM S unit :=
  match op with
  | OpAllocate n => AllocateOrOccupyCIDR K n
  | OpRelease n => ReleaseCIDR K n
  end.

Definition alloc_run (ops : list alloc_op) (s : S) : S := foldl (λ s op, (alloc_step op s).2) s ops.

(** Between [s] and [s'] the networks [strs] were assigned to a node. *)
Definition assigned_in (s s' : S) (strs : list string) : Prop :=
  ∃ name l, trace s' = accepted_patch name strs :: l ++ trace s.

(** A relation every operation respects is respected by a history. *)
Lemma alloc_run_steps (R : relation S) `{!PreOrder R} ops :
  Forall (λ op, gsteps R (alloc_step op)) ops → ∀ s, R s (alloc_run ops s).
Proof.
  induction 1 as [|op ops Hop _ IH]; intros s; [reflexivity|].
  transitivity ((alloc_step op s).2); [apply Hop|apply IH].
Qed.
End histories.
