(* ===== verification/AllocatorParams.v ===== *)
(** * Parameters in order

    The documented preconditions of the two allocators' constructors: canonical
    cluster ranges with node masks that fit, as a list of layouts (see
    [CidrPool]), and canonical service ranges. *)

From S2P Require Import Prelude GoNet CidrSet CidrSetGeometry CidrSetSpec CidrPool Kube CidrAllocator.

Local Open Scope go_scope.

Definition l_cluster (L : layout) : IPNet := mk_net (l_fam L) (l_base L) (l_cmask L).

Record layout_ok (L : layout) : Prop := {
  lo_canon : canon (l_fam L) (l_base L) (l_cmask L);
  lo_masks : l_cmask L ≤ l_nmask L ≤ width (l_fam L);
  lo_small : l_nmask L - l_cmask L < 32;
  lo_v6 : l_fam L = V6 → l_nmask L - l_cmask L ≤ 16;
  lo_plain : ∀ x, in_net (l_fam L) (l_base L) (l_cmask L) x → plain (l_fam L) x }.

Record params_ok (Ls : list layout) (p : CIDRAllocatorParams) : Prop := {
  po_cluster : ClusterCIDRs p = map l_cluster Ls;
  po_masks : NodeCIDRMaskSizes p = map l_nmask Ls;
  po_layouts : Forall layout_ok Ls;
  po_service : ∀ n, ServiceCIDR p = Some n ∨ SecondaryServiceCIDR p = Some n →
    ∃ f b m, n = mk_net f b m ∧ canon f b m }.

(** The set [NewCIDRSet] makes for a layout in order. *)
Lemma layout_set L :
  layout_ok L →
  ∃ s, NewCIDRSet (l_cluster L) (l_nmask L) = Ok s ∧ wf (l_fam L) (l_base L) s ∧
    clusterMaskSize s = l_cmask L ∧ nodeMaskSize s = l_nmask L.
Proof.
  intros [Hc Hm Hs H6 Hp].
  destruct (NewCIDRSet_ok (l_fam L) (l_base L) (l_cmask L) (l_nmask L)) as (s & E & Hw & _ & ? & ? & _); try done.
  by exists s.
Qed.

(** A layout but for the limit on IPv6, which [NewCIDRSet] checks itself. *)
Record layout_fits (L : layout) : Prop := {
  lf_canon : canon (l_fam L) (l_base L) (l_cmask L);
  lf_masks : l_cmask L ≤ l_nmask L ≤ width (l_fam L);
  lf_small : l_nmask L - l_cmask L < 32;
  lf_plain : ∀ x, in_net (l_fam L) (l_base L) (l_cmask L) x → plain (l_fam L) x }.

Lemma layout_fits_cases L :
  layout_fits L → layout_ok L ∨ NewCIDRSet (l_cluster L) (l_nmask L) = Err ErrCIDRSetSubNetTooBig.
Proof.
  intros [Hc Hm Hs Hp]. destruct (decide (l_fam L = V6 ∧ 16 < l_nmask L - l_cmask L)) as [[H6 Hbig]|Hno].
  - right. unfold NewCIDRSet, l_cluster. rewrite H6 in *. rewrite (Mask_Size_canon V6 _ _ Hc).
    assert (To4 (ip_of (mk_net V6 (l_base L) (l_cmask L))) = None) as ->.
    { apply To4_v6; apply Hc; done. }
    rewrite bool_decide_true by done. unfold clusterSubnetMaxDiff. by rewrite (proj2 (Z.ltb_lt _ _) Hbig).
  - left. split; try done. intros H6. destruct (Z.le_gt_cases (l_nmask L - l_cmask L) 16); [done|]. by destruct Hno.
Qed.
