(* ===== verification/RangeAllocator.v ===== *)
(** * [pkg/nodeipam/ipam/range_allocator.go]

    [rangeAllocator] keeps one [CidrSet] per cluster CIDR, by index.  The methods
    are state transformers over the allocator; [Panic] is Go's run-time panic
    (an index out of range, a failed type assertion).  Log lines are left out,
    events, API calls, queue operations and reported errors are actions of the
    trace. *)

From S2P Require Import Prelude GoNet CidrSet Kube CidrAllocator.

Local Open Scope go_scope.

Record rangeAllocator := mkRangeAllocator {
  clusterCIDRs : list IPNet;
  cidrSets : list CidrSet;
  actions : list action }.

#[export] Instance rangeAllocator_traced : Traced rangeAllocator := {|
  trace := actions;
  add_action a r := mkRangeAllocator (clusterCIDRs r) (cidrSets r) (a :: actions r) |}.

Definition with_cidrSets (r : rangeAllocator) (l : list CidrSet) : rangeAllocator :=
  mkRangeAllocator (clusterCIDRs r) l (actions r).

(** [r.cidrSets[idx].op(...)]. *)
Definition on_set {A} (idx : nat) (op : CidrSet → outcome A * CidrSet) : GoM rangeAllocator A :=
  λ r, match cidrSets r !! idx with
       | None => (Panic, r)
       | Some s => let '(o, s') := op s in (o, with_cidrSets r (<[idx := s']> (cidrSets r)))
       end.

(** ** Errors *)

Definition ErrParseNode (n : Node) : error :=
  ErrNew ("failed to parse node " +:+ Name n +:+ ", CIDR " +:+ PodCIDR n).
Definition ErrNoClusterCIDR (n : Node) (cidr : string) (idx : nat) : error :=
  ErrNew ("node:" +:+ Name n +:+ " has an allocated cidr: " +:+ cidr +:+ " at index:" +:+
          Uitoa (Z.of_nat idx) +:+ " that does not exist in cluster cidrs configuration").

Definition ErrSync (key : string) (err : error) : error :=
  ErrNew ("error syncing '" +:+ key +:+ "': " +:+ Error err +:+ ", requeuing").

(** ** Operations *)

Section operations.
Context (K : Kube).

Definition occupyCIDRs (node : Node) : GoM rangeAllocator unit :=
  gforeachi 0 (PodCIDRs node) (λ idx cidr,
    match ParseCIDRSloppy K cidr with
    | inl _ => gfail (ErrParseNode node)
    | inr podCIDR =>
        r <- gget ;;
        if (length (cidrSets r) <=? idx)%nat then gfail (ErrNoClusterCIDR node cidr idx)
        else
          gcatch (on_set idx (λ s, Occupy s (Some podCIDR)))
                 (λ e, gfail (ErrV ("failed to mark cidr[" +:+ IPNet_String (Some podCIDR) +:+
                                    "] at idx [" +:+ Uitoa (Z.of_nat idx) +:+
                                    "] as occupied for node: " +:+ Name node +:+ ": ") e))
    end).

(** [r.cidrSets[idx].Release(cidr)] for every allocated network; a failure is
    only logged. *)
Definition release_all (allocatedCIDRs : list (option IPNet)) : GoM rangeAllocator unit :=
  gforeachi 0 allocatedCIDRs (λ idx cidr,
    gcatch (on_set idx (λ s, Release s cidr)) (λ _, gret tt)).

Definition updateCIDRsAllocation (nodeName : string) (allocatedCIDRs : list (option IPNet))
    : GoM rangeAllocator unit :=
  let cidrsString := ipnetToStringList allocatedCIDRs in
  node <- nodeLister_Get K nodeName ;;
  if (length (PodCIDRs node) =? length allocatedCIDRs)%nat &&
     bool_decide (PodCIDRs node = cidrsString) then gret tt
  else if negb (length (PodCIDRs node) =? 0)%nat then release_all allocatedCIDRs
  else
    res <- patch_attempts K cidrUpdateRetries None (Name node) cidrsString ;;
    match res with
    | None => gret tt
    | Some err =>
        RecordNodeStatusChange node "CIDRAssignmentFailed" ;;;
        (if IsServerTimeout K err then gret tt else release_all allocatedCIDRs) ;;;
        gfail err
    end.

(** The loop over [r.cidrSets] of [AllocateOrOccupyCIDR]: [n] sets are left, the
    next one is [idx]. *)
Fixpoint allocate_each (node : Node) (n idx : nat) : GoM rangeAllocator (list (option IPNet)) :=
  match n with
  | O => gret []
  | S n' =>
      podCIDR <- gcatch (on_set idx AllocateNext) (λ e,
        RecordNodeStatusChange node "CIDRNotAvailable" ;;;
        gfail (ErrV ("failed to allocate cidr from cluster cidr at idx:" +:+
                     Uitoa (Z.of_nat idx) +:+ ": ") e)) ;;
      rest <- allocate_each node n' (S idx) ;;
      gret (Some podCIDR :: rest)
  end.

Definition range_AllocateOrOccupyCIDR (node : option Node) : GoM rangeAllocator unit :=
  match node with
  | None => gret tt
  | Some node =>
      if (0 <? length (PodCIDRs node))%nat then occupyCIDRs node
      else
        r <- gget ;;
        allocatedCIDRs <- allocate_each node (length (cidrSets r)) 0 ;;
        updateCIDRsAllocation (Name node) allocatedCIDRs
  end.

Definition range_ReleaseCIDR (node : option Node) : GoM rangeAllocator unit :=
  match node with
  | None => gret tt
  | Some node =>
      gforeachi 0 (PodCIDRs node) (λ idx cidr,
        match ParseCIDRSloppy K cidr with
        | inl e => gfail (ErrV ("failed to parse CIDR " +:+ cidr +:+ " on Node " +:+ Name node +:+ ": ") e)
        | inr podCIDR =>
            r <- gget ;;
            if (length (cidrSets r) <=? idx)%nat then gfail (ErrNoClusterCIDR node cidr idx)
            else
              gcatch (on_set idx (λ s, Release s (Some podCIDR)))
                     (λ e, gfail (ErrV ("error when releasing CIDR " +:+ cidr +:+ ": ") e))
        end)
  end.

Definition filterOutServiceRange (serviceCIDR : IPNet) : GoM rangeAllocator unit :=
  r <- gget ;;
  gforeachi 0 (clusterCIDRs r) (λ idx cidr,
    if negb (IPNet_Contains cidr (IP_Mask (ip_of serviceCIDR) (mask_of cidr))) &&
       negb (IPNet_Contains serviceCIDR (IP_Mask (ip_of cidr) (mask_of serviceCIDR)))
    then gret tt
    else gcatch (on_set idx (λ s, Occupy s (Some serviceCIDR))) (λ _, gret tt)).

Definition syncNode (key : string) : GoM rangeAllocator unit :=
  r <- gget ;;
  emit (ActGet key) ;;;
  match lister_Get K (trace r) key with
  | inl err => if IsNotFound K err then gret tt else gfail err
  | inr node =>
      if Deleting node then range_ReleaseCIDR (Some node)
      else range_AllocateOrOccupyCIDR (Some node)
  end.

(** What the queue delivers: the keys are strings, the queue itself is untyped;
    [None] is a queue that is shut down. *)
Inductive queue_item := QKey (key : string) | QOther (dump : string).

Definition processNextNodeWorkItem (item : option queue_item) : GoM rangeAllocator bool :=
  match item with
  | None => gret false
  | Some (QOther dump) =>
      emit (ActQueueForget dump) ;;;
      HandleError (ErrNew ("expected string in workNodeQueue but got " +:+ dump)) ;;;
      emit (ActQueueDone dump) ;;;
      gret true
  | Some (QKey key) =>
      gcatch (syncNode key ;;;
              emit (ActQueueForget key) ;;;
              emit (ActQueueDone key) ;;;
              gret true)
             (λ err,
              emit (ActQueueAddRateLimited key) ;;;
              emit (ActQueueDone key) ;;;
              HandleError (ErrSync key err) ;;;
              gret true)
  end.

(** *** Informer event handlers *)

Definition AddFunc (n : Node) : GoM rangeAllocator unit := emit (ActQueueAdd (Name n)).
Definition UpdateFunc (old new : Node) : GoM rangeAllocator unit := emit (ActQueueAdd (Name new)).

(** [obj.( *v1.Node)] panics on a tombstone. *)
Definition DeleteFunc (obj : deleted_object) : GoM rangeAllocator unit :=
  match obj with
  | ObjTombstone _ _ => gpanic
  | ObjNode n =>
      gcatch (range_ReleaseCIDR (Some n))
             (λ e, HandleError (ErrW "error while processing CIDR Release: " e)) ;;;
      emit (ActQueueAdd (Name n))
  end.

(** ** Construction *)

(** One set per cluster CIDR, with the mask size of the same index. *)
Fixpoint make_sets (cidrs : list IPNet) (sizes : list Z) : outcome (list CidrSet) :=
  match cidrs with
  | [] => Ok []
  | cidr :: cidrs' =>
      match sizes with
      | [] => Panic
      | size :: sizes' =>
          let? s := NewCIDRSet cidr size in
          let? rest := make_sets cidrs' sizes' in
          Ok (s :: rest)
      end
  end.

Definition NewCIDRRangeAllocator (params : CIDRAllocatorParams) (nodeList : option (list Node))
    : outcome rangeAllocator :=
  let? sets := make_sets (ClusterCIDRs params) (NodeCIDRMaskSizes params) in
  let ra := mkRangeAllocator (ClusterCIDRs params) sets [] in
  let filter_service (c : option IPNet) : GoM rangeAllocator unit :=
    match c with Some cidr => filterOutServiceRange cidr | None => gret tt end in
  let init : GoM rangeAllocator unit :=
    filter_service (ServiceCIDR params) ;;;
    filter_service (SecondaryServiceCIDR params) ;;;
    match nodeList with
    | None => gret tt
    | Some items =>
        gforeach items (λ node,
          if (length (PodCIDRs node) =? 0)%nat then gret tt else occupyCIDRs node)
    end in
  let '(o, ra') := init ra in
  let? _ := o in
  Ok ra'.
End operations.

#[export] Instance rangeAllocator_CIDRAllocator : CIDRAllocator rangeAllocator := {|
  AllocateOrOccupyCIDR := range_AllocateOrOccupyCIDR;
  ReleaseCIDR := range_ReleaseCIDR |}.
