(* ===== verification/RangeAllocatorSpec.v ===== *)
(** * Lemmas about the range allocator

    The allocator's invariant and its preservation by every operation; the
    effect of the allocation loop, of the release loop and of the retry loop. *)

From S2P Require Import Prelude GoNet CidrSet CidrSetGeometry CidrSetSpec Kube CidrAllocator.
From S2P Require Import RangeAllocator.

Local Open Scope go_scope.

(** ** Invariant *)

(** The family and base address of every set. *)
Notation places := (list (family * Z)).

Record ra_ok (ls : places) (r : rangeAllocator) : Prop := {
  ok_sets : Forall2 (λ l s, wf l.1 l.2 s) ls (cidrSets r);
  ok_cluster : clusterCIDRs r = clusterCIDR <$> cidrSets r }.

Lemma ra_wf ls r idx f c s :
  ra_ok ls r → ls !! idx = Some (f, c) → cidrSets r !! idx = Some s → wf f c s.
Proof. intros [Hs _] El Es. exact (Forall2_lookup_lr _ _ _ _ _ _ Hs El Es). Qed.

(** Every operation evolves an allocator in order into one in order, with the
    same configuration, and only adds to the trace. *)
Definition evolves (ls : places) (r r' : rangeAllocator) : Prop :=
  ra_ok ls r →
  ra_ok ls r' ∧ (config <$> cidrSets r') = (config <$> cidrSets r) ∧
  actions r `suffix_of` actions r'.

#[export] Instance evolves_preorder ls : PreOrder (evolves ls).
Proof.
  split; [by intros r|]. intros r1 r2 r3 H12 H23 H1.
  destruct (H12 H1) as (H2 & E2 & S2). destruct (H23 H2) as (H3 & E3 & S3).
  split_and!; [done|congruence|by etransitivity].
Qed.

Section invariant.
Context (ls : places).

Lemma on_set_steps {A} idx (op : CidrSet → outcome A * CidrSet) :
  set_op_safe op → gsteps (evolves ls) (on_set idx op).
Proof.
  intros Hop r [Hs Hc]. unfold on_set. destruct (cidrSets r !! idx) as [s|] eqn:Es; [|done].
  destruct (Forall2_lookup_r _ _ _ _ _ Hs Es) as ([f c] & El & Hw). cbn in Hw.
  pose proof (Hop f c s Hw) as [Hw' Hcfg]. destruct (op s) as [o s']. cbn in *.
  assert ((config <$> <[idx:=s']> (cidrSets r)) = (config <$> cidrSets r)) as Hmap.
  { rewrite list_fmap_insert, Hcfg.
    apply list_insert_id. by rewrite list_lookup_fmap, Es. }
  split_and!; [|done|done]. split; cbn.
  - rewrite <-(list_insert_id ls idx (f, c)) by done. by apply Forall2_insert.
  - rewrite Hc, list_fmap_insert, (config_cluster _ _ Hcfg). symmetry.
    apply list_insert_id. by rewrite list_lookup_fmap, Es.
Qed.

Lemma emit_steps a : gsteps (evolves ls) (emit (S := rangeAllocator) a).
Proof. intros r [Hs Hc]. split_and!; [by split|done|by apply suffix_cons_r]. Qed.
End invariant.

#[export] Hint Resolve on_set_steps emit_steps : go_steps.

Section operations_evolve.
Context (K : Kube) (ls : places).

Lemma occupyCIDRs_steps n : gsteps (evolves ls) (occupyCIDRs K n).
Proof. unfold occupyCIDRs. go_steps. Qed.

Lemma release_all_steps l : gsteps (evolves ls) (release_all l).
Proof. unfold release_all. go_steps. Qed.

Lemma patch_attempts_steps k err node cidrs :
  gsteps (evolves ls) (patch_attempts (S := rangeAllocator) K k err node cidrs).
Proof.
  revert err. induction k as [|k IH]; intros err; cbn [patch_attempts]; [go_steps|].
  apply gsteps_catch; [exact _| |intros; apply IH]. unfold PatchNodeCIDRs. go_steps.
Qed.

Lemma nodeLister_Get_steps key : gsteps (evolves ls) (nodeLister_Get (S := rangeAllocator) K key).
Proof. unfold nodeLister_Get. go_steps. Qed.

Lemma updateCIDRsAllocation_steps name l : gsteps (evolves ls) (updateCIDRsAllocation K name l).
Proof.
  unfold updateCIDRsAllocation, RecordNodeStatusChange.
  pose proof nodeLister_Get_steps. pose proof patch_attempts_steps. pose proof release_all_steps. go_steps.
Qed.

Lemma allocate_each_steps node n idx : gsteps (evolves ls) (allocate_each node n idx).
Proof.
  revert idx. induction n as [|n IH]; intros idx; cbn [allocate_each]; unfold RecordNodeStatusChange; go_steps.
Qed.

Lemma AllocateOrOccupyCIDR_steps node : gsteps (evolves ls) (range_AllocateOrOccupyCIDR K node).
Proof.
  unfold range_AllocateOrOccupyCIDR. pose proof occupyCIDRs_steps.
  pose proof allocate_each_steps. pose proof updateCIDRsAllocation_steps. go_steps.
Qed.

Lemma ReleaseCIDR_steps node : gsteps (evolves ls) (range_ReleaseCIDR K node).
Proof. unfold range_ReleaseCIDR. go_steps. Qed.

Lemma filterOutServiceRange_steps n : gsteps (evolves ls) (filterOutServiceRange n).
Proof. unfold filterOutServiceRange. go_steps. Qed.

Lemma syncNode_steps key : gsteps (evolves ls) (syncNode K key).
Proof.
  unfold syncNode. pose proof ReleaseCIDR_steps. pose proof AllocateOrOccupyCIDR_steps. go_steps.
Qed.

Lemma processNextNodeWorkItem_steps item : gsteps (evolves ls) (processNextNodeWorkItem K item).
Proof. unfold processNextNodeWorkItem, HandleError. pose proof syncNode_steps. go_steps. Qed.

Lemma DeleteFunc_steps obj : gsteps (evolves ls) (DeleteFunc K obj).
Proof. unfold DeleteFunc, HandleError. pose proof ReleaseCIDR_steps. go_steps. Qed.
End operations_evolve.

(** ** The allocation loop *)

(** One network was taken from every set. *)
Inductive took_all : places → list CidrSet → list IPNet → list CidrSet → Prop :=
  | took_nil : took_all [] [] [] []
  | took_cons f c s i s' ls sets nets sets' :
      allocated f c s s' i → took_all ls sets nets sets' →
      took_all ((f, c) :: ls) (s :: sets)
        (mk_net f (block_base f c s i) (nodeMaskSize s) :: nets) (s' :: sets').

Definition full (s : CidrSet) : Prop := ∀ i, 0 ≤ i < maxCIDRs s → Z.testbit (used s) i = true.

Notation wfs := (Forall2 (λ (l : family * Z) s, wf l.1 l.2 s)).

Lemma took_all_length ls sets nets sets' :
  took_all ls sets nets sets' →
  length sets = length ls ∧ length nets = length ls ∧ length sets' = length ls.
Proof. induction 1; cbn; lia. Qed.

Lemma took_all_wf ls sets nets sets' : took_all ls sets nets sets' → wfs ls sets'.
Proof. induction 1 as [|f c s i s' ls sets nets sets' Ha _ IH]; constructor; [apply Ha|done]. Qed.

Lemma took_all_config ls sets nets sets' :
  took_all ls sets nets sets' → config <$> sets' = config <$> sets.
Proof.
  induction 1 as [|f c s i s' ls sets nets sets' Ha _ IH]; cbn; [done|].
  by rewrite IH, (all_config _ _ _ _ _ Ha).
Qed.

Lemma lookup_middle_nat {A} (pre suf : list A) x : (pre ++ x :: suf) !! length pre = Some x.
Proof. by apply list_lookup_middle. Qed.

(** A computation on the set at the head of what is left. *)
Lemma on_set_middle {A} cl pre s suf acts (op : CidrSet → outcome A * CidrSet) :
  on_set (length pre) op (mkRangeAllocator cl (pre ++ s :: suf) acts) =
  ((op s).1, mkRangeAllocator cl (pre ++ (op s).2 :: suf) acts).
Proof.
  unfold on_set. cbn [cidrSets]. rewrite lookup_middle_nat. destruct (op s) as [o s'].
  unfold with_cidrSets. cbn [clusterCIDRs cidrSets actions fst snd]. by rewrite insert_middle_nat.
Qed.

Definition ErrNoCIDRAt (idx : nat) : error :=
  ErrV ("failed to allocate cidr from cluster cidr at idx:" +:+ Uitoa (Z.of_nat idx) +:+ ": ")
       ErrCIDRRangeNoCIDRsRemaining.

Lemma allocate_each_free node cl ls sets pre acts :
  wfs ls sets → Forall (λ s, ¬ full s) sets →
  ∃ nets sets', took_all ls sets nets sets' ∧
    allocate_each node (length sets) (length pre) (mkRangeAllocator cl (pre ++ sets) acts) =
    (Ok (map Some nets), mkRangeAllocator cl (pre ++ sets') acts).
Proof.
  intros Hw. revert pre. induction Hw as [|[f c] s ls sets Hs Hw IH]; intros pre Hf.
  { exists [], []. split; [constructor|done]. }
  inversion Hf as [|? ? Hs' Hf']; subst. cbn in Hs.
  destruct (full_dec f c s Hs) as [?|Hfree]; [done|].
  destruct (AllocateNext_free f c s Hs Hfree) as (i & s' & E & Ha).
  destruct (IH (pre ++ [s']) Hf') as (nets & sets' & Ht & E').
  exists (mk_net f (block_base f c s i) (nodeMaskSize s) :: nets), (s' :: sets').
  split; [by constructor|]. cbn [length allocate_each].
  unfold gbind at 1. unfold gcatch. rewrite on_set_middle, E. cbn [fst snd].
  rewrite length_app, Nat.add_1_r in E'. rewrite <-!app_assoc in E'. cbn [app] in E'.
  unfold gbind. by rewrite E'.
Qed.

(** The first full set stops the loop: the sets before it keep what was taken. *)
Lemma allocate_each_full node cl ls1 sets1 s sets2 pre acts :
  wfs ls1 sets1 → Forall (λ s, ¬ full s) sets1 → full s → (∃ f c, wf f c s) →
  ∃ nets sets1', took_all ls1 sets1 nets sets1' ∧
    allocate_each node (length (sets1 ++ s :: sets2)) (length pre)
      (mkRangeAllocator cl (pre ++ sets1 ++ s :: sets2) acts) =
    (Err (ErrNoCIDRAt (length pre + length sets1)),
     mkRangeAllocator cl (pre ++ sets1' ++ s :: sets2)
       (ActEvent (Name node) "CIDRNotAvailable" :: acts)).
Proof.
  intros Hw. revert pre. induction Hw as [|[f c] s0 ls1 sets1 Hs0 Hw IH]; intros pre Hf Hfull (f' & c' & Hs).
  { exists [], []. split; [constructor|]. cbn [app length allocate_each]. rewrite Nat.add_0_r.
    unfold gbind at 1. unfold gcatch. rewrite on_set_middle.
    rewrite (AllocateNext_full f' c') by done. done. }
  inversion Hf as [|? ? Hs0' Hf']; subst. cbn in Hs0.
  destruct (full_dec f c s0 Hs0) as [?|Hfree]; [done|].
  destruct (AllocateNext_free f c s0 Hs0 Hfree) as (i & s' & E & Ha).
  destruct (IH (pre ++ [s']) Hf' Hfull) as (nets & sets1' & Ht & E'); [by eauto|].
  exists (mk_net f (block_base f c s0 i) (nodeMaskSize s0) :: nets), (s' :: sets1').
  split; [by constructor|]. cbn [app length allocate_each].
  unfold gbind at 1. unfold gcatch. rewrite on_set_middle, E. cbn [fst snd].
  rewrite (length_app pre [s']), Nat.add_1_r, <-!(app_assoc pre [s']) in E'. cbn [app] in E'.
  unfold gbind. rewrite E'. by rewrite Nat.add_succ_l, Nat.add_succ_r.
Qed.

(** ** The release loop *)

(** The same networks are marked (in sets with the same configuration). *)
Definition same_use (s s' : CidrSet) : Prop :=
  config s' = config s ∧ used s' = used s ∧ allocatedCIDRs s' = allocatedCIDRs s.

Lemma release_all_took cl ls sets nets sets' pre acts :
  wfs ls sets → took_all ls sets nets sets' →
  ∃ sets'', wfs ls sets'' ∧ Forall2 same_use sets sets'' ∧
    gforeachi (length pre) (map Some nets)
      (λ idx cidr, gcatch (on_set idx (λ s, Release s cidr)) (λ _, gret tt))
      (mkRangeAllocator cl (pre ++ sets') acts) =
    (Ok tt, mkRangeAllocator cl (pre ++ sets'') acts).
Proof.
  intros Hw Ht. revert pre Hw. induction Ht as [|f c s i s' ls sets nets sets' Ha Ht IH]; intros pre Hw.
  { exists []. split_and!; [constructor..|done]. }
  inversion Hw as [|? ? ? ? Hs Hw']; subst. cbn in Hs.
  destruct (Release_allocated f c s s' i Hs Ha) as (s'' & E & Hw'' & Hc & Hu & Hn).
  destruct (IH (pre ++ [s'']) Hw') as (sets'' & ? & ? & E').
  exists (s'' :: sets''). split_and!; [by constructor|by constructor|].
  cbn [map gforeachi]. unfold gbind at 1. unfold gcatch at 1. rewrite on_set_middle, E. cbn [fst snd].
  rewrite length_app, Nat.add_1_r in E'. rewrite <-!app_assoc in E'. cbn [app] in E'. exact E'.
Qed.

(** ** [updateCIDRsAllocation] *)

Lemma add_actions_ra l cl sets acts :
  add_actions l (mkRangeAllocator cl sets acts) = mkRangeAllocator cl sets (l ++ acts).
Proof. induction l as [|a l IH]; [done|]. unfold add_actions in *. cbn [foldr]. by rewrite IH. Qed.

Lemma map_Some_inj {A} (l l' : list A) : map Some l = map Some l' → l = l'.
Proof. revert l'. induction l; intros [|] E; cbn in E; simplify_eq; f_equal; auto. Qed.

Section update.
Context (K : Kube) (ls : places) (sets : list CidrSet) (nets : list IPNet) (sets' : list CidrSet).
Context (cl : list IPNet) (acts : list action) (name : string).
Context (Hw : wfs ls sets) (Ht : took_all ls sets nets sets').

Notation strs := (ipnetToStringList (map Some nets)).
Notation before := (mkRangeAllocator cl sets' acts).

Lemma release_all_undoes acts' :
  ∃ sets'', wfs ls sets'' ∧ Forall2 same_use sets sets'' ∧
    release_all (map Some nets) (mkRangeAllocator cl sets' acts') =
    (Ok tt, mkRangeAllocator cl sets'' acts').
Proof. apply (release_all_took cl ls sets nets sets' []); done. Qed.

Lemma update_lister_error e :
  lister_Get K acts name = inl e →
  updateCIDRsAllocation K name (map Some nets) before =
    (Err e, mkRangeAllocator cl sets' (ActGet name :: acts)).
Proof.
  intros E. unfold updateCIDRsAllocation, nodeLister_Get, gbind. cbn. by rewrite E.
Qed.

Lemma update_already node :
  lister_Get K acts name = inr node → PodCIDRs node = strs →
  updateCIDRsAllocation K name (map Some nets) before =
    (Ok tt, mkRangeAllocator cl sets' (ActGet name :: acts)).
Proof.
  intros E Ep. unfold updateCIDRsAllocation, nodeLister_Get, gbind. cbn. rewrite E. cbn.
  rewrite Ep. unfold ipnetToStringList. rewrite length_map, Nat.eqb_refl, bool_decide_true by done. done.
Qed.

Lemma update_other node :
  lister_Get K acts name = inr node → PodCIDRs node ≠ strs → PodCIDRs node ≠ [] →
  ∃ sets'', wfs ls sets'' ∧ Forall2 same_use sets sets'' ∧
    updateCIDRsAllocation K name (map Some nets) before =
      (Ok tt, mkRangeAllocator cl sets'' (ActGet name :: acts)).
Proof.
  intros E Hne Hsome. destruct (release_all_undoes (ActGet name :: acts)) as (sets'' & ? & ? & Er).
  exists sets''. split_and!; [done..|].
  unfold updateCIDRsAllocation, nodeLister_Get, gbind. cbn. rewrite E. cbn.
  rewrite bool_decide_false, andb_false_r by done.
  destruct (PodCIDRs node) as [|? ?]; [done|]. cbn. exact Er.
Qed.

Lemma update_patches node :
  lister_Get K acts name = inr node → PodCIDRs node = [] → nets ≠ [] → KubeLaws K →
  (∃ l, Forall (refused_patch (Name node) strs) l ∧ (length l < cidrUpdateRetries)%nat ∧
     api_Patch K (l ++ ActGet name :: acts) (Name node) (default "" (head strs)) strs = None ∧
     updateCIDRsAllocation K name (map Some nets) before =
       (Ok tt, mkRangeAllocator cl sets'
                 (accepted_patch (Name node) strs :: l ++ ActGet name :: acts))) ∨
  (∃ l e sets'', Forall (refused_patch (Name node) strs) l ∧ length l = cidrUpdateRetries ∧
     wfs ls sets'' ∧ Forall2 same_use sets sets'' ∧
     updateCIDRsAllocation K name (map Some nets) before =
       (Err (ErrPatch e), mkRangeAllocator cl sets''
          (ActEvent (Name node) "CIDRAssignmentFailed" :: l ++ ActGet name :: acts))).
Proof.
  intros E Hnil Hne HK. unfold updateCIDRsAllocation, nodeLister_Get, gbind. cbn [gget].
  change (emit ?a ?s) with (@Ok unit tt, add_action a s).
  change (trace before) with acts. rewrite E. cbn [gret]. rewrite Hnil.
  assert ((length ([] : list string) =? length (map Some nets))%nat &&
          bool_decide ([] = ipnetToStringList (map Some nets)) = false) as ->
    by (by destruct nets). cbn [length Nat.eqb negb].
  change (add_action ?a before) with (mkRangeAllocator cl sets' (a :: acts)).
  destruct (patch_attempts_spec K cidrUpdateRetries (mkRangeAllocator cl sets' (ActGet name :: acts)) None
              (Name node) strs) as [(l & Hl & Hlen & Hacc & Ep)|(l & err & Hl & Hlen & Ep & _ & Herr)].
  { by destruct nets. }
  - left. exists l. rewrite Ep. cbn [gret]. by rewrite add_actions_ra in *.
  - right. destruct Herr as (e & ->); [done|].
    destruct (release_all_undoes (ActEvent (Name node) "CIDRAssignmentFailed" :: l ++ ActGet name :: acts))
      as (sets'' & ? & ? & Er).
    exists l, e, sets''. split_and!; [done..|]. rewrite Ep, add_actions_ra.
    unfold RecordNodeStatusChange. change (emit ?a ?s) with (@Ok unit tt, add_action a s).
    rewrite (timeout_status K HK) by apply ErrPatch_no_status.
    change (add_action ?a (mkRangeAllocator cl sets' ?t)) with (mkRangeAllocator cl sets' (a :: t)).
    rewrite Er. done.
Qed.
End update.

(** ** Freedom from panics *)

Section panics.
Context (K : Kube) (HK : KubeLaws K) (ls : places).

Lemma on_set_ok {A} idx (op : CidrSet → outcome A * CidrSet) :
  (idx < length ls)%nat → set_op_safe op → set_op_total op → gok (ra_ok ls) (on_set idx op).
Proof.
  intros Hidx Hsafe Htot r Hr. split; [|by apply (on_set_steps ls idx op)].
  destruct (lookup_lt_is_Some_2 ls idx Hidx) as [[f c] El].
  destruct (Forall2_lookup_l _ _ _ _ _ (ok_sets _ _ Hr) El) as (s & Es & Hw).
  unfold on_set. rewrite Es. pose proof (Htot f c s Hw) as Hp. by destruct (op s).
Qed.

Lemma emit_ok a : gok (ra_ok ls) (emit (S := rangeAllocator) a).
Proof. intros r [Hs Hc]. split; [done|by split]. Qed.

Lemma ra_length r : ra_ok ls r → length (cidrSets r) = length ls.
Proof. intros Hr. symmetry. eapply Forall2_length, Hr. Qed.

End panics.

#[export] Hint Resolve emit_ok : go_ok.
#[export] Hint Extern 2 (_ < _)%nat => lia : go_ok.

Section panics_operations.
Context (K : Kube) (HK : KubeLaws K) (ls : places).

Lemma occupyCIDRs_ok n : gok (ra_ok ls) (occupyCIDRs K n).
Proof.
  unfold occupyCIDRs. go_ok.
  match goal with Hr : ra_ok ls _, E : (_ <=? _)%nat = false |- _ =>
    rewrite (ra_length ls _ Hr) in E; apply Nat.leb_gt in E end.
  match goal with E : ParseCIDRSloppy K _ = inr _ |- _ => apply (parse_sized K HK) in E end.
  apply on_set_ok; auto with go_ok.
Qed.

Lemma ReleaseCIDR_ok n : gok (ra_ok ls) (range_ReleaseCIDR K n).
Proof.
  unfold range_ReleaseCIDR. go_ok.
  match goal with Hr : ra_ok ls _, E : (_ <=? _)%nat = false |- _ =>
    rewrite (ra_length ls _ Hr) in E; apply Nat.leb_gt in E end.
  match goal with E : ParseCIDRSloppy K _ = inr _ |- _ => apply (parse_sized K HK) in E end.
  apply on_set_ok; auto with go_ok.
Qed.

Lemma patch_attempts_ok k err node cidrs :
  cidrs ≠ [] → gok (ra_ok ls) (patch_attempts (S := rangeAllocator) K k err node cidrs).
Proof.
  intros Hne. revert err. induction k as [|k IH]; intros err; cbn [patch_attempts]; [go_ok|].
  apply gok_catch; [|intros; apply IH]. unfold PatchNodeCIDRs. destruct cidrs; [done|]. go_ok.
Qed.

(** The networks the loop takes are as many as the sets, and none is nil. *)
Lemma allocate_each_result node n idx r l r' :
  allocate_each node n idx r = (Ok l, r') → length l = n ∧ Forall (λ x, x ≠ None) l.
Proof.
  revert idx r l r'. induction n as [|n IH]; intros idx r l r'; cbn.
  { intros [= <- _]. done. }
  unfold gbind. destruct (gcatch _ _ r) as [[p|e|] r1]; [|done..].
  destruct (allocate_each node n (S idx) r1) as [[rest|e|] r2] eqn:E; [|done..].
  intros [= <- <-]. apply IH in E as [<- ?]. by split; [|constructor].
Qed.

Lemma allocate_each_ok node n idx :
  (idx + n ≤ length ls)%nat → gok (ra_ok ls) (allocate_each node n idx).
Proof.
  revert idx. induction n as [|n IH]; intros idx Hle; cbn [allocate_each]; unfold RecordNodeStatusChange; [go_ok|].
  apply gok_bind; [|intros; apply gok_bind; [apply IH; lia|go_ok]].
  apply gok_catch; [|go_ok]. apply on_set_ok; auto with go_ok.
Qed.

Lemma Release_sized_total (n : option IPNet) :
  (∀ x, n = Some x → sized x) → set_op_total (λ s, Release s n).
Proof.
  intros Hn f c s Hs. destruct n as [x|]; [by apply (Release_no_panic f c); auto|done].
Qed.

Lemma release_all_ok l :
  (length l ≤ length ls)%nat → (∀ x, Some x ∈ l → sized x) → gok (ra_ok ls) (release_all l).
Proof.
  intros Hlen Hl. unfold release_all. apply gok_foreachi. intros k n Hk. cbn [Nat.add].
  apply lookup_lt_Some in Hk as Hlt. apply list_elem_of_lookup_2 in Hk.
  apply gok_catch; [|go_ok]. apply on_set_ok; [lia|auto with go_ok|].
  apply Release_sized_total. intros x ->. by apply Hl.
Qed.

Lemma updateCIDRsAllocation_ok name l :
  l ≠ [] → (length l ≤ length ls)%nat → (∀ x, Some x ∈ l → sized x) →
  gok (ra_ok ls) (updateCIDRsAllocation K name l).
Proof.
  intros Hne Hlen Hl. pose proof (release_all_ok l Hlen Hl).
  assert (ipnetToStringList l ≠ []) as Hs by (by destruct l).
  unfold updateCIDRsAllocation, nodeLister_Get, RecordNodeStatusChange.
  pose proof (λ k err node, patch_attempts_ok k err node _ Hs). go_ok.
Qed.

Lemma allocate_each_sized node n idx r l r' :
  ra_ok ls r → allocate_each node n idx r = (Ok l, r') → ∀ x, Some x ∈ l → sized x.
Proof.
  revert idx r l r'. induction n as [|n IH]; intros idx r l r' Hr; cbn.
  { intros [= <- _] x Hx. set_solver. }
  unfold gbind. pose proof (on_set_steps ls idx AllocateNext AllocateNext_safe r Hr) as (Hr1 & _ & _).
  unfold gcatch. destruct (on_set idx AllocateNext r) as [[p|e|] r1] eqn:Eo; [|done..].
  destruct (allocate_each node n (S idx) r1) as [[rest|e|] r2] eqn:E; [|done..].
  intros [= <- <-] x [Hx|Hx]%elem_of_cons; [|by eapply IH].
  injection Hx as ->. unfold on_set in Eo. destruct (cidrSets r !! idx) as [s|] eqn:Es; [|done].
  destruct (Forall2_lookup_r _ _ _ _ _ (ok_sets _ _ Hr) Es) as ([f c] & _ & Hw). cbn in Hw.
  destruct (full_dec f c s Hw) as [Hfull|Hfree]; [by rewrite (AllocateNext_full f c) in Eo|].
  destruct (AllocateNext_free f c s Hw Hfree) as (i & s' & Ea & [_ _ _ _ (Hi & _)]).
  rewrite Ea in Eo. injection Eo as <- _. apply sized_mk_net.
  apply (canon_mask _ _ _ (block_canon f c s (wf_geom _ _ _ Hw) i Hi)).
Qed.

Lemma AllocateOrOccupyCIDR_ok node :
  ls ≠ [] → gok (ra_ok ls) (range_AllocateOrOccupyCIDR K node).
Proof.
  intros Hls. unfold range_AllocateOrOccupyCIDR. destruct node as [n|]; [|go_ok].
  destruct (_ <? _)%nat; [apply occupyCIDRs_ok|]. apply gok_get. intros s Hs.
  intros r' Hr'. pose proof (ra_length ls s Hs) as Hlen.
  destruct (allocate_each_ok n (length (cidrSets s)) 0 ltac:(lia) r' Hr') as [Hp Hi].
  unfold gbind. destruct (allocate_each n (length (cidrSets s)) 0 r') as [[l|e|] r''] eqn:E; [|done..].
  pose proof (allocate_each_result _ _ _ _ _ _ E) as [Hl _].
  apply updateCIDRsAllocation_ok; [|lia|exact (allocate_each_sized _ _ _ _ _ _ Hr' E)|done].
  destruct l; [|done]. destruct ls; [done|]. cbn in *. lia.
Qed.

Lemma syncNode_ok key : ls ≠ [] → gok (ra_ok ls) (syncNode K key).
Proof.
  intros Hls. pose proof ReleaseCIDR_ok. pose proof (λ n, AllocateOrOccupyCIDR_ok n Hls).
  unfold syncNode. go_ok.
Qed.

Lemma processNextNodeWorkItem_ok item : ls ≠ [] → gok (ra_ok ls) (processNextNodeWorkItem K item).
Proof.
  intros Hls. pose proof (λ k, syncNode_ok k Hls). unfold processNextNodeWorkItem, HandleError. go_ok.
Qed.
End panics_operations.

(** ** Reservation *)

Lemma first_full ls sets :
  wfs ls sets →
  Forall (λ s, ¬ full s) sets ∨
  ∃ ls1 l ls2 sets1 s sets2, ls = ls1 ++ l :: ls2 ∧ sets = sets1 ++ s :: sets2 ∧
    wfs ls1 sets1 ∧ Forall (λ s, ¬ full s) sets1 ∧ wf l.1 l.2 s ∧ full s ∧ wfs ls2 sets2.
Proof.
  induction 1 as [|[f c] s ls sets Hs Hw IH]; [by left; constructor|].
  destruct (full_dec f c s Hs) as [Hf|Hf].
  { right. exists [], (f, c), ls, [], s, sets. split_and!; try done; constructor. }
  assert (¬ full s) as Hnf.
  { destruct Hf as (i & Hi & Hb). intros H. by rewrite (H i Hi) in Hb. }
  destruct IH as [IH|(ls1 & l & ls2 & sets1 & s0 & sets2 & -> & -> & ? & ? & ? & ? & ?)].
  { left. by constructor. }
  right. exists ((f, c) :: ls1), l, ls2, (s :: sets1), s0, sets2. split_and!; try done; by constructor.
Qed.

(** What [AllocateOrOccupyCIDR] does for a node without CIDRs: it takes a network
    from every set and goes on to assign them, or stops at the first full set. *)
Lemma allocate_reserves K ls r node :
  ra_ok ls r → PodCIDRs node = [] →
  (∃ nets sets', took_all ls (cidrSets r) nets sets' ∧
     range_AllocateOrOccupyCIDR K (Some node) r =
     updateCIDRsAllocation K (Name node) (map Some nets)
       (mkRangeAllocator (clusterCIDRs r) sets' (actions r))) ∨
  (∃ ls1 l ls2 sets1 s sets2 nets sets1', ls = ls1 ++ l :: ls2 ∧ cidrSets r = sets1 ++ s :: sets2 ∧
     took_all ls1 sets1 nets sets1' ∧ full s ∧
     range_AllocateOrOccupyCIDR K (Some node) r =
     (Err (ErrNoCIDRAt (length sets1)),
      mkRangeAllocator (clusterCIDRs r) (sets1' ++ s :: sets2)
        (ActEvent (Name node) "CIDRNotAvailable" :: actions r))).
Proof.
  intros [Hw _] Hnil. destruct r as [cl sets acts]. cbn in *. rewrite Hnil. cbn. unfold gbind.
  destruct (first_full ls sets Hw) as [Hf|(ls1 & l & ls2 & sets1 & s & sets2 & -> & -> & Hw1 & Hf1 & Hs & Hfull & Hw2)].
  - left. destruct (allocate_each_free node cl ls sets [] acts Hw Hf) as (nets & sets' & Ht & E).
    exists nets, sets'. split; [done|]. cbn in E. by rewrite E.
  - right. destruct (allocate_each_full node cl ls1 sets1 s sets2 [] acts Hw1 Hf1 Hfull) as (nets & sets1' & Ht & E).
    { by exists l.1, l.2. }
    exists ls1, l, ls2, sets1, s, sets2, nets, sets1'. split_and!; [done..|]. cbn in E. by rewrite E.
Qed.

(** ** Marks that stay *)

Definition set_keeps (s s' : CidrSet) : Prop :=
  ∀ j, Z.testbit (used s) j = true → Z.testbit (used s') j = true.

#[export] Instance set_keeps_preorder : PreOrder set_keeps.
Proof. split; [by intros s j|]. intros s1 s2 s3 H12 H23 j Hj. by apply H23, H12. Qed.

Definition keeps (r r' : rangeAllocator) : Prop := Forall2 set_keeps (cidrSets r) (cidrSets r').

#[export] Instance keeps_preorder : PreOrder keeps.
Proof.
  split; [intros r; unfold keeps; reflexivity|].
  intros r1 r2 r3 H12 H23. unfold keeps in *. by etransitivity.
Qed.

Lemma on_set_keeps {A} idx (op : CidrSet → outcome A * CidrSet) :
  (∀ s, set_keeps s (op s).2) → gsteps keeps (on_set idx op).
Proof.
  intros Hop r. unfold on_set, keeps. destruct (cidrSets r !! idx) as [s|] eqn:E; [|reflexivity].
  specialize (Hop s). destruct (op s) as [o s']. cbn in *.
  rewrite <-(list_insert_id (cidrSets r) idx s E) at 1. apply Forall2_insert; [reflexivity|done].
Qed.

Lemma occupyCIDRs_keeps K n : gsteps keeps (occupyCIDRs K n).
Proof.
  unfold occupyCIDRs. go_steps. apply on_set_keeps. intros s j. apply Occupy_keeps.
Qed.

Lemma took_all_keeps ls sets nets sets' : took_all ls sets nets sets' → Forall2 set_keeps sets sets'.
Proof.
  induction 1 as [|f c s i s' ls sets nets sets' Ha _ IH]; constructor; [|done].
  intros j Hj. apply (all_used _ _ _ _ _ Ha). by right.
Qed.

Lemma same_use_keeps sets sets' : Forall2 same_use sets sets' → Forall2 set_keeps sets sets'.
Proof. intros H. eapply Forall2_impl; [exact H|]. intros s s' (_ & Hu & _) j. by rewrite Hu. Qed.

(** Whatever happens, an allocation or occupation clears no mark. *)
Lemma AllocateOrOccupyCIDR_keeps K ls r node :
  KubeLaws K → ra_ok ls r → keeps r (range_AllocateOrOccupyCIDR K node r).2.
Proof.
  intros HK Hr. destruct node as [node|]; [|apply keeps_preorder].
  destruct (PodCIDRs node) eqn:Hnil.
  2:{ unfold range_AllocateOrOccupyCIDR. rewrite Hnil. apply occupyCIDRs_keeps. }
  destruct (allocate_reserves K ls r node Hr Hnil)
    as [(nets & sets' & Ht & ->)|(ls1 & l & ls2 & sets1 & s & sets2 & nets & sets1' & Els & Es & Ht & _ & ->)].
  2:{ unfold keeps. cbn. rewrite Es. apply Forall2_app; [by eapply took_all_keeps|]. reflexivity. }
  pose proof (took_all_keeps _ _ _ _ Ht) as Hk. pose proof (ok_sets _ _ Hr) as Hw.
  unfold keeps. destruct (lister_Get K (actions r) (Name node)) as [e|node'] eqn:El.
  { by rewrite (update_lister_error K nets sets' _ _ _ e). }
  destruct (decide (PodCIDRs node' = ipnetToStringList (map Some nets))) as [Ep|Ep].
  { by rewrite (update_already K nets sets' _ _ _ node'). }
  destruct (decide (PodCIDRs node' = [])) as [En|En].
  - destruct nets as [|net nets]; [by rewrite En in Ep|].
    destruct (update_patches K ls (cidrSets r) (net :: nets) sets' (clusterCIDRs r) (actions r) (Name node)
                Hw Ht node' El En) as [(l & _ & _ & _ & ->)|(l & e & sets'' & _ & _ & _ & Hu & ->)]; try done.
    by apply same_use_keeps.
  - destruct (update_other K ls (cidrSets r) nets sets' (clusterCIDRs r) (actions r) (Name node)
                Hw Ht node' El Ep En) as (sets'' & _ & Hu & ->).
    by apply same_use_keeps.
Qed.

(** ** [ReleaseCIDR] *)

(** What releasing the networks [l] from index [i] on asks of the state: each
    parses to a canonical network of its set's family that meets its range. *)
Definition releasable (K : Kube) (ls : places) (r : rangeAllocator) (idx : nat) (cidr : string) : Prop :=
  ∃ f c s b m, ls !! idx = Some (f, c) ∧ cidrSets r !! idx = Some s ∧
    ParseCIDRSloppy K cidr = inr (mk_net f b m) ∧ canon f b m ∧ overlap f c (clusterMaskSize s) b m.

(** The set at [idx] lost exactly the marks of the networks meeting [cidr], if
    there is one. *)
Definition released_at (K : Kube) (ls : places) (r r' : rangeAllocator) (idx : nat)
    (cidr : option string) : Prop :=
  match cidr with
  | None => cidrSets r' !! idx = cidrSets r !! idx
  | Some cidr => ∃ f c s s' b m, ls !! idx = Some (f, c) ∧
      cidrSets r !! idx = Some s ∧ cidrSets r' !! idx = Some s' ∧
      ParseCIDRSloppy K cidr = inr (mk_net f b m) ∧ canon f b m ∧
      updated f c s s' (λ i, Z.testbit (used s) i = true ∧ ¬ meets f c s b m i)
  end.

Lemma release_one K ls r idx cidr node :
  ra_ok ls r → releasable K ls r idx cidr →
  ∃ r', (match ParseCIDRSloppy K cidr with
         | inl e => gfail (ErrV ("failed to parse CIDR " +:+ cidr +:+ " on Node " +:+ Name node +:+ ": ") e)
         | inr podCIDR =>
             r <- gget ;;
             if (length (cidrSets r) <=? idx)%nat then gfail (ErrNoClusterCIDR node cidr idx)
             else gcatch (on_set idx (λ s, Release s (Some podCIDR)))
                    (λ e, gfail (ErrV ("error when releasing CIDR " +:+ cidr +:+ ": ") e))
         end) r = (Ok tt, r') ∧ ra_ok ls r' ∧ actions r' = actions r ∧
    released_at K ls r r' idx (Some cidr) ∧ ∀ k, k ≠ idx → cidrSets r' !! k = cidrSets r !! k.
Proof.
  intros Hr (f & c & s & b & m & El & Es & Ep & Hcan & Ho). rewrite Ep. unfold gbind. cbn [gget].
  apply lookup_lt_Some in Es as Hlt. destruct (Nat.leb_spec (length (cidrSets r)) idx) as [|_]; [lia|].
  pose proof (ra_wf _ _ _ _ _ _ Hr El Es) as Hw.
  destruct (Release_inside f c s b m Hw Hcan Ho) as (s' & E & Hu).
  pose proof (on_set_steps ls idx (λ s, Release s (Some (mk_net f b m))) (Release_safe _) r Hr) as (Hr' & _ & _).
  unfold gcatch, on_set in *. rewrite Es, E in *. cbn [snd] in *.
  eexists. split_and!; [done|exact Hr'|done| |].
  - exists f, c, s, s', b, m. split_and!; try done. by apply list_lookup_insert_eq.
  - intros k Hk. by apply list_lookup_insert_ne.
Qed.

Lemma release_loop_exact K ls node l i r :
  ra_ok ls r → (∀ k cidr, l !! k = Some cidr → releasable K ls r (i + k) cidr) →
  ∃ r', gforeachi i l (λ idx cidr,
      match ParseCIDRSloppy K cidr with
      | inl e => gfail (ErrV ("failed to parse CIDR " +:+ cidr +:+ " on Node " +:+ Name node +:+ ": ") e)
      | inr podCIDR =>
          r <- gget ;;
          if (length (cidrSets r) <=? idx)%nat then gfail (ErrNoClusterCIDR node cidr idx)
          else gcatch (on_set idx (λ s, Release s (Some podCIDR)))
                 (λ e, gfail (ErrV ("error when releasing CIDR " +:+ cidr +:+ ": ") e))
      end) r = (Ok tt, r') ∧ ra_ok ls r' ∧ actions r' = actions r ∧
    (∀ k, (k < i)%nat → cidrSets r' !! k = cidrSets r !! k) ∧
    (∀ k, released_at K ls r r' (i + k) (l !! k)).
Proof.
  revert i r. induction l as [|cidr l IH]; intros i r Hr Hl.
  { exists r. split_and!; done. }
  destruct (release_one K ls r i cidr node Hr) as (r1 & E1 & Hr1 & Ha1 & Hat & Hother).
  { rewrite <-(Nat.add_0_r i). by apply Hl. }
  destruct (IH (S i) r1 Hr1) as (r' & E' & Hr' & Ha' & Hlow & Hhigh).
  { intros k cidr' Hk. destruct (Hl (S k) cidr' Hk) as (f & c & s & b & m & El & Es & Ep & Hcan & Ho).
    rewrite Nat.add_succ_l, <-Nat.add_succ_r. exists f, c, s, b, m. split_and!; [done| |done..].
    rewrite Hother; [done|lia]. }
  exists r'. cbn [gforeachi]. unfold gbind at 1. rewrite E1. split_and!; [exact E'|done|congruence| |].
  - intros k Hk. rewrite Hlow by lia. apply Hother. lia.
  - intros [|k].
    + rewrite Nat.add_0_r. destruct Hat as (f & c & s & s' & b & m & ? & ? & ? & ? & ? & ?).
      exists f, c, s, s', b, m. split_and!; try done. rewrite Hlow by lia. done.
    + specialize (Hhigh k). rewrite Nat.add_succ_l, <-Nat.add_succ_r in Hhigh.
      change ((cidr :: l) !! S k) with (l !! k). unfold released_at in *.
      destruct (l !! k); rewrite (Hother (i + S k)%nat) in Hhigh by lia; done.
Qed.
