(* ===== verification/RangeAllocatorRuns.v ===== *)
(** * Histories of the range allocator

    Sequences of allocations and releases, in any order and with any answers of
    the API server: a network that was assigned stays marked until a release
    touches it, and an assignment only takes unmarked networks. *)

From S2P Require Import Prelude GoNet CidrSet CidrSetGeometry CidrSetSpec CidrPool Kube CidrAllocator.
From S2P Require Import RangeAllocator RangeAllocatorSpec.

Local Open Scope go_scope.

(** ** Sequences of operations *)

Notation ra_step := (alloc_step rangeAllocator_CIDRAllocator).
Notation ra_run := (alloc_run rangeAllocator_CIDRAllocator).

(** [op] releases no network at index [idx] that meets [a/m]. *)
Definition spares (K : Kube) (idx : nat) (f : family) (a m : Z) (op : alloc_op) : Prop :=
  match op with
  | OpRelease (Some node) =>
      ∀ cidr n, PodCIDRs node !! idx = Some cidr → ParseCIDRSloppy K cidr = inr n →
      ∃ f' b m', n = mk_net f' b m' ∧ canon f' b m' ∧ (f' = f → ¬ overlap f a m b m')
  | _ => True
  end.

Lemma ra_run_evolves K ls ops r : evolves ls r (ra_run K ops r).
Proof.
  apply alloc_run_steps; [exact _|]. apply Forall_forall. intros op _.
  destruct op; [apply AllocateOrOccupyCIDR_steps|apply ReleaseCIDR_steps].
Qed.

(** ** A mark survives what spares it *)

Section survival.
Context (K : Kube) (HK : KubeLaws K) (ls : places) (idx : nat) (f : family) (c i : Z) (s0 : CidrSet).
Context (Hl : ls !! idx = Some (f, c)) (Hi : 0 ≤ i < maxCIDRs s0).

Definition marked (r : rangeAllocator) : Prop :=
  ra_ok ls r ∧ ∃ s, cidrSets r !! idx = Some s ∧ config s = config s0 ∧ Z.testbit (used s) i = true.

(** Steps that keep the mark. *)
Definition holds (r r' : rangeAllocator) : Prop := marked r → marked r'.

#[local] Instance holds_preorder : PreOrder holds.
Proof. split; [intros r H; exact H|]. intros r1 r2 r3 H12 H23 H1. exact (H23 (H12 H1)). Qed.

Lemma on_set_holds_other {A} k (op : CidrSet → outcome A * CidrSet) :
  set_op_safe op → k ≠ idx → gsteps holds (on_set k op).
Proof.
  intros Hop Hne r (Hr & s & Es & Hc & Hb).
  split; [by apply (on_set_steps ls k op Hop r)|]. unfold on_set.
  destruct (cidrSets r !! k) as [sk|]; [|by exists s]. destruct (op sk) as [o sk']. cbn.
  exists s. split_and!; [|done|done]. by rewrite list_lookup_insert_ne.
Qed.

Lemma on_set_holds_same {A} (op : CidrSet → outcome A * CidrSet) :
  set_op_safe op →
  (∀ s, wf f c s → config s = config s0 → Z.testbit (used s) i = true →
        Z.testbit (used (op s).2) i = true) →
  gsteps holds (on_set idx op).
Proof.
  intros Hop Hbit r (Hr & s & Es & Hc & Hb).
  split; [by apply (on_set_steps ls idx op Hop r)|]. unfold on_set. rewrite Es.
  pose proof (ra_wf _ _ _ _ _ _ Hr Hl Es) as Hw.
  destruct (Hop f c s Hw) as [_ Hc']. specialize (Hbit s Hw Hc Hb). destruct (op s) as [o s'].
  cbn in *. exists s'. split_and!; [|congruence|done].
  apply list_lookup_insert_eq. by eapply lookup_lt_Some.
Qed.

Lemma ReleaseCIDR_holds node :
  spares K idx f (block_base f c s0 i) (nodeMaskSize s0) (OpRelease node) →
  gsteps holds (range_ReleaseCIDR K node).
Proof.
  intros Hsp. unfold range_ReleaseCIDR. destruct node as [node|]; [|by apply gsteps_ret, holds_preorder].
  apply gsteps_foreachi_lookup; [apply holds_preorder|]. intros k cidr Hk. cbn [Nat.add].
  destruct (ParseCIDRSloppy K cidr) as [e|n] eqn:En; [by apply gsteps_fail, holds_preorder|].
  pose proof holds_preorder. go_steps. destruct (decide (k = idx)) as [->|Hne].
  2:{ by apply on_set_holds_other; [apply Release_safe|]. }
  apply on_set_holds_same; [apply Release_safe|]. intros s Hs Hc Hb.
  destruct (Hsp cidr n Hk En) as (f' & b & m' & -> & Hcan & Hov).
  apply (Release_keeps f c); [done..| |intros ->|done].
  - by rewrite (config_maxCIDRs _ _ Hc).
  - unfold meets. rewrite (block_base_config f c s0 s i Hc), (config_nodeMaskSize _ _ Hc). by apply Hov.
Qed.

Lemma Allocate_holds node : gsteps holds (range_AllocateOrOccupyCIDR K node).
Proof.
  intros r (Hr & s & Es & Hc & Hb).
  destruct (AllocateOrOccupyCIDR_steps K ls node r Hr) as (Hr' & Hcfg & _).
  pose proof (AllocateOrOccupyCIDR_keeps K ls r node HK Hr) as Hk.
  split; [done|]. destruct (Forall2_lookup_l _ _ _ _ _ Hk Es) as (s' & Es' & Hbits).
  exists s'. split_and!; [done| |by apply Hbits].
  apply (f_equal (λ l, l !! idx)) in Hcfg. rewrite !list_lookup_fmap, Es, Es' in Hcfg. cbn in Hcfg.
  congruence.
Qed.

Lemma ra_run_holds ops :
  Forall (spares K idx f (block_base f c s0 i) (nodeMaskSize s0)) ops →
  ∀ r, holds r (ra_run K ops r).
Proof.
  induction 1 as [|op ops Hop _ IH]; intros r; [apply holds_preorder|].
  cbn [ra_run foldl]. transitivity ((ra_step K op r).2); [|apply IH].
  destruct op as [n|n]; [apply Allocate_holds|by apply ReleaseCIDR_holds].
Qed.
End survival.

(** ** Assignments *)

Definition quiet (r r' : rangeAllocator) : Prop := actions r' = actions r.
#[export] Instance quiet_preorder : PreOrder quiet.
Proof. split; [by intros r|]. unfold quiet. intros r1 r2 r3. congruence. Qed.

Lemma occupyCIDRs_quiet K n : gsteps quiet (occupyCIDRs K n).
Proof.
  unfold occupyCIDRs. go_steps. intros r. unfold on_set, quiet. case_match; [|done].
  by destruct (Occupy _ _).
Qed.

Lemma app_cons_neq {A} (x : A) l l' : x :: l ++ l' ≠ l'.
Proof. intros E%(f_equal length). cbn in E. rewrite length_app in E. lia. Qed.

(** An assignment took its networks from the sets. *)
Lemma assigned_took K ls r node strs :
  KubeLaws K → ra_ok ls r →
  assigned_in r (range_AllocateOrOccupyCIDR K (Some node) r).2 strs →
  ∃ nets, took_all ls (cidrSets r) nets (cidrSets (range_AllocateOrOccupyCIDR K (Some node) r).2) ∧
    strs = ipnetToStringList (map Some nets).
Proof.
  intros HK Hr (name & l & Ha). cbn [trace rangeAllocator_traced] in Ha. destruct (PodCIDRs node) eqn:Hnil.
  2:{ unfold range_AllocateOrOccupyCIDR in Ha. rewrite Hnil in Ha. cbn in Ha.
      rewrite (occupyCIDRs_quiet K node r) in Ha. symmetry in Ha. by apply app_cons_neq in Ha. }
  destruct (allocate_reserves K ls r node Hr Hnil)
    as [(nets & sets' & Ht & E)|(ls1 & l1 & ls2 & sets1 & s & sets2 & nets & sets1' & _ & _ & _ & _ & E)];
    rewrite E in *; [|by cbn in Ha].
  exists nets. pose proof (ok_sets _ _ Hr) as Hw.
  destruct (lister_Get K (actions r) (Name node)) as [e|node'] eqn:El.
  { by rewrite (update_lister_error K nets sets' _ _ _ e) in Ha. }
  destruct (decide (PodCIDRs node' = ipnetToStringList (map Some nets))) as [Ep|Ep].
  { by rewrite (update_already K nets sets' _ _ _ node') in Ha. }
  destruct (decide (PodCIDRs node' = [])) as [En|En].
  - destruct nets as [|net nets]; [by rewrite En in Ep|].
    destruct (update_patches K ls (cidrSets r) (net :: nets) sets' (clusterCIDRs r) (actions r) (Name node)
                Hw Ht node' El En) as [(l' & _ & _ & _ & E')|(l' & e & sets'' & _ & _ & _ & _ & E')]; try done;
      rewrite E' in *; [|done].
    cbn [snd actions cidrSets] in *. split; [done|]. unfold accepted_patch in Ha. congruence.
  - destruct (update_other K ls (cidrSets r) nets sets' (clusterCIDRs r) (actions r) (Name node)
                Hw Ht node' El Ep En) as (sets'' & _ & _ & E'). by rewrite E' in Ha.
Qed.

Lemma took_all_lookup ls sets nets sets' idx net :
  took_all ls sets nets sets' → nets !! idx = Some net →
  ∃ f c s s' i, ls !! idx = Some (f, c) ∧ sets !! idx = Some s ∧ sets' !! idx = Some s' ∧
    allocated f c s s' i ∧ net = mk_net f (block_base f c s i) (nodeMaskSize s).
Proof.
  intros Ht. revert idx. induction Ht as [|f c s i s' ls sets nets sets' Ha _ IH]; intros idx Hn; [done|].
  destruct idx as [|idx]; cbn in *; [|by apply IH]. injection Hn as <-.
  exists f, c, s, s', i. done.
Qed.

Lemma took_all_at ls sets nets sets' idx s :
  took_all ls sets nets sets' → sets !! idx = Some s →
  ∃ f c s' i, ls !! idx = Some (f, c) ∧ sets' !! idx = Some s' ∧ allocated f c s s' i.
Proof.
  intros Ht. revert idx. induction Ht as [|f c s1 i s1' ls sets nets sets' Ha _ IH]; intros idx Hn; [done|].
  destruct idx as [|idx]; cbn in *; [|by apply IH]. injection Hn as <-.
  by exists f, c, s1', i.
Qed.

Lemma took_all_not_full ls sets nets sets' idx s :
  took_all ls sets nets sets' → sets !! idx = Some s → ¬ full s.
Proof.
  intros Ht Hs Hfull. destruct (took_all_at _ _ _ _ _ _ Ht Hs) as (f & c & s' & i & _ & _ & Ha).
  destruct (all_first _ _ _ _ _ Ha) as (Hi & Hb & _). by rewrite (Hfull i Hi) in Hb.
Qed.
