(* ===== verification/RangeAllocatorInit.v ===== *)
(** * Construction of the range allocator

    What [NewCIDRRangeAllocator] establishes: sets in order, the service ranges
    and the networks of the existing nodes marked. *)

From S2P Require Import Prelude GoNet CidrSet CidrSetGeometry CidrSetSpec CidrPool Kube CidrAllocator.
From S2P Require Import AllocatorParams RangeAllocator RangeAllocatorSpec.

Local Open Scope go_scope.

(** ** Parameters in order *)

Definition places_of (Ls : list layout) : places := map (λ L, (l_fam L, l_base L)) Ls.

(** The set of layout [L] as [NewCIDRSet] leaves it. *)
Definition set_at (L : layout) (s : CidrSet) : Prop :=
  wf (l_fam L) (l_base L) s ∧ clusterMaskSize s = l_cmask L ∧ nodeMaskSize s = l_nmask L.

Lemma make_sets_ok Ls :
  Forall layout_ok Ls →
  ∃ sets, make_sets (map l_cluster Ls) (map l_nmask Ls) = Ok sets ∧ Forall2 set_at Ls sets.
Proof.
  induction 1 as [|L Ls HL _ IH]; cbn; [by exists []|].
  destruct (layout_set L HL) as (s & -> & Hs). destruct IH as (sets & -> & Hf). cbn.
  exists (s :: sets). split; [done|]. by constructor.
Qed.

Lemma set_at_ok Ls sets acts :
  Forall2 set_at Ls sets → ra_ok (places_of Ls) (mkRangeAllocator (map l_cluster Ls) sets acts).
Proof.
  intros Hf. split; cbn.
  - induction Hf as [|L s Ls sets [Hw _] _ IH]; constructor; done.
  - induction Hf as [|L s Ls sets (Hw & Hcm & _) _ IH]; cbn; [done|]. rewrite IH. f_equal.
    unfold l_cluster. by rewrite (geom_cluster _ _ _ (wf_geom _ _ _ Hw)), Hcm.
Qed.

(** ** Marks made by a loop stay until its end *)

(** In order, and no mark lost. *)
Definition grows (ls : places) (r r' : rangeAllocator) : Prop := evolves ls r r' ∧ keeps r r'.

#[export] Instance grows_preorder ls : PreOrder (grows ls).
Proof.
  split; [intros r; split; reflexivity|]. intros r1 r2 r3 [E12 K12] [E23 K23].
  split; etransitivity; eassumption.
Qed.

Lemma Occupy_grows ls idx n : gsteps (grows ls) (on_set idx (λ s, Occupy s n)).
Proof.
  intros r. split; [apply on_set_steps, Occupy_safe|]. apply on_set_keeps. intros s j. apply Occupy_keeps.
Qed.

#[export] Hint Resolve Occupy_grows : go_steps.

Lemma occupyCIDRs_grows K ls n : gsteps (grows ls) (occupyCIDRs K n).
Proof. unfold occupyCIDRs. go_steps. Qed.

Lemma filterOutServiceRange_grows ls n : gsteps (grows ls) (filterOutServiceRange n).
Proof. unfold filterOutServiceRange. go_steps. Qed.

(** All networks of the set at [idx] that meet [b/m] are marked. *)
Definition covered (ls : places) (r : rangeAllocator) (idx : nat) (f : family) (b m : Z) : Prop :=
  ∃ c s, ls !! idx = Some (f, c) ∧ cidrSets r !! idx = Some s ∧
    ∀ i, 0 ≤ i < maxCIDRs s → meets f c s b m i → Z.testbit (used s) i = true.

Lemma evolves_lookup ls r r' idx s :
  ra_ok ls r → evolves ls r r' → cidrSets r !! idx = Some s →
  ∃ s', cidrSets r' !! idx = Some s' ∧ config s' = config s.
Proof.
  intros Hr He Es. destruct (He Hr) as (_ & Hcfg & _). apply (f_equal (λ l, l !! idx)) in Hcfg.
  rewrite !list_lookup_fmap, Es in Hcfg. destruct (cidrSets r' !! idx) as [s'|]; [|done].
  exists s'. split; [done|]. by apply (inj Some).
Qed.

Lemma covered_grows ls r r' idx f b m :
  ra_ok ls r → grows ls r r' → covered ls r idx f b m → covered ls r' idx f b m.
Proof.
  intros Hr [He Hk] (c & s & El & Es & Hm).
  destruct (Forall2_lookup_l _ _ _ _ _ Hk Es) as (s' & Es' & Hbits).
  destruct (evolves_lookup ls r r' idx s Hr He Es) as (s1 & E1 & Hcfg). rewrite Es' in E1. injection E1 as <-.
  exists c, s'. split_and!; [done..|]. intros i Hi Hmeet.
  apply Hbits, Hm; [by rewrite <-(config_maxCIDRs _ _ Hcfg)|].
  unfold meets in *. by rewrite (block_base_config f c s s' i Hcfg), (config_nodeMaskSize _ _ Hcfg) in Hmeet.
Qed.

(** A successful [Occupy] of a canonical network covers it. *)
Lemma on_set_covers ls r idx f b m r' :
  ra_ok ls r → canon f b m →
  on_set idx (λ s, Occupy s (Some (mk_net f b m))) r = (Ok tt, r') →
  covered ls r' idx f b m.
Proof.
  intros Hr Hcan E. unfold on_set in E. destruct (cidrSets r !! idx) as [s|] eqn:Es; [|done].
  destruct (Forall2_lookup_r _ _ _ _ _ (ok_sets _ _ Hr) Es) as ([f' c] & El & Hw). cbn in Hw.
  destruct (decide (f = f')) as [<-|Hf].
  2:{ unfold Occupy in E. rewrite (indices_other_family f' f c s b m) in E; [done|apply Hw|congruence|done]. }
  destruct (decide (overlap f c (clusterMaskSize s) b m)) as [Ho|Ho].
  2:{ by rewrite (Occupy_outside f c) in E. }
  destruct (Occupy_inside f c s b m Hw Hcan Ho) as (s' & Eo & [_ Hcfg _ Hu]).
  rewrite Eo in E. injection E as <-. exists c, s'. split_and!; [done| |].
  - cbn. apply list_lookup_insert_eq. by eapply lookup_lt_Some.
  - intros i Hi Hmeet. apply Hu; [by rewrite <-(config_maxCIDRs _ _ Hcfg)|]. right.
    unfold meets in *. by rewrite (block_base_config f c s s' i Hcfg), (config_nodeMaskSize _ _ Hcfg) in Hmeet.
Qed.

Lemma on_set_length {A} idx (op : CidrSet → outcome A * CidrSet) r :
  (length (cidrSets r) ≤ idx)%nat → on_set idx op r = (Panic, r).
Proof. intros H. unfold on_set. by rewrite lookup_ge_None_2. Qed.

(** [occupyCIDRs] that succeeds covers every network of the node. *)
Lemma occupyCIDRs_covers K ls r node r' idx cidr :
  ra_ok ls r → occupyCIDRs K node r = (Ok tt, r') → PodCIDRs node !! idx = Some cidr →
  ∃ n, ParseCIDRSloppy K cidr = inr n ∧
    ∀ f b m, n = mk_net f b m → canon f b m → covered ls r' idx f b m.
Proof.
  intros Hr E Hk. unfold occupyCIDRs in E.
  apply (gforeachi_reaches (grows ls)) with (k := idx) (x := cidr) in E as (r1 & r2 & H1 & E & H2);
    [|go_steps|done].
  cbn [Nat.add] in E. destruct (ParseCIDRSloppy K cidr) as [e|n]; [done|].
  exists n. split; [done|]. intros f b m -> Hcan. unfold gbind in E. cbn [gget] in E.
  destruct (length (cidrSets r1) <=? idx)%nat; [done|]. unfold gcatch in E.
  destruct (on_set idx _ r1) as [[[]|e|] r3] eqn:Eo; [|done..]. injection E as ->.
  destruct (proj1 H1 Hr) as (Hr1 & _). pose proof (Occupy_grows ls idx (Some (mk_net f b m)) r1) as Hg.
  rewrite Eo in Hg. destruct (proj1 Hg Hr1) as (Hr2 & _).
  apply (covered_grows ls r2); [done..|]. by apply (on_set_covers ls r1).
Qed.

(** The loop of [filterOutServiceRange] runs to its end: a failing [Occupy] is
    only logged. *)
Lemma filterOutServiceRange_ends ls r n :
  ra_ok ls r → sized n → ∃ r', filterOutServiceRange n r = (Ok tt, r').
Proof.
  intros Hr Hn. assert (gok (ra_ok ls) (filterOutServiceRange n)) as Hok.
  { unfold filterOutServiceRange. apply gok_get. intros r0 Hr0. apply gok_foreachi. intros k x Hk%lookup_lt_Some.
    rewrite (ok_cluster _ _ Hr0), length_fmap, (ra_length ls) in Hk by done. cbn [Nat.add].
    case_match; [apply gok_ret|]. apply gok_catch; [|intros; apply gok_ret].
    by apply on_set_ok; [|apply Occupy_safe|apply Occupy_total]. }
  destruct (Hok r Hr) as [Hp _].
  assert (∀ e, (filterOutServiceRange n r).1 ≠ Err e) as He.
  { intros e. unfold filterOutServiceRange, gbind. cbn [gget]. generalize (clusterCIDRs r). intros l.
    generalize 0%nat, r. induction l as [|x l IH]; intros i r0; cbn; [done|]. unfold gbind.
    destruct (negb _ && negb _); [apply IH|]. unfold gcatch. destruct (on_set i _ r0) as [[[]| |] r2]; [apply IH..|done]. }
  destruct (filterOutServiceRange n r) as [[[]|e|] r'];
    [by eexists|by destruct (He e)|done].
Qed.

(** [filterOutServiceRange] covers the service range in every set it meets. *)
Lemma filterOutServiceRange_covers ls r idx f c s b m :
  ra_ok ls r → canon f b m → ls !! idx = Some (f, c) → cidrSets r !! idx = Some s →
  overlap f c (clusterMaskSize s) b m →
  covered ls (filterOutServiceRange (mk_net f b m) r).2 idx f b m.
Proof.
  intros Hr Hcan El Es Ho.
  assert (clusterCIDRs r !! idx = Some (clusterCIDR s)) as Ec
    by (by rewrite (ok_cluster _ _ Hr), list_lookup_fmap, Es).
  pose proof (ra_wf _ _ _ _ _ _ Hr El Es) as Hw.
  destruct (filterOutServiceRange_ends ls r (mk_net f b m) Hr) as (r' & E).
  { apply sized_mk_net, Hcan. }
  rewrite E. unfold filterOutServiceRange, gbind in E. cbn [gget snd] in *.
  apply (gforeachi_reaches (grows ls)) with (k := idx) (x := clusterCIDR s) in E
    as (r1 & r2 & H1 & E & H2); [|go_steps|done].
  cbn [Nat.add] in E. destruct (proj1 H1 Hr) as (Hr1 & _).
  pose proof (range_test f c s (wf_geom _ _ _ Hw) b m Hcan) as Hrt.
  rewrite Hrt, bool_decide_false in E by (intros Hno; by apply Hno).
  destruct (evolves_lookup ls r r1 idx s Hr (proj1 H1) Es) as (s1 & Es1 & Hcfg).
  pose proof (ra_wf _ _ _ _ _ _ Hr1 El Es1) as Hw1.
  destruct (Occupy_inside f c s1 b m Hw1 Hcan) as (s2 & Eo2 & _).
  { by rewrite (config_clusterMaskSize _ _ Hcfg). }
  unfold gcatch in E. pose proof (Occupy_grows ls idx (Some (mk_net f b m)) r1) as Hg.
  assert (on_set idx (λ s, Occupy s (Some (mk_net f b m))) r1 = (Ok tt, r2)) as Eo.
  { revert E. unfold on_set. rewrite Es1, Eo2. done. }
  rewrite Eo in Hg. apply (covered_grows ls r2); [by apply (proj1 Hg)|done|].
  by apply (on_set_covers ls r1).
Qed.

(** ** [NewCIDRRangeAllocator] *)

Definition filter_service (c : option IPNet) : GoM rangeAllocator unit :=
  match c with Some cidr => filterOutServiceRange cidr | None => gret tt end.

Lemma filter_service_grows ls c : gsteps (grows ls) (filter_service c).
Proof. destruct c; [apply filterOutServiceRange_grows|by apply gsteps_ret, _]. Qed.

Lemma filter_service_ends ls c r :
  ra_ok ls r → (∀ n, c = Some n → sized n) →
  ∃ r', filter_service c r = (Ok tt, r') ∧ ra_ok ls r' ∧ grows ls r r'.
Proof.
  intros Hr Hc. pose proof (filter_service_grows ls c r) as Hg.
  assert (∃ r', filter_service c r = (Ok tt, r')) as [r' E].
  { destruct c as [n|]; [|by eexists]. by apply (filterOutServiceRange_ends ls); auto. }
  exists r'. rewrite E in Hg. split_and!; [done|by apply (proj1 Hg)|done].
Qed.

(** The loop over the nodes of the cluster. *)
Definition occupy_nodes (K : Kube) (items : list Node) : GoM rangeAllocator unit :=
  gforeach items (λ node, if (length (PodCIDRs node) =? 0)%nat then gret tt else occupyCIDRs K node).

Lemma occupy_nodes_grows K ls items : gsteps (grows ls) (occupy_nodes K items).
Proof. unfold occupy_nodes. pose proof occupyCIDRs_grows. go_steps. Qed.

Lemma occupy_nodes_ok K ls items : KubeLaws K → gok (ra_ok ls) (occupy_nodes K items).
Proof. intros HK. unfold occupy_nodes. pose proof (occupyCIDRs_ok K HK ls). go_ok. Qed.

Lemma occupy_nodes_covers K ls items r r' node idx cidr :
  ra_ok ls r → occupy_nodes K items r = (Ok tt, r') → node ∈ items → PodCIDRs node !! idx = Some cidr →
  ∃ n, ParseCIDRSloppy K cidr = inr n ∧
    ∀ f b m, n = mk_net f b m → canon f b m → covered ls r' idx f b m.
Proof.
  intros Hr E Hin Hk. unfold occupy_nodes in E.
  apply (gforeach_reaches (grows ls)) with (x := node) in E as (r1 & r2 & H1 & E & H2); [| |done].
  2:{ pose proof occupyCIDRs_grows. go_steps. }
  destruct (PodCIDRs node) as [|c0 cs] eqn:Ep; [done|]. cbn in E. rewrite <-Ep in Hk.
  destruct (proj1 H1 Hr) as (Hr1 & _).
  pose proof (occupyCIDRs_grows K ls node r1) as Hg. rewrite E in Hg.
  destruct (occupyCIDRs_covers K ls r1 node r2 idx cidr Hr1 E Hk) as (n & En & Hcov).
  exists n. split; [done|]. intros f b m Hn Hcan. apply (covered_grows ls r2); [by apply (proj1 Hg)|done|].
  by apply Hcov.
Qed.

(** Construction, step by step. *)
Lemma new_range_allocator K Ls p nodes :
  KubeLaws K → params_ok Ls p →
  ∃ sets r1 r2, Forall2 set_at Ls sets ∧
    filter_service (ServiceCIDR p) (mkRangeAllocator (map l_cluster Ls) sets []) = (Ok tt, r1) ∧
    filter_service (SecondaryServiceCIDR p) r1 = (Ok tt, r2) ∧
    ra_ok (places_of Ls) r1 ∧ ra_ok (places_of Ls) r2 ∧
    grows (places_of Ls) (mkRangeAllocator (map l_cluster Ls) sets []) r1 ∧ grows (places_of Ls) r1 r2 ∧
    NewCIDRRangeAllocator K p nodes =
      (let '(o, r3) := match nodes with None => gret tt | Some items => occupy_nodes K items end r2 in
       obind o (λ _, Ok r3)).
Proof.
  intros HK [Hcl Hm Hok Hsvc]. destruct (make_sets_ok Ls Hok) as (sets & Es & Hf).
  pose proof (set_at_ok Ls sets [] Hf) as Hr0.
  assert (∀ n, ServiceCIDR p = Some n ∨ SecondaryServiceCIDR p = Some n → sized n) as Hsized.
  { intros n Hn. destruct (Hsvc n Hn) as (f & b & m & -> & Hcan). apply sized_mk_net, Hcan. }
  destruct (filter_service_ends (places_of Ls) (ServiceCIDR p) _ Hr0) as (r1 & E1 & Hr1 & G1); [by eauto|].
  destruct (filter_service_ends (places_of Ls) (SecondaryServiceCIDR p) r1 Hr1) as (r2 & E2 & Hr2 & G2); [by eauto|].
  exists sets, r1, r2. split_and!; [done..|].
  unfold NewCIDRRangeAllocator. rewrite Hcl, Hm, Es. cbn [obind]. unfold gbind.
  fold filter_service. unfold filter_service in E1, E2. rewrite E1, E2. by destruct nodes.
Qed.
