(* ===== verification/RangeAllocatorTheorems.v ===== *)
(** * Theorems about the range allocator

    The main results on [pkg/nodeipam/ipam/range_allocator.go], each with an
    instance on a small cluster. *)

From S2P Require Import Prelude GoNet CidrSet CidrSetGeometry CidrSetSpec CidrPool Kube CidrAllocator.
From S2P Require Import RangeAllocator RangeAllocatorSpec RangeAllocatorRuns AllocatorParams RangeAllocatorInit.

Local Open Scope go_scope.

(** ** A small cluster *)

Definition demo_base : Z := 10 * 2 ^ 24.

(** 10.0.0.0/29 cut into two /30 networks. *)
Definition demo_layout : layout := mkLayout V4 demo_base 29 30.
Definition demo_net0 : IPNet := mk_net V4 demo_base 30.
Definition demo_net1 : IPNet := mk_net V4 (demo_base + 4) 30.

Lemma demo_canon0 : canon V4 demo_base 30.
Proof. by split; cbn. Qed.
Lemma demo_canon1 : canon V4 (demo_base + 4) 30.
Proof. by split; cbn. Qed.

Definition demo_node (name : string) (cidrs : list string) : Node :=
  mkNode name ∅ ∅ false (default "" (head cidrs)) cidrs "" [] [] None None.

(** The last networks the API server accepted for a node. *)
Fixpoint accepted_for (name : string) (past : list action) : list string :=
  match past with
  | [] => []
  | ActPatch n _ cidrs None :: past' => if decide (n = name) then cidrs else accepted_for name past'
  | _ :: past' => accepted_for name past'
  end.

Definition demo_parse (s : string) : error + IPNet :=
  if decide (s = "10.0.0.0/30") then inr demo_net0
  else if decide (s = "10.0.0.4/30") then inr demo_net1
  else inl (ErrNew "invalid CIDR address").

(** An API server that accepts what [accept] lets through; the informer cache is
    up to date with what was accepted. *)
Definition demo_kube (accept : list action → string → bool) : Kube := {|
  ParseCIDRSloppy := demo_parse;
  ParseCIDRs l := match l with [] => inr [] | _ => inl (ErrNew "invalid CIDR address") end;
  IsNotFound e := bool_decide (errors_As e = Some "NotFound");
  IsServerTimeout e := bool_decide (errors_As e = Some "ServerTimeout");
  MatchTaint t u := bool_decide (taint_key t = taint_key u ∧ taint_effect t = taint_effect u);
  lister_Get past name := inr (demo_node name (accepted_for name past));
  api_Patch past name _ _ := if accept past name then None else Some (ErrAPI "ServerTimeout") |}.

Definition demoK : Kube := demo_kube (λ _ _, true).

Lemma demo_kube_laws accept : KubeLaws (demo_kube accept).
Proof.
  split; cbn.
  - intros e ->. done.
  - intros e ->. done.
  - intros t u. apply bool_decide_eq_true.
  - intros s n. unfold demo_parse. repeat case_decide; intros; simplify_eq; by left.
Qed.

Definition demo_params : CIDRAllocatorParams := mkParams [mk_net V4 demo_base 29] None None [30].

Definition demo_ra : rangeAllocator :=
  match NewCIDRRangeAllocator demoK demo_params None with
  | Ok r => r
  | _ => mkRangeAllocator [] [] []
  end.

Lemma demo_layout_ok : layout_ok demo_layout.
Proof. by split; cbn. Qed.

Lemma demo_ra_ok : ra_ok [(V4, demo_base)] demo_ra.
Proof.
  destruct (make_sets_ok [demo_layout]) as (sets & E & Hf); [by constructor; [apply demo_layout_ok|]|].
  assert (demo_ra = mkRangeAllocator (map l_cluster [demo_layout]) sets []) as ->.
  { unfold demo_ra, NewCIDRRangeAllocator.
    change (make_sets (ClusterCIDRs demo_params) (NodeCIDRMaskSizes demo_params))
      with (make_sets (map l_cluster [demo_layout]) (map l_nmask [demo_layout])).
    rewrite E. done. }
  by apply (set_at_ok [demo_layout]).
Qed.

(** ** Main theorems *)

(** C8. Two nodes never share a network: when a run of the allocator assigns
    networks to a node, and later, after any allocations and releases, assigns
    networks to a node again, then the two networks from one cluster range share
    no address, provided no release in between named a network that meets the
    first.  The answers of the API server and of the informer cache are
    arbitrary. *)
Theorem range_nodes_never_share K ls r n1 mid n2 strs1 strs2 :
  KubeLaws K → ra_ok ls r →
  let r1 := (range_AllocateOrOccupyCIDR K (Some n1) r).2 in
  let r2 := ra_run K mid r1 in
  let r3 := (range_AllocateOrOccupyCIDR K (Some n2) r2).2 in
  assigned_in r r1 strs1 → assigned_in r2 r3 strs2 →
  ∃ nets1 nets2,
    strs1 = ipnetToStringList (map Some nets1) ∧ strs2 = ipnetToStringList (map Some nets2) ∧
    ∀ idx x y, nets1 !! idx = Some x → nets2 !! idx = Some y →
      ∃ f a b m, x = mk_net f a m ∧ y = mk_net f b m ∧ canon f a m ∧ canon f b m ∧
        (Forall (spares K idx f a m) mid → ¬ overlap f a m b m).
Proof.
  intros HK Hr r1 r2 r3 H1 H3.
  destruct (assigned_took K ls r n1 strs1 HK Hr H1) as (nets1 & Ht1 & ->). fold r1 in Ht1.
  assert (ra_ok ls r1) as Hr1 by (by apply (AllocateOrOccupyCIDR_steps K ls (Some n1) r)).
  pose proof (ra_run_evolves K ls mid r1 : evolves ls r1 r2) as He.
  destruct (He Hr1) as (Hr2 & _).
  destruct (assigned_took K ls r2 n2 strs2 HK Hr2 H3) as (nets2 & Ht2 & ->). fold r3 in Ht2.
  exists nets1, nets2. split_and!; [done..|]. intros idx x y Hx Hy.
  destruct (took_all_lookup _ _ _ _ _ _ Ht1 Hx) as (f & c & s & s' & i & Hl & Es & Es' & Ha & ->).
  destruct (took_all_lookup _ _ _ _ _ _ Ht2 Hy) as (f' & c' & t & t' & j & Hl' & Et & Et' & Ha' & ->).
  rewrite Hl in Hl'. injection Hl' as <- <-.
  destruct (evolves_lookup ls r1 r2 idx s' Hr1 He Es') as (t0 & Et0 & Hc). rewrite Et in Et0. injection Et0 as <-.
  pose proof (all_config _ _ _ _ _ Ha) as Hcs. assert (config t = config s) as Hct by congruence.
  pose proof (ra_wf _ _ _ _ _ _ Hr Hl Es) as Hw.
  destruct (all_first _ _ _ _ _ Ha) as (Hi & _). destruct (all_first _ _ _ _ _ Ha') as (Hj & Hfree & _).
  rewrite (config_maxCIDRs _ _ Hct) in Hj.
  rewrite (block_base_config f c s t j Hct), (config_nodeMaskSize _ _ Hct).
  exists f, (block_base f c s i), (block_base f c s j), (nodeMaskSize s).
  split_and!; [done..|by apply block_canon; [apply Hw|]|by apply block_canon; [apply Hw|]|].
  intros Hsp. apply blocks_disjoint; [apply Hw|]. intros <-.
  destruct (ra_run_holds K HK ls idx f c i s Hl Hi mid Hsp r1) as (_ & t1 & Et1 & _ & Hb).
  { split; [done|]. exists s'. split_and!; [done..|]. apply (all_used _ _ _ _ _ Ha). by left. }
  fold r2 in Et1. rewrite Et in Et1. injection Et1 as <-. congruence.
Qed.

Lemma range_nodes_never_share_witness :
  ∃ nets1 nets2, ["10.0.0.0/30"] = ipnetToStringList (map Some nets1) ∧
    ["10.0.0.4/30"] = ipnetToStringList (map Some nets2) ∧
    ∀ idx x y, nets1 !! idx = Some x → nets2 !! idx = Some y →
      ∃ f a b m, x = mk_net f a m ∧ y = mk_net f b m ∧ ¬ overlap f a m b m.
Proof.
  destruct (range_nodes_never_share demoK [(V4, demo_base)] demo_ra (demo_node "a" []) [OpAllocate None]
              (demo_node "b" []) ["10.0.0.0/30"] ["10.0.0.4/30"] (demo_kube_laws _) demo_ra_ok)
    as (nets1 & nets2 & E1 & E2 & H).
  - exists "a", [ActGet "a"]. vm_compute. reflexivity.
  - exists "b", [ActGet "b"]. vm_compute. reflexivity.
  - exists nets1, nets2. split; [exact E1|]. split; [exact E2|]. intros idx x y Hx Hy.
    destruct (H idx x y Hx Hy) as (f & a & b & m & Ex & Ey & _ & _ & Hd).
    exists f, a, b, m. split; [exact Ex|]. split; [exact Ey|]. apply Hd. repeat constructor.
Defined.

(** C10. All outcomes of an allocation for a node without networks.  When a range is
    full, the networks taken from the ranges before it stay marked, an event is
    recorded and nothing is sent.  Otherwise the first free network of each range is
    taken and the cache asked for the node.  When the cache fails, its error is
    returned and the networks stay marked, for no node.  When the node has exactly
    these networks by now, they stay marked; when it has others, every mark is as
    before.  When it still has none, the networks are offered to the API server at
    most three times, each time as the node's whole list: when a try is accepted
    they stay marked, and when all three are refused, whatever the refusals were,
    server time-outs included, an event is recorded, the error is returned and
    every mark is as before. *)
Theorem range_allocate_outcomes K ls r node :
  KubeLaws K → ra_ok ls r → ls ≠ [] → PodCIDRs node = [] →
  let ends o sets acts :=
    range_AllocateOrOccupyCIDR K (Some node) r = (o, mkRangeAllocator (clusterCIDRs r) sets (acts ++ actions r)) in
  (∃ ls1 l ls2 sets1 s sets2 nets sets1', ls = ls1 ++ l :: ls2 ∧ cidrSets r = sets1 ++ s :: sets2 ∧
     took_all ls1 sets1 nets sets1' ∧ full s ∧
     ends (Err (ErrNoCIDRAt (length sets1))) (sets1' ++ s :: sets2) [ActEvent (Name node) "CIDRNotAvailable"]) ∨
  (∃ nets sets', took_all ls (cidrSets r) nets sets' ∧
     let strs := ipnetToStringList (map Some nets) in
     match lister_Get K (actions r) (Name node) with
     | inl e => ends (Err e) sets' [ActGet (Name node)]
     | inr node' =>
         if decide (PodCIDRs node' = strs) then ends (Ok tt) sets' [ActGet (Name node)]
         else if decide (PodCIDRs node' = []) then
           (∃ l, Forall (refused_patch (Name node') strs) l ∧ (length l < 3)%nat ∧
              ends (Ok tt) sets' (accepted_patch (Name node') strs :: l ++ [ActGet (Name node)])) ∨
           (∃ l e sets'', Forall (refused_patch (Name node') strs) l ∧ length l = 3%nat ∧
              Forall2 same_use (cidrSets r) sets'' ∧
              ends (Err (ErrPatch e)) sets''
                (ActEvent (Name node') "CIDRAssignmentFailed" :: l ++ [ActGet (Name node)]))
         else ∃ sets'', Forall2 same_use (cidrSets r) sets'' ∧ ends (Ok tt) sets'' [ActGet (Name node)]
     end).
Proof.
  intros HK Hr Hls Hnil ends. pose proof (ok_sets _ _ Hr) as Hw. subst ends. cbn beta.
  destruct (allocate_reserves K ls r node Hr Hnil)
    as [(nets & sets' & Ht & ->)|(ls1 & l & ls2 & sets1 & s & sets2 & nets & sets1' & ? & ? & ? & ? & ->)].
  2:{ left. by exists ls1, l, ls2, sets1, s, sets2, nets, sets1'. }
  right. exists nets, sets'. split; [done|]. cbn zeta. assert (nets ≠ []) as Hne.
  { destruct (took_all_length _ _ _ _ Ht) as (_ & Hlen & _). by destruct nets, ls. }
  destruct (lister_Get K (actions r) (Name node)) as [e|node'] eqn:El.
  { exact (update_lister_error K nets sets' _ _ _ e El). }
  destruct (decide (PodCIDRs node' = ipnetToStringList (map Some nets))) as [Ep|Ep].
  { exact (update_already K nets sets' _ _ _ node' El Ep). }
  destruct (decide (PodCIDRs node' = [])) as [En|En].
  - destruct (update_patches K ls (cidrSets r) nets sets' (clusterCIDRs r) (actions r) (Name node)
                Hw Ht node' El En Hne HK) as [(l & ? & ? & _ & ->)|(l & e & sets'' & ? & ? & _ & ? & ->)].
    + left. exists l. cbn [app]. by rewrite <-app_assoc.
    + right. exists l, e, sets''. cbn [app]. by rewrite <-app_assoc.
  - destruct (update_other K ls (cidrSets r) nets sets' (clusterCIDRs r) (actions r) (Name node)
                Hw Ht node' El Ep En) as (sets'' & _ & Hu & ->). by exists sets''.
Qed.

(** The demo cluster with an API server that times out twice for node [a]. *)
Definition slow_kube : Kube := demo_kube (λ past _, 3 <=? length past)%nat.

Lemma demo_ra_room : Forall (λ s, ¬ full s) (cidrSets demo_ra).
Proof.
  assert (∃ s, cidrSets demo_ra = [s] ∧ used s = 0 ∧ maxCIDRs s = 2) as (s & -> & Hu & Hm)
    by (eexists; vm_compute; done).
  constructor; [|constructor]. intros Hfull. specialize (Hfull 0). rewrite Hu, Hm in Hfull.
  rewrite Z.bits_0 in Hfull. assert (false = true); [|done]. apply Hfull. lia.
Qed.

Lemma range_allocate_outcomes_witness :
  ∃ nets sets', took_all [(V4, demo_base)] (cidrSets demo_ra) nets sets' ∧
    ((range_AllocateOrOccupyCIDR slow_kube (Some (demo_node "a" [])) demo_ra).1 = Ok tt ∨
     ∃ sets'', Forall2 same_use (cidrSets demo_ra) sets'').
Proof.
  destruct (range_allocate_outcomes slow_kube [(V4, demo_base)] demo_ra
              (demo_node "a" []) (demo_kube_laws _) demo_ra_ok)
    as [(ls1 & l & ls2 & sets1 & s & sets2 & nets & sets1' & _ & Es & _ & Hfull & _)|(nets & sets' & Ht & H)].
  - discriminate.
  - reflexivity.
  - exfalso. pose proof demo_ra_room as Hroom. rewrite Es, Forall_app, Forall_cons in Hroom.
    by destruct Hroom as (_ & Hno & _).
  - exists nets, sets'. split; [exact Ht|].
    destruct (lister_Get slow_kube (actions demo_ra) (Name (demo_node "a" []))) as [e|node'] eqn:El; [discriminate El|].
    injection El as <-. cbn [PodCIDRs demo_node] in H.
    destruct (decide ([] = ipnetToStringList (map Some nets))) as [_|_]; [left; rewrite H; reflexivity|].
    destruct (decide (@nil string = [])) as [_|Hn]; [|by destruct Hn].
    destruct H as [(l & _ & _ & E)|(l & e & sets'' & _ & _ & H & _)].
    + left. rewrite E. reflexivity.
    + right. exists sets''. exact H.
Defined.

(** C11. A worker's turn is total: whatever the queue delivers and the cluster
    answers, [processNextNodeWorkItem] neither panics nor fails and leaves the
    allocator in order with the same configuration.  A key whose sync succeeded
    is forgotten and done; a key whose sync failed is put back with a delay, done,
    and the error reported. *)
Theorem range_worker_total K ls r item :
  KubeLaws K → ls ≠ [] → ra_ok ls r →
  ∃ r', processNextNodeWorkItem K item r = (Ok (bool_decide (item ≠ None)), r') ∧
    ra_ok ls r' ∧ config <$> cidrSets r' = config <$> cidrSets r ∧
    ∀ key, item = Some (QKey key) →
      match syncNode K key r with
      | (Ok _, r1) => cidrSets r' = cidrSets r1 ∧
          actions r' = ActQueueDone key :: ActQueueForget key :: actions r1
      | (Err e, r1) => cidrSets r' = cidrSets r1 ∧
          actions r' = ActHandleError (ErrSync key e)
                         :: ActQueueDone key :: ActQueueAddRateLimited key :: actions r1
      | (Panic, _) => False
      end.
Proof.
  intros HK Hls Hr. pose proof (processNextNodeWorkItem_steps K ls item r Hr) as (Hr' & Hcfg & _).
  assert (∀ key, (syncNode K key r).1 ≠ Panic) as Hnp by (intros key; by apply (syncNode_ok K HK ls key)).
  exists (processNextNodeWorkItem K item r).2. split_and!; [|done|done|].
  - destruct item as [[key|dump]|]; [|done..]. cbn. unfold gcatch, gbind. specialize (Hnp key).
    by destruct (syncNode K key r) as [[[]|e|] r1].
  - intros key ->. unfold processNextNodeWorkItem, gcatch, gbind. specialize (Hnp key).
    by destruct (syncNode K key r) as [[[]|e|] r1].
Qed.

Lemma range_worker_total_witness :
  ∃ r', processNextNodeWorkItem demoK (Some (QKey "a")) demo_ra = (Ok true, r') ∧
    ra_ok [(V4, demo_base)] r'.
Proof.
  destruct (range_worker_total demoK [(V4, demo_base)] demo_ra (Some (QKey "a")) (demo_kube_laws _))
    as (r' & E & Hr' & _).
  - discriminate.
  - exact demo_ra_ok.
  - exists r'. split; [exact E|exact Hr'].
Defined.

(** [ReleaseCIDR] of a node whose networks lie in the cluster ranges succeeds
    and clears, in the set of each network's index, exactly the marks of the node
    networks that meet it; the other sets are untouched and nothing is sent to
    the API server. *)
Theorem range_release_exact K ls r node :
  ra_ok ls r → (∀ idx cidr, PodCIDRs node !! idx = Some cidr → releasable K ls r idx cidr) →
  ∃ r', range_ReleaseCIDR K (Some node) r = (Ok tt, r') ∧ ra_ok ls r' ∧ actions r' = actions r ∧
    ∀ idx, released_at K ls r r' idx (PodCIDRs node !! idx).
Proof.
  intros Hr Hl. destruct (release_loop_exact K ls node (PodCIDRs node) 0 r Hr Hl)
    as (r' & E & Hr' & Ha & _ & Hat). by exists r'.
Qed.

Lemma demo_ra_set :
  ∃ s, cidrSets demo_ra !! 0%nat = Some s ∧ clusterMaskSize s = 29.
Proof. eexists. split; [vm_compute; reflexivity|reflexivity]. Qed.

Lemma demo_releasable idx cidr :
  ["10.0.0.4/30"] !! idx = Some cidr → releasable demoK [(V4, demo_base)] demo_ra idx cidr.
Proof.
  destruct idx as [|idx]; [|done]. intros [= <-]. destruct demo_ra_set as (s & Es & Hm).
  exists V4, demo_base, s, (demo_base + 4), 30. split_and!; [done..| |].
  - by split; cbn.
  - rewrite Hm. exists (demo_base + 4). unfold in_net, demo_base. cbn [width]. lia.
Qed.

Lemma range_release_exact_witness :
  ∃ r', range_ReleaseCIDR demoK (Some (demo_node "b" ["10.0.0.4/30"])) demo_ra = (Ok tt, r') ∧
    released_at demoK [(V4, demo_base)] demo_ra r' 0 (Some "10.0.0.4/30").
Proof.
  destruct (range_release_exact demoK [(V4, demo_base)] demo_ra (demo_node "b" ["10.0.0.4/30"]) demo_ra_ok)
    as (r' & E & _ & _ & H).
  - exact demo_releasable.
  - exists r'. split; [exact E|exact (H 0%nat)].
Defined.

(** C12. Construction: with cluster ranges and mask sizes in order (the allocator's
    documented preconditions), [NewCIDRRangeAllocator] never panics; it fails only
    with the error of a listed node whose networks could not be occupied; and
    when it succeeds every set is in order, every node network that meets a
    service range is marked, and so is every one that meets a network an existing
    node holds. *)
Theorem range_constructor K Ls p nodes :
  KubeLaws K → params_ok Ls p →
  match NewCIDRRangeAllocator K p nodes with
  | Panic => False
  | Err e => ∃ node r0, node ∈ default [] nodes ∧ (occupyCIDRs K node r0).1 = Err e
  | Ok r =>
      ra_ok (places_of Ls) r ∧
      (∀ idx L f b m, Ls !! idx = Some L → l_fam L = f →
         ServiceCIDR p = Some (mk_net f b m) ∨ SecondaryServiceCIDR p = Some (mk_net f b m) →
         canon f b m → overlap f (l_base L) (l_cmask L) b m →
         covered (places_of Ls) r idx f b m) ∧
      (∀ node idx cidr, node ∈ default [] nodes → PodCIDRs node !! idx = Some cidr →
         ∃ n, ParseCIDRSloppy K cidr = inr n ∧
           ∀ f b m, n = mk_net f b m → canon f b m → covered (places_of Ls) r idx f b m)
  end.
Proof.
  intros HK Hp. destruct (new_range_allocator K Ls p nodes HK Hp)
    as (sets & r1 & r2 & Hf & E1 & E2 & Hr1 & Hr2 & G1 & G2 & ->).
  set (ls := places_of Ls) in *.
  assert (∃ o r3, match nodes with None => gret tt | Some items => occupy_nodes K items end r2 = (o, r3) ∧
            occupy_nodes K (default [] nodes) r2 = (o, r3)) as (o & r3 & -> & E3).
  { destruct nodes; cbn; [|by exists (Ok tt), r2]. do 2 eexists. split; apply surjective_pairing. }
  pose proof (occupy_nodes_grows K ls (default [] nodes) r2) as G3. rewrite E3 in G3. cbn in G3.
  pose proof (occupy_nodes_ok K ls (default [] nodes) HK r2 Hr2) as [Hnp Hr3]. rewrite E3 in Hnp, Hr3.
  destruct o as [[]|e|]; cbn; [|by apply gforeach_stops in E3 as (node & s1 & s2 & Hin & Eo);
    exists node, s1; destruct (length (PodCIDRs node) =? 0)%nat; [|rewrite Eo]|done].
  split_and!; [done| |intros node idx cidr; by apply (occupy_nodes_covers K ls _ r2)].
  intros idx L f b m HL Hfam Hsvc Hcan Ho.
  destruct (Forall2_lookup_l _ _ _ _ _ Hf HL) as (s & Es & Hs & Hcm & _). rewrite Hfam in Hs.
  assert (ls !! idx = Some (f, l_base L)) as El
    by (unfold ls, places_of; rewrite list_lookup_fmap, HL; cbn; by rewrite Hfam).
  apply (covered_grows ls r2); [done..|]. rewrite <-Hcm in Ho. destruct Hsvc as [Hsvc|Hsvc].
  - apply (covered_grows ls r1); [done..|]. rewrite Hsvc in E1. unfold filter_service in E1.
    pose proof (filterOutServiceRange_covers ls _ idx f _ s b m (set_at_ok Ls sets [] Hf) Hcan El Es Ho) as Hc.
    by rewrite E1 in Hc.
  - destruct (evolves_lookup ls _ r1 idx s (set_at_ok Ls sets [] Hf) (proj1 G1) Es) as (s1 & Es1 & Hcfg).
    rewrite Hsvc in E2. unfold filter_service in E2. rewrite <-(config_clusterMaskSize _ _ Hcfg) in Ho.
    pose proof (filterOutServiceRange_covers ls r1 idx f _ s1 b m Hr1 Hcan El Es1 Ho) as Hc.
    by rewrite E2 in Hc.
Qed.

(** The demo cluster with 10.0.0.0/30 as service range and node [a] on the other
    network. *)
Definition demo_params_svc : CIDRAllocatorParams :=
  mkParams [mk_net V4 demo_base 29] (Some demo_net0) None [30].

Lemma demo_params_svc_ok : params_ok [demo_layout] demo_params_svc.
Proof.
  split; [done..| |].
  - constructor; [apply demo_layout_ok|constructor].
  - intros n [[= <-]|[=]]. exists V4, demo_base, 30. split; [done|]. by split; cbn.
Qed.

Lemma demo_net0_meets : overlap V4 demo_base 29 demo_base 30.
Proof. exists demo_base. unfold in_net, demo_base. cbn [width]. lia. Qed.

Lemma range_constructor_witness :
  match NewCIDRRangeAllocator demoK demo_params_svc (Some [demo_node "a" ["10.0.0.4/30"]]) with
  | Panic => False
  | Err e => False
  | Ok r => ra_ok [(V4, demo_base)] r ∧
      covered [(V4, demo_base)] r 0 V4 demo_base 30 ∧
      covered [(V4, demo_base)] r 0 V4 (demo_base + 4) 30
  end.
Proof.
  pose proof (range_constructor demoK [demo_layout] demo_params_svc (Some [demo_node "a" ["10.0.0.4/30"]])
                (demo_kube_laws _) demo_params_svc_ok) as H.
  destruct (NewCIDRRangeAllocator demoK demo_params_svc (Some [demo_node "a" ["10.0.0.4/30"]]))
    as [r|e|] eqn:E.
  - destruct H as (Hr & Hsvc & Hnodes). split; [exact Hr|split].
    + apply (Hsvc 0%nat demo_layout V4 demo_base 30); [reflexivity|reflexivity|left; reflexivity| |].
      * exact demo_canon0.
      * exact demo_net0_meets.
    + destruct (Hnodes (demo_node "a" ["10.0.0.4/30"]) 0%nat "10.0.0.4/30") as (n & En & Hc);
        [left|reflexivity|].
      apply (Hc V4 (demo_base + 4) 30); [|exact demo_canon1].
      injection En as <-. reflexivity.
  - vm_compute in E. discriminate E.
  - exact H.
Defined.

(** C39. A range that runs out strands what was taken before it: when a node needs a
    network from each range and the one at index [k] is full, the call fails with
    an event, nothing is sent to the API server, and each of the [k] ranges before
    it has one more network marked than before, held by no node; the ranges after
    it are untouched. *)
Theorem range_exhaustion_strands_networks K ls r node k s :
  ra_ok ls r → PodCIDRs node = [] → cidrSets r !! k = Some s → full s →
  (∀ j s, (j < k)%nat → cidrSets r !! j = Some s → ¬ full s) →
  ∃ r', range_AllocateOrOccupyCIDR K (Some node) r = (Err (ErrNoCIDRAt k), r') ∧
    actions r' = ActEvent (Name node) "CIDRNotAvailable" :: actions r ∧
    (∀ j s, (j < k)%nat → cidrSets r !! j = Some s →
       ∃ s', cidrSets r' !! j = Some s' ∧ allocatedCIDRs s' = allocatedCIDRs s + 1 ∧ set_keeps s s') ∧
    (∀ j, (k ≤ j)%nat → cidrSets r' !! j = cidrSets r !! j).
Proof.
  intros Hr Hnil Hk Hfull Hroom.
  destruct (allocate_reserves K ls r node Hr Hnil)
    as [(nets & sets' & Ht & _)|(ls1 & l & ls2 & sets1 & s1 & sets2 & nets & sets1' & Els & Es & Ht & Hf1 & E)].
  { by destruct (took_all_not_full _ _ _ _ _ _ Ht Hk). }
  assert (k = length sets1) as ->.
  { destruct (lt_eq_lt_dec k (length sets1)) as [[Hlt|]|Hgt]; [|done|]; exfalso.
    - rewrite Es, lookup_app_l in Hk by done. by apply (took_all_not_full _ _ _ _ _ _ Ht Hk).
    - apply (Hroom (length sets1) s1 Hgt); [|done]. rewrite Es. apply lookup_middle_nat. }
  destruct (took_all_length _ _ _ _ Ht) as (Hl1 & _ & Hl3).
  eexists. split; [exact E|]. split_and!; [done| |]; cbn [cidrSets]; rewrite Es.
  - intros j s0 Hj Hs0. rewrite lookup_app_l in Hs0 by done.
    destruct (took_all_at _ _ _ _ _ _ Ht Hs0) as (f & c & s' & i & Hl & Es' & Ha). exists s'.
    assert (wf f c s0) as Hw.
    { apply (ra_wf ls r j f c s0 Hr).
      - rewrite Els, lookup_app_l; [exact Hl|by eapply lookup_lt_Some].
      - by rewrite Es, lookup_app_l. }
    split_and!; [by rewrite lookup_app_l by (by eapply lookup_lt_Some)|by apply (allocated_count f c s0 s' i)|].
    intros x Hx. apply (all_used _ _ _ _ _ Ha). by right.
  - intros j Hj. rewrite !lookup_app_r by lia. by replace (length sets1') with (length sets1) by lia.
Qed.

(** A dual-stack cluster whose IPv6 range is taken by the service range. *)
Definition dual_layouts : list layout := [demo_layout; mkLayout V6 (0x20010db8 * 2 ^ 96) 64 64].
Definition dual_params : CIDRAllocatorParams :=
  mkParams (map l_cluster dual_layouts) (Some (mk_net V6 (0x20010db8 * 2 ^ 96) 64)) None (map l_nmask dual_layouts).

Definition dual_ra : rangeAllocator :=
  match NewCIDRRangeAllocator demoK dual_params None with
  | Ok r => r
  | _ => mkRangeAllocator [] [] []
  end.

Lemma dual_params_ok : params_ok dual_layouts dual_params.
Proof.
  assert (canon V6 (0x20010db8 * 2 ^ 96) 64) as Hcan by (by split; cbn).
  split; [done..| |].
  - constructor; [apply demo_layout_ok|]. constructor; [|constructor]. split; cbn; try done.
    intros x Hx _. assert (65536 ≤ x / 2 ^ 32); [|lia]. unfold in_net in Hx. cbn [width] in Hx.
    apply Z.div_le_lower_bound; lia.
  - intros n [[= <-]|[=]]. by exists V6, (0x20010db8 * 2 ^ 96), 64.
Qed.

Lemma dual_ra_ok : ra_ok (places_of dual_layouts) dual_ra.
Proof.
  destruct (new_range_allocator demoK dual_layouts dual_params None (demo_kube_laws _) dual_params_ok)
    as (sets & r1 & r2 & _ & _ & _ & _ & Hr2 & _ & _ & E).
  unfold dual_ra. by rewrite E.
Qed.

Lemma dual_ra_sets :
  ∃ s0 s1, cidrSets dual_ra = [s0; s1] ∧ used s0 = 0 ∧ maxCIDRs s0 = 2 ∧ used s1 = 1 ∧ maxCIDRs s1 = 1.
Proof. eexists _, _. vm_compute. done. Qed.

Lemma range_exhaustion_strands_networks_witness :
  ∃ r', range_AllocateOrOccupyCIDR demoK (Some (demo_node "a" [])) dual_ra = (Err (ErrNoCIDRAt 1), r').
Proof.
  destruct dual_ra_sets as (s0 & s1 & Es & Hu0 & Hm0 & Hu1 & Hm1).
  destruct (range_exhaustion_strands_networks demoK (places_of dual_layouts) dual_ra (demo_node "a" []) 1 s1
              dual_ra_ok) as (r' & E & _).
  - reflexivity.
  - rewrite Es. reflexivity.
  - intros i Hi. rewrite Hm1 in Hi. assert (i = 0) as -> by lia. rewrite Hu1. reflexivity.
  - intros j s Hj Hs. assert (j = 0%nat) as -> by lia. rewrite Es in Hs. injection Hs as <-.
    intros Hf. specialize (Hf 0). rewrite Hu0, Hm0, Z.bits_0 in Hf. discriminate Hf. lia.
  - exists r'. exact E.
Defined.

(** Server time-outs are not recognised: an API server that answers every
    patch with the status [ServerTimeout], which the error predicate accepts as a
    time-out, leaves an error that the predicate rejects, because the patch
    function formats its cause with [%v]; the networks are given back although it
    is unknown whether the request went through. *)
Theorem range_timeout_releases K ls r node node' :
  KubeLaws K → ra_ok ls r → ls ≠ [] → PodCIDRs node = [] →
  Forall (λ s, ¬ full s) (cidrSets r) →
  lister_Get K (actions r) (Name node) = inr node' → PodCIDRs node' = [] →
  (∀ past n c cs, api_Patch K past n c cs = Some (ErrAPI "ServerTimeout")) →
  IsServerTimeout K (ErrAPI "ServerTimeout") = true →
  ∃ e r', range_AllocateOrOccupyCIDR K (Some node) r = (Err e, r') ∧
    IsServerTimeout K e = false ∧ Forall2 same_use (cidrSets r) (cidrSets r').
Proof.
  intros HK Hr Hls Hnil Hroom El En Hapi _. pose proof (ok_sets _ _ Hr) as Hw.
  destruct (allocate_reserves K ls r node Hr Hnil)
    as [(nets & sets' & Ht & ->)|(ls1 & l & ls2 & sets1 & s & sets2 & nets & sets1' & _ & Es & _ & Hfull & _)].
  2:{ rewrite Es, Forall_app, Forall_cons in Hroom. by destruct Hroom as (_ & Hno & _). }
  assert (nets ≠ []) as Hne.
  { destruct (took_all_length _ _ _ _ Ht) as (_ & Hlen & _). by destruct nets, ls. }
  destruct (update_patches K ls (cidrSets r) nets sets' (clusterCIDRs r) (actions r) (Name node)
              Hw Ht node' El En Hne HK) as [(l & _ & _ & Hacc & _)|(l & e & sets'' & _ & _ & _ & Hu & ->)].
  { by rewrite Hapi in Hacc. }
  exists (ErrPatch e). eexists. split; [done|]. split; [|exact Hu].
  apply (timeout_status K HK), ErrPatch_no_status.
Qed.

Lemma range_timeout_releases_witness :
  let K := demo_kube (λ _ _, false) in
  ∃ e r', range_AllocateOrOccupyCIDR K (Some (demo_node "a" [])) demo_ra = (Err e, r') ∧
    IsServerTimeout K e = false ∧ Forall2 same_use (cidrSets demo_ra) (cidrSets r').
Proof.
  intros K.
  apply (range_timeout_releases K [(V4, demo_base)] demo_ra (demo_node "a" []) (demo_node "a" [])
           (demo_kube_laws _) demo_ra_ok).
  - discriminate.
  - reflexivity.
  - exact demo_ra_room.
  - vm_compute. reflexivity.
  - reflexivity.
  - reflexivity.
  - vm_compute. reflexivity.
Defined.
