(* ===== verification/Interleaving.v ===== *)
(** * Code as sequences of atomic steps, and threads that interleave

    A [proc] is what is left of a goroutine: a result, or a step on the shared state
    that leaves another [proc].  [patom] makes one step of a state transformer;
    [pbind], [pcatch] and [pforeachi] mirror the monad of the sequential model, and
    [prun] is a [proc] that runs alone.

    [psteps] says that every step of a thread, in whatever state the other threads
    left, respects a relation.  [wp] is a small program logic for a thread among
    others.  A thread owns a resource; each of its steps starts in any state the other
    threads may have left that respects what it owns, and makes a transition the
    others can live with, as long as the state stays [calm]. *)

From S2P Require Import Prelude.

Local Open Scope go_scope.

#[local] Unset Elimination Schemes.
Inductive proc (S A : Type) :=
  | PRet (o : outcome A)
  | PStep (m : S → proc S A * S).
#[local] Set Elimination Schemes.
Arguments PRet {_ _} _.
Arguments PStep {_ _} _.

Section proc_ind.
Context {S A : Type} (P : proc S A → Prop).
Context (Hret : ∀ o, P (PRet o)) (Hstep : ∀ m, (∀ s, P (m s).1) → P (PStep m)).
Fixpoint proc_ind (p : proc S A) : P p :=
  match p with
  | PRet o => Hret o
  | PStep m => Hstep m (λ s, match m s as q return P q.1 with (p', _) => proc_ind p' end)
  end.
End proc_ind.

Section procs.
Context {S : Type}.

Definition patom {A} (m : GoM S A) : proc S A :=
  PStep (λ s, let '(o, s') := m s in (PRet o, s')).

Definition pret {A} (a : A) : proc S A := PRet (Ok a).
Definition pfail {A} (e : error) : proc S A := PRet (Err e).
Definition ppanic {A} : proc S A := PRet Panic.

Fixpoint pbind {A B} (p : proc S A) (k : A → proc S B) : proc S B :=
  match p with
  | PRet (Ok a) => k a
  | PRet (Err e) => PRet (Err e)
  | PRet Panic => PRet Panic
  | PStep m => PStep (λ s, let '(p', s') := m s in (pbind p' k, s'))
  end.

Fixpoint pcatch {A} (p : proc S A) (h : error → proc S A) : proc S A :=
  match p with
  | PRet (Err e) => h e
  | PRet o => PRet o
  | PStep m => PStep (λ s, let '(p', s') := m s in (pcatch p' h, s'))
  end.

Fixpoint pforeachi {A} (i : nat) (l : list A) (body : nat → A → proc S unit) : proc S unit :=
  match l with
  | [] => pret tt
  | x :: l' => pbind (body i x) (λ _, pforeachi (Datatypes.S i) l' body)
  end.

Definition pforeach {A} (l : list A) (body : A → proc S unit) : proc S unit := pforeachi 0 l (λ _, body).

(** All steps of a thread that runs alone. *)
Fixpoint prun {A} (p : proc S A) : GoM S A :=
  match p with
  | PRet o => gof_outcome o
  | PStep m => λ s, let '(p', s') := m s in prun p' s'
  end.

(** A pool of threads: the next step of thread [i]. *)
Definition run_thread_of {A} (pool : list (proc S A) * S) (i : nat) : list (proc S A) * S :=
  match pool.1 !! i with
  | Some (PStep m) => let '(p, s) := m pool.2 in (<[i := p]> pool.1, s)
  | _ => pool
  end.

(** ** Running alone *)

Lemma prun_atom {A} (m : GoM S A) s : prun (patom m) s = m s.
Proof. cbn. by destruct (m s). Qed.

Lemma prun_bind {A B} (p : proc S A) (k : A → proc S B) s :
  prun (pbind p k) s = gbind (prun p) (λ a, prun (k a)) s.
Proof.
  revert s. induction p as [[a|e|]|m IH]; intros s; [done..|]. cbn. unfold gbind in *.
  specialize (IH s). destruct (m s) as [p' s']. apply IH.
Qed.

Lemma prun_catch {A} (p : proc S A) h s :
  prun (pcatch p h) s = gcatch (prun p) (λ e, prun (h e)) s.
Proof.
  revert s. induction p as [[a|e|]|m IH]; intros s; [done..|]. cbn. unfold gcatch in *.
  specialize (IH s). destruct (m s) as [p' s']. apply IH.
Qed.

Lemma gbind_ext {A B} (m m' : GoM S A) (k k' : A → GoM S B) s :
  m s = m' s → (∀ a s', k a s' = k' a s') → gbind m k s = gbind m' k' s.
Proof. intros Hm Hk. unfold gbind. rewrite Hm. destruct (m' s) as [[a|e|] s']; [apply Hk|done..]. Qed.

Lemma gcatch_ext {A} (m m' : GoM S A) (h h' : error → GoM S A) s :
  m s = m' s → (∀ e s', h e s' = h' e s') → gcatch m h s = gcatch m' h' s.
Proof. intros Hm Hh. unfold gcatch. rewrite Hm. destruct (m' s) as [[a|e|] s']; [done|apply Hh|done]. Qed.

Lemma prun_foreachi {A} (l : list A) body body' i s :
  (∀ i x s, prun (body i x) s = body' i x s) → prun (pforeachi i l body) s = gforeachi i l body' s.
Proof.
  intros Hb. revert i s. induction l as [|x l IH]; intros i s; [done|].
  cbn [pforeachi gforeachi]. rewrite prun_bind. by apply gbind_ext.
Qed.

Lemma prun_foreach {A} (l : list A) body body' s :
  (∀ x s, prun (body x) s = body' x s) → prun (pforeach l body) s = gforeach l body' s.
Proof.
  intros Hb. unfold pforeach. generalize 0%nat. revert s. induction l as [|x l IH]; intros s i; [done|].
  cbn [pforeachi gforeach]. rewrite prun_bind. apply gbind_ext; auto.
Qed.

(** ** Steps that respect a relation *)

Fixpoint psteps {A} (Q : relation S) (p : proc S A) : Prop :=
  match p with
  | PRet _ => True
  | PStep m => ∀ s, match m s with (p', s') => Q s s' ∧ psteps Q p' end
  end.

Lemma psteps_atom {A} Q (m : GoM S A) : gsteps Q m → psteps Q (patom m).
Proof. intros H s. specialize (H s). by destruct (m s). Qed.

Lemma psteps_bind {A B} Q (p : proc S A) (k : A → proc S B) :
  psteps Q p → (∀ a, psteps Q (k a)) → psteps Q (pbind p k).
Proof.
  intros Hp Hk. induction p as [[a|e|]|m IH]; [by apply Hk|done..|]. cbn. intros s. specialize (IH s).
  specialize (Hp s). destruct (m s) as [p' s']. destruct Hp. split; [done|by apply IH].
Qed.

Lemma psteps_catch {A} Q (p : proc S A) h :
  psteps Q p → (∀ e, psteps Q (h e)) → psteps Q (pcatch p h).
Proof.
  intros Hp Hk. induction p as [[a|e|]|m IH]; [done|by apply Hk|done|]. cbn. intros s. specialize (IH s).
  specialize (Hp s). destruct (m s) as [p' s']. destruct Hp. split; [done|by apply IH].
Qed.

Lemma psteps_foreachi {A} Q (l : list A) i body : (∀ i x, psteps Q (body i x)) → psteps Q (pforeachi i l body).
Proof.
  intros Hb. revert i. induction l as [|x l IH]; intros i; [done|]. cbn [pforeachi]. apply psteps_bind; auto.
Qed.

Lemma psteps_foreach {A} Q (l : list A) body : (∀ x, psteps Q (body x)) → psteps Q (pforeach l body).
Proof. intros Hb. by apply psteps_foreachi. Qed.

(** ** Among other threads *)

Context {R : Type} (good calm : S → Prop) (holds : R → S → Prop) (trans : R → S → R → S → Prop).

Fixpoint wp {A} (p : proc S A) (own : R) (Q : outcome A → R → Prop) : Prop :=
  match p with
  | PRet o => Q o own
  | PStep m => ∀ s, good s → holds own s →
      match m s with (p', s') => calm s' → ∃ own', trans own s own' s' ∧ wp p' own' Q end
  end.

Lemma wp_mono {A} (p : proc S A) own (Q Q' : outcome A → R → Prop) :
  (∀ o own', Q o own' → Q' o own') → wp p own Q → wp p own Q'.
Proof.
  intros HQ. revert own. induction p as [o|m IH]; intros own; [apply HQ|]. cbn. intros H s Hg Hh.
  specialize (IH s). specialize (H s Hg Hh). destruct (m s) as [p' s'].
  intros Hc. destruct (H Hc) as (own' & Ht & Hw). exists own'. split; [done|by apply IH].
Qed.

(** What follows an outcome in [pbind] and in [pcatch]. *)
Definition after_bind {A B} (k : A → proc S B) (Q : outcome B → R → Prop) (o : outcome A) (own : R) : Prop :=
  match o with Ok a => wp (k a) own Q | Err e => Q (Err e) own | Panic => Q Panic own end.
Definition after_catch {A} (h : error → proc S A) (Q : outcome A → R → Prop) (o : outcome A) (own : R) : Prop :=
  match o with Err e => wp (h e) own Q | o => Q o own end.

Lemma wp_bind {A B} (p : proc S A) (k : A → proc S B) own Q :
  wp p own (after_bind k Q) → wp (pbind p k) own Q.
Proof.
  revert own. induction p as [[a|e|]|m IH]; intros own; [done..|]. cbn. intros H s Hg Hh.
  specialize (IH s). specialize (H s Hg Hh). destruct (m s) as [p' s'].
  intros Hc. destruct (H Hc) as (own' & Ht & Hw). exists own'. split; [done|by apply IH].
Qed.

Lemma wp_catch {A} (p : proc S A) h own Q : wp p own (after_catch h Q) → wp (pcatch p h) own Q.
Proof.
  revert own. induction p as [[a|e|]|m IH]; intros own; [done..|]. cbn. intros H s Hg Hh.
  specialize (IH s). specialize (H s Hg Hh). destruct (m s) as [p' s'].
  intros Hc. destruct (H Hc) as (own' & Ht & Hw). exists own'. split; [done|by apply IH].
Qed.

Lemma wp_atom {A} (m : GoM S A) own Q :
  (∀ s, good s → holds own s → calm (m s).2 → ∃ own', trans own s own' (m s).2 ∧ Q (m s).1 own') →
  wp (patom m) own Q.
Proof. intros H s Hg Hh. specialize (H s Hg Hh). by destruct (m s). Qed.

(** A loop that keeps [I i l own] for what is left of the list. *)
Lemma wp_foreachi {A} (I : nat → list A → R → Prop) (l : list A) body i own Q :
  I i l own →
  (∀ i x l own, I i (x :: l) own →
     wp (body i x) own (λ o own', match o with
       | Ok _ => I (Datatypes.S i) l own' | Err e => Q (Err e) own' | Panic => Q Panic own' end)) →
  (∀ i own, I i [] own → Q (Ok tt) own) →
  wp (pforeachi i l body) own Q.
Proof.
  intros Hi Hb Hq. revert i own Hi. induction l as [|x l IH]; intros i own Hi; [by eapply Hq|].
  cbn [pforeachi]. apply wp_bind. eapply wp_mono; [|by apply Hb]. intros [u|e|] own' H; [by apply IH|done..].
Qed.

Lemma wp_foreach {A} (I : list A → R → Prop) (l : list A) body own Q :
  I l own →
  (∀ x l own, I (x :: l) own →
     wp (body x) own (λ o own', match o with
       | Ok _ => I l own' | Err e => Q (Err e) own' | Panic => Q Panic own' end)) →
  (∀ own, I [] own → Q (Ok tt) own) →
  wp (pforeach l body) own Q.
Proof. intros Hi Hb Hq. apply (wp_foreachi (λ _, I)); [done| |by intros _]. by intros _. Qed.
End procs.

Notation "'let*' x := p 'in' k" := (pbind p (λ x, k))
  (at level 200, x binder, p at level 100, k at level 200) : go_scope.

(** Follows both programs at once. *)
Ltac go_run :=
  intros;
  repeat first
    [ reflexivity
    | apply prun_atom
    | match goal with
      | |- prun (pbind _ _) _ = _ => rewrite prun_bind; apply gbind_ext; [|intros]
      | |- prun (pcatch _ _) _ = _ => rewrite prun_catch; apply gcatch_ext; [|intros]
      | |- prun (pforeachi _ _ _) _ = _ => apply prun_foreachi; intros
      | |- prun (pforeach _ _) _ = _ => apply prun_foreach; intros
      | |- prun (match ?x with _ => _ end) _ = _ => destruct x
      | |- prun (if ?x then _ else _) _ = _ => destruct x
      end
    | solve [auto] ].

(** Splits a thread into its atomic steps. *)
Ltac go_psteps :=
  repeat (intros; first
    [ exact I
    | solve [auto]
    | apply psteps_atom; solve [go_steps]
    | apply psteps_bind
    | apply psteps_catch
    | apply psteps_foreachi
    | apply psteps_foreach
    | match goal with |- psteps _ (match ?x with _ => _ end) => destruct x end ]).
