(* ===== verification/Workers.v ===== *)
(** * The workers of the allocators

    [runWorker] of both allocators is [for r.processNextNodeWorkItem(ctx) {}]: it
    has no bound of its own and returns when the queue is shut down.  The queue is
    a library: what [Get] delivers is a parameter that may depend on everything
    done before, [None] when the queue is shut down and drained.

    The loop runs with fuel; the lemmas show that as many turns as the queue can
    still deliver items, and one more, are enough. *)

From S2P Require Import Prelude Kube.

Local Open Scope go_scope.

Section worker.
Context {S item : Type} `{!Traced S}.
Context (process : option item → GoM S bool) (Get : list action → option item).

(** [true] when the loop has returned, [false] when the fuel ran out. *)
Fixpoint runWorker (fuel : nat) : GoM S bool :=
  match fuel with
  | O => gret false
  | Datatypes.S fuel' =>
      s <- gget ;;
      more <- process (Get (trace s)) ;;
      if more then runWorker fuel' else gret true
  end.

(** The items a worker has finished with. *)
Definition dones (tr : list action) : nat :=
  length (filter (λ a, match a with ActQueueDone _ => true | _ => false end = true) tr).

(** The queue delivers at most [n] items in all. *)
Definition delivers_at_most (n : nat) : Prop := ∀ tr, (n ≤ dones tr)%nat → Get tr = None.

Lemma dones_suffix tr tr' : tr `suffix_of` tr' → (dones tr ≤ dones tr')%nat.
Proof. intros [l ->]. unfold dones. rewrite filter_app, length_app. lia. Qed.

Lemma dones_app l tr : dones (l ++ tr) = (dones l + dones tr)%nat.
Proof. unfold dones. by rewrite filter_app, length_app. Qed.

(** A turn that takes an item finishes it, and one that takes none ends the loop. *)
Context (I : S → Prop).
Definition turn_ok : Prop := ∀ it s, I s →
  ∃ s', process it s = (Ok (bool_decide (it ≠ None)), s') ∧ I s' ∧
    (it ≠ None → (dones (trace s) < dones (trace s'))%nat) ∧ (it = None → s' = s).

Lemma runWorker_returns n s : turn_ok → delivers_at_most n → I s →
  ∃ s', I s' ∧ Get (trace s') = None ∧
    ∀ fuel, (n - dones (trace s) < fuel)%nat → runWorker fuel s = (Ok true, s').
Proof.
  intros Ht Hn. remember (n - dones (trace s))%nat as k eqn:Ek.
  revert s Ek. induction (lt_wf k) as [k _ IH]. intros s -> Hs.
  destruct (Ht (Get (trace s)) s Hs) as (s1 & E & Hs1 & Hlt & Hsame).
  destruct (Get (trace s)) as [it|] eqn:Eg.
  - assert (dones (trace s) < n)%nat as Hd.
    { destruct (decide (n ≤ dones (trace s)))%nat as [Hge|]; [|lia]. by rewrite (Hn _ Hge) in Eg. }
    assert (dones (trace s) < dones (trace s1))%nat as Hlt1 by by apply Hlt.
    destruct (IH (n - dones (trace s1))%nat ltac:(lia) s1 eq_refl Hs1) as (s' & Hs' & Eg' & Hrun).
    exists s'. split_and!; [done..|]. intros [|fuel] Hf; [lia|].
    cbn [runWorker]. unfold gbind at 1. cbn [gget]. unfold gbind. rewrite Eg, E.
    rewrite bool_decide_eq_true_2 by done. apply Hrun. lia.
  - rewrite (Hsame eq_refl) in *. exists s. split_and!; [done..|]. intros [|fuel] Hf; [lia|].
    cbn [runWorker]. unfold gbind at 1. cbn [gget]. unfold gbind. by rewrite Eg, E.
Qed.
End worker.
