(* ===== verification/RangeWorkers.v ===== *)
(** * The range allocator's workers and handlers over time

    [runWorker] returns once the queue is shut down. *)

From S2P Require Import Prelude GoNet CidrSet CidrSetGeometry CidrSetSpec Kube CidrAllocator AllocatorParams.
From S2P Require Import RangeAllocator RangeAllocatorSpec RangeAllocatorTheorems Workers.

Local Open Scope go_scope.

Definition range_runWorker (K : Kube) (Get : list action → option queue_item)
    : nat → GoM rangeAllocator bool := runWorker (processNextNodeWorkItem K) Get.

Lemma range_turn_ok K ls : KubeLaws K → ls ≠ [] → turn_ok (processNextNodeWorkItem K) (ra_ok ls).
Proof.
  intros HK Hls it r Hr. pose proof (processNextNodeWorkItem_steps K ls it r Hr) as (Hr' & _ & _).
  exists (processNextNodeWorkItem K it r).2. destruct it as [[key|dump]|]; [| |done].
  - pose proof (syncNode_steps K ls key r Hr) as (_ & _ & Hs%dones_suffix).
    pose proof (syncNode_ok K HK ls key Hls r Hr) as [Hnp _].
    unfold processNextNodeWorkItem, gcatch, gbind in *.
    destruct (syncNode K key r) as [[[]|e|] r1]; [| |done];
      (split_and!; [done|exact Hr'|intros _; apply Nat.lt_succ_r; exact Hs|done]).
  - split_and!; [done|exact Hr'|intros _; apply Nat.lt_succ_r; exact (le_n _)|done].
Qed.

(** C13. [runWorker] terminates: it has no bound of its own, but when the queue
    delivers no more than [n] items in all before it is shut down, whatever the
    cluster answers meanwhile, the loop returns after at most one turn for each
    item still to come and one more; it returns because the queue is shut down,
    never by a panic, and leaves the allocator in order. *)
Theorem range_worker_terminates K ls r Get n :
  KubeLaws K → ls ≠ [] → ra_ok ls r → delivers_at_most Get n →
  ∃ r', ra_ok ls r' ∧ Get (actions r') = None ∧
    ∀ fuel, (n - dones (actions r) < fuel)%nat → range_runWorker K Get fuel r = (Ok true, r').
Proof.
  intros HK Hls Hr Hn.
  exact (runWorker_returns (processNextNodeWorkItem K) Get (ra_ok ls) n r (range_turn_ok K ls HK Hls) Hn Hr).
Qed.

(** A queue that delivers one key per item done, then shuts down. *)
Definition list_queue (keys : list string) (tr : list action) : option queue_item :=
  QKey <$> keys !! dones tr.

Lemma range_worker_terminates_witness :
  ∃ r', range_runWorker demoK (list_queue ["a"; "b"; "a"]) 4 demo_ra = (Ok true, r') ∧
    ra_ok [(V4, demo_base)] r'.
Proof.
  destruct (range_worker_terminates demoK [(V4, demo_base)] demo_ra (list_queue ["a"; "b"; "a"]) 3)
    as (r' & Hr' & _ & Hrun).
  - apply demo_kube_laws.
  - discriminate.
  - exact demo_ra_ok.
  - intros tr Htr. unfold list_queue. rewrite lookup_ge_None_2; [reflexivity|exact Htr].
  - exists r'. split; [apply Hrun; vm_compute; lia|exact Hr'].
Defined.
