(* ===== verification/Ownership.v ===== *)
(** * Workers of an allocator that interleave, and what they own

    Any number of goroutines allocate for nodes and release nodes on one allocator,
    their atomic steps in any order.  A thread owns the networks it has taken and not
    yet assigned or given back; an assignment the API server accepted owns its
    networks until the node is released.  What is owned is marked and has one owner.

    The allocator is a parameter: what a token is (a network), which tokens are
    marked in a state, and which an assignment names.  An allocator whose threads
    keep to [trans] keeps [sys_ok]. *)

From S2P Require Import Prelude GoNet Kube CidrAllocator Interleaving.

Local Open Scope go_scope.

(** The assignments among some actions, and the actions added between two states. *)
Definition accepted_of (l : list action) : list (string * list string) :=
  omap (λ a, match a with ActPatch n _ cidrs None => Some (n, cidrs) | _ => None end) l.
Definition fresh_actions {S} `{!Traced S} (r r' : S) : list action :=
  take (length (trace r') - length (trace r)) (trace r').

(** ** The system *)

Record system (S : Type) := mkSystem {
  threads : list (proc S unit);
  shared : S;
  (* node and networks of the accepted assignments whose release has not begun *)
  live : list (string * list string);
  (* nodes that were handed to a release otherwise: a second time, or with networks
     that were not assigned to them *)
  strays : list Node }.
Arguments mkSystem {S} _ _ _ _.
Arguments threads {S} _.
Arguments shared {S} _.
Arguments live {S} _.
Arguments strays {S} _.

(** A thread makes a step; a worker starts to serve some node; a node that holds an
    assignment is deleted and its release starts; or the release of any node object
    starts, whatever networks it names. *)
Inductive system_step {S} `{!Traced S} (alloc release : Node → proc S unit) : system S → system S → Prop :=
  | step_thread sys i m p r :
      threads sys !! i = Some (PStep m) → m (shared sys) = (p, r) →
      system_step alloc release sys
        (mkSystem (<[i := p]> (threads sys)) r (accepted_of (fresh_actions (shared sys) r) ++ live sys) (strays sys))
  | step_allocate sys node :
      system_step alloc release sys (mkSystem (threads sys ++ [alloc node]) (shared sys) (live sys) (strays sys))
  | step_release sys l1 l2 node :
      live sys = l1 ++ (Name node, PodCIDRs node) :: l2 →
      system_step alloc release sys (mkSystem (threads sys ++ [release node]) (shared sys) (l1 ++ l2) (strays sys))
  | step_stray sys node :
      system_step alloc release sys
        (mkSystem (threads sys ++ [release node]) (shared sys) (live sys) (node :: strays sys)).

(** The next step of thread [i]. *)
Definition run_thread {S} `{!Traced S} (sys : system S) (i : nat) : system S :=
  match threads sys !! i with
  | Some (PStep m) =>
      let '(p, r) := m (shared sys) in
      mkSystem (<[i := p]> (threads sys)) r (accepted_of (fresh_actions (shared sys) r) ++ live sys) (strays sys)
  | _ => sys
  end.

Lemma run_threads_reach {S} `{!Traced S} (alloc release : Node → proc S unit) sched sys :
  rtc (system_step alloc release) sys (foldl run_thread sys sched).
Proof.
  revert sys. induction sched as [|i sched IH]; intros sys; [reflexivity|]. cbn [foldl].
  etransitivity; [|apply IH]. unfold run_thread. destruct (threads sys !! i) as [[o|m]|] eqn:E; [reflexivity| |reflexivity].
  destruct (m (shared sys)) as [p r] eqn:Em. apply rtc_once. by eapply step_thread.
Qed.

(** One of the nodes names a network that is not clear of [x]. *)
Definition names_near (K : Kube) (x : IPNet) (cidr : string) : Prop :=
  match ParseCIDRSloppy K cidr with inl _ => False | inr n => ¬ clear_nets x n end.
#[export] Instance names_near_dec K x cidr : Decision (names_near K x cidr).
Proof. unfold names_near. destruct (ParseCIDRSloppy K cidr); apply _. Defined.

Definition disturbed (K : Kube) (nodes : list Node) (x : IPNet) : Prop :=
  Exists (λ node, Exists (names_near K x) (PodCIDRs node)) nodes.

Lemma undisturbed K nodes x node cidr n :
  ¬ disturbed K nodes x → node ∈ nodes → cidr ∈ PodCIDRs node → ParseCIDRSloppy K cidr = inr n → clear_nets x n.
Proof.
  intros Hd Hn Hc E. destruct (decide (clear_nets x n)) as [|Hno]; [done|]. exfalso. apply Hd, Exists_exists.
  exists node. split; [done|]. apply Exists_exists. exists cidr. split; [done|]. unfold names_near. by rewrite E.
Qed.

(** What is recorded as a stray release stays recorded. *)
Lemma strays_grow {S} `{!Traced S} (alloc release : Node → proc S unit) sys sys' :
  rtc (system_step alloc release) sys sys' → ∀ node, node ∈ strays sys → node ∈ strays sys'.
Proof.
  induction 1 as [|x y z Hxy _ IH]; intros node Hn; [done|]. apply IH.
  destruct Hxy; cbn [strays]; [done..|by right].
Qed.

(** A relation that every step of every thread respects. *)
Section system_steps.
Context {S : Type} `{!Traced S} (Q : relation S) `{!PreOrder Q}.
Context (alloc release : Node → proc S unit).
Context (alloc_steps : ∀ node, psteps Q (alloc node)) (release_steps : ∀ node, psteps Q (release node)).

Lemma system_step_steps sys sys' :
  system_step alloc release sys sys' → Forall (psteps Q) (threads sys) →
  Q (shared sys) (shared sys') ∧ Forall (psteps Q) (threads sys').
Proof using PreOrder0 alloc_steps release_steps.
  intros Hxy Hx. destruct Hxy as [sys i m p r Ei Em|sys node|sys l1 l2 node El|sys node]; cbn [shared threads].
  2-4: split; [reflexivity|]; apply Forall_app; split; [done|]; apply Forall_singleton; auto.
  pose proof (Forall_lookup_1 _ _ _ _ Hx Ei (shared sys)) as Hm. rewrite Em in Hm.
  destruct Hm. split; [done|]. by apply Forall_insert.
Qed.

Lemma system_steps sys sys' :
  rtc (system_step alloc release) sys sys' → Forall (psteps Q) (threads sys) →
  Q (shared sys) (shared sys').
Proof using PreOrder0 alloc_steps release_steps.
  induction 1 as [|x y z Hxy _ IH]; intros Hx; [reflexivity|].
  destruct (system_step_steps x y Hxy Hx). by transitivity (shared y); auto.
Qed.
End system_steps.

(** ** The retry loop in atomic steps *)

Fixpoint patch_attempts_proc {S} `{!Traced S} (K : Kube) (n : nat) (err : option error) (node : string)
    (cidrs : list string) : proc S (option error) :=
  match n with
  | O => pret err
  | Datatypes.S n' =>
      pcatch (let* _ := patom (PatchNodeCIDRs K node cidrs) in pret None)
             (λ e, patch_attempts_proc K n' (Some e) node cidrs)
  end.

Lemma patch_attempts_run {S} `{!Traced S} K n err node cidrs (r : S) :
  prun (patch_attempts_proc K n err node cidrs) r = patch_attempts K n err node cidrs r.
Proof. revert err r. induction n as [|n IH]; cbn [patch_attempts_proc patch_attempts]; go_run. Qed.

(** ** Ownership *)

Section ownership.
Context {S : Type} `{!Traced S} {token : Type}.
Context (good calm : S → Prop) (marked : S → token → Prop).
Context (assigned : string * list string → list token → Prop).

Definition owned (own : list token) (r : S) : Prop := NoDup own ∧ ∀ t, t ∈ own → marked r t.

(** A step of a thread that owns [own] and then owns [own']: the marks of others
    stay; what it then owns, or has assigned, is marked and was its own or free. *)
Definition trans (own : list token) (r : S) (own' : list token) (r' : S) : Prop :=
  good r' ∧ (∀ t, marked r t → t ∉ own → marked r' t) ∧
  ∃ gives, Forall2 assigned (accepted_of (fresh_actions r r')) gives ∧
    NoDup (own' ++ concat gives) ∧
    ∀ t, t ∈ own' ++ concat gives → marked r' t ∧ (t ∈ own ∨ ¬ marked r t).

Lemma fresh_same (r r' : S) : trace r' = trace r → fresh_actions r r' = [].
Proof. intros E. unfold fresh_actions. by rewrite E, Nat.sub_diag. Qed.

Lemma fresh_one (r r' : S) a : trace r' = a :: trace r → fresh_actions r r' = [a].
Proof.
  intros E. unfold fresh_actions. rewrite E. cbn [length].
  by replace (Datatypes.S (length (trace r)) - length (trace r))%nat with 1%nat by lia.
Qed.

(** A step that only adds marks and assigns nothing. *)
Lemma trans_quiet own r r' :
  owned own r → good r' → (∀ t, marked r t → marked r' t) →
  accepted_of (fresh_actions r r') = [] → trans own r own r'.
Proof.
  intros [Hnd Hm] Hg Hk Ha. split_and!; [done|by auto|]. exists []. rewrite Ha. cbn [concat].
  rewrite app_nil_r. split_and!; [constructor|done|]. intros t Ht. auto.
Qed.

Lemma trans_refl own r : good r → owned own r → trans own r own r.
Proof. intros Hg Hh. apply trans_quiet; [done..|]. by rewrite fresh_same. Qed.

(** A step that takes a token nobody had. *)
Lemma trans_take own r r' t :
  owned own r → good r' → (∀ t, marked r t → marked r' t) → ¬ marked r t → marked r' t →
  trace r' = trace r → trans own r (own ++ [t]) r'.
Proof.
  intros [Hnd Hm] Hg Hk Hfresh Hnew Ht. split_and!; [done|by auto|]. exists []. rewrite fresh_same by done.
  cbn [accepted_of omap list_omap concat]. rewrite app_nil_r. split_and!; [constructor| |].
  - apply NoDup_app. split_and!; [done| |apply NoDup_singleton].
    intros t' Ht' ->%list_elem_of_singleton. by apply Hfresh, Hm.
  - intros t' [Hin| ->%list_elem_of_singleton]%elem_of_app; [|by auto]. split; [|by left]. by apply Hk, Hm.
Qed.

(** A step that gives a token back. *)
Lemma trans_drop own r r' t :
  owned (t :: own) r → good r' → (∀ t', marked r t' → t' ≠ t → marked r' t') →
  trace r' = trace r → trans (t :: own) r own r'.
Proof.
  intros [[Hni Hnd]%NoDup_cons Hm] Hg Hk Ht. split_and!; [done| |].
  - intros t' Ht' Hto. apply Hk; [done|]. intros ->. apply Hto. by left.
  - exists []. rewrite fresh_same by done. cbn [accepted_of omap list_omap concat]. rewrite app_nil_r.
    split_and!; [constructor|done|]. intros t' Ht'. split; [|by left; right].
    apply Hk; [by apply Hm; right|]. by intros ->.
Qed.

(** The order in which a thread owns tokens does not matter. *)
Lemma owned_perm own own2 r : own ≡ₚ own2 → owned own r → owned own2 r.
Proof. intros E [Hnd Hm]. split; [by rewrite <-E|]. intros t. rewrite <-E. apply Hm. Qed.
Lemma trans_perm own own2 r own' r' : own ≡ₚ own2 → trans own2 r own' r' → trans own r own' r'.
Proof.
  intros E (Hg & Hk & gives & Hf & Hnd & Ht). split_and!; [done|intros t; rewrite E; apply Hk|].
  exists gives. split_and!; [done..|]. intros t. rewrite E. apply Ht.
Qed.

(** An accepted assignment gets all the thread owns. *)
Lemma trans_assign own r r' node podCIDR cidrs :
  owned own r → good r' → (∀ t, marked r t → marked r' t) →
  trace r' = ActPatch node podCIDR cidrs None :: trace r → assigned (node, cidrs) own → trans own r [] r'.
Proof.
  intros [Hnd Hm] Hg Hk Ht Ha. split_and!; [done|by auto|]. exists [own]. cbn [concat app]. rewrite app_nil_r.
  rewrite (fresh_one r r' _ Ht). split_and!; [by repeat constructor|done|].
  intros t Hin. split; [by apply Hk, Hm|by left].
Qed.

(** ** Rules for what both allocators do *)

Notation wpt := (wp good calm owned trans).

(** An action adds itself to the trace and changes nothing else. *)
Record action_laws : Prop := {
  trace_add : ∀ a (r : S), trace (add_action a r) = a :: trace r;
  good_add : ∀ a r, good r → good (add_action a r);
  marked_add : ∀ a r t, marked r t → marked (add_action a r) t }.

Lemma wp_get own (Q : outcome S → list token → Prop) : (∀ r, good r → Q (Ok r) own) → wpt (patom gget) own Q.
Proof. intros HQ. apply wp_atom. intros r Hg Hh _. exists own. split; [by apply trans_refl|by apply HQ]. Qed.

Section actions.
Context (L : action_laws).

Lemma trans_add own r a :
  good r → owned own r → accepted_of [a] = [] → trans own r own (add_action a r).
Proof using L.
  intros Hg Hh Ha. apply trans_quiet; [done|by apply (good_add L)|by apply (marked_add L)|].
  by rewrite (fresh_one r _ a (trace_add L a r)).
Qed.

Lemma wp_emit a own (Q : outcome unit → list token → Prop) :
  accepted_of [a] = [] → Q (Ok tt) own → wpt (patom (emit a)) own Q.
Proof using L. intros Ha HQ. apply wp_atom. intros r Hg Hh _. exists own. split; [by apply trans_add|done]. Qed.

Lemma wp_lister K name own (Q : outcome Node → list token → Prop) :
  (∀ o, Q o own) → wpt (patom (nodeLister_Get K name)) own Q.
Proof using L.
  intros HQ. apply wp_atom. intros r Hg Hh _. exists own. split; [|done].
  assert ((nodeLister_Get K name r).2 = add_action (ActGet name) r) as ->.
  { unfold nodeLister_Get, gbind. cbn. by destruct (lister_Get K (trace r) name). }
  by apply trans_add.
Qed.

(** An accepted patch hands what the thread owns to the assignment. *)
Lemma wp_patch K node cidrs toks (Q : outcome unit → list token → Prop) :
  assigned (node, cidrs) toks → Q (Ok tt) [] → (∀ e, Q (Err e) toks) → Q Panic toks →
  wpt (patom (PatchNodeCIDRs K node cidrs)) toks Q.
Proof using L.
  intros Hn Hok He Hp. apply wp_atom. intros r Hg Hh _. unfold PatchNodeCIDRs.
  destruct cidrs as [|podCIDR cidrs]. { exists toks. split; [by apply trans_refl|done]. }
  unfold gbind. cbn [gget]. destruct (api_Patch K (trace r) node podCIDR (podCIDR :: cidrs)) as [e|].
  { exists toks. split; [by apply trans_add|apply He]. }
  exists []. split; [|exact Hok]. set (a := ActPatch node podCIDR (podCIDR :: cidrs) None).
  apply (trans_assign toks r (add_action a r) node podCIDR (podCIDR :: cidrs));
    [done|by apply (good_add L)|by apply (marked_add L)|by apply (trace_add L)|done].
Qed.

Lemma patch_attempts_wp K n err node cidrs toks :
  assigned (node, cidrs) toks →
  wpt (patch_attempts_proc K n err node cidrs) toks (λ o own', match o with
    | Ok (Some _) => own' = toks
    | _ => True end).
Proof using L.
  intros Ha. revert err. induction n as [|n IH]; intros err; cbn [patch_attempts_proc]; [by destruct err|].
  apply wp_catch, wp_bind, wp_patch; [done..| |done]. intros e. cbn [after_bind after_catch]. apply IH.
Qed.
End actions.

(** ** The system's invariant *)

Notation safe p own := (wp good calm owned trans p own (λ _ _, True)).
Notation safe_thread := (λ (p : proc S unit) (own : list token), safe p own).

Context (r0 : S).

Record sys_ok (sys : system S) (owns cms : list (list token)) : Prop := {
  sys_good : good (shared sys);
  sys_threads : Forall2 safe_thread (threads sys) owns;
  sys_live : Forall2 assigned (live sys) cms;
  sys_once : NoDup (concat owns ++ concat cms);
  sys_marked : ∀ t, t ∈ concat owns ++ concat cms → marked (shared sys) t;
  sys_first : ∀ t, marked r0 t → marked (shared sys) t ∧ t ∉ concat owns ++ concat cms }.

Lemma concat_middle {A} (l1 l2 : list (list A)) x : concat (l1 ++ x :: l2) ≡ₚ x ++ concat (l1 ++ l2).
Proof. rewrite !concat_app. cbn [concat]. apply Permutation_app_swap_app. Qed.

(** The ghost state after a step of the thread that owns [own]. *)
Lemma sys_step_ghost own own' gives rest r r' :
  trans own r own' r' →
  NoDup (own ++ rest) → (∀ t, t ∈ own ++ rest → marked r t) →
  NoDup (own' ++ concat gives) →
  (∀ t, t ∈ own' ++ concat gives → marked r' t ∧ (t ∈ own ∨ ¬ marked r t)) →
  NoDup ((own' ++ concat gives) ++ rest) ∧
  (∀ t, t ∈ (own' ++ concat gives) ++ rest → marked r' t) ∧
  (∀ t, marked r t → t ∉ own ++ rest → marked r' t ∧ t ∉ (own' ++ concat gives) ++ rest).
Proof.
  intros (_ & Hk & _) (Hno & Hdis & Hnr)%NoDup_app Hm Hnew Hf. split_and!.
  - apply NoDup_app. split_and!; [done| |done]. intros t Ht Hr. destruct (Hf t Ht) as [_ [Ho|Hu]].
    + by apply (Hdis t).
    + apply Hu, Hm, elem_of_app. by right.
  - intros t [Ht|Ht]%elem_of_app; [by apply Hf|]. apply Hk; [apply Hm, elem_of_app; by right|].
    intros Ho. by apply (Hdis t).
  - intros t Ht Hn. rewrite elem_of_app in Hn. split; [apply Hk; tauto|].
    rewrite elem_of_app. intros [Hin|Hin]; [|tauto]. destruct (Hf t Hin) as [_ [Ho|Hu]]; tauto.
Qed.

Lemma sys_start_ok : good r0 → sys_ok (mkSystem [] r0 [] []) [] [].
Proof. intros Hr. split; cbn; [done|constructor..| |]; set_solver. Qed.

Context (alloc release : Node → proc S unit).
Context (alloc_safe : ∀ node, safe (alloc node) []).
Context (release_safe : ∀ node toks, assigned (Name node, PodCIDRs node) toks → safe (release node) toks).

(** The stray releases that are allowed take nothing from anybody. *)
Context (harmless : list Node) (stray_safe : ∀ node, node ∈ harmless → safe (release node) []).

Lemma sys_add_thread sys owns cms p l :
  sys_ok sys owns cms → safe p [] → ∃ owns', sys_ok (mkSystem (threads sys ++ [p]) (shared sys) (live sys) l) owns' cms.
Proof.
  intros [Hg Ht Hl Ho Hm Hf] Hp. exists (owns ++ [[]]).
  assert (concat (owns ++ [[]]) = concat owns) as E by (rewrite concat_app; apply app_nil_r).
  split; cbn [shared threads live]; rewrite ?E; [done| |done..].
  apply Forall2_app; [done|]. by repeat constructor.
Qed.

Lemma sys_step_ok sys sys' owns cms :
  sys_ok sys owns cms → system_step alloc release sys sys' → calm (shared sys') →
  (∀ node, node ∈ strays sys' → node ∈ harmless) → ∃ owns' cms', sys_ok sys' owns' cms'.
Proof using alloc_safe release_safe stray_safe.
  intros Hok Hs Hcalm Hst. destruct Hs as [sys i m p r Ei Em|sys node|sys l1 l2 node El|sys node].
  2:{ destruct (sys_add_thread sys owns cms (alloc node) (strays sys) Hok (alloc_safe node)). by eauto. }
  3:{ destruct (sys_add_thread sys owns cms (release node) (node :: strays sys) Hok) as [owns' H]; [|by eauto].
      apply stray_safe, Hst. by left. }
  all: destruct Hok as [Hg Ht Hl Ho Hm Hf].
  - apply list_elem_of_split_length in Ei as (T1 & T2 & ET & ->).
    rewrite ET in Ht. apply Forall2_app_inv_l in Ht as (o1 & o2' & Ht1 & Ht2 & ->).
    apply Forall2_cons_inv_l in Ht2 as (own & o2 & Hp & Ht2 & ->).
    assert (concat (o1 ++ own :: o2) ++ concat cms ≡ₚ own ++ concat (o1 ++ o2) ++ concat cms) as E
      by by rewrite concat_middle, app_assoc.
    assert (owned own (shared sys)) as Hh.
    { split; [|intros t Hin; apply Hm; rewrite E; set_solver]. rewrite E in Ho. by apply NoDup_app in Ho as [? _]. }
    specialize (Hp (shared sys) Hg Hh). rewrite Em in Hp. destruct (Hp Hcalm) as (own' & Htr & Hp').
    destruct (Htr) as (Hg' & _ & gives & Hgv & Hnd & Hgo).
    assert (NoDup (own ++ concat (o1 ++ o2) ++ concat cms)) as Ho' by by rewrite <- E.
    assert (∀ t, t ∈ own ++ concat (o1 ++ o2) ++ concat cms → marked (shared sys) t) as Hm'
      by (intros t; rewrite <- E; apply Hm).
    destruct (sys_step_ghost own own' gives _ (shared sys) r Htr Ho' Hm' Hnd Hgo) as (G1 & G2 & G3).
    assert (concat (o1 ++ own' :: o2) ++ concat (gives ++ cms) ≡ₚ
            (own' ++ concat gives) ++ concat (o1 ++ o2) ++ concat cms) as E'
      by (rewrite concat_middle, (concat_app gives), <- !app_assoc; apply Permutation_app_head, Permutation_app_swap_app).
    exists (o1 ++ own' :: o2), (gives ++ cms). split; cbn [shared threads live].
    + done.
    + rewrite ET, insert_middle_nat. apply Forall2_app; [done|]. by constructor.
    + by apply Forall2_app.
    + by rewrite E'.
    + intros t. rewrite E'. apply G2.
    + intros t H0. rewrite E'. destruct (Hf t H0) as [Hr Hn]. rewrite E in Hn. by apply G3.
  - rewrite El in Hl. apply Forall2_app_inv_l in Hl as (c1 & c2' & Hl1 & Hl2 & ->).
    apply Forall2_cons_inv_l in Hl2 as (toks & c2 & Hp & Hl2 & ->).
    assert (concat (owns ++ [toks]) ++ concat (c1 ++ c2) ≡ₚ concat owns ++ concat (c1 ++ toks :: c2)) as E.
    { rewrite (concat_middle c1), (concat_app owns). cbn [concat]. by rewrite app_nil_r, <- app_assoc. }
    exists (owns ++ [toks]), (c1 ++ c2). split; cbn [shared threads live]; [done| | | | |].
    + apply Forall2_app; [done|]. constructor; [|constructor]. by apply release_safe.
    + by apply Forall2_app.
    + by rewrite E.
    + intros t. rewrite E. apply Hm.
    + intros t. rewrite E. apply Hf.
Qed.

(** Calm at the end, with harmless stray releases only, is calm all along. *)
Context (Q : relation S) `{!PreOrder Q} (calm_back : ∀ r r', Q r r' → calm r' → calm r).
Context (alloc_steps : ∀ node, psteps Q (alloc node)) (release_steps : ∀ node, psteps Q (release node)).

Lemma sys_reach_ok sys sys' owns cms :
  sys_ok sys owns cms → Forall (psteps Q) (threads sys) → rtc (system_step alloc release) sys sys' →
  calm (shared sys') → (∀ node, node ∈ strays sys' → node ∈ harmless) →
  ∃ owns' cms', sys_ok sys' owns' cms'.
Proof using alloc_safe release_safe stray_safe PreOrder0 calm_back alloc_steps release_steps.
  intros H Ht Hr Hc Hst. revert owns cms H Ht.
  induction Hr as [|x y z Hxy Hyz IH]; intros owns cms H Ht; [by eauto|].
  destruct (system_step_steps Q alloc release alloc_steps release_steps x y Hxy Ht) as [_ Hy].
  destruct (sys_step_ok x y owns cms H Hxy) as (? & ? & H').
  - apply (calm_back _ (shared z)); [|done]. by apply (system_steps Q alloc release alloc_steps release_steps).
  - intros node Hn. by apply Hst, (strays_grow alloc release y z Hyz).
  - by eapply IH.
Qed.
End ownership.

(** ** Owners are distinct *)

Lemma elem_of_concat_lookup {A} (ls : list (list A)) j x t : ls !! j = Some x → t ∈ x → t ∈ concat ls.
Proof.
  intros Hj Ht. apply list_elem_of_In, in_concat. exists x. rewrite <- !list_elem_of_In.
  split; [by eapply list_elem_of_lookup_2|done].
Qed.

Lemma NoDup_concat_lookup {A} (ls : list (list A)) j k x y t :
  NoDup (concat ls) → ls !! j = Some x → ls !! k = Some y → j ≠ k → t ∈ x → t ∈ y → False.
Proof.
  revert j k. induction ls as [|l ls IH]; intros [|j] [|k] Hnd Hj Hk Hne Hx Hy; try done.
  all: cbn in *; apply NoDup_app in Hnd as (_ & Hd & Hnd); simplify_eq.
  - apply (Hd t Hx). by eapply elem_of_concat_lookup.
  - apply (Hd t Hy). by eapply elem_of_concat_lookup.
  - apply (IH j k); auto.
Qed.
