(* ===== verification/RangeConcurrent.v ===== *)
(** * The range allocator in atomic steps

    The operations of [range_allocator.go] as the goroutines run them: a call of a
    [CidrSet] method is one step, for it holds the set's mutex from start to end;
    so is a call to the informer cache or to the API server, and a read of
    [r.cidrSets], which never changes.  Between two steps other workers run.

    Run alone, each operation is the sequential one of [RangeAllocator]. *)

From S2P Require Import Prelude GoNet CidrSet Kube CidrAllocator RangeAllocator Interleaving Ownership.

Local Open Scope go_scope.

Notation rproc := (proc rangeAllocator).

Section threads.
Context (K : Kube).

Definition occupyCIDRs_proc (node : Node) : rproc unit :=
  pforeachi 0 (PodCIDRs node) (λ idx cidr,
    match ParseCIDRSloppy K cidr with
    | inl _ => pfail (ErrParseNode node)
    | inr podCIDR =>
        let* r := patom gget in
        if (length (cidrSets r) <=? idx)%nat then pfail (ErrNoClusterCIDR node cidr idx)
        else
          pcatch (patom (on_set idx (λ s, Occupy s (Some podCIDR))))
                 (λ e, pfail (ErrV ("failed to mark cidr[" +:+ IPNet_String (Some podCIDR) +:+
                                    "] at idx [" +:+ Uitoa (Z.of_nat idx) +:+
                                    "] as occupied for node: " +:+ Name node +:+ ": ") e))
    end).

Definition release_all_proc (allocatedCIDRs : list (option IPNet)) : rproc unit :=
  pforeachi 0 allocatedCIDRs (λ idx cidr,
    pcatch (patom (on_set idx (λ s, Release s cidr))) (λ _, pret tt)).

Definition updateCIDRsAllocation_proc (nodeName : string) (allocatedCIDRs : list (option IPNet))
    : rproc unit :=
  let cidrsString := ipnetToStringList allocatedCIDRs in
  let* node := patom (nodeLister_Get K nodeName) in
  if (length (PodCIDRs node) =? length allocatedCIDRs)%nat &&
     bool_decide (PodCIDRs node = cidrsString) then pret tt
  else if negb (length (PodCIDRs node) =? 0)%nat then release_all_proc allocatedCIDRs
  else
    let* res := patch_attempts_proc K cidrUpdateRetries None (Name node) cidrsString in
    match res with
    | None => pret tt
    | Some err =>
        let* _ := patom (RecordNodeStatusChange node "CIDRAssignmentFailed") in
        let* _ := (if IsServerTimeout K err then pret tt else release_all_proc allocatedCIDRs) in
        pfail err
    end.

Fixpoint allocate_each_proc (node : Node) (n idx : nat) : rproc (list (option IPNet)) :=
  match n with
  | O => pret []
  | S n' =>
      let* podCIDR := pcatch (patom (on_set idx AllocateNext)) (λ e,
        let* _ := patom (RecordNodeStatusChange node "CIDRNotAvailable") in
        pfail (ErrV ("failed to allocate cidr from cluster cidr at idx:" +:+
                     Uitoa (Z.of_nat idx) +:+ ": ") e)) in
      let* rest := allocate_each_proc node n' (S idx) in
      pret (Some podCIDR :: rest)
  end.

Definition AllocateOrOccupyCIDR_proc (node : option Node) : rproc unit :=
  match node with
  | None => pret tt
  | Some node =>
      if (0 <? length (PodCIDRs node))%nat then occupyCIDRs_proc node
      else
        let* r := patom gget in
        let* allocatedCIDRs := allocate_each_proc node (length (cidrSets r)) 0 in
        updateCIDRsAllocation_proc (Name node) allocatedCIDRs
  end.

Definition ReleaseCIDR_proc (node : option Node) : rproc unit :=
  match node with
  | None => pret tt
  | Some node =>
      pforeachi 0 (PodCIDRs node) (λ idx cidr,
        match ParseCIDRSloppy K cidr with
        | inl e => pfail (ErrV ("failed to parse CIDR " +:+ cidr +:+ " on Node " +:+ Name node +:+ ": ") e)
        | inr podCIDR =>
            let* r := patom gget in
            if (length (cidrSets r) <=? idx)%nat then pfail (ErrNoClusterCIDR node cidr idx)
            else
              pcatch (patom (on_set idx (λ s, Release s (Some podCIDR))))
                     (λ e, pfail (ErrV ("error when releasing CIDR " +:+ cidr +:+ ": ") e))
        end)
  end.
End threads.

(** ** Alone, a thread is the sequential code *)

Section sequential.
Context (K : Kube).

Lemma occupyCIDRs_run node r : prun (occupyCIDRs_proc K node) r = occupyCIDRs K node r.
Proof. unfold occupyCIDRs_proc, occupyCIDRs. go_run. Qed.

Lemma release_all_run l r : prun (release_all_proc l) r = release_all l r.
Proof. unfold release_all_proc, release_all. go_run. Qed.

Lemma updateCIDRsAllocation_run name l r :
  prun (updateCIDRsAllocation_proc K name l) r = updateCIDRsAllocation K name l r.
Proof.
  pose proof release_all_run. pose proof (patch_attempts_run (S := rangeAllocator) K).
  unfold updateCIDRsAllocation_proc, updateCIDRsAllocation. go_run.
Qed.

Lemma allocate_each_run node n idx r :
  prun (allocate_each_proc node n idx) r = allocate_each node n idx r.
Proof. revert idx r. induction n as [|n IH]; cbn [allocate_each_proc allocate_each]; go_run. Qed.
End sequential.

(** A worker that is not interrupted does what the sequential model says: run
    alone from any state, the atomic steps of [AllocateOrOccupyCIDR] and
    [ReleaseCIDR] have the same result and leave the same state as the operations
    of [RangeAllocator]. *)
Theorem range_steps_sequential K node r :
  prun (AllocateOrOccupyCIDR_proc K node) r = range_AllocateOrOccupyCIDR K node r ∧
  prun (ReleaseCIDR_proc K node) r = range_ReleaseCIDR K node r.
Proof.
  pose proof (occupyCIDRs_run K). pose proof allocate_each_run. pose proof (updateCIDRsAllocation_run K).
  split; destruct node as [node|]; [|done| |done];
    unfold AllocateOrOccupyCIDR_proc, range_AllocateOrOccupyCIDR, ReleaseCIDR_proc, range_ReleaseCIDR; go_run.
Qed.
