(* ===== verification/RangeConcurrentSafety.v ===== *)
(** * Workers of the range allocator that interleave

    The threads of [RangeConcurrent] keep to the discipline of [Ownership]: a token is
    a node network, by the index of its set and its position there.  Networks that a
    stray release names are owned by nobody: what is marked of the others is safe. *)

From S2P Require Import Prelude GoNet CidrSet CidrSetGeometry CidrSetSpec CidrPool Kube CidrAllocator.
From S2P Require Import RangeAllocator RangeAllocatorSpec Interleaving Ownership RangeConcurrent.

Local Open Scope go_scope.

(** A node network: the index of its set and its position there. *)
Notation token := (nat * Z)%type.

(** Any number of workers on one allocator. *)
Notation sys_step K :=
  (system_step (λ node, AllocateOrOccupyCIDR_proc K (Some node)) (λ node, ReleaseCIDR_proc K (Some node))).

Section safety.
Context (ls : places) (r0 : rangeAllocator) (Hr0 : ra_ok ls r0).
(* the cluster, and the nodes that are released without an assignment *)
Context (K : Kube) (S : list Node).

(** In order, and configured as the allocator the system started with. *)
Definition good (r : rangeAllocator) : Prop :=
  ra_ok ls r ∧ config <$> cidrSets r = config <$> cidrSets r0.

Definition marked (r : rangeAllocator) (t : token) : Prop :=
  ∃ s, cidrSets r !! t.1 = Some s ∧ Z.testbit (used s) t.2 = true.

(** Nothing to report about the state itself. *)
Definition calm (r : rangeAllocator) : Prop := True.

(** [x] is the network of the token [t]. *)
Definition tok_net (t : token) (x : IPNet) : Prop :=
  ∃ f c s, ls !! t.1 = Some (f, c) ∧ cidrSets r0 !! t.1 = Some s ∧ 0 ≤ t.2 < maxCIDRs s ∧
    x = mk_net f (block_base f c s t.2) (nodeMaskSize s).

(** No stray release names the token's network, and it is marked. *)
Definition clean (t : token) : Prop := ∀ x, tok_net t x → ¬ disturbed K S x.
Definition marked_clean (r : rangeAllocator) (t : token) : Prop := marked r t ∧ clean t.

(** Networks and their clean tokens, the first from the set [idx]. *)
Inductive named : nat → list (option IPNet) → list token → Prop :=
  | named_nil idx : named idx [] []
  | named_cons idx i x l toks :
      tok_net (idx, i) x → named (Datatypes.S idx) l toks → named idx (Some x :: l) ((idx, i) :: toks)
  | named_lost idx i x l toks :
      tok_net (idx, i) x → disturbed K S x → named (Datatypes.S idx) l toks → named idx (Some x :: l) toks.

Definition assigned (a : string * list string) (toks : list token) : Prop :=
  ∃ l, a.2 = ipnetToStringList l ∧ named 0 l toks.

Notation holds := (owned marked_clean).
Notation trans := (Ownership.trans good marked_clean assigned).
Notation wpt := (wp good calm holds trans).

Lemma tok_net_inj t x y : tok_net t x → tok_net t y → x = y.
Proof.
  intros (f & c & s & El & E0 & _ & ->) (f' & c' & s' & El' & E0' & _ & ->).
  rewrite El in El'. injection El' as <- <-. rewrite E0 in E0'. by injection E0' as <-.
Qed.

Lemma undisturbed_clean t x : tok_net t x → ¬ disturbed K S x → clean t.
Proof. intros Hx Hd y Hy. by rewrite (tok_net_inj t y x Hy Hx). Qed.

(** Different tokens of a set have networks that share no address. *)
Lemma tok_net_clear idx i j x y : i ≠ j → tok_net (idx, i) x → tok_net (idx, j) y → clear_nets x y.
Proof using Hr0.
  intros Hij (f & c & s0 & El & E0 & Hi & ->) (f' & c' & s0' & El' & E0' & Hj & ->). cbn [fst snd] in *.
  rewrite El in El'. injection El' as <- <-. rewrite E0 in E0'. injection E0' as <-.
  pose proof (wf_geom _ _ _ (ra_wf ls r0 idx f c s0 Hr0 El E0)) as HG.
  exists f, (block_base f c s0 i), (nodeMaskSize s0), f, (block_base f c s0 j), (nodeMaskSize s0).
  split_and!; [done|by apply block_canon|done|by apply block_canon|]. intros _. by apply blocks_disjoint.
Qed.

(** ** Steps *)

Lemma range_actions : action_laws good marked_clean.
Proof. split; [done| |done]. intros a r [[Hs Hc] E]. by split; [split|]. Qed.

Lemma good_set r idx s : good r → cidrSets r !! idx = Some s →
  ∃ f c s0, ls !! idx = Some (f, c) ∧ cidrSets r0 !! idx = Some s0 ∧ config s = config s0 ∧ wf f c s.
Proof.
  intros [Hr E] Hs. destruct (Forall2_lookup_r _ _ _ _ _ (ok_sets _ _ Hr) Hs) as ([f c] & El & Hw).
  assert ((config <$> cidrSets r) !! idx = Some (config s)) as Hc by by rewrite list_lookup_fmap, Hs.
  rewrite E, list_lookup_fmap, fmap_Some in Hc. destruct Hc as (s0 & E0 & Ec). by exists f, c, s0.
Qed.

Lemma good_on_set {A} r idx (op : CidrSet → outcome A * CidrSet) :
  set_op_safe op → good r → good (on_set idx op r).2.
Proof.
  intros Hop [Hr E]. destruct (on_set_steps ls idx op Hop r Hr) as (Hr' & E' & _).
  split; [done|]. by rewrite E', E.
Qed.

Lemma on_set_eq {A} r idx s (op : CidrSet → outcome A * CidrSet) :
  cidrSets r !! idx = Some s →
  on_set idx op r = ((op s).1, with_cidrSets r (<[idx := (op s).2]> (cidrSets r))).
Proof. intros E. unfold on_set. rewrite E. by destruct (op s). Qed.

Lemma marked_insert r idx s s' t : cidrSets r !! idx = Some s →
  marked (with_cidrSets r (<[idx := s']> (cidrSets r))) t ↔
  (t.1 = idx ∧ Z.testbit (used s') t.2 = true) ∨ (t.1 ≠ idx ∧ marked r t).
Proof.
  intros Es. apply lookup_lt_Some in Es as Hlt. unfold marked. cbn [with_cidrSets cidrSets].
  destruct (decide (t.1 = idx)) as [->|Hne].
  - rewrite list_lookup_insert_eq by done. naive_solver.
  - rewrite list_lookup_insert_ne by done. naive_solver.
Qed.

(** ** Rules for the atomic operations *)

Lemma good_insert {A} r idx s (op : CidrSet → outcome A * CidrSet) :
  set_op_safe op → good r → cidrSets r !! idx = Some s →
  good (with_cidrSets r (<[idx := (op s).2]> (cidrSets r))).
Proof. intros Hop Hg Es. pose proof (good_on_set r idx op Hop Hg) as H. by rewrite (on_set_eq r idx s op Es) in H. Qed.

(** An operation on a set outside the list panics and changes nothing. *)
Lemma wp_on_set {A} idx (op : CidrSet → outcome A * CidrSet) own (Q : outcome A → list token → Prop) :
  Q Panic own →
  (∀ r s, good r → holds own r → cidrSets r !! idx = Some s →
     ∃ own', trans own r own' (with_cidrSets r (<[idx := (op s).2]> (cidrSets r))) ∧ Q (op s).1 own') →
  wpt (patom (on_set idx op)) own Q.
Proof.
  intros Hp H. apply wp_atom. intros r Hg Hh _. destruct (cidrSets r !! idx) as [s|] eqn:Es.
  - rewrite (on_set_eq r idx s op Es). by apply H.
  - unfold on_set. rewrite Es. exists own. split; [by apply trans_refl|done].
Qed.

Lemma wp_occupy idx n own (Q : outcome unit → list token → Prop) :
  (∀ o, Q o own) → wpt (patom (on_set idx (λ s, Occupy s n))) own Q.
Proof.
  intros HQ. apply wp_on_set; [done|]. intros r s Hg Hh Es. exists own. split; [|done].
  apply trans_quiet; [done| | |by rewrite fresh_same].
  - by apply (good_insert r idx s (λ s, Occupy s n) (Occupy_safe n)).
  - intros t [Ht Hcl]. split; [|done].
    rewrite (marked_insert r idx s) by done. destruct (decide (t.1 = idx)) as [Ei|]; [|by right].
    left. split; [done|]. destruct Ht as (s1 & E1 & Hb). rewrite Ei, Es in E1. injection E1 as <-.
    by apply Occupy_keeps.
Qed.

Lemma config_tok r idx s f c s0 i : config s = config s0 → wf f c s → ls !! idx = Some (f, c) →
  cidrSets r0 !! idx = Some s0 → cidrSets r !! idx = Some s → 0 ≤ i < maxCIDRs s →
  tok_net (idx, i) (mk_net f (block_base f c s i) (nodeMaskSize s)).
Proof.
  intros Ec Hw El E0 Es Hi. exists f, c, s0. cbn [fst snd]. split_and!; [done..| | |].
  - lia.
  - pose proof (config_maxCIDRs _ _ Ec). lia.
  - by rewrite (block_base_config f c s0 s i Ec), (config_nodeMaskSize _ _ Ec).
Qed.

Lemma wp_allocate idx own (Q : outcome IPNet → list token → Prop) :
  Q Panic own → (∀ e, Q (Err e) own) →
  (∀ i x, tok_net (idx, i) x → Q (Ok x) (own ++ [(idx, i)])) →
  (∀ i x, tok_net (idx, i) x → disturbed K S x → Q (Ok x) own) →
  wpt (patom (on_set idx AllocateNext)) own Q.
Proof.
  intros Hp He HQ HQ'. apply wp_on_set; [done|]. intros r s Hg Hh Es.
  destruct (good_set r idx s Hg Es) as (f & c & s0 & El & E0 & Ec & Hw).
  pose proof (good_insert r idx s AllocateNext AllocateNext_safe Hg Es) as Hg'.
  destruct (full_dec f c s Hw) as [Hfull|Hfree].
  { rewrite (AllocateNext_full f c s Hw Hfull) in *. cbn [fst snd] in *. exists own. split; [|done].
    apply trans_quiet; [done..| |by rewrite fresh_same]. intros t [(s1 & E1 & Hb) Hcl]. split; [|done].
    exists s1. split; [|done]. cbn. by rewrite list_insert_id. }
  destruct (AllocateNext_free f c s Hw Hfree) as (i & s' & E & Ha). rewrite E in *. cbn [fst snd] in *.
  destruct (all_first _ _ _ _ _ Ha) as (Hi & Hb & _).
  assert (¬ marked r (idx, i)) as Hfresh.
  { intros (s1 & E1 & Hb1). cbn [fst snd] in *. rewrite Es in E1. injection E1 as <-. congruence. }
  assert (∀ t, marked r t ∨ t = (idx, i) → marked (with_cidrSets r (<[idx:=s']> (cidrSets r))) t) as Hk.
  { intros t Ht. rewrite (marked_insert r idx s) by done.
    destruct (decide (t.1 = idx)) as [Ei|Hn]; [|right; destruct Ht as [?| -> ]; done].
    left. split; [done|]. apply (all_used _ _ _ _ _ Ha). destruct Ht as [(s1 & E1 & Hb1)| -> ]; [|by left].
    rewrite Ei, Es in E1. injection E1 as <-. by right. }
  assert (tok_net (idx, i) (mk_net f (block_base f c s i) (nodeMaskSize s))) as Htok
    by by apply (config_tok r idx s f c s0 i).
  assert (∀ t, marked_clean r t → marked_clean (with_cidrSets r (<[idx:=s']> (cidrSets r))) t) as Hkc.
  { intros t [Ht Hcl]. split; [|done]. apply Hk. by left. }
  destruct (decide (disturbed K S (mk_net f (block_base f c s i) (nodeMaskSize s)))) as [Hd|Hd].
  - exists own. split; [|by apply (HQ' i)]. by apply trans_quiet; [..|rewrite fresh_same].
  - exists (own ++ [(idx, i)]). split; [|by apply HQ].
    apply trans_take; [done..| | |done]; [by intros [? _]|]. split; [by apply Hk; right|]. by eapply undisturbed_clean.
Qed.

(** Releasing a network that is clear of those of the clean tokens. *)
Lemma wp_release_clear idx n own (Q : outcome unit → list token → Prop) :
  (∀ t y, t.1 = idx → clean t → tok_net t y → clear_nets y n) → (∀ o, Q o own) →
  wpt (patom (on_set idx (λ s, Release s (Some n)))) own Q.
Proof.
  intros Hclear HQ. apply wp_on_set; [done|]. intros r s Hg Hh Es. exists own. split; [|done].
  apply trans_quiet; [done| | |by rewrite fresh_same].
  - by apply (good_insert r idx s (λ s, Release s (Some n)) (Release_safe (Some n))).
  - intros t [Ht Hcl]. split; [|done].
    rewrite (marked_insert r idx s) by done. destruct (decide (t.1 = idx)) as [Ei|]; [|by right].
    left. split; [done|]. destruct Ht as (s1 & E1 & Hb). rewrite Ei, Es in E1. injection E1 as <-.
    destruct (good_set r idx s Hg Es) as (f & c & s0 & El & E0 & Ec & Hw).
    pose proof (wf_used _ _ _ Hw _ Hb) as Hi. destruct t as [k i]. cbn [fst snd] in *. subst k.
    destruct (Hclear (idx, i) _ eq_refl Hcl (config_tok r idx s f c s0 i Ec Hw El E0 Es Hi))
      as (f1 & a & m & f' & b & m' & E & Ha & -> & Hn & Hno).
    apply mk_net_inj in E as (<- & <- & <-); [|by apply block_canon; [apply Hw|]|done].
    by apply (Release_keeps f c s f').
Qed.

Lemma wp_release idx i x own (Q : outcome unit → list token → Prop) :
  tok_net (idx, i) x → (∀ o, Q o own) →
  wpt (patom (on_set idx (λ s, Release s (Some x)))) ((idx, i) :: own) Q.
Proof.
  intros (f & c & s0 & El & E0 & Hi & ->) HQ. cbn [fst snd] in *.
  apply wp_atom. intros r Hg Hh _. exists own. split; [|by apply HQ].
  destruct (cidrSets r !! idx) as [s|] eqn:Es.
  2:{ unfold on_set. rewrite Es. cbn [snd]. destruct Hh as [[Hni Hnd]%NoDup_cons Hm].
      destruct (Hm (idx, i)) as [(s & E & _) _]; [by left|]. cbn in E. congruence. }
  destruct (good_set r idx s Hg Es) as (f' & c' & s0' & El' & E0' & Ec & Hw).
  rewrite El in El'. injection El' as <- <-. rewrite E0 in E0'. injection E0' as <-.
  rewrite (on_set_eq r idx s _ Es). cbn [snd].
  pose proof (good_insert r idx s (λ s, Release s _) (Release_safe (Some (mk_net f (block_base f c s0 i) (nodeMaskSize s0)))) Hg Es) as Hg'.
  rewrite <- (block_base_config f c s0 s i Ec), <- (config_nodeMaskSize _ _ Ec) in *.
  pose proof (config_maxCIDRs _ _ Ec) as Emax. cbn beta in *.
  assert (∀ j, 0 ≤ j < maxCIDRs s → Z.testbit (used s) j = true → j ≠ i →
    Z.testbit (used (Release s (Some (mk_net f (block_base f c s i) (nodeMaskSize s)))).2) j = true) as Hk.
  { intros j Hj Hb Hne. apply (Release_keeps f c s f); [done|apply block_canon; [apply Hw|lia]|done| |done].
    intros _. apply blocks_disjoint; [apply Hw|done]. }
  assert (∀ t, marked_clean r t → t ≠ (idx, i) → marked_clean (with_cidrSets r (<[idx:=(Release s (Some (mk_net f (block_base f c s i) (nodeMaskSize s)))).2]> (cidrSets r))) t) as Hk'.
  { intros [k j] [Ht Hcl] Hne. split; [|done]. rewrite (marked_insert r idx s) by done. cbn [fst snd].
    destruct (decide (k = idx)) as [-> |]; [|by right]. left. split; [done|].
    destruct Ht as (s1 & E1 & Hb). cbn [fst snd] in *. rewrite Es in E1. injection E1 as <-.
    apply Hk; [by apply (wf_used _ _ _ Hw)|done|congruence]. }
  by apply (trans_drop good marked_clean assigned).
Qed.

(** Giving back a network of the thread's, owned or lost to a stray release. *)
Lemma wp_release_named idx x l toks (Q : outcome unit → list token → Prop) :
  named idx (Some x :: l) toks → (∀ o own, named (Datatypes.S idx) l own → Q o own) →
  wpt (patom (on_set idx (λ s, Release s (Some x)))) toks Q.
Proof using Hr0.
  intros H HQ. inversion H as [|? i y l' toks' Hy Hl|? i y l' toks' Hy Hd Hl]; subst.
  - apply wp_release; [done|]. intros o. by apply HQ.
  - apply wp_release_clear; [|intros o; by apply HQ]. intros [k j] z Ek Hcl Hz. cbn in Ek. subst k.
    apply (tok_net_clear idx j i); [|done..]. intros ->. by apply (Hcl x).
Qed.

(** ** The operations *)

(** Whatever a thread does in the end, every step on the way was a transition. *)
Notation safe p own := (wpt p own (λ _ _, True)).

Lemma occupyCIDRs_safe node own : safe (occupyCIDRs_proc K node) own.
Proof.
  apply (wp_foreachi _ _ _ _ (λ _ _ _, True)); [done| |done]. intros i cidr l own' _.
  destruct (ParseCIDRSloppy K cidr) as [e|n]; [done|]. apply wp_bind, wp_get. intros r _. cbn [after_bind].
  destruct (_ <=? _)%nat; [done|]. apply wp_catch, wp_occupy. by intros [].
Qed.

Lemma release_all_safe l toks : named 0 l toks → safe (release_all_proc l) toks.
Proof using Hr0.
  intros Hn. apply (wp_foreachi _ _ _ _ named); [done| |done]. intros i cidr l' own H.
  assert (∃ x, cidr = Some x) as [x ->] by (inversion H; by eexists).
  apply wp_catch, (wp_release_named i x l' own); [done|]. by intros [] ? ?.
Qed.

Lemma ReleaseCIDR_safe node toks :
  (∀ t x, tok_net t x → ParseCIDRSloppy K (IPNet_String (Some x)) = inr x) →
  assigned (Name node, PodCIDRs node) toks → safe (ReleaseCIDR_proc K (Some node)) toks.
Proof using Hr0.
  intros HK (l & El & Hn). cbn [snd] in El.
  apply (wp_foreachi _ _ _ _ (λ i strs own, ∃ l, strs = ipnetToStringList l ∧ named i l own)); [by exists l| |done].
  intros i cidr strs own (l' & E & H). destruct l' as [|o l']; [done|].
  assert (∃ x j, o = Some x ∧ tok_net (i, j) x) as (x & j & -> & Hx) by (inversion H; by eexists _, _).
  assert (cidr = IPNet_String (Some x) ∧ strs = ipnetToStringList l') as [-> ->] by by injection E.
  rewrite (HK _ _ Hx). apply wp_bind, wp_get. intros r _. cbn [after_bind].
  destruct (_ <=? _)%nat; [done|]. apply wp_catch, (wp_release_named i x l' own); [done|].
  intros [] ? ?; [by exists l'|done..].
Qed.

(** A release that was recorded as stray harms no clean token. *)
Lemma stray_safe node : node ∈ S → safe (ReleaseCIDR_proc K (Some node)) [].
Proof.
  intros Hn. apply (wp_foreachi _ _ _ _ (λ _ strs own, own = [] ∧ ∀ cidr, cidr ∈ strs → cidr ∈ PodCIDRs node)); [done| |done].
  intros i cidr strs own [-> Hin]. destruct (ParseCIDRSloppy K cidr) as [e|n] eqn:En; [done|].
  apply wp_bind, wp_get. intros r _. cbn [after_bind]. destruct (_ <=? _)%nat; [done|]. apply wp_catch, wp_release_clear.
  - intros t y _ Hcl Hy. apply (undisturbed K S y node cidr n); [by apply Hcl|done| |done]. apply Hin. by left.
  - intros []; cbn [after_catch]; [|done..]. split; [done|]. intros c Hc. apply Hin. by right.
Qed.

Lemma allocate_each_wp node n idx own :
  wpt (allocate_each_proc node n idx) own (λ o own', match o with
    | Ok l => ∃ toks, own' = own ++ toks ∧ named idx l toks
    | _ => True end).
Proof.
  revert idx own. induction n as [|n IH]; intros idx own; cbn [allocate_each_proc].
  { exists []. rewrite app_nil_r. split; [done|constructor]. }
  apply wp_bind, wp_catch, wp_allocate; [done| | |].
  - intros e. cbn [after_catch]. by apply wp_bind, (wp_emit _ _ _ _ range_actions).
  - intros i x Hx. cbn [after_catch after_bind]. apply wp_bind. eapply wp_mono; [|apply IH].
    intros [l|e|] own'; [|done..]. intros (toks & -> & Hl). exists ((idx, i) :: toks).
    rewrite <- app_assoc. split; [done|by constructor].
  - intros i x Hx Hd. cbn [after_catch after_bind]. apply wp_bind. eapply wp_mono; [|apply IH].
    intros [l|e|] own'; [|done..]. intros (toks & -> & Hl). exists toks. split; [done|by eapply named_lost].
Qed.

Lemma updateCIDRsAllocation_safe name l toks :
  named 0 l toks → safe (updateCIDRsAllocation_proc K name l) toks.
Proof using Hr0.
  intros Hl. unfold updateCIDRsAllocation_proc. apply wp_bind, (wp_lister _ _ _ _ range_actions). intros [node|e|]; [|done..].
  cbn [after_bind]. destruct (_ && _); [done|]. destruct (negb _); [by apply release_all_safe|].
  apply wp_bind. eapply wp_mono; [|apply (patch_attempts_wp _ _ _ _ range_actions); by exists l]. intros [[err|]|e|] own'; [|done..]. intros ->.
  cbn [after_bind]. apply wp_bind, (wp_emit _ _ _ _ range_actions); [done|]. cbn [after_bind]. apply wp_bind.
  destruct (IsServerTimeout K err); [done|]. eapply wp_mono; [|by apply release_all_safe]. by intros [].
Qed.

Lemma AllocateOrOccupyCIDR_safe node : safe (AllocateOrOccupyCIDR_proc K (Some node)) [].
Proof using Hr0.
  unfold AllocateOrOccupyCIDR_proc. destruct (_ <? _)%nat; [apply occupyCIDRs_safe|].
  apply wp_bind, wp_get. intros r _. cbn [after_bind]. apply wp_bind. eapply wp_mono; [|apply allocate_each_wp].
  intros [l|e|] own'; [|done..]. intros (toks & -> & Hl). by apply updateCIDRsAllocation_safe.
Qed.
(** ** The system's invariant *)

Context (reads_back : ∀ t x, tok_net t x → ParseCIDRSloppy K (IPNet_String (Some x)) = inr x).

#[local] Instance any_preorder : PreOrder (λ _ _ : rangeAllocator, True).
Proof. by split. Qed.
Lemma psteps_any {A} (p : proc rangeAllocator A) : psteps (λ _ _, True) p.
Proof. induction p as [o|m IH]; [done|]. intros s. specialize (IH s). by destruct (m s). Qed.

Lemma range_reach_ok sys :
  rtc (sys_step K) (mkSystem [] r0 [] []) sys → (∀ node, node ∈ strays sys → node ∈ S) →
  ∃ owns cms, sys_ok good calm marked_clean assigned r0 sys owns cms.
Proof using reads_back Hr0.
  intros Hrun Hst.
  apply (sys_reach_ok good calm marked_clean assigned r0
           (λ node, AllocateOrOccupyCIDR_proc K (Some node)) (λ node, ReleaseCIDR_proc K (Some node))
           AllocateOrOccupyCIDR_safe (λ node toks, ReleaseCIDR_safe node toks reads_back) S stray_safe
           (λ _ _, True) (λ _ _ _ _, I) (λ _, psteps_any _) (λ _, psteps_any _) (mkSystem [] r0 [] []) sys [] []);
    [|done..]. by apply sys_start_ok.
Qed.
End safety.
