(* ===== verification/RangeConcurrentTheorems.v ===== *)
(** * Concurrent workers of the range allocator never share a network

    The system of [RangeConcurrentSafety] from a freshly made allocator, with an
    executable scheduler for concrete interleavings. *)

From S2P Require Import Prelude GoNet CidrSet CidrSetGeometry CidrSetSpec CidrPool Kube CidrAllocator.
From S2P Require Import RangeAllocator RangeAllocatorSpec RangeAllocatorTheorems Interleaving RangeConcurrent.
From S2P Require Import Ownership RangeConcurrentSafety.

Local Open Scope go_scope.

Lemma named_nets ls r0 K S idx l toks : named ls r0 K S idx l toks →
  ∃ nets, l = map Some nets ∧
    ∀ k x, nets !! k = Some x → ∃ i, tok_net ls r0 ((idx + k)%nat, i) x ∧
      (disturbed K S x ∨ ((idx + k)%nat, i) ∈ toks).
Proof.
  induction 1 as [idx|idx i x l toks Hx _ (nets & -> & IH)|idx i x l toks Hx Hd _ (nets & -> & IH)].
  { exists []. split; [done|]. intros k x Hk. by rewrite lookup_nil in Hk. }
  all: exists (x :: nets); split; [done|]; intros [|k] y; cbn [lookup list_lookup].
  1,3: intros [= <-]; exists i; rewrite Nat.add_0_r; split; [done|]; first [by left|right; by left].
  all: intros Hk; destruct (IH k y Hk) as (j & Hj & [?|Hin]); exists j; rewrite Nat.add_succ_r;
    (split; [done|]); first [by left|right; set_solver].
Qed.

(** [x] is a node network of the set [idx], marked in [r], and was free in [r0]. *)
Definition held (ls : places) (r0 r : rangeAllocator) (idx : nat) (x : IPNet) : Prop :=
  ∃ f c s0 s i, ls !! idx = Some (f, c) ∧ cidrSets r0 !! idx = Some s0 ∧ cidrSets r !! idx = Some s ∧
    x = mk_net f (block_base f c s0 i) (nodeMaskSize s0) ∧
    Z.testbit (used s) i = true ∧ Z.testbit (used s0) i = false.

Lemma tok_net_held ls r0 K sys owns cms idx i x :
  sys_ok (good ls r0) calm (marked_clean ls r0 K (strays sys)) (assigned ls r0 K (strays sys)) r0 sys owns cms →
  ¬ disturbed K (strays sys) x → (idx, i) ∈ concat owns ++ concat cms → tok_net ls r0 (idx, i) x →
  held ls r0 (shared sys) idx x.
Proof.
  intros H Hd Hin Hx. destruct (sys_marked _ _ _ _ _ _ _ _ H _ Hin) as [(s & Es & Hb) _].
  pose proof (undisturbed_clean _ _ _ _ _ _ Hx Hd) as Hcl.
  destruct Hx as (f & c & s0 & El & E0 & Hi & ->). cbn [fst snd] in *. exists f, c, s0, s, i. split_and!; [done..|].
  destruct (Z.testbit (used s0) i) eqn:E; [|done].
  destruct (sys_first _ _ _ _ _ _ _ _ H (idx, i)) as [_ Hn]; [|done]. split; [by exists s0|done].
Qed.

(** Parsing the text of a node network of the allocator gives that network. *)
Definition reads_blocks (K : Kube) (ls : places) (r0 : rangeAllocator) : Prop :=
  ∀ t x, tok_net ls r0 t x → ParseCIDRSloppy K (IPNet_String (Some x)) = inr x.

(** C9. Concurrent workers give no two nodes a common address: let any number of
    goroutines allocate for any nodes and release any node objects, those that hold an
    assignment and others, with their atomic steps in any order and any answers of the
    informer cache and the API server.  In every state that can be reached the
    allocator is in order, and for the accepted assignments that are not being
    released: each network is marked in its set and was free at the start, and two
    such assignments have disjoint networks in every range.  The one exception are
    networks that meet a network named by a stray release, one that was started
    without taking an assignment out of the accepted ones (a node that is released a
    second time, or whose networks were assigned to others): these may be unmarked,
    and then two nodes may hold the same one. *)
Theorem range_concurrent_never_share K ls r0 sys :
  ra_ok ls r0 → reads_blocks K ls r0 → rtc (sys_step K) (mkSystem [] r0 [] []) sys →
  ra_ok ls (shared sys) ∧
  ∀ j a, live sys !! j = Some a →
    ∃ nets, a.2 = ipnetToStringList (map Some nets) ∧
      (∀ idx x, nets !! idx = Some x → disturbed K (strays sys) x ∨ held ls r0 (shared sys) idx x) ∧
      ∀ k b, live sys !! k = Some b → j ≠ k →
        ∃ nets', b.2 = ipnetToStringList (map Some nets') ∧
          ∀ idx x y, nets !! idx = Some x → nets' !! idx = Some y →
            clear_nets x y ∨ x = y ∧ disturbed K (strays sys) x.
Proof.
  intros Hr HK Hrun. set (S := strays sys).
  destruct (range_reach_ok ls r0 Hr K S HK sys Hrun (λ _ H, H)) as (owns & cms & H).
  split; [apply (sys_good _ _ _ _ _ _ _ _ H)|]. intros j a Ha.
  destruct (Forall2_lookup_l _ _ _ _ _ (sys_live _ _ _ _ _ _ _ _ H) Ha) as (toks & Et & l & El & Hn).
  destruct (named_nets ls r0 K S 0 l toks Hn) as (nets & -> & Hnets). exists nets. split_and!; [done| |].
  - intros idx x Hx. destruct (decide (disturbed K S x)) as [|Hd]; [by left|right].
    destruct (Hnets idx x Hx) as (i & Hi & [?|Hin]); [done|].
    apply (tok_net_held ls r0 K sys owns cms idx i); [done..| |done].
    apply elem_of_app. right. by eapply elem_of_concat_lookup.
  - intros k b Hb Hjk.
    destruct (Forall2_lookup_l _ _ _ _ _ (sys_live _ _ _ _ _ _ _ _ H) Hb) as (toks' & Et' & l' & El' & Hn').
    destruct (named_nets ls r0 K S 0 l' toks' Hn') as (nets' & -> & Hnets'). exists nets'. split; [done|].
    intros idx x y Hx Hy. destruct (Hnets idx x Hx) as (i & Hi & Hin). destruct (Hnets' idx y Hy) as (i' & Hi' & Hin').
    destruct (decide (i = i')) as [<-|Hne]; [|left; by apply (tok_net_clear ls r0 Hr idx i i')].
    right. rewrite (tok_net_inj _ _ _ _ _ Hi' Hi) in *. split; [done|].
    destruct Hin as [|Hin]; [done|]. destruct Hin' as [|Hin']; [done|]. exfalso.
    pose proof (sys_once _ _ _ _ _ _ _ _ H) as (_ & _ & Hnd)%NoDup_app.
    exact (NoDup_concat_lookup cms j k toks toks' _ Hnd Et Et' Hjk Hin Hin').
Qed.

(** ** A concrete interleaving *)

(** Two workers serve nodes [a] and [b] in turns, one step each. *)
Definition demo_start : system rangeAllocator :=
  mkSystem (map (λ n, AllocateOrOccupyCIDR_proc demoK (Some (demo_node n []))) ["a"; "b"]) demo_ra [] [].
Definition demo_turns : system rangeAllocator := foldl run_thread demo_start [0; 1; 0; 1; 1; 0; 0; 1]%nat.

Lemma demo_turns_live : live demo_turns = [("b", ["10.0.0.4/30"]); ("a", ["10.0.0.0/30"])].
Proof. vm_compute. reflexivity. Qed.

Lemma demo_turns_reach : rtc (sys_step demoK) (mkSystem [] demo_ra [] []) demo_turns.
Proof.
  eapply rtc_l; [apply (step_allocate _ _ _ (demo_node "a" []))|].
  eapply rtc_l; [apply (step_allocate _ _ _ (demo_node "b" []))|].
  exact (run_threads_reach _ _ _ demo_start).
Qed.

Lemma demo_turns_strays : strays demo_turns = [].
Proof. vm_compute. reflexivity. Qed.

Lemma demo_reads K r s :
  ParseCIDRSloppy K = demo_parse → cidrSets r !! 0%nat = Some s → maxCIDRs s = 2 → nodeMaskSize s = 30 →
  reads_blocks K [(V4, demo_base)] r.
Proof.
  intros HK Es' Hm Hn [idx i] x (f & c & s' & El & Es & Hi & ->). cbn [fst snd] in *.
  destruct idx as [|idx]; [|done]. injection El as <- <-. rewrite Es in Es'. injection Es' as ->.
  unfold block_base, block_size. rewrite HK, Hn. rewrite Hm in Hi.
  assert (i = 0 ∨ i = 1) as [-> | ->] by lia; vm_compute; reflexivity.
Qed.

Lemma demo_reads_blocks : reads_blocks demoK [(V4, demo_base)] demo_ra.
Proof. eapply demo_reads; [reflexivity|vm_compute; reflexivity|reflexivity..]. Qed.

Lemma range_concurrent_never_share_witness :
  ∃ nets nets', ["10.0.0.4/30"] = ipnetToStringList (map Some nets) ∧
    ["10.0.0.0/30"] = ipnetToStringList (map Some nets') ∧
    ∀ idx x y, nets !! idx = Some x → nets' !! idx = Some y → clear_nets x y.
Proof.
  destruct (range_concurrent_never_share demoK [(V4, demo_base)] demo_ra demo_turns demo_ra_ok
              demo_reads_blocks demo_turns_reach) as [_ H].
  destruct (H 0%nat ("b", ["10.0.0.4/30"])) as (nets & E & _ & H').
  - rewrite demo_turns_live. reflexivity.
  - destruct (H' 1%nat ("a", ["10.0.0.0/30"])) as (nets' & E' & H'').
    + rewrite demo_turns_live. reflexivity.
    + discriminate.
    + exists nets, nets'. split; [exact E|]. split; [exact E'|]. intros idx x y Hx Hy.
      destruct (H'' idx x y Hx Hy) as [Hc|[_ Hd]]; [exact Hc|]. rewrite demo_turns_strays in Hd.
      exfalso. inversion Hd.
Defined.
