(* ===== verification/RangeReleaseTwice.v ===== *)
(** * A node that is released twice

    A node with a finalizer is released by a worker when it is marked for deletion
    and again by the informer's handler when it is gone; in between its networks may
    have been assigned to other nodes. *)

From S2P Require Import Prelude GoNet CidrSet CidrSetGeometry CidrSetSpec CidrPool Kube CidrAllocator.
From S2P Require Import RangeAllocator RangeAllocatorSpec RangeAllocatorRuns RangeAllocatorInit RangeAllocatorTheorems RangeWorkers.
From S2P Require Import Interleaving Ownership RangeConcurrent RangeConcurrentSafety RangeConcurrentTheorems.

Local Open Scope go_scope.

Lemma releasable_evolves K ls r r' idx cidr :
  ra_ok ls r → evolves ls r r' → releasable K ls r idx cidr → releasable K ls r' idx cidr.
Proof.
  intros Hr He (f & c & s & b & m & El & Es & Ep & Hcan & Ho).
  destruct (evolves_lookup ls r r' idx s Hr He Es) as (s' & Es' & Hc).
  exists f, c, s', b, m. by rewrite (config_clusterMaskSize _ _ Hc).
Qed.

(** Releasing a node frees the node networks it names. *)
Lemma release_frees K ls r node idx f c s i :
  ra_ok ls r → (∀ k cidr, PodCIDRs node !! k = Some cidr → releasable K ls r k cidr) →
  ls !! idx = Some (f, c) → cidrSets r !! idx = Some s → 0 ≤ i < maxCIDRs s →
  let net := mk_net f (block_base f c s i) (nodeMaskSize s) in
  PodCIDRs node !! idx = Some (IPNet_String (Some net)) → ParseCIDRSloppy K (IPNet_String (Some net)) = inr net →
  ∃ r' s', range_ReleaseCIDR K (Some node) r = (Ok tt, r') ∧ ra_ok ls r' ∧ actions r' = actions r ∧
    cidrSets r' !! idx = Some s' ∧ wf f c s' ∧ config s' = config s ∧ Z.testbit (used s') i = false.
Proof.
  intros Hr Hrel El Es Hi net Epod Enet. pose proof (ra_wf _ _ _ _ _ _ Hr El Es) as Hw.
  destruct (release_loop_exact K ls node (PodCIDRs node) 0 r Hr Hrel) as (r' & E & Hr' & Ha & _ & Hat).
  specialize (Hat idx). cbn in Hat. rewrite Epod in Hat.
  destruct Hat as (f' & c' & t & t' & b & m & El' & Et & Et' & Ep & Hcb & Hu).
  rewrite El in El'. injection El' as <- <-. rewrite Es in Et. injection Et as <-. rewrite Enet in Ep.
  apply (inj inr), mk_net_inj in Ep as (_ & <- & <-); [|by apply block_canon; [apply Hw|]|done].
  exists r', t'. split_and!; [exact E|done|done|done|apply Hu|apply Hu|].
  apply not_true_iff_false. intros [_ Hno]%(upd_used _ _ _ _ _ Hu i Hi). apply Hno.
  exists (block_base f c s i). pose proof (pow2_pos (width f - nodeMaskSize s)). pose proof (canon_mask _ _ _ Hcb).
  unfold in_net. lia.
Qed.

(** C14. A node with a finalizer is released twice, and the second release frees a
    network that may belong to another node by then.  Take any allocator in order and
    a node [a] that is marked for deletion, whose networks lie in the cluster ranges.
    The worker that serves [a] releases it.  After any further allocations and
    releases, let a node [b] be assigned a network that [a] had.  When the informer
    then reports that [a] is gone, its handler succeeds and unmarks the network that
    [b] holds: once every other network of the range is taken, that network is the
    next one handed out. *)
Theorem range_double_release K ls r a mid b strs idx cidr :
  KubeLaws K → ra_ok ls r → reads_blocks K ls r →
  lister_Get K (actions r) (Name a) = inr a → Deleting a = true →
  (∀ k c, PodCIDRs a !! k = Some c → releasable K ls r k c) →
  let r1 := (syncNode K (Name a) r).2 in
  let r2 := ra_run K mid r1 in
  let r3 := (range_AllocateOrOccupyCIDR K (Some b) r2).2 in
  assigned_in r2 r3 strs → strs !! idx = Some cidr → PodCIDRs a !! idx = Some cidr →
  (syncNode K (Name a) r).1 = Ok tt ∧
  ∃ r4 f c s1 s3 s4 i,
    DeleteFunc K (ObjNode a) r3 = (Ok tt, r4) ∧ actions r4 = ActQueueAdd (Name a) :: actions r3 ∧
    cidrSets r1 !! idx = Some s1 ∧ cidrSets r3 !! idx = Some s3 ∧ cidrSets r4 !! idx = Some s4 ∧
    let net := mk_net f (block_base f c s3 i) (nodeMaskSize s3) in
    cidr = IPNet_String (Some net) ∧
    Z.testbit (used s1) i = false ∧ Z.testbit (used s3) i = true ∧ Z.testbit (used s4) i = false ∧
    ((∀ j, 0 ≤ j < maxCIDRs s4 → j ≠ i → Z.testbit (used s4) j = true) → (AllocateNext s4).1 = Ok net).
Proof.
  intros HK Hr Hreads Hget Hdel Hrel r1 r2 r3 Has Hstr Hpod.
  pose proof (syncNode_steps K ls (Name a) r : evolves ls r r1) as E1. destruct (E1 Hr) as (Hr1 & _).
  pose proof (ra_run_evolves K ls mid r1 : evolves ls r1 r2) as E2. destruct (E2 Hr1) as (Hr2 & _).
  pose proof (AllocateOrOccupyCIDR_steps K ls (Some b) r2 : evolves ls r2 r3) as E3. destruct (E3 Hr2) as (Hr3 & _).
  assert (evolves ls r r3) as E13 by (transitivity r1; [done|by transitivity r2]).
  destruct (assigned_took K ls r2 b strs HK Hr2 Has) as (nets & Ht & ->). fold r3 in Ht.
  unfold ipnetToStringList in Hstr. rewrite list_lookup_fmap, fmap_Some in Hstr. destruct Hstr as (o & Ho & ->).
  rewrite list_lookup_fmap, fmap_Some in Ho. destruct Ho as (y & Hy & ->).
  destruct (took_all_lookup _ _ _ _ _ _ Ht Hy) as (f & c & s2 & s3 & i & El & Es2 & Es3 & Ha & ->).
  destruct (all_first _ _ _ _ _ Ha) as (Hi & _ & _). pose proof (all_config _ _ _ _ _ Ha) as H32.
  assert (∃ s, cidrSets r !! idx = Some s ∧ config s2 = config s) as (s & Es & H20).
  { assert (evolves ls r r2) as E02 by (by transitivity r1). destruct (E02 Hr) as (_ & Hcfg & _).
    assert ((config <$> cidrSets r2) !! idx = Some (config s2)) as Hl by by rewrite list_lookup_fmap, Es2.
    rewrite Hcfg, list_lookup_fmap, fmap_Some in Hl. destruct Hl as (s & ? & ?). by exists s. }
  rewrite (block_base_config f c s s2 i H20), (config_nodeMaskSize _ _ H20) in *.
  rewrite (config_maxCIDRs _ _ H20) in Hi. assert (config s3 = config s) as H30 by congruence.
  pose proof (Hreads (idx, i) _ ltac:(by exists f, c, s)) as Hread. cbn [snd] in Hread.
  pose proof (ra_wf _ _ _ _ _ _ Hr El Es) as Hw.
  destruct (release_frees K ls (add_action (ActGet (Name a)) r) a idx f c s i) as (r1' & s1 & Er1 & _ & _ & Es1 & _ & _ & Hb1);
    [by destruct Hr; split|done..|].
  assert (syncNode K (Name a) r = (Ok tt, r1')) as Esync.
  { unfold syncNode, gbind. cbn [gget]. change (emit ?x r) with (@Ok unit tt, add_action x r).
    cbn [trace rangeAllocator_traced]. rewrite Hget, Hdel. exact Er1. }
  assert (r1 = r1') as E1' by (unfold r1; by rewrite Esync).
  split; [by rewrite Esync|].
  destruct (release_frees K ls r3 a idx f c s3 i Hr3) as (r4 & s4 & Er4 & _ & Ha4 & Es4 & Hw4 & H43 & Hb4).
  { intros k cidr Hk. by apply (releasable_evolves K ls r r3), Hrel. }
  { done. }
  { done. }
  { by rewrite (config_maxCIDRs _ _ H30). }
  { by rewrite (block_base_config f c s s3 i H30), (config_nodeMaskSize _ _ H30). }
  { by rewrite (block_base_config f c s s3 i H30), (config_nodeMaskSize _ _ H30). }
  exists (add_action (ActQueueAdd (Name a)) r4), f, c, s1, s3, s4, i.
  split. { unfold DeleteFunc, gbind, gcatch. by rewrite Er4. }
  split; [cbn; by rewrite Ha4|]. split; [by rewrite E1'|]. split; [done|]. split; [done|]. cbn zeta.
  rewrite (block_base_config f c s s3 i H30), (config_nodeMaskSize _ _ H30). split; [done|]. split; [done|].
  split; [apply (all_used _ _ _ _ _ Ha); by left|]. split; [done|]. intros Hall.
  assert (config s4 = config s) as H40 by congruence.
  rewrite <-(block_base_config f c s s4 i H40), <-(config_nodeMaskSize _ _ H40).
  apply AllocateNext_last; [done| |done|done]. by rewrite (config_maxCIDRs _ _ H40).
Qed.

(** ** A cluster in which it happens *)

(** The demo cluster with a finalizer on node [a]: once the node has networks it is
    marked for deletion, and stays in the cache. *)
Definition deleting (n : Node) : Node :=
  mkNode (Name n) (Labels n) (Annotations n) true (PodCIDR n) (PodCIDRs n) (ProviderID n)
         (Taints n) (Addresses n) (AllocatablePods n) (CapacityPods n).

Definition finalizer_lister (past : list action) (name : string) : error + Node :=
  let n := demo_node name (accepted_for name past) in
  inr (if decide (name = "a" ∧ PodCIDRs n ≠ []) then deleting n else n).

Definition finalizerK : Kube :=
  mkKube demo_parse (ParseCIDRs demoK) (IsNotFound demoK) (IsServerTimeout demoK) (MatchTaint demoK)
         finalizer_lister (api_Patch demoK).

(** Nodes [a] and [b] get the two networks; the worker releases [a] when it is
    marked for deletion; [c] gets its network; the informer reports that [a] is
    gone; [d] comes. *)
Definition finalizer_run : GoM rangeAllocator bool :=
  let turn key := processNextNodeWorkItem finalizerK (Some (QKey key)) in
  turn "a" ;;;
  turn "b" ;;;
  turn "a" ;;;
  turn "c" ;;;
  DeleteFunc finalizerK (ObjNode (deleting (demo_node "a" ["10.0.0.0/30"]))) ;;;
  turn "d".

(** Nodes [c] and [d], neither of them ever released, are both assigned 10.0.0.0/30,
    when no network was free for [d]; no error is reported on the way. *)
Lemma finalizer_run_shares :
  ∃ r', finalizer_run demo_ra = (Ok true, r') ∧
    accepted_for "b" (actions r') = ["10.0.0.4/30"] ∧
    accepted_for "c" (actions r') = ["10.0.0.0/30"] ∧
    accepted_for "d" (actions r') = ["10.0.0.0/30"] ∧
    Forall (λ a, match a with ActHandleError _ => False | _ => True end) (actions r').
Proof. eexists. split; [vm_compute; reflexivity|]. split_and!; [reflexivity..|]. repeat constructor. Qed.

Lemma finalizerK_laws : KubeLaws finalizerK.
Proof. by split; destruct (demo_kube_laws (λ _ _, true)). Qed.

(** The allocator after nodes [a] and [b] got the two networks. *)
Definition demo_full : rangeAllocator :=
  (processNextNodeWorkItem finalizerK (Some (QKey "b"))
     (processNextNodeWorkItem finalizerK (Some (QKey "a")) demo_ra).2).2.

Lemma demo_full_ok : ra_ok [(V4, demo_base)] demo_full.
Proof.
  pose proof (processNextNodeWorkItem_steps finalizerK [(V4, demo_base)] (Some (QKey "a")) demo_ra demo_ra_ok) as (H1 & _).
  exact (proj1 (processNextNodeWorkItem_steps finalizerK [(V4, demo_base)] (Some (QKey "b")) _ H1)).
Qed.

Lemma demo_full_set : ∃ s, cidrSets demo_full !! 0%nat = Some s ∧ clusterMaskSize s = 29 ∧ maxCIDRs s = 2 ∧ nodeMaskSize s = 30.
Proof. eexists. split; [vm_compute; reflexivity|]. split_and!; reflexivity. Qed.

Lemma range_double_release_witness :
  let r1 := (syncNode finalizerK "a" demo_full).2 in
  let r3 := (range_AllocateOrOccupyCIDR finalizerK (Some (demo_node "c" [])) r1).2 in
  assigned_in r1 r3 ["10.0.0.0/30"] ∧
  ∃ r4 s4 i, DeleteFunc finalizerK (ObjNode (deleting (demo_node "a" ["10.0.0.0/30"]))) r3 = (Ok tt, r4) ∧
    cidrSets r4 !! 0%nat = Some s4 ∧ Z.testbit (used s4) i = false.
Proof.
  intros r1 r3. assert (assigned_in r1 r3 ["10.0.0.0/30"]) as Ha.
  { exists "c", [ActGet "c"]. vm_compute. reflexivity. }
  split; [exact Ha|]. destruct demo_full_set as (s & Es & Hcm & Hmax & Hnm).
  destruct (range_double_release finalizerK [(V4, demo_base)] demo_full (deleting (demo_node "a" ["10.0.0.0/30"])) []
    (demo_node "c" []) ["10.0.0.0/30"] 0 "10.0.0.0/30") as (_ & r4 & f & c & s1 & s3 & s4 & i & E & _ & _ & _ & Es4 & _ & _ & _ & Hb & _).
  - exact finalizerK_laws.
  - exact demo_full_ok.
  - exact (demo_reads finalizerK demo_full s eq_refl Es Hmax Hnm).
  - vm_compute. reflexivity.
  - reflexivity.
  - intros [|k] cidr; [|discriminate]. intros [= <-]. exists V4, demo_base, s, demo_base, 30.
    split; [reflexivity|]. split; [exact Es|]. split; [vm_compute; reflexivity|]. split; [by split; cbn|].
    exists demo_base. rewrite Hcm. split; split; vm_compute; congruence.
  - exact Ha.
  - reflexivity.
  - reflexivity.
  - exists r4, s4, i. split; [exact E|]. split; [exact Es4|exact Hb].
Defined.
