(* ===== verification/GoStrings.v ===== *)
(** * The parts of Go's [strings], [strconv] and [slices] the program uses

    Strings are byte strings.  Case folding and white space are those of ASCII;
    bytes outside ASCII are left alone. *)

From S2P Require Import Prelude.
From Stdlib Require Import Ascii.


(** ** Characters *)

Definition code (a : ascii) : Z := Z.of_N (N_of_ascii a).

Definition lower_ascii (a : ascii) : ascii :=
  if (65 <=? code a) && (code a <=? 90) then ascii_of_N (N_of_ascii a + 32) else a.

Definition is_space (a : ascii) : bool :=
  existsb (Z.eqb (code a)) [9; 10; 11; 12; 13; 32].

Definition digit_val (a : ascii) : option Z :=
  if (48 <=? code a) && (code a <=? 57) then Some (code a - 48) else None.

(** ** Strings *)

Fixpoint ToLower (s : string) : string :=
  match s with
  | EmptyString => EmptyString
  | String a s' => String (lower_ascii a) (ToLower s')
  end.

Definition EqualFold (s t : string) : bool := bool_decide (ToLower s = ToLower t).

Definition HasPrefix (s p : string) : bool := String.prefix p s.

(** [strings.CutPrefix(s, p)]: the rest of [s] when it starts with [p]. *)
Fixpoint CutPrefix (s p : string) {struct p} : option string :=
  match p with
  | EmptyString => Some s
  | String a p' =>
      match s with
      | EmptyString => None
      | String b s' => if decide (a = b) then CutPrefix s' p' else None
      end
  end.

(** [strings.Split(s, sep)] for a separator of one byte: always at least one
    part. *)
Fixpoint Split (s : string) (sep : ascii) : list string :=
  match s with
  | EmptyString => [EmptyString]
  | String a s' =>
      if decide (a = sep) then EmptyString :: Split s' sep
      else match Split s' sep with
           | [] => [String a EmptyString]
           | part :: parts => String a part :: parts
           end
  end.

(** [strconv.Quote]: the string between double quotes, with a backslash before a
    quote or a backslash and the control characters escaped; bytes outside ASCII
    (printable runes, as a rule) are left alone. *)
Definition lower_hex (d : Z) : ascii := ascii_of_N (Z.to_N (if d <? 10 then 48 + d else 87 + d)).

Definition quote_char (a : ascii) : string :=
  let escape (c : ascii) := String "\" (String c EmptyString) in
  match code a with
  | 7 => escape "a"%char
  | 8 => escape "b"%char
  | 9 => escape "t"%char
  | 10 => escape "n"%char
  | 11 => escape "v"%char
  | 12 => escape "f"%char
  | 13 => escape "r"%char
  | 34 | 92 => escape a
  | c => if (c <? 32) || (c =? 127)
         then String "\" (String "x" (String (lower_hex (c / 16)) (String (lower_hex (c mod 16)) EmptyString)))
         else String a EmptyString
  end.

Fixpoint quote_chars (s : string) : string :=
  match s with
  | EmptyString => EmptyString
  | String a s' => quote_char a +:+ quote_chars s'
  end.

(** [%q] of a string and of a slice of strings. *)
Definition quoted (s : string) : string :=
  let q := String (Ascii.ascii_of_N 34) EmptyString in q +:+ quote_chars s +:+ q.

Definition quoted_list (l : list string) : string := "[" +:+ String.concat " " (map quoted l) +:+ "]".

(** The text around the first [sub] in [s]. *)
Fixpoint cut_first (s sub : string) : option (string * string) :=
  match CutPrefix s sub with
  | Some t => Some (EmptyString, t)
  | None => match s with
            | EmptyString => None
            | String a s' => (λ '(h, t), (String a h, t)) <$> cut_first s' sub
            end
  end.

(** [strings.Replace(s, old, new, 1)]. *)
Definition Replace1 (s old new : string) : string :=
  match cut_first s old with
  | Some (h, t) => h +:+ new +:+ t
  | None => s
  end.

(** [strings.IndexByte(s, c)]: the first position, or -1. *)
Fixpoint IndexByte (s : string) (c : ascii) : Z :=
  match s with
  | EmptyString => -1
  | String a s' => if decide (a = c) then 0
                   else let i := IndexByte s' c in if i <? 0 then -1 else i + 1
  end.

(** [strings.Contains(s, sub)]. *)
Definition Contains (s sub : string) : bool := bool_decide (String.index 0 sub s ≠ None).

Fixpoint trim_left (s : string) : string :=
  match s with
  | EmptyString => EmptyString
  | String a s' => if is_space a then trim_left s' else s
  end.

Fixpoint trim_right (s : string) : string :=
  match s with
  | EmptyString => EmptyString
  | String a s' =>
      match trim_right s' with
      | EmptyString => if is_space a then EmptyString else String a EmptyString
      | t => String a t
      end
  end.

Definition TrimSpace (s : string) : string := trim_right (trim_left s).

(** ** Integers *)

Fixpoint parse_digits (acc : Z) (s : string) : option Z :=
  match s with
  | EmptyString => Some acc
  | String a s' => match digit_val a with
                   | Some d => parse_digits (acc * 10 + d) s'
                   | None => None
                   end
  end.

(** [strconv.ParseInt(s, 10, 64)]: an optional sign, at least one digit, and a
    value that fits. *)
Definition ParseInt (s : string) : option Z :=
  let unsigned (t : string) := if decide (t = EmptyString) then None else parse_digits 0 t in
  let v := match s with
           | String "+" t => unsigned t
           | String "-" t => Z.opp <$> unsigned t
           | _ => unsigned s
           end in
  match v with
  | Some n => if (- 2 ^ 63 <=? n) && (n <? 2 ^ 63) then Some n else None
  | None => None
  end.

(** Only ASCII bytes: on such strings Go's Unicode case folding is the one
    modelled here. *)
Fixpoint ascii_only (s : string) : bool :=
  match s with
  | EmptyString => true
  | String a s' => (code a <? 128) && ascii_only s'
  end.

(** ** Facts *)

Lemma lower_ascii_idem a : lower_ascii (lower_ascii a) = lower_ascii a.
Proof. destruct a as [[] [] [] [] [] [] [] []]; reflexivity. Qed.

Lemma ToLower_idem s : ToLower (ToLower s) = ToLower s.
Proof. induction s; cbn; [done|]. rewrite lower_ascii_idem. by f_equal. Qed.

Lemma Split_nonempty s sep : Split s sep ≠ [].
Proof. destruct s; cbn; [done|]. repeat case_match; done. Qed.

(** The parts of a split hold no separator and put together give the string. *)
Fixpoint no_sep (s : string) (sep : ascii) : Prop :=
  match s with
  | EmptyString => True
  | String a s' => a ≠ sep ∧ no_sep s' sep
  end.

Fixpoint join (parts : list string) (sep : ascii) : string :=
  match parts with
  | [] => EmptyString
  | [p] => p
  | p :: rest => p +:+ String sep (join rest sep)
  end.

Lemma join_cons_char a p rest sep : join (String a p :: rest) sep = String a (join (p :: rest) sep).
Proof. by destruct rest. Qed.

Lemma Split_join s sep : join (Split s sep) sep = s ∧ Forall (λ p, no_sep p sep) (Split s sep).
Proof.
  induction s as [|a s [IHj IHf]]; cbn; [split; [done|by constructor]|].
  case_decide as Ha.
  - subst a. split; [|by constructor]. destruct (Split s sep) as [|p ps] eqn:E; [by destruct (Split_nonempty s sep)|].
    cbn in *. by rewrite IHj.
  - destruct (Split s sep) as [|p ps] eqn:E; [by destruct (Split_nonempty s sep)|].
    rewrite join_cons_char, IHj. split; [done|].
    inversion IHf; subst. by constructor.
Qed.

Lemma Split_app p sep s :
  no_sep p sep → Split (p +:+ String sep s) sep = p :: Split s sep.
Proof.
  induction p as [|a p IH]; intros Hp.
  - change ("" +:+ String sep s) with (String sep s). cbn. by rewrite decide_True.
  - destruct Hp as [Ha Hp]. change (String a p +:+ String sep s) with (String a (p +:+ String sep s)).
    cbn [Split]. rewrite decide_False by done. by rewrite IH.
Qed.

Lemma Split_no_sep p sep : no_sep p sep → Split p sep = [p].
Proof.
  induction p as [|a p IH]; [done|]. intros [Ha Hp]. cbn [Split].
  rewrite decide_False by done. by rewrite IH.
Qed.

Lemma Split_of_join l sep : l ≠ [] → Forall (λ p, no_sep p sep) l → Split (join l sep) sep = l.
Proof.
  intros Hne Hl. induction Hl as [|p l Hp Hl IH]; [done|]. destruct l as [|q l]; [by apply Split_no_sep|].
  change (join (p :: q :: l) sep) with (p +:+ String sep (join (q :: l) sep)).
  rewrite Split_app by done. by rewrite IH.
Qed.

Lemma CutPrefix_app p s : CutPrefix (p +:+ s) p = Some s.
Proof.
  induction p as [|a p IH]; [reflexivity|]. change (String a p +:+ s) with (String a (p +:+ s)).
  cbn [CutPrefix]. by rewrite decide_True.
Qed.

Lemma CutPrefix_Some s p t : CutPrefix s p = Some t ↔ s = p +:+ t.
Proof.
  split; [|intros ->; apply CutPrefix_app].
  revert s. induction p as [|a p IH]; intros s; cbn.
  { intros [= <-]. reflexivity. }
  destruct s as [|b s]; [done|]. case_decide as Hab; [|done]. intros ->%IH. subst. reflexivity.
Qed.

Lemma string_app_assoc (a b c : string) : (a +:+ b) +:+ c = a +:+ b +:+ c.
Proof.
  induction a as [|x a IH]; [done|].
  change (String x ((a +:+ b) +:+ c) = String x (a +:+ b +:+ c)). by rewrite IH.
Qed.

Lemma cut_first_Some s sub h t : cut_first s sub = Some (h, t) → s = h +:+ sub +:+ t.
Proof.
  revert h. induction s as [|a s IH]; intros h; cbn [cut_first].
  - destruct (CutPrefix "" sub) as [u|] eqn:E; [|done]. intros [= <- <-]. by apply CutPrefix_Some in E.
  - destruct (CutPrefix (String a s) sub) as [u|] eqn:E; [intros [= <- <-]; by apply CutPrefix_Some in E|].
    destruct (cut_first s sub) as [[h' t']|]; [|done]. cbn. intros [= <- <-]. by rewrite (IH h' eq_refl).
Qed.

Lemma ToLower_app s t : ToLower (s +:+ t) = ToLower s +:+ ToLower t.
Proof.
  induction s as [|a s IH]; [done|]. change (String a s +:+ t) with (String a (s +:+ t)).
  cbn [ToLower]. by rewrite IH.
Qed.
