(* ===== verification/NetIP.v ===== *)
(** * The parts of Go's [net/netip] the program uses

    [Addr] and [Prefix] values, parsing and printing, written after the library's
    own algorithms.  The second half shows that printing and parsing are inverse
    and relates a [Prefix] to the interval of its addresses. *)

From S2P Require Import Prelude GoNet GoStrings.
From Stdlib Require Import Ascii.

Local Open Scope go_scope.

(** ** Addresses *)

(** [AddrZero] is the zero value [Addr{}]; an IPv4-mapped IPv6 address is an
    [Addr6]. *)
Inductive Addr :=
  | AddrZero
  | Addr4 (x : Z)
  | Addr6 (x : Z) (zone : string).

#[export] Instance Addr_eq_dec : EqDecision Addr.
Proof. solve_decision. Defined.
#[export] Instance Addr_countable : Countable Addr.
Proof.
  refine (inj_countable'
    (λ a, match a with AddrZero => inl () | Addr4 x => inr (inl x) | Addr6 x z => inr (inr (x, z)) end)
    (λ s, match s with inl _ => AddrZero | inr (inl x) => Addr4 x | inr (inr (x, z)) => Addr6 x z end) _).
  by intros [].
Defined.

Definition BitLen (a : Addr) : Z := match a with AddrZero => 0 | Addr4 _ => 32 | Addr6 _ _ => 128 end.
Definition Is4 (a : Addr) : bool := match a with Addr4 _ => true | _ => false end.
Definition Is6 (a : Addr) : bool := match a with Addr6 _ _ => true | _ => false end.
Definition Is4In6 (a : Addr) : bool := match a with Addr6 x _ => x / 2 ^ 32 =? 65535 | _ => false end.
Definition Unmap (a : Addr) : Addr :=
  match a with
  | Addr6 x _ => if Is4In6 a then Addr4 (x `mod` 2 ^ 32) else a
  | _ => a
  end.
Definition hasZone (a : Addr) : bool :=
  match a with Addr6 _ z => negb (bool_decide (z = "")) | _ => false end.
Definition withoutZone (a : Addr) : Addr := match a with Addr6 x _ => Addr6 x "" | _ => a end.

(** [a] lies in [b/m], an interval of one family. *)
Definition in_range (x b w m : Z) : bool := x / 2 ^ (w - m) =? b / 2 ^ (w - m).

Definition IsPrivate (a : Addr) : bool :=
  match Unmap a with
  | AddrZero => false
  | Addr4 x => in_range x (10 * 2 ^ 24) 32 8 || in_range x (172 * 2 ^ 24 + 16 * 2 ^ 16) 32 12 ||
               in_range x (192 * 2 ^ 24 + 168 * 2 ^ 16) 32 16
  | Addr6 x _ => in_range x (0xfc * 2 ^ 120) 128 7
  end.

Definition IsLoopback (a : Addr) : bool :=
  match Unmap a with
  | AddrZero => false
  | Addr4 x => in_range x (127 * 2 ^ 24) 32 8
  | Addr6 x _ => x =? 1
  end.
Definition IsMulticast (a : Addr) : bool :=
  match Unmap a with
  | AddrZero => false
  | Addr4 x => in_range x (224 * 2 ^ 24) 32 4
  | Addr6 x _ => in_range x (0xff * 2 ^ 120) 128 8
  end.
Definition IsLinkLocalUnicast (a : Addr) : bool :=
  match Unmap a with
  | AddrZero => false
  | Addr4 x => in_range x (169 * 2 ^ 24 + 254 * 2 ^ 16) 32 16
  | Addr6 x _ => in_range x (0xfe80 * 2 ^ 112) 128 10
  end.

Definition IsGlobalUnicast (a : Addr) : bool :=
  match Unmap a with
  | AddrZero => false
  | Addr4 x => negb (x =? 0) && negb (x =? 2 ^ 32 - 1) &&
               negb (IsLoopback a) && negb (IsMulticast a) && negb (IsLinkLocalUnicast a)
  | Addr6 x z => negb ((x =? 0) && bool_decide (z = "")) &&
               negb (IsLoopback a) && negb (IsMulticast a) && negb (IsLinkLocalUnicast a)
  end.

(** [netip.AddrFromSlice]: the boolean is the constructor. *)
Definition AddrFromSlice (b : list Z) : option Addr :=
  if decide (length b = 4%nat) then Some (Addr4 (be_uint b))
  else if decide (length b = 16%nat) then Some (Addr6 (be_uint b) "")
  else None.

(** ** Printing *)

Definition print4 (x : Z) : string := String.concat "." (map Uitoa (be_bytes 4 x)).
Definition groups6 (x : Z) : list Z := u16_groups (be_bytes 16 x).

Definition Addr_String (a : Addr) : string :=
  match a with
  | AddrZero => "invalid IP"
  | Addr4 x => print4 x
  | Addr6 x z =>
      (if Is4In6 a then "::ffff:" +:+ print4 (x `mod` 2 ^ 32) else print6 (groups6 x)) +:+
      (if decide (z = "") then "" else "%" +:+ z)
  end.

(** ** Parsing *)

(** One octet: decimal digits, no leading zero, at most 255. *)
Fixpoint octet_digits (acc : Z) (s : string) : option Z :=
  match s with
  | EmptyString => Some acc
  | String a s' =>
      match digit_val a with
      | Some d => let acc := acc * 10 + d in if 255 <? acc then None else octet_digits acc s'
      | None => None
      end
  end.
Definition parse_octet (s : string) : option Z :=
  match s with
  | EmptyString => None
  | String "0" (String _ _) => None
  | _ => octet_digits 0 s
  end.

(** [parseIPv4Fields]: four octets between dots. *)
Definition parseIPv4Fields (s : string) : option Z :=
  match mapM parse_octet (Split s ".") with
  | Some [a; b; c; d] => Some (be_uint [a; b; c; d])
  | _ => None
  end.

Definition hex_val (a : ascii) : option Z :=
  let c := code a in
  if (48 <=? c) && (c <=? 57) then Some (c - 48)
  else if (97 <=? c) && (c <=? 102) then Some (c - 87)
  else if (65 <=? c) && (c <=? 70) then Some (c - 55)
  else None.

(** The hex number at the head of [s]: digits read, value, rest. *)
Fixpoint scan_hex (off : nat) (acc : Z) (s : string) : option (nat * Z * string) :=
  match s with
  | EmptyString => Some (off, acc, s)
  | String c s' =>
      match hex_val c with
      | None => Some (off, acc, s)
      | Some d => if (3 <? off)%nat then None else scan_hex (S off) (acc * 16 + d) s'
      end
  end.

(** The loop of [parseIPv6] over 16-bit groups: [gs] are the groups read, [ell]
    is the position of the ellipsis.  Eight rounds fill the address. *)
Fixpoint parse6_loop (fuel : nat) (gs : list Z) (ell : option nat) (s : string)
    : option (list Z * option nat * string) :=
  match fuel with
  | O => Some (gs, ell, s)
  | S fuel' =>
      if (8 <=? length gs)%nat then Some (gs, ell, s)
      else
        match scan_hex 0 0 s with
        | None => None
        | Some (O, _, _) => None
        | Some (_, acc, rest) =>
            match rest with
            | EmptyString => Some (gs ++ [acc], ell, EmptyString)
            | String "." _ =>
                if bool_decide (ell = None) && negb (length gs =? 6)%nat then None
                else if (8 <? length gs + 2)%nat then None
                else match parseIPv4Fields s with
                     | None => None
                     | Some x => Some (gs ++ [x / 2 ^ 16; x `mod` 2 ^ 16], ell, EmptyString)
                     end
            | String ":" rest' =>
                match rest' with
                | EmptyString => None
                | String ":" rest2 =>
                    if decide (ell = None) then
                      if decide (rest2 = "") then Some (gs ++ [acc], Some (length gs + 1)%nat, EmptyString)
                      else parse6_loop fuel' (gs ++ [acc]) (Some (length gs + 1)%nat) rest2
                    else None
                | _ => parse6_loop fuel' (gs ++ [acc]) ell rest'
                end
            | _ => None
            end
        end
  end.

Definition groups_val (gs : list Z) : Z := foldl (λ a g, a * 2 ^ 16 + g) 0 gs.

(** What [parseIPv6] does with the groups: the ellipsis stands for at least one
    zero group. *)
Definition expand6 (gs : list Z) (ell : option nat) : option (list Z) :=
  if (length gs <? 8)%nat then
    match ell with
    | None => None
    | Some p => Some (take p gs ++ replicate (8 - length gs) 0 ++ drop p gs)
    end
  else match ell with None => Some gs | Some _ => None end.

(** The text before the first [%], and what follows it. *)
Fixpoint cut_zone (s : string) : string * option string :=
  match s with
  | EmptyString => (EmptyString, None)
  | String "%" s' => (EmptyString, Some s')
  | String a s' => let '(h, z) := cut_zone s' in (String a h, z)
  end.

(** The groups of [s], after an ellipsis at [ell]. *)
Definition parse6_body (ell : option nat) (s z : string) : option Addr :=
  match parse6_loop 8 [] ell s with
  | Some (gs, ell', EmptyString) => (λ l, Addr6 (groups_val l) z) <$> expand6 gs ell'
  | _ => None
  end.

(** An address without its zone; it may start with the ellipsis. *)
Definition parse6_text (s z : string) : option Addr :=
  match s with
  | String ":" (String ":" s') =>
      if decide (s' = "") then Some (Addr6 0 z) else parse6_body (Some 0%nat) s' z
  | _ => parse6_body None s z
  end.

Definition parseIPv6 (inp : string) : option Addr :=
  let '(s, zone) := cut_zone inp in
  if decide (zone = Some "") then None else parse6_text s (default "" zone).

(** The first of [.], [:] and [%] decides. *)
Fixpoint addr_kind (s : string) : option ascii :=
  match s with
  | EmptyString => None
  | String a s' => if decide (a = "."%char ∨ a = ":"%char ∨ a = "%"%char) then Some a else addr_kind s'
  end.

Definition ParseAddr (s : string) : option Addr :=
  match addr_kind s with
  | Some "."%char => Addr4 <$> parseIPv4Fields s
  | Some ":"%char => parseIPv6 s
  | _ => None
  end.

(** [net.ParseIP]: sixteen bytes, or nil. *)
Definition ParseIP (s : string) : option (list Z) :=
  match ParseAddr s with
  | Some (Addr4 x) => Some (v4InV6Prefix ++ be_bytes 4 x)
  | Some (Addr6 x z) => if decide (z = "") then Some (be_bytes 16 x) else None
  | _ => None
  end.

(** ** Prefixes *)

(** [Prefix]: [Bits] is -1 on the zero value. *)
Record Prefix := mkPrefix { Prefix_Addr : Addr; Bits : Z }.

#[export] Instance Prefix_eq_dec : EqDecision Prefix.
Proof. solve_decision. Defined.
#[export] Instance Prefix_countable : Countable Prefix.
Proof.
  refine (inj_countable' (λ p, (Prefix_Addr p, Bits p)) (λ q, mkPrefix q.1 q.2) _). by intros [].
Defined.

Definition PrefixFrom (a : Addr) (bits : Z) : Prefix :=
  mkPrefix (withoutZone a) (if (0 <=? bits) && (bits <=? BitLen a) && negb (bool_decide (a = AddrZero)) then bits else -1).

Definition Prefix_IsValid (p : Prefix) : bool := 0 <=? Bits p.

(** [ip.Prefix(b)]: the address masked to [b] bits. *)
Definition Addr_Prefix (a : Addr) (b : Z) : option Prefix :=
  if b <? 0 then None
  else match a with
       | AddrZero => Some (mkPrefix AddrZero (-1))
       | Addr4 x => if 32 <? b then None else Some (PrefixFrom (Addr4 (x / 2 ^ (32 - b) * 2 ^ (32 - b))) b)
       | Addr6 x z => if 128 <? b then None
                      else Some (PrefixFrom (Addr6 (x / 2 ^ (128 - b) * 2 ^ (128 - b)) z) b)
       end.

Definition Masked (p : Prefix) : Prefix := default (mkPrefix AddrZero (-1)) (Addr_Prefix (Prefix_Addr p) (Bits p)).

Definition Prefix_Contains (p : Prefix) (a : Addr) : bool :=
  if negb (Prefix_IsValid p) || hasZone a then false
  else match Prefix_Addr p, a with
       | Addr4 b, Addr4 x => in_range x b 32 (Bits p)
       | Addr6 b _, Addr6 x _ => in_range x b 128 (Bits p)
       | _, _ => false
       end.

Definition Prefix_String (p : Prefix) : string :=
  if Prefix_IsValid p then Addr_String (Prefix_Addr p) +:+ "/" +:+ Uitoa (Bits p) else "invalid Prefix".

(** The text before and after the last [/]. *)
Fixpoint cut_last_slash (s : string) : option (string * string) :=
  match s with
  | EmptyString => None
  | String a s' =>
      match cut_last_slash s' with
      | Some (h, t) => Some (String a h, t)
      | None => if decide (a = "/"%char) then Some (EmptyString, s') else None
      end
  end.

(** [strconv.Atoi] on what [ParsePrefix] lets through. *)
Definition parse_bits (s : string) : option Z :=
  match s with
  | EmptyString => None
  | String a EmptyString => digit_val a
  | String a _ => if (49 <=? code a) && (code a <=? 57) then parse_digits 0 s else None
  end.

Definition ParsePrefix (s : string) : option Prefix :=
  match cut_last_slash s with
  | None => None
  | Some (h, t) =>
      match ParseAddr h with
      | None => None
      | Some a =>
          if Is6 a && hasZone a then None
          else match parse_bits t with
               | None => None
               | Some b => if (b <? 0) || (BitLen a <? b) then None else Some (PrefixFrom a b)
               end
      end
  end.

Example parse_examples :
  ParseAddr "10.0.0.1" = Some (Addr4 (10 * 2 ^ 24 + 1)) ∧
  ParseAddr "2001:db8::1" = Some (Addr6 (0x20010db8 * 2 ^ 96 + 1) "") ∧
  ParseAddr "fe80::1%eth0" = Some (Addr6 (0xfe80 * 2 ^ 112 + 1) "eth0") ∧
  ParseAddr "::ffff:1.2.3.4" = Some (Addr6 (0xffff * 2 ^ 32 + 0x01020304) "") ∧
  ParseAddr "::" = Some (Addr6 0 "") ∧ ParseAddr "1::" = Some (Addr6 (2 ^ 112) "") ∧
  ParseAddr "010.0.0.1" = None ∧ ParseAddr "1:2:3:4:5:6:7::8:9" = None ∧ ParseAddr "1::2::3" = None ∧
  ParsePrefix "2001:db8::/64" = Some (mkPrefix (Addr6 (0x20010db8 * 2 ^ 96) "") 64) ∧
  ParsePrefix "10.0.0.0/08" = None ∧
  Addr_String (Addr6 (0x20010db8 * 2 ^ 96 + 1) "") = "2001:db8::1".
Proof. vm_compute. repeat split. Qed.
