(* ===== verification/NetIPRoundTrip.v ===== *)
(** * Printing and parsing addresses are inverse *)

From S2P Require Import Prelude GoNet GoStrings NetIP.
From Stdlib Require Import Ascii.

Local Open Scope go_scope.

(** ** Strings *)

Lemma concat_join sep l : String.concat (String sep "") l = join l sep.
Proof.
  induction l as [|p l IH]; [done|]. destruct l as [|q l]; [done|].
  change (p +:+ String sep "" +:+ String.concat (String sep "") (q :: l) = p +:+ String sep (join (q :: l) sep)).
  by rewrite IH.
Qed.

Lemma string_app_nil_r (a : string) : a +:+ "" = a.
Proof. induction a as [|x a IH]; [done|]. change (String x (a +:+ "") = String x a). by rewrite IH. Qed.

(** ** IPv4 *)

Fixpoint all_chars (P : ascii → bool) (s : string) : bool :=
  match s with EmptyString => true | String a s' => P a && all_chars P s' end.

Definition is_digit (a : ascii) : bool := bool_decide (is_Some (digit_val a)).
Definition is_hex (a : ascii) : bool := bool_decide (is_Some (hex_val a)).

Definition octet_facts (a : Z) : Prop :=
  parse_octet (Uitoa a) = Some a ∧ all_chars is_digit (Uitoa a) = true ∧
  all_chars is_hex (Uitoa a) = true ∧ (1 ≤ String.length (Uitoa a) ≤ 3)%nat.

#[local] Instance octet_facts_dec a : Decision (octet_facts a).
Proof. unfold octet_facts. apply _. Defined.

Lemma octet_ok a : 0 ≤ a < 256 → octet_facts a.
Proof. apply (forall_below octet_facts 256). vm_compute. reflexivity. Qed.

Lemma all_chars_no_sep P s sep : all_chars P s = true → P sep = false → no_sep s sep.
Proof.
  intros Hs Hp. induction s as [|a s IH]; cbn in *; [done|].
  apply andb_true_iff in Hs as [Ha Hs]. split; [|by apply IH]. intros ->. congruence.
Qed.

Lemma be_bytes_4 x :
  be_bytes 4 x = [(x / 2 ^ 24) `mod` 256; (x / 2 ^ 16) `mod` 256; (x / 2 ^ 8) `mod` 256; (x / 2 ^ 0) `mod` 256].
Proof. reflexivity. Qed.

Lemma print4_join x :
  print4 x = join (map Uitoa (be_bytes 4 x)) "."%char.
Proof. apply concat_join. Qed.

Lemma octets_no_sep x : Forall (λ p, no_sep p "."%char) (map Uitoa (be_bytes 4 x)).
Proof.
  rewrite be_bytes_4. repeat (apply Forall_cons; split; [|]); try constructor;
    (eapply all_chars_no_sep; [apply octet_ok, Z.mod_pos_bound; lia|done]).
Qed.

Lemma parse4_print x : 0 ≤ x < 2 ^ 32 → parseIPv4Fields (print4 x) = Some x.
Proof.
  intros Hx. unfold parseIPv4Fields. rewrite print4_join, Split_of_join by (done || apply octets_no_sep).
  transitivity (Some (be_uint (be_bytes 4 x))); [|by rewrite be_uint_bytes_small]. rewrite be_bytes_4.
  set (a := (x / 2 ^ 24) `mod` 256). set (b := (x / 2 ^ 16) `mod` 256).
  set (c := (x / 2 ^ 8) `mod` 256). set (d := (x / 2 ^ 0) `mod` 256).
  assert (0 ≤ a < 256 ∧ 0 ≤ b < 256 ∧ 0 ≤ c < 256 ∧ 0 ≤ d < 256) as (Ha & Hb & Hc & Hd)
    by (split_and!; apply Z.mod_pos_bound; lia).
  cbn [map mapM]. rewrite (proj1 (octet_ok a Ha)), (proj1 (octet_ok b Hb)), (proj1 (octet_ok c Hc)),
    (proj1 (octet_ok d Hd)). reflexivity.
Qed.

(** The part of [print4] before its first dot. *)
Lemma print4_head x :
  ∃ rest, print4 x = Uitoa ((x / 2 ^ 24) `mod` 256) +:+ String "." rest.
Proof. rewrite print4_join, be_bytes_4. by eexists. Qed.

(** Which of the special characters comes first. *)
Lemma addr_kind_app s a rest :
  all_chars is_hex s = true → (a = "."%char ∨ a = ":"%char ∨ a = "%"%char) →
  addr_kind (s +:+ String a rest) = Some a.
Proof.
  intros Hs Ha. induction s as [|b s IH].
  - change ("" +:+ String a rest) with (String a rest). cbn. by rewrite decide_True.
  - cbn in Hs. apply andb_true_iff in Hs as [Hb Hs].
    change (String b s +:+ String a rest) with (String b (s +:+ String a rest)). cbn [addr_kind].
    rewrite decide_False; [by apply IH|]. intros [->|[->| ->]]; done.
Qed.

Lemma ParseAddr_print4 x : 0 ≤ x < 2 ^ 32 → ParseAddr (print4 x) = Some (Addr4 x).
Proof.
  intros Hx. unfold ParseAddr. destruct (print4_head x) as (rest & E). rewrite E at 1.
  rewrite addr_kind_app; [|apply octet_ok, Z.mod_pos_bound; lia|auto].
  by rewrite parse4_print.
Qed.

(** ** Hexadecimal groups *)

Fixpoint hex_fold (acc : Z) (s : string) : Z :=
  match s with
  | EmptyString => acc
  | String a s' => hex_fold (acc * 16 + default 0 (hex_val a)) s'
  end.

Definition group_ok (g : Z) : Prop :=
  hex_fold 0 (hex16 g) = g ∧ all_chars is_hex (hex16 g) = true ∧ (1 ≤ String.length (hex16 g) ≤ 4)%nat.

Lemma hex_fold_app acc a b : hex_fold acc (a +:+ b) = hex_fold (hex_fold acc a) b.
Proof. revert acc. induction a as [|x a IH]; intros acc; [done|]. apply IH. Qed.

Lemma all_chars_app P a b : all_chars P (a +:+ b) = all_chars P a && all_chars P b.
Proof.
  induction a as [|x a IH]; [done|].
  change (all_chars P (String x a +:+ b)) with (P x && all_chars P (a +:+ b)). cbn [all_chars].
  by rewrite IH, andb_assoc.
Qed.

Lemma length_string_app a b : String.length (a +:+ b) = (String.length a + String.length b)%nat.
Proof. induction a as [|x a IH]; [done|]. change (S (String.length (a +:+ b)) = S (String.length a + String.length b)%nat). by rewrite IH. Qed.

Definition hex_digit_ok (n : Z) : Prop :=
  (∀ acc, hex_fold acc (digit n) = acc * 16 + n) ∧ all_chars is_hex (digit n) = true ∧
  String.length (digit n) = 1%nat.

Lemma hex_digit n : 0 ≤ n < 16 → hex_digit_ok n.
Proof.
  intros Hn. assert (n ∈ seqZ 0 16) as Hin by (apply elem_of_seqZ; lia).
  vm_compute in Hin. repeat (apply elem_of_cons in Hin as [->|Hin]; [by split_and!|]).
  by apply elem_of_nil in Hin.
Qed.

Lemma print_hex_ok fuel n :
  0 ≤ n < 16 ^ Z.of_nat fuel → (1 ≤ fuel)%nat →
  hex_fold 0 (print_base fuel 16 n) = n ∧ all_chars is_hex (print_base fuel 16 n) = true ∧
  (1 ≤ String.length (print_base fuel 16 n) ≤ fuel)%nat.
Proof.
  revert n. induction fuel as [|fuel IH]; intros n Hn Hf; [lia|]. cbn [print_base].
  destruct (Z.ltb_spec n 16) as [Hlt|Hge].
  { destruct (hex_digit n) as (Hv & Hh & Hl); [lia|]. rewrite Hv, Hl. split_and!; [lia|done|lia..]. }
  rewrite Nat2Z.inj_succ, Z.pow_succ_r in Hn by lia.
  assert (0 ≤ n / 16 < 16 ^ Z.of_nat fuel) as Hd
    by (split; [apply Z.div_pos; lia|apply Z.div_lt_upper_bound; lia]).
  destruct (IH (n / 16) Hd) as (IHv & IHh & IHl).
  { destruct fuel; [|lia]. cbn in Hn. lia. }
  destruct (hex_digit (n `mod` 16)) as (Hv & Hh & Hl); [apply Z.mod_pos_bound; lia|].
  rewrite hex_fold_app, all_chars_app, length_string_app, IHv, IHh, Hv, Hh, Hl.
  split_and!; [pose proof (Z.div_mod n 16); lia|done|lia..].
Qed.

Lemma hex16_ok g : 0 ≤ g < 65536 → group_ok g.
Proof. intros Hg. apply print_hex_ok; [done|lia]. Qed.

Lemma scan_hex_app d off acc rest :
  all_chars is_hex d = true → (off + String.length d ≤ 4)%nat →
  scan_hex off acc (d +:+ rest) = scan_hex (off + String.length d) (hex_fold acc d) rest.
Proof.
  revert off acc. induction d as [|a d IH]; intros off acc Hd Hlen.
  { cbn [String.length hex_fold]. by rewrite Nat.add_0_r. }
  cbn [all_chars] in Hd. apply andb_true_iff in Hd as [Ha Hd]. cbn [String.length] in Hlen.
  apply bool_decide_eq_true in Ha as [v Hv].
  change (String a d +:+ rest) with (String a (d +:+ rest)). cbn [scan_hex]. rewrite Hv.
  destruct (Nat.ltb_spec 3 off); [lia|]. rewrite IH by (done || lia).
  cbn [String.length hex_fold]. rewrite Hv. cbn [default]. by rewrite Nat.add_succ_r.
Qed.

(** [rest] starts with none of the hex digits. *)
Definition stops (rest : string) : Prop :=
  match rest with EmptyString => True | String a _ => hex_val a = None end.

Lemma scan_hex_stops off acc rest : stops rest → scan_hex off acc rest = Some (off, acc, rest).
Proof. destruct rest; cbn; [done|]. by intros ->. Qed.

Lemma scan_group g rest :
  0 ≤ g < 65536 → stops rest → ∃ n, scan_hex 0 0 (hex16 g +:+ rest) = Some (S n, g, rest).
Proof.
  intros Hg Hr. destruct (hex16_ok g Hg) as (Hv & Hh & Hlen).
  rewrite scan_hex_app, scan_hex_stops by (done || lia). rewrite Hv.
  destruct (String.length (hex16 g)) as [|n] eqn:E; [lia|]. exists n. by rewrite Nat.add_0_l.
Qed.

(** ** IPv6 *)

Definition hexes (gs : list Z) : string := String.concat ":" (map hex16 gs).
Definition groups (gs : list Z) : Prop := Forall (λ g, 0 ≤ g < 65536) gs.

Lemma hexes_cons g h gs : hexes (g :: h :: gs) = hex16 g +:+ String ":" (hexes (h :: gs)).
Proof. reflexivity. Qed.

(** A printed group starts with a hex digit. *)
Lemma hex16_head g : 0 ≤ g < 65536 → ∃ a s, hex16 g = String a s ∧ is_hex a = true.
Proof.
  intros Hg. destruct (hex16_ok g Hg) as (_ & Hh & Hl).
  destruct (hex16 g) as [|a s]; [cbn in Hl; lia|]. cbn in Hh. apply andb_true_iff in Hh as [Ha _]. eauto.
Qed.

Lemma hexes_head gs rest :
  groups gs → gs ≠ [] → ∃ a s, hexes gs +:+ rest = String a s ∧ is_hex a = true.
Proof.
  intros Hg Hne. destruct gs as [|g gs]; [done|]. inversion Hg as [|? ? Hg1 _]; subst.
  destruct (hex16_head g Hg1) as (a & s & E & Ha).
  destruct gs as [|h gs]; [|rewrite hexes_cons]; unfold hexes; cbn [map String.concat]; rewrite E;
    by do 2 eexists.
Qed.

Lemma is_hex_not_colon a : is_hex a = true → a ≠ ":"%char.
Proof. by intros H ->. Qed.

(** One round of the loop on a group followed by a colon and more. *)
Lemma parse6_round fuel gs ell g a s :
  0 ≤ g < 65536 → (length gs < 8)%nat → a ≠ ":"%char →
  parse6_loop (S fuel) gs ell (hex16 g +:+ String ":" (String a s)) =
  parse6_loop fuel (gs ++ [g]) ell (String a s).
Proof.
  intros Hg Hlen Ha. cbn [parse6_loop]. destruct (Nat.leb_spec 8 (length gs)); [lia|].
  destruct (scan_group g (String ":" (String a s)) Hg) as (n & ->); [done|].
  destruct a as [[] [] [] [] [] [] [] []]; try done; by destruct Ha.
Qed.

Lemma parse6_last fuel gs ell g :
  0 ≤ g < 65536 → (length gs < 8)%nat →
  parse6_loop (S fuel) gs ell (hex16 g) = Some (gs ++ [g], ell, EmptyString).
Proof.
  intros Hg Hlen. cbn [parse6_loop]. destruct (Nat.leb_spec 8 (length gs)); [lia|].
  destruct (scan_group g "" Hg) as (n & E); [done|]. rewrite string_app_nil_r in E. by rewrite E.
Qed.

(** A group followed by the ellipsis. *)
Lemma parse6_ellipsis fuel gs g s :
  0 ≤ g < 65536 → (length gs < 8)%nat →
  parse6_loop (S fuel) gs None (hex16 g +:+ String ":" (String ":" s)) =
  if decide (s = "") then Some (gs ++ [g], Some (length gs + 1)%nat, EmptyString)
  else parse6_loop fuel (gs ++ [g]) (Some (length gs + 1)%nat) s.
Proof.
  intros Hg Hlen. cbn [parse6_loop]. destruct (Nat.leb_spec 8 (length gs)); [lia|].
  destruct (scan_group g (String ":" (String ":" s)) Hg) as (n & ->); [done|]. done.
Qed.

Lemma parse6_groups hs fuel gs ell :
  groups hs → hs ≠ [] → (length gs + length hs ≤ 8)%nat → (length hs ≤ fuel)%nat →
  parse6_loop fuel gs ell (hexes hs) = Some (gs ++ hs, ell, EmptyString).
Proof.
  intros Hh. revert fuel gs. induction Hh as [|g hs Hg Hh IH]; intros fuel gs Hne Hlen Hf; [done|].
  destruct fuel as [|fuel]; cbn [length] in *; [lia|]. destruct hs as [|h hs].
  { apply parse6_last; [done|lia]. }
  destruct (hexes_head (h :: hs) "" Hh ltac:(done)) as (a & s & E & Ha). rewrite string_app_nil_r in E.
  rewrite hexes_cons, E, parse6_round by (done || lia || by apply is_hex_not_colon). rewrite <-E.
  rewrite IH; [|done|rewrite length_app; cbn [length] in *; lia|cbn [length] in *; lia].
  by rewrite <-app_assoc.
Qed.

Lemma parse6_to_ellipsis hs ts fuel gs :
  groups hs → hs ≠ [] → groups ts → (length gs + length hs + length ts < 8)%nat →
  (length hs + length ts ≤ fuel)%nat →
  parse6_loop fuel gs None (hexes hs +:+ String ":" (String ":" (hexes ts))) =
  Some (gs ++ hs ++ ts, Some (length gs + length hs)%nat, EmptyString).
Proof.
  intros Hh Hne Ht. revert fuel gs Hne. induction Hh as [|g hs Hg Hh IH]; intros fuel gs Hne Hlen Hf; [done|].
  destruct fuel as [|fuel]; cbn [length] in *; [lia|]. destruct hs as [|h hs].
  - change (hexes [g]) with (hex16 g). rewrite parse6_ellipsis by (done || lia). cbn [length] in *.
    destruct ts as [|t ts]; [by rewrite decide_True|].
    destruct (hexes_head (t :: ts) "" Ht ltac:(done)) as (a & s & E & Ha). rewrite string_app_nil_r in E.
    rewrite decide_False by (rewrite E; done).
    rewrite parse6_groups by (done || (rewrite ?length_app; cbn [length] in *; lia)).
    by rewrite <-app_assoc.
  - destruct (hexes_head (h :: hs) (String ":" (String ":" (hexes ts))) Hh ltac:(done)) as (a & s & E & Ha).
    rewrite hexes_cons, string_app_assoc.
    change (String ":" (hexes (h :: hs)) +:+ ?r) with (String ":" (hexes (h :: hs) +:+ r)).
    rewrite E, parse6_round by (done || lia || by apply is_hex_not_colon). rewrite <-E.
    rewrite IH; [|done|rewrite ?length_app; cbn [length] in *; lia|cbn [length] in *; lia].
    rewrite <-app_assoc, length_app. cbn [length app]. do 3 f_equal. f_equal. lia.
Qed.

(** *** The run of zeros the printer leaves out *)

Lemma zero_run_spec gs : gs = replicate (zero_run gs) 0 ++ drop (zero_run gs) gs ∧ (zero_run gs ≤ length gs)%nat.
Proof.
  induction gs as [|g gs [IH Hl]]; [done|].
  destruct g; cbn [zero_run]; [|split; [done|cbn; lia]..]. cbn. rewrite <-IH. split; [done|lia].
Qed.

(** [r] names a run of at least two zero groups of [gs]. *)
Definition zero_span (gs : list Z) (r : nat * nat) : Prop :=
  (r.2 ≤ length gs)%nat ∧ (r.1 + 2 ≤ r.2)%nat ∧ gs = take r.1 gs ++ replicate (r.2 - r.1) 0 ++ drop r.2 gs.

Lemma zero_scan_spec pre gs best :
  (∀ r, best = Some r → zero_span (pre ++ gs) r) →
  ∀ r, zero_scan (length pre) gs best = Some r → zero_span (pre ++ gs) r.
Proof.
  revert pre best. induction gs as [|g gs IH]; intros pre best Hb r; [apply Hb|].
  cbn [zero_scan]. replace (S (length pre)) with (length (pre ++ [g])) by (rewrite length_app; cbn; lia).
  replace (pre ++ g :: gs) with ((pre ++ [g]) ++ gs) in * by (by rewrite <-app_assoc).
  apply IH. intros r' Hr'. destruct (_ && _) eqn:E; [|by apply Hb]. injection Hr' as <-.
  apply andb_true_iff in E as [E _]. apply Nat.leb_le in E.
  destruct (zero_run_spec (g :: gs)) as [Hz Hl].
  change (match g with 0 => S (zero_run gs) | _ => O end) with (zero_run (g :: gs)) in *.
  set (k := zero_run (g :: gs)) in *. clearbody k.
  rewrite <-app_assoc in *. cbn [app fst snd] in *. unfold zero_span. cbn [fst snd].
  rewrite length_app. split_and!; [lia|lia|].
  rewrite take_app_length, drop_app_add'. 2: done.
  replace (length pre + k - length pre)%nat with k by lia. by rewrite <-Hz.
Qed.

(** *** The number of the groups *)

Lemma groups_val_bytes b0 b1 b2 b3 b4 b5 b6 b7 b8 b9 b10 b11 b12 b13 b14 b15 :
  let bs := [b0; b1; b2; b3; b4; b5; b6; b7; b8; b9; b10; b11; b12; b13; b14; b15] in
  groups_val (u16_groups bs) = be_uint bs.
Proof. unfold groups_val. cbn. lia. Qed.

Lemma groups6_val x : 0 ≤ x < 2 ^ 128 → groups_val (groups6 x) = x.
Proof.
  intros Hx. unfold groups6. rewrite <-(be_uint_bytes_small 16 x) at 2 by exact Hx.
  pose proof (length_be_bytes 16 x) as Hl. destruct (be_bytes 16 x) as [|b0 bs]; [done|].
  do 15 (destruct bs as [|? bs]; [done|]). destruct bs; [|done]. apply groups_val_bytes.
Qed.

Lemma groups6_groups x : groups (groups6 x) ∧ length (groups6 x) = 8%nat.
Proof.
  assert (∀ hi lo, 0 ≤ hi < 256 → 0 ≤ lo < 256 → 0 ≤ hi * 256 + lo < 65536) as H by lia.
  split; [|reflexivity]. unfold groups6, groups. cbn [be_bytes u16_groups].
  repeat (apply Forall_cons; split; [apply H; apply Z.mod_pos_bound; lia|]). constructor.
Qed.

(** *** Addresses *)

Lemma parse6_text_hex a s z : is_hex a = true → parse6_text (String a s) z = parse6_body None (String a s) z.
Proof. intros Ha. destruct a as [[] [] [] [] [] [] [] []]; done. Qed.

Lemma expand6_span gs s e :
  length gs = 8%nat → zero_span gs (s, e) →
  expand6 (take s gs ++ drop e gs) (Some s) = Some gs.
Proof.
  intros Hl (He & Hs & Hgs). cbn [fst snd] in *. unfold expand6.
  assert (length (take s gs ++ drop e gs) = 8 - (e - s))%nat as Hlen
    by (rewrite length_app, length_take, length_drop; lia).
  rewrite Hlen. destruct (Nat.ltb_spec (8 - (e - s)) 8); [|lia].
  rewrite take_app_length', drop_app_length' by (rewrite length_take; lia).
  replace (8 - (8 - (e - s)))%nat with (e - s)%nat by lia. by rewrite <-Hgs.
Qed.

Lemma parse6_print gs z :
  groups gs → length gs = 8%nat → parse6_text (print6 gs) z = Some (Addr6 (groups_val gs) z).
Proof.
  intros Hg Hl. unfold print6. destruct (zero_scan 0 gs None) as [[s e]|] eqn:Ez.
  - assert (zero_span gs (s, e)) as Hspan by (by apply (zero_scan_spec [] gs None)).
    pose proof Hspan as (He & Hs & _). cbn [fst snd] in He, Hs. fold (hexes (take s gs)). fold (hexes (drop e gs)).
    pose proof (Forall_take _ s _ Hg : groups (take s gs)) as Ht.
    pose proof (Forall_drop _ e _ Hg : groups (drop e gs)) as Hd.
    change ("::" +:+ hexes (drop e gs)) with (String ":" (String ":" (hexes (drop e gs)))).
    destruct (decide (s = O)) as [->|Hs0].
    + pose proof (expand6_span gs 0 e Hl Hspan) as Hx. rewrite take_0 in *. cbn [app] in Hx.
      change (hexes [] +:+ ?r) with r. cbn [parse6_text].
      destruct (drop e gs) as [|d ds] eqn:Ed.
      * rewrite decide_True by done. unfold expand6 in Hx. cbn in Hx. injection Hx as <-. reflexivity.
      * destruct (hexes_head (d :: ds) "" Hd ltac:(done)) as (a & r & E & _). rewrite string_app_nil_r in E.
        rewrite decide_False by (rewrite E; done). unfold parse6_body. rewrite <-Ed in *.
        rewrite parse6_groups; [|done|by rewrite Ed|cbn [length]; rewrite length_drop; lia|rewrite length_drop; lia].
        cbn [app]. by rewrite Hx.
    + assert (take s gs ≠ []) as Hne by (destruct s, gs; done).
      destruct (hexes_head (take s gs) (String ":" (String ":" (hexes (drop e gs)))) Ht Hne) as (a & r & E & Ha).
      rewrite E, parse6_text_hex, <-E by done. unfold parse6_body.
      assert (length (take s gs) = s) as Hls by (rewrite length_take; lia).
      rewrite parse6_to_ellipsis by (done || (rewrite ?length_take, ?length_drop; cbn [length]; lia)).
      cbn [app length Nat.add]. by rewrite Hls, (expand6_span gs s e).
  - fold (hexes gs). assert (gs ≠ []) as Hne by (by destruct gs).
    destruct (hexes_head gs "" Hg Hne) as (a & r & E & Ha). rewrite string_app_nil_r in E.
    rewrite E, parse6_text_hex, <-E by done. unfold parse6_body.
    rewrite parse6_groups by (done || (cbn [length]; lia)). cbn [app]. unfold expand6. by rewrite Hl.
Qed.

(** A trailing IPv4 address, after an ellipsis. *)
Lemma parse6_dotted fuel gs p s n v rest x :
  (length gs ≤ 6)%nat → scan_hex 0 0 s = Some (S n, v, String "." rest) → parseIPv4Fields s = Some x →
  parse6_loop (S fuel) gs (Some p) s = Some (gs ++ [x / 2 ^ 16; x `mod` 2 ^ 16], Some p, EmptyString).
Proof.
  intros Hl Hscan Hx. cbn [parse6_loop]. destruct (Nat.leb_spec 8 (length gs)); [lia|].
  rewrite Hscan, bool_decide_false, andb_false_l by done.
  destruct (Nat.ltb_spec 8 (length gs + 2)); [lia|]. by rewrite Hx.
Qed.

(** An IPv4-mapped address. *)
Lemma parse6_mapped x z :
  0 ≤ x < 2 ^ 32 → parse6_text ("::ffff:" +:+ print4 x) z = Some (Addr6 (65535 * 2 ^ 32 + x) z).
Proof.
  intros Hx. destruct (print4_head x) as (rest & Eh).
  assert (0 ≤ (x / 2 ^ 24) `mod` 256 < 256) as Ho by (apply Z.mod_pos_bound; lia).
  destruct (octet_ok _ Ho) as (_ & _ & Hhex & Hlen).
  assert (∃ a s, print4 x = String a s ∧ is_hex a = true) as (a & s & Ea & Ha).
  { rewrite Eh. destruct (Uitoa _) as [|a u]; [cbn in Hlen; lia|]. cbn in Hhex.
    apply andb_true_iff in Hhex as [Ha _]. by exists a, (u +:+ String "." rest). }
  pose proof (parse4_print x Hx) as Hp.
  assert (∃ n v, scan_hex 0 0 (print4 x) = Some (S n, v, String "." rest)) as (n & v & Hscan).
  { rewrite Eh, scan_hex_app, scan_hex_stops by (done || lia).
    destruct (String.length _); [lia|]. by do 2 eexists. }
  rewrite Ea in *. clear Ea Eh Hhex Hlen.
  change ("::ffff:" +:+ String a s) with (String ":" (String ":" (hex16 65535 +:+ String ":" (String a s)))).
  cbn [parse6_text]. rewrite decide_False by discriminate. unfold parse6_body.
  rewrite parse6_round by (done || (cbn; lia) || by apply is_hex_not_colon).
  rewrite (parse6_dotted _ _ _ _ n v rest x) by (done || (cbn; lia)).
  assert (groups_val [0; 0; 0; 0; 0; 65535; x / 2 ^ 16; x `mod` 2 ^ 16] = 65535 * 2 ^ 32 + x) as <-.
  { unfold groups_val. cbn [foldl]. pose proof (Z.div_mod x (2 ^ 16)). lia. }
  reflexivity.
Qed.

Definition no_percent (a : ascii) : bool := negb (bool_decide (a = "%"%char)).

Lemma all_chars_impl (P Q : ascii → bool) s :
  (∀ a, P a = true → Q a = true) → all_chars P s = true → all_chars Q s = true.
Proof.
  intros H. induction s as [|a s IH]; [done|]. cbn. rewrite !andb_true_iff. intros [? ?]. auto.
Qed.

Lemma all_chars_concat P sep l :
  all_chars P sep = true → Forall (λ s, all_chars P s = true) l → all_chars P (String.concat sep l) = true.
Proof.
  intros Hs Hl. induction Hl as [|s l Hp Hl IH]; [done|]. destruct l as [|t l]; [done|].
  change (String.concat sep (s :: t :: l)) with (s +:+ sep +:+ String.concat sep (t :: l)).
  by rewrite !all_chars_app, Hp, Hs, IH.
Qed.

Lemma hex_no_percent s : all_chars is_hex s = true → all_chars no_percent s = true.
Proof. apply all_chars_impl. intros a Ha. unfold no_percent. rewrite bool_decide_false; [done|]. by intros ->. Qed.

Lemma hexes_no_percent gs : groups gs → all_chars no_percent (hexes gs) = true.
Proof.
  intros Hg. apply all_chars_concat; [done|]. apply Forall_map. eapply Forall_impl; [exact Hg|].
  intros g Hgr. apply hex_no_percent, (hex16_ok g Hgr).
Qed.

Lemma print4_no_percent x : all_chars no_percent (print4 x) = true.
Proof.
  apply all_chars_concat; [done|]. apply Forall_map. rewrite be_bytes_4.
  repeat (apply Forall_cons; split; [apply hex_no_percent, octet_ok, Z.mod_pos_bound; lia|]). constructor.
Qed.

Lemma print6_no_percent gs : groups gs → all_chars no_percent (print6 gs) = true.
Proof.
  intros Hg. unfold print6. destruct (zero_scan 0 gs None) as [[s e]|]; [|by apply hexes_no_percent].
  rewrite !all_chars_app. fold (hexes (take s gs)). fold (hexes (drop e gs)).
  rewrite !hexes_no_percent by (by apply Forall_take || by apply Forall_drop). done.
Qed.

Lemma cut_zone_none s : all_chars no_percent s = true → cut_zone s = (s, None).
Proof.
  induction s as [|a s IH]; [done|]. cbn [all_chars]. rewrite andb_true_iff. intros [Ha Hs].
  cbn [cut_zone]. rewrite IH by done.
  destruct a as [[] [] [] [] [] [] [] []]; try done.
Qed.

Lemma cut_zone_some s z : all_chars no_percent s = true → cut_zone (s +:+ String "%" z) = (s, Some z).
Proof.
  induction s as [|a s IH]; [done|]. cbn [all_chars]. rewrite andb_true_iff. intros [Ha Hs].
  change (String a s +:+ ?r) with (String a (s +:+ r)). cbn [cut_zone]. rewrite IH by done.
  destruct a as [[] [] [] [] [] [] [] []]; try done.
Qed.

(** An IPv6 text is recognised by its first colon. *)
Definition colon_first (s : string) : Prop :=
  ∃ h rest, s = h +:+ String ":" rest ∧ all_chars is_hex h = true.

Lemma colon_first_app s t : colon_first s → colon_first (s +:+ t).
Proof. intros (h & rest & -> & Hh). exists h, (rest +:+ t). by rewrite string_app_assoc. Qed.

Lemma colon_first_kind s : colon_first s → addr_kind s = Some ":"%char.
Proof. intros (h & rest & -> & Hh). apply addr_kind_app; auto. Qed.

Lemma print6_colon_first gs : groups gs → (2 ≤ length gs)%nat → colon_first (print6 gs).
Proof.
  intros Hg Hl. unfold print6. destruct (zero_scan 0 gs None) as [[s e]|].
  - destruct (take s gs) as [|g [|h hs]] eqn:Et.
    + exists "", (String ":" (String.concat ":" (map hex16 (drop e gs)))). done.
    + pose proof (Forall_take _ s _ Hg) as Ht. rewrite Et in Ht. inversion Ht; subst.
      exists (hex16 g), (String ":" (String.concat ":" (map hex16 (drop e gs)))).
      split; [done|by apply hex16_ok].
    + pose proof (Forall_take _ s _ Hg) as Ht. rewrite Et in Ht. inversion Ht; subst.
      apply colon_first_app. exists (hex16 g), (hexes (h :: hs)). split; [done|by apply hex16_ok].
  - destruct gs as [|g [|h hs]]; [cbn in Hl; lia..|]. inversion Hg; subst.
    exists (hex16 g), (hexes (h :: hs)). split; [done|by apply hex16_ok].
Qed.

(** An address as the library produces them: a value of its width. *)
Definition addr_ok (a : Addr) : Prop :=
  match a with AddrZero => False | Addr4 x => 0 ≤ x < 2 ^ 32 | Addr6 x _ => 0 ≤ x < 2 ^ 128 end.

Lemma parseIPv6_zone s z x :
  all_chars no_percent s = true → (∀ z, parse6_text s z = Some (Addr6 x z)) →
  parseIPv6 (s +:+ (if decide (z = "") then "" else "%" +:+ z)) = Some (Addr6 x z).
Proof.
  intros Hs Hp. unfold parseIPv6. case_decide as Hz.
  - rewrite string_app_nil_r, cut_zone_none by done. subst z. apply Hp.
  - change ("%" +:+ z) with (String "%" z). rewrite cut_zone_some by done.
    rewrite decide_False by (intros [= ?]; done). apply Hp.
Qed.

Theorem ParseAddr_String a : addr_ok a → ParseAddr (Addr_String a) = Some a.
Proof.
  destruct a as [|x|x z]; [done|apply ParseAddr_print4|]. intros Hx. cbn [addr_ok] in Hx.
  unfold ParseAddr, Addr_String. destruct (Is4In6 (Addr6 x z)) eqn:Em.
  - cbn [Is4In6] in Em. apply Z.eqb_eq in Em. rewrite colon_first_kind.
    2:{ apply colon_first_app. by exists "", (":ffff:" +:+ print4 (x `mod` 2 ^ 32)). }
    apply parseIPv6_zone; [by rewrite all_chars_app, print4_no_percent|]. intros z'.
    rewrite parse6_mapped by (apply Z.mod_pos_bound; lia). do 2 f_equal.
    pose proof (Z.div_mod x (2 ^ 32)). lia.
  - destruct (groups6_groups x) as [Hg Hl]. rewrite colon_first_kind.
    2:{ apply colon_first_app, print6_colon_first; [done|lia]. }
    apply parseIPv6_zone; [by apply print6_no_percent|]. intros z'.
    by rewrite parse6_print, groups6_val.
Qed.

(** ** [net.IP] *)

(** [netip.ParseAddr(ip.String())] of a slice: four bytes, or sixteen that are
    not an IPv4-mapped address. *)
Lemma ParseAddr_IP_String f x :
  0 ≤ x < 2 ^ width f → plain f x →
  ParseAddr (IP_String (mk_ip f x)) = Some (match f with V4 => Addr4 x | V6 => Addr6 x "" end).
Proof.
  intros Hx Hp. unfold IP_String. rewrite length_mk_ip. destruct f.
  - rewrite To4_v4. cbn [nbytes Nat.eqb]. by apply ParseAddr_print4.
  - rewrite To4_v6 by done. cbn [nbytes Nat.eqb IPv6len].
    pose proof (ParseAddr_String (Addr6 x "") Hx) as H. unfold Addr_String in H.
    replace (Is4In6 (Addr6 x "")) with false in H.
    + by rewrite decide_True, string_app_nil_r in H.
    + symmetry. cbn [Is4In6]. apply Z.eqb_neq. by apply Hp.
Qed.

Lemma ParseIP_String x : 0 ≤ x < 2 ^ 128 → ParseIP (Addr_String (Addr6 x "")) = Some (mk_ip V6 x).
Proof. intros Hx. unfold ParseIP. rewrite ParseAddr_String by done. by rewrite decide_True. Qed.

(** ** Prefixes *)

Definition no_slash (a : ascii) : bool := negb (bool_decide (a = "/"%char)).

Lemma cut_last_slash_none s : all_chars no_slash s = true → cut_last_slash s = None.
Proof.
  induction s as [|a s IH]; [done|]. cbn [all_chars cut_last_slash]. rewrite andb_true_iff. intros [Ha Hs].
  rewrite IH by done. rewrite decide_False; [done|]. by intros ->.
Qed.

Lemma cut_last_slash_app h t :
  all_chars no_slash t = true → cut_last_slash (h +:+ String "/" t) = Some (h, t).
Proof.
  intros Ht. induction h as [|a h IH].
  - change ("" +:+ String "/" t) with (String "/" t). cbn [cut_last_slash].
    rewrite cut_last_slash_none by done. by rewrite decide_True.
  - change (String a h +:+ ?r) with (String a (h +:+ r)). cbn [cut_last_slash]. by rewrite IH.
Qed.

Definition bits_facts (b : Z) : Prop := parse_bits (Uitoa b) = Some b ∧ all_chars no_slash (Uitoa b) = true.
#[local] Instance bits_facts_dec b : Decision (bits_facts b).
Proof. unfold bits_facts. apply _. Defined.
Lemma bits_ok b : 0 ≤ b < 129 → bits_facts b.
Proof. apply (forall_below bits_facts 129). vm_compute. reflexivity. Qed.

(** A prefix as [PrefixFrom] makes them from a valid address and length. *)
Definition prefix_ok (p : Prefix) : Prop :=
  addr_ok (Prefix_Addr p) ∧ hasZone (Prefix_Addr p) = false ∧ 0 ≤ Bits p ≤ BitLen (Prefix_Addr p).

Lemma PrefixFrom_ok p : prefix_ok p → PrefixFrom (Prefix_Addr p) (Bits p) = p.
Proof.
  destruct p as [a b]. intros (Ha & Hz & Hb & Hb'). cbn [Prefix_Addr Bits] in *. unfold PrefixFrom.
  rewrite (proj2 (Z.leb_le 0 b) Hb), (proj2 (Z.leb_le b (BitLen a)) Hb').
  destruct a as [|x|x z]; [done|done|]. cbn in Hz. apply negb_false_iff, bool_decide_eq_true in Hz. by subst z.
Qed.

Theorem ParsePrefix_String p : prefix_ok p → ParsePrefix (Prefix_String p) = Some p.
Proof.
  intros Hp. pose proof Hp as (Ha & Hz & Hb & Hb'). unfold Prefix_String, Prefix_IsValid, ParsePrefix.
  rewrite (proj2 (Z.leb_le _ _) Hb).
  assert (0 ≤ Bits p < 129) as Hr by (destruct (Prefix_Addr p); cbn in Hb'; lia).
  destruct (bits_ok (Bits p) Hr) as [Hpb Hns].
  change ("/" +:+ Uitoa (Bits p)) with (String "/" (Uitoa (Bits p))).
  rewrite cut_last_slash_app, ParseAddr_String, Hz, andb_false_r, Hpb by done.
  destruct (Z.ltb_spec (Bits p) 0); [lia|]. destruct (Z.ltb_spec (BitLen (Prefix_Addr p)) (Bits p)); [lia|].
  cbn [orb]. by rewrite PrefixFrom_ok.
Qed.
