(* ===== verification/NetIPParse.v ===== *)
(** * What [netip.ParseAddr] accepts

    A parsed address is a value of its width, so that its text parses to it again:
    printing is a normal form of the accepted texts. *)

From S2P Require Import Prelude GoNet GoStrings NetIP NetIPRoundTrip.
From Stdlib Require Import Ascii.

Local Open Scope go_scope.

Definition u16 (g : Z) : Prop := 0 ≤ g < 2 ^ 16.
Definition u8 (g : Z) : Prop := 0 ≤ g < 256.

(** ** IPv4 *)

Lemma digit_val_range a d : digit_val a = Some d → 0 ≤ d ≤ 9.
Proof. unfold digit_val. case_match eqn:E; [|done]. intros [= <-]. apply andb_true_iff in E. lia. Qed.

Lemma octet_digits_range acc s x : u8 acc → octet_digits acc s = Some x → u8 x.
Proof.
  unfold u8. revert acc. induction s as [|a s IH]; intros acc Ha; cbn [octet_digits]; [by intros [= <-]|].
  destruct (digit_val a) as [d|] eqn:Ed; [|done]. apply digit_val_range in Ed.
  destruct (Z.ltb_spec 255 (acc * 10 + d)); [done|]. apply IH. lia.
Qed.

Lemma parse_octet_range s x : parse_octet s = Some x → u8 x.
Proof.
  unfold parse_octet. assert (u8 0) as H0 by (unfold u8; lia).
  repeat case_match; try done; by apply octet_digits_range.
Qed.

Lemma parseIPv4Fields_range s x : parseIPv4Fields s = Some x → 0 ≤ x < 2 ^ 32.
Proof.
  unfold parseIPv4Fields. destruct (mapM parse_octet (Split s ".")) as [l|] eqn:E; [|done].
  apply mapM_Some in E. assert (Forall u8 l) as Hl.
  { clear -E. induction E; constructor; [by eapply parse_octet_range|done]. }
  destruct l as [|a [|b [|c [|d [|]]]]]; try done. intros [= <-].
  rewrite !Forall_cons in Hl. unfold u8 in Hl. cbn. lia.
Qed.

(** ** IPv6 *)

Lemma hex_val_range a d : hex_val a = Some d → 0 ≤ d < 16.
Proof.
  unfold hex_val. repeat case_match; try done; intros [= <-];
    repeat match goal with H : _ && _ = true |- _ => apply andb_true_iff in H end; lia.
Qed.

Lemma scan_hex_range off acc s off' acc' rest :
  (off ≤ 4)%nat → 0 ≤ acc < 16 ^ Z.of_nat off → scan_hex off acc s = Some (off', acc', rest) → u16 acc'.
Proof.
  unfold u16. revert off acc. induction s as [|c s IH]; intros off acc Ho Ha; cbn [scan_hex].
  { intros [= <- <- <-]. split; [lia|]. eapply Z.lt_le_trans; [apply Ha|].
    change (2 ^ 16) with (16 ^ 4). apply Z.pow_le_mono_r; lia. }
  destruct (hex_val c) as [d|] eqn:Ed.
  - apply hex_val_range in Ed. destruct (Nat.ltb_spec 3 off); [done|]. apply IH; [lia|].
    rewrite Nat2Z.inj_succ, Z.pow_succ_r by lia. lia.
  - intros [= <- <- <-]. split; [lia|]. eapply Z.lt_le_trans; [apply Ha|].
    change (2 ^ 16) with (16 ^ 4). apply Z.pow_le_mono_r; lia.
Qed.

(** Groups as [parseIPv6] keeps them. *)
Definition groups_ok (gs : list Z) (ell : option nat) : Prop :=
  Forall u16 gs ∧ (length gs ≤ 8)%nat ∧ ∀ p, ell = Some p → (p ≤ length gs)%nat.

Lemma groups_ok_snoc gs ell acc :
  groups_ok gs ell → (length gs < 8)%nat → u16 acc → groups_ok (gs ++ [acc]) ell.
Proof.
  intros (Hg & Hl & He) Hlt Ha. split; [by apply Forall_app; split; [|constructor]|].
  rewrite length_app. cbn. split; [lia|]. intros p Hp. specialize (He p Hp). lia.
Qed.

Lemma groups_ok_ell gs ell acc :
  groups_ok gs ell → (length gs < 8)%nat → u16 acc → groups_ok (gs ++ [acc]) (Some (length gs + 1)%nat).
Proof.
  intros Hg Hlt Ha. destruct (groups_ok_snoc gs ell acc Hg Hlt Ha) as (H1 & H2 & _).
  split; [done|]. split; [done|]. intros p [= <-]. rewrite length_app. cbn. lia.
Qed.

Lemma parse6_loop_groups fuel gs ell s gs' ell' rest :
  groups_ok gs ell → parse6_loop fuel gs ell s = Some (gs', ell', rest) → groups_ok gs' ell'.
Proof.
  revert gs ell s. induction fuel as [|fuel IH]; intros gs ell s Hg; cbn [parse6_loop]; [by intros [= <- <- <-]|].
  destruct (Nat.leb_spec 8 (length gs)) as [|Hlt]; [by intros [= <- <- <-]|].
  destruct (scan_hex 0 0 s) as [[[[|off] acc] r]|] eqn:Es; [done| |done].
  apply scan_hex_range in Es; [|lia|cbn; lia].
  destruct r as [|c r]; [intros [= <- <- <-]; by apply groups_ok_snoc|].
  destruct (decide (c = "."%char)) as [->|Hd].
  { case_match; [done|]. destruct (Nat.ltb_spec 8 (length gs + 2)); [done|].
    destruct (parseIPv4Fields s) as [x|] eqn:Ex; [|done]. intros [= <- <- <-].
    apply parseIPv4Fields_range in Ex. destruct Hg as (Hg & Hl & He).
    split; [apply Forall_app; split; [done|]|rewrite length_app; cbn; split; [lia|intros p Hp; specialize (He p Hp); lia]].
    constructor; [|constructor; [|constructor]]; unfold u16.
    - split; [apply Z.div_pos; lia|apply Z.div_lt_upper_bound; lia].
    - apply Z.mod_pos_bound. lia. }
  destruct (decide (c = ":"%char)) as [->|Hc].
  2:{ destruct c as [[] [] [] [] [] [] [] []]; done. }
  destruct r as [|c r]; [done|].
  destruct (decide (c = ":"%char)) as [->|Hc].
  - case_decide as Hell; [|done]. case_decide; [intros [= <- <- <-]; by eapply groups_ok_ell|].
    apply IH. by eapply groups_ok_ell.
  - intros E. apply (IH (gs ++ [acc]) ell (String c r)); [by apply groups_ok_snoc|].
    destruct c as [[] [] [] [] [] [] [] []]; done.
Qed.

Lemma groups_val_range gs : Forall u16 gs → 0 ≤ groups_val gs < 2 ^ (16 * Z.of_nat (length gs)).
Proof.
  unfold groups_val. intros Hg. induction gs as [|g gs IH] using rev_ind; [by split|].
  apply Forall_app in Hg as [Hg Hlast]. specialize (IH Hg). rewrite foldl_app, length_app. cbn [foldl length].
  rewrite Forall_singleton in Hlast. unfold u16 in Hlast.
  replace (16 * Z.of_nat (length gs + 1)) with (16 * Z.of_nat (length gs) + 16) by lia.
  rewrite Z.pow_add_r by lia. change (2 ^ 16) with 65536 in *.
  generalize dependent (2 ^ (16 * Z.of_nat (length gs))). intros P IH. lia.
Qed.

Lemma expand6_groups gs ell l : groups_ok gs ell → expand6 gs ell = Some l → Forall u16 l ∧ length l = 8%nat.
Proof.
  intros (Hg & Hl & He). unfold expand6. destruct (Nat.ltb_spec (length gs) 8).
  - destruct ell as [p|]; [|done]. intros [= <-]. specialize (He p eq_refl).
    split; [|rewrite !length_app, length_take, length_replicate, length_drop; lia].
    rewrite !Forall_app. split; [by apply Forall_take|]. split; [|by apply Forall_drop].
    apply Forall_replicate. unfold u16. lia.
  - destruct ell; [done|]. intros [= <-]. split; [done|lia].
Qed.

Lemma parse6_text_ok s z a : parse6_text s z = Some a → addr_ok a.
Proof.
  assert (∀ ell s' a, (∀ p, ell = Some p → p = 0%nat) → parse6_body ell s' z = Some a → addr_ok a) as Hb.
  { intros ell s' b He. unfold parse6_body. destruct (parse6_loop 8 [] ell s') as [[[gs ell'] rest]|] eqn:E; [|done].
    destruct rest; [|done]. apply parse6_loop_groups in E.
    2:{ split; [constructor|]. split; [cbn; lia|]. intros p Hp. rewrite (He p Hp). cbn. lia. }
    destruct (expand6 gs ell') as [l|] eqn:Ex; [|done]. intros [= <-]. cbn [addr_ok].
    destruct (expand6_groups _ _ _ E Ex) as [Hl Hlen]. pose proof (groups_val_range l Hl) as H. by rewrite Hlen in H. }
  assert (∀ s' a, parse6_body None s' z = Some a → addr_ok a) as H0.
  { intros s' b. by apply (Hb None). }
  unfold parse6_text. repeat case_match; try apply H0; try (by intros [= <-]; cbn; lia).
  apply Hb. by intros p [= <-].
Qed.

(** A parsed address is a value of its width. *)
Theorem ParseAddr_ok s a : ParseAddr s = Some a → addr_ok a.
Proof.
  unfold ParseAddr. assert (∀ a, Addr4 <$> parseIPv4Fields s = Some a → addr_ok a) as H4.
  { intros b. destruct (parseIPv4Fields s) as [x|] eqn:E; [|done]. intros [= <-]. by apply parseIPv4Fields_range in E. }
  assert (∀ a, parseIPv6 s = Some a → addr_ok a) as H6.
  { intros b. unfold parseIPv6. destruct (cut_zone s) as [h zone]. case_decide; [done|]. apply parse6_text_ok. }
  repeat case_match; try done; auto.
Qed.

(** So its text is a normal form, and is never empty. *)
Lemma ParseAddr_normal s a : ParseAddr s = Some a → ParseAddr (Addr_String a) = Some a.
Proof. intros H. by apply ParseAddr_String, (ParseAddr_ok s). Qed.

Lemma ParseAddr_nonempty s a : ParseAddr s = Some a → Addr_String a ≠ "".
Proof. intros H%ParseAddr_normal E. by rewrite E in H. Qed.
