(* ===== verification/NetUtils.v ===== *)
(** * [pkg/utils/net]: the choice of one address per family *)

From S2P Require Import Prelude GoNet GoStrings NetIP NetIPRoundTrip NetIPParse.
From Stdlib Require Import Ascii Sorted.

Local Open Scope go_scope.

(** ** Local addresses *)

(** [FilterIPs] of the library keeps the addresses of some networks. *)
Definition localSubnets : list string := ["10.0.0.0/8"; "172.16.0.0/12"; "192.168.0.0/16"; "fd00::/8"].
Definition FilterLocalNetIPs (FilterIPs : list Addr → list string → error + list Addr) (ips : list Addr)
    : error + list Addr := FilterIPs ips localSubnets.

(** ** Preferred addresses *)

(** The body of the loop: [acc] holds [ipv4] and [ipv6]. *)
Definition preferred_step (acc : string * string) (ip : string) : string * string :=
  let '(ipv4, ipv6) := acc in
  match ParseAddr ip with
  | None => acc
  | Some nip =>
      if Is6 nip then (if bool_decide (ipv6 = "") then (ipv4, Addr_String nip) else acc)
      else (if bool_decide (ipv4 = "") then (Addr_String nip, ipv6) else acc)
  end.

Definition PreferredDualStackNodeIPs (preferIPv6 : bool) (ips : list string) : list string :=
  let '(ipv4, ipv6) := foldl preferred_step ("", "") ips in
  let v4 := if bool_decide (ipv4 = "") then [] else [ipv4] in
  let v6 := if bool_decide (ipv6 = "") then [] else [ipv6] in
  if preferIPv6 then v6 ++ v4 else v4 ++ v6.

(** ** Sorted addresses *)

(** [sort.Strings]: the one sorted arrangement, by bytes. *)
Definition String_leb (s t : string) : bool :=
  match String.compare s t with Gt => false | _ => true end.
Fixpoint insert_string (x : string) (l : list string) : list string :=
  match l with
  | [] => [x]
  | y :: l' => if String_leb x y then x :: l else y :: insert_string x l'
  end.
Definition sort_Strings (l : list string) : list string := foldr insert_string [] l.

(** The result; the two lists are sorted in place. *)
Definition SortedNodeIPs (nodeIP : string) (first second : list string)
    : list string * list string * list string :=
  let first := sort_Strings first in
  let second := sort_Strings second in
  let pick l := match List.find (λ ip, negb (bool_decide (ip = nodeIP))) l with Some ip => [ip] | None => [] end in
  (pick first ++ pick second, first, second).

(** ** What [PreferredDualStackNodeIPs] chooses *)

(** The first address of a family, as text. *)
Definition first_of (six : bool) (ips : list string) : list string :=
  match filter (λ a, Is6 a = six) (omap ParseAddr ips) with
  | a :: _ => [Addr_String a]
  | [] => []
  end.

Lemma preferred_fold ips v4 v6 :
  let acc := foldl preferred_step (v4, v6) ips in
  acc.1 = (if bool_decide (v4 = "") then default "" (head (first_of false ips)) else v4) ∧
  acc.2 = (if bool_decide (v6 = "") then default "" (head (first_of true ips)) else v6).
Proof.
  revert v4 v6. induction ips as [|ip ips IH]; intros v4 v6; cbn [foldl]; [by repeat case_bool_decide; subst|].
  unfold first_of. cbn [omap list_omap]. unfold preferred_step at 2 4.
  destruct (ParseAddr ip) as [a|] eqn:Ea; [|apply IH]. pose proof (ParseAddr_nonempty ip a Ea) as Hne.
  rewrite !filter_cons. destruct (Is6 a) eqn:E6.
  - rewrite (decide_False (P := true = false)), (decide_True (P := true = true)) by done. cbn [head default].
    destruct (decide (v6 = "")) as [->|H6].
    + destruct (IH v4 (Addr_String a)) as [I1 I2]. rewrite bool_decide_false in I2 by done. by split.
    + destruct (IH v4 v6) as [I1 I2]. rewrite bool_decide_false in * by done. by split.
  - rewrite (decide_True (P := false = false)), (decide_False (P := false = true)) by done. cbn [head default].
    destruct (decide (v4 = "")) as [->|H4].
    + destruct (IH (Addr_String a) v6) as [I1 I2]. rewrite bool_decide_false in I1 by done. by split.
    + destruct (IH v4 v6) as [I1 I2]. rewrite (bool_decide_false (v4 = "")) in * by done. by split.
Qed.

Lemma first_of_cases six ips :
  first_of six ips = [] ∨ ∃ ip a, ip ∈ ips ∧ ParseAddr ip = Some a ∧ Is6 a = six ∧ first_of six ips = [Addr_String a].
Proof.
  unfold first_of. destruct (filter _ _) as [|a l] eqn:E; [by left|]. right.
  assert (a ∈ filter (λ a, Is6 a = six) (omap ParseAddr ips)) as Ha by (rewrite E; left).
  apply list_elem_of_filter in Ha as [H6 (ip & Hip & Ea)%list_elem_of_omap]. by exists ip, a.
Qed.

Lemma preferred_first preferIPv6 ips :
  PreferredDualStackNodeIPs preferIPv6 ips =
    if preferIPv6 then first_of true ips ++ first_of false ips else first_of false ips ++ first_of true ips.
Proof.
  unfold PreferredDualStackNodeIPs. pose proof (preferred_fold ips "" "") as [H4 H6]. cbn in H4, H6.
  destruct (foldl preferred_step ("", "") ips) as [v4 v6]. cbn [fst snd] in *.
  assert (∀ six, (if bool_decide (default "" (head (first_of six ips)) = "") then []
                  else [default "" (head (first_of six ips))]) = first_of six ips) as Hf.
  { intros six. destruct (first_of_cases six ips) as [-> |(ip & a & _ & Ea & _ & ->)]; [done|]. cbn [head default].
    by rewrite bool_decide_false by (by apply (ParseAddr_nonempty ip)). }
  rewrite (bool_decide_true (("" : string) = "")) in H4, H6 by done. by rewrite H4, H6, !Hf.
Qed.

Lemma first_of_app six l l' :
  first_of six (l ++ l') = match first_of six l with [] => first_of six l' | r => r end.
Proof. unfold first_of. rewrite omap_app, filter_app. by destruct (filter _ (omap ParseAddr l)). Qed.

Lemma first_of_first six six' ips :
  first_of six (first_of six' ips) = if decide (six = six') then first_of six ips else [].
Proof.
  destruct (first_of_cases six' ips) as [E|(ip & a & _ & Ea & E6 & E)]; rewrite E.
  { case_decide as H; [subst; by rewrite E|done]. }
  unfold first_of at 1. cbn [omap list_omap]. rewrite (ParseAddr_normal ip a Ea), filter_cons, E6.
  destruct (decide (six = six')) as [->|Hne]; [by rewrite decide_True, E|by rewrite decide_False by congruence].
Qed.

Lemma preferred_idem preferIPv6 ips :
  PreferredDualStackNodeIPs preferIPv6 (PreferredDualStackNodeIPs preferIPv6 ips) = PreferredDualStackNodeIPs preferIPv6 ips.
Proof.
  rewrite !preferred_first. destruct preferIPv6; rewrite !first_of_app, !first_of_first; cbn;
    by destruct (first_of true ips), (first_of false ips).
Qed.

(** [PreferredDualStackNodeIPs] keeps the first address of each family that
    parses, in normal form, with the preferred family first; the result is a fixed
    point, the other preference gives the reverse list, and every address of the
    result is the text of an address of the input. *)
Theorem preferred_dual_stack preferIPv6 ips :
  let res := PreferredDualStackNodeIPs preferIPv6 ips in
  res = (if preferIPv6 then first_of true ips ++ first_of false ips else first_of false ips ++ first_of true ips) ∧
  PreferredDualStackNodeIPs preferIPv6 res = res ∧
  PreferredDualStackNodeIPs (negb preferIPv6) ips = rev res ∧
  (∀ x, x ∈ res → ∃ ip a, ip ∈ ips ∧ ParseAddr ip = Some a ∧ x = Addr_String a) ∧
  (∀ ip a, ip ∈ ips → ParseAddr ip = Some a → ∃ b, ParseAddr (Addr_String b) = Some b ∧ Is6 b = Is6 a ∧ Addr_String b ∈ res).
Proof.
  intros res. subst res. split; [apply preferred_first|]. split; [|split; [|split]].
  - apply preferred_idem.
  - rewrite !preferred_first. assert (∀ six, rev (first_of six ips) = first_of six ips) as Hr.
    { intros six. by destruct (first_of_cases six ips) as [-> |(ip & a & _ & _ & _ & ->)]. }
    destruct preferIPv6; cbn [negb]; by rewrite rev_app_distr, !Hr.
  - intros x. rewrite preferred_first. assert (∀ six, x ∈ first_of six ips →
      ∃ ip a, ip ∈ ips ∧ ParseAddr ip = Some a ∧ x = Addr_String a) as H.
    { intros six. destruct (first_of_cases six ips) as [-> |(ip & a & Hip & Ea & _ & ->)]; [by rewrite elem_of_nil|].
      rewrite list_elem_of_singleton. intros ->. by exists ip, a. }
    destruct preferIPv6; rewrite elem_of_app; intros [Hx|Hx]; eauto.
  - intros ip a Hip Ea. assert (∃ b, ParseAddr (Addr_String b) = Some b ∧ Is6 b = Is6 a ∧ Addr_String b ∈ first_of (Is6 a) ips)
      as (b & Hb & H6 & Hin).
    { destruct (first_of_cases (Is6 a) ips) as [E|(ip' & b & _ & Eb & H6 & ->)].
      - exfalso. unfold first_of in E. destruct (filter _ _) eqn:Ef; [|done].
        assert (a ∈ filter (λ b, Is6 b = Is6 a) (omap ParseAddr ips)) as Ha.
        { apply list_elem_of_filter. split; [done|]. apply list_elem_of_omap. eauto. }
        by rewrite Ef, elem_of_nil in Ha.
      - exists b. split; [by apply (ParseAddr_normal ip')|]. split; [done|]. by apply list_elem_of_singleton. }
    exists b. split; [done|]. split; [done|]. rewrite preferred_first.
    destruct preferIPv6, (Is6 a); apply elem_of_app; auto.
Qed.
