(* ===== verification/Azure.v ===== *)
(** * [pkg/utils/platform/azure.go]: the resource group of an Azure resource

    The one regular expression of the file, on a matcher for expressions made of
    literals and of runs [.*], [.+] that take as much as the rest of the expression
    leaves them, like Go's. *)

From S2P Require Import Prelude GoStrings.
From Stdlib Require Import Ascii.

Local Open Scope go_scope.

(** ** Matching *)

Inductive rx :=
  | RLit (s : string)
  | RRun (min : nat) (capture : bool).

(** The number of characters before the end of the line. *)
Fixpoint line_length (s : string) : nat :=
  match s with
  | EmptyString => 0
  | String a s' => if decide (a = "010"%char) then 0 else S (line_length s')
  end.

Fixpoint drop_chars (n : nat) (s : string) : string :=
  match n, s with
  | S n', String _ s' => drop_chars n' s'
  | _, _ => s
  end.

(** A run of at most [n] characters at the head of [s], as long as [rest] allows. *)
Fixpoint longest (rest : string → option (list string)) (min : nat) (capture : bool) (s : string) (n : nat)
    : option (list string) :=
  if (n <? min)%nat then None
  else match rest (drop_chars n s) with
       | Some caps => Some (if capture then String.substring 0 n s :: caps else caps)
       | None => match n with O => None | S n' => longest rest min capture s n' end
       end.

(** The captures of the expression at the head of [s]. *)
Fixpoint rx_match (p : list rx) (s : string) : option (list string) :=
  match p with
  | [] => Some []
  | RLit l :: p' => match CutPrefix s l with Some s' => rx_match p' s' | None => None end
  | RRun min capture :: p' => longest (rx_match p') min capture s (line_length s)
  end.

(** [FindStringSubmatch] without the whole match: the captures of the leftmost
    match. *)
Fixpoint FindStringSubmatch (p : list rx) (s : string) : option (list string) :=
  match rx_match p s with
  | Some caps => Some caps
  | None => match s with EmptyString => None | String _ s' => FindStringSubmatch p s' end
  end.

(** ** The file *)

Definition azureResourceGroupNameRE : list rx :=
  [RRun 0 false; RLit "/subscriptions/"; RRun 0 false; RLit "/resourceGroups/"; RRun 1 true;
   RLit "/providers/"; RRun 0 false].
Definition azureResourceGroupNameRE_String : string :=
  ".*/subscriptions/(?:.*)/resourceGroups/(.+)/providers/(?:.*)".

Definition AzureConvertResourceGroupNameToLower (resourceID : string) : outcome string :=
  match FindStringSubmatch azureResourceGroupNameRE resourceID with
  | Some [resourceGroup] => Ok (Replace1 resourceID resourceGroup (ToLower resourceGroup))
  | _ => Err (ErrNew (quoted resourceID +:+ " isn't in Azure resource ID format " +:+
                      quoted azureResourceGroupNameRE_String))
  end.

(** ** What it changes *)

(** [g] is part of [s]. *)
Definition inside (g s : string) : Prop := ∃ h t, s = h +:+ g +:+ t.

Lemma inside_app_l g h s : inside g s → inside g (h +:+ s).
Proof. intros (h' & t & ->). exists (h +:+ h'), t. by rewrite string_app_assoc. Qed.

Lemma take_drop_chars n s : s = String.substring 0 n s +:+ drop_chars n s.
Proof.
  revert s. induction n as [|n IH]; intros [|a s]; [done..|].
  change (String a s = String a (String.substring 0 n s +:+ drop_chars n s)). by rewrite <-IH.
Qed.

Lemma cut_first_inside g s : inside g s → ∃ h t, cut_first s g = Some (h, t).
Proof.
  intros (h & t & ->). induction h as [|a h IH].
  - change ("" +:+ g +:+ t) with (g +:+ t). pose proof (CutPrefix_app g t) as E.
    destruct (g +:+ t); cbn [cut_first]; rewrite E; eauto.
  - change (String a h +:+ g +:+ t) with (String a (h +:+ g +:+ t)). cbn [cut_first].
    case_match; [eauto|]. destruct IH as (h' & t' & ->). cbn. eauto.
Qed.

(** The number of captures of an expression. *)
Definition captures (p : list rx) : nat :=
  length (filter (λ x, match x with RRun _ true => true | _ => false end = true) p).

Lemma longest_Some rest min capture s n caps :
  longest rest min capture s n = Some caps →
  ∃ k caps', rest (drop_chars k s) = Some caps' ∧ caps = (if capture then String.substring 0 k s :: caps' else caps').
Proof.
  induction n as [|n IH]; cbn [longest]; (destruct (_ <? min)%nat; [done|]);
    (destruct (rest (drop_chars _ s)) as [caps'|] eqn:E; [intros [= <-]; by eexists _, _|]); [done|apply IH].
Qed.

Lemma rx_match_captures p s caps :
  rx_match p s = Some caps → length caps = captures p ∧ Forall (λ g, inside g s) caps.
Proof.
  revert s caps. induction p as [|[l|min cap] p IH]; intros s caps; cbn [rx_match]; [intros [= <-]; by split| |].
  { destruct (CutPrefix s l) as [s'|] eqn:E; [|done]. intros [Hl Hi]%IH. split; [done|].
    apply CutPrefix_Some in E as ->. apply (Forall_impl _ _ _ Hi). intros g. apply inside_app_l. }
  intros (k & caps' & [Hl Hi]%IH & ->)%longest_Some.
  assert (Forall (λ g, inside g s) caps') as Hi'.
  { apply (Forall_impl _ _ _ Hi). intros g Hg. rewrite (take_drop_chars k s). by apply inside_app_l. }
  destruct cap; (split; [cbn; by rewrite Hl|]); [constructor; [|done]|done].
  exists "", (drop_chars k s). apply take_drop_chars.
Qed.

Lemma FindStringSubmatch_captures p s caps :
  FindStringSubmatch p s = Some caps → length caps = captures p ∧ Forall (λ g, inside g s) caps.
Proof.
  induction s as [|a s IH]; cbn [FindStringSubmatch].
  - destruct (rx_match p "") eqn:E; [|done]. intros [= <-]. by apply rx_match_captures.
  - destruct (rx_match p (String a s)) eqn:E; [intros [= <-]; by apply rx_match_captures|].
    intros [Hl Hi]%IH. split; [done|]. apply (Forall_impl _ _ _ Hi). intros g. apply (inside_app_l g (String a "")).
Qed.

Lemma azure_no_panic resourceID : AzureConvertResourceGroupNameToLower resourceID ≠ Panic.
Proof. unfold AzureConvertResourceGroupNameToLower. by repeat case_match. Qed.

(** The conversion fails exactly on texts the expression does not match.
    Otherwise it lowers one occurrence of the group's name and leaves the rest as it
    is, so that the result and the resource ID are equal up to case. *)
Theorem azure_lowers_group resourceID :
  match AzureConvertResourceGroupNameToLower resourceID with
  | Panic => False
  | Err _ => FindStringSubmatch azureResourceGroupNameRE resourceID = None
  | Ok r => EqualFold r resourceID = true ∧
      ∃ g h t, FindStringSubmatch azureResourceGroupNameRE resourceID = Some [g] ∧
        resourceID = h +:+ g +:+ t ∧ r = h +:+ ToLower g +:+ t
  end.
Proof.
  unfold AzureConvertResourceGroupNameToLower.
  destruct (FindStringSubmatch azureResourceGroupNameRE resourceID) as [caps|] eqn:E; [|done].
  apply FindStringSubmatch_captures in E as [Hl Hi]. change (captures azureResourceGroupNameRE) with 1%nat in Hl.
  destruct caps as [|g [|]]; [done| |done]. rewrite Forall_singleton in Hi.
  destruct (cut_first_inside g resourceID Hi) as (h & t & Ec). unfold Replace1. rewrite Ec.
  apply cut_first_Some in Ec. split; [|by exists g, h, t].
  unfold EqualFold. apply bool_decide_eq_true. by rewrite Ec, !ToLower_app, ToLower_idem.
Qed.

(** As meant: the resource group of a virtual machine is lowered. *)
Lemma azure_example :
  AzureConvertResourceGroupNameToLower
    "azure:///subscriptions/0-1/resourceGroups/MyGroup/providers/Microsoft.Compute/virtualMachines/Vm" =
  Ok "azure:///subscriptions/0-1/resourceGroups/mygroup/providers/Microsoft.Compute/virtualMachines/Vm".
Proof. vm_compute. reflexivity. Qed.

(** The first occurrence of the group's name is replaced, not the group: here the
    group keeps its upper-case letters and a keyword loses its own. *)
Lemma azure_wrong_occurrence :
  AzureConvertResourceGroupNameToLower
    "azure:///subscriptions/0-1/resourceGroups/G/providers/Microsoft.Compute/virtualMachines/vm" =
  Ok "azure:///subscriptions/0-1/resourcegroups/G/providers/Microsoft.Compute/virtualMachines/vm".
Proof. vm_compute. reflexivity. Qed.
