(* ===== verification/NodeSelector.v ===== *)
(** * [pkg/nodeselector]: matching node metadata against selector terms

    Go's regular expressions are the parameter [compile]: [None] is a pattern
    that does not compile, on which [regexp.MustCompile] panics. *)

From S2P Require Import Prelude GoStrings.

Local Open Scope go_scope.

Definition NodeSelectorOpIn : string := "In".
Definition NodeSelectorOpNotIn : string := "NotIn".
Definition NodeSelectorOpExists : string := "Exists".
Definition NodeSelectorOpDoesNotExist : string := "DoesNotExist".
Definition NodeSelectorOpGt : string := "Gt".
Definition NodeSelectorOpLt : string := "Lt".
Definition NodeSelectorOpRegexp : string := "Regexp".

Record NodeSelectorRequirement := mkReq { Key : string; Operator : string; Values : list string }.
Record NodeSelectorTerm := mkTerm { term_MatchExpressions : list NodeSelectorRequirement }.

Section selector.
Context (compile : string → option (string → bool)).
Implicit Types (fields : gmap string string) (rule : NodeSelectorRequirement).

Definition ErrNonEmpty rule : error :=
  ErrNew ("values must be non-empty for operator '" +:+ Operator rule +:+ "'").
Definition ErrEmpty rule : error := ErrNew ("values must be empty for operator " +:+ Operator rule).
Definition ErrSingle rule : error :=
  ErrNew ("values must have a single element for operator " +:+ Operator rule).
Definition ErrInt (v : string) : error := ErrNew ("failed to parse value " +:+ v +:+ " as int").
Definition ErrOperator rule : error := ErrNew (Operator rule +:+ " not a valid selector operator").

(** One pass of the loop of [MatchExpressions]: the value of [matchs[idx]]. *)
Definition match_rule fields rule : outcome bool :=
  let field := fields !! ToLower (Key rule) in
  if decide (Operator rule = NodeSelectorOpIn) then
    match Values rule with
    | [] => Err (ErrNonEmpty rule)
    | vs => Ok (match field with Some v => bool_decide (v ∈ vs) | None => false end)
    end
  else if decide (Operator rule = NodeSelectorOpNotIn) then
    match Values rule with
    | [] => Err (ErrNonEmpty rule)
    | vs => Ok (match field with Some v => negb (bool_decide (v ∈ vs)) | None => false end)
    end
  else if decide (Operator rule = NodeSelectorOpExists) then
    match Values rule with
    | [] => Ok (bool_decide (is_Some field))
    | _ => Err (ErrEmpty rule)
    end
  else if decide (Operator rule = NodeSelectorOpDoesNotExist) then
    match Values rule with
    | [] => Ok (negb (bool_decide (is_Some field)))
    | _ => Err (ErrEmpty rule)
    end
  else if decide (Operator rule = NodeSelectorOpGt ∨ Operator rule = NodeSelectorOpLt) then
    match Values rule with
    | [v] =>
        match field with
        | None => Ok false
        | Some value =>
            match ParseInt value with
            | None => Err (ErrInt value)
            | Some lsValue =>
                match ParseInt v with
                | None => Err (ErrInt v)
                | Some rValue =>
                    Ok ((bool_decide (Operator rule = NodeSelectorOpGt) && (rValue <? lsValue)) ||
                        (bool_decide (Operator rule = NodeSelectorOpLt) && (lsValue <? rValue)))
                end
            end
        end
    | _ => Err (ErrSingle rule)
    end
  else if decide (Operator rule = NodeSelectorOpRegexp) then
    match Values rule with
    | [v] =>
        match field with
        | None => Ok false
        | Some value => match compile v with
                        | None => Panic
                        | Some r => Ok (r value)
                        end
        end
    | _ => Err (ErrSingle rule)
    end
  else Err (ErrOperator rule).

Fixpoint match_rules fields (rules : list NodeSelectorRequirement) : outcome (list bool) :=
  match rules with
  | [] => Ok []
  | rule :: rules' =>
      let? m := match_rule fields rule in
      let? ms := match_rules fields rules' in
      Ok (m :: ms)
  end.

Definition MatchExpressions (rules : list NodeSelectorRequirement) fields : outcome bool :=
  match rules with
  | [] => Ok false
  | _ => let? matchs := match_rules fields rules in Ok (forallb id matchs)
  end.

(** The loop of [Match] over the terms. *)
Fixpoint match_terms (rules : list NodeSelectorTerm) fields : outcome bool :=
  match rules with
  | [] => Ok false
  | rule :: rules' =>
      let? m := MatchExpressions (term_MatchExpressions rule) fields in
      if m : bool then Ok true else match_terms rules' fields
  end.

Definition Match (rules : list NodeSelectorTerm) fields : outcome bool :=
  match rules with
  | [] => Ok true
  | _ => match_terms rules fields
  end.

(** ** What a requirement means *)

(** A requirement whose operator and values the code accepts, whatever the
    fields. *)
Definition well_formed rule : Prop :=
  (Operator rule = NodeSelectorOpIn ∨ Operator rule = NodeSelectorOpNotIn) ∧ Values rule ≠ [] ∨
  (Operator rule = NodeSelectorOpExists ∨ Operator rule = NodeSelectorOpDoesNotExist) ∧ Values rule = [] ∨
  (Operator rule = NodeSelectorOpGt ∨ Operator rule = NodeSelectorOpLt) ∧
    (∃ v n, Values rule = [v] ∧ ParseInt v = Some n) ∨
  Operator rule = NodeSelectorOpRegexp ∧ (∃ v, Values rule = [v] ∧ is_Some (compile v)).

(** The field a comparison looks at is a number when it is there. *)
Definition comparable fields rule : Prop :=
  Operator rule = NodeSelectorOpGt ∨ Operator rule = NodeSelectorOpLt →
  ∀ v, fields !! ToLower (Key rule) = Some v → is_Some (ParseInt v).

(** The meaning of a requirement, by operator. *)
Inductive satisfies fields rule : Prop :=
  | sat_in v : Operator rule = NodeSelectorOpIn →
      fields !! ToLower (Key rule) = Some v → v ∈ Values rule → satisfies fields rule
  | sat_notin v : Operator rule = NodeSelectorOpNotIn →
      fields !! ToLower (Key rule) = Some v → v ∉ Values rule → satisfies fields rule
  | sat_exists : Operator rule = NodeSelectorOpExists →
      is_Some (fields !! ToLower (Key rule)) → satisfies fields rule
  | sat_absent : Operator rule = NodeSelectorOpDoesNotExist →
      fields !! ToLower (Key rule) = None → satisfies fields rule
  | sat_gt v n w m : Operator rule = NodeSelectorOpGt →
      fields !! ToLower (Key rule) = Some v → ParseInt v = Some n →
      Values rule = [w] → ParseInt w = Some m → m < n → satisfies fields rule
  | sat_lt v n w m : Operator rule = NodeSelectorOpLt →
      fields !! ToLower (Key rule) = Some v → ParseInt v = Some n →
      Values rule = [w] → ParseInt w = Some m → n < m → satisfies fields rule
  | sat_regexp v w r : Operator rule = NodeSelectorOpRegexp →
      fields !! ToLower (Key rule) = Some v → Values rule = [w] →
      compile w = Some r → r v = true → satisfies fields rule.

(** Selects the branch of operator [H : Operator rule = ...]. *)
Ltac branch H :=
  unfold match_rule; rewrite !H;
  repeat first [rewrite decide_True by (tauto || done) | rewrite decide_False by (by intros [|] || done)].

(** From [satisfies] back to the fields, by the operator. *)
Ltac by_sat H :=
  intros Hsat; destruct Hsat; rewrite H in *; try discriminate; simplify_eq;
  repeat match goal with
  | H1 : Values ?r = _, H2 : Values ?r = _ |- _ => rewrite H1 in H2; simplify_eq
  end; try done.

Lemma match_rule_sound fields rule :
  well_formed rule → comparable fields rule →
  ∃ b, match_rule fields rule = Ok b ∧ (b = true ↔ satisfies fields rule).
Proof.
  intros [[[H|H] Hv]|[[[H|H] Hv]|[[[H|H] (w & m & Hv & Hm)]|[H (w & Hv & r & Hr)]]]] Hcmp;
    branch H; try rewrite Hv; destruct (fields !! ToLower (Key rule)) as [v|] eqn:Ef;
    try (specialize (Hcmp ltac:(tauto) v Ef) as [n Hn]; rewrite Hn, Hm);
    try match goal with |- context [match Values rule with _ => _ end] =>
          destruct (Values rule) as [|v0 vs] eqn:Evs; [done|] end;
    rewrite ?Hr; (eexists; split; [reflexivity|]).
  - rewrite bool_decide_eq_true. split; [intros; by eapply sat_in; rewrite ?Evs|by_sat H]. by rewrite <-Evs.
  - split; [done|by_sat H].
  - rewrite negb_true_iff, bool_decide_eq_false.
    split; [intros; by eapply sat_notin; rewrite ?Evs|by_sat H]. by rewrite <-Evs.
  - split; [done|by_sat H].
  - split; [intros _; apply sat_exists; rewrite ?Ef; eauto|by_sat H].
  - split; [done|by_sat H]. by rewrite Ef in *.
  - split; [done|by_sat H].
  - split; [intros _; by apply sat_absent|by_sat H].
  - rewrite bool_decide_true, bool_decide_false, andb_true_l, andb_false_l, orb_false_r, Z.ltb_lt by done.
    split; [intros; by apply (sat_gt _ _ v n w m)|by_sat H].
  - split; [done|by_sat H].
  - rewrite bool_decide_false, bool_decide_true, andb_true_l, andb_false_l, orb_false_l, Z.ltb_lt by done.
    split; [intros; by apply (sat_lt _ _ v n w m)|by_sat H].
  - split; [done|by_sat H].
  - split; [intros; by apply (sat_regexp _ _ v w r)|by_sat H].
  - split; [done|by_sat H].
Qed.

Lemma match_rules_sound fields rules :
  Forall well_formed rules → Forall (comparable fields) rules →
  ∃ bs, match_rules fields rules = Ok bs ∧ (forallb id bs = true ↔ Forall (satisfies fields) rules).
Proof.
  intros Hwf. induction Hwf as [|rule rules Hr _ IH]; intros Hc; cbn.
  { exists []. split; [done|]. split; [constructor|done]. }
  inversion Hc; subst. destruct (match_rule_sound fields rule) as (b & -> & Hb); [done..|].
  destruct IH as (bs & -> & Hbs); [done|]. exists (b :: bs). split; [done|]. cbn.
  by rewrite andb_true_iff, Forall_cons, <-Hbs, <-Hb.
Qed.

Lemma match_rules_panic fields pre rule post :
  Forall (λ r, ∃ b, match_rule fields r = Ok b) pre → match_rule fields rule = Panic →
  match_rules fields (pre ++ rule :: post) = Panic.
Proof.
  intros Hp Hr. induction Hp as [|r pre [b Hb] _ IH]; cbn; [by rewrite Hr|]. by rewrite Hb, IH.
Qed.

Notation term_result fields t := (MatchExpressions (term_MatchExpressions t) fields).

(** The terms before the deciding one are evaluated and do not match. *)
Lemma match_terms_spec fields rules :
  match match_terms rules fields with
  | Ok false => Forall (λ t, term_result fields t = Ok false) rules
  | r => ∃ pre t post, rules = pre ++ t :: post ∧
      Forall (λ t, term_result fields t = Ok false) pre ∧ term_result fields t = r
  end.
Proof.
  induction rules as [|t rules IH]; cbn; [constructor|].
  destruct (term_result fields t) as [[]|e|] eqn:E; cbn.
  - by exists [], t, rules.
  - destruct (match_terms rules fields) as [[]|e|];
      [|by constructor|..]; destruct IH as (pre & t' & post & -> & Hpre & Ht);
      exists (t :: pre), t', post; (split_and!; [done|by constructor|done]).
  - by exists [], t, rules.
  - by exists [], t, rules.
Qed.
End selector.

(** ** Main theorems *)

(** C38. The expressions of a term are ANDed: on well-formed requirements (a known
    operator with the number of values it asks for, numbers that parse, a pattern
    that compiles) and fields that are numbers where they are compared,
    [MatchExpressions] returns without error, and it returns true exactly when
    there is at least one requirement and the fields satisfy all of them. *)
Theorem selector_expressions_and compile rules fields :
  Forall (well_formed compile) rules → Forall (comparable fields) rules →
  ∃ b, MatchExpressions compile rules fields = Ok b ∧
    (b = true ↔ rules ≠ [] ∧ Forall (satisfies compile fields) rules).
Proof.
  intros Hwf Hc. destruct (match_rules_sound compile fields rules Hwf Hc) as (bs & E & Hbs).
  unfold MatchExpressions. destruct rules as [|rule rules]; [exists false; naive_solver|].
  rewrite E. exists (forallb id bs). split; [done|]. rewrite Hbs. naive_solver.
Qed.

Definition demo_rules : list NodeSelectorRequirement :=
  [mkReq "Platform" "In" ["aws"; "gcp"]; mkReq "zone" "Exists" []; mkReq "cores" "Gt" ["4"]].
Definition demo_fields : gmap string string :=
  {[ "platform" := "gcp"; "zone" := "a"; "cores" := "8" ]}.

Lemma selector_expressions_and_witness :
  ∃ b, MatchExpressions (λ _, None) demo_rules demo_fields = Ok b ∧
    (b = true ↔ demo_rules ≠ [] ∧ Forall (satisfies (λ _, None) demo_fields) demo_rules).
Proof.
  apply (selector_expressions_and (λ _, None) demo_rules demo_fields).
  - apply Forall_cons. split; [|apply Forall_cons; split; [|apply Forall_cons; split; [|constructor]]].
    + left. split; [left; reflexivity|discriminate].
    + right; left. split; [left; reflexivity|reflexivity].
    + right; right; left. split; [left; reflexivity|]. exists "4", 4. split; reflexivity.
  - apply Forall_cons. split; [|apply Forall_cons; split; [|apply Forall_cons; split; [|constructor]]];
      intros [H|H]; try discriminate H; intros v Hv.
    vm_compute in Hv. injection Hv as <-. exists 8. reflexivity.
Defined.

(** The terms of a selector are ORed, left to right: an empty selector
    matches; otherwise the answer is that of the first term that does not
    evaluate to false (true, or its error, or its panic), the terms before it
    having been evaluated to false; it is false when all terms are. *)
Theorem selector_terms_or compile rules fields :
  match Match compile rules fields with
  | Ok false => rules ≠ [] ∧
      Forall (λ t, MatchExpressions compile (term_MatchExpressions t) fields = Ok false) rules
  | r => (rules = [] ∧ r = Ok true) ∨ ∃ pre t post, rules = pre ++ t :: post ∧
      Forall (λ t, MatchExpressions compile (term_MatchExpressions t) fields = Ok false) pre ∧
      MatchExpressions compile (term_MatchExpressions t) fields = r
  end.
Proof.
  unfold Match. destruct rules as [|t rules]; [by left|].
  pose proof (match_terms_spec compile fields (t :: rules)) as H.
  destruct (match_terms compile (t :: rules) fields) as [[]|e|]; auto.
Qed.

(** A pattern that does not compile is not reported: when the node has the
    field, a [Regexp] requirement with such a pattern makes [Match] panic, once
    the requirements before it have been evaluated. *)
Theorem selector_bad_pattern_panics compile fields pre key pattern value post terms :
  Forall (λ r, ∃ b, match_rule compile fields r = Ok b) pre →
  fields !! ToLower key = Some value → compile pattern = None →
  Match compile (mkTerm (pre ++ mkReq key NodeSelectorOpRegexp [pattern] :: post) :: terms) fields = Panic.
Proof.
  intros Hpre Hf Hc. cbn. unfold MatchExpressions.
  rewrite (match_rules_panic compile fields pre _ post Hpre).
  - by destruct pre.
  - by unfold match_rule; cbn; rewrite Hf, Hc.
Qed.

Lemma selector_bad_pattern_panics_witness :
  Match (λ p, if decide (p = "(") then None else Some (λ _, false))
    [mkTerm [mkReq "zone" "Regexp" ["("]]] demo_fields = Panic.
Proof.
  apply (selector_bad_pattern_panics _ demo_fields [] "zone" "(" "a" [] []).
  - constructor.
  - vm_compute. reflexivity.
  - reflexivity.
Defined.
