(* ===== verification/Transformer.v ===== *)
(** * [pkg/transformer]: node transformation rules

    The platform metadata and the system information are structs of the Talos
    libraries that the program reads and writes by reflection only: they are
    modelled as the list of their fields, with name, [yaml] tag and value.

    Parameters: the template engine ([Parse], [Execute]), the label and name
    validators of the Kubernetes libraries, the regular expressions of the
    selectors ([compile]), and the order in which [range] visits a map, chosen
    anew for every loop ([order], indexed by the loop). *)

From S2P Require Import Prelude GoStrings NodeSelector.
From Stdlib Require Import Ascii.

Local Open Scope go_scope.

(** ** Data *)

Inductive fval := FBool (b : bool) | FString (s : string) | FOther.
Record field := mkField { fname : string; ftag : string; fexported : bool; fvalue : fval }.

#[export] Instance fval_eq_dec : EqDecision fval.
Proof. solve_decision. Defined.
#[export] Instance field_eq_dec : EqDecision field.
Proof. solve_decision. Defined.

Notation struct := (list field).

Record NodeFeaturesFlagSpec := mkFeatures { PublicIPDiscovery : bool }.

Record NodeTerm := mkNodeTerm {
  term_Name : string;
  NodeSelector : list NodeSelectorTerm;
  term_Annotations : gmap string string;
  term_Labels : gmap string string;
  term_Taints : gmap string string;
  PlatformMetadata : gmap string string;
  term_Features : NodeFeaturesFlagSpec }.

Record NodeSpec := mkNodeSpec {
  spec_Annotations : gmap string string;
  spec_Labels : gmap string string;
  spec_Taints : gmap string string;
  spec_Features : NodeFeaturesFlagSpec }.

Definition prohibitedPlatformMetadataKeys : list string := ["hostname"; "platform"].

(** [%v] of a list of strings. *)
Definition show_list (l : list string) : string := "[" +:+ String.concat " " l +:+ "]".

(** ** Helpers *)

Definition mapFromStruct (v : struct) : gmap string string :=
  foldl (λ metadata f,
    if negb (fexported f) then metadata
    else if decide (ftag f = "") then metadata
    else
      let fieldName := ToLower (default "" (head (Split (ftag f) ","%char))) in
      match fvalue f with
      | FBool b => <[fieldName := if b then "true" else "false"]> metadata
      | FString s => if decide (s = "") then metadata else <[fieldName := s]> metadata
      | FOther => metadata
      end) ∅ v.

Definition kubernetesTaints : list string :=
  ["node.kubernetes.io/not-ready"; "node.kubernetes.io/unreachable";
   "node.kubernetes.io/memory-pressure"; "node.kubernetes.io/disk-pressure";
   "node.kubernetes.io/network-unavailable"; "node.kubernetes.io/pid-pressure"].
Definition cloudProviderTaints : list string :=
  ["node.cloudprovider.kubernetes.io/uninitialized"; "node.cloudprovider.kubernetes.io/shutdown"].

Definition isQualifiedTaintName (name : string) : list string :=
  if Contains name "kubernetes.io/" then
    if decide (name ∈ kubernetesTaints) then ["taint in kubernetes namespace"]
    else if decide (name ∈ cloudProviderTaints) then ["taint in cloud provider namespace"]
    else []
  else [].

Definition taintEffects : list string := ["NoSchedule"; "PreferNoSchedule"; "NoExecute"].

Definition isValidTaintValue (value : string) : list string :=
  let effects := Split value ":"%char in
  if (2 <? length effects)%nat then ["taint value is not valid"]
  else
    let effect := if (length effects =? 2)%nat then default "" (effects !! 1%nat)
                  else default "" (effects !! 0%nat) in
    if decide (effect ∈ taintEffects) then []
    else ["taint effect " +:+ quoted effect +:+ " is not valid"].

(** [ps.FieldByNameFunc]: the one field whose name folds to [k]; fields that
    match together cancel each other. *)
Definition FieldByFold (ps : struct) (k : string) : option nat :=
  match filter (λ i, EqualFold (from_option fname "" (ps !! i)) k = true) (seq 0 (length ps)) with
  | [i] => Some i
  | _ => None
  end.

Definition set_value (ps : struct) (i : nat) (v : fval) : struct :=
  match ps !! i with
  | Some f => <[i := mkField (fname f) (ftag f) (fexported f) v]> ps
  | None => ps
  end.

Definition ErrField (k : string) : error := ErrNew ("unsupported platform metadata field " +:+ k).

Section transformer.
Context {template : Type} (Parse : string → error + template).
Context (Execute : template → struct * struct → error + string).
Context (IsQualifiedName IsValidLabelValue : string → list string).
Context (compile : string → option (string → bool)).
Context (order : nat → gmap string string → list (string * string)).

Definition executeTemplate (tmpl : string) (data : struct * struct) : outcome string :=
  match Parse tmpl with
  | inl err => Err (ErrW ("failed to parse template " +:+ quoted tmpl +:+ ": ") err)
  | inr t => match Execute t data with
             | inl err => Err err
             | inr s => Ok s
             end
  end.

(** [if err != nil { return nil, fmt.Errorf("... %q: %w", k, err) }]. *)
Definition wrap {A} (what k : string) (o : outcome A) : outcome A :=
  match o with
  | Err e => Err (ErrW ("failed to transformer " +:+ what +:+ " " +:+ quoted k +:+ ": ") e)
  | _ => o
  end.

(** A loop over a map that stores one value per key, or fails. *)
Fixpoint range_store (l : list (string * string)) (value : string → string → outcome string)
    (m : gmap string string) : outcome (gmap string string) :=
  match l with
  | [] => Ok m
  | (k, v) :: l' => let? t := value k v in range_store l' value (<[k := t]> m)
  end.

Definition annotation_value (values : struct * struct) (k v : string) : outcome string :=
  let? t := wrap "annotation" k (executeTemplate v values) in
  match IsQualifiedName k with
  | [] => Ok t
  | errs => Err (ErrNew ("invalid annotation name " +:+ quoted k +:+ ": " +:+ show_list errs))
  end.

Definition label_value (values : struct * struct) (k v : string) : outcome string :=
  let? t := wrap "label" k (executeTemplate v values) in
  match IsQualifiedName k with
  | [] => match IsValidLabelValue t with
          | [] => Ok t
          | errs => Err (ErrNew ("invalid label value " +:+ quoted t +:+ ": " +:+ show_list errs))
          end
  | errs => Err (ErrNew ("invalid label name " +:+ quoted k +:+ ": " +:+ show_list errs))
  end.

(** The rendered value [t] is checked; the template [v] is what is stored. *)
Definition taint_value (values : struct * struct) (k v : string) : outcome string :=
  let? t := wrap "label" k (executeTemplate v values) in
  match isQualifiedTaintName k with
  | [] => match isValidTaintValue t with
          | [] => Ok v
          | errs => Err (ErrNew ("invalid taint value " +:+ quoted v +:+ ": " +:+ show_list errs))
          end
  | errs => Err (ErrNew ("invalid taint name " +:+ quoted k +:+ ": " +:+ show_list errs))
  end.

Fixpoint range_metadata (values : struct * struct) (l : list (string * string)) (ps : struct)
    : outcome struct :=
  match l with
  | [] => Ok ps
  | (k, v) :: l' =>
      if decide (ToLower k ∈ prohibitedPlatformMetadataKeys) then range_metadata values l' ps
      else
        let? t := wrap "platform metadata" k (executeTemplate v values) in
        match FieldByFold ps k with
        | None => range_metadata values l' ps
        | Some i =>
            match fvalue <$> ps !! i with
            | Some (FBool _) => range_metadata values l' (set_value ps i (FBool (bool_decide (t = "true"))))
            | Some (FString _) => range_metadata values l' (set_value ps i (FString (TrimSpace t)))
            | _ => Err (ErrField k)
            end
        end
  end.

(** The body of the loop over the terms; [i] is the index of the term. *)
Definition transform_term (values : struct * struct) (metadata : gmap string string) (i : nat)
    (term : NodeTerm) (node : NodeSpec) (ps : struct) : outcome (NodeSpec * struct) :=
  let? matched := Match compile (NodeSelector term) metadata in
  if matched : bool then
    let? annotations := range_store (order (4 * i) (term_Annotations term))
                          (annotation_value values) (spec_Annotations node) in
    let? labels := range_store (order (4 * i + 1) (term_Labels term))
                     (label_value values) (spec_Labels node) in
    let? taints := range_store (order (4 * i + 2) (term_Taints term))
                     (taint_value values) (spec_Taints node) in
    let? ps' := range_metadata values (order (4 * i + 3) (PlatformMetadata term)) ps in
    Ok (mkNodeSpec annotations labels taints (spec_Features node), ps')
  else Ok (node, ps).

Fixpoint transform_terms (values : struct * struct) (metadata : gmap string string) (i : nat)
    (terms : list NodeTerm) (node : NodeSpec) (ps : struct) : outcome (NodeSpec * struct) :=
  match terms with
  | [] => Ok (node, ps)
  | term :: terms' =>
      let? r := transform_term values metadata i term node ps in
      transform_terms values metadata (S i) terms' r.1 r.2
  end.

Definition emptyNodeSpec : NodeSpec := mkNodeSpec ∅ ∅ ∅ (mkFeatures false).

(** The node specification and the metadata the call leaves behind the pointer. *)
Definition TransformNode (terms : list NodeTerm) (platformMetadata : struct) (sysinfo : option struct)
    : outcome (NodeSpec * struct) :=
  match terms with
  | [] => Ok (emptyNodeSpec, platformMetadata)
  | _ => transform_terms (platformMetadata, default [] sysinfo) (mapFromStruct platformMetadata) 0
           terms emptyNodeSpec platformMetadata
  end.
End transformer.

(** ** Lemmas *)

(** A range loop over a map visits every entry once, in some order. *)
Definition range_order (order : nat → gmap string string → list (string * string)) : Prop :=
  ∀ i m, order i m ≡ₚ map_to_list m.

(** Storing the values of a map's entries: all of them, over what was there. *)
Lemma range_store_ok l value m m' :
  NoDup l.*1 → range_store l value m = Ok m' →
  ∃ vs : gmap string string, m' = vs ∪ m ∧
    dom vs = list_to_set l.*1 ∧ ∀ k v, (k, v) ∈ l → ∃ t, value k v = Ok t ∧ vs !! k = Some t.
Proof.
  revert m. induction l as [|[k v] l IH]; intros m Hnd; cbn.
  { intros [= <-]. exists ∅. split_and!; [by rewrite (left_id_L ∅ (∪))|by rewrite dom_empty_L|].
    intros k v Hin. by apply elem_of_nil in Hin. }
  cbn in Hnd. apply NoDup_cons in Hnd as [Hk Hnd].
  destruct (value k v) as [t|e|] eqn:Ev; cbn; [|done..].
  intros (vs & -> & Hdom & Hall)%IH; [|done].
  assert (vs !! k = None) as Hvs.
  { apply not_elem_of_dom. rewrite Hdom, elem_of_list_to_set. done. }
  exists (<[k := t]> vs). split_and!.
  - by rewrite <-insert_union_l, <-insert_union_r.
  - by rewrite dom_insert_L, Hdom.
  - intros k' v' [[= -> ->]|Hin]%elem_of_cons.
    + exists t. by rewrite lookup_insert_eq.
    + destruct (Hall k' v' Hin) as (t' & ? & ?). exists t'. split; [done|].
      rewrite lookup_insert_ne; [done|]. intros ->. congruence.
Qed.

Lemma order_entries order i m :
  range_order order →
  NoDup (order i m).*1 ∧ (∀ k v, (k, v) ∈ order i m ↔ m !! k = Some v) ∧
  list_to_set (order i m).*1 = dom m.
Proof.
  intros Ho. pose proof (Ho i m) as Hp. split_and!.
  - rewrite Hp. apply NoDup_fst_map_to_list.
  - intros k v. by rewrite Hp, elem_of_map_to_list.
  - apply set_eq. intros k. rewrite elem_of_list_to_set, Hp, elem_of_dom. split.
    + intros ([k' v] & -> & Hin)%list_elem_of_fmap. apply elem_of_map_to_list in Hin. by eexists.
    + intros [v Hv]. apply list_elem_of_fmap. exists (k, v). split; [done|]. by apply elem_of_map_to_list.
Qed.

(** [m'] is [m] overwritten at the keys of [entries]; [written k v t] says that [t]
    may be stored for the entry [k: v]. *)
Definition overwritten (written : string → string → string → Prop) (entries m m' : gmap string string) : Prop :=
  ∀ k, match entries !! k with
       | Some v => ∃ t, written k v t ∧ m' !! k = Some t
       | None => m' !! k = m !! k
       end.

Lemma range_store_overwrites order i entries value (written : string → string → string → Prop) m m' :
  range_order order → (∀ k v t, value k v = Ok t → written k v t) →
  range_store (order i entries) value m = Ok m' → overwritten written entries m m'.
Proof.
  intros Ho Hw E. destruct (order_entries order i entries Ho) as (Hnd & Hin & Hdom).
  destruct (range_store_ok _ _ _ _ Hnd E) as (vs & -> & Hd & Hall). intros k.
  destruct (entries !! k) as [v|] eqn:Ek.
  - apply Hin in Ek. destruct (Hall k v Ek) as (t & Ht & Hv). exists t. split; [by apply Hw|].
    by apply lookup_union_Some_l.
  - apply lookup_union_r, not_elem_of_dom. rewrite Hd, Hdom. by apply not_elem_of_dom.
Qed.

(** The fields a loop over the platform metadata cannot change. *)
Definition identity_field (f : field) : Prop := ToLower (fname f) ∈ prohibitedPlatformMetadataKeys.

Definition same_identity (ps ps' : struct) : Prop :=
  length ps' = length ps ∧
  ∀ i f, ps !! i = Some f →
    ∃ f', ps' !! i = Some f' ∧ fname f' = fname f ∧ (identity_field f → f' = f).

#[export] Instance same_identity_preorder : PreOrder same_identity.
Proof.
  split; [split; [done|eauto]|]. intros p1 p2 p3 [L12 H12] [L23 H23]. split; [congruence|].
  intros i f Hf. destruct (H12 i f Hf) as (f' & Hf' & N' & I'). destruct (H23 i f' Hf') as (f'' & Hf'' & N'' & I'').
  exists f''. split_and!; [done|congruence|]. intros Hid. rewrite I''; [by apply I'|]. by rewrite I'.
Qed.

Lemma FieldByFold_Some ps k i :
  FieldByFold ps k = Some i → ∃ f, ps !! i = Some f ∧ ToLower (fname f) = ToLower k.
Proof.
  unfold FieldByFold. destruct (filter _ _) as [|j [|]] eqn:E; try done. intros [= ->].
  assert (i ∈ filter (λ i, EqualFold (from_option fname "" (ps !! i)) k = true) (seq 0 (length ps)))
    as [Hf Hi]%list_elem_of_filter by (rewrite E; by left).
  apply elem_of_seq in Hi. destruct (lookup_lt_is_Some_2 ps i) as [f Hp]; [lia|].
  exists f. split; [done|]. rewrite Hp in Hf. by apply bool_decide_eq_true in Hf.
Qed.

Lemma set_value_identity ps k i v :
  ToLower k ∉ prohibitedPlatformMetadataKeys → FieldByFold ps k = Some i →
  same_identity ps (set_value ps i v).
Proof.
  intros Hk Hi. destruct (FieldByFold_Some ps k i Hi) as (f & Hf & Hfold). unfold set_value. rewrite Hf.
  split; [apply length_insert|]. intros j g Hg. destruct (decide (i = j)) as [<-|Hne].
  - rewrite list_lookup_insert_eq by (by eapply lookup_lt_Some). rewrite Hf in Hg. injection Hg as ->.
    eexists. split_and!; [done|done|]. unfold identity_field. by rewrite Hfold.
  - rewrite list_lookup_insert_ne by done. eauto.
Qed.

Section loops.
Context {template : Type} (Parse : string → error + template).
Context (Execute : template → struct * struct → error + string).
Context (IsQualifiedName IsValidLabelValue : string → list string).
Context (compile : string → option (string → bool)).
Context (order : nat → gmap string string → list (string * string)).

Lemma range_metadata_identity values l ps ps' :
  range_metadata Parse Execute values l ps = Ok ps' → same_identity ps ps'.
Proof.
  revert ps. induction l as [|[k v] l IH]; intros ps; cbn; [intros [= <-]; apply same_identity_preorder|].
  case_decide as Hk; [apply IH|]. destruct (wrap _ _ _) as [t|e|]; cbn; [|done..].
  destruct (FieldByFold ps k) as [i|] eqn:Ei; [|apply IH].
  destruct (fvalue <$> ps !! i) as [[]|]; try done;
    intros H%IH; (etransitivity; [by eapply set_value_identity|exact H]).
Qed.
End loops.
