(* ===== verification/TransformerTheorems.v ===== *)
(** * Theorems about the transformer *)

From S2P Require Import Prelude GoStrings NodeSelector Transformer.
From Stdlib Require Import Ascii.

Local Open Scope go_scope.

Section results.
Context {template : Type} (Parse : string → error + template).
Context (Execute : template → struct * struct → error + string).
Context (IsQualifiedName IsValidLabelValue : string → list string).
Context (compile : string → option (string → bool)).

(** ** What may be stored, read off the validators and the template engine *)

(** [out] is what the template [tmpl] renders to. *)
Definition renders (values : struct * struct) (tmpl out : string) : Prop :=
  ∃ t, Parse tmpl = inr t ∧ Execute t values = inr out.

(** A taint is an effect, or a value, a colon and an effect. *)
Definition taint_text (s : string) : Prop :=
  ∃ effect, effect ∈ ["NoSchedule"; "PreferNoSchedule"; "NoExecute"] ∧
    (s = effect ∨ ∃ value, no_sep value ":"%char ∧ s = value +:+ String ":"%char effect).

Definition annotation_stored (values : struct * struct) (k v t : string) : Prop :=
  renders values v t ∧ IsQualifiedName k = [].

Definition label_stored (values : struct * struct) (k v t : string) : Prop :=
  renders values v t ∧ IsQualifiedName k = [] ∧ IsValidLabelValue t = [].

(** The taint stored is the text of the term itself; its rendering was checked. *)
Definition taint_stored (values : struct * struct) (k v t : string) : Prop :=
  t = v ∧ k ∉ kubernetesTaints ++ cloudProviderTaints ∧ ∃ r, renders values v r ∧ taint_text r.

Lemma executeTemplate_renders values v t :
  executeTemplate Parse Execute v values = Ok t ↔ renders values v t.
Proof.
  unfold executeTemplate, renders. split.
  - destruct (Parse v) as [|p]; [done|]. destruct (Execute p values) eqn:E; [done|].
    intros [= ->]. eauto.
  - intros (p & -> & ->). done.
Qed.

Lemma wrap_Ok {A} what k (o : outcome A) a : wrap what k o = Ok a → o = Ok a.
Proof. by destruct o. Qed.

Lemma annotation_value_stored values k v t :
  annotation_value Parse Execute IsQualifiedName values k v = Ok t → annotation_stored values k v t.
Proof.
  unfold annotation_value, annotation_stored. destruct (wrap _ _ _) as [r|e|] eqn:E; cbn; [|done..].
  apply wrap_Ok, executeTemplate_renders in E. destruct (IsQualifiedName k); [|done]. by intros [= <-].
Qed.

Lemma label_value_stored values k v t :
  label_value Parse Execute IsQualifiedName IsValidLabelValue values k v = Ok t → label_stored values k v t.
Proof.
  unfold label_value, label_stored. destruct (wrap _ _ _) as [r|e|] eqn:E; cbn; [|done..].
  apply wrap_Ok, executeTemplate_renders in E. destruct (IsQualifiedName k); [|done].
  destruct (IsValidLabelValue r) eqn:Ev; [|done]. by intros [= <-].
Qed.

Lemma isQualifiedTaintName_free k :
  isQualifiedTaintName k = [] → k ∉ kubernetesTaints ++ cloudProviderTaints.
Proof.
  intros H Hin. assert (Forall (λ n, isQualifiedTaintName n ≠ []) (kubernetesTaints ++ cloudProviderTaints))
    as Hall by (repeat constructor; vm_compute; discriminate).
  by apply (proj1 (Forall_forall _ _) Hall k Hin).
Qed.

Lemma isValidTaintValue_text s : isValidTaintValue s = [] → taint_text s.
Proof.
  unfold isValidTaintValue, taint_text, taintEffects. destruct (Split_join s ":"%char) as [Hj Hsep].
  destruct (Split s ":"%char) as [|x [|y [|? ?]]]; cbn; [| | |done];
    (case_decide as He; [intros _|done]).
  - exfalso. repeat (apply elem_of_cons in He as [He|He]; [done|]). by apply elem_of_nil in He.
  - exists x. split; [done|]. by left.
  - inversion Hsep; subst. exists y. split; [done|]. right. exists x. by split.
Qed.

Lemma taint_value_stored values k v t :
  taint_value Parse Execute values k v = Ok t → taint_stored values k v t.
Proof.
  unfold taint_value, taint_stored. destruct (wrap _ _ _) as [r|e|] eqn:E; cbn; [|done..].
  apply wrap_Ok, executeTemplate_renders in E. destruct (isQualifiedTaintName k) eqn:Ek; [|done].
  destruct (isValidTaintValue r) eqn:Ev; [|done]. intros [= <-].
  split_and!; [done|by apply isQualifiedTaintName_free|]. eauto using isValidTaintValue_text.
Qed.

(** ** What the terms do, without an order of iteration *)

(** One matching term: its annotations, labels and taints overwrite those of the
    node; the features stay as they are. *)
Record term_applied (values : struct * struct) (term : NodeTerm) (node node' : NodeSpec) : Prop := {
  ta_annotations : overwritten (annotation_stored values) (term_Annotations term)
                     (spec_Annotations node) (spec_Annotations node');
  ta_labels : overwritten (label_stored values) (term_Labels term) (spec_Labels node) (spec_Labels node');
  ta_taints : overwritten (taint_stored values) (term_Taints term) (spec_Taints node) (spec_Taints node');
  ta_features : spec_Features node' = spec_Features node }.

Inductive transforms (values : struct * struct) (metadata : gmap string string) :
    list NodeTerm → NodeSpec → NodeSpec → Prop :=
  | transforms_nil node : transforms values metadata [] node node
  | transforms_skip term terms node node' :
      Match compile (NodeSelector term) metadata = Ok false →
      transforms values metadata terms node node' →
      transforms values metadata (term :: terms) node node'
  | transforms_apply term terms node node1 node' :
      Match compile (NodeSelector term) metadata = Ok true →
      term_applied values term node node1 →
      transforms values metadata terms node1 node' →
      transforms values metadata (term :: terms) node node'.

Lemma transform_term_ok order values metadata i term node ps node' ps' :
  range_order order →
  transform_term Parse Execute IsQualifiedName IsValidLabelValue compile order
    values metadata i term node ps = Ok (node', ps') →
  same_identity ps ps' ∧
  (Match compile (NodeSelector term) metadata = Ok false ∧ node' = node ∧ ps' = ps ∨
   Match compile (NodeSelector term) metadata = Ok true ∧ term_applied values term node node').
Proof.
  intros Ho. unfold transform_term. destruct (Match compile _ metadata) as [[]|e|]; cbn [obind]; [| |done..].
  2:{ intros [= <- <-]. split; [apply same_identity_preorder|auto]. }
  destruct (range_store (order (4 * i)%nat _) _ _) as [an|e|] eqn:Ea; cbn [obind]; [|done..].
  destruct (range_store (order (4 * i + 1)%nat _) _ _) as [la|e|] eqn:El; cbn [obind]; [|done..].
  destruct (range_store (order (4 * i + 2)%nat _) _ _) as [ta|e|] eqn:Et; cbn [obind]; [|done..].
  destruct (range_metadata _ _ _ _ ps) as [ps1|e|] eqn:Em; cbn [obind]; [|done..].
  intros [= <- <-]. split; [by eapply range_metadata_identity|]. right. split; [done|].
  split; cbn [obind]; [| | |done]; (eapply range_store_overwrites; [exact Ho| |eassumption]);
    eauto using annotation_value_stored, label_value_stored, taint_value_stored.
Qed.

Lemma transform_terms_ok order values metadata i terms node ps node' ps' :
  range_order order →
  transform_terms Parse Execute IsQualifiedName IsValidLabelValue compile order
    values metadata i terms node ps = Ok (node', ps') →
  same_identity ps ps' ∧ transforms values metadata terms node node'.
Proof.
  intros Ho. revert i node ps. induction terms as [|term terms IH]; intros i node ps; cbn.
  { intros [= <- <-]. split; [apply same_identity_preorder|constructor]. }
  destruct (transform_term _ _ _ _ _ _ _ _ _ _ _ _) as [[node1 ps1]|e|] eqn:E1; cbn; [|done..].
  intros [H2 T2]%IH. destruct (transform_term_ok _ _ _ _ _ _ _ _ _ Ho E1) as [H1 [(M & -> & ->)|(M & A)]].
  - split; [done|]. by constructor.
  - split; [by etransitivity|]. by econstructor.
Qed.

(** ** Determinism *)

Lemma overwritten_unique written entries m m1 m2 :
  (∀ k v t1 t2, written k v t1 → written k v t2 → t1 = t2) →
  overwritten written entries m m1 → overwritten written entries m m2 → m1 = m2.
Proof.
  intros Hu H1 H2. apply map_eq. intros k. specialize (H1 k). specialize (H2 k).
  destruct (entries !! k); [|congruence].
  destruct H1 as (t1 & E1 & ->), H2 as (t2 & E2 & ->). f_equal. by eapply Hu.
Qed.

Lemma renders_unique values v t1 t2 : renders values v t1 → renders values v t2 → t1 = t2.
Proof. intros (p1 & P1 & E1) (p2 & P2 & E2). congruence. Qed.

Lemma term_applied_unique values term node n1 n2 :
  term_applied values term node n1 → term_applied values term node n2 → n1 = n2.
Proof.
  intros [A1 L1 T1 F1] [A2 L2 T2 F2]. destruct n1, n2. cbn in *.
  f_equal; [| | |congruence]; (eapply overwritten_unique; [|eassumption..]).
  - intros k v t1 t2 [H1 _] [H2 _]. by eapply renders_unique.
  - intros k v t1 t2 [H1 _] [H2 _]. by eapply renders_unique.
  - intros k v t1 t2 [-> _] [-> _]. done.
Qed.

Lemma transforms_unique values metadata terms node n1 n2 :
  transforms values metadata terms node n1 → transforms values metadata terms node n2 → n1 = n2.
Proof.
  intros H. revert n2. induction H as [|? ? ? ? M _ IH|? ? ? ? ? M A _ IH]; intros n2 H2;
    inversion H2; subst; try congruence; auto.
  match goal with A2 : term_applied _ _ _ ?n |- _ =>
    rewrite (term_applied_unique _ _ _ _ _ A A2) in * end. auto.
Qed.

Lemma transforms_features values metadata terms node node' :
  transforms values metadata terms node node' → spec_Features node' = spec_Features node.
Proof. induction 1 as [|? ? ? ? _ _ IH|? ? ? ? ? _ A _ IH]; [done..|]. by rewrite IH, (ta_features _ _ _ _ A). Qed.
End results.

(** ** Main theorems *)

Section theorems.
Context {template : Type} (Parse : string → error + template).
Context (Execute : template → struct * struct → error + string).
Context (IsQualifiedName IsValidLabelValue : string → list string).
Context (compile : string → option (string → bool)).
Notation Transform order := (TransformNode Parse Execute IsQualifiedName IsValidLabelValue compile order).

(** C34. What a successful [TransformNode] returns, whatever order the maps are
    visited in: going through the terms from an empty specification, each term
    whose selector matches the metadata the call started with overwrites the
    annotations, labels and taints at its own keys, and a term that does not match
    changes nothing.  An annotation gets the rendering of its template and has a
    qualified name; a label gets the rendering of its template, which is a valid
    label value, and has a qualified name; a taint gets the text of the term as it
    is written, unrendered, while it is the rendering that has the form of a taint,
    and its name is none of those Kubernetes keeps for itself. *)
Theorem transform_result order terms pm sysinfo spec pm' :
  range_order order → Transform order terms pm sysinfo = Ok (spec, pm') →
  transforms Parse Execute IsQualifiedName IsValidLabelValue compile
    (pm, default [] sysinfo) (mapFromStruct pm) terms emptyNodeSpec spec.
Proof.
  intros Ho. unfold TransformNode. destruct terms as [|term terms]; [intros [= <- <-]; constructor|].
  intros E. by eapply transform_terms_ok.
Qed.

(** The order in which Go visits the maps does not show in the node
    specification: two successful calls that differ only in that order return the
    same specification. *)
Theorem transform_order_irrelevant order1 order2 terms pm sysinfo spec1 pm1 spec2 pm2 :
  range_order order1 → range_order order2 →
  Transform order1 terms pm sysinfo = Ok (spec1, pm1) →
  Transform order2 terms pm sysinfo = Ok (spec2, pm2) →
  spec1 = spec2.
Proof.
  intros Ho1 Ho2 E1 E2. destruct terms as [|term terms]; [cbn in *; congruence|].
  destruct (transform_terms_ok _ _ _ _ _ _ _ _ _ _ _ _ _ _ Ho1 E1) as [_ T1].
  destruct (transform_terms_ok _ _ _ _ _ _ _ _ _ _ _ _ _ _ Ho2 E2) as [_ T2].
  by eapply transforms_unique.
Qed.

(** C35. The host name and the platform cannot be transformed: whatever terms with
    ASCII metadata keys say, a successful call leaves the struct fields of those
    names (in any spelling of the keys and the fields) as they were, and no field
    is added, removed or renamed. *)
Theorem transform_protects_identity order terms pm sysinfo spec pm' :
  Forall (λ t, map_Forall (λ k _, ascii_only k = true) (PlatformMetadata t)) terms →
  range_order order → Transform order terms pm sysinfo = Ok (spec, pm') →
  length pm' = length pm ∧
  ∀ i f, pm !! i = Some f → ∃ f', pm' !! i = Some f' ∧ fname f' = fname f ∧
    (ToLower (fname f) ∈ ["hostname"; "platform"] → f' = f).
Proof.
  intros _ Ho. unfold TransformNode. destruct terms as [|term terms].
  { intros [= <- <-]. split; [done|eauto]. }
  intros E. by destruct (transform_terms_ok _ _ _ _ _ _ _ _ _ _ _ _ _ _ Ho E) as [H _].
Qed.

(** Features are not transformed: whatever features the matching terms ask for,
    the specification a successful call returns has public IP discovery off. *)
Theorem transform_ignores_features order terms pm sysinfo spec pm' :
  range_order order → Transform order terms pm sysinfo = Ok (spec, pm') →
  spec_Features spec = mkFeatures false.
Proof.
  intros Ho. unfold TransformNode. destruct terms as [|term terms]; [by intros [= <- <-]|].
  intros E. destruct (transform_terms_ok _ _ _ _ _ _ _ _ _ _ _ _ _ _ Ho E) as [_ T].
  by rewrite (transforms_features _ _ _ _ _ _ _ _ _ _ T).
Qed.

(** Taints are stored unrendered: when a single term matches, the taints of the
    specification are the templates of the term themselves. *)
Theorem transform_taints_unrendered order term pm sysinfo spec pm' :
  range_order order → Match compile (NodeSelector term) (mapFromStruct pm) = Ok true →
  Transform order [term] pm sysinfo = Ok (spec, pm') →
  spec_Taints spec = term_Taints term.
Proof.
  intros Ho M E. destruct (transform_terms_ok _ _ _ _ _ _ _ _ _ _ _ _ _ _ Ho E) as [_ T].
  inversion T as [|? ? ? ? M'|? ? ? ? ? _ [_ _ Ht _] T']; subst; [congruence|].
  inversion T'; subst. apply map_eq. intros k. specialize (Ht k).
  destruct (term_Taints term !! k) as [v|].
  - by destruct Ht as (t & [-> _] & ->).
  - rewrite Ht. apply lookup_empty.
Qed.
End theorems.

(** ** Instances *)

(** A template engine that knows one variable. *)
Definition demo_Parse (s : string) : error + string := inr s.
Definition demo_Execute (t : string) (data : struct * struct) : error + string :=
  inr (if decide (t = "{{ .Zone }}:NoSchedule") then "a:NoSchedule" else t).
Definition demo_order (i : nat) (m : gmap string string) : list (string * string) := map_to_list m.

Lemma demo_range_order : range_order demo_order.
Proof. by intros i m. Qed.

Definition demo_meta : struct :=
  [mkField "Platform" "platform,omitempty" true (FString "gcp");
   mkField "Hostname" "hostname,omitempty" true (FString "node-1");
   mkField "Zone" "zone,omitempty" true (FString "a");
   mkField "Spot" "spot,omitempty" true (FBool true)].

Definition demo_term : NodeTerm :=
  mkNodeTerm "spot" [mkTerm [mkReq "spot" "In" ["true"]; mkReq "platform" "In" ["gcp"]]]
    {[ "example.com/zone" := "a" ]} {[ "spot" := "yes" ]} {[ "dedicated" := "{{ .Zone }}:NoSchedule" ]}
    {[ "zone" := " b "; "HostName" := "other" ]} (mkFeatures true).

Notation demo_transform terms :=
  (TransformNode demo_Parse demo_Execute (λ _, []) (λ _, []) (λ _, None) demo_order terms demo_meta None).

Lemma transform_result_witness :
  ∃ spec pm', demo_transform [demo_term] = Ok (spec, pm') ∧
    transforms demo_Parse demo_Execute (λ _, []) (λ _, []) (λ _, None)
      (demo_meta, []) (mapFromStruct demo_meta) [demo_term] emptyNodeSpec spec.
Proof.
  destruct (demo_transform [demo_term]) as [[spec pm']|e|] eqn:E; [|vm_compute in E; discriminate E..].
  exists spec, pm'. split; [reflexivity|].
  exact (transform_result demo_Parse demo_Execute (λ _, []) (λ _, []) (λ _, None) demo_order [demo_term]
           demo_meta None spec pm' demo_range_order E).
Defined.

Lemma transform_order_irrelevant_witness :
  ∃ spec, ∀ pm1 spec2 pm2, demo_transform [demo_term] = Ok (spec, pm1) →
    TransformNode demo_Parse demo_Execute (λ _, []) (λ _, []) (λ _, None)
      (λ i m, reverse (map_to_list m)) [demo_term] demo_meta None = Ok (spec2, pm2) → spec = spec2.
Proof.
  destruct (demo_transform [demo_term]) as [[spec pm']|e|] eqn:E; [|vm_compute in E; discriminate E..].
  exists spec. intros pm1 spec2 pm2 E1 E2.
  apply (transform_order_irrelevant demo_Parse demo_Execute (λ _, []) (λ _, []) (λ _, None) demo_order
           (λ i m, reverse (map_to_list m)) [demo_term] demo_meta None spec pm1 spec2 pm2).
  - exact demo_range_order.
  - intros i m. apply reverse_Permutation.
  - rewrite E. exact E1.
  - exact E2.
Defined.

Lemma transform_protects_identity_witness :
  ∃ spec pm', demo_transform [demo_term] = Ok (spec, pm') ∧
    pm' !! 1%nat = Some (mkField "Hostname" "hostname,omitempty" true (FString "node-1")) ∧
    pm' !! 2%nat = Some (mkField "Zone" "zone,omitempty" true (FString "b")).
Proof.
  destruct (demo_transform [demo_term]) as [[spec pm']|e|] eqn:E; [|vm_compute in E; discriminate E..].
  exists spec, pm'. split; [reflexivity|]. split.
  - destruct (transform_protects_identity demo_Parse demo_Execute (λ _, []) (λ _, []) (λ _, None) demo_order
                [demo_term] demo_meta None spec pm') as [_ H].
    { apply Forall_cons. split; [|constructor]. apply map_Forall_insert_2; [reflexivity|].
      apply map_Forall_singleton. reflexivity. }
    { exact demo_range_order. }
    { exact E. }
    destruct (H 1%nat _ eq_refl) as (f' & Hf' & _ & Hid). rewrite Hf'. f_equal. apply Hid.
    vm_compute. left.
  - vm_compute in E. injection E as _ <-. reflexivity.
Defined.

Lemma transform_ignores_features_witness :
  PublicIPDiscovery (term_Features demo_term) = true ∧
  ∃ spec pm', demo_transform [demo_term] = Ok (spec, pm') ∧ spec_Features spec = mkFeatures false.
Proof.
  split; [reflexivity|].
  destruct (demo_transform [demo_term]) as [[spec pm']|e|] eqn:E; [|vm_compute in E; discriminate E..].
  exists spec, pm'. split; [reflexivity|].
  exact (transform_ignores_features demo_Parse demo_Execute (λ _, []) (λ _, []) (λ _, None) demo_order [demo_term]
           demo_meta None spec pm' demo_range_order E).
Defined.

(** The stored taint is the template. *)
Lemma transform_taints_unrendered_witness :
  ∃ spec pm', demo_transform [demo_term] = Ok (spec, pm') ∧
    spec_Taints spec !! "dedicated" = Some "{{ .Zone }}:NoSchedule".
Proof.
  destruct (demo_transform [demo_term]) as [[spec pm']|e|] eqn:E; [|vm_compute in E; discriminate E..].
  exists spec, pm'. split; [reflexivity|].
  rewrite (transform_taints_unrendered demo_Parse demo_Execute (λ _, []) (λ _, []) (λ _, None) demo_order demo_term
             demo_meta None spec pm' demo_range_order ltac:(vm_compute; reflexivity) E).
  vm_compute. reflexivity.
Defined.
