(* ===== verification/TemplateFuncs.v ===== *)
(** * [pkg/transformer/functions.go]: the functions of the node templates

    The table of functions and every function of the program in it, with the parts
    of Go's [encoding/base64], [reflect] and [strings] they use.  Compiled regular
    expressions are a parameter.  [ReplaceAll] of an empty string steps over bytes,
    as Go does on ASCII text. *)

From S2P Require Import Prelude GoNet GoStrings.
From Stdlib Require Import Ascii.

Local Open Scope go_scope.

(** ** Strings *)

Definition upper_ascii (a : ascii) : ascii :=
  if (97 <=? code a) && (code a <=? 122) then ascii_of_N (N_of_ascii a - 32) else a.

Fixpoint ToUpper (s : string) : string :=
  match s with
  | EmptyString => EmptyString
  | String a s' => String (upper_ascii a) (ToUpper s')
  end.

(** [strings.TrimPrefix(s, p)], [strings.TrimSuffix(s, p)]. *)
Definition TrimPrefix (s p : string) : string := default s (CutPrefix s p).

Fixpoint cut_suffix (s p : string) : option string :=
  if decide (s = p) then Some EmptyString
  else match s with
       | EmptyString => None
       | String a s' => String a <$> cut_suffix s' p
       end.
Definition TrimSuffix (s p : string) : string := default s (cut_suffix s p).
Definition HasSuffix (s p : string) : bool := bool_decide (cut_suffix s p ≠ None).

(** [strings.ReplaceAll(s, o, n)]: the occurrences from the left that do not
    overlap; [skip] bytes belong to the last one found. *)
Fixpoint replace_from (o n : string) (skip : nat) (s : string) : string :=
  match s with
  | EmptyString => EmptyString
  | String a s' =>
      match skip with
      | S k => replace_from o n k s'
      | O => match CutPrefix s o with
             | Some _ => n +:+ replace_from o n (String.length o - 1) s'
             | None => String a (replace_from o n 0 s')
             end
      end
  end.

Fixpoint interleave (n s : string) : string :=
  match s with
  | EmptyString => n
  | String a s' => n +:+ String a (interleave n s')
  end.

Definition ReplaceAll (s o n : string) : string :=
  if decide (o = EmptyString) then interleave n s else replace_from o n 0 s.

(** ** Values: Go's [any] as the functions inspect it

    A slice, a map or a pointer may be nil; a struct has the values of its fields;
    [GOther] is a value of another kind with its [IsZero]. *)
#[local] Unset Elimination Schemes.
Inductive gval :=
  | GNil
  | GBool (b : bool)
  | GInt (n : Z)
  | GString (s : string)
  | GSlice (is_nil : bool) (l : list gval)
  | GMap (is_nil : bool) (m : list (gval * gval))
  | GPtr (target : option gval)
  | GStruct (fields : list gval)
  | GOther (is_zero : bool).
#[local] Set Elimination Schemes.

(** [reflect.Value.IsZero] of a valid value; the zero of an interface field is
    [GNil]. *)
Fixpoint IsZero (v : gval) : bool :=
  match v with
  | GNil => true
  | GBool b => negb b
  | GInt n => n =? 0
  | GString s => bool_decide (s = EmptyString)
  | GSlice is_nil _ | GMap is_nil _ => is_nil
  | GPtr t => match t with None => true | Some _ => false end
  | GStruct fields => forallb IsZero fields
  | GOther z => z
  end.

Definition IsValid (v : gval) : bool := match v with GNil => false | _ => true end.

Definition empty (given : gval) : bool := negb (IsValid given) || IsZero given.

(** The variadic parameter is a slice: nil in a call without such arguments, not
    nil when the arguments come from [reflect]. *)
Definition defaultFunc (d : gval) (nil_given : bool) (given : list gval) : outcome gval :=
  if empty (GSlice nil_given given) then Ok d
  else match given with
       | [] => Panic
       | g :: _ => Ok (if empty g then d else g)
       end.

Fixpoint coalesce (v : list gval) : gval :=
  match v with
  | [] => GNil
  | val :: v' => if negb (empty val) then val else coalesce v'
  end.

Definition ternary (vt vf : gval) (v : bool) : gval := if v then vt else vf.

(** ** Regular expressions *)

(** A compiled expression: [FindStringSubmatch] ([None] is nil), [FindString],
    [ReplaceAllString]. *)
Record Regexp := mkRegexp {
  FindStringSubmatch : string → option (list string);
  FindString : string → string;
  ReplaceAllString : string → string → string }.

Section regexp.
Context (Compile : string → error + Regexp).

(** [matches[n]] panics outside the slice. *)
Definition regexFindString (regex s : string) (n : Z) : outcome string :=
  match Compile regex with
  | inl err => Err err
  | inr r =>
      let matches := default [] (FindStringSubmatch r s) in
      if Z.of_nat (length matches) <? n + 1 then Ok EmptyString
      else if n <? 0 then Panic
      else match matches !! Z.to_nat n with Some m => Ok m | None => Panic end
  end.

Definition regexReplaceAll (regex s repl : string) : outcome string :=
  match Compile regex with
  | inl err => Err err
  | inr r => Ok (ReplaceAllString r s repl)
  end.

Definition regexFind (regex s : string) : outcome string :=
  match Compile regex with
  | inl err => Err err
  | inr r => Ok (FindString r s)
  end.
End regexp.

(** ** [base64.StdEncoding] *)

(** The alphabet: [A-Z], [a-z], [0-9], [+], [/]. *)
Definition b64_char (v : Z) : ascii :=
  ascii_of_N (Z.to_N (
    if v <? 26 then v + 65 else if v <? 52 then v + 71 else if v <? 62 then v - 4
    else if v =? 62 then 43 else 47)).

(** [decodeMap]. *)
Definition b64_val (a : ascii) : option Z :=
  let c := code a in
  if (65 <=? c) && (c <=? 90) then Some (c - 65)
  else if (97 <=? c) && (c <=? 122) then Some (c - 71)
  else if (48 <=? c) && (c <=? 57) then Some (c + 4)
  else if c =? 43 then Some 62 else if c =? 47 then Some 63 else None.

Definition b64_pad : ascii := "="%char.

(** Digit [i] from the right of a group of 24 bits. *)
Definition sextet (val i : Z) : ascii := b64_char (Z.land (val ≫ (6 * i)) 63).

Fixpoint EncodeToString (src : string) : string :=
  match src with
  | EmptyString => EmptyString
  | String a EmptyString =>
      let val := code a ≪ 16 in
      String (sextet val 3) (String (sextet val 2) (String b64_pad (String b64_pad EmptyString)))
  | String a (String b EmptyString) =>
      let val := Z.lor (code a ≪ 16) (code b ≪ 8) in
      String (sextet val 3) (String (sextet val 2) (String (sextet val 1) (String b64_pad EmptyString)))
  | String a (String b (String c src')) =>
      let val := Z.lor (Z.lor (code a ≪ 16) (code b ≪ 8)) (code c) in
      String (sextet val 3) (String (sextet val 2) (String (sextet val 1) (String (sextet val 0)
        (EncodeToString src'))))
  end.

Definition CorruptInputError (at_byte : Z) : error :=
  ErrNew ("illegal base64 data at input byte " +:+ Uitoa at_byte).

Definition is_newline (a : ascii) : bool := (code a =? 10) || (code a =? 13).

(** Skip newlines, counting bytes. *)
Fixpoint skip_newlines (si : Z) (s : string) : Z * string :=
  match s with
  | String a s' => if is_newline a then skip_newlines (si + 1) s' else (si, s)
  | EmptyString => (si, s)
  end.

(** The [n] bytes of a quantum of up to four digits. *)
Definition quantum (dbuf : list Z) (n : nat) (rest : string) : string :=
  let d i := nth i dbuf 0 in
  let val := Z.lor (Z.lor (Z.lor (d 0%nat ≪ 18) (d 1%nat ≪ 12)) (d 2%nat ≪ 6)) (d 3%nat) in
  let byte i := ascii_of_N (Z.to_N (Z.land (val ≫ i) 255)) in
  foldr (λ i r, String (byte i) r) rest (take n [16; 8; 0]).

(** The input after the first padding byte of a quantum with [j] digits. *)
Definition after_padding (j : nat) (dbuf : list Z) (si : Z) (s : string) : outcome string :=
  let finish si s :=
    let '(si, s) := skip_newlines si s in
    if decide (s = EmptyString) then Ok (quantum dbuf (j - 1) EmptyString)
    else Err (CorruptInputError si) in
  match j with
  | 0%nat | 1%nat => Err (CorruptInputError (si - 1))
  | 2%nat =>
      let '(si, s) := skip_newlines si s in
      match s with
      | EmptyString => Err (CorruptInputError si)
      | String a s' => if decide (a = b64_pad) then finish (si + 1) s'
                       else Err (CorruptInputError (si - 1))
      end
  | _ => finish si s
  end.

(** [DecodeString] from byte [si], with the digits [dbuf] of the open quantum. *)
Fixpoint decode_from (si : Z) (dbuf : list Z) (s : string) : outcome string :=
  match s with
  | EmptyString =>
      if decide (dbuf = []) then Ok EmptyString
      else Err (CorruptInputError (si - Z.of_nat (length dbuf)))
  | String a s' =>
      match b64_val a with
      | Some v =>
          if (length dbuf =? 3)%nat then
            let? rest := decode_from (si + 1) [] s' in Ok (quantum (dbuf ++ [v]) 3 rest)
          else decode_from (si + 1) (dbuf ++ [v]) s'
      | None =>
          if is_newline a then decode_from (si + 1) dbuf s'
          else if decide (a = b64_pad) then after_padding (length dbuf) dbuf (si + 1) s'
          else Err (CorruptInputError si)
      end
  end.

Definition DecodeString (s : string) : outcome string := decode_from 0 [] s.

Definition base64encode (v : string) : string := EncodeToString v.
Definition base64decode (v : string) : outcome string := DecodeString v.

(** ** [getValue] *)

Fixpoint getValue_parts (parts : list string) (key : string) : outcome string :=
  match parts with
  | [] => Ok EmptyString
  | part :: parts' =>
      let kv := Split part "="%char in
      if decide (default EmptyString (kv !! 0%nat) = key) then
        match kv !! 1%nat with Some v => Ok v | None => Panic end
      else getValue_parts parts' key
  end.

Definition getValue (source key : string) : outcome string :=
  getValue_parts (Split source ";"%char) key.

(** ** The table *)

(** A function value, by its Go signature. *)
Inductive gofunc :=
  | FString1 (f : string → string)
  | FString2 (f : string → string → string)
  | FString3 (f : string → string → string → string)
  | FBool2 (f : string → string → bool)
  | FTry1 (f : string → outcome string)
  | FTry2 (f : string → string → outcome string)
  | FTry3 (f : string → string → string → outcome string)
  | FTryN (f : string → string → Z → outcome string)
  | FEmpty (f : gval → bool)
  | FDefault (f : gval → bool → list gval → outcome gval)
  | FVariadic (f : list gval → gval)
  | FTernary (f : gval → gval → bool → gval).

Section table.
Context (Compile : string → error + Regexp).

Definition genericMap : list (string * gofunc) := [
  ("default", FDefault defaultFunc);
  ("empty", FEmpty empty);
  ("coalesce", FVariadic coalesce);
  ("ternary", FTernary ternary);
  ("upper", FString1 ToUpper);
  ("lower", FString1 ToLower);
  ("trim", FString1 TrimSpace);
  ("trimSuffix", FString2 (λ a b, TrimSuffix b a));
  ("trimPrefix", FString2 (λ a b, TrimPrefix b a));
  ("replace", FString3 (λ o n s, ReplaceAll s o n));
  ("regexFind", FTry2 (regexFind Compile));
  ("regexFindString", FTryN (regexFindString Compile));
  ("regexReplaceAll", FTry3 (regexReplaceAll Compile));
  ("contains", FBool2 (λ substr str, Contains str substr));
  ("hasPrefix", FBool2 (λ substr str, HasPrefix str substr));
  ("hasSuffix", FBool2 (λ substr str, HasSuffix str substr));
  ("b64enc", FString1 base64encode);
  ("b64dec", FTry1 base64decode);
  ("getValue", FTry2 getValue)].

(** A copy of the table: the map the template engine is given. *)
Definition GenericFuncMap : gmap string gofunc := list_to_map genericMap.

(** [reflect.Value.Call] with arguments of the parameters' types; the engine
    refuses other arguments. *)
Definition reflect_Call (f : gofunc) (args : list gval) : outcome gval :=
  let str (o : outcome string) := let? s := o in Ok (GString s) in
  match f, args with
  | FString1 f, [GString a] => Ok (GString (f a))
  | FString2 f, [GString a; GString b] => Ok (GString (f a b))
  | FString3 f, [GString a; GString b; GString c] => Ok (GString (f a b c))
  | FBool2 f, [GString a; GString b] => Ok (GBool (f a b))
  | FTry1 f, [GString a] => str (f a)
  | FTry2 f, [GString a; GString b] => str (f a b)
  | FTry3 f, [GString a; GString b; GString c] => str (f a b c)
  | FTryN f, [GString a; GString b; GInt n] => str (f a b n)
  | FEmpty f, [a] => Ok (GBool (f a))
  | FDefault f, d :: given => f d false given
  | FVariadic f, l => Ok (f l)
  | FTernary f, [a; b; GBool v] => Ok (f a b v)
  | _, _ => Err (ErrNew "wrong arguments")
  end.

(** The engine's call of a function by name: a panic becomes an error. *)
Definition safeCall (name : string) (args : list gval) : outcome gval :=
  match GenericFuncMap !! name with
  | None => Err (ErrNew ("function " +:+ quoted name +:+ " not defined"))
  | Some f => match reflect_Call f args with
              | Panic => Err (ErrNew "runtime error")
              | o => o
              end
  end.
End table.
