(* ===== verification/TemplateFuncsTheorems.v ===== *)
(** * What the template functions compute

    [getValue] as a lookup, the base64 round trip, the argument order of the table
    against the documented examples, and [default] and [coalesce]. *)

From S2P Require Import Prelude GoNet GoStrings TemplateFuncs.
From Stdlib Require Import Ascii.

Local Open Scope go_scope.

(** ** [getValue] *)

Lemma no_sep_app s t sep : no_sep s sep → no_sep t sep → no_sep (s +:+ t) sep.
Proof.
  induction s as [|a s IH]; [done|]. intros [Ha Hs] Ht. split; [done|by apply IH].
Qed.

(** A list of pairs as the text [k1=v1;k2=v2;...], and the first value of a key. *)
Definition pair_text (kv : string * string) : string := kv.1 +:+ String "="%char kv.2.
Definition pairs_text (kvs : list (string * string)) : string := join (map pair_text kvs) ";"%char.

Fixpoint first_value (kvs : list (string * string)) (key : string) : option string :=
  match kvs with
  | [] => None
  | (k, v) :: kvs' => if decide (k = key) then Some v else first_value kvs' key
  end.

(** Keys without separators, values without [;]. *)
Definition pair_ok (kv : string * string) : Prop :=
  no_sep kv.1 ";"%char ∧ no_sep kv.1 "="%char ∧ no_sep kv.2 ";"%char.

Definition before_eq (v : string) : string := default EmptyString (head (Split v "="%char)).

Lemma before_eq_id v : no_sep v "="%char → before_eq v = v.
Proof. intros Hv. unfold before_eq. by rewrite Split_no_sep. Qed.

Lemma pair_text_no_sep kv : pair_ok kv → no_sep (pair_text kv) ";"%char.
Proof. intros (Hk & _ & Hv). by apply no_sep_app. Qed.

Lemma getValue_parts_pairs kvs key : Forall pair_ok kvs →
  getValue_parts (map pair_text kvs) key = Ok (from_option before_eq EmptyString (first_value kvs key)).
Proof.
  induction 1 as [|[k v] kvs (_ & Hk & _) _ IH]; [done|].
  cbn [map getValue_parts first_value]. cbn [fst snd] in *.
  assert (Split (pair_text (k, v)) "="%char = k :: Split v "="%char) as -> by by apply Split_app. cbn [lookup list_lookup default from_option].
  change (id k) with k. case_decide; [|done]. cbn [from_option]. unfold before_eq.
  destruct (Split v "="%char) as [|p ps] eqn:E; [by destruct (Split_nonempty v "="%char)|]. done.
Qed.

(** [getValue] on the text [k1=v1;k2=v2;...] of a non-empty list of pairs,
    whose keys hold neither separator and whose values hold no [;], returns the
    value of the first pair with the key and the empty string when there is none;
    of a value that holds a [=] itself it returns only the part before it. *)
Theorem getValue_lookup (kvs : list (string * string)) (key : string) :
  kvs ≠ [] → Forall pair_ok kvs →
  getValue (pairs_text kvs) key = Ok (from_option before_eq EmptyString (first_value kvs key)) ∧
  (Forall (λ kv, no_sep kv.2 "="%char) kvs →
   getValue (pairs_text kvs) key = Ok (default EmptyString (first_value kvs key))).
Proof.
  intros Hne Hok.
  assert (getValue (pairs_text kvs) key = Ok (from_option before_eq EmptyString (first_value kvs key))) as E.
  { unfold getValue, pairs_text. rewrite Split_of_join; [by apply getValue_parts_pairs| |].
    - by destruct kvs.
    - apply Forall_map. by eapply Forall_impl; [|apply pair_text_no_sep]. }
  split; [done|]. intros Hv. rewrite E. clear -Hv. induction Hv as [|[k v] kvs Hkv _ IH]; [done|].
  cbn. case_decide; [|done]. cbn. by rewrite before_eq_id.
Qed.

(** The documented example [ds=nocloud;i=1234]. *)
Lemma getValue_lookup_witness :
  getValue "ds=nocloud;i=1234" "i" = Ok "1234".
Proof.
  destruct (getValue_lookup [("ds", "nocloud"); ("i", "1234")] "i") as [E _]; [done| |exact E].
  repeat constructor; done.
Defined.

(** A key without a value is an index out of range; a base64 value loses its
    padding. *)
Lemma getValue_key_alone : getValue "ds=nocloud;seed" "seed" = Panic.
Proof. reflexivity. Qed.

Lemma getValue_cuts_padding : getValue "token=aGVsbG8=" "token" = Ok "aGVsbG8".
Proof. reflexivity. Qed.

(** ** The table *)

(** The functions of the table take the text they work on last, so the six
    documented calls that pass it first do not give the documented results:
    [trimSuffix], [trimPrefix] and [replace] return their last argument unchanged
    and the three tests are false, for every regular expression library.  With the
    arguments in the other order they do. *)
Theorem documented_calls (Compile : string → error + Regexp) :
  let call name args := safeCall Compile name (map GString args) in
  call "trimSuffix" ["hello"; "lo"] = Ok (GString "lo") ∧
  call "trimPrefix" ["hello"; "he"] = Ok (GString "he") ∧
  call "replace" ["hello"; "l"; "L"] = Ok (GString "L") ∧
  call "contains" ["hello"; "lo"] = Ok (GBool false) ∧
  call "hasPrefix" ["hello"; "he"] = Ok (GBool false) ∧
  call "hasSuffix" ["hello"; "lo"] = Ok (GBool false) ∧
  call "trimSuffix" ["lo"; "hello"] = Ok (GString "hel") ∧
  call "trimPrefix" ["he"; "hello"] = Ok (GString "llo") ∧
  call "replace" ["l"; "L"; "hello"] = Ok (GString "heLLo") ∧
  call "contains" ["lo"; "hello"] = Ok (GBool true) ∧
  call "hasPrefix" ["he"; "hello"] = Ok (GBool true) ∧
  call "hasSuffix" ["lo"; "hello"] = Ok (GBool true).
Proof. split_and!; vm_compute; reflexivity. Qed.

(** The engine's calls never panic. *)
Lemma safeCall_no_panic Compile name args : safeCall Compile name args ≠ Panic.
Proof. unfold safeCall. repeat case_match; done. Qed.

(** [default] without a given value is an error in a template: the slice of the
    variadic arguments is empty but not nil. *)
Lemma default_alone Compile d : ∃ e, safeCall Compile "default" [d] = Err e.
Proof. by exists (ErrNew "runtime error"). Qed.

Lemma default_given Compile d g :
  safeCall Compile "default" [d; g] = Ok (if empty g then d else g).
Proof. reflexivity. Qed.

Lemma coalesce_first v : ∀ l1 l2, Forall (λ x, empty x = true) l1 → empty v = false →
  coalesce (l1 ++ v :: l2) = v.
Proof. induction 1 as [|x l1 Hx _ IH]; intros Hv; cbn; [by rewrite Hv|]. rewrite Hx. by apply IH. Qed.

(** ** base64 *)

Lemma code_range a : 0 ≤ code a < 256.
Proof. destruct a as [[] [] [] [] [] [] [] []]; by vm_compute. Qed.

Lemma ascii_of_code a : ascii_of_N (Z.to_N (code a)) = a.
Proof. unfold code. rewrite N2Z.id. apply ascii_N_embedding. Qed.

Lemma b64_val_char v : 0 ≤ v < 64 → b64_val (b64_char v) = Some v.
Proof.
  assert (forallb (λ v, bool_decide (b64_val (b64_char v) = Some v)) (seqZ 0 64) = true) as H by reflexivity.
  rewrite forallb_forall in H. intros Hv.
  apply (bool_decide_eq_true_1 _ (H v (proj1 (list_elem_of_In _ _) (proj2 (elem_of_seqZ 0 64 v) Hv)))).
Qed.

(** Joining a bit field below another is addition. *)
Lemma lor_add x y n : 0 ≤ n → 0 ≤ y < 2 ^ n → Z.lor (x * 2 ^ n) y = x * 2 ^ n + y.
Proof.
  intros Hn Hy. pose proof (lor_split n x 0 0 y Hn) as E.
  rewrite Z.lor_0_r, Z.lor_0_l, Z.add_0_r, Z.mul_0_l, Z.add_0_l in E. apply E; lia.
Qed.

Lemma group3 a b c : 0 ≤ b < 256 → 0 ≤ c < 256 →
  Z.lor (Z.lor (a ≪ 16) (b ≪ 8)) c = a * 65536 + b * 256 + c.
Proof.
  intros Hb Hc. rewrite !Z.shiftl_mul_pow2 by lia. rewrite lor_add by lia.
  replace (a * 2 ^ 16 + b * 2 ^ 8) with ((a * 256 + b) * 2 ^ 8) by lia. rewrite lor_add; lia.
Qed.

Lemma group4 p q r t : 0 ≤ q < 64 → 0 ≤ r < 64 → 0 ≤ t < 64 →
  Z.lor (Z.lor (Z.lor (p ≪ 18) (q ≪ 12)) (r ≪ 6)) t = p * 262144 + q * 4096 + r * 64 + t.
Proof.
  intros Hq Hr Ht. rewrite !Z.shiftl_mul_pow2 by lia. rewrite lor_add by lia.
  replace (p * 2 ^ 18 + q * 2 ^ 12) with ((p * 64 + q) * 2 ^ 12) by lia. rewrite lor_add by lia.
  replace ((p * 64 + q) * 2 ^ 12 + r * 2 ^ 6) with ((p * 4096 + q * 64 + r) * 2 ^ 6) by lia.
  rewrite lor_add; lia.
Qed.

(** The digit of [val] at [i], and the four digits together. *)
Definition digit (val i : Z) : Z := Z.land (val ≫ (6 * i)) 63.

Lemma digit_eq val i : 0 ≤ i → digit val i = val `div` 2 ^ (6 * i) `mod` 64.
Proof.
  intros Hi. unfold digit. change 63 with (Z.ones 6). by rewrite Z.land_ones, Z.shiftr_div_pow2 by lia.
Qed.

Lemma b64_val_sextet val i : 0 ≤ i → b64_val (sextet val i) = Some (digit val i).
Proof.
  intros Hi. unfold sextet. fold (digit val i). apply b64_val_char. rewrite digit_eq by done.
  apply Z.mod_pos_bound. lia.
Qed.

Lemma digits_join val : 0 ≤ val < 2 ^ 24 →
  Z.lor (Z.lor (Z.lor (digit val 3 ≪ 18) (digit val 2 ≪ 12)) (digit val 1 ≪ 6)) (digit val 0) = val.
Proof.
  intros Hv. rewrite !digit_eq by lia. rewrite group4; try (apply Z.mod_pos_bound; lia).
  change (2 ^ (6 * 3)) with 262144. change (2 ^ (6 * 2)) with 4096. change (2 ^ (6 * 1)) with 64.
  change (2 ^ (6 * 0)) with 1. Z.div_mod_to_equations. lia.
Qed.

Lemma low_byte val i a : 0 ≤ i → val `div` 2 ^ i `mod` 256 = code a →
  ascii_of_N (Z.to_N (Z.land (val ≫ i) 255)) = a.
Proof.
  intros Hi E. change 255 with (Z.ones 8). rewrite Z.land_ones, Z.shiftr_div_pow2 by lia.
  change (2 ^ 8) with 256. rewrite E. apply ascii_of_code.
Qed.

(** The bytes of a whole and of a partial group. *)
Lemma quantum_group a b c n rest :
  let val := Z.lor (Z.lor (code a ≪ 16) (code b ≪ 8)) (code c) in
  quantum [digit val 3; digit val 2; digit val 1; digit val 0] n rest =
  foldr String rest (take n [a; b; c]).
Proof.
  cbn zeta. pose proof (code_range a). pose proof (code_range b). pose proof (code_range c).
  rewrite group3 by done. set (val := _ + _). unfold quantum. cbn [nth].
  rewrite digits_join by (subst val; lia).
  destruct n as [|[|[|n]]]; cbn [take foldr]; rewrite ?take_nil; cbn [foldr]; [done| | |];
    rewrite ?(low_byte val 16 a), ?(low_byte val 8 b), ?(low_byte val 0 c);
    try done; subst val; Z.div_mod_to_equations; lia.
Qed.

Lemma quantum_short dbuf n rest : quantum dbuf n rest = quantum (dbuf ++ [0]) n rest.
Proof.
  unfold quantum. destruct dbuf as [|p [|q [|r [|t dbuf]]]]; done.
Qed.

Lemma quantum_group1 a :
  quantum [digit (code a ≪ 16) 3; digit (code a ≪ 16) 2] 1 EmptyString = String a EmptyString.
Proof.
  do 2 rewrite quantum_short. pose proof (quantum_group a zero zero 1 EmptyString) as E. cbn zeta in E.
  change (code zero) with 0 in E. rewrite Z.shiftl_0_l, !Z.lor_0_r in E.
  etrans; [|exact E]. cbn [app]. assert (∀ i, 0 ≤ i < 2 → digit (code a ≪ 16) i = 0) as Hz; [|by rewrite (Hz 0), (Hz 1) by lia].
  intros i Hi. rewrite digit_eq, Z.shiftl_mul_pow2 by lia. change (2 ^ 16) with 65536.
  assert (i = 0 ∨ i = 1) as [-> | ->] by lia.
  - change (2 ^ (6 * 0)) with 1. Z.div_mod_to_equations. lia.
  - change (2 ^ (6 * 1)) with 64. Z.div_mod_to_equations. lia.
Qed.

Lemma quantum_group2 a b :
  let val := Z.lor (code a ≪ 16) (code b ≪ 8) in
  quantum [digit val 3; digit val 2; digit val 1] 2 EmptyString = String a (String b EmptyString).
Proof.
  cbn zeta. rewrite quantum_short. pose proof (quantum_group a b zero 2 EmptyString) as E. cbn zeta in E.
  change (code zero) with 0 in E. rewrite Z.lor_0_r in E. etrans; [|exact E]. cbn [app]. assert (digit (Z.lor (code a ≪ 16) (code b ≪ 8)) 0 = 0) as ->; [|done].
  pose proof (code_range a). pose proof (code_range b).
  rewrite digit_eq, !Z.shiftl_mul_pow2, lor_add by lia.
  change (2 ^ (6 * 0)) with 1. change (2 ^ 16) with 65536. change (2 ^ 8) with 256.
  Z.div_mod_to_equations. lia.
Qed.

Lemma string_ind3 (P : string → Prop) :
  P EmptyString → (∀ a, P (String a EmptyString)) → (∀ a b, P (String a (String b EmptyString))) →
  (∀ a b c s, P s → P (String a (String b (String c s)))) → ∀ s, P s.
Proof.
  intros H0 H1 H2 H3. fix IH 1. intros [|a [|b [|c s]]]; [exact H0|apply H1|apply H2|apply H3, IH].
Qed.

Lemma decode_digit si dbuf val i s : 0 ≤ i → length dbuf ≠ 3%nat →
  decode_from si dbuf (String (sextet val i) s) = decode_from (si + 1) (dbuf ++ [digit val i]) s.
Proof.
  intros Hi Hl. cbn [decode_from]. rewrite b64_val_sextet by done. by rewrite (proj2 (Nat.eqb_neq _ _)).
Qed.

(** Decoding what the encoder wrote gives the text back, for every text. *)
Theorem base64_roundtrip (s : string) : base64decode (base64encode s) = Ok s.
Proof.
  unfold base64decode, base64encode, DecodeString. generalize 0.
  induction s as [|a|a b|a b c s IH] using string_ind3; intros si; [done|..];
    cbn [EncodeToString]; cbv zeta; rewrite !decode_digit by done; cbn [app].
  - set (v := code a ≪ 16). cbn [decode_from]. cbn -[quantum v digit]. f_equal. exact (quantum_group1 a).
  - set (v := Z.lor _ _). cbn -[quantum v digit]. f_equal. exact (quantum_group2 a b).
  - set (v := Z.lor _ _). cbn [decode_from]. rewrite b64_val_sextet by done. cbn [length Nat.eqb app].
    rewrite IH. cbn [obind]. f_equal. exact (quantum_group a b c 3 s).
Qed.
