(* ===== verification/Csr.v ===== *)
(** * [pkg/certificatesigningrequest] and [CSRNodeChecks] of [pkg/talos/helper.go]:
    approval of kubelet serving certificates

    Parameters: PEM decoding, X.509 parsing and the API server's answer to a node
    lookup.  A certificate request is the fields of [x509.CertificateRequest] the
    program reads.  The time stamp of a condition is left out. *)

From S2P Require Import Prelude GoNet GoStrings NetIP Kube.

Local Open Scope go_scope.

(** ** Data *)

Record CertificateRequest := mkCertReq {
  DNSNames : list string;
  IPAddresses : list (list Z);
  EmailAddresses : list string;
  URIs : list string;
  Organization : list string;
  CommonName : string }.

Record CSRSpec := mkCSRSpec {
  Request : string;
  SignerName : string;
  Username : string;
  Usages : list string }.

Record Condition := mkCondition { cond_Type : string; cond_Reason : string; cond_Message : string }.

#[export] Instance Condition_eq_dec : EqDecision Condition.
Proof. solve_decision. Defined.

Record CSR := mkCSR {
  Spec : CSRSpec;
  Certificate : string;
  Conditions : list Condition;
  (* the counter [csr_approval_count], by status, newest first *)
  counted : list string }.

Record Verdict := mkVerdict { Valid : bool; Message : string }.

Definition KubeletServingSignerName : string := "kubernetes.io/kubelet-serving".
Definition CertificateApproved : string := "Approved".
Definition CertificateDenied : string := "Denied".
Definition UsageKeyEncipherment : string := "key encipherment".
Definition UsageDigitalSignature : string := "digital signature".
Definition UsageServerAuth : string := "server auth".

Definition errNotCertificateRequest := ErrNew "PEM block type must be CERTIFICATE REQUEST".
Definition errOrganizationNotSystemNodes := ErrNew "subject organization is not system:nodes".
Definition errCommonNameNotSystemNode := ErrNew "subject common name does not begin with system:node: ".
Definition errCommonNameNotMatchingUsername := ErrNew "subject common name does not match the CSR username".
Definition errDNSOrIPSANRequired := ErrNew "DNS or IP subjectAltName is required".
Definition errDNSNameNotAllowed := ErrNew "DNS subjectAltNames are not allowed".
Definition errEmailSANNotAllowed := ErrNew "email subjectAltNames are not allowed".
Definition errURISANNotAllowed := ErrNew "URI subjectAltNames are not allowed".
Definition errKeyUsageMismatch := ErrNew "key usage does not match".

(** ** Validation *)

Definition kubeletServingRequiredUsages : list string :=
  [UsageKeyEncipherment; UsageDigitalSignature; UsageServerAuth].

(** A name of the cluster's own services, or a wildcard. *)
Definition reserved_name (name : string) : bool :=
  let n := ToLower name in
  bool_decide (n = "kubernetes") || HasPrefix n "kubernetes." || HasPrefix n "*.".

(** The loop over the requested usages: [usageMap[ku] = true], or an unknown
    usage. *)
Fixpoint mark_usages (usages : list string) (usageMap : gmap string bool) : option (gmap string bool) :=
  match usages with
  | [] => Some usageMap
  | ku :: usages' =>
      match usageMap !! ku with
      | None => None
      | Some _ => mark_usages usages' (<[ku := true]> usageMap)
      end
  end.

Definition validateKubeletServingCSR (req : CertificateRequest) (csrSpec : CSRSpec) : option error :=
  if bool_decide (DNSNames req = []) && bool_decide (IPAddresses req = []) then Some errDNSOrIPSANRequired
  else if existsb reserved_name (DNSNames req) then Some errDNSNameNotAllowed
  else if negb (bool_decide (EmailAddresses req = [])) then Some errEmailSANNotAllowed
  else if negb (bool_decide (URIs req = [])) then Some errURISANNotAllowed
  else if negb (bool_decide (["system:nodes"] = Organization req)) then Some errOrganizationNotSystemNodes
  else if match CutPrefix (CommonName req) "system:node:" with
          | None => true
          | Some name => bool_decide (name = "")
          end then Some errCommonNameNotSystemNode
  else if negb (bool_decide (CommonName req = Username csrSpec)) then Some errCommonNameNotMatchingUsername
  else
    let usageMap := list_to_map ((λ u, (u, false)) <$> kubeletServingRequiredUsages) in
    match mark_usages (Usages csrSpec) usageMap with
    | None => Some errKeyUsageMismatch
    | Some m =>
        if default false (m !! UsageServerAuth) && default false (m !! UsageDigitalSignature) then None
        else Some errKeyUsageMismatch
    end.

(** ** The controller *)

Definition updateApproval (approved : bool) (reason : string) (csr : CSR) : CSR :=
  let reasonMessage := if decide (reason = "") then "" else ", reason: " +:+ reason in
  if approved then
    mkCSR (Spec csr) (Certificate csr)
      (Conditions csr ++
       [mkCondition CertificateApproved "Approved by TalosCloudControllerManager"
          ("This CSR was approved by Talos Cloud Controller Manager" +:+ reasonMessage)])
      ("approve" :: counted csr)
  else
    mkCSR (Spec csr) (Certificate csr)
      (Conditions csr ++
       [mkCondition CertificateDenied "Denied by TalosCloudControllerManager"
          ("This CSR was denied by Talos Cloud Controller Manager" +:+ reasonMessage)])
      ("deny" :: counted csr).

Section controller.
(** [pem.Decode]: the type and the bytes of the first block. *)
Context (pem_Decode : string → option (string * string)).
Context (ParseCertificateRequest : string → error + CertificateRequest).

Definition parseCSR (pemBytes : string) : error + CertificateRequest :=
  match pem_Decode pemBytes with
  | None => inl errNotCertificateRequest
  | Some (ty, bytes) =>
      if decide (ty = "CERTIFICATE REQUEST") then
        match ParseCertificateRequest bytes with
        | inl err => inl err
        | inr csr => inr csr
        end
      else inl errNotCertificateRequest
  end.

(** [Reconcile]: whether the request is to be updated. *)
Definition Reconcile (providerChecks : CSRSpec → CertificateRequest → outcome Verdict) : GoM CSR bool :=
  csr <- gget ;;
  if negb (bool_decide (SignerName (Spec csr) = KubeletServingSignerName)) then gret false
  else if negb (bool_decide (Certificate csr = "")) then gret false
  else if negb (bool_decide (Conditions csr = [])) then gret false
  else
    match parseCSR (Request (Spec csr)) with
    | inl err => gmodify (updateApproval false (Error err)) ;;; gret true
    | inr x509cr =>
        match validateKubeletServingCSR x509cr (Spec csr) with
        | Some err => gmodify (updateApproval false (Error err)) ;;; gret true
        | None =>
            verdict <- gcatch (gof_outcome (providerChecks (Spec csr) x509cr))
                              (λ err, gfail (ErrV "providerChecks has an error: " err)) ;;
            gmodify (updateApproval (Valid verdict) (Message verdict)) ;;; gret true
        end
    end.
End controller.

(** ** The provider's checks *)

(** [ip.Equal(x)]. *)
Definition IP_Equal (ip x : list Z) : bool :=
  if (length ip =? length x)%nat then bool_decide (ip = x)
  else if (length ip =? 4)%nat && (length x =? 16)%nat then
    bool_decide (take 12 x = v4InV6Prefix) && bool_decide (ip = drop 12 x)
  else if (length ip =? 16)%nat && (length x =? 4)%nat then
    bool_decide (take 12 ip = v4InV6Prefix) && bool_decide (drop 12 ip = x)
  else false.

(** [if !slices.Contains(l, x) { l = append(l, x) }]. *)
Definition add_name (n : string) (names : list string) : list string :=
  if decide (n ∈ names) then names else names ++ [n].

(** One pass of the loop over the node's addresses. *)
Definition collect_address (addr : NodeAddress) (acc : list (list Z) * list string)
    : list (list Z) * list string :=
  let '(nodeAddrs, nodeDNSNames) := acc in
  let ty := addr_type addr in
  if decide (ty = NodeHostName ∨ ty = NodeInternalDNS ∨ ty = NodeExternalDNS) then
    match (if decide (ty = NodeHostName) then ParseIP (address addr) else None) with
    | Some ip => if existsb (IP_Equal ip) nodeAddrs
                 then (nodeAddrs, add_name (ToLower (address addr)) nodeDNSNames)
                 else (nodeAddrs ++ [ip], nodeDNSNames)
    | None => (nodeAddrs, add_name (ToLower (address addr)) nodeDNSNames)
    end
  else if decide (ty = NodeInternalIP ∨ ty = NodeExternalIP) then
    match ParseIP (address addr) with
    | None => acc
    | Some ip => if existsb (IP_Equal ip) nodeAddrs then acc else (nodeAddrs ++ [ip], nodeDNSNames)
    end
  else acc.

Section checks.
Context (K : Kube) (Nodes_Get : string → error + Node).

Definition CSRNodeChecks (spec : CSRSpec) (x509cr : CertificateRequest) : outcome Verdict :=
  match CutPrefix (Username spec) "system:node:" with
  | None | Some EmptyString => Ok (mkVerdict false ("invalid CSR username: " +:+ Username spec))
  | Some nodeName =>
      match Nodes_Get nodeName with
      | inl err =>
          if IsNotFound K err
          then Ok (mkVerdict false ("csrNodeChecks: node " +:+ nodeName +:+ " not found"))
          else Err (ErrW ("failed to get node " +:+ nodeName +:+ ": ") err)
      | inr node =>
          if decide (Addresses node = []) then Err (ErrNew ("node not initialized yet: " +:+ nodeName))
          else
            let '(nodeAddrs, nodeDNSNames) :=
              foldl (λ acc addr, collect_address addr acc) ([], [ToLower nodeName]) (Addresses node) in
            match list_find (λ name, ToLower name ∉ nodeDNSNames) (DNSNames x509cr) with
            | Some (_, name) =>
                Ok (mkVerdict false ("csrNodeChecks: CSR DNSName " +:+ name +:+
                      " doesn't match Node(In/Ex)ternalDNS names " +:+ quoted_list nodeDNSNames))
            | None =>
                match list_find (λ ip, existsb (IP_Equal ip) nodeAddrs = false) (IPAddresses x509cr) with
                | Some (_, ip) =>
                    Ok (mkVerdict false ("csrNodeChecks: CSR IPAddresses " +:+ IP_String ip +:+
                          " doesn't match Node(In/Ex)ternalIP addresses " +:+
                          quoted_list (map IP_String nodeAddrs)))
                | None => Ok (mkVerdict true "")
                end
            end
      end
  end.
End checks.
