(* ===== verification/CsrTheorems.v ===== *)
(** * Theorems about certificate approval *)

From S2P Require Import Prelude GoNet GoStrings NetIP Kube Csr.

Local Open Scope go_scope.

(** ** Key usages *)

Lemma mark_usages_spec us (m m' : gmap string bool) :
  mark_usages us m = Some m' →
  (∀ u, u ∈ us → is_Some (m !! u)) ∧
  ∀ k, m' !! k = if decide (k ∈ us) then Some true else m !! k.
Proof.
  revert m. induction us as [|u us IH]; intros m; cbn.
  { intros [= <-]. split; [by intros u Hu%elem_of_nil|]. intros k. rewrite decide_False; [done|apply not_elem_of_nil]. }
  destruct (m !! u) as [b|] eqn:Eu; [|done]. intros [Hin Hm]%IH. split.
  - intros v [->|Hv]%elem_of_cons; [by eexists|]. specialize (Hin v Hv).
    destruct (decide (u = v)) as [->|]; [by eexists|by rewrite lookup_insert_ne in Hin].
  - intros k. rewrite Hm. destruct (decide (k ∈ us)) as [Hk|Hk].
    + by rewrite decide_True by (by right).
    + destruct (decide (u = k)) as [->|].
      * rewrite lookup_insert_eq. by rewrite decide_True by (by left).
      * rewrite lookup_insert_ne by done. rewrite decide_False; [done|]. rewrite elem_of_cons. naive_solver.
Qed.

Lemma mark_usages_complete us (m : gmap string bool) :
  (∀ u, u ∈ us → is_Some (m !! u)) → is_Some (mark_usages us m).
Proof.
  revert m. induction us as [|u us IH]; intros m Hin; cbn; [by eexists|].
  destruct (Hin u) as [b ->]; [by left|]. apply IH. intros v Hv.
  destruct (decide (u = v)) as [->|]; [rewrite lookup_insert_eq; by eexists|].
  rewrite lookup_insert_ne by done. apply Hin. by right.
Qed.

Definition usage_map : gmap string bool := list_to_map ((λ u, (u, false)) <$> kubeletServingRequiredUsages).

Lemma usage_map_lookup u : usage_map !! u = if decide (u ∈ kubeletServingRequiredUsages) then Some false else None.
Proof.
  unfold usage_map, kubeletServingRequiredUsages. cbn. rewrite !lookup_insert.
  repeat case_decide; subst; try done; exfalso; set_solver.
Qed.

(** ** What validation accepts *)

Record valid_request (req : CertificateRequest) (spec : CSRSpec) : Prop := {
  vr_san : DNSNames req ≠ [] ∨ IPAddresses req ≠ [];
  vr_names : ∀ n, n ∈ DNSNames req → reserved_name n = false;
  vr_email : EmailAddresses req = [];
  vr_uris : URIs req = [];
  vr_org : Organization req = ["system:nodes"];
  vr_cn : ∃ name, name ≠ "" ∧ CommonName req = "system:node:" +:+ name;
  vr_user : CommonName req = Username spec;
  vr_known : ∀ u, u ∈ Usages spec → u ∈ kubeletServingRequiredUsages;
  vr_server : UsageServerAuth ∈ Usages spec;
  vr_signature : UsageDigitalSignature ∈ Usages spec }.

Lemma usages_accepted us :
  (match mark_usages us usage_map with
   | None => false
   | Some m => default false (m !! UsageServerAuth) && default false (m !! UsageDigitalSignature)
   end = true) ↔
  (∀ u, u ∈ us → u ∈ kubeletServingRequiredUsages) ∧ UsageServerAuth ∈ us ∧ UsageDigitalSignature ∈ us.
Proof.
  destruct (mark_usages us usage_map) as [m|] eqn:E.
  - destruct (mark_usages_spec us usage_map m E) as [Hin Hm]. rewrite !Hm, !usage_map_lookup.
    rewrite (decide_True (P := UsageServerAuth ∈ kubeletServingRequiredUsages)) by (vm_compute; set_solver).
    rewrite (decide_True (P := UsageDigitalSignature ∈ kubeletServingRequiredUsages)) by (vm_compute; set_solver).
    split.
    + intros Hb. apply andb_true_iff in Hb as [H1 H2]. split_and!.
      * intros u Hu. specialize (Hin u Hu). rewrite usage_map_lookup in Hin.
        destruct (decide (u ∈ kubeletServingRequiredUsages)); [done|by destruct Hin].
      * by destruct (decide (UsageServerAuth ∈ us)).
      * by destruct (decide (UsageDigitalSignature ∈ us)).
    + intros (_ & H1 & H2). by rewrite !decide_True.
  - split; [done|]. intros (Hin & _). destruct (mark_usages_complete us usage_map) as [m Em]; [|congruence].
    intros u Hu. rewrite usage_map_lookup, decide_True by auto. by eexists.
Qed.

Lemma existsb_none {A} (p : A → bool) l : existsb p l = false ↔ ∀ x, x ∈ l → p x = false.
Proof.
  induction l as [|y l IH]; cbn; [split; [by intros _ x Hx%elem_of_nil|done]|].
  rewrite orb_false_iff, IH. split; [intros [? ?] x [->|]%elem_of_cons; auto|].
  intros H. split; [apply H; by left|]. intros x Hx. apply H. by right.
Qed.

Lemma cn_accepted cn :
  match CutPrefix cn "system:node:" with None => true | Some name => bool_decide (name = "") end = false ↔
  ∃ name, name ≠ "" ∧ cn = "system:node:" +:+ name.
Proof.
  destruct (CutPrefix cn "system:node:") as [name|] eqn:E.
  - apply CutPrefix_Some in E as ->. rewrite bool_decide_eq_false. split; [by eexists|].
    intros (name' & Hne & Heq). apply (inj (String.app "system:node:")) in Heq. by subst.
  - split; [done|]. intros (name & _ & ->). by rewrite CutPrefix_app in E.
Qed.

(** A check in the chain of early returns. *)
Lemma reject_iff (b : bool) (e : error) (rest : option error) :
  (if b then Some e else rest) = None ↔ b = false ∧ rest = None.
Proof. destruct b; naive_solver. Qed.

Lemma validate_iff req spec : validateKubeletServingCSR req spec = None ↔ valid_request req spec.
Proof.
  unfold validateKubeletServingCSR. fold usage_map. rewrite !reject_iff, cn_accepted, existsb_none.
  rewrite !negb_false_iff, andb_false_iff, !bool_decide_eq_false, !bool_decide_eq_true.
  assert (∀ o : option (gmap string bool),
    match o with
    | None => Some errKeyUsageMismatch
    | Some m => if default false (m !! UsageServerAuth) && default false (m !! UsageDigitalSignature)
                then None else Some errKeyUsageMismatch
    end = None ↔
    match o with
    | None => false
    | Some m => default false (m !! UsageServerAuth) && default false (m !! UsageDigitalSignature)
    end = true) as ->.
  { intros [m|]; [|done]. by destruct (_ && _). }
  rewrite usages_accepted. split.
  - intros (? & ? & ? & ? & ? & ? & ? & ? & ? & ?). by split.
  - intros []. split_and!; auto.
Qed.

(** ** What the node's addresses allow *)

Definition dns_kind (ty : string) : Prop := ty = NodeHostName ∨ ty = NodeInternalDNS ∨ ty = NodeExternalDNS.
Definition ip_kind (ty : string) : Prop := ty = NodeInternalIP ∨ ty = NodeExternalIP.

(** [n] (in lower case) is the node's name or one of its host or DNS names. *)
Definition node_name (nodeName : string) (addrs : list NodeAddress) (n : string) : Prop :=
  n = ToLower nodeName ∨ ∃ a, a ∈ addrs ∧ dns_kind (addr_type a) ∧ n = ToLower (address a).

(** [ip] is one of the node's addresses. *)
Definition node_ip (addrs : list NodeAddress) (ip : list Z) : Prop :=
  ∃ a, a ∈ addrs ∧ (ip_kind (addr_type a) ∨ addr_type a = NodeHostName) ∧ ParseIP (address a) = Some ip.

Definition collected nodeName addrs : list (list Z) * list string :=
  foldl (λ acc addr, collect_address addr acc) ([], [ToLower nodeName]) addrs.

Lemma elem_of_add_name n m names : n ∈ add_name m names ↔ n = m ∨ n ∈ names.
Proof. unfold add_name. case_decide; set_solver. Qed.

Lemma ParseIP_length s ip : ParseIP s = Some ip → length ip = 16%nat.
Proof.
  unfold ParseIP. destruct (ParseAddr s) as [[|x|x z]|]; try done; [by intros [= <-]|].
  case_decide; [|done]. intros [= <-]. reflexivity.
Qed.

Lemma IP_Equal_16 a b : length a = 16%nat → length b = 16%nat → IP_Equal a b = true ↔ a = b.
Proof. intros Ha Hb. unfold IP_Equal. rewrite Ha, Hb. cbn. apply bool_decide_eq_true. Qed.

(** One pass keeps what is there and adds at most the address at hand. *)
Lemma collect_address_spec a ips names ips' names' :
  collect_address a (ips, names) = (ips', names') →
  (∀ ip, ip ∈ ips' → ip ∈ ips ∨ (ip_kind (addr_type a) ∨ addr_type a = NodeHostName) ∧ ParseIP (address a) = Some ip) ∧
  (∀ n, n ∈ names' → n ∈ names ∨ dns_kind (addr_type a) ∧ n = ToLower (address a)) ∧
  (∀ ip, ip ∈ ips → ip ∈ ips') ∧ (∀ n, n ∈ names → n ∈ names').
Proof.
  unfold collect_address. destruct (decide (addr_type a = NodeHostName ∨ _)) as [Hd|Hd].
  - destruct (decide (addr_type a = NodeHostName)) as [Hh|Hh];
      [destruct (ParseIP (address a)) as [ip|] eqn:Ep; [destruct (existsb _ _)|]|];
      intros [= <- <-]; split_and!; intros x; rewrite ?elem_of_add_name, ?elem_of_app, ?list_elem_of_singleton;
      unfold dns_kind in *; naive_solver.
  - destruct (decide (addr_type a = NodeInternalIP ∨ _)) as [Hi|Hi];
      [destruct (ParseIP (address a)) as [ip|] eqn:Ep; [destruct (existsb _ _)|]|];
      intros [= <- <-]; split_and!; intros x; rewrite ?elem_of_app, ?list_elem_of_singleton;
      unfold ip_kind in *; naive_solver.
Qed.

(** An address of the node's own is collected, in this form. *)
Lemma collect_address_ip a ips names ips' names' ip :
  collect_address a (ips, names) = (ips', names') → ip_kind (addr_type a) → ParseIP (address a) = Some ip →
  (∀ x, x ∈ ips → length x = 16%nat) → ip ∈ ips'.
Proof.
  intros E Hk Hp Hl. unfold collect_address in E.
  rewrite decide_False in E by (destruct Hk as [-> | ->]; by intros [|[|]]).
  rewrite decide_True, Hp in E by done. destruct (existsb (IP_Equal ip) ips) eqn:Ex; injection E as <- <-.
  - apply existsb_exists in Ex as (y & Hy & Heq). apply list_elem_of_In in Hy.
    apply IP_Equal_16 in Heq; [by subst|by apply (ParseIP_length (address a))|by apply Hl].
  - apply elem_of_app. right. by left.
Qed.

Lemma collect_address_name a ips names ips' names' :
  collect_address a (ips, names) = (ips', names') →
  addr_type a = NodeInternalDNS ∨ addr_type a = NodeExternalDNS → ToLower (address a) ∈ names'.
Proof.
  intros E Hk. unfold collect_address in E.
  rewrite decide_True in E by tauto. rewrite decide_False in E by (destruct Hk as [-> | ->]; done).
  injection E as <- <-. apply elem_of_add_name. by left.
Qed.

Lemma collected_spec addrs : ∀ ips names ips' names',
  foldl (λ acc addr, collect_address addr acc) (ips, names) addrs = (ips', names') →
  (∀ ip, ip ∈ ips' → ip ∈ ips ∨ node_ip addrs ip) ∧
  (∀ n, n ∈ names' → n ∈ names ∨ ∃ a, a ∈ addrs ∧ dns_kind (addr_type a) ∧ n = ToLower (address a)) ∧
  (∀ ip, ip ∈ ips → ip ∈ ips') ∧ (∀ n, n ∈ names → n ∈ names').
Proof.
  induction addrs as [|a addrs IH]; intros ips names ips' names'; cbn [foldl].
  { intros [= <- <-]. split_and!; auto. }
  destruct (collect_address a (ips, names)) as [ips1 names1] eqn:E1. intros E.
  destruct (collect_address_spec _ _ _ _ _ E1) as (A1 & A2 & A3 & A4).
  destruct (IH _ _ _ _ E) as (B1 & B2 & B3 & B4). unfold node_ip in *. split_and!.
  - intros ip Hip. destruct (B1 ip Hip) as [H|(b & Hb & H)].
    + destruct (A1 ip H) as [?|?]; [by left|]. right. exists a. split; [by left|done].
    + right. exists b. split; [by right|done].
  - intros n Hn. destruct (B2 n Hn) as [H|(b & Hb & H)].
    + destruct (A2 n H) as [?|?]; [by left|]. right. exists a. split; [by left|done].
    + right. exists b. split; [by right|done].
  - auto.
  - auto.
Qed.

Lemma collected_complete addrs : ∀ ips names ips' names' a,
  foldl (λ acc addr, collect_address addr acc) (ips, names) addrs = (ips', names') →
  (∀ x, x ∈ ips → length x = 16%nat) → a ∈ addrs →
  (∀ ip, ip_kind (addr_type a) → ParseIP (address a) = Some ip → ip ∈ ips') ∧
  (addr_type a = NodeInternalDNS ∨ addr_type a = NodeExternalDNS → ToLower (address a) ∈ names').
Proof.
  induction addrs as [|b addrs IH]; intros ips names ips' names' a E Hl Ha; [by apply elem_of_nil in Ha|].
  cbn [foldl] in E. destruct (collect_address b (ips, names)) as [ips1 names1] eqn:E1.
  destruct (collected_spec _ _ _ _ _ E) as (_ & _ & B3 & B4).
  apply elem_of_cons in Ha as [->|Ha].
  - split; [|intros Hk; by apply B4, (collect_address_name _ _ _ _ _ E1)].
    intros ip Hk Hp. by apply B3, (collect_address_ip _ _ _ _ _ _ E1).
  - apply (IH ips1 names1 ips' names' a E); [|done]. intros x Hx.
    destruct (collect_address_spec _ _ _ _ _ E1) as (A1 & _).
    destruct (A1 x Hx) as [?|[_ Hp]]; [auto|by apply ParseIP_length in Hp].
Qed.

(** What a positive verdict says about the request. *)
Record node_allows (nodeName : string) (node : Node) (req : CertificateRequest) : Prop := {
  na_ready : Addresses node ≠ [];
  na_names : ∀ n, n ∈ DNSNames req → node_name nodeName (Addresses node) (ToLower n);
  na_ips : ∀ ip, ip ∈ IPAddresses req → ∃ x, node_ip (Addresses node) x ∧ IP_Equal ip x = true }.

Lemma checks_valid K Nodes_Get spec req msg :
  CSRNodeChecks K Nodes_Get spec req = Ok (mkVerdict true msg) →
  ∃ nodeName node, nodeName ≠ "" ∧ Username spec = "system:node:" +:+ nodeName ∧
    Nodes_Get nodeName = inr node ∧ node_allows nodeName node req.
Proof.
  unfold CSRNodeChecks. destruct (CutPrefix (Username spec) "system:node:") as [nodeName|] eqn:Eu; [|done].
  apply CutPrefix_Some in Eu. intros E. assert (nodeName ≠ "") as Hne by (by intros ->).
  exists nodeName. destruct (Nodes_Get nodeName) as [err|node] eqn:En.
  { destruct nodeName; [done|]. by destruct (IsNotFound K err). }
  exists node. split_and!; [done..|]. destruct nodeName as [|c0 s0]; [done|]. set (nodeName := String c0 s0) in *.
  destruct (decide (Addresses node = [])) as [|Haddr]; [done|].
  destruct (foldl _ _ _) as [ips names] eqn:Ef.
  destruct (collected_spec _ _ _ _ _ Ef) as (B1 & B2 & _ & _).
  destruct (list_find _ (DNSNames req)) as [[i n]|] eqn:Ed; [done|].
  destruct (list_find _ (IPAddresses req)) as [[i ip]|] eqn:Ei; [done|].
  apply list_find_None in Ed. apply list_find_None in Ei. rewrite Forall_forall in Ed. rewrite Forall_forall in Ei. split; [done| |].
  - intros n Hn. specialize (Ed n Hn). apply dec_stable in Ed. destruct (B2 _ Ed) as [H|H]; [|by right].
    apply list_elem_of_singleton in H. by left.
  - intros ip Hip. specialize (Ei ip Hip). apply not_false_is_true in Ei.
    apply existsb_exists in Ei as (x & Hx & Heq). apply list_elem_of_In in Hx.
    exists x. split; [|done]. destruct (B1 x Hx) as [H|H]; [by apply elem_of_nil in H|done].
Qed.

(** ** Main theorems *)

Lemma approval_sound pem x509 K Nodes_Get csr csr' c :
  Reconcile pem x509 (CSRNodeChecks K Nodes_Get) csr = (Ok true, csr') →
  c ∈ Conditions csr' → cond_Type c = CertificateApproved →
  SignerName (Spec csr) = KubeletServingSignerName ∧ Certificate csr = "" ∧ Conditions csr = [] ∧
  ∃ req nodeName node, parseCSR pem x509 (Request (Spec csr)) = inr req ∧
    valid_request req (Spec csr) ∧ Username (Spec csr) = "system:node:" +:+ nodeName ∧
    Nodes_Get nodeName = inr node ∧ node_allows nodeName node req.
Proof.
  unfold Reconcile, gbind. cbn [gget].
  destruct (bool_decide (SignerName (Spec csr) = _)) eqn:E1; [|done]. apply bool_decide_eq_true in E1.
  destruct (bool_decide (Certificate csr = "")) eqn:E2; [|done]. apply bool_decide_eq_true in E2.
  destruct (bool_decide (Conditions csr = [])) eqn:E3; [|done]. apply bool_decide_eq_true in E3.
  cbn [negb]. destruct (parseCSR pem x509 _) as [err|req] eqn:Ep.
  { intros [= <-]. cbn. rewrite E3. intros ->%list_elem_of_singleton. done. }
  destruct (validateKubeletServingCSR req (Spec csr)) as [err|] eqn:Ev.
  { intros [= <-]. cbn. rewrite E3. intros ->%list_elem_of_singleton. done. }
  unfold gcatch, gof_outcome.
  destruct (CSRNodeChecks K Nodes_Get (Spec csr) req) as [[valid msg]|e|] eqn:Ec; [|done..].
  intros [= <-] Hc Hty. cbn [Valid Message gmodify] in *. destruct valid.
  2:{ unfold updateApproval in Hc. cbn in Hc. rewrite E3 in Hc. by apply list_elem_of_singleton in Hc as ->. }
  destruct (checks_valid _ _ _ _ _ Ec) as (nodeName & node & Hne & Hu & Hn & Ha).
  split_and!; [done..|]. exists req, nodeName, node. split_and!; [done|by apply validate_iff|done..].
Qed.

(** C30. Approval is sound: when the controller, running the node checks, adds an
    approval to a request, then the request was for the kubelet-serving signer and
    undecided, its PEM block parsed to a certificate request that meets every
    requirement on a kubelet's serving certificate, its user is [system:node:] of
    an existing node with addresses, every DNS name it asks for is that node's name
    or one of its host or DNS names, and every IP address one of that node's. *)
Theorem csr_approval_sound pem x509 K Nodes_Get csr csr' c :
  Reconcile pem x509 (CSRNodeChecks K Nodes_Get) csr = (Ok true, csr') →
  c ∈ Conditions csr' → cond_Type c = CertificateApproved →
  SignerName (Spec csr) = KubeletServingSignerName ∧ Certificate csr = "" ∧ Conditions csr = [] ∧
  ∃ req nodeName node, parseCSR pem x509 (Request (Spec csr)) = inr req ∧
    valid_request req (Spec csr) ∧ Username (Spec csr) = "system:node:" +:+ nodeName ∧
    Nodes_Get nodeName = inr node ∧ node_allows nodeName node req.
Proof. apply approval_sound. Qed.

(** A node and a request of its kubelet. *)
Definition demo_csr_node : Node :=
  mkNode "Node-1" ∅ ∅ false "" [] "" []
    [mkNodeAddress "InternalIP" "10.0.0.5"; mkNodeAddress "Hostname" "node-1"] None None.
Definition demo_req : CertificateRequest :=
  mkCertReq ["node-1"] [[10; 0; 0; 5]] [] [] ["system:nodes"] "system:node:Node-1".
Definition demo_csr : CSR :=
  mkCSR (mkCSRSpec "pem" KubeletServingSignerName "system:node:Node-1"
           [UsageDigitalSignature; UsageServerAuth]) "" [] [].
Definition demo_pem (s : string) : option (string * string) := Some ("CERTIFICATE REQUEST", s).
Definition demo_x509 (s : string) : error + CertificateRequest := inr demo_req.
Definition demo_get (s : string) : error + Node :=
  if decide (s = "Node-1") then inr demo_csr_node else inl (ErrAPI "NotFound").
Definition demo_csr_kube : Kube :=
  mkKube (λ _, inl (ErrNew "")) (λ _, inl (ErrNew "")) (λ e, bool_decide (errors_As e = Some "NotFound")) (λ _, false)
    (λ _ _, false) (λ _ _, inl (ErrNew "")) (λ _ _ _ _, None).

Lemma csr_approval_sound_witness :
  let r := Reconcile demo_pem demo_x509 (CSRNodeChecks demo_csr_kube demo_get) demo_csr in
  r.1 = Ok true ∧ cond_Type <$> Conditions r.2 = [CertificateApproved] ∧
  ∃ req nodeName node, valid_request req (Spec demo_csr) ∧ demo_get nodeName = inr node ∧
    node_allows nodeName node req.
Proof.
  intros r. split; [vm_compute; reflexivity|]. split; [vm_compute; reflexivity|].
  destruct (csr_approval_sound demo_pem demo_x509 demo_csr_kube demo_get demo_csr r.2
              (mkCondition CertificateApproved "Approved by TalosCloudControllerManager"
                 "This CSR was approved by Talos Cloud Controller Manager"))
    as (_ & _ & _ & req & nodeName & node & _ & Hv & _ & Hn & Ha).
  - vm_compute. reflexivity.
  - vm_compute. left.
  - reflexivity.
  - exists req, nodeName, node. split; [exact Hv|]. split; [exact Hn|exact Ha].
Defined.

(** C33. A kubelet's own request is approved: an undecided kubelet-serving request
    that meets the requirements, made by the user of an existing node, whose DNS
    names are the node's name or its DNS names and whose IP addresses are the
    node's internal or external ones, gets exactly one condition, an approval. *)
Theorem csr_own_request_approved pem x509 K Nodes_Get csr req nodeName node :
  SignerName (Spec csr) = KubeletServingSignerName → Certificate csr = "" → Conditions csr = [] →
  parseCSR pem x509 (Request (Spec csr)) = inr req → valid_request req (Spec csr) →
  Username (Spec csr) = "system:node:" +:+ nodeName → nodeName ≠ "" →
  Nodes_Get nodeName = inr node → Addresses node ≠ [] →
  (∀ n, n ∈ DNSNames req → ToLower n = ToLower nodeName ∨
     ∃ a, a ∈ Addresses node ∧ (addr_type a = NodeInternalDNS ∨ addr_type a = NodeExternalDNS) ∧
       ToLower n = ToLower (address a)) →
  (∀ ip, ip ∈ IPAddresses req → ∃ a x, a ∈ Addresses node ∧ ip_kind (addr_type a) ∧
     ParseIP (address a) = Some x ∧ IP_Equal ip x = true) →
  ∃ csr' c, Reconcile pem x509 (CSRNodeChecks K Nodes_Get) csr = (Ok true, csr') ∧
    Conditions csr' = [c] ∧ cond_Type c = CertificateApproved.
Proof.
  intros E1 E2 E3 Ep Hv Hu Hne Hn Haddr Hdns Hips. unfold Reconcile, gbind. cbn [gget].
  rewrite !bool_decide_true by done. cbn [negb]. rewrite Ep, (proj2 (validate_iff req (Spec csr)) Hv).
  assert (CSRNodeChecks K Nodes_Get (Spec csr) req = Ok (mkVerdict true "")) as ->.
  2:{ do 2 eexists. split; [done|]. cbn. rewrite E3. done. }
  unfold CSRNodeChecks. rewrite Hu, CutPrefix_app. destruct nodeName as [|c0 s0]; [done|].
  set (nodeName := String c0 s0) in *. rewrite Hn, decide_False by done.
  destruct (foldl _ _ _) as [ips names] eqn:Ef.
  destruct (collected_spec _ _ _ _ _ Ef) as (_ & _ & _ & Hnames).
  pose proof (λ a, collected_complete _ _ _ _ _ a Ef (λ x Hx, False_ind _ (not_elem_of_nil x Hx))) as Hc.
  assert (list_find (λ name, ToLower name ∉ names) (DNSNames req) = None) as ->.
  { apply list_find_None, Forall_forall. intros n Hin Hno. apply Hno.
    destruct (Hdns n Hin) as [->|(a & Ha & Hk & ->)]; [apply Hnames; by left|by apply (Hc a Ha)]. }
  assert (list_find (λ ip, existsb (IP_Equal ip) ips = false) (IPAddresses req) = None) as ->; [|done].
  apply list_find_None, Forall_forall. intros ip Hin Hno.
  destruct (Hips ip Hin) as (a & x & Ha & Hk & Hx & Heq).
  apply (existsb_none (IP_Equal ip) ips) with (x := x) in Hno; [congruence|]. by apply (Hc a Ha).
Qed.

Lemma csr_own_request_approved_witness :
  ∃ csr' c, Reconcile demo_pem demo_x509 (CSRNodeChecks demo_csr_kube demo_get) demo_csr = (Ok true, csr') ∧
    Conditions csr' = [c] ∧ cond_Type c = CertificateApproved.
Proof.
  apply (csr_own_request_approved demo_pem demo_x509 demo_csr_kube demo_get demo_csr demo_req "Node-1" demo_csr_node);
    try reflexivity; try discriminate.
  - apply validate_iff. vm_compute. reflexivity.
  - intros n Hn. apply list_elem_of_singleton in Hn as ->. left. reflexivity.
  - intros ip Hip. apply list_elem_of_singleton in Hip as ->.
    exists (mkNodeAddress "InternalIP" "10.0.0.5"), (v4InV6Prefix ++ [10; 0; 0; 5]).
    split; [left|]. split; [left; reflexivity|]. split; vm_compute; reflexivity.
Defined.

Lemma reconcile_once pem x509 checks csr b csr' :
  Reconcile pem x509 checks csr = (b, csr') →
  match b with
  | Ok true => Conditions csr = [] ∧ (∃ c, Conditions csr' = [c]) ∧
      (∃ s, counted csr' = s :: counted csr) ∧ Spec csr' = Spec csr ∧
      ∀ checks', Reconcile pem x509 checks' csr' = (Ok false, csr')
  | _ => csr' = csr
  end.
Proof.
  unfold Reconcile at 1, gbind. cbn [gget].
  destruct (bool_decide (SignerName (Spec csr) = _)) eqn:E1; [|by intros [= <- <-]].
  destruct (bool_decide (Certificate csr = "")) eqn:E2; [|by intros [= <- <-]].
  destruct (bool_decide (Conditions csr = [])) eqn:E3; [|by intros [= <- <-]]. apply bool_decide_eq_true in E3.
  assert (∀ a r, let csr1 := updateApproval a r csr in
    Conditions csr = [] ∧ (∃ c, Conditions csr1 = [c]) ∧ (∃ s, counted csr1 = s :: counted csr) ∧
    Spec csr1 = Spec csr ∧ ∀ checks', Reconcile pem x509 checks' csr1 = (Ok false, csr1)) as H.
  { intros a r csr1. assert (∃ c, Conditions csr1 = [c]) as [c Hc].
    { unfold csr1, updateApproval. rewrite E3. destruct a; by eexists. }
    split_and!; [done|by eexists|by destruct a; eexists|by destruct a|]. intros checks'.
    unfold Reconcile, gbind. cbn [gget]. rewrite Hc. repeat case_match; done. }
  cbn [negb]. destruct (parseCSR pem x509 _) as [err|req]; [intros [<- <-]%pair_equal_spec; apply H|].
  destruct (validateKubeletServingCSR req (Spec csr)) as [err|]; [intros [<- <-]%pair_equal_spec; apply H|].
  unfold gcatch, gof_outcome. destruct (checks (Spec csr) req) as [v|e|];
    [intros [<- <-]%pair_equal_spec; apply H|by intros [= <- <-]..].
Qed.

(** A decision is taken once: when [Reconcile] asks for an update it has added
    exactly one condition, to a request that had none, and counted it once; any
    later run on the result, whatever its checks, leaves it as it is.  When it does
    not ask for one (also on an error) the request is unchanged. *)
Theorem csr_decided_once pem x509 checks csr b csr' :
  Reconcile pem x509 checks csr = (b, csr') →
  match b with
  | Ok true => Conditions csr = [] ∧ (∃ c, Conditions csr' = [c]) ∧
      (∃ s, counted csr' = s :: counted csr) ∧ Spec csr' = Spec csr ∧
      ∀ checks', Reconcile pem x509 checks' csr' = (Ok false, csr')
  | _ => csr' = csr
  end.
Proof. apply reconcile_once. Qed.

Lemma csr_decided_once_witness :
  let r := Reconcile demo_pem demo_x509 (λ _ _, Ok (mkVerdict false "no")) demo_csr in
  ∃ c, Conditions r.2 = [c] ∧ Reconcile demo_pem demo_x509 (λ _ _, Panic) r.2 = (Ok false, r.2).
Proof.
  intros r.
  destruct (csr_decided_once demo_pem demo_x509 (λ _ _, Ok (mkVerdict false "no")) demo_csr (Ok true) r.2)
    as (_ & (c & Hc) & _ & _ & H); [vm_compute; reflexivity|].
  exists c. split; [exact Hc|apply H].
Defined.
