(* ===== verification/CsrRun.v ===== *)
(** * The watch loop of the certificate controller

    [Run] of [pkg/certificatesigningrequest/controller.go]: an outer loop that opens
    watches and an inner one that serves their events.  The API server's answers,
    the events and the end of the context are the parameter [Cluster]; an answer may
    depend on everything done before, which is the log, newest entry first.  Log
    lines of the program are left out. *)

From S2P Require Import Prelude GoNet GoStrings NetIP Kube Csr.

Local Open Scope go_scope.

Inductive object := OCsr (name : string) (csr : CSR) | OOther (kind : string).

(** What the inner [select] takes: the context is done, the watch is closed, or an
    event of a type. *)
Inductive selected := SelDone | SelClosed | SelEvent (ty : string) (obj : object).

Inductive entry :=
  | EWatch (timeoutSeconds : Z) (failed : option error)
  | ESleep (seconds : Z)
  | EEvent (ty : string) (obj : object)
  | EClosed
  | EUpdateApproval (name : string) (csr : CSR) (failed : option error)
  | EReturn.

Notation log := (list entry).

Record Cluster := mkCluster {
  cl_kube : Kube;
  pem_Decode : string → option (string * string);
  ParseCertificateRequest : string → error + CertificateRequest;
  cl_Watch : log → option error;
  cl_select : log → selected;
  cl_Nodes_Get : log → string → error + Node;
  cl_UpdateApproval : log → string → CSR → option error }.

Definition Added : string := "ADDED".

(** Where the loops are: before a [Watch], in the inner [select], out. *)
Inductive place := Connecting | Watching | Returned.

#[export] Instance place_eq_dec : EqDecision place.
Proof. solve_decision. Defined.

Section run.
Context (C : Cluster).

Definition note (e : entry) : GoM log unit := gmodify (cons e).

Definition watchTimeoutSeconds : Z := 60 * 5.

(** [Reconcile] of a copy of the object, as things are after [l]. *)
Definition reconciled (l : log) (csr : CSR) : outcome bool * CSR :=
  Reconcile (pem_Decode C) (ParseCertificateRequest C) (CSRNodeChecks (cl_kube C) (cl_Nodes_Get C l)) csr.

(** An event that passed the filter. *)
Definition serve (obj : object) : GoM log unit :=
  match obj with
  | OOther _ => gret tt
  | OCsr name csr =>
      l <- gget ;;
      match reconciled l csr with
      | (Err _, _) => gret tt
      | (Panic, _) => gpanic
      | (Ok false, _) => gret tt
      | (Ok true, csr') => note (EUpdateApproval name csr' (cl_UpdateApproval C l name csr'))
      end
  end.

(** One turn of the loops. *)
Definition turn (p : place) : GoM log place :=
  l <- gget ;;
  match p with
  | Returned => gret Returned
  | Connecting =>
      let err := cl_Watch C l in
      note (EWatch watchTimeoutSeconds err) ;;;
      match err with
      | Some _ => note (ESleep 10) ;;; gret Connecting
      | None => gret Watching
      end
  | Watching =>
      match cl_select C l with
      | SelDone => note EReturn ;;; gret Returned
      | SelClosed => note EClosed ;;; gret Connecting
      | SelEvent ty obj =>
          note (EEvent ty obj) ;;;
          (if decide (ty = Added) then serve obj else gret tt) ;;;
          gret Watching
      end
  end.

(** [fuel] turns at most. *)
Fixpoint turns (fuel : nat) (p : place) : GoM log place :=
  match fuel with
  | O => gret p
  | S fuel' => p' <- turn p ;; turns fuel' p'
  end.

Definition Run (fuel : nat) : GoM log place := turns fuel Connecting.
End run.
