(* ===== verification/CsrRunTheorems.v ===== *)
(** * What the certificate controller sends over its life *)

From S2P Require Import Prelude GoNet GoStrings NetIP Kube Csr CsrTheorems CsrRun.

Local Open Scope go_scope.

Section runs.
Context (C : Cluster).

(** The log of a correct run: an update follows the event it answers, is the request
    [Reconcile] made of that event's object, and an event that called for an update
    has one. *)
Fixpoint log_ok (l : log) : Prop :=
  match l with
  | [] => True
  | EUpdateApproval name csr' _ :: ((EEvent ty (OCsr name' csr) :: l'') as l') =>
      ty = Added ∧ name = name' ∧ reconciled C l' csr = (Ok true, csr') ∧ log_ok l''
  | EUpdateApproval _ _ _ :: _ => False
  | EEvent ty (OCsr name csr) :: l' =>
      (ty = Added → (reconciled C l csr).1 ≠ Ok true) ∧ log_ok l'
  | _ :: l' => log_ok l'
  end.

Lemma CSRNodeChecks_no_panic K g spec req : CSRNodeChecks K g spec req ≠ Panic.
Proof.
  unfold CSRNodeChecks. repeat case_match; done.
Qed.

Lemma reconciled_no_panic l csr : (reconciled C l csr).1 ≠ Panic.
Proof.
  unfold reconciled, Reconcile, gbind, gcatch, gof_outcome. cbn [gget].
  destruct (negb _); [done|]. destruct (negb _); [done|]. destruct (negb _); [done|].
  destruct (parseCSR _ _ _) as [e|req]; [done|]. destruct (validateKubeletServingCSR _ _); [done|].
  pose proof (CSRNodeChecks_no_panic (cl_kube C) (cl_Nodes_Get C l) (Spec csr) req).
  by destruct (CSRNodeChecks _ _ _ _).
Qed.

(** One turn: it does not panic, keeps the log in order, adds to it unless the loops
    are left, and leaves them only when the context is done. *)
Lemma turn_ok p l : log_ok l →
  ∃ p' l', turn C p l = (Ok p', l') ∧ log_ok l' ∧ (∃ k, l' = k ++ l ∧ (p ≠ Returned → k ≠ [])).
Proof.
  intros Hl. destruct p; unfold turn, gbind, note; cbn [gget gmodify].
  - destruct (cl_Watch C l) as [e|]; cbn [gret]; do 2 eexists; (split; [done|split; [done|]]).
    + by exists [ESleep 10; EWatch watchTimeoutSeconds (Some e)].
    + by exists [EWatch watchTimeoutSeconds None].
  - destruct (cl_select C l) as [| |ty obj].
    + do 2 eexists. split; [done|]. split; [done|]. by exists [EReturn].
    + do 2 eexists. split; [done|]. split; [done|]. by exists [EClosed].
    + destruct (decide (ty = Added)) as [-> |Hne].
      2:{ do 2 eexists. split; [done|]. split; [|by exists [EEvent ty obj]]. by destruct obj. }
      destruct obj as [name csr|kind]; [|do 2 eexists; split; [done|]; split; [done|by exists [EEvent Added (OOther kind)]]].
      unfold serve, gbind. cbn [gget]. set (l1 := EEvent Added (OCsr name csr) :: l).
      pose proof (reconciled_no_panic l1 csr) as Hnp.
      destruct (reconciled C l1 csr) as [[[]|e|] csr'] eqn:E; [| | |done].
      * do 2 eexists. split; [done|]. split; [by cbn; rewrite <- E|].
        by exists [EUpdateApproval name csr' (cl_UpdateApproval C l1 name csr'); EEvent Added (OCsr name csr)].
      * do 2 eexists. split; [done|]. split; [|by exists [EEvent Added (OCsr name csr)]].
        split; [|done]. intros _. fold l1. by rewrite E.
      * do 2 eexists. split; [done|]. split; [|by exists [EEvent Added (OCsr name csr)]].
        split; [|done]. intros _. fold l1. by rewrite E.
  - do 2 eexists. split; [done|]. split; [done|]. by exists [].
Qed.

Lemma turn_connected l : cl_Watch C l = None →
  turn C Connecting l = (Ok Watching, EWatch watchTimeoutSeconds None :: l).
Proof. intros E. unfold turn, gbind, note. cbn [gget gmodify]. by rewrite E. Qed.

Lemma turn_refused l e : cl_Watch C l = Some e →
  turn C Connecting l = (Ok Connecting, ESleep 10 :: EWatch watchTimeoutSeconds (Some e) :: l).
Proof. intros E. unfold turn, gbind, note. cbn [gget gmodify]. by rewrite E. Qed.

Lemma turn_done l : cl_select C l = SelDone → turn C Watching l = (Ok Returned, EReturn :: l).
Proof. intros E. unfold turn, gbind, note. cbn [gget gmodify]. by rewrite E. Qed.

Lemma turns_ok fuel p l : log_ok l →
  ∃ p' l', turns C fuel p l = (Ok p', l') ∧ log_ok l'.
Proof.
  revert p l. induction fuel as [|fuel IH]; intros p l Hl; cbn [turns]; [by do 2 eexists|].
  unfold gbind. destruct (turn_ok p l Hl) as (p1 & l1 & -> & H1 & _). by apply IH.
Qed.

Lemma log_ok_update l l1 name csr' failed l2 :
  log_ok l → l = l1 ++ EUpdateApproval name csr' failed :: l2 →
  ∃ csr past, l2 = EEvent Added (OCsr name csr) :: past ∧ reconciled C l2 csr = (Ok true, csr').
Proof.
  revert l. induction l1 as [l1 IH] using (induction_ltof1 _ length); unfold ltof in IH. intros l Hl ->.
  destruct l1 as [|e l1].
  - cbn in Hl. destruct l2 as [|[| |ty [name' csr|]| | |] past]; try done.
    destruct Hl as (-> & -> & E & _). by exists csr, past.
  - destruct e as [t f|t|ty [n c|kd]| |n c f|]; cbn [app log_ok] in Hl; try (by eapply (IH l1); [cbn; lia|exact Hl|]).
    + destruct Hl as [_ Hl]. by eapply (IH l1); [cbn; lia|exact Hl|].
    + destruct l1 as [|[| |ty [name2 csr2|]| | |] l1]; try done. cbn [app] in Hl.
      destruct Hl as (_ & _ & _ & Hl). by eapply (IH l1); [cbn; lia|exact Hl|].
Qed.
End runs.

(** C31. The controller over its whole life, for any cluster and any number of turns:
    it never panics, also not on objects of other kinds; every update it sends is the
    answer to the added event just before it and has exactly one condition, on a
    request that had none; and when that condition is an approval, the request is a
    well-formed request for a kubelet's serving certificate of a node that existed at
    that moment, for names and addresses of that node only. *)
Theorem csr_run_sound C fuel :
  ∃ p l, Run C fuel [] = (Ok p, l) ∧
    ∀ name csr' failed, EUpdateApproval name csr' failed ∈ l →
      ∃ csr past c, let now := EEvent Added (OCsr name csr) :: past in
        now `suffix_of` l ∧ Spec csr' = Spec csr ∧ Conditions csr = [] ∧ Conditions csr' = [c] ∧
        (cond_Type c = CertificateApproved →
         SignerName (Spec csr) = KubeletServingSignerName ∧ Certificate csr = "" ∧
         ∃ req nodeName node,
           parseCSR (pem_Decode C) (ParseCertificateRequest C) (Request (Spec csr)) = inr req ∧
           valid_request req (Spec csr) ∧ Username (Spec csr) = "system:node:" +:+ nodeName ∧
           cl_Nodes_Get C now nodeName = inr node ∧ node_allows nodeName node req).
Proof.
  destruct (turns_ok C fuel Connecting [] I) as (p & l & E & Hl). exists p, l. split; [done|].
  intros name csr' failed Hin. apply list_elem_of_split in Hin as (l1 & l2 & ->).
  destruct (log_ok_update C _ l1 name csr' failed l2 Hl eq_refl) as (csr & past & -> & Er).
  pose proof (reconcile_once _ _ _ _ _ _ Er) as (H0 & (c & Hc) & _ & Hs & _).
  exists csr, past, c. split_and!; [|done..|].
  - exists (l1 ++ [EUpdateApproval name csr' failed]). by rewrite <- app_assoc.
  - intros Ht. destruct (approval_sound _ _ _ _ _ _ c Er) as (H1 & H2 & _ & H3); [rewrite Hc; by left|done|].
    done.
Qed.

(** [Run] returns when it can: once every watch that is opened succeeds and the
    context is found done, it returns within two turns, whatever happened before;
    with at most [n] entries in the log by then, [n + 2] turns from the start are
    enough. *)
Theorem csr_run_stops C n :
  (∀ l, (n ≤ length l)%nat → cl_Watch C l = None ∧ cl_select C l = SelDone) →
  ∀ fuel, (n + 2 ≤ fuel)%nat → ∃ l, Run C fuel [] = (Ok Returned, l).
Proof.
  intros Hdone.
  assert (∀ fuel l, ∃ l', turns C fuel Returned l = (Ok Returned, l')) as Hret.
  { induction fuel as [|fuel IH]; intros l; cbn [turns]; [by exists l|]. apply IH. }
  assert (∀ fuel p l, log_ok C l → (n - length l + 2 ≤ fuel)%nat → ∃ l', turns C fuel p l = (Ok Returned, l')) as H.
  { induction fuel as [|fuel IH]; intros p l Hl Hf; [lia|]. cbn [turns]. unfold gbind.
    destruct (decide (p = Returned)) as [-> |Hp]; [apply Hret|].
    destruct (decide (n ≤ length l)%nat) as [Hn|Hn].
    - destruct fuel as [|fuel]; [lia|]. destruct (Hdone l Hn) as [Hw Hs]. destruct p; [| |done].
      + rewrite turn_connected by done. cbn [turns]. unfold gbind. rewrite turn_done; [apply Hret|].
        apply Hdone. cbn. lia.
      + rewrite turn_done by done. apply Hret.
    - destruct (turn_ok C p l Hl) as (p1 & l1 & -> & H1 & k & -> & Hk). apply IH; [done|].
      rewrite length_app. destruct k; [by destruct Hk|]. cbn. lia. }
  intros fuel Hf. by apply H; cbn; [|lia].
Qed.

(** While every watch fails the loop only sleeps and tries again. *)
Lemma turns_refused C l0 fuel l :
  (∀ l, l0 `suffix_of` l → cl_Watch C l ≠ None) → l0 `suffix_of` l →
  ∃ k, turns C fuel Connecting l = (Ok Connecting, k ++ l) ∧ EClosed ∉ k ∧ EReturn ∉ k.
Proof.
  intros Hw. revert l. induction fuel as [|fuel IH]; intros l Hs; cbn [turns]; [by exists []; split_and!; [|set_solver..]|].
  unfold gbind. specialize (Hw l Hs). destruct (cl_Watch C l) as [e|] eqn:E; [|done].
  rewrite (turn_refused C l e E). destruct (IH (ESleep 10 :: EWatch watchTimeoutSeconds (Some e) :: l)) as (k & -> & H1 & H2).
  { by do 2 apply suffix_cons_r. }
  exists (k ++ [ESleep 10; EWatch watchTimeoutSeconds (Some e)]). rewrite <-app_assoc.
  split; [done|]. split; rewrite elem_of_app; intros [?|Hin]; try done;
    repeat (apply elem_of_cons in Hin as [?|Hin]; [done|]); by apply elem_of_nil in Hin.
Qed.

Lemma turns_returned C fuel l : turns C fuel Returned l = (Ok Returned, l).
Proof. induction fuel as [|fuel IH]; [done|exact IH]. Qed.

(** What serving an event adds to the log. *)
Lemma serve_logs C obj l o l' : serve C obj l = (o, l') → ∃ k, l' = k ++ l ∧ EClosed ∉ k ∧ EReturn ∉ k.
Proof.
  destruct obj as [name csr|dump]; unfold serve; [|intros [_ <-]%pair_equal_spec; exists []; split_and!; [done|set_solver..]].
  unfold gbind. cbn [gget]. destruct (reconciled C l csr) as [[[]|e|] csr']; intros [_ <-]%pair_equal_spec.
  1: eexists [_]; split_and!; [done|set_solver..].
  all: exists []; split_and!; [done|set_solver..].
Qed.


(** ** A small cluster *)

(** The kubelet's request, another object, an update of the request, then the end of
    the context; every watch succeeds, or none. *)
Definition demo_cluster (watch : option error) : Cluster :=
  mkCluster demo_csr_kube demo_pem demo_x509 (λ _, watch)
    (λ l, match length l with
          | 1%nat => SelEvent Added (OOther "Node")
          | 2%nat => SelEvent Added (OCsr "csr-1" demo_csr)
          | 4%nat => SelEvent "MODIFIED" (OCsr "csr-1" demo_csr)
          | _ => SelDone
          end)
    (λ _, demo_get) (λ _ _ _, None).

(** The request is answered once. *)
Lemma demo_cluster_run :
  ∃ csr', Run (demo_cluster None) 10 [] =
    (Ok Returned, [EReturn; EEvent "MODIFIED" (OCsr "csr-1" demo_csr); EUpdateApproval "csr-1" csr' None;
                   EEvent Added (OCsr "csr-1" demo_csr); EEvent Added (OOther "Node"); EWatch 300 None]) ∧
    map cond_Type (Conditions csr') = [CertificateApproved].
Proof. eexists. split; vm_compute; reflexivity. Qed.

Lemma csr_run_stops_witness : ∃ l, Run (demo_cluster None) 7 [] = (Ok Returned, l).
Proof.
  apply (csr_run_stops (demo_cluster None) 5).
  - intros l Hl. split; [reflexivity|]. cbn. do 5 (destruct l as [|? l]; [cbn in Hl; lia|]). reflexivity.
  - lia.
Defined.

