(* ===== verification/TalosClient.v ===== *)
(** * [pkg/talosclient]: what the program asks Talos, and address discovery

    The calls to the Talos API are the parameter [Talos]; as for the API server
    of Kubernetes, an answer may depend on everything done before.  The two
    discovery functions are pure and translated whole. *)

From S2P Require Import Prelude GoNet GoStrings NetIP NetIPRoundTrip Kube.
From Stdlib Require Import Sorted.

Local Open Scope go_scope.

(** ** Data *)

(** [network.AddressStatusSpec], the fields the program reads. *)
Record AddressStatusSpec := mkAddressStatus {
  LinkName : string;
  Address : Prefix;
  Flags : Z }.

#[export] Instance AddressStatusSpec_eq_dec : EqDecision AddressStatusSpec.
Proof. solve_decision. Defined.

Record Talos := mkTalos {
  (* constants of the Talos machinery *)
  KubeSpanLinkName : string;
  SideroLinkName : string;
  AddressPermanent : Z;
  (* the client: creation, and the addresses of a node *)
  talos_New : list action → option error;
  talos_GetNodeIfaces : list action → string → error + list AddressStatusSpec }.

Section client.
Context (T : Talos) {S : Type} `{!Traced S}.

(** [talosclient.New(ctx)]. *)
Definition talosclient_New : GoM S unit :=
  s <- gget ;;
  emit ActTalosNew ;;;
  match talos_New T (trace s) with Some e => gfail e | None => gret tt end.

(** [talos.GetNodeIfaces(ctx, ip)]. *)
Definition GetNodeIfaces (ip : string) : GoM S (list AddressStatusSpec) :=
  s <- gget ;;
  emit (ActGetNodeIfaces ip) ;;;
  match talos_GetNodeIfaces T (trace s) ip with
  | inl e => gfail e
  | inr ifaces => gret ifaces
  end.
End client.

(** ** Discovery *)

(** [slices.SortFunc] with a comparison that tells different elements apart: the
    sorted arrangement is unique, so insertion computes it. *)
Fixpoint insert_sorted (cmp : Prefix → Prefix → Z) (x : Prefix) (l : list Prefix) : list Prefix :=
  match l with
  | [] => [x]
  | y :: l' => if cmp x y <=? 0 then x :: l else y :: insert_sorted cmp x l'
  end.
Definition SortFunc (cmp : Prefix → Prefix → Z) (l : list Prefix) : list Prefix :=
  foldr (insert_sorted cmp) [] l.

(** [a.Compare(b)] of [netip.Addr]: bit length, then value, then zone. *)
Definition Addr_Compare (a b : Addr) : Z :=
  match a, b with
  | AddrZero, AddrZero => 0
  | AddrZero, _ => -1
  | _, AddrZero => 1
  | Addr4 x, Addr4 y => if x <? y then -1 else if y <? x then 1 else 0
  | Addr4 _, Addr6 _ _ => -1
  | Addr6 _ _, Addr4 _ => 1
  | Addr6 x z, Addr6 y w =>
      if x <? y then -1 else if y <? x then 1
      else match String.compare z w with Lt => -1 | Eq => 0 | Gt => 1 end
  end.

Section discovery.
Context (T : Talos).

(** [NodeIPDiscovery] *)
Definition NodeIPDiscovery_step (nodeIPs : list string) (acc : list string * list string)
    (iface : AddressStatusSpec) : list string * list string :=
  let '(publicIPv4s, publicIPv6s) := acc in
  if bool_decide (LinkName iface = KubeSpanLinkName T) || bool_decide (LinkName iface = SideroLinkName T) ||
     bool_decide (LinkName iface = "lo") || HasPrefix (LinkName iface) "cilium" ||
     HasPrefix (LinkName iface) "dummy" then acc
  else
    let ip := Prefix_Addr (Address iface) in
    if IsGlobalUnicast ip && negb (IsPrivate ip) then
      if bool_decide (Addr_String ip ∈ nodeIPs) then acc
      else if Is6 ip then
        if negb (Z.land (Flags iface) (AddressPermanent T) =? 0)
        then (publicIPv4s, Addr_String ip :: publicIPv6s)
        else (publicIPv4s, publicIPv6s ++ [Addr_String ip])
      else (publicIPv4s ++ [Addr_String ip], publicIPv6s)
    else acc.

Definition NodeIPDiscovery (nodeIPs : list string) (ifaces : list AddressStatusSpec)
    : list string * list string := foldl (NodeIPDiscovery_step nodeIPs) ([], []) ifaces.

(** [NodeCIDRDiscovery]: the loop over the interfaces, *)
Definition NodeCIDRDiscovery_step (filterIPs : list Addr) (acc : list string * list Prefix)
    (iface : AddressStatusSpec) : list string * list Prefix :=
  let '(publicCIDRv4s, v6Prefixes) := acc in
  if bool_decide (LinkName iface = KubeSpanLinkName T) || bool_decide (LinkName iface = SideroLinkName T) ||
     bool_decide (LinkName iface = "lo") || HasPrefix (LinkName iface) "cilium" ||
     HasPrefix (LinkName iface) "dummy" then acc
  else
    let ip := Prefix_Addr (Address iface) in
    if IsGlobalUnicast ip && negb (IsPrivate ip) then
      if bool_decide (filterIPs = []) || bool_decide (ip ∈ filterIPs) then
        if Is6 ip then
          if negb (Prefix_IsValid (Address iface)) then acc
          else if bool_decide (Address iface ∈ v6Prefixes) then acc
          else (publicCIDRv4s, v6Prefixes ++ [Address iface])
        else (publicCIDRv4s ++ [Prefix_String (Address iface)], v6Prefixes)
      else acc
    else acc.

(** its comparison, *)
Definition compare_prefixes (a b : Prefix) : Z :=
  if negb (Bits a =? Bits b) then Bits a - Bits b else Addr_Compare (Prefix_Addr a) (Prefix_Addr b).

(** the inner loop (a prefix is never shorter than itself, so the index test
    [i == j] is part of the length test), *)
Definition contained (v6Prefixes : list Prefix) (p : Prefix) : bool :=
  existsb (λ q, (Bits q <? Bits p) && Prefix_Contains q (Prefix_Addr p)) v6Prefixes.

(** and the whole: IPv4 and IPv6 networks. *)
Definition NodeCIDRDiscovery (filterIPs : list Addr) (ifaces : list AddressStatusSpec)
    : list string * list string :=
  let '(publicCIDRv4s, v6Prefixes) := foldl (NodeCIDRDiscovery_step filterIPs) ([], []) ifaces in
  let v6Prefixes := SortFunc compare_prefixes v6Prefixes in
  (publicCIDRv4s,
   map Prefix_String (filter (λ p, negb (contained v6Prefixes p) = true) v6Prefixes)).
End discovery.

(** ** What discovery finds *)

(** The interface carries a public IPv6 network, on an address of [filterIPs]
    when there are any. *)
Definition public_v6 (T : Talos) (filterIPs : list Addr) (iface : AddressStatusSpec) : Prop :=
  let ip := Prefix_Addr (Address iface) in
  LinkName iface ≠ KubeSpanLinkName T ∧ LinkName iface ≠ SideroLinkName T ∧ LinkName iface ≠ "lo" ∧
  HasPrefix (LinkName iface) "cilium" = false ∧ HasPrefix (LinkName iface) "dummy" = false ∧
  IsGlobalUnicast ip = true ∧ IsPrivate ip = false ∧ Is6 ip = true ∧
  (filterIPs = [] ∨ ip ∈ filterIPs) ∧ Prefix_IsValid (Address iface) = true.

Lemma insert_sorted_perm cmp x l : insert_sorted cmp x l ≡ₚ x :: l.
Proof.
  induction l as [|y l IH]; cbn; [done|]. destruct (cmp x y <=? 0); [done|].
  rewrite IH. apply Permutation_swap.
Qed.

Lemma SortFunc_perm cmp l : SortFunc cmp l ≡ₚ l.
Proof. induction l as [|x l IH]; cbn; [done|]. by rewrite insert_sorted_perm, IH. Qed.

(** Shorter prefixes (larger networks) first. *)
Notation larger_first := (StronglySorted (λ p q, Bits p ≤ Bits q)).

Lemma insert_sorted_larger x l :
  larger_first l → larger_first (insert_sorted compare_prefixes x l).
Proof.
  assert (∀ a b, compare_prefixes a b ≤ 0 → Bits a ≤ Bits b) as Hle.
  { intros a b. unfold compare_prefixes. destruct (Z.eqb_spec (Bits a) (Bits b)); cbn; lia. }
  assert (∀ a b, 0 < compare_prefixes a b → Bits b ≤ Bits a) as Hgt.
  { intros a b. unfold compare_prefixes. destruct (Z.eqb_spec (Bits a) (Bits b)); cbn; lia. }
  induction l as [|y l IH]; intros Hl; cbn; [by repeat constructor|].
  apply StronglySorted_inv in Hl as [Hl Hy]. destruct (Z.leb_spec (compare_prefixes x y) 0) as [Hc|Hc].
  - apply Hle in Hc. repeat (constructor; try done). eapply Forall_impl; [exact Hy|]. cbn. lia.
  - apply Hgt in Hc. constructor; [by apply IH|].
    apply Forall_forall. intros z. rewrite insert_sorted_perm, elem_of_cons.
    intros [->|Hz]; [done|]. by eapply Forall_forall in Hy.
Qed.

Lemma SortFunc_larger l : larger_first (SortFunc compare_prefixes l).
Proof. induction l as [|x l IH]; cbn; [constructor|]. by apply insert_sorted_larger. Qed.

Section discovery_spec.
Context (T : Talos) (filterIPs : list Addr).

(** One interface adds its network when it is public and new. *)
Lemma discovery_step acc iface p :
  NoDup acc.2 →
  let acc' := NodeCIDRDiscovery_step T filterIPs acc iface in
  NoDup acc'.2 ∧ (p ∈ acc'.2 ↔ p ∈ acc.2 ∨ public_v6 T filterIPs iface ∧ p = Address iface).
Proof.
  destruct acc as [v4 v6]. cbn [snd]. intros Hnd. unfold NodeCIDRDiscovery_step, public_v6.
  destruct (bool_decide_reflect (LinkName iface = KubeSpanLinkName T)); [cbn; naive_solver|].
  destruct (bool_decide_reflect (LinkName iface = SideroLinkName T)); [cbn; naive_solver|].
  destruct (bool_decide_reflect (LinkName iface = "lo")); [cbn; naive_solver|].
  destruct (HasPrefix (LinkName iface) "cilium"); [cbn; naive_solver|].
  destruct (HasPrefix (LinkName iface) "dummy"); [cbn; naive_solver|].
  cbn [orb]. set (ip := Prefix_Addr (Address iface)).
  destruct (IsGlobalUnicast ip); [|cbn; naive_solver]. destruct (IsPrivate ip); [cbn; naive_solver|].
  cbn [andb negb].
  destruct (bool_decide_reflect (filterIPs = [])) as [Hf|Hf], (bool_decide_reflect (ip ∈ filterIPs)) as [Hi|Hi];
    cbn [orb]; try (cbn; naive_solver).
  all: destruct (Is6 ip); [|cbn; naive_solver].
  all: destruct (Prefix_IsValid (Address iface)); [|cbn; naive_solver].
  all: cbn [negb]; case_bool_decide as Hin; cbn [snd]; [naive_solver|].
  all: rewrite NoDup_app, elem_of_app, list_elem_of_singleton; split;
    [split_and!; [done|by intros ? ? ->%list_elem_of_singleton|apply NoDup_singleton]|naive_solver].
Qed.

Lemma discovery_loop ifaces acc :
  NoDup acc.2 →
  let acc' := foldl (NodeCIDRDiscovery_step T filterIPs) acc ifaces in
  NoDup acc'.2 ∧ ∀ p, p ∈ acc'.2 ↔
    p ∈ acc.2 ∨ ∃ iface, iface ∈ ifaces ∧ public_v6 T filterIPs iface ∧ p = Address iface.
Proof.
  revert acc. induction ifaces as [|iface ifaces IH]; intros acc Hnd; cbn [foldl].
  { split; [done|]. intros p. split; [by left|]. intros [?|(? & []%elem_of_nil & _)]; done. }
  destruct (IH (NodeCIDRDiscovery_step T filterIPs acc iface)) as [Hnd' Hmem].
  { by apply (discovery_step acc iface (Address iface)). }
  split; [done|]. intros p. rewrite Hmem, (proj2 (discovery_step acc iface p Hnd)).
  setoid_rewrite elem_of_cons. naive_solver.
Qed.
End discovery_spec.

(** ** Containment of prefixes *)

(** [q] contains the address of [p] and is not longer: all of [p]. *)
Lemma Contains_trans r q p :
  Prefix_IsValid q = true → Bits q ≤ Bits p → Bits r ≤ Bits q →
  Bits q ≤ BitLen (Prefix_Addr q) → hasZone (Prefix_Addr q) = false →
  Prefix_Contains q (Prefix_Addr p) = true → Prefix_Contains r (Prefix_Addr q) = true →
  Prefix_Contains r (Prefix_Addr p) = true.
Proof.
  intros Hq Hqp Hrq Hlen Hz. unfold Prefix_Contains. rewrite Hq. cbn [negb orb].
  destruct (hasZone (Prefix_Addr p)); [done|]. rewrite Hz.
  destruct (Prefix_IsValid r) eqn:Hr; cbn [negb orb]; [|done].
  unfold Prefix_IsValid in *. apply Z.leb_le in Hq, Hr.
  destruct (Prefix_Addr q) as [|x|x z], (Prefix_Addr p) as [|y|y z'], (Prefix_Addr r) as [|w|w z2];
    try done; cbn [BitLen] in Hlen; unfold in_range; rewrite !Z.eqb_eq; intros E1 <-.
  - replace (32 - Bits r) with ((32 - Bits q) + (Bits q - Bits r)) by lia.
    rewrite !Z.pow_add_r, <-!Z.div_div by lia. by rewrite E1.
  - replace (128 - Bits r) with ((128 - Bits q) + (Bits q - Bits r)) by lia.
    rewrite !Z.pow_add_r, <-!Z.div_div by lia. by rewrite E1.
Qed.

Lemma Contains_self p : prefix_ok p → Prefix_Contains p (Prefix_Addr p) = true.
Proof.
  intros (Ha & Hz & Hb & _). unfold Prefix_Contains, Prefix_IsValid. rewrite Hz, (proj2 (Z.leb_le _ _) Hb).
  destruct (Prefix_Addr p) as [|x|x z]; [done|by apply Z.eqb_refl..].
Qed.

(** Every prefix of a list lies in one of the list that no other contains. *)
Lemma shortest_container l p :
  Forall prefix_ok l → p ∈ l →
  ∃ q, q ∈ l ∧ contained l q = false ∧ Bits q ≤ Bits p ∧ Prefix_Contains q (Prefix_Addr p) = true.
Proof.
  intros Hl Hp. rewrite Forall_forall in Hl. remember (Z.to_nat (Bits p)) as n eqn:En.
  revert p Hp En. induction n as [n IH] using lt_wf_ind. intros p Hp ->.
  destruct (Hl p Hp) as (Ha & Hz & Hb). destruct (contained l p) eqn:Ec.
  2:{ exists p. split_and!; [done|done|lia|]. by apply Contains_self, Hl. }
  unfold contained in Ec. apply existsb_exists in Ec as (q & Hq%list_elem_of_In & Eq).
  apply andb_true_iff in Eq as [Hlt%Z.ltb_lt Hc]. destruct (Hl q Hq) as (Hqa & Hqz & Hqb).
  destruct (IH (Z.to_nat (Bits q)) ltac:(lia) q Hq eq_refl) as (r & Hr & Er & Hbr & Hcr).
  exists r. split_and!; [done|done|lia|].
  apply (Contains_trans r q p); [unfold Prefix_IsValid; lia|lia|done|lia|done|done|done].
Qed.

Lemma StronglySorted_filter {A} (R : relation A) (P : A → Prop) `{!∀ x, Decision (P x)} l :
  StronglySorted R l → StronglySorted R (filter P l).
Proof.
  induction 1 as [|x l Hl IH Hx]; [constructor|]. rewrite filter_cons. case_decide; [|done].
  constructor; [done|]. apply Forall_forall. intros y [_ Hy]%list_elem_of_filter. by eapply Forall_forall in Hx.
Qed.

(** The IPv6 entries are the networks no other contains of a sorted arrangement
    of the public ones. *)
Lemma discovery_entries T filterIPs ifaces :
  ∃ l, (NodeCIDRDiscovery T filterIPs ifaces).2 =
         map Prefix_String (filter (λ p, negb (contained l p) = true) l) ∧
    larger_first l ∧ NoDup l ∧
    ∀ p, p ∈ l ↔ ∃ i, i ∈ ifaces ∧ public_v6 T filterIPs i ∧ p = Address i.
Proof.
  unfold NodeCIDRDiscovery. pose proof (discovery_loop T filterIPs ifaces ([], []) NoDup_nil_2) as H.
  destruct (foldl (NodeCIDRDiscovery_step T filterIPs) ([], []) ifaces) as [v4 v6]. cbn [snd] in H.
  destruct H as [Hnd Hmem]. exists (SortFunc compare_prefixes v6). split_and!; [done|apply SortFunc_larger| |].
  - by rewrite SortFunc_perm.
  - intros p. rewrite SortFunc_perm, Hmem, elem_of_nil. naive_solver.
Qed.

(** C21. What [NodeCIDRDiscovery] reports of IPv6: exactly the maximal public
    networks of the interfaces.  The list is sorted with larger networks first and
    has no repetition; each entry is the network of a public interface that is
    not inside a larger one; and every public network lies inside an entry. *)
Theorem discovery_maximal T filterIPs ifaces :
  Forall (λ i, prefix_ok (Address i)) ifaces →
  ∃ ps, (NodeCIDRDiscovery T filterIPs ifaces).2 = map Prefix_String ps ∧
    larger_first ps ∧ NoDup ps ∧
    (∀ p, p ∈ ps → ∃ i, i ∈ ifaces ∧ public_v6 T filterIPs i ∧ p = Address i ∧
       ∀ j, j ∈ ifaces → public_v6 T filterIPs j → Bits (Address j) < Bits p →
         Prefix_Contains (Address j) (Prefix_Addr p) = false) ∧
    (∀ i, i ∈ ifaces → public_v6 T filterIPs i →
       ∃ p, p ∈ ps ∧ Bits p ≤ Bits (Address i) ∧ Prefix_Contains p (Prefix_Addr (Address i)) = true).
Proof.
  intros Hok. destruct (discovery_entries T filterIPs ifaces) as (l & -> & Hs & Hnd & Hl).
  exists (filter (λ p, negb (contained l p) = true) l). split_and!.
  - done.
  - by apply StronglySorted_filter.
  - by apply NoDup_filter.
  - intros p [Hc Hp]%list_elem_of_filter. apply Hl in Hp as (i & Hi & Hpub & ->). exists i.
    split_and!; [done..|]. intros j Hj Hpj Hlt. apply negb_true_iff in Hc. unfold contained in Hc.
    rewrite <-not_true_iff_false, existsb_exists in Hc. apply not_true_iff_false. intros Hcont. apply Hc.
    exists (Address j). split; [by apply list_elem_of_In, Hl; eauto|].
    by rewrite (proj2 (Z.ltb_lt _ _) Hlt), Hcont.
  - intros i Hi Hpub. destruct (shortest_container l (Address i)) as (q & Hq & Hc & Hb & Hcont).
    + apply Forall_forall. intros p (j & Hj & _ & ->)%Hl. rewrite Forall_forall in Hok. by apply Hok.
    + apply Hl. by exists i.
    + exists q. split_and!; [|done|done]. apply list_elem_of_filter. by rewrite Hc.
Qed.

(** *** A node with two networks, one inside the other *)

Definition demo_talos (ifaces : string → list AddressStatusSpec) : Talos :=
  mkTalos "kubespan" "siderolink" 128 (λ _, None) (λ _ ip, inr (ifaces ip)).

Definition demo_iface (link cidr : string) : AddressStatusSpec :=
  mkAddressStatus link (default (mkPrefix AddrZero (-1)) (ParsePrefix cidr)) 128.

Definition demo_ifaces : list AddressStatusSpec :=
  [demo_iface "lo" "::1/128"; demo_iface "eth0" "2001:db8::6/128"; demo_iface "eth0" "2001:db8::5/64";
   demo_iface "eth1" "2001:db8:1::6/128"; demo_iface "eth1" "fd00::1/64"].

Lemma discovery_maximal_witness :
  (NodeCIDRDiscovery (demo_talos (λ _, demo_ifaces)) [] demo_ifaces).2 =
    ["2001:db8::5/64"; "2001:db8:1::6/128"] ∧
  ∃ ps, (NodeCIDRDiscovery (demo_talos (λ _, demo_ifaces)) [] demo_ifaces).2 = map Prefix_String ps ∧
    larger_first ps ∧ NoDup ps.
Proof.
  split; [vm_compute; reflexivity|].
  destruct (discovery_maximal (demo_talos (λ _, demo_ifaces)) [] demo_ifaces) as (ps & E & Hs & Hn & _).
  - repeat constructor; vm_compute; repeat split; discriminate.
  - exists ps. split; [exact E|]. split; [exact Hs|exact Hn].
Defined.
