(* ===== verification/TalosSession.v ===== *)
(** * [pkg/talosclient]: the connection to the Talos API

    A [Client] holds one connection of the Talos library.  The calls of the program
    run through [retry.Constant(10s, 100ms)]; when a request fails the client asks
    for the version and, when that fails too, opens another connection and closes
    the one it had.

    Connections are numbered in the order they are opened.  The library's answers
    are the parameter [API] and may depend on all calls before.  The retry library
    is the parameter [Retry] with its documented behaviour [RetryLaws]: an attempt
    that ends well ends the loop, an unexpected error ends it with an error, an
    expected error leads to another attempt or, when the time is over, to an error,
    and attempts start at least a unit of time apart. *)

From S2P Require Import Prelude GoNet GoStrings NetIP Kube Transformer TalosClient.
From Stdlib Require Import Ascii.

Local Open Scope go_scope.

(** ** State *)

Inductive request :=
  | ReqAddressStatus (ip : string)
  | ReqPlatformMetadata (ip : string)
  | ReqSystemInformation (ip : string)
  | ReqControllerManagerConfig.

#[export] Instance request_eq_dec : EqDecision request.
Proof. solve_decision. Defined.

(** A resource by its dynamic type. *)
Inductive resource :=
  | ResAddressStatus (spec : AddressStatusSpec)
  | ResPlatformMetadata (spec : struct)
  | ResSystemInformation (spec : struct)
  | ResControllerManagerConfig (podCIDRs serviceCIDRs : list string)
  | ResOther.

Inductive call :=
  | CallNew (endpoints : option (list string))
  | CallVersion (conn : nat)
  | CallList (conn : nat) (req : request)
  | CallGet (conn : nat) (req : request)
  | CallClose (conn : nat).

#[export] Instance call_eq_dec : EqDecision call.
Proof. solve_decision. Defined.

Record API := mkAPI {
  TALOS_ENDPOINTS : string;
  api_New : list call → option (list string) → option error;
  api_Version : list call → nat → option error;
  api_List : list call → nat → request → error + list resource;
  api_Get : list call → nat → request → error + resource }.

(** The client's connection [c.talos], how many connections were opened, which were
    closed, and the calls so far, newest first. *)
Record Client := mkClient {
  talos : nat;
  opened : nat;
  closed : list nat;
  calls : list call }.

Definition add_call (a : call) (c : Client) : Client := mkClient (talos c) (opened c) (closed c) (a :: calls c).
Definition add_open (c : Client) : Client := mkClient (talos c) (S (opened c)) (closed c) (calls c).
Definition add_closed (h : nat) (c : Client) : Client := mkClient (talos c) (opened c) (h :: closed c) (calls c).
Definition set_talos (h : nat) (c : Client) : Client := mkClient h (opened c) (closed c) (calls c).

(** ** Retries *)

(** The result of one attempt: [nil], an error, [retry.ExpectedError(err)]. *)
Inductive attempt (A : Type) := Done (a : A) | Unexpected (e : error) | Expected (e : error).
Arguments Done {A} _. Arguments Unexpected {A} _. Arguments Expected {A} _.

(** In milliseconds. *)
Definition retryDuration : Z := 10 * 1000.
Definition retryUnits : Z := 100.
Definition max_attempts : nat := Z.to_nat (retryDuration `div` retryUnits + 1).

(** [n] attempts of [f] from [c], the last with the result. *)
Inductive retried {A} (f : GoM Client (attempt A)) : nat → Client → outcome A * Client → Prop :=
  | retried_done c a c' : f c = (Ok (Done a), c') → retried f 1 c (Ok a, c')
  | retried_unexpected c e c' e' : f c = (Ok (Unexpected e), c') → retried f 1 c (Err e', c')
  | retried_timeout c e c' e' : f c = (Ok (Expected e), c') → retried f 1 c (Err e', c')
  | retried_again n c e c' res :
      f c = (Ok (Expected e), c') → retried f n c' res → retried f (S n) c res.

Record RetryLaws (Retry : ∀ A, GoM Client (attempt A) → GoM Client A) : Prop := {
  retry_attempts : ∀ A (f : GoM Client (attempt A)) c,
    (∀ c, ∃ r, (f c).1 = Ok r) → ∃ n, (n ≤ max_attempts)%nat ∧ retried f n c (Retry A f c) }.

(** ** Operations *)

Section operations.
Context (P : API) (Retry : ∀ A, GoM Client (attempt A) → GoM Client A).

(** [talos.New(ctx, clientOpts...)] with the endpoints of the environment: the
    number of the new connection. *)
Definition New : GoM Client nat :=
  let endpoints := if decide (TALOS_ENDPOINTS P = "") then None
                   else Some (Split (TALOS_ENDPOINTS P) ","%char) in
  c <- gget ;;
  gmodify (add_call (CallNew endpoints)) ;;;
  match api_New P (calls c) endpoints with
  | Some err => gfail err
  | None => gmodify add_open ;;; gret (opened c)
  end.

Definition Version (h : nat) : GoM Client unit :=
  c <- gget ;;
  gmodify (add_call (CallVersion h)) ;;;
  match api_Version P (calls c) h with Some err => gfail err | None => gret tt end.

Definition Close (h : nat) : GoM Client unit :=
  gmodify (λ c, add_closed h (add_call (CallClose h) c)).

Definition COSI_List (h : nat) (req : request) : GoM Client (list resource) :=
  c <- gget ;;
  gmodify (add_call (CallList h req)) ;;;
  match api_List P (calls c) h req with inl err => gfail err | inr l => gret l end.

Definition COSI_Get (h : nat) (req : request) : GoM Client resource :=
  c <- gget ;;
  gmodify (add_call (CallGet h req)) ;;;
  match api_Get P (calls c) h req with inl err => gfail err | inr r => gret r end.

Definition refreshTalosClient : GoM Client unit :=
  c <- gget ;;
  gcatch (Version (talos c)) (λ _,
    h <- gcatch New (λ err, gfail (ErrV "failed to reinitialized talos client: " err)) ;;
    c <- gget ;;
    Close (talos c) ;;;
    gmodify (set_talos h)).

(** The function given to [Retry]: the request, and a refresh when it fails. *)
Definition attempt_request {A} (req : nat → GoM Client A) : GoM Client (attempt A) :=
  c <- gget ;;
  gcatch (r <- req (talos c) ;; gret (Done r)) (λ listErr,
    gcatch (refreshTalosClient ;;; gret (Unexpected listErr)) (λ err, gret (Expected err))).

Definition ErrGetResources (err : error) : error := ErrW "error get resources: " err.

Definition Client_GetNodeIfaces (nodeIP : string) : GoM Client (list AddressStatusSpec) :=
  resources <- gcatch (Retry _ (attempt_request (λ h, COSI_List h (ReqAddressStatus nodeIP))))
                      (λ err, gfail (ErrGetResources err)) ;;
  gret (omap (λ res, match res with ResAddressStatus spec => Some spec | _ => None end) resources).

(** [resources.Spec().( *T)] panics on a resource of another type. *)
Definition Client_GetNodeMetadata (nodeIP : string) : GoM Client struct :=
  resources <- gcatch (Retry _ (attempt_request (λ h, COSI_Get h (ReqPlatformMetadata nodeIP))))
                      (λ err, gfail (ErrGetResources err)) ;;
  match resources with ResPlatformMetadata spec => gret spec | _ => gpanic end.

Definition Client_GetNodeSystemInfo (nodeIP : string) : GoM Client struct :=
  resources <- gcatch (Retry _ (attempt_request (λ h, COSI_Get h (ReqSystemInformation nodeIP))))
                      (λ err, gfail (ErrGetResources err)) ;;
  match resources with ResSystemInformation spec => gret spec | _ => gpanic end.

(** [GetPodCIDRs], [GetServiceCIDRs]: one request, no retry. *)
Definition Client_GetPodCIDRs : GoM Client (list string) :=
  c <- gget ;;
  res <- COSI_Get (talos c) ReqControllerManagerConfig ;;
  match res with ResControllerManagerConfig podCIDRs _ => gret podCIDRs | _ => gpanic end.

Definition Client_GetServiceCIDRs : GoM Client (list string) :=
  c <- gget ;;
  res <- COSI_Get (talos c) ReqControllerManagerConfig ;;
  match res with ResControllerManagerConfig _ serviceCIDRs => gret serviceCIDRs | _ => gpanic end.
End operations.
