(* ===== verification/TalosSessionTheorems.v ===== *)
(** * What the connection to Talos does

    The calls of each request, exactly; the accounting of connections; what happens
    to it when goroutines share a client. *)

From S2P Require Import Prelude GoNet GoStrings NetIP Kube Transformer TalosClient TalosSession Interleaving.
From Stdlib Require Import Ascii.

Local Open Scope go_scope.

(** ** One request *)

Definition endpoints_of (P : API) : option (list string) :=
  if decide (TALOS_ENDPOINTS P = "") then None else Some (Split (TALOS_ENDPOINTS P) ","%char).

Section requests.
Context (P : API) (Retry : ∀ A, GoM Client (attempt A) → GoM Client A) (HR : RetryLaws Retry).

(** A kind of request: its call, the library's answer, and the code. *)
Context {A : Type} (mk : nat → call) (answer : list call → nat → error + A) (req : nat → GoM Client A).
Context (req_spec : ∀ h c, req h c =
  (match answer (calls c) h with inl e => Err e | inr a => Ok a end, add_call (mk h) c)).

(** [k] rounds in which the request, the version and a new connection failed. *)
Definition failed_rounds (h k : nat) : list call :=
  concat (replicate k [CallNew (endpoints_of P); CallVersion h; mk h]).

(** The outcomes of one attempt. *)
Inductive attempted (c : Client) : attempt A → Client → Prop :=
  | att_done a : answer (calls c) (talos c) = inr a →
      attempted c (Done a) (mkClient (talos c) (opened c) (closed c) (mk (talos c) :: calls c))
  | att_alive e : answer (calls c) (talos c) = inl e →
      attempted c (Unexpected e)
        (mkClient (talos c) (opened c) (closed c) (CallVersion (talos c) :: mk (talos c) :: calls c))
  | att_reopened e : answer (calls c) (talos c) = inl e →
      attempted c (Unexpected e)
        (mkClient (opened c) (S (opened c)) (talos c :: closed c)
           (CallClose (talos c) :: CallNew (endpoints_of P) :: CallVersion (talos c) :: mk (talos c) :: calls c))
  | att_failed e e' : answer (calls c) (talos c) = inl e →
      attempted c (Expected e')
        (mkClient (talos c) (opened c) (closed c) (failed_rounds (talos c) 1 ++ calls c)).

Lemma attempt_request_spec c :
  ∃ r c', attempt_request P req c = (Ok r, c') ∧ attempted c r c'.
Proof using req_spec.
  destruct c as [h n cl past]. unfold attempt_request, gbind, gcatch. cbn [gget talos]. rewrite req_spec. cbn [calls].
  destruct (answer past h) as [e|a] eqn:Ea.
  2:{ do 2 eexists. split; [done|]. by apply (att_done (mkClient h n cl past)). }
  unfold refreshTalosClient, Version, New, Close, gbind, gcatch. cbn.
  destruct (api_Version P _ h) as [ev|]; cbn.
  2:{ do 2 eexists. split; [done|]. by apply (att_alive (mkClient h n cl past)). }
  fold (endpoints_of P). destruct (api_New P _ (endpoints_of P)) as [en|]; cbn.
  - do 2 eexists. split; [done|]. by apply (att_failed (mkClient h n cl past) e).
  - do 2 eexists. split; [done|]. by apply (att_reopened (mkClient h n cl past)).
Qed.

(** The result of the whole request from [c]: [k] failed rounds on the connection the
    client had, then an answer, or an error with or without a new connection. *)
Inductive asked (c : Client) : outcome A → Client → Prop :=
  | asked_answer k a : (k < max_attempts)%nat →
      answer (failed_rounds (talos c) k ++ calls c) (talos c) = inr a →
      asked c (Ok a) (mkClient (talos c) (opened c) (closed c)
                        (mk (talos c) :: failed_rounds (talos c) k ++ calls c))
  | asked_alive k e e' : (k < max_attempts)%nat →
      answer (failed_rounds (talos c) k ++ calls c) (talos c) = inl e →
      asked c (Err e') (mkClient (talos c) (opened c) (closed c)
                          (CallVersion (talos c) :: mk (talos c) :: failed_rounds (talos c) k ++ calls c))
  | asked_reopened k e e' : (k < max_attempts)%nat →
      answer (failed_rounds (talos c) k ++ calls c) (talos c) = inl e →
      asked c (Err e')
        (mkClient (opened c) (S (opened c)) (talos c :: closed c)
           (CallClose (talos c) :: CallNew (endpoints_of P) :: CallVersion (talos c) :: mk (talos c) ::
            failed_rounds (talos c) k ++ calls c))
  | asked_timeout k e' : (0 < k ≤ max_attempts)%nat →
      asked c (Err e') (mkClient (talos c) (opened c) (closed c) (failed_rounds (talos c) k ++ calls c)).

Lemma failed_rounds_S h k l : failed_rounds h 1 ++ failed_rounds h k ++ l = failed_rounds h (S k) ++ l.
Proof. done. Qed.

(** [n] attempts after [j] failed rounds. *)
Lemma retried_asked n c0 j c res :
  retried (attempt_request P req) n c res →
  c = mkClient (talos c0) (opened c0) (closed c0) (failed_rounds (talos c0) j ++ calls c0) →
  (j + n ≤ max_attempts)%nat → asked c0 res.1 res.2.
Proof using req_spec.
  intros H. revert j.
  induction H as [c a c' E|c e c' e' E|c e c' e' E|n c e c' res E _ IH]; intros j -> Hn;
    match type of E with attempt_request P req ?c1 = _ =>
      destruct (attempt_request_spec c1) as (r & c2 & E2 & Ha) end;
    rewrite E in E2; simplify_eq; inversion Ha; subst; cbn [talos opened closed calls fst snd] in *.
  - apply asked_answer; [lia|done].
  - eapply asked_alive; [lia|done].
  - eapply asked_reopened; [lia|done].
  - rewrite failed_rounds_S. apply asked_timeout. lia.
  - apply (IH (S j)); [done|lia].
Qed.

Lemma Retry_asked c : ∃ o c', Retry A (attempt_request P req) c = (o, c') ∧ asked c o c'.
Proof using HR req_spec.
  destruct (retry_attempts Retry HR A (attempt_request P req) c) as (n & Hn & H).
  { intros c1. destruct (attempt_request_spec c1) as (r & c2 & E & _). exists r. by rewrite E. }
  destruct (Retry A (attempt_request P req) c) as [o c'] eqn:E. exists o, c'. split; [done|].
  apply (retried_asked n c 0 c (o, c') H); [by destruct c|lia].
Qed.
End requests.

Lemma COSI_List_spec P r h c : COSI_List P h r c =
  (match api_List P (calls c) h r with inl e => Err e | inr a => Ok a end, add_call (CallList h r) c).
Proof. unfold COSI_List, gbind. cbn. by destruct (api_List P (calls c) h r). Qed.

Lemma COSI_Get_spec P r h c : COSI_Get P h r c =
  (match api_Get P (calls c) h r with inl e => Err e | inr a => Ok a end, add_call (CallGet h r) c).
Proof. unfold COSI_Get, gbind. cbn. by destruct (api_Get P (calls c) h r). Qed.

(** What the methods make of the resources. *)
Definition addresses_of (l : list resource) : list AddressStatusSpec :=
  omap (λ res, match res with ResAddressStatus spec => Some spec | _ => None end) l.
Definition asked_to {A B} (o : outcome A) (k : A → outcome B) : outcome B :=
  match o with Ok a => k a | Err e => Err (ErrGetResources e) | Panic => Panic end.

(** A request and what the method makes of its result. *)
Definition asked_result {A B} (P : API) (mk : nat → call) (answer : list call → nat → error + A)
    (k : A → outcome B) (c : Client) (res : outcome B * Client) : Prop :=
  ∃ o, asked P mk answer c o res.2 ∧ res.1 = asked_to o k.

Section methods.
Context (P : API) (Retry : ∀ A, GoM Client (attempt A) → GoM Client A) (HR : RetryLaws Retry).

Lemma GetNodeIfaces_asked ip c :
  asked_result P (λ h, CallList h (ReqAddressStatus ip)) (λ past h, api_List P past h (ReqAddressStatus ip))
    (λ l, Ok (addresses_of l)) c (Client_GetNodeIfaces P Retry ip c).
Proof using HR.
  destruct (Retry_asked P Retry HR (λ h, CallList h (ReqAddressStatus ip))
              (λ past h, api_List P past h (ReqAddressStatus ip)) (λ h, COSI_List P h (ReqAddressStatus ip))
              (COSI_List_spec P (ReqAddressStatus ip)) c) as (o & c' & E & Ha).
  exists o. unfold Client_GetNodeIfaces, gbind, gcatch. rewrite E. by destruct o.
Qed.

Lemma Get_asked {B} r (k : resource → outcome B) c :
  asked_result P (λ h, CallGet h r) (λ past h, api_Get P past h r) k c
    (gbind (gcatch (Retry _ (attempt_request P (λ h, COSI_Get P h r))) (λ err, gfail (ErrGetResources err)))
           (λ res, gof_outcome (k res)) c).
Proof using HR.
  destruct (Retry_asked P Retry HR (λ h, CallGet h r) (λ past h, api_Get P past h r) (λ h, COSI_Get P h r)
              (COSI_Get_spec P r) c) as (o & c' & E & Ha).
  exists o. unfold gbind, gcatch. rewrite E. by destruct o.
Qed.

Lemma GetNodeMetadata_asked ip c :
  asked_result P (λ h, CallGet h (ReqPlatformMetadata ip)) (λ past h, api_Get P past h (ReqPlatformMetadata ip))
    (λ r, match r with ResPlatformMetadata m => Ok m | _ => Panic end) c (Client_GetNodeMetadata P Retry ip c).
Proof using HR.
  destruct (Get_asked (ReqPlatformMetadata ip)
              (λ r, match r with ResPlatformMetadata m => Ok m | _ => Panic end) c) as (o & Ha & E).
  exists o. unfold Client_GetNodeMetadata, gbind in *. destruct (gcatch _ _ c) as [[[]| |] c']; by split.
Qed.

Lemma GetNodeSystemInfo_asked ip c :
  asked_result P (λ h, CallGet h (ReqSystemInformation ip)) (λ past h, api_Get P past h (ReqSystemInformation ip))
    (λ r, match r with ResSystemInformation m => Ok m | _ => Panic end) c (Client_GetNodeSystemInfo P Retry ip c).
Proof using HR.
  destruct (Get_asked (ReqSystemInformation ip)
              (λ r, match r with ResSystemInformation m => Ok m | _ => Panic end) c) as (o & Ha & E).
  exists o. unfold Client_GetNodeSystemInfo, gbind in *. destruct (gcatch _ _ c) as [[[]| |] c']; by split.
Qed.
End methods.


(** ** A retry loop *)

(** Attempts until one is done or unexpected, [n] more at most. *)
Fixpoint retry_loop (n : nat) {A} (f : GoM Client (attempt A)) : GoM Client A :=
  r <- f ;;
  match r with
  | Done a => gret a
  | Unexpected e => gfail e
  | Expected e => match n with O => gfail (ErrNew "timeout") | S n' => retry_loop n' f end
  end.

Lemma retry_loop_retried n A (f : GoM Client (attempt A)) c :
  (∀ c, ∃ r, (f c).1 = Ok r) → ∃ k, (k ≤ S n)%nat ∧ retried f k c (retry_loop n f c).
Proof.
  intros Hf. revert c. induction n as [|n IH]; intros c; cbn [retry_loop]; unfold gbind at 1;
    destruct (Hf c) as [r Er]; destruct (f c) as [o c'] eqn:E; cbn in Er; subst o; destruct r as [a|e|e].
  - exists 1%nat. split; [lia|by constructor].
  - exists 1%nat. split; [lia|by eapply retried_unexpected].
  - exists 1%nat. split; [lia|by eapply retried_timeout].
  - exists 1%nat. split; [lia|by constructor].
  - exists 1%nat. split; [lia|by eapply retried_unexpected].
  - destruct (IH c') as (k & Hk & H). exists (S k). split; [lia|by eapply retried_again].
Qed.

Lemma retry_loop_laws : RetryLaws (λ A f, retry_loop 100 f).
Proof. split. intros A f c Hf. exact (retry_loop_retried 100 A f c Hf). Qed.

(** An API whose connection 0 is lost; new connections work. *)
Definition demo_spec : AddressStatusSpec := mkAddressStatus "eth0" (mkPrefix (Addr4 0) 8) 0.
Definition lost_api : API :=
  mkAPI "10.0.0.1,10.0.0.2" (λ _ _, None) (λ _ h, if decide (h = 0%nat) then Some (ErrNew "unavailable") else None)
    (λ _ h _, if decide (h = 0%nat) then inl (ErrNew "unavailable") else inr [ResAddressStatus demo_spec; ResOther])
    (λ _ _ _, inr ResOther).
Definition demo_client : Client := mkClient 0 1 [] [].


(** ** Connections *)

Definition conn_of (a : call) : option nat :=
  match a with CallNew _ => None | CallVersion h | CallList h _ | CallGet h _ | CallClose h => Some h end.

(** No call uses a connection that was closed before. *)
Fixpoint uses_open (l : list call) : Prop :=
  match l with
  | [] => True
  | a :: l' => (∀ h, conn_of a = Some h → CallClose h ∉ l') ∧ uses_open l'
  end.

Record session_ok (c : Client) : Prop := {
  conn_current : (talos c < opened c)%nat;
  conn_others : ∀ h, (h < opened c)%nat → h ≠ talos c → h ∈ closed c;
  conn_closed : ∀ h, h ∈ closed c ↔ CallClose h ∈ calls c;
  conn_used : ∀ a h, a ∈ calls c → conn_of a = Some h → (h < opened c)%nat;
  conn_open : talos c ∉ closed c;
  conn_uses : uses_open (calls c) }.

(** A call on the current connection that is no close. *)
Lemma session_ok_call c a :
  session_ok c → conn_of a = Some (talos c) ∨ conn_of a = None → (∀ h, a ≠ CallClose h) →
  session_ok (add_call a c).
Proof.
  intros [H1 H2 H3 H4 H5 H6] Ha Hc. split; cbn [add_call talos opened closed calls]; [done|done| | |done|].
  - intros h. rewrite elem_of_cons, H3. split; [by right|]. intros [E|]; [by destruct (Hc h)|done].
  - intros b h [->|Hb]%elem_of_cons E; [|by eapply H4]. destruct Ha as [Ha|Ha]; congruence.
  - split; [|done]. intros h E. destruct Ha as [Ha|Ha]; [|congruence]. rewrite <- H3. by simplify_eq.
Qed.

(** Opening a connection, closing the current one and using the new one. *)
Lemma session_ok_reopen c :
  session_ok c →
  session_ok (mkClient (opened c) (S (opened c)) (talos c :: closed c) (CallClose (talos c) :: calls c)).
Proof.
  intros [H1 H2 H3 H4 H5 H6]. split; cbn [talos opened closed calls].
  - lia.
  - intros h Hh Hne. rewrite elem_of_cons. destruct (decide (h = talos c)); [by left|]. right. apply H2; [lia|done].
  - intros h. rewrite !elem_of_cons, H3. naive_solver.
  - intros b h [->|Hb]%elem_of_cons E; [cbn in E; simplify_eq; lia|]. specialize (H4 b h Hb E). lia.
  - rewrite not_elem_of_cons. split; [lia|]. rewrite H3. intros H. specialize (H4 _ _ H eq_refl). lia.
  - split; [|done]. intros h [= <-]. by rewrite <- H3.
Qed.

Section connections.
Context (P : API) (Retry : ∀ A, GoM Client (attempt A) → GoM Client A) (HR : RetryLaws Retry).

Lemma asked_session {A} (mk : nat → call) (answer : list call → nat → error + A) c o c' :
  (∀ h, conn_of (mk h) = Some h) → (∀ h h', mk h ≠ CallClose h') →
  session_ok c → asked P mk answer c o c' → session_ok c'.
Proof.
  intros Hmk Hcl Hc.
  assert (∀ c, session_ok c → session_ok (add_call (mk (talos c)) c)) as Hreq.
  { intros c1 H1. apply session_ok_call; [done|by left|done]. }
  assert (∀ c, session_ok c → session_ok (add_call (CallVersion (talos c)) c)) as Hver.
  { intros c1 H1. apply session_ok_call; [done|by left|done]. }
  assert (∀ c, session_ok c → session_ok (add_call (CallNew (endpoints_of P)) c)) as Hnew.
  { intros c1 H1. apply session_ok_call; [done|by right|done]. }
  assert (∀ k, session_ok (mkClient (talos c) (opened c) (closed c) (failed_rounds P mk (talos c) k ++ calls c))) as Hk.
  { induction k as [|k IH]; [by destruct c|]. rewrite <- failed_rounds_S. by apply Hreq, Hver, Hnew in IH. }
  intros [k a _ _|k e e' _ _|k e e' _ _|k e' _].
  - exact (Hreq _ (Hk k)).
  - exact (Hver _ (Hreq _ (Hk k))).
  - exact (session_ok_reopen _ (Hnew _ (Hver _ (Hreq _ (Hk k))))).
  - exact (Hk k).
Qed.

Lemma Client_Get_session {A} r (k : resource → GoM Client A) c :
  (∀ x c, (k x c).2 = c) → session_ok c →
  session_ok (gbind gget (λ c, gbind (COSI_Get P (talos c) r) k) c).2.
Proof.
  intros Hk Hc. unfold gbind. cbn [gget]. rewrite COSI_Get_spec.
  assert (session_ok (add_call (CallGet (talos c) r) c)) as H by (apply session_ok_call; [done|by left|done]).
  destruct (api_Get P (calls c) (talos c) r); [done|]. by rewrite Hk.
Qed.

(** Any sequence of the client's methods. *)
Inductive method := MIfaces (ip : string) | MMetadata (ip : string) | MSystemInfo (ip : string) | MPodCIDRs | MServiceCIDRs.

Definition call_method (m : method) (c : Client) : Client :=
  match m with
  | MIfaces ip => (Client_GetNodeIfaces P Retry ip c).2
  | MMetadata ip => (Client_GetNodeMetadata P Retry ip c).2
  | MSystemInfo ip => (Client_GetNodeSystemInfo P Retry ip c).2
  | MPodCIDRs => (Client_GetPodCIDRs P c).2
  | MServiceCIDRs => (Client_GetServiceCIDRs P c).2
  end.

Lemma call_method_session m c : session_ok c → session_ok (call_method m c).
Proof using HR.
  intros Hc. destruct m as [ip|ip|ip| |]; cbn [call_method].
  - destruct (GetNodeIfaces_asked P Retry HR ip c) as (o & Ha & _). by eapply asked_session in Ha.
  - destruct (GetNodeMetadata_asked P Retry HR ip c) as (o & Ha & _). by eapply asked_session in Ha.
  - destruct (GetNodeSystemInfo_asked P Retry HR ip c) as (o & Ha & _). by eapply asked_session in Ha.
  - apply Client_Get_session; [|done]. by intros [] ?.
  - apply Client_Get_session; [|done]. by intros [] ?.
Qed.
End connections.

(** C23. The client keeps exactly one connection open, whatever is asked of it and
    whatever Talos answers: after any sequence of its methods the connection it uses
    is open, every other connection it opened is closed, and no call was made on a
    connection that had been closed. *)
Theorem talos_connections P Retry ms c :
  RetryLaws Retry → session_ok c → session_ok (foldl (λ c m, call_method P Retry m c) c ms).
Proof. intros HR. revert c. induction ms as [|m ms IH]; intros c Hc; [done|]. by apply IH, call_method_session. Qed.

Lemma demo_client_ok : session_ok demo_client.
Proof. split; cbn; [lia|intros; lia|set_solver..|done]. Qed.

Lemma talos_connections_witness :
  session_ok (foldl (λ c m, call_method lost_api (λ A f, retry_loop 100 f) m c) demo_client
                [MIfaces "10.0.0.9"; MMetadata "10.0.0.9"; MPodCIDRs]).
Proof.
  apply (talos_connections lost_api (λ A f, retry_loop 100 f)).
  - exact retry_loop_laws.
  - exact demo_client_ok.
Defined.

(** ** A client shared by goroutines *)

(** [refreshTalosClient] in the steps other goroutines may come between: the version,
    the new connection, the close, the assignment. *)
Definition refreshTalosClient_proc (P : API) : proc Client unit :=
  pcatch (patom (c <- gget ;; Version P (talos c))) (λ _,
    pbind (pcatch (patom (New P)) (λ err, pfail (ErrV "failed to reinitialized talos client: " err))) (λ h,
    pbind (patom (c <- gget ;; Close (talos c))) (λ _,
    patom (gmodify (set_talos h))))).

Lemma refreshTalosClient_run P c : prun (refreshTalosClient_proc P) c = refreshTalosClient P c.
Proof.
  unfold refreshTalosClient_proc, refreshTalosClient. rewrite prun_catch. unfold gbind at 2. cbn [gget].
  apply gcatch_ext; [by rewrite prun_atom|]. intros e c1. rewrite prun_bind. apply gbind_ext.
  - rewrite prun_catch. apply gcatch_ext; [by rewrite prun_atom|done].
  - intros h c2. rewrite prun_bind. unfold gbind. rewrite prun_atom. cbn. done.
Qed.

(** A client is shared without a lock: two goroutines that find the connection lost
    at the same time both open a new one and both close the old one; the connection
    of the one that assigns first stays open and is never used or closed. *)
Theorem talos_refresh_race :
  session_ok demo_client ∧
  ∃ c, foldl run_thread_of (replicate 2 (refreshTalosClient_proc lost_api), demo_client)
         [0; 1; 0; 1; 0; 1; 0; 1]%nat = (replicate 2 (PRet (Ok tt)), c) ∧
    talos c = 2%nat ∧ opened c = 3%nat ∧ closed c = [0; 0]%nat ∧ ¬ session_ok c.
Proof.
  split; [exact demo_client_ok|]. eexists. split; [vm_compute; reflexivity|].
  split; [reflexivity|]. split; [reflexivity|]. split; [reflexivity|]. intros H.
  assert (1%nat ∈ [0; 0]%nat) as Hin by (apply (conn_others _ H); cbn; lia). set_solver.
Qed.
