(* ===== verification/NodeUtils.v ===== *)
(** * [pkg/utils/node]: the addresses of a node

    [GetNodeIPs] reads the addresses of a node's status and of the annotation the
    kubelet sets for [--node-ip]. *)

From S2P Require Import Prelude GoNet GoStrings NetIP Kube.
From Stdlib Require Import Ascii.

Local Open Scope go_scope.

Definition AnnotationAlphaProvidedIPAddr : string := "alpha.kubernetes.io/provided-node-ip".

Definition ErrParseAddr (s : string) : error :=
  ErrV "failed to parse IP address: " (ErrNew ("ParseAddr(" +:+ s +:+ "): unable to parse IP")).

(** The loop over [node.Status.Addresses]. *)
Fixpoint status_ips (addrs : list NodeAddress) (nodeIPs : list Addr) : outcome (list Addr) :=
  match addrs with
  | [] => Ok nodeIPs
  | v :: addrs' =>
      if negb (bool_decide (addr_type v = NodeExternalIP)) && negb (bool_decide (addr_type v = NodeInternalIP))
      then status_ips addrs' nodeIPs
      else match ParseAddr (address v) with
           | None => Err (ErrParseAddr (address v))
           | Some ip => status_ips addrs' (nodeIPs ++ [ip])
           end
  end.

(** The loop over the provided addresses. *)
Fixpoint provided_ips (providedIPs : list string) (nodeIPs : list Addr) : outcome (list Addr) :=
  match providedIPs with
  | [] => Ok nodeIPs
  | nodeIP :: providedIPs' =>
      match ParseAddr nodeIP with
      | None => Err (ErrParseAddr nodeIP)
      | Some ip =>
          provided_ips providedIPs' (if bool_decide (ip ∈ nodeIPs) then nodeIPs else nodeIPs ++ [ip])
      end
  end.

Definition GetNodeIPs (node : option Node) : outcome (list Addr) :=
  match node with
  | None => Err (ErrNew "node is nil")
  | Some node =>
      let providedIPs := match Annotations node !! AnnotationAlphaProvidedIPAddr with
                         | Some providedIP => Split providedIP ","%char
                         | None => []
                         end in
      let? nodeIPs := status_ips (Addresses node) [] in
      provided_ips providedIPs nodeIPs
  end.
