(* ===== verification/NodePatch.v ===== *)
(** * [pkg/utils/node] and [pkg/utils/controller/node]: patches and handlers

    The bytes of the merge patches that set a node's pod networks, the functions of
    [node.go] that send patches, and the handlers and helpers of
    [controller_utils.go].

    [json.Marshal] is modelled on strings of ASCII bytes; a byte outside ASCII is
    left alone.  The API server is a parameter. *)

From S2P Require Import Prelude GoNet GoStrings NetIPRoundTrip Kube.
From Stdlib Require Import Ascii.

Local Open Scope go_scope.

(** ** JSON *)

Definition byte (n : N) : string := String (ascii_of_N n) EmptyString.
Definition quote : string := byte 34.

Definition hex_digit (n : N) : ascii := ascii_of_N (if (n <? 10)%N then n + 48 else n + 87)%N.

(** A character of a string as [json.Marshal] writes it. *)
Definition json_char (a : ascii) : string :=
  let n := N_of_ascii a in
  if decide (n = 34%N) then byte 92 +:+ byte 34
  else if decide (n = 92%N) then byte 92 +:+ byte 92
  else if decide (n = 8%N) then byte 92 +:+ "b"
  else if decide (n = 12%N) then byte 92 +:+ "f"
  else if decide (n = 10%N) then byte 92 +:+ "n"
  else if decide (n = 13%N) then byte 92 +:+ "r"
  else if decide (n = 9%N) then byte 92 +:+ "t"
  else if (n <? 32)%N || bool_decide (n ∈ [60; 62; 38]%N) then
    byte 92 +:+ "u00" +:+ String (hex_digit (n / 16)) (String (hex_digit (n mod 16)) EmptyString)
  else String a EmptyString.

Fixpoint json_chars (s : string) : string :=
  match s with
  | EmptyString => EmptyString
  | String a s' => json_char a +:+ json_chars s'
  end.
Definition json_string (s : string) : string := quote +:+ json_chars s +:+ quote.

Fixpoint json_strings (l : list string) : string :=
  match l with
  | [] => EmptyString
  | [s] => json_string s
  | s :: l' => json_string s +:+ "," +:+ json_strings l'
  end.

(** [nodeForCIDRMergePatch]: [podCIDRs] is left out when empty. *)
Record nodeSpecForMergePatch := mkSpecPatch { patch_PodCIDR : string; patch_PodCIDRs : list string }.

Definition marshal_spec (p : nodeSpecForMergePatch) : string :=
  "{" +:+ json_string "spec" +:+ ":{" +:+ json_string "podCIDR" +:+ ":" +:+ json_string (patch_PodCIDR p) +:+
  (match patch_PodCIDRs p with
   | [] => EmptyString
   | l => "," +:+ json_string "podCIDRs" +:+ ":[" +:+ json_strings l +:+ "]"
   end) +:+ "}}".

(** ** Patches *)

Inductive patch_call := PatchNode (node patch : string) | PatchStatus (node patch : string).

Record Patcher := mkPatcher {
  patch_answer : list patch_call → patch_call → option error;
  (* the JSON of a condition, and the time it is sent *)
  condition_json : Type;
  marshal_condition : condition_json → string → error + string }.

Section patches.
Context (A : Patcher).

Definition send (c : patch_call) : GoM (list patch_call) (option error) :=
  past <- gget ;;
  gmodify (cons c) ;;;
  gret (patch_answer A past c).

Definition PatchNodeCIDR (node cidr : string) : GoM (list patch_call) unit :=
  err <- send (PatchNode node (marshal_spec (mkSpecPatch cidr []))) ;;
  match err with
  | Some e => gfail (ErrW "failed to patch node CIDR: " e)
  | None => gret tt
  end.

Definition PatchNodeCIDRs_bytes (node : string) (cidrs : list string) : GoM (list patch_call) unit :=
  match cidrs with
  | [] => gpanic
  | podCIDR :: _ =>
      err <- send (PatchNode node (marshal_spec (mkSpecPatch podCIDR cidrs))) ;;
      match err with
      | Some e => gfail (ErrV "failed to patch node CIDR: " e)
      | None => gret tt
      end
  end.

(** A condition that cannot be marshalled is dropped without an error. *)
Definition SetNodeCondition (node : string) (condition : condition_json A) (now : string)
    : GoM (list patch_call) unit :=
  match marshal_condition A condition now with
  | inl _ => gret tt
  | inr json =>
      err <- send (PatchStatus node ("{" +:+ json_string "status" +:+ ":{" +:+ json_string "conditions" +:+
                                     ":[" +:+ json +:+ "]}}")) ;;
      match err with Some e => gfail e | None => gret tt end
  end.
End patches.

(** ** Handlers *)

(** What an informer hands to a handler. *)
Inductive informed :=
  | InNode (n : Node)
  | InTombstone (key : string) (obj : option Node) (* [None]: not a node *)
  | InOther (dump : string).

Section handlers.
Context {S : Type} `{!Traced S}.

Definition handle (what : string) (o : GoM S unit) : GoM S unit :=
  gcatch o (λ err, HandleError (ErrW what err)).

(** [originalObj.( *v1.Node)] panics on anything else. *)
Definition CreateAddNodeHandler (f : Node → GoM S unit) (originalObj : informed) : GoM S unit :=
  match originalObj with
  | InNode node => handle "Error while processing Node Add: " (f node)
  | _ => gpanic
  end.

Definition CreateUpdateNodeHandler (f : Node → Node → GoM S unit) (origOldObj origNewObj : informed) : GoM S unit :=
  match origNewObj, origOldObj with
  | InNode node, InNode prevNode => handle "Error while processing Node Add/Delete: " (f prevNode node)
  | _, _ => gpanic
  end.

Definition CreateDeleteNodeHandler (f : Node → GoM S unit) (originalObj : informed) : GoM S unit :=
  let originalNode := match originalObj with
                      | InNode n => Some n
                      | InTombstone _ obj => obj
                      | InOther _ => None
                      end in
  match originalNode with
  | None => gret tt
  | Some node => handle "Error while processing Node Add/Delete: " (f node)
  end.
End handlers.

(** [GetNodeCondition]: the first condition of the type and its index. *)
Definition GetNodeCondition {cond : Type} (cond_type : cond → string) (status : option (list cond))
    (conditionType : string) : Z * option cond :=
  match status with
  | None => (-1, None)
  | Some conditions =>
      match list_find (λ c, cond_type c = conditionType) conditions with
      | Some (i, c) => (Z.of_nat i, Some c)
      | None => (-1, None)
      end
  end.
