(* ===== verification/NodePatchTheorems.v ===== *)
(** * Patches say what they should, handlers survive what they get *)

From S2P Require Import Prelude GoNet GoStrings NetIPRoundTrip Kube NodePatch.
From Stdlib Require Import Ascii.

Local Open Scope go_scope.

(** ** A reader of the patches *)

Definition hex_value (a : ascii) : option N :=
  let n := N_of_ascii a in
  if (48 <=? n)%N && (n <=? 57)%N then Some (n - 48)%N
  else if (97 <=? n)%N && (n <=? 102)%N then Some (n - 87)%N else None.

Definition unescape (b : ascii) : option ascii :=
  match N_of_ascii b with
  | 34%N | 92%N => Some b
  | 98%N => Some (ascii_of_N 8)
  | 102%N => Some (ascii_of_N 12)
  | 110%N => Some (ascii_of_N 10)
  | 114%N => Some (ascii_of_N 13)
  | 116%N => Some (ascii_of_N 9)
  | _ => None
  end.

(** The text of a JSON string after its opening quote, and what follows it. *)
Fixpoint read_chars (s : string) : option (string * string) :=
  match s with
  | EmptyString => None
  | String a s1 =>
      if decide (N_of_ascii a = 34%N) then Some (EmptyString, s1)
      else if decide (N_of_ascii a = 92%N) then
        match s1 with
        | String "u" (String "0" (String "0" (String x (String y s2)))) =>
            match hex_value x, hex_value y with
            | Some i, Some j => prod_map (String (ascii_of_N (16 * i + j))) id <$> read_chars s2
            | _, _ => None
            end
        | String b s2 => match unescape b with
                         | Some c => prod_map (String c) id <$> read_chars s2
                         | None => None
                         end
        | EmptyString => None
        end
      else prod_map (String a) id <$> read_chars s1
  end.

Definition read_string (s : string) : option (string * string) :=
  match CutPrefix s quote with Some t => read_chars t | None => None end.

(** Strings separated by commas, [n] at most. *)
Fixpoint read_strings (n : nat) (s : string) : option (list string * string) :=
  match n with
  | O => None
  | S n' =>
      match read_string s with
      | None => None
      | Some (x, t) => match CutPrefix t "," with
                       | Some t' => prod_map (cons x) id <$> read_strings n' t'
                       | None => Some ([x], t)
                       end
      end
  end.

Definition spec_prefix : string := "{" +:+ json_string "spec" +:+ ":{" +:+ json_string "podCIDR" +:+ ":".
Definition list_prefix : string := "," +:+ json_string "podCIDRs" +:+ ":[".

Definition read_spec (s : string) : option nodeSpecForMergePatch :=
  t ← CutPrefix s spec_prefix;
  '(cidr, t) ← read_string t;
  match CutPrefix t list_prefix with
  | None => if decide (t = "}}") then Some (mkSpecPatch cidr []) else None
  | Some t => '(l, t) ← read_strings (String.length t) t;
              if decide (t = "]}}") then Some (mkSpecPatch cidr l) else None
  end.

(** ** Round trip *)

Lemma read_json_char a t : read_chars (json_char a +:+ t) = prod_map (String a) id <$> read_chars t.
Proof. destruct a as [[] [] [] [] [] [] [] []]; reflexivity. Qed.

Lemma read_json_chars s t : read_chars (json_chars s +:+ quote +:+ t) = Some (s, t).
Proof.
  induction s as [|a s IH]; [reflexivity|]. cbn [json_chars].
  rewrite string_app_assoc, read_json_char, IH. reflexivity.
Qed.

Lemma read_json_string s t : read_string (json_string s +:+ t) = Some (s, t).
Proof.
  unfold read_string, json_string. rewrite !string_app_assoc, CutPrefix_app. apply read_json_chars.
Qed.

Lemma string_length_app a b : String.length (a +:+ b) = (String.length a + String.length b)%nat.
Proof. induction a as [|x a IH]; [done|]. change (S (String.length (a +:+ b)) = S (String.length a + String.length b)). by rewrite IH. Qed.

Lemma json_strings_cons s s' l : json_strings (s :: s' :: l) = json_string s +:+ "," +:+ json_strings (s' :: l).
Proof. done. Qed.

Lemma json_strings_length l : (length l ≤ String.length (json_strings l))%nat.
Proof.
  induction l as [|s [|s' l] IH]; [done| |].
  - unfold json_strings, json_string. rewrite string_length_app. cbn. lia.
  - rewrite json_strings_cons, !string_length_app. cbn [length] in *. cbn [String.length]. lia.
Qed.

Lemma read_json_strings l n t :
  l ≠ [] → (length l ≤ n)%nat → CutPrefix t "," = None → read_strings n (json_strings l +:+ t) = Some (l, t).
Proof.
  intros Hne Hn Ht. revert n Hne Hn. induction l as [|s l IH]; intros n Hne Hn; [done|].
  destruct n as [|n]; [cbn in Hn; lia|]. cbn [read_strings]. destruct l as [|s' l].
  - cbn [json_strings]. rewrite read_json_string. by rewrite Ht.
  - rewrite json_strings_cons, !string_app_assoc, read_json_string, CutPrefix_app.
    rewrite IH; [done..|]. cbn in *. lia.
Qed.

(** The reader gets back what was written. *)
Lemma read_marshal_spec (p : nodeSpecForMergePatch) : read_spec (marshal_spec p) = Some p.
Proof.
  destruct p as [cidr l]. unfold read_spec, marshal_spec. cbn [patch_PodCIDR patch_PodCIDRs].
  assert (∀ t, "{" +:+ json_string "spec" +:+ ":{" +:+ json_string "podCIDR" +:+ ":" +:+ t = spec_prefix +:+ t) as ->.
  { intros t. unfold spec_prefix. by rewrite !string_app_assoc. }
  rewrite CutPrefix_app. cbn [mbind option_bind]. rewrite read_json_string. cbn [mbind option_bind].
  destruct l as [|s l]; [reflexivity|].
  assert (("," +:+ json_string "podCIDRs" +:+ ":[" +:+ json_strings (s :: l) +:+ "]") +:+ "}}" =
          list_prefix +:+ json_strings (s :: l) +:+ "]}}") as ->.
  { unfold list_prefix. by rewrite !string_app_assoc. }
  rewrite CutPrefix_app, read_json_strings; [reflexivity|done| |reflexivity].
  rewrite string_length_app. pose proof (json_strings_length (s :: l)). lia.
Qed.

(** C36. What [PatchNodeCIDRs] does with a list of ASCII texts: it sends one patch, to
    that node, whose bytes a reader of JSON takes as [podCIDR] set to the first text
    and [podCIDRs] set to the whole list, in order; it succeeds exactly when the API
    server accepts the patch, and otherwise returns an error that carries the
    server's text but not its status.  An empty list panics before anything is sent.
    [PatchNodeCIDR] sends the one text with no list, and its error keeps the status. *)
Theorem cidr_patch_sent (A : Patcher) (node : string) (cidrs : list string) (past : list patch_call) :
  Forall (λ c, ascii_only c = true) cidrs →
  match cidrs with
  | [] => PatchNodeCIDRs_bytes A node cidrs past = (Panic, past)
  | podCIDR :: _ =>
      (∃ body, (PatchNodeCIDRs_bytes A node cidrs past).2 = PatchNode node body :: past ∧
         read_spec body = Some (mkSpecPatch podCIDR cidrs) ∧
         match patch_answer A past (PatchNode node body) with
         | None => (PatchNodeCIDRs_bytes A node cidrs past).1 = Ok tt
         | Some e => ∃ e', (PatchNodeCIDRs_bytes A node cidrs past).1 = Err e' ∧
             Error e' = "failed to patch node CIDR: " +:+ Error e ∧ errors_As e' = None
         end) ∧
      (∃ body, (PatchNodeCIDR A node podCIDR past).2 = PatchNode node body :: past ∧
         read_spec body = Some (mkSpecPatch podCIDR []) ∧
         match patch_answer A past (PatchNode node body) with
         | None => (PatchNodeCIDR A node podCIDR past).1 = Ok tt
         | Some e => ∃ e', (PatchNodeCIDR A node podCIDR past).1 = Err e' ∧
             Error e' = "failed to patch node CIDR: " +:+ Error e ∧ errors_As e' = errors_As e
         end)
  end.
Proof.
  intros _. destruct cidrs as [|podCIDR cidrs]; [done|].
  unfold PatchNodeCIDRs_bytes, PatchNodeCIDR, send, gbind. cbn [gget gmodify gret].
  split; eexists; (split; [|split; [apply read_marshal_spec|]]);
    destruct (patch_answer A past _); cbn; eauto.
Qed.

(** ** Errors of the patches *)

(** The error of [PatchNodeCIDR] keeps the status of the API server, that of
    [PatchNodeCIDRs] loses it. *)
Lemma patch_error_status A node cidrs cidr past e :
  patch_answer A past (PatchNode node (marshal_spec (mkSpecPatch cidr []))) = Some e →
  patch_answer A past (PatchNode node (marshal_spec (mkSpecPatch cidr (cidr :: cidrs)))) = Some e →
  ∃ e1 e2, (PatchNodeCIDR A node cidr past).1 = Err e1 ∧ errors_As e1 = errors_As e ∧
    (PatchNodeCIDRs_bytes A node (cidr :: cidrs) past).1 = Err e2 ∧ errors_As e2 = None.
Proof.
  intros E1 E2. unfold PatchNodeCIDR, PatchNodeCIDRs_bytes, send, gbind. cbn [gget gmodify gret].
  rewrite E1, E2. by do 2 eexists.
Qed.

(** ** Handlers *)

Section handlers.
Context {S : Type} `{!Traced S} (f : Node → GoM S unit) (Hf : ∀ n s, (f n s).1 ≠ Panic).

(** The delete handler neither panics nor fails, whatever the informer hands over: it
    runs [f] exactly on a node or the node of a tombstone, and reports its error. *)
Theorem delete_handler_total obj s :
  (CreateDeleteNodeHandler f obj s).1 = Ok tt ∧
  match obj with
  | InNode n | InTombstone _ (Some n) =>
      (CreateDeleteNodeHandler f obj s).2 =
        match f n s with
        | (Err e, s') => add_action (ActHandleError (ErrW "Error while processing Node Add/Delete: " e)) s'
        | (_, s') => s'
        end
  | _ => (CreateDeleteNodeHandler f obj s).2 = s
  end.
Proof using Hf.
  destruct obj as [n|key [n|]|dump]; cbn; [| |done..];
    unfold handle, gcatch; specialize (Hf n s); by destruct (f n s) as [[[]|e|] s'].
Qed.
End handlers.

(** ** Conditions *)

Lemma GetNodeCondition_first {cond} (ty : cond → string) conditions t :
  match GetNodeCondition ty (Some conditions) t with
  | (i, Some c) => conditions !! Z.to_nat i = Some c ∧ 0 ≤ i ∧ ty c = t ∧
                   ∀ j c', (j < Z.to_nat i)%nat → conditions !! j = Some c' → ty c' ≠ t
  | (i, None) => i = -1 ∧ ∀ c, c ∈ conditions → ty c ≠ t
  end.
Proof.
  unfold GetNodeCondition. destruct (list_find _ conditions) as [[i c]|] eqn:E.
  - apply list_find_Some in E as (Hi & Hc & Hf). rewrite Nat2Z.id. split_and!; [done|lia|done|].
    intros j c' Hj Hl. by apply (Hf j c').
  - split; [done|]. apply list_find_None in E. by apply Forall_forall.
Qed.

(** A dual-stack patch, accepted. *)
Lemma cidr_patch_sent_witness :
  let A := mkPatcher (λ _ _, None) unit (λ _ _, inr "") in
  let cidrs := ["10.0.0.0/24"; "fd00:10:244::/64"] in
  ∃ body, (PatchNodeCIDRs_bytes A "node-1" cidrs []).2 = [PatchNode "node-1" body] ∧
    read_spec body = Some (mkSpecPatch "10.0.0.0/24" cidrs).
Proof.
  intros A cidrs. destruct (cidr_patch_sent A "node-1" cidrs []) as [(body & H1 & H2 & _) _].
  - repeat constructor.
  - by exists body.
Defined.
