(* ===== verification/CloudAllocator.v ===== *)
(** * [pkg/nodeipam/ipam/cloud_allocator.go]

    [cloudAllocator] keeps its [CidrSet]s in a map by network: those of the cluster
    CIDRs from the start, and one more for every public IPv6 network it discovers
    on a node.  Go visits a map in an arbitrary order, a new one for every loop:
    [order i keys] is the order of the [i]-th loop, and [loops] counts them.  Log
    lines are left out.  The mutex [lock] is held by [defineNodeGlobalCIDRs]; the
    definitions describe one goroutine at a time. *)

From S2P Require Import Prelude GoNet GoStrings NetIP CidrSet Kube CidrAllocator NodeUtils TalosClient.
From Stdlib Require Import Ascii.

Local Open Scope go_scope.

Record cloudAllocator := mkCloudAllocator {
  ca_clusterCIDRs : list IPNet;
  ca_cidrSets : gmap Prefix CidrSet;
  ca_actions : list action;
  ca_loops : nat }.

#[export] Instance cloudAllocator_traced : Traced cloudAllocator := {|
  trace := ca_actions;
  add_action a r :=
    mkCloudAllocator (ca_clusterCIDRs r) (ca_cidrSets r) (a :: ca_actions r) (ca_loops r) |}.

Definition with_sets (r : cloudAllocator) (m : gmap Prefix CidrSet) : cloudAllocator :=
  mkCloudAllocator (ca_clusterCIDRs r) m (ca_actions r) (ca_loops r).

(** [r.cidrSets[k].op(...)]: the nil pointer of a missing key panics. *)
Definition on_key {A} (k : Prefix) (op : CidrSet → outcome A * CidrSet) : GoM cloudAllocator A :=
  λ r, match ca_cidrSets r !! k with
       | None => (Panic, r)
       | Some s => let '(o, s') := op s in (o, with_sets r (<[k := s']> (ca_cidrSets r)))
       end.

(** [netip.MustParseAddr], [netip.MustParsePrefix]. *)
Definition MustParseAddr (s : string) : outcome Addr :=
  match ParseAddr s with Some a => Ok a | None => Panic end.
Definition MustParsePrefix (s : string) : outcome Prefix :=
  match ParsePrefix s with Some p => Ok p | None => Panic end.

(** The taint [UninitializedTaint]: key, no value, effect. *)
Definition UninitializedTaint : Taint :=
  mkTaint "node.cloudprovider.kubernetes.io/uninitialized" "" "NoSchedule".

Definition defaultNodeMaxPods : Z := 110.

Definition getNodeMaxPods (node : option Node) : Z :=
  match node with
  | None => defaultNodeMaxPods
  | Some node =>
      let positive (q : option (option Z)) : option Z :=
        match q with
        | Some (Some value) => if 0 <? value then Some value else None
        | _ => None
        end in
      match positive (AllocatablePods node) with
      | Some value => value
      | None => match positive (CapacityPods node) with
                | Some value => value
                | None => defaultNodeMaxPods
                end
      end
  end.

(** ** Operations *)

Section operations.
Context (K : Kube) (T : Talos) (order : nat → list Prefix → list Prefix).

(** The keys in the order [for k := range r.cidrSets] visits them. *)
Definition range_cidrSets : GoM cloudAllocator (list Prefix) := λ r,
  (Ok (order (ca_loops r) (map_to_list (ca_cidrSets r)).*1),
   mkCloudAllocator (ca_clusterCIDRs r) (ca_cidrSets r) (ca_actions r) (S (ca_loops r))).

(** [for k := range r.cidrSets { if k.Contains(ip) { ...; break } }]: the first
    key that contains [ip]. *)
Definition key_for (ip : Addr) (keys : list Prefix) : option Prefix :=
  List.find (λ k, Prefix_Contains k ip) keys.

Definition occupyCIDR (cidr : IPNet) : GoM cloudAllocator bool :=
  let ip := default AddrZero (AddrFromSlice (ip_of cidr)) in
  keys <- range_cidrSets ;;
  match key_for ip keys with
  | None => gret false
  | Some k =>
      gcatch (on_key k (λ s, Occupy s (Some cidr)))
             (λ e, gfail (ErrV ("failed to mark cidr " +:+ IPNet_String (Some cidr) +:+
                                " as occupied in subnet " +:+ Prefix_String k +:+ ": ") e)) ;;;
      gret true
  end.

Definition occupyNodeIPs (addrs : list Addr) : GoM cloudAllocator unit :=
  gforeach addrs (λ addr,
    if negb (Is6 addr) || IsPrivate addr then gret tt
    else match ParseIP (Addr_String addr) with
         | None => gret tt
         | Some ip => occupyCIDR (mkIPNet ip (CIDRMask 128 128)) ;;; gret tt
         end).

(** The mask of the pod networks of a discovered network of [mask] bits, and the
    network itself. *)
Definition addCIDRSet (cidr : string) (maxPods : Z) : GoM cloudAllocator unit :=
  match ParsePrefix cidr with
  | None => gfail (ErrNew ("netip.ParsePrefix(" +:+ cidr +:+ ")"))
  | Some subnet =>
      let mask := Bits subnet in
      let sized : outcome (Prefix * Z) :=
        if mask <? 64 then
          match Addr_Prefix (Prefix_Addr subnet) 64 with
          | None => Err (ErrNew "prefix length 64 too large")
          | Some subnet' => Ok (subnet', 80)
          end
        else if 123 <? mask then Err (ErrNew ("CIDRv6 is too small: " +:+ Prefix_String subnet))
        else if 117 <? mask then
          let mask := mask + 1 in
          let addresses := wrapu 64 (wrapu 64 (Z.shiftl 1 (128 - mask)) - 2) in
          if addresses <? wrapu 64 maxPods then
            Err (ErrNew ("CIDRv6 " +:+ Prefix_String subnet +:+ " is too small: pod subnet /" +:+ Uitoa mask +:+
                         " provides only " +:+ Uitoa addresses +:+ " addresses for " +:+ Uitoa maxPods +:+ " pods"))
          else Ok (subnet, mask)
        else if 111 <? mask then Ok (subnet, mask + 2)
        else if 105 <? mask then Ok (subnet, mask + 4)
        else if 99 <? mask then Ok (subnet, mask + 8)
        else Ok (subnet, mask + 16) in
      sm <- gof_outcome sized ;;
      let '(subnet, mask) := sm in
      let ip := Prefix_Addr (Masked subnet) in
      let net := mkIPNet (default [] (ParseIP (Addr_String ip))) (CIDRMask (Bits subnet) 128) in
      cidrSet <- gof_outcome (NewCIDRSet net mask) ;;
      let k := Masked subnet in
      r <- gget ;;
      match ca_cidrSets r !! k with
      | Some _ => gret tt
      | None => gmodify (λ r, with_sets r (<[k := cidrSet]> (ca_cidrSets r)))
      end
  end.

(** [for _, ip := range nodeIPs { ifaces, err = talos.GetNodeIfaces(...); if err
    == nil { break } }]: a failed call leaves no interfaces. *)
Fixpoint first_ifaces (nodeIPs : list Addr) : GoM cloudAllocator (list AddressStatusSpec) :=
  match nodeIPs with
  | [] => gret []
  | ip :: nodeIPs' => gcatch (GetNodeIfaces T (Addr_String ip)) (λ _, first_ifaces nodeIPs')
  end.

(** The first known public network that contains one of [subnets]. *)
Definition known_for (subnets : list IPNet) (keys : list Prefix) : option Prefix :=
  List.find (λ k,
    negb (Is4 (Prefix_Addr k) || IsPrivate (Prefix_Addr k)) &&
    existsb (λ subnet, match AddrFromSlice (ip_of subnet) with
                       | Some ip => Prefix_Contains k ip
                       | None => false
                       end) subnets) keys.

Definition defineNodeGlobalCIDRs (node : option Node) : GoM cloudAllocator string :=
  match node with
  | None => gfail (ErrNew "node is nil")
  | Some n =>
      nodeIPs <- gcatch (gof_outcome (GetNodeIPs node))
                        (λ e, gfail (ErrV ("failed to get IPs for node " +:+ Name n +:+ ": ") e)) ;;
      if (length nodeIPs =? 0)%nat then gfail (ErrNew "node has no addresses")
      else
        talosclient_New T ;;;
        ifaces <- first_ifaces nodeIPs ;;
        let ipv6 := filter (λ nodeIP, (Is6 nodeIP && negb (IsPrivate nodeIP)) = true) nodeIPs in
        let cidrs := (NodeCIDRDiscovery T ipv6 ifaces).2 in
        match cidrs with
        | [] => gret ""
        | first :: _ =>
            match ParseCIDRs K cidrs with
            | inl e => gfail e
            | inr subnets =>
                keys <- range_cidrSets ;;
                match known_for subnets keys with
                | Some k =>
                    gcatch (occupyNodeIPs ipv6)
                           (λ e, gfail (ErrV ("error to occupy node IPs in CIDRSet " +:+ Prefix_String k +:+ ": ") e)) ;;;
                    gret (Prefix_String k)
                | None =>
                    let maxPods := getNodeMaxPods node in
                    gforeach cidrs (λ cidr,
                      p <- gof_outcome (MustParsePrefix cidr) ;;
                      if Bits p =? 128 then gret tt
                      else gcatch (addCIDRSet cidr maxPods)
                                  (λ e, gfail (ErrV "error to add CIDRv6 to CIDRSet: " e))) ;;;
                    gcatch (occupyNodeIPs ipv6)
                           (λ e, gfail (ErrV "error to occupy node IPs in CIDRSet: " e)) ;;;
                    gret first
                end
            end
        end
  end.

Definition occupyPodCIDRs (node : Node) : GoM cloudAllocator unit :=
  if (length (PodCIDRs node) =? 0)%nat || (2 <? length (PodCIDRs node))%nat then gret tt
  else
    gforeach (PodCIDRs node) (λ cidr,
      match ParseCIDRSloppy K cidr with
      | inl _ => gfail (ErrNew ("failed to parse node " +:+ Name node +:+ ", CIDR " +:+ PodCIDR node))
      | inr podCIDR =>
          ok <- gcatch (occupyCIDR podCIDR)
                       (λ e, gfail (ErrV ("failed to mark cidr[" +:+ IPNet_String (Some podCIDR) +:+
                                          "] as occupied for node: " +:+ Name node +:+ ": ") e)) ;;
          if (ok : bool) then gret tt
          else
            gcatch (defineNodeGlobalCIDRs (Some node))
                   (λ e, gfail (ErrV ("failed to find a CIDRSet for node " +:+ Name node +:+
                                      ", CIDR " +:+ cidr +:+ ": ") e)) ;;;
            gret tt
      end).

Definition releaseCIDRs (addresses : list string) : GoM cloudAllocator unit :=
  gforeach addresses (λ cidr,
    match ParseCIDRSloppy K cidr with
    | inl e => gfail (ErrV ("failed to parse CIDR " +:+ cidr +:+ ": ") e)
    | inr podCIDR =>
        keys <- range_cidrSets ;;
        (* the address is parsed in the loop: never, when there are no sets *)
        match keys with
        | [] => gret tt
        | _ =>
            ip <- gof_outcome (MustParseAddr (IP_String (ip_of podCIDR))) ;;
            match key_for ip keys with
            | None => gret tt
            | Some k =>
                gcatch (on_key k (λ s, Release s (Some podCIDR)))
                       (λ e, gfail (ErrV ("error when releasing CIDR " +:+ cidr +:+ ": ") e))
            end
        end
    end).

(** Both release loops of [updateCIDRsAllocation]; a failure is only logged. *)
Definition release_each (allocatedCIDRs : list (option IPNet)) : GoM cloudAllocator unit :=
  gforeach allocatedCIDRs (λ cidr, gcatch (releaseCIDRs [IPNet_String cidr]) (λ _, gret tt)).

Definition updateCIDRsAllocation (nodeName : string) (allocatedCIDRs : list (option IPNet))
    : GoM cloudAllocator unit :=
  let cidrsString := ipnetToStringList allocatedCIDRs in
  node <- nodeLister_Get K nodeName ;;
  if (length (PodCIDRs node) =? length allocatedCIDRs)%nat &&
     bool_decide (PodCIDRs node = cidrsString) then gret tt
  else if negb (length (PodCIDRs node) =? 0)%nat then release_each allocatedCIDRs
  else
    res <- patch_attempts K cidrUpdateRetries None (Name node) cidrsString ;;
    match res with
    | None => gret tt
    | Some err =>
        RecordNodeStatusChange node "CIDRAssignmentFailed" ;;;
        (if IsServerTimeout K err then gret tt else release_each allocatedCIDRs) ;;;
        gfail err
    end.

(** The address that selects the set for a cluster CIDR. *)
Definition selecting_ip (cidr : IPNet) (globalCIDR : string) : outcome Addr :=
  let? ip := MustParseAddr (IP_String (ip_of cidr)) in
  if bool_decide (To4 (ip_of cidr) = None) && negb (bool_decide (globalCIDR = "")) then
    let? p := MustParsePrefix globalCIDR in Ok (Prefix_Addr p)
  else Ok ip.

(** The loop over [r.clusterCIDRs] of [AllocateOrOccupyCIDR]; a cluster CIDR that
    no set serves leaves a nil network. *)
Fixpoint allocate_each (node : Node) (globalCIDR : string) (idx : nat) (cidrs : list IPNet)
    : GoM cloudAllocator (list (option IPNet)) :=
  match cidrs with
  | [] => gret []
  | cidr :: cidrs' =>
      ip <- gof_outcome (selecting_ip cidr globalCIDR) ;;
      keys <- range_cidrSets ;;
      podCIDR <- match key_for ip keys with
                 | None => gret None
                 | Some k =>
                     p <- gcatch (on_key k AllocateNext) (λ e,
                       RecordNodeStatusChange node "CIDRNotAvailable" ;;;
                       gfail (ErrV ("failed to allocate cidr from cluster cidr at idx:" +:+
                                    Uitoa (Z.of_nat idx) +:+ ": ") e)) ;;
                     gret (Some p)
                 end ;;
      rest <- allocate_each node globalCIDR (S idx) cidrs' ;;
      gret (podCIDR :: rest)
  end.

Definition cloud_AllocateOrOccupyCIDR (node : option Node) : GoM cloudAllocator unit :=
  match node with
  | None => gret tt
  | Some n =>
      if (0 <? length (PodCIDRs n))%nat then occupyPodCIDRs n
      else
        globalCIDR <- defineNodeGlobalCIDRs node ;;
        r <- gget ;;
        allocatedCIDRs <- allocate_each n globalCIDR 0 (ca_clusterCIDRs r) ;;
        updateCIDRsAllocation (Name n) allocatedCIDRs
  end.

Definition cloud_ReleaseCIDR (node : option Node) : GoM cloudAllocator unit :=
  match node with
  | None => gret tt
  | Some node => if (length (PodCIDRs node) =? 0)%nat then gret tt else releaseCIDRs (PodCIDRs node)
  end.

Definition filterOutServiceRange (serviceCIDR : IPNet) : GoM cloudAllocator unit :=
  gcatch (occupyCIDR serviceCIDR ;;; gret tt) (λ _, gret tt).

Definition syncNode (key : string) : GoM cloudAllocator unit :=
  r <- gget ;;
  emit (ActGet key) ;;;
  match lister_Get K (trace r) key with
  | inl err => if IsNotFound K err then gret tt else gfail err
  | inr node =>
      if Deleting node then cloud_ReleaseCIDR (Some node)
      else if existsb (λ taint, MatchTaint K taint UninitializedTaint) (Taints node) then gret tt
      else cloud_AllocateOrOccupyCIDR (Some node)
  end.

Definition ErrSync (key : string) (err : error) : error :=
  ErrNew ("error syncing '" +:+ key +:+ "': " +:+ Error err +:+ ", requeuing").

(** The queue delivers a key, or [None] when it is shut down. *)
Definition processNextNodeWorkItem (item : option string) : GoM cloudAllocator bool :=
  match item with
  | None => gret false
  | Some obj =>
      gcatch (syncNode obj ;;;
              emit (ActQueueForget obj) ;;;
              emit (ActQueueDone obj) ;;;
              gret true)
             (λ err,
              emit (ActQueueAddRateLimited obj) ;;;
              emit (ActQueueDone obj) ;;;
              HandleError (ErrSync obj err) ;;;
              gret true)
  end.

(** *** Informer event handlers *)

Definition AddFunc (n : Node) : GoM cloudAllocator unit := emit (ActQueueAdd (Name n)).
Definition UpdateFunc (old new : Node) : GoM cloudAllocator unit := emit (ActQueueAdd (Name new)).

(** [obj.( *v1.Node)] panics on a tombstone. *)
Definition DeleteFunc (obj : deleted_object) : GoM cloudAllocator unit :=
  match obj with
  | ObjTombstone _ _ => gpanic
  | ObjNode n =>
      gcatch (cloud_ReleaseCIDR (Some n))
             (λ e, HandleError (ErrW "error while processing CIDR Release: " e)) ;;;
      emit (ActQueueAdd (Name n))
  end.

(** ** Construction *)

(** One set per cluster CIDR under its network, with the mask size of the same
    index; the last of equal networks stays. *)
Fixpoint make_set_map (cidrs : list IPNet) (sizes : list Z) (m : gmap Prefix CidrSet)
    : outcome (gmap Prefix CidrSet) :=
  match cidrs with
  | [] => Ok m
  | cidr :: cidrs' =>
      match sizes with
      | [] => Panic
      | size :: sizes' =>
          let? s := NewCIDRSet cidr size in
          let? k := MustParsePrefix (IPNet_String (Some cidr)) in
          make_set_map cidrs' sizes' (<[k := s]> m)
      end
  end.

Definition NewCIDRCloudAllocator (params : CIDRAllocatorParams) (nodeList : option (list Node))
    : outcome cloudAllocator :=
  let? sets := make_set_map (ClusterCIDRs params) (NodeCIDRMaskSizes params) ∅ in
  let ra := mkCloudAllocator (ClusterCIDRs params) sets [] 0 in
  let filter_service (c : option IPNet) : GoM cloudAllocator unit :=
    match c with Some cidr => filterOutServiceRange cidr | None => gret tt end in
  let init : GoM cloudAllocator unit :=
    filter_service (ServiceCIDR params) ;;;
    filter_service (SecondaryServiceCIDR params) ;;;
    match nodeList with
    | None => gret tt
    | Some items =>
        gforeach items (λ node,
          if (length (PodCIDRs node) =? 0)%nat then gret tt else occupyPodCIDRs node)
    end in
  let '(o, ra') := init ra in
  let? _ := o in
  Ok ra'.
End operations.

(** The interface, for an environment. *)
Definition cloudAllocator_CIDRAllocator (T : Talos) (order : nat → list Prefix → list Prefix)
    : CIDRAllocator cloudAllocator := {|
  AllocateOrOccupyCIDR K := cloud_AllocateOrOccupyCIDR K T order;
  ReleaseCIDR K := cloud_ReleaseCIDR K order |}.
