(* ===== verification/CloudAllocatorSpec.v ===== *)
(** * Lemmas about the cloud allocator

    Networks as map keys; the allocator's invariant and its preservation by every
    operation; what the addition of a discovered network does. *)

From S2P Require Import Prelude GoNet GoStrings NetIP NetIPRoundTrip CidrSet CidrSetGeometry CidrSetSpec.
From S2P Require Import Kube CidrAllocator NodeUtils TalosClient CloudAllocator.

Local Open Scope go_scope.

(** ** Networks as prefixes *)

Definition addr_of (f : family) (x : Z) : Addr := match f with V4 => Addr4 x | V6 => Addr6 x "" end.
Definition prefix_of (f : family) (a m : Z) : Prefix := mkPrefix (addr_of f a) m.

Lemma prefix_of_ok f a m : 0 ≤ m ≤ width f → 0 ≤ a < 2 ^ width f → prefix_ok (prefix_of f a m).
Proof. destruct f; intros Hm Ha; repeat split; cbn in *; lia || done. Qed.

Lemma prefix_of_inj f a m f' a' m' : prefix_of f a m = prefix_of f' a' m' → f = f' ∧ a = a' ∧ m = m'.
Proof. destruct f, f'; unfold prefix_of, addr_of; intros; simplify_eq; done. Qed.

Lemma Contains_prefix_of f a m x :
  canon f a m → Prefix_Contains (prefix_of f a m) (addr_of f x) = bool_decide (in_net f a m x).
Proof.
  intros [Hm Ha Hal _]. unfold Prefix_Contains, Prefix_IsValid. cbn [prefix_of Bits Prefix_Addr].
  rewrite (proj2 (Z.leb_le 0 m)) by lia. cbn [negb orb].
  replace (hasZone (addr_of f x)) with false by (by destruct f).
  assert (in_range x a (width f) m = bool_decide (in_net f a m x)) as <-; [|by destruct f].
  unfold in_range, in_net. apply eq_true_iff_eq. rewrite bool_decide_eq_true, Z.eqb_eq.
  rewrite <-div_pow2_interval by (done || lia). naive_solver.
Qed.

(** A key contains addresses of its own family only. *)
Lemma Contains_family f a m ip :
  Prefix_Contains (prefix_of f a m) ip = true → ∃ x, ip = addr_of f x.
Proof.
  unfold Prefix_Contains. destruct (negb _ || hasZone ip) eqn:E; [done|].
  apply orb_false_iff in E as [_ Hz]. destruct f, ip as [|x|x z]; cbn; try done; intros _; [by exists x|].
  cbn in Hz. apply negb_false_iff, bool_decide_eq_true in Hz. subst z. by exists x.
Qed.

Lemma AddrFromSlice_mk f x : 0 ≤ x < 2 ^ width f → AddrFromSlice (mk_ip f x) = Some (addr_of f x).
Proof.
  intros Hx. unfold AddrFromSlice. rewrite length_mk_ip, be_uint_mk_ip by done. by destruct f.
Qed.

Lemma MustParseAddr_mk f x :
  0 ≤ x < 2 ^ width f → plain f x → MustParseAddr (IP_String (mk_ip f x)) = Ok (addr_of f x).
Proof. intros Hx Hp. unfold MustParseAddr. by rewrite ParseAddr_IP_String. Qed.

Lemma MustParsePrefix_ok p : prefix_ok p → MustParsePrefix (Prefix_String p) = Ok p.
Proof. intros Hp. unfold MustParsePrefix. by rewrite ParsePrefix_String. Qed.

(** A canonical network prints as its prefix. *)
Lemma IP_String_addr f x : 0 ≤ x < 2 ^ width f → plain f x → IP_String (mk_ip f x) = Addr_String (addr_of f x).
Proof.
  intros Hx Hp. unfold IP_String. rewrite length_mk_ip. destruct f.
  - rewrite To4_v4. done.
  - rewrite To4_v6 by done. cbn [addr_of Addr_String Is4In6].
    rewrite (proj2 (Z.eqb_neq _ _) (Hp eq_refl)). cbn [nbytes Nat.eqb IPv6len].
    rewrite decide_True by done. by rewrite string_app_nil_r.
Qed.

Lemma IPNet_String_prefix f a m :
  canon f a m → IPNet_String (Some (mk_net f a m)) = Prefix_String (prefix_of f a m).
Proof.
  intros Hc. pose proof Hc as [Hm Ha Hal Hp]. unfold IPNet_String.
  rewrite networkNumberAndMask_mk by done.
  assert (simpleMaskLength (CIDRMask m (width f)) = Some m) as ->.
  { pose proof (Mask_Size_CIDRMask f m Hm) as E. unfold Mask_Size in E.
    destruct (simpleMaskLength _); [by simplify_eq|]. destruct f; by simplify_eq. }
  rewrite IP_String_addr by done. unfold Prefix_String, Prefix_IsValid. cbn [prefix_of Bits Prefix_Addr].
  by rewrite (proj2 (Z.leb_le 0 m)) by lia.
Qed.

(** ** Adding a discovered network *)

(** A global IPv6 network outside [::/64], the range of the unspecified, loopback
    and IPv4-embedding addresses. *)
Definition global_v6 (p : Prefix) : Prop :=
  prefix_ok p ∧ ∃ x, Prefix_Addr p = Addr6 x "" ∧ 2 ^ 64 ≤ x.

(** The key [addCIDRSet] files a network under: masked, and no larger than /64. *)
Definition segment (p : Prefix) : Prefix :=
  Masked (if Bits p <? 64 then default p (Addr_Prefix (Prefix_Addr p) 64) else p).
Definition segment_bits (b : Z) : Z := if b <? 64 then 64 else b.

(** The mask size of the pod networks in it. *)
Definition pod_bits (b : Z) : Z :=
  if b <? 64 then 80 else if 117 <? b then b + 1 else if 111 <? b then b + 2
  else if 105 <? b then b + 4 else if 99 <? b then b + 8 else b + 16.

Definition round_to (x k : Z) : Z := x / 2 ^ k * 2 ^ k.

Lemma Masked_prefix_of x m : 0 ≤ m ≤ 128 → Masked (prefix_of V6 x m) = prefix_of V6 (round_to x (128 - m)) m.
Proof.
  intros Hm. unfold Masked, prefix_of, addr_of. cbn [Prefix_Addr Bits]. unfold Addr_Prefix.
  rewrite (proj2 (Z.ltb_ge m 0)), (proj2 (Z.ltb_ge 128 m)) by lia. cbn [from_option id].
  unfold PrefixFrom. cbn [BitLen withoutZone]. rewrite (proj2 (Z.leb_le 0 m)), (proj2 (Z.leb_le m 128)) by lia.
  by rewrite bool_decide_false.
Qed.

Lemma segment_of x b : 0 ≤ b ≤ 128 →
  segment (prefix_of V6 x b) = prefix_of V6 (round_to x (128 - segment_bits b)) (segment_bits b).
Proof.
  intros Hb. unfold segment, segment_bits. cbn [prefix_of Bits Prefix_Addr].
  destruct (Z.ltb_spec b 64); [|by apply Masked_prefix_of].
  assert (Addr_Prefix (addr_of V6 x) 64 = Some (prefix_of V6 (round_to x 64) 64)) as -> by done.
  cbn [from_option id]. rewrite Masked_prefix_of by done. f_equal. unfold round_to.
  change (128 - 64) with 64. by rewrite Z.div_mul.
Qed.

(** The network of a segment, all of it in the range of [x]. *)
Lemma round_to_canon x m :
  0 ≤ x < 2 ^ 128 → 2 ^ 64 ≤ x → 64 ≤ m ≤ 128 →
  canon V6 (round_to x (128 - m)) m ∧ in_net V6 (round_to x (128 - m)) m x ∧
  ∀ y, in_net V6 (round_to x (128 - m)) m y → plain V6 y.
Proof.
  intros Hx Hlow Hm. unfold round_to, in_net. cbn [width]. set (k := 128 - m).
  pose proof (pow2_pos k ltac:(lia)) as Hk. pose proof (Z.div_mod x (2 ^ k) ltac:(lia)) as Hd.
  pose proof (Z.mod_pos_bound x (2 ^ k) ltac:(lia)) as Hr.
  assert (2 ^ 64 ≤ x / 2 ^ k * 2 ^ k) as Hbase.
  { replace (2 ^ 64) with (2 ^ (64 - k) * 2 ^ k) by (rewrite <-Z.pow_add_r by lia; f_equal; lia).
    apply Z.mul_le_mono_nonneg_r; [lia|]. apply Z.div_le_lower_bound; [lia|].
    rewrite Z.mul_comm, <-Z.pow_add_r by lia. replace (64 - k + k) with 64 by lia. done. }
  assert (∀ y, 2 ^ 64 ≤ y → plain V6 y) as Hplain.
  { intros y Hy _ E. pose proof (Z.div_mod y (2 ^ 32) ltac:(lia)).
    pose proof (Z.mod_pos_bound y (2 ^ 32) ltac:(lia)). lia. }
  split_and!; [split; cbn [width]| | |].
  - lia.
  - lia.
  - apply Z.mod_mul. lia.
  - by apply Hplain.
  - lia.
  - lia.
  - intros y Hy. apply Hplain. lia.
Qed.

Section add_set.
Context (p : Prefix) (maxPods : Z) (r : cloudAllocator).
Context (Hp : global_v6 p).

(** The state after a set for [segment p] was added, unless there was one. *)
Definition with_segment (s : CidrSet) : cloudAllocator :=
  match ca_cidrSets r !! segment p with
  | Some _ => r
  | None => with_sets r (<[segment p := s]> (ca_cidrSets r))
  end.

(** The set [addCIDRSet] makes. *)
Definition fresh_segment (s : CidrSet) : Prop :=
  ∃ c x, Prefix_Addr p = addr_of V6 x ∧ segment p = prefix_of V6 c (segment_bits (Bits p)) ∧
    in_net V6 c (segment_bits (Bits p)) x ∧ wf V6 c s ∧ used s = 0 ∧ nextCandidate s = 0 ∧
    clusterMaskSize s = segment_bits (Bits p) ∧ nodeMaskSize s = pod_bits (Bits p).

Lemma addCIDRSet_too_small : 123 < Bits p → ∃ e, addCIDRSet (Prefix_String p) maxPods r = (Err e, r).
Proof.
  intros Hb. unfold addCIDRSet. rewrite ParsePrefix_String by apply Hp.
  rewrite (proj2 (Z.ltb_ge (Bits p) 64)), (proj2 (Z.ltb_lt 123 (Bits p))) by lia. by eexists.
Qed.

(** Addresses of a pod network of [127 - b] host bits, as the code counts them. *)
Lemma pod_addresses b : 117 < b ≤ 123 →
  wrapu 64 (wrapu 64 (Z.shiftl 1 (128 - (b + 1))) - 2) = 2 ^ (127 - b) - 2.
Proof.
  intros Hb. assert (b = 118 ∨ b = 119 ∨ b = 120 ∨ b = 121 ∨ b = 122 ∨ b = 123) as H by lia.
  by destruct H as [->|[->|[->|[->|[->| ->]]]]].
Qed.

Lemma addCIDRSet_too_few :
  117 < Bits p ≤ 123 → 2 ^ (127 - Bits p) - 2 < wrapu 64 maxPods →
  ∃ e, addCIDRSet (Prefix_String p) maxPods r = (Err e, r).
Proof.
  intros Hb Hm. unfold addCIDRSet. rewrite ParsePrefix_String by apply Hp.
  rewrite (proj2 (Z.ltb_ge (Bits p) 64)), (proj2 (Z.ltb_ge 123 (Bits p))), (proj2 (Z.ltb_lt 117 (Bits p))) by lia.
  rewrite pod_addresses by lia. rewrite (proj2 (Z.ltb_lt _ _) Hm). by eexists.
Qed.

Lemma addCIDRSet_adds :
  Bits p ≤ 123 → (117 < Bits p → wrapu 64 maxPods ≤ 2 ^ (127 - Bits p) - 2) →
  ∃ s, fresh_segment s ∧ addCIDRSet (Prefix_String p) maxPods r = (Ok tt, with_segment s).
Proof.
  intros Hb Henough. destruct Hp as [Hok (x & Ex & Hx)]. pose proof Hok as (Ha & _ & Hbits).
  assert (p = prefix_of V6 x (Bits p)) as Ep by (destruct p; cbn in *; by subst).
  assert (0 ≤ x < 2 ^ 128) as Hrange by (by rewrite Ex in Ha).
  rewrite Ex in Hbits. cbn [BitLen] in Hbits. clear Ha. set (b := Bits p) in *.
  set (m := segment_bits b). assert (64 ≤ m ≤ 128 ∧ b ≤ m) as [Hm Hbm].
  { subst m. unfold segment_bits. destruct (Z.ltb_spec b 64); lia. }
  destruct (round_to_canon x m Hrange Hx Hm) as (Hc & Hin & Hplain).
  set (c := round_to x (128 - m)) in *.
  assert (segment p = prefix_of V6 c m) as Eseg by (by rewrite Ep, segment_of).
  assert (m < pod_bits b ≤ 128 ∧ pod_bits b - m ≤ 16) as [Hpm Hdiff].
  { subst m. unfold segment_bits, pod_bits.
    repeat match goal with |- context [?a <? ?b'] => destruct (Z.ltb_spec a b') end; lia. }
  destruct (NewCIDRSet_ok V6 c m (pod_bits b)) as (s & Es & Hw & Hu & Hcm & Hnm & Hn); [done|cbn; lia|lia|done|done|].
  exists s. split.
  { exists c, x. rewrite Ex. split_and!; try done. }
  unfold addCIDRSet. rewrite ParsePrefix_String by done. fold b.
  match goal with |- gbind (gof_outcome ?o) _ _ = _ =>
    assert (∃ q, o = Ok (q, pod_bits b) ∧ Masked q = prefix_of V6 c m ∧ Bits q = m) as (q & -> & Eq & Ebq) end.
  { rewrite Ex. unfold pod_bits. destruct (Z.ltb_spec b 64) as [Hlt|Hge].
    - exists (prefix_of V6 (round_to x 64) 64). split; [done|]. rewrite <-Eseg. unfold segment. fold b.
      rewrite (proj2 (Z.ltb_lt _ _) Hlt), Ex. split; [done|]. subst m. unfold segment_bits.
      by rewrite (proj2 (Z.ltb_lt _ _) Hlt).
    - exists p. rewrite (proj2 (Z.ltb_ge 123 b)) by lia. split; [|split].
      + destruct (Z.ltb_spec 117 b) as [H117|H117].
        * rewrite pod_addresses by lia.
          rewrite (proj2 (Z.ltb_ge _ _)); [done|]. by apply Henough.
        * repeat case_match; done.
      + rewrite <-Eseg. unfold segment. fold b. by rewrite (proj2 (Z.ltb_ge _ _) Hge).
      + subst m. unfold segment_bits. by rewrite (proj2 (Z.ltb_ge _ _) Hge). }
  unfold gbind, gof_outcome. rewrite Eq, Ebq. cbn [prefix_of Prefix_Addr].
  change (addr_of V6 c) with (Addr6 c ""). rewrite ParseIP_String by apply Hc. cbn [from_option id].
  change (mkIPNet (mk_ip V6 c) (CIDRMask m 128)) with (mk_net V6 c m). rewrite Es. cbn [gget].
  unfold with_segment. rewrite Eseg. by destruct (ca_cidrSets r !! prefix_of V6 c m).
Qed.
End add_set.

(** ** Invariant *)

(** The set under key [k] splits the network [k]. *)
Definition keyed (k : Prefix) (s : CidrSet) : Prop :=
  ∃ f c, k = prefix_of f c (clusterMaskSize s) ∧ wf f c s.

(** [U] are the networks that may become keys. *)
Record ca_ok (U : Prefix → Prop) (r : cloudAllocator) : Prop := {
  ca_sets : map_Forall (λ k s, U k ∧ keyed k s) (ca_cidrSets r);
  ca_clusters : Forall (λ n, ∃ f a m, n = mk_net f a m ∧ canon f a m) (ca_clusterCIDRs r) }.

(** Every operation keeps the allocator in order, the configuration of every set
    and the cluster CIDRs; sets are never removed, the trace only grows. *)
Definition ca_evolves (U : Prefix → Prop) (r r' : cloudAllocator) : Prop :=
  ca_ok U r →
  ca_ok U r' ∧ ca_clusterCIDRs r' = ca_clusterCIDRs r ∧
  (∀ k s, ca_cidrSets r !! k = Some s → ∃ s', ca_cidrSets r' !! k = Some s' ∧ config s' = config s) ∧
  ca_actions r `suffix_of` ca_actions r'.

#[export] Instance ca_evolves_preorder U : PreOrder (ca_evolves U).
Proof.
  split; [intros r; unfold ca_evolves; naive_solver|]. intros r1 r2 r3 H12 H23 H1.
  destruct (H12 H1) as (H2 & C2 & S2 & A2). destruct (H23 H2) as (H3 & C3 & S3 & A3).
  split_and!; [done|congruence| |by etransitivity].
  intros k s Hk. destruct (S2 k s Hk) as (s2 & Hk2 & E2). destruct (S3 k s2 Hk2) as (s3 & Hk3 & E3).
  exists s3. split; [done|congruence].
Qed.

Section steps.
Context (U : Prefix → Prop) (order : nat → list Prefix → list Prefix).

Lemma on_key_steps {A} k (op : CidrSet → outcome A * CidrSet) :
  set_op_safe op → gsteps (ca_evolves U) (on_key k op).
Proof.
  intros Hop r Hr. pose proof Hr as [Hs Hc]. unfold on_key.
  destruct (ca_cidrSets r !! k) as [s|] eqn:Es; [|unfold ca_evolves in *; naive_solver].
  destruct (Hs k s Es) as (HU & f & c & -> & Hw). pose proof (Hop f c s Hw) as [Hw' Hcfg].
  destruct (op s) as [o s']. cbn in *. split_and!; [split|done| |done]; cbn.
  - apply map_Forall_insert_2; [|done]. split; [done|]. exists f, c.
    by rewrite (config_clusterMaskSize _ _ Hcfg).
  - done.
  - intros k' s1 Hk'. destruct (decide (k' = prefix_of f c (clusterMaskSize s))) as [->|Hne].
    + rewrite lookup_insert_eq. exists s'. split; [done|congruence].
    + rewrite lookup_insert_ne by done. by exists s1.
Qed.

Lemma range_steps : gsteps (ca_evolves U) (range_cidrSets order).
Proof. intros r [Hs Hc]. split_and!; [by split|done|by eauto|done]. Qed.

Lemma emit_cloud_steps a : gsteps (ca_evolves U) (emit (S := cloudAllocator) a).
Proof. intros r [Hs Hc]. split_and!; [by split|done|by eauto|by apply suffix_cons_r]. Qed.

Lemma addCIDRSet_steps p maxPods :
  global_v6 p → (Bits p ≤ 123 → U (segment p)) →
  gsteps (ca_evolves U) (addCIDRSet (Prefix_String p) maxPods).
Proof.
  intros Hp HU r. destruct (Z.lt_ge_cases 123 (Bits p)) as [H123|H123].
  { destruct (addCIDRSet_too_small p maxPods r Hp H123) as (e & ->). cbn [snd]. reflexivity. }
  destruct (decide (117 < Bits p ∧ 2 ^ (127 - Bits p) - 2 < wrapu 64 maxPods)) as [[H1 H2]|Hn].
  { destruct (addCIDRSet_too_few p maxPods r Hp (conj H1 H123) H2) as (e & ->). cbn [snd]. reflexivity. }
  destruct (addCIDRSet_adds p maxPods r Hp H123) as (s & (c & x & _ & Eseg & _ & Hw & _ & _ & Hcm & _) & ->).
  { intros H1. apply Z.nlt_ge. intros H2. by apply Hn. }
  cbn [snd]. unfold with_segment. destruct (ca_cidrSets r !! segment p) eqn:Es; [reflexivity|].
  intros [Hs Hc]. split_and!; [split|done| |done]; cbn.
  - apply map_Forall_insert_2; [|done]. split; [by apply HU|]. exists V6, c. by rewrite Hcm.
  - done.
  - intros k s' Hk. exists s'. split; [|done]. rewrite lookup_insert_ne; [done|]. congruence.
Qed.
End steps.

#[export] Hint Resolve on_key_steps range_steps emit_cloud_steps : go_steps.

(** ** The environment *)

(** What Talos reports: well-formed addresses; a global IPv6 address is not one of
    [::/64], and its network may become a key. *)
Record TalosLaws (U : Prefix → Prop) (T : Talos) : Prop := {
  ifaces_ok : ∀ past ip l, talos_GetNodeIfaces T past ip = inr l → Forall (λ i, prefix_ok (Address i)) l;
  ifaces_global : ∀ past ip l i, talos_GetNodeIfaces T past ip = inr l → i ∈ l →
    let a := Prefix_Addr (Address i) in
    Is6 a = true → IsGlobalUnicast a = true → IsPrivate a = false →
    global_v6 (Address i) ∧ (Bits (Address i) ≤ 123 → U (segment (Address i))) }.

(** Any network may become a key. *)
Definition anywhere (k : Prefix) : Prop := True.

Lemma ca_ok_anywhere U r : ca_ok U r → ca_ok anywhere r.
Proof. intros [Hs Hc]. split; [|done]. eapply map_Forall_impl; [exact Hs|]. by intros k s' [_ ?]. Qed.
Lemma TalosLaws_anywhere U T : TalosLaws U T → TalosLaws anywhere T.
Proof. intros [Ho Hg]. split; [exact Ho|]. intros past ip l i El Hi a H6 Hgl Hp. by destruct (Hg past ip l i El Hi H6 Hgl Hp). Qed.

Section operations_evolve.
Context (K : Kube) (T : Talos) (order : nat → list Prefix → list Prefix) (U : Prefix → Prop).
Context (HT : TalosLaws U T).
Notation evolve := (gsteps (ca_evolves U)).

Lemma occupyCIDR_steps n : evolve (occupyCIDR order n).
Proof. unfold occupyCIDR. go_steps. Qed.

Lemma occupyNodeIPs_steps l : evolve (occupyNodeIPs order l).
Proof. unfold occupyNodeIPs. pose proof occupyCIDR_steps. go_steps. Qed.

Lemma releaseCIDRs_steps l : evolve (releaseCIDRs K order l).
Proof. unfold releaseCIDRs. go_steps. Qed.

Lemma release_each_steps l : evolve (release_each K order l).
Proof. unfold release_each. pose proof releaseCIDRs_steps. go_steps. Qed.

Lemma talosclient_New_steps : evolve (talosclient_New T).
Proof. unfold talosclient_New. go_steps. Qed.

Lemma GetNodeIfaces_steps ip : evolve (GetNodeIfaces T ip).
Proof. unfold GetNodeIfaces. go_steps. Qed.

Lemma first_ifaces_steps l : evolve (first_ifaces T l).
Proof.
  pose proof GetNodeIfaces_steps. induction l; cbn [first_ifaces]; go_steps.
Qed.

(** What discovery can find on a node. *)
Definition discovered (cidr : string) : Prop :=
  ∃ p, cidr = Prefix_String p ∧ global_v6 p ∧ (Bits p ≤ 123 → U (segment p)).

Definition reported (ifaces : list AddressStatusSpec) : Prop :=
  ifaces = [] ∨ ∃ past ip, talos_GetNodeIfaces T past ip = inr ifaces.

Lemma first_ifaces_reported l r ifaces r' : first_ifaces T l r = (Ok ifaces, r') → reported ifaces.
Proof.
  revert r. induction l as [|ip l IH]; intros r; cbn [first_ifaces]; [intros [= <- <-]; by left|].
  unfold gcatch, GetNodeIfaces, gbind. cbn [gget]. change (emit ?a r) with (@Ok unit tt, add_action a r).
  destruct (talos_GetNodeIfaces T (trace r) (Addr_String ip)) as [e|i] eqn:E; cbn [gfail gret]; [apply IH|].
  intros [= <- <-]. right. by eexists _, _.
Qed.

Lemma discovery_found filterIPs ifaces :
  reported ifaces → Forall discovered (NodeCIDRDiscovery T filterIPs ifaces).2.
Proof.
  intros Hrep. destruct (discovery_entries T filterIPs ifaces) as (l & -> & _ & _ & Hl).
  apply Forall_forall. intros cidr (p & <- & Hp%list_elem_of_In)%list_elem_of_In%in_map_iff.
  apply list_elem_of_filter in Hp as [_ Hp]. apply Hl in Hp as (i & Hi & Hpub & ->).
  destruct Hpub as (_ & _ & _ & _ & _ & Hg & Hpr & H6 & _).
  destruct Hrep as [->|(past & ip & E)]; [by apply elem_of_nil in Hi|].
  destruct (ifaces_global U T HT past ip ifaces i E Hi H6 Hg Hpr). by exists (Address i).
Qed.

(** The part of [defineNodeGlobalCIDRs] after discovery. *)
Definition use_cidrs (node : Node) (ipv6 : list Addr) (cidrs : list string) : GoM cloudAllocator string :=
  match cidrs with
  | [] => gret ""
  | first :: _ =>
      match ParseCIDRs K cidrs with
      | inl e => gfail e
      | inr subnets =>
          keys <- range_cidrSets order ;;
          match known_for subnets keys with
          | Some k =>
              gcatch (occupyNodeIPs order ipv6)
                     (λ e, gfail (ErrV ("error to occupy node IPs in CIDRSet " +:+ Prefix_String k +:+ ": ") e)) ;;;
              gret (Prefix_String k)
          | None =>
              gforeach cidrs (λ cidr,
                p <- gof_outcome (MustParsePrefix cidr) ;;
                if Bits p =? 128 then gret tt
                else gcatch (addCIDRSet cidr (getNodeMaxPods (Some node)))
                            (λ e, gfail (ErrV "error to add CIDRv6 to CIDRSet: " e))) ;;;
              gcatch (occupyNodeIPs order ipv6)
                     (λ e, gfail (ErrV "error to occupy node IPs in CIDRSet: " e)) ;;;
              gret first
          end
      end
  end.

Definition public_ips (nodeIPs : list Addr) : list Addr :=
  filter (λ nodeIP, (Is6 nodeIP && negb (IsPrivate nodeIP)) = true) nodeIPs.

Lemma defineNodeGlobalCIDRs_unfold node :
  defineNodeGlobalCIDRs K T order (Some node) =
    (nodeIPs <- gcatch (gof_outcome (GetNodeIPs (Some node)))
                       (λ e, gfail (ErrV ("failed to get IPs for node " +:+ Name node +:+ ": ") e)) ;;
     if (length nodeIPs =? 0)%nat then gfail (ErrNew "node has no addresses")
     else
       talosclient_New T ;;;
       ifaces <- first_ifaces T nodeIPs ;;
       use_cidrs node (public_ips nodeIPs) (NodeCIDRDiscovery T (public_ips nodeIPs) ifaces).2).
Proof. done. Qed.

Lemma use_cidrs_steps node ipv6 cidrs : Forall discovered cidrs → evolve (use_cidrs node ipv6 cidrs).
Proof.
  intros Hd. unfold use_cidrs. pose proof occupyNodeIPs_steps. destruct cidrs as [|first rest]; [go_steps|].
  destruct (ParseCIDRs K (first :: rest)); [go_steps|].
  apply gsteps_bind; [exact _|apply range_steps|intros keys]. destruct (known_for _ keys); [go_steps|].
  apply gsteps_bind; [exact _| |go_steps]. apply gsteps_foreach_elem; [exact _|].
  eapply Forall_impl; [exact Hd|]. cbn. intros cidr (p & -> & Hp & HU).
  pose proof (addCIDRSet_steps U p (getNodeMaxPods (Some node)) Hp HU). go_steps.
Qed.

Lemma defineNodeGlobalCIDRs_steps node : evolve (defineNodeGlobalCIDRs K T order node).
Proof.
  destruct node as [node|]; [|cbn [defineNodeGlobalCIDRs]; go_steps]. rewrite defineNodeGlobalCIDRs_unfold.
  apply gsteps_bind; [exact _|go_steps|intros nodeIPs]. destruct (_ =? _)%nat; [go_steps|].
  apply gsteps_bind; [exact _|apply talosclient_New_steps|intros _].
  apply gsteps_bind_result; [exact _|apply first_ifaces_steps|]. intros ifaces r r' E.
  apply use_cidrs_steps, discovery_found. exact (first_ifaces_reported nodeIPs r ifaces r' E).
Qed.

Lemma occupyPodCIDRs_steps node : evolve (occupyPodCIDRs K T order node).
Proof.
  unfold occupyPodCIDRs. pose proof occupyCIDR_steps. pose proof defineNodeGlobalCIDRs_steps. go_steps.
Qed.

Lemma cloud_patch_attempts_steps k err node cidrs :
  evolve (patch_attempts (S := cloudAllocator) K k err node cidrs).
Proof.
  revert err. induction k as [|k IH]; intros err; cbn [patch_attempts]; [go_steps|].
  apply gsteps_catch; [exact _| |intros; apply IH]. unfold PatchNodeCIDRs. go_steps.
Qed.

Lemma cloud_update_steps name l : evolve (updateCIDRsAllocation K order name l).
Proof.
  unfold updateCIDRsAllocation, RecordNodeStatusChange, nodeLister_Get.
  pose proof cloud_patch_attempts_steps. pose proof release_each_steps. go_steps.
Qed.

Lemma cloud_allocate_each_steps node g idx cidrs : evolve (allocate_each order node g idx cidrs).
Proof.
  revert idx. induction cidrs as [|cidr cidrs IH]; intros idx; cbn [allocate_each];
    unfold RecordNodeStatusChange; go_steps.
Qed.

Lemma cloud_AllocateOrOccupyCIDR_steps node : evolve (cloud_AllocateOrOccupyCIDR K T order node).
Proof.
  unfold cloud_AllocateOrOccupyCIDR. pose proof occupyPodCIDRs_steps.
  pose proof defineNodeGlobalCIDRs_steps. pose proof cloud_allocate_each_steps.
  pose proof cloud_update_steps. go_steps.
Qed.

Lemma cloud_ReleaseCIDR_steps node : evolve (cloud_ReleaseCIDR K order node).
Proof. unfold cloud_ReleaseCIDR. pose proof releaseCIDRs_steps. go_steps. Qed.

Lemma cloud_syncNode_steps key : evolve (syncNode K T order key).
Proof.
  unfold syncNode. pose proof cloud_ReleaseCIDR_steps. pose proof cloud_AllocateOrOccupyCIDR_steps. go_steps.
Qed.

Lemma cloud_worker_steps item : evolve (processNextNodeWorkItem K T order item).
Proof. unfold processNextNodeWorkItem, HandleError. pose proof cloud_syncNode_steps. go_steps. Qed.
End operations_evolve.
