(* ===== verification/CloudAllocatorSafety.v ===== *)
(** * The cloud allocator does not panic

    Every key a loop visits is in the map, every text the code insists on parsing
    was printed from an address or a prefix, and [PatchNodeCIDRs] gets at least
    one network. *)

From S2P Require Import Prelude GoNet GoStrings NetIP NetIPRoundTrip CidrSet CidrSetGeometry CidrSetSpec.
From S2P Require Import Kube CidrAllocator NodeUtils TalosClient CloudAllocator CloudAllocatorSpec.

Local Open Scope go_scope.

(** ** Parsing of networks *)

(** Documented behaviour of [k8s.io/utils/net]: [ParseCIDRSloppy] returns a network
    (an address and a mask of leading ones, both of the family's length); it reads
    [address/bits] as the network of the address; it refuses what is no CIDR;
    [ParseCIDRs] parses each of a list. *)
Record CIDRLaws (K : Kube) : Prop := {
  parse_net : ∀ s n, ParseCIDRSloppy K s = inr n →
    ∃ f a m, n = mk_net f a m ∧ 0 ≤ m ≤ width f ∧ 0 ≤ a < 2 ^ width f;
  parse_prefix : ∀ f x m, 0 ≤ m ≤ width f → 0 ≤ x < 2 ^ width f → plain f x →
    ParseCIDRSloppy K (Prefix_String (prefix_of f x m)) = inr (mk_net f (round_to x (width f - m)) m);
  parse_nil : ∃ e, ParseCIDRSloppy K "<nil>" = inl e;
  parse_all : ∀ l ns, ParseCIDRs K l = inr ns → Forall2 (λ s n, ParseCIDRSloppy K s = inr n) l ns }.

Lemma MustParseAddr_total f x :
  0 ≤ x < 2 ^ width f → ∃ a, MustParseAddr (IP_String (mk_ip f x)) = Ok a.
Proof.
  intros Hx. destruct (decide (plain f x)) as [Hp|Hp]; [by rewrite MustParseAddr_mk; eauto|].
  destruct f; [by contradict Hp|]. unfold plain in Hp.
  assert (x / 2 ^ 32 = 65535) as Em by (destruct (decide (x / 2 ^ 32 = 65535)); naive_solver).
  unfold MustParseAddr, IP_String. rewrite length_mk_ip. cbn [nbytes IPv6len Nat.eqb].
  unfold To4. rewrite length_mk_ip, decide_False by done. rewrite decide_True by (by rewrite mapped_prefix).
  unfold mk_ip, nbytes, IPv6len. rewrite drop_be_bytes by lia. change (16 - 12)%nat with 4%nat.
  rewrite <-(be_bytes_mod 4 x). change (8 * Z.of_nat 4) with 32.
  fold (print4 (x `mod` 2 ^ 32)). rewrite ParseAddr_print4; [by eexists|]. apply Z.mod_pos_bound. lia.
Qed.

(** A network printed as a prefix comes back. *)
Lemma parse_canon K f a m :
  CIDRLaws K → canon f a m → ParseCIDRSloppy K (IPNet_String (Some (mk_net f a m))) = inr (mk_net f a m).
Proof.
  intros HK Hc. rewrite IPNet_String_prefix by done. destruct Hc as [Hm Ha Hal Hp].
  rewrite (parse_prefix K HK) by done. do 2 f_equal. unfold round_to.
  pose proof (pow2_pos (width f - m) ltac:(lia)).
  pose proof (Z.div_mod a (2 ^ (width f - m)) ltac:(lia)). lia.
Qed.

Lemma parse_sized_net K s n : CIDRLaws K → ParseCIDRSloppy K s = inr n → sized n.
Proof. intros HK (f & a & m & -> & Hm & _)%(parse_net K HK). by apply sized_mk_net. Qed.

(** ** Loops over the map *)

Definition order_ok (order : nat → list Prefix → list Prefix) : Prop := ∀ i l, order i l ≡ₚ l.

Section loops.
Context (U : Prefix → Prop) (order : nat → list Prefix → list Prefix) (Ho : order_ok order).

(** The allocator is in order and has all of [keys]. *)
Definition has_keys (keys : list Prefix) (r : cloudAllocator) : Prop :=
  ca_ok U r ∧ ∀ k, k ∈ keys → is_Some (ca_cidrSets r !! k).

Lemma has_keys_lift {A} keys (m : GoM cloudAllocator A) :
  gsteps (ca_evolves U) m → gok (ca_ok U) m → gok (has_keys keys) m.
Proof.
  intros Hs Hm r [Hr Hk]. destruct (Hm r Hr) as [Hp Hr']. split; [done|]. split; [done|].
  intros k [s Es]%Hk. destruct (Hs r Hr) as (_ & _ & H & _). destruct (H k s Es) as (s' & ? & _). by exists s'.
Qed.

Lemma range_keys r k : k ∈ order (ca_loops r) (map_to_list (ca_cidrSets r)).*1 ↔ is_Some (ca_cidrSets r !! k).
Proof.
  rewrite (Ho (ca_loops r)), list_elem_of_fmap. split.
  - intros ([k' s] & -> & H%elem_of_map_to_list). by exists s.
  - intros [s Hs]. exists (k, s). split; [done|]. by apply elem_of_map_to_list.
Qed.

Lemma range_ok {B} (body : list Prefix → GoM cloudAllocator B) :
  (∀ keys, gok (has_keys keys) (body keys)) → gok (ca_ok U) (gbind (range_cidrSets order) body).
Proof.
  intros Hb r Hr. unfold gbind, range_cidrSets. set (keys := order _ _).
  set (r1 := mkCloudAllocator _ _ _ _).
  assert (has_keys keys r1) as H1.
  { split; [by destruct Hr; split|]. intros k Hk. by apply (range_keys r). }
  destruct (Hb keys r1 H1) as [Hp [Hi _]]. exact (conj Hp Hi).
Qed.

Lemma on_key_ok {A} keys k (op : CidrSet → outcome A * CidrSet) :
  k ∈ keys → set_op_safe op → set_op_total op → gok (has_keys keys) (on_key k op).
Proof.
  intros Hk Hsafe Htot r [Hr Hkeys]. pose proof (on_key_steps U k op Hsafe r Hr) as (Hr' & _ & Hst & _).
  destruct (Hkeys k Hk) as [s Es]. destruct (ca_sets _ _ Hr k s Es) as (_ & f & c & _ & Hw).
  pose proof (Htot f c s Hw) as Hp. unfold on_key in *. rewrite Es in *. destruct (op s) as [o s'].
  split; [done|]. split; [done|]. intros k' [s1 E1]%Hkeys. destruct (Hst k' s1 E1) as (s2 & ? & _). by exists s2.
Qed.

Lemma emit_cloud_ok keys a : gok (has_keys keys) (emit (S := cloudAllocator) a).
Proof. intros r [[Hs Hc] Hk]. split; [done|]. by split; [split|]. Qed.

Lemma emit_cloud_ok' a : gok (ca_ok U) (emit (S := cloudAllocator) a).
Proof. intros r [Hs Hc]. split; [done|by split]. Qed.

Lemma key_for_elem ip keys k : key_for ip keys = Some k → k ∈ keys ∧ Prefix_Contains k ip = true.
Proof. intros [H1 H2]%find_some. split; [by apply list_elem_of_In|done]. Qed.
End loops.

#[export] Hint Resolve emit_cloud_ok emit_cloud_ok' : go_ok.

(** ** Operations *)

Section operations_ok.
Context (K : Kube) (HK : KubeLaws K) (HC : CIDRLaws K) (T : Talos) (U : Prefix → Prop) (HT : TalosLaws U T).
Context (order : nat → list Prefix → list Prefix) (Ho : order_ok order).
Notation safe := (gok (ca_ok U)).

Lemma occupyCIDR_ok n : sized n → safe (occupyCIDR order n).
Proof.
  intros Hn. unfold occupyCIDR. apply range_ok; [done|intros keys].
  destruct (key_for _ keys) as [k|] eqn:Ek; [|go_ok]. apply key_for_elem in Ek as [Hk _].
  apply gok_bind; [|go_ok]. apply gok_catch; [|go_ok]. apply on_key_ok; auto with go_ok.
Qed.

Lemma occupyNodeIPs_ok l : safe (occupyNodeIPs order l).
Proof.
  unfold occupyNodeIPs. apply gok_foreach. intros a. destruct (negb (Is6 a) || IsPrivate a); [go_ok|].
  destruct (ParseIP (Addr_String a)) as [ip|] eqn:Eip; [|go_ok]. apply gok_bind; [|go_ok].
  apply occupyCIDR_ok. right. cbn [ip_of mask_of]. split; [|done]. revert Eip. unfold ParseIP.
  repeat case_match; intros; simplify_eq; by rewrite ?length_app, length_be_bytes.
Qed.

Lemma releaseCIDRs_ok l : safe (releaseCIDRs K order l).
Proof.
  unfold releaseCIDRs. apply gok_foreach. intros cidr.
  destruct (ParseCIDRSloppy K cidr) as [e|n] eqn:En; [go_ok|].
  apply range_ok; [done|intros keys]. destruct keys as [|k0 keys]; [go_ok|].
  apply (parse_net K HC) in En as (f & a & m & -> & Hm & Ha). cbn [mk_net ip_of].
  destruct (MustParseAddr_total f a Ha) as (ip & ->).
  apply gok_bind; [by intros r Hr|intros ip'].
  destruct (key_for ip' (k0 :: keys)) as [k|] eqn:Ek; [|go_ok]. apply key_for_elem in Ek as [Hk _].
  apply gok_catch; [|go_ok]. apply on_key_ok; auto with go_ok.
  apply Release_total. by apply (sized_mk_net f a m).
Qed.

Lemma release_each_ok l : safe (release_each K order l).
Proof. unfold release_each. pose proof releaseCIDRs_ok. go_ok. Qed.

Lemma of_outcome_ok {A} (I : cloudAllocator → Prop) (o : outcome A) : o ≠ Panic → gok I (gof_outcome o).
Proof. by intros Ho' r Hr. Qed.

Lemma GetNodeIPs_no_panic node : GetNodeIPs node ≠ Panic.
Proof.
  unfold GetNodeIPs. destruct node as [node|]; [|done].
  assert (∀ l acc, status_ips l acc ≠ Panic) as Hst.
  { induction l as [|v l IH]; intros acc; cbn; [done|]. repeat case_match; done || apply IH. }
  assert (∀ l acc, provided_ips l acc ≠ Panic) as Hpr.
  { induction l as [|v l IH]; intros acc; cbn; [done|]. repeat case_match; done || apply IH. }
  specialize (Hst (Addresses node) []). destruct (status_ips (Addresses node) []); cbn; [apply Hpr|done..].
Qed.

Lemma first_ifaces_ok l : safe (first_ifaces T l).
Proof.
  induction l as [|ip l IH]; cbn [first_ifaces]; [go_ok|]. unfold GetNodeIfaces. go_ok.
Qed.

(** [addCIDRSet] never panics, on any text. *)
Lemma addCIDRSet_no_panic cidr maxPods r : (addCIDRSet cidr maxPods r).1 ≠ Panic.
Proof.
  unfold addCIDRSet. destruct (ParsePrefix cidr) as [p|]; [|done]. unfold gbind, gof_outcome.
  assert (∀ n m, NewCIDRSet n m ≠ Panic) as Hnew.
  { intros n m. unfold NewCIDRSet. destruct (Mask_Size (mask_of n)). by case_match. }
  match goal with |- context [match ?o with Ok _ => _ | Err _ => _ | Panic => _ end] =>
    assert (o ≠ Panic) as Hsz by (repeat case_match; done); destruct o as [[q m]|e|] end; [|done..].
  match goal with |- context [NewCIDRSet ?n ?m] => specialize (Hnew n m); destruct (NewCIDRSet n m) end; [|done..].
  cbn [gget]. by destruct (ca_cidrSets r !! Masked q).
Qed.

Lemma addCIDRSet_ok p maxPods :
  global_v6 p → (Bits p ≤ 123 → U (segment p)) → safe (addCIDRSet (Prefix_String p) maxPods).
Proof.
  intros Hp HU r Hr. split; [apply addCIDRSet_no_panic|]. by apply (addCIDRSet_steps U p maxPods Hp HU r).
Qed.

Lemma use_cidrs_ok node ipv6 cidrs :
  Forall (discovered U) cidrs → safe (use_cidrs K order node ipv6 cidrs).
Proof.
  intros Hd. pose proof occupyNodeIPs_ok. unfold use_cidrs. destruct cidrs as [|first rest]; [go_ok|].
  destruct (ParseCIDRs K (first :: rest)); [go_ok|]. apply range_ok; [done|intros keys].
  destruct (known_for _ keys) as [k|].
  - apply has_keys_lift; [|go_ok]. pose proof (occupyNodeIPs_steps order U). go_steps.
  - apply has_keys_lift.
    + apply gsteps_bind; [exact _| |pose proof (occupyNodeIPs_steps order U); go_steps].
      apply gsteps_foreach_elem; [exact _|]. eapply Forall_impl; [exact Hd|]. cbn. intros cidr (p & -> & Hp & HU).
      pose proof (addCIDRSet_steps U p (getNodeMaxPods (Some node)) Hp HU). go_steps.
    + apply gok_bind; [|go_ok]. apply gok_foreach_elem. eapply Forall_impl; [exact Hd|].
      cbn. intros cidr (p & -> & Hp & HU). pose proof (addCIDRSet_ok p (getNodeMaxPods (Some node)) Hp HU).
      destruct Hp as [Hok _]. rewrite MustParsePrefix_ok by done.
      apply gok_bind; [by apply of_outcome_ok|]. go_ok.
Qed.

Lemma defineNodeGlobalCIDRs_ok node : safe (defineNodeGlobalCIDRs K T order node).
Proof.
  destruct node as [node|]; [|cbn [defineNodeGlobalCIDRs]; go_ok]. rewrite defineNodeGlobalCIDRs_unfold.
  apply gok_bind; [|intros nodeIPs]. { apply gok_catch; [|go_ok]. by apply of_outcome_ok, GetNodeIPs_no_panic. }
  destruct (_ =? _)%nat; [go_ok|]. apply gok_bind; [unfold talosclient_New; go_ok|intros _].
  apply gok_bind_result; [apply first_ifaces_ok|]. intros ifaces r r' Hr E.
  apply use_cidrs_ok, (discovery_found T U HT). exact (first_ifaces_reported T nodeIPs r ifaces r' E).
Qed.

Lemma occupyPodCIDRs_ok node : safe (occupyPodCIDRs K T order node).
Proof.
  unfold occupyPodCIDRs. destruct (_ || _); [go_ok|]. apply gok_foreach. intros cidr.
  destruct (ParseCIDRSloppy K cidr) as [e|n] eqn:En; [go_ok|].
  pose proof (occupyCIDR_ok n (parse_sized_net K cidr n HC En)). pose proof defineNodeGlobalCIDRs_ok. go_ok.
Qed.

Lemma cloud_patch_attempts_ok k err node cidrs :
  cidrs ≠ [] → safe (patch_attempts (S := cloudAllocator) K k err node cidrs).
Proof.
  intros Hne. revert err. induction k as [|k IH]; intros err; cbn [patch_attempts]; [go_ok|].
  apply gok_catch; [|intros; apply IH]. unfold PatchNodeCIDRs. destruct cidrs; [done|]. go_ok.
Qed.

Lemma cloud_update_ok name l : l ≠ [] → safe (updateCIDRsAllocation K order name l).
Proof.
  intros Hl. assert (ipnetToStringList l ≠ []) as Hs by (by destruct l).
  unfold updateCIDRsAllocation, nodeLister_Get, RecordNodeStatusChange.
  pose proof (λ k err node, cloud_patch_attempts_ok k err node _ Hs). pose proof (release_each_ok l). go_ok.
Qed.

(** *** The global network of a node *)

Lemma keyed_prefix_ok k s : keyed k s → prefix_ok k.
Proof.
  intros (f & c & -> & Hw). pose proof (geom_canon _ _ _ (wf_geom _ _ _ Hw)) as [Hm Ha _ _].
  by apply prefix_of_ok.
Qed.

Lemma use_cidrs_result node ipv6 cidrs r g r' :
  Forall (discovered U) cidrs → ca_ok U r → use_cidrs K order node ipv6 cidrs r = (Ok g, r') →
  g = "" ∨ ∃ p, prefix_ok p ∧ g = Prefix_String p.
Proof.
  intros Hd Hr. unfold use_cidrs. destruct cidrs as [|first rest]; [intros [= <- _]; by left|].
  destruct (ParseCIDRs K (first :: rest)) as [e|subnets]; [done|]. unfold gbind at 1, range_cidrSets.
  destruct (known_for subnets _) as [k|] eqn:Ek.
  - unfold gbind. destruct (gcatch _ _ _) as [[[]|e|] r1]; [|done..]. intros [= <- _]. right. exists k.
    split; [|done]. apply find_some in Ek as [Hk%list_elem_of_In _]. apply (range_keys order Ho r) in Hk as [s Hs].
    destruct (ca_sets _ _ Hr k s Hs) as [_ Hkey]. by eapply keyed_prefix_ok.
  - unfold gbind. destruct (gforeach _ _ _) as [[[]|e|] r1]; [|done..].
    destruct (gcatch _ _ _) as [[[]|e|] r2]; [|done..]. intros [= <- _]. right.
    apply Forall_cons in Hd as [(p & -> & [Hok _] & _) _]. by exists p.
Qed.

Lemma defineNodeGlobalCIDRs_result node r g r' :
  ca_ok U r → defineNodeGlobalCIDRs K T order node r = (Ok g, r') →
  g = "" ∨ ∃ p, prefix_ok p ∧ g = Prefix_String p.
Proof.
  destruct node as [node|]; [|done]. rewrite defineNodeGlobalCIDRs_unfold. intros Hr. unfold gbind.
  destruct (gcatch _ _ r) as [[nodeIPs|e|] r0] eqn:E0; [|done..].
  assert (r0 = r) as ->. { unfold gcatch, gof_outcome, gfail in E0. destruct (GetNodeIPs (Some node)); congruence. }
  destruct (_ =? _)%nat; [done|].
  pose proof (talosclient_New_steps T U r Hr) as (H1 & _).
  destruct (talosclient_New T r) as [[[]|e|] r1]; [|done..]. cbn [snd] in H1.
  pose proof (first_ifaces_steps T U nodeIPs r1 H1) as (H2 & _).
  destruct (first_ifaces T nodeIPs r1) as [[ifaces|e|] r2] eqn:E2; [|done..]. cbn [snd] in H2.
  apply use_cidrs_result; [|done]. apply (discovery_found T U HT).
  exact (first_ifaces_reported T nodeIPs r1 ifaces r2 E2).
Qed.

Lemma selecting_ip_ok f a m g :
  canon f a m → (g = "" ∨ ∃ p, prefix_ok p ∧ g = Prefix_String p) →
  ∃ ip, selecting_ip (mk_net f a m) g = Ok ip.
Proof.
  intros [Hm Ha _ Hp] Hg. unfold selecting_ip. cbn [mk_net ip_of]. rewrite MustParseAddr_mk by done. cbn [obind].
  destruct (_ && _) eqn:E; [|by eexists]. destruct Hg as [->|(p & Hok & ->)]; [by rewrite andb_false_r in E|].
  rewrite MustParsePrefix_ok by done. by eexists.
Qed.

Lemma cloud_allocate_each_ok node g idx cidrs :
  Forall (λ n, ∃ f a m, n = mk_net f a m ∧ canon f a m) cidrs →
  (g = "" ∨ ∃ p, prefix_ok p ∧ g = Prefix_String p) → safe (allocate_each order node g idx cidrs).
Proof.
  intros Hc Hg. revert idx. induction Hc as [|n cidrs (f & a & m & -> & Hn) _ IH]; intros idx;
    cbn [allocate_each]; unfold RecordNodeStatusChange; [go_ok|].
  destruct (selecting_ip_ok f a m g Hn Hg) as (ip & ->). apply gok_bind; [by apply of_outcome_ok|intros ip'].
  apply range_ok; [done|intros keys]. apply gok_bind.
  - destruct (key_for ip' keys) as [k|] eqn:Ek; [|go_ok]. apply key_for_elem in Ek as [Hk _].
    apply gok_bind; [|go_ok]. apply gok_catch; [|go_ok]. apply on_key_ok; auto with go_ok.
  - intros podCIDR. apply has_keys_lift.
    + pose proof (cloud_allocate_each_steps order U). go_steps.
    + go_ok.
Qed.

Lemma allocate_each_length node g idx cidrs r l r' :
  allocate_each order node g idx cidrs r = (Ok l, r') → length l = length cidrs.
Proof.
  revert idx r l r'. induction cidrs as [|n cidrs IH]; intros idx r l r'; cbn [allocate_each]; [by intros [= <- _]|].
  unfold gbind, gof_outcome, range_cidrSets. destruct (selecting_ip n g) as [ip|e|]; [|done..].
  destruct (key_for ip _) as [k|]; [destruct (gcatch _ _ _) as [[p|e|] r1]; [|done..]|]; cbn [gret];
    (match goal with |- context [allocate_each order node g (S idx) cidrs ?r1] =>
       destruct (allocate_each order node g (S idx) cidrs r1) as [[l1|e|] r2] eqn:E end; [|done..]).
  all: intros [= <- _]; cbn; by rewrite (IH _ _ _ _ E).
Qed.

(** *** The whole *)

Notation ready r := (ca_ok U r ∧ ca_clusterCIDRs r ≠ []).

Lemma cloud_AllocateOrOccupyCIDR_ok node r :
  ready r → (cloud_AllocateOrOccupyCIDR K T order node r).1 ≠ Panic.
Proof.
  intros [Hr Hne]. destruct node as [n|]; [|done]. cbn [cloud_AllocateOrOccupyCIDR].
  destruct (0 <? length (PodCIDRs n))%nat; [by apply occupyPodCIDRs_ok|]. unfold gbind.
  destruct (defineNodeGlobalCIDRs_ok (Some n) r Hr) as [Hp _].
  pose proof (defineNodeGlobalCIDRs_steps K T order U HT (Some n) r Hr) as (H1 & C1 & _).
  destruct (defineNodeGlobalCIDRs K T order (Some n) r) as [[g|e|] r1] eqn:E1; [|done..]. cbn [snd fst gget] in *.
  pose proof (defineNodeGlobalCIDRs_result _ _ _ _ Hr E1) as Hg.
  destruct (cloud_allocate_each_ok n g 0 (ca_clusterCIDRs r1) (ca_clusters _ _ H1) Hg r1 H1) as [Hp2 H2].
  destruct (allocate_each order n g 0 (ca_clusterCIDRs r1) r1) as [[l|e|] r2] eqn:E2; [|done..]. cbn [snd fst] in *.
  apply cloud_update_ok; [|done]. intros ->. apply allocate_each_length in E2. rewrite C1 in E2.
  by destruct (ca_clusterCIDRs r).
Qed.

Lemma cloud_ReleaseCIDR_ok node : safe (cloud_ReleaseCIDR K order node).
Proof. unfold cloud_ReleaseCIDR. pose proof releaseCIDRs_ok. go_ok. Qed.

Lemma cloud_syncNode_ok key r : ready r → (syncNode K T order key r).1 ≠ Panic.
Proof.
  intros [Hr Hne]. unfold syncNode, gbind. cbn [gget]. change (emit ?a r) with (@Ok unit tt, add_action a r).
  assert (ready (add_action (ActGet key) r)) as [Hr1 Hne1] by (by destruct Hr; split; [split|]).
  destruct (lister_Get K (trace r) key) as [e|node]; [by destruct (IsNotFound K e)|].
  destruct (Deleting node); [by apply cloud_ReleaseCIDR_ok|]. case_match; [done|].
  by apply cloud_AllocateOrOccupyCIDR_ok.
Qed.
End operations_ok.
