(* ===== verification/CloudAllocatorRuns.v ===== *)
(** * Histories of the cloud allocator

    As for the range allocator, a network that was assigned stays marked until a
    release touches it, and an assignment only takes unmarked networks.  The sets
    are kept by network, and networks are discovered as nodes join.  Nothing stops
    the code from keeping one set inside another; what is proved of two networks
    holds while no address lies in two of the allocator's sets ([keys_apart]), which
    [sets_nested] computes from the sets that are there. *)

From S2P Require Import Prelude GoNet GoStrings NetIP NetIPRoundTrip CidrSet CidrSetGeometry CidrSetSpec CidrPool.
From S2P Require Import Kube CidrAllocator NodeUtils TalosClient CloudAllocator CloudAllocatorSpec CloudAllocatorSafety.

Local Open Scope go_scope.

(** No address lies in two of the sets. *)
Definition keys_apart (r : cloudAllocator) : Prop :=
  ∀ k1 k2 a, is_Some (ca_cidrSets r !! k1) → is_Some (ca_cidrSets r !! k2) →
    Prefix_Contains k1 a = true → Prefix_Contains k2 a = true → k1 = k2.

(** Some set starts inside another one. *)
Definition sets_nested (r : cloudAllocator) : bool :=
  let keys := (map_to_list (ca_cidrSets r)).*1 in
  existsb (λ k1, existsb (λ k2, bool_decide (k1 ≠ k2) && Prefix_Contains k1 (withoutZone (Prefix_Addr k2))) keys) keys.

Lemma sets_nested_true r : sets_nested r = true ↔
  ∃ k1 k2, is_Some (ca_cidrSets r !! k1) ∧ is_Some (ca_cidrSets r !! k2) ∧ k1 ≠ k2 ∧
    Prefix_Contains k1 (withoutZone (Prefix_Addr k2)) = true.
Proof.
  unfold sets_nested. set (keys := (map_to_list (ca_cidrSets r)).*1).
  assert (∀ k, In k keys ↔ is_Some (ca_cidrSets r !! k)) as Hk.
  { intros k. rewrite <- list_elem_of_In. unfold keys. rewrite list_elem_of_fmap. split.
    - intros ([k' s] & -> & H%elem_of_map_to_list). by exists s.
    - intros [s Hs]. exists (k, s). split; [done|]. by apply elem_of_map_to_list. }
  rewrite existsb_exists. split.
  - intros (k1 & H1%Hk & (k2 & H2%Hk & [Hne%bool_decide_eq_true Hc]%andb_true_iff)%existsb_exists). by exists k1, k2.
  - intros (k1 & k2 & H1%Hk & H2%Hk & Hne & Hc). exists k1. split; [done|]. apply existsb_exists. exists k2.
    split; [done|]. apply andb_true_iff. by rewrite bool_decide_eq_true.
Qed.

(** Of two prefixes that contain a common address, one contains the other's. *)
Lemma in_range_share x a b w m n :
  in_range x a w m = true → in_range x b w n = true → m ≤ n → in_range b a w m = true ∨ in_range a b w n = true.
Proof.
  unfold in_range. rewrite !Z.eqb_eq. intros Ha Hb Hmn. destruct (Z.le_gt_cases n w) as [Hn|Hn]; [left|right].
  - assert (∀ y, y / 2 ^ (w - m) = y / 2 ^ (w - n) / 2 ^ (n - m)) as Hd.
    { intros y. rewrite Z.div_div by (try apply Z.pow_pos_nonneg; lia). rewrite <-Z.pow_add_r by lia. do 2 f_equal. lia. }
    rewrite <-Ha, !Hd. congruence.
  - by rewrite (Z.pow_neg_r 2 (w - n)), !Zdiv_0_r by lia.
Qed.

Lemma Contains_share k1 k2 a :
  Prefix_Contains k1 a = true → Prefix_Contains k2 a = true →
  Prefix_Contains k1 (withoutZone (Prefix_Addr k2)) = true ∨ Prefix_Contains k2 (withoutZone (Prefix_Addr k1)) = true.
Proof.
  destruct k1 as [a1 m1], k2 as [a2 m2]. unfold Prefix_Contains. cbn [Prefix_Addr Bits].
  destruct (negb (Prefix_IsValid (mkPrefix a1 m1))) eqn:V1; [done|].
  destruct (negb (Prefix_IsValid (mkPrefix a2 m2))) eqn:V2; [done|]. cbn [orb].
  destruct (hasZone a) eqn:Hz; [done|].
  assert (∀ b, hasZone (withoutZone b) = false) as Hwz by (by intros []). rewrite !Hwz.
  destruct a as [|x|x z], a1 as [|y|y z1], a2 as [|y2|y2 z2]; try done; cbn [withoutZone]; intros H1 H2.
  all: destruct (Z.le_ge_cases m1 m2) as [Hm|Hm];
    [eapply in_range_share; eassumption|destruct (in_range_share x y2 y _ m2 m1 H2 H1 Hm); auto].
Qed.

Lemma nested_or_apart r : sets_nested r = false → keys_apart r.
Proof.
  intros Hn k1 k2 a E1 E2 H1 H2. destruct (decide (k1 = k2)) as [|Hne]; [done|].
  exfalso. apply not_true_iff_false in Hn. apply Hn, sets_nested_true.
  destruct (Contains_share k1 k2 a H1 H2); [by exists k1, k2|by exists k2, k1].
Qed.

(** Sets are never removed, so sets that are apart now always were. *)
Lemma keys_apart_back U r r' : ca_ok U r → ca_evolves U r r' → keys_apart r' → keys_apart r.
Proof.
  intros Hr He Ha k1 k2 a [s1 E1] [s2 E2]. destruct (He Hr) as (_ & _ & Hst & _).
  destruct (Hst _ _ E1) as (s1' & E1' & _). destruct (Hst _ _ E2) as (s2' & E2' & _). apply Ha; by eexists.
Qed.

(** [op] releases no network that meets [a/m]. *)
Definition cloud_spares (K : Kube) (f : family) (a m : Z) (op : alloc_op) : Prop :=
  match op with
  | OpRelease (Some node) =>
      ∀ cidr n, cidr ∈ PodCIDRs node → ParseCIDRSloppy K cidr = inr n →
      ∃ f' b m', n = mk_net f' b m' ∧ canon f' b m' ∧ (f' = f → ¬ overlap f a m b m')
  | _ => True
  end.

(** ** A mark survives what spares it *)

Section survival.
Context (K : Kube) (HC : CIDRLaws K) (T : Talos) (U : Prefix → Prop) (HT : TalosLaws U T).
Context (order : nat → list Prefix → list Prefix).
Context (f : family) (c i : Z) (s0 : CidrSet) (Hw0 : wf f c s0) (Hi : 0 ≤ i < maxCIDRs s0).

Notation key := (prefix_of f c (clusterMaskSize s0)).
Notation base := (block_base f c s0 i).
Notation size := (nodeMaskSize s0).

(** Position [i] of the set under [key], made as [s0] was, is marked. *)
Definition marked (r : cloudAllocator) : Prop :=
  ca_ok U r ∧ ∃ s, ca_cidrSets r !! key = Some s ∧ config s = config s0 ∧ Z.testbit (used s) i = true.

Definition holds (r r' : cloudAllocator) : Prop := marked r → marked r'.

#[export] Instance holds_preorder : PreOrder holds.
Proof. split; [intros r H; exact H|]. intros r1 r2 r3 H12 H23 H1. exact (H23 (H12 H1)). Qed.

(** An operation that keeps position [i] marked in a set like [s0]. *)
Definition op_keeps {A} (op : CidrSet → outcome A * CidrSet) : Prop :=
  ∀ s, wf f c s → config s = config s0 → Z.testbit (used s) i = true → Z.testbit (used (op s).2) i = true.

Lemma like_s0 k s f' c' : config s = config s0 → k = prefix_of f' c' (clusterMaskSize s) → k = key → wf f' c' s →
  f' = f ∧ c' = c ∧ wf f c s.
Proof.
  intros Hcfg -> E Hw. rewrite (config_clusterMaskSize _ _ Hcfg) in E.
  apply prefix_of_inj in E as (-> & -> & _). done.
Qed.

Lemma on_key_holds {A} k (op : CidrSet → outcome A * CidrSet) :
  set_op_safe op → op_keeps op → gsteps holds (on_key k op).
Proof.
  intros Hsafe Hkeep r [Hr (s & Es & Hcfg & Hb)]. split; [by apply (on_key_steps U k op Hsafe r)|].
  unfold on_key. destruct (ca_cidrSets r !! k) as [s1|] eqn:E1; [|by exists s].
  destruct (ca_sets _ _ Hr key s Es) as (_ & f' & c' & Ek & Hw).
  destruct (like_s0 _ _ _ _ Hcfg Ek eq_refl Hw) as (-> & -> & Hws).
  destruct (Hsafe f c s Hws) as [_ Hc']. pose proof (Hkeep s Hws Hcfg Hb) as Hb'.
  destruct (decide (k = key)) as [->|Hne].
  - rewrite Es in E1. injection E1 as <-. destruct (op s) as [o s']. cbn [snd with_sets ca_cidrSets] in *.
    rewrite lookup_insert_eq. exists s'. split_and!; [done|congruence|done].
  - destruct (op s1) as [o s']. cbn [snd with_sets ca_cidrSets]. rewrite lookup_insert_ne by done. by exists s.
Qed.

Lemma range_holds : gsteps holds (range_cidrSets order).
Proof. intros r [[Hs Hc] H]. by split; [split|]. Qed.
Lemma emit_holds a : gsteps holds (emit (S := cloudAllocator) a).
Proof. intros r [[Hs Hc] H]. by split; [split|]. Qed.

Lemma Occupy_op_keeps n : op_keeps (λ s, Occupy s n).
Proof. intros s _ _. apply Occupy_keeps. Qed.
Lemma AllocateNext_op_keeps : op_keeps AllocateNext.
Proof. intros s _ _. apply AllocateNext_keeps. Qed.

(** [n] is a network that does not meet the marked one. *)
Definition clear_of (n : IPNet) : Prop :=
  ∃ f' b m', n = mk_net f' b m' ∧ canon f' b m' ∧ (f' = f → ¬ overlap f base size b m').

Lemma Release_op_keeps n : clear_of n → op_keeps (λ s, Release s (Some n)).
Proof.
  intros (f' & b & m' & -> & Hc & Hno) s Hs Hcfg Hb. apply (Release_keeps f c); try done.
  - by rewrite (config_maxCIDRs _ _ Hcfg).
  - intros E. unfold meets. rewrite (block_base_config f c s0 s i Hcfg), (config_nodeMaskSize _ _ Hcfg). by apply Hno.
Qed.

Lemma addCIDRSet_holds p maxPods :
  global_v6 p → (Bits p ≤ 123 → U (segment p)) → gsteps holds (addCIDRSet (Prefix_String p) maxPods).
Proof.
  intros Hp HUp r [Hr (s & Es & H)].
  split; [by apply (addCIDRSet_steps U p maxPods Hp HUp r)|]. exists s. split; [|done].
  destruct (Z.lt_ge_cases 123 (Bits p)) as [H123|H123].
  { by destruct (addCIDRSet_too_small p maxPods r Hp H123) as (e & ->). }
  destruct (decide (117 < Bits p ∧ 2 ^ (127 - Bits p) - 2 < wrapu 64 maxPods)) as [[H1 H2]|Hn].
  { by destruct (addCIDRSet_too_few p maxPods r Hp (conj H1 H123) H2) as (e & ->). }
  destruct (addCIDRSet_adds p maxPods r Hp H123) as (s1 & _ & ->).
  { intros H1. apply Z.nlt_ge. intros H2. by apply Hn. }
  cbn [snd]. unfold with_segment. destruct (ca_cidrSets r !! segment p) eqn:E1; [done|].
  cbn [with_sets ca_cidrSets]. rewrite lookup_insert_ne; [done|]. congruence.
Qed.
End survival.

#[export] Hint Resolve on_key_holds range_holds emit_holds Occupy_op_keeps AllocateNext_op_keeps : go_steps.

Section operations_hold.
Context (K : Kube) (HC : CIDRLaws K) (T : Talos) (U : Prefix → Prop) (HT : TalosLaws U T).
Context (order : nat → list Prefix → list Prefix).
Context (f : family) (c i : Z) (s0 : CidrSet) (Hw0 : wf f c s0) (Hi : 0 ≤ i < maxCIDRs s0).
Notation hold := (gsteps (holds U f c i s0)).
Notation clear := (clear_of f c i s0).

Lemma occupyCIDR_holds n : hold (occupyCIDR order n).
Proof. unfold occupyCIDR. go_steps. Qed.

Lemma occupyNodeIPs_holds l : hold (occupyNodeIPs order l).
Proof. unfold occupyNodeIPs. pose proof occupyCIDR_holds. go_steps. Qed.

Lemma first_ifaces_holds l : hold (first_ifaces T l).
Proof. induction l; cbn [first_ifaces]; unfold GetNodeIfaces; go_steps. Qed.

Lemma use_cidrs_holds node ipv6 cidrs : Forall (discovered U) cidrs → hold (use_cidrs K order node ipv6 cidrs).
Proof.
  intros Hd. unfold use_cidrs. pose proof occupyNodeIPs_holds. destruct cidrs as [|first rest]; [go_steps|].
  destruct (ParseCIDRs K (first :: rest)); [go_steps|].
  apply gsteps_bind; [exact _|apply range_holds|intros keys]. destruct (known_for _ keys); [go_steps|].
  apply gsteps_bind; [exact _| |go_steps]. apply gsteps_foreach_elem; [exact _|].
  eapply Forall_impl; [exact Hd|]. cbn. intros cidr (p & -> & Hp & HUp).
  pose proof (addCIDRSet_holds U f c i s0 p (getNodeMaxPods (Some node)) Hp HUp). go_steps.
Qed.

Lemma defineNodeGlobalCIDRs_holds node : hold (defineNodeGlobalCIDRs K T order node).
Proof.
  destruct node as [node|]; [|cbn [defineNodeGlobalCIDRs]; go_steps]. rewrite defineNodeGlobalCIDRs_unfold.
  apply gsteps_bind; [exact _|go_steps|intros nodeIPs]. destruct (_ =? _)%nat; [go_steps|].
  apply gsteps_bind; [exact _|unfold talosclient_New; go_steps|intros _].
  apply gsteps_bind_result; [exact _|apply first_ifaces_holds|]. intros ifaces r r' E.
  apply use_cidrs_holds, (discovery_found T U HT). exact (first_ifaces_reported T nodeIPs r ifaces r' E).
Qed.

Lemma occupyPodCIDRs_holds node : hold (occupyPodCIDRs K T order node).
Proof.
  unfold occupyPodCIDRs. pose proof occupyCIDR_holds. pose proof defineNodeGlobalCIDRs_holds. go_steps.
Qed.

Lemma allocate_each_holds node g idx cidrs : hold (allocate_each order node g idx cidrs).
Proof.
  revert idx. induction cidrs as [|cidr cidrs IH]; intros idx; cbn [allocate_each];
    unfold RecordNodeStatusChange; go_steps.
Qed.

Lemma releaseCIDRs_holds l :
  (∀ cidr n, cidr ∈ l → ParseCIDRSloppy K cidr = inr n → clear n) → hold (releaseCIDRs K order l).
Proof.
  intros Hl. unfold releaseCIDRs. apply gsteps_foreach_elem; [exact _|]. apply Forall_forall. intros cidr Hin.
  destruct (ParseCIDRSloppy K cidr) as [e|n] eqn:En; [go_steps|].
  pose proof (Release_op_keeps f c i s0 Hi n (Hl cidr n Hin En)). go_steps.
Qed.

(** The networks of an assignment that are given back do not meet the mark. *)
Lemma release_each_holds l : (∀ n, Some n ∈ l → clear n) → hold (release_each K order l).
Proof.
  intros Hl. unfold release_each. apply gsteps_foreach_elem; [exact _|]. apply Forall_forall. intros o Ho.
  apply gsteps_catch; [exact _| |go_steps]. apply releaseCIDRs_holds.
  intros cidr n ->%list_elem_of_singleton En. destruct o as [x|].
  - pose proof (Hl x Ho) as Hx. destruct Hx as (f' & b & m & -> & Hc & Hno).
    rewrite (parse_canon K f' b m HC Hc) in En. injection En as <-. by exists f', b, m.
  - destruct (parse_nil K HC) as [e E]. cbn [IPNet_String] in En. congruence.
Qed.

Lemma patch_attempts_holds k err node cidrs : hold (patch_attempts (S := cloudAllocator) K k err node cidrs).
Proof.
  revert err. induction k as [|k IH]; intros err; cbn [patch_attempts]; [go_steps|].
  apply gsteps_catch; [exact _| |intros; apply IH]. unfold PatchNodeCIDRs. go_steps.
Qed.

Lemma update_holds name l : (∀ n, Some n ∈ l → clear n) → hold (updateCIDRsAllocation K order name l).
Proof.
  intros Hl. pose proof (release_each_holds l Hl). pose proof patch_attempts_holds.
  unfold updateCIDRsAllocation, RecordNodeStatusChange, nodeLister_Get. go_steps.
Qed.
End operations_hold.

(** ** What an allocation takes *)

(** A network taken from the set under a key is inside the key. *)
Lemma block_inside f c s i x :
  geom f c s → 0 ≤ i < maxCIDRs s → in_net f (block_base f c s i) (nodeMaskSize s) x →
  Prefix_Contains (prefix_of f c (clusterMaskSize s)) (addr_of f x) = true.
Proof.
  intros HG Hi Hx. rewrite Contains_prefix_of by apply HG. apply bool_decide_eq_true.
  exact (block_in_cluster f c s HG i x Hi Hx).
Qed.

Section grants.
Context (K : Kube) (HC : CIDRLaws K) (T : Talos) (U : Prefix → Prop) (HT : TalosLaws U T).
Context (order : nat → list Prefix → list Prefix).

(** [n] is the network of a marked position. *)
Definition granted (r : cloudAllocator) (n : IPNet) : Prop :=
  ∃ f c i s0, wf f c s0 ∧ 0 ≤ i < maxCIDRs s0 ∧ marked U f c i s0 r ∧
    n = mk_net f (block_base f c s0 i) (nodeMaskSize s0).

(** [n] meets no network that is marked in [r]. *)
Definition unmarked (r : cloudAllocator) (n : IPNet) : Prop :=
  ∀ f c i s0, wf f c s0 → 0 ≤ i < maxCIDRs s0 → marked U f c i s0 r → clear_of f c i s0 n.

Lemma granted_canon r n : granted r n → ∃ f a m, n = mk_net f a m ∧ canon f a m.
Proof.
  intros (f & c & i & s0 & Hw & Hi & _ & ->). eexists f, _, _. split; [done|].
  by apply block_canon; [apply Hw|].
Qed.

(** Marks of [r] that are marks of [r'], and grants that stay. *)
Lemma granted_holds r r' n :
  (∀ f c i s0, wf f c s0 → 0 ≤ i < maxCIDRs s0 → holds U f c i s0 r r') → granted r n → granted r' n.
Proof. intros H (f & c & i & s0 & Hw & Hi & Hm & ->). exists f, c, i, s0. split; [done|]. split; [done|]. split; [by apply H|done]. Qed.

Lemma unmarked_holds r r' n :
  (∀ f c i s0, wf f c s0 → 0 ≤ i < maxCIDRs s0 → holds U f c i s0 r r') → unmarked r' n → unmarked r n.
Proof. intros H Hn f c i s0 Hw Hi Hm. apply (Hn f c i s0 Hw Hi). by apply H. Qed.

Lemma allocate_grants k r n r' :
  ca_ok U r → keys_apart r → on_key k AllocateNext r = (Ok n, r') → granted r' n ∧ unmarked r n.
Proof.
  intros Hr HU E. pose proof (on_key_steps U k AllocateNext AllocateNext_safe r Hr) as (Hr' & _).
  rewrite E in Hr'. cbn [snd] in Hr'. unfold on_key in E. destruct (ca_cidrSets r !! k) as [s|] eqn:Es; [|done].
  destruct (ca_sets _ _ Hr k s Es) as (HUk & f & c & -> & Hw).
  destruct (full_dec f c s Hw) as [Hfull|Hfree]; [by rewrite (AllocateNext_full f c) in E|].
  destruct (AllocateNext_free f c s Hw Hfree) as (i & s' & Ea & Ha). rewrite Ea in E.
  apply pair_equal_spec in E as [[= <-] <-]. pose proof (all_first _ _ _ _ _ Ha) as (Hi & Hb & _). split.
  - exists f, c, i, s. split; [done|]. split; [done|]. split; [|done]. split; [done|]. exists s'. cbn [with_sets ca_cidrSets].
    rewrite lookup_insert_eq. split_and!; [done|apply Ha|]. apply (all_used _ _ _ _ _ Ha). by left.
  - intros f0 c0 i0 s0 Hw0 Hi0 [_ (s1 & Es1 & Hcfg & Hb1)]. eexists f, _, _. split; [done|].
    split; [by apply block_canon; [apply Hw|]|]. intros -> (x & Hx0 & Hx).
    pose proof (block_inside _ _ _ _ _ (wf_geom _ _ _ Hw0) Hi0 Hx0) as Hc0.
    pose proof (block_inside _ _ _ _ _ (wf_geom _ _ _ Hw) Hi Hx) as Hc1.
    pose proof (HU _ _ _ (mk_is_Some _ _ Es1) (mk_is_Some _ _ Es) Hc0 Hc1) as Ek. rewrite Ek, Es in Es1. injection Es1 as <-.
    apply prefix_of_inj in Ek as (_ & -> & _).
    rewrite <-(block_base_config f0 c s0 s i0 Hcfg), <-(config_nodeMaskSize _ _ Hcfg) in Hx0.
    destruct (decide (i0 = i)) as [->|Hne]; [congruence|].
    apply (blocks_disjoint f0 c s i0 i (wf_geom _ _ _ Hw) Hne). by exists x.
Qed.

Lemma allocate_each_grants node g idx cidrs r l r' :
  ca_ok U r → keys_apart r' → allocate_each order node g idx cidrs r = (Ok l, r') →
  ∀ n, Some n ∈ l → granted r' n ∧ unmarked r n.
Proof.
  intros Hr Hap. revert idx r l Hr. induction cidrs as [|cidr cidrs IH]; intros idx r l Hr; cbn [allocate_each].
  { intros [= <- <-] n []%elem_of_nil. }
  unfold gbind, gof_outcome. destruct (selecting_ip cidr g) as [ip|e|]; [|done..].
  destruct (range_cidrSets order r) as [[keys|e|] r1] eqn:E1; [|done..].
  pose proof (range_steps U order r Hr) as (Hr1 & _). rewrite E1 in Hr1. cbn [snd] in Hr1.
  assert (∀ f c i s0, holds U f c i s0 r r1) as H01.
  { intros f c i s0. pose proof (range_holds U order f c i s0 r) as H. by rewrite E1 in H. }
  destruct (key_for ip keys) as [k|]; cbn [gret].
  - unfold gcatch. destruct (on_key k AllocateNext r1) as [[p|e|] r2] eqn:E2; [|done..].
    pose proof (on_key_steps U k AllocateNext AllocateNext_safe r1) as H12.
    rewrite E2 in H12. cbn [snd] in H12. destruct (H12 Hr1) as (Hr2 & _). cbn [gret].
    pose proof (cloud_allocate_each_steps order U node g (S idx) cidrs r2) as H3.
    destruct (allocate_each order node g (S idx) cidrs r2) as [[l1|e|] r3] eqn:E3; [|done..]. cbn [snd] in H3.
    intros [= <- ->] n Hn.
    destruct (allocate_grants k r1 p r2 Hr1) as [Hg Hu]; [|done|].
    { apply (keys_apart_back U r1 r'); [done|by transitivity r2|done]. }
    assert (∀ f c i s0, wf f c s0 → 0 ≤ i < maxCIDRs s0 → holds U f c i s0 r r2) as H02.
    { intros f c i s0 Hw Hi. transitivity r1; [done|].
      pose proof (on_key_holds U f c i s0 k AllocateNext AllocateNext_safe (AllocateNext_op_keeps f c i s0) r1) as H.
      by rewrite E2 in H. }
    assert (∀ f c i s0, wf f c s0 → 0 ≤ i < maxCIDRs s0 → holds U f c i s0 r2 r') as H23.
    { intros f c i s0 Hw Hi. pose proof (allocate_each_holds U order f c i s0 node g (S idx) cidrs r2) as H.
      by rewrite E3 in H. }
    apply elem_of_cons in Hn as [[= ->]|Hn].
    + split; [by apply (granted_holds r2)|]. by apply (unmarked_holds r r1).
    + destruct (IH _ _ _ Hr2 E3 n Hn) as [Hg' Hu']. split; [done|]. by apply (unmarked_holds r r2).
  - destruct (allocate_each order node g (S idx) cidrs r1) as [[l1|e|] r3] eqn:E3; [|done..].
    intros [= <- ->] n Hn. apply elem_of_cons in Hn as [?|Hn]; [done|].
    destruct (IH _ _ _ Hr1 E3 n Hn) as [Hg' Hu']. split; [done|]. apply (unmarked_holds r r1); [|done]. auto.
Qed.
End grants.

(** ** Assignments *)

(** Only actions other than patches are added. *)
Definition is_patch (a : action) : bool := match a with ActPatch _ _ _ _ => true | _ => false end.
Definition no_patch (r r' : cloudAllocator) : Prop :=
  ∃ l, ca_actions r' = l ++ ca_actions r ∧ Forall (λ a, is_patch a = false) l.

#[export] Instance no_patch_preorder : PreOrder no_patch.
Proof.
  split; [by intros r; exists []|]. intros r1 r2 r3 (l1 & E1 & H1) (l2 & E2 & H2).
  exists (l2 ++ l1). split; [by rewrite E2, E1, app_assoc|by apply Forall_app].
Qed.

Section assignments.
Context (K : Kube) (T : Talos) (order : nat → list Prefix → list Prefix).
Notation silent := (gsteps no_patch).

Lemma on_key_silent {A} k (op : CidrSet → outcome A * CidrSet) : silent (on_key k op).
Proof. intros r. unfold on_key. destruct (_ !! k) as [s|]; [destruct (op s)|]; by exists []. Qed.
Lemma range_silent : silent (range_cidrSets order).
Proof. intros r. by exists []. Qed.
Lemma emit_silent a : is_patch a = false → silent (emit (S := cloudAllocator) a).
Proof. intros Ha r. exists [a]. by repeat constructor. Qed.
Lemma addCIDRSet_silent cidr maxPods : silent (addCIDRSet cidr maxPods).
Proof.
  unfold addCIDRSet. go_steps. intros r. by exists [].
Qed.
End assignments.

#[export] Hint Resolve on_key_silent range_silent addCIDRSet_silent : go_steps.
#[export] Hint Extern 1 (gsteps no_patch (emit _)) => apply emit_silent; reflexivity : go_steps.

Section assignments.
Context (K : Kube) (T : Talos) (order : nat → list Prefix → list Prefix).
Notation silent := (gsteps no_patch).

Lemma occupyNodeIPs_silent l : silent (occupyNodeIPs order l).
Proof. unfold occupyNodeIPs, occupyCIDR. go_steps. Qed.

Lemma defineNodeGlobalCIDRs_silent node : silent (defineNodeGlobalCIDRs K T order node).
Proof.
  destruct node as [node|]; [|cbn [defineNodeGlobalCIDRs]; go_steps]. rewrite defineNodeGlobalCIDRs_unfold.
  assert (∀ l, silent (first_ifaces T l)).
  { induction l; cbn [first_ifaces]; unfold GetNodeIfaces; go_steps. }
  pose proof occupyNodeIPs_silent. unfold talosclient_New, use_cidrs. go_steps.
Qed.

Lemma occupyPodCIDRs_silent node : silent (occupyPodCIDRs K T order node).
Proof. pose proof defineNodeGlobalCIDRs_silent. unfold occupyPodCIDRs, occupyCIDR. go_steps. Qed.

Lemma release_each_silent l : silent (release_each K order l).
Proof. unfold release_each, releaseCIDRs. go_steps. Qed.

Lemma allocate_each_silent node g idx cidrs : silent (allocate_each order node g idx cidrs).
Proof.
  revert idx. induction cidrs as [|cidr cidrs IH]; intros idx; cbn [allocate_each];
    unfold RecordNodeStatusChange; go_steps.
Qed.

(** Without a patch in between there was no assignment. *)
Lemma no_patch_not_assigned r r' strs : no_patch r r' → ¬ assigned_in r r' strs.
Proof.
  intros (l & E & Hl) (name & l' & E'). cbn [trace cloudAllocator_traced] in E'. rewrite E in E'.
  destruct l as [|a l]; cbn in E'.
  - apply (f_equal length) in E'. cbn in E'. rewrite length_app in E'. lia.
  - injection E' as -> _. by apply Forall_cons in Hl as [? _].
Qed.

Lemma add_actions_cloud l r : add_actions l r =
  mkCloudAllocator (ca_clusterCIDRs r) (ca_cidrSets r) (l ++ ca_actions r) (ca_loops r).
Proof. unfold add_actions. induction l as [|a l IH]; [by destruct r|]. cbn [foldr]. by rewrite IH. Qed.

(** [updateCIDRsAllocation] assigns what it was given, and changes no set. *)
Lemma update_assigns name l r0 r strs :
  no_patch r0 r → assigned_in r0 (updateCIDRsAllocation K order name l r).2 strs →
  strs = ipnetToStringList l ∧ ca_cidrSets (updateCIDRsAllocation K order name l r).2 = ca_cidrSets r ∧
  ca_clusterCIDRs (updateCIDRsAllocation K order name l r).2 = ca_clusterCIDRs r.
Proof.
  intros H0 Ha. assert (∀ r', no_patch r r' → ¬ assigned_in r0 r' strs) as Hno.
  { intros r' H. apply no_patch_not_assigned. by etransitivity. }
  revert Ha. unfold updateCIDRsAllocation, nodeLister_Get, gbind. cbn [gget].
  change (emit ?a r) with (@Ok unit tt, add_action a r). set (r1 := add_action _ r).
  assert (no_patch r r1) as H1 by (exists [ActGet name]; by repeat constructor).
  destruct (lister_Get K (trace r) name) as [e|node]; cbn [gfail gret]; [intros Ha; by destruct (Hno r1)|].
  destruct (_ && _); [intros Ha; by destruct (Hno r1)|]. destruct (negb _).
  { intros Ha. destruct (Hno (release_each K order l r1).2); [|done]. transitivity r1; [done|].
    apply release_each_silent. }
  destruct (decide (ipnetToStringList l = [])) as [El|El].
  { rewrite El. intros Ha. by destruct (Hno r1). }
  destruct (patch_attempts_spec K cidrUpdateRetries r1 None (Name node) (ipnetToStringList l) El)
    as [(l1 & Hl1 & _ & _ & ->)|(l1 & err & Hl1 & Hlen & -> & _ & Herr)].
  - rewrite add_actions_cloud. cbn [gret snd]. intros (name' & l' & Ha). cbn in Ha. injection Ha as _ _ <- _. done.
  - destruct Herr as (e & ->); [done|]. intros Ha. exfalso. revert Ha. rewrite add_actions_cloud.
    unfold RecordNodeStatusChange. change (emit ?a ?s) with (@Ok unit tt, add_action a s).
    set (r2 := add_action _ _). intros (name' & l' & Ha).
    assert (∀ r3, no_patch r2 r3 → trace r3 ≠ accepted_patch name' strs :: l' ++ trace r0) as Hh.
    { intros r3 (l3 & E3 & Hl3) E. cbn in E. rewrite E3 in E. destruct l3 as [|a l3]; [done|].
      injection E as -> _. by apply Forall_cons in Hl3 as [? _]. }
    destruct (IsServerTimeout K (ErrPatch e)); cbn [gret gfail snd] in Ha; [by apply (Hh r2)|].
    pose proof (release_each_silent l r2) as Hs. destruct (release_each K order l r2) as [[[]|e'|] r3];
      cbn [gfail snd] in *; by apply (Hh r3).
Qed.
End assignments.

(** Steps that add no set. *)
Definition no_new_keys (r r' : cloudAllocator) : Prop :=
  ∀ k, is_Some (ca_cidrSets r' !! k) → is_Some (ca_cidrSets r !! k).

#[export] Instance no_new_keys_preorder : PreOrder no_new_keys.
Proof. split; [by intros r k|]. intros r1 r2 r3 H12 H23 k Hk. auto. Qed.

Lemma on_key_no_new_keys {A} k (op : CidrSet → outcome A * CidrSet) : gsteps no_new_keys (on_key k op).
Proof.
  intros r k' Hk'. unfold on_key in Hk'. destruct (ca_cidrSets r !! k) as [s|] eqn:Es; [|done].
  destruct (op s). cbn in Hk'.
  destruct (decide (k' = k)) as [->|Hne]; [by rewrite Es|by rewrite lookup_insert_ne in Hk'].
Qed.
Lemma range_no_new_keys order : gsteps no_new_keys (range_cidrSets order).
Proof. by intros r k. Qed.
Lemma emit_no_new_keys a : gsteps no_new_keys (emit (S := cloudAllocator) a).
Proof. by intros r k. Qed.
#[export] Hint Resolve on_key_no_new_keys range_no_new_keys emit_no_new_keys : go_steps.

Lemma allocate_each_no_new_keys order node g idx cidrs :
  gsteps no_new_keys (allocate_each order node g idx cidrs).
Proof.
  revert idx. induction cidrs as [|cidr cidrs IH]; intros idx; cbn [allocate_each];
    unfold RecordNodeStatusChange; go_steps.
Qed.

(** ** Whole operations *)

Section whole.
Context (K : Kube) (HC : CIDRLaws K) (T : Talos) (U : Prefix → Prop) (HT : TalosLaws U T).
Context (order : nat → list Prefix → list Prefix).
Notation cloud_run := (alloc_run (cloudAllocator_CIDRAllocator T order) K).

Lemma cloud_Allocate_holds f c i s0 node r :
  wf f c s0 → 0 ≤ i < maxCIDRs s0 → keys_apart (cloud_AllocateOrOccupyCIDR K T order node r).2 →
  holds U f c i s0 r (cloud_AllocateOrOccupyCIDR K T order node r).2.
Proof.
  intros Hw Hi. destruct node as [n|]; [|done]. cbn [cloud_AllocateOrOccupyCIDR].
  destruct (0 <? length (PodCIDRs n))%nat; [intros _; by apply occupyPodCIDRs_holds|]. unfold gbind. intros Hap Hm.
  pose proof (defineNodeGlobalCIDRs_holds K T U HT order f c i s0 (Some n) r Hm) as Hm1.
  destruct (defineNodeGlobalCIDRs K T order (Some n) r) as [[g|e|] r1]; cbn [snd gget] in *; [|done..].
  pose proof (allocate_each_holds U order f c i s0 n g 0 (ca_clusterCIDRs r1) r1 Hm1) as Hm2.
  destruct (allocate_each order n g 0 (ca_clusterCIDRs r1) r1) as [[l|e|] r2] eqn:E; cbn [snd] in *; [|done..].
  apply update_holds; [done..| |done]. intros x Hx.
  assert (keys_apart r2) as Hap2.
  { by apply (keys_apart_back U r2 _ (proj1 Hm2) (cloud_update_steps K order U (Name n) l r2)). }
  destruct (allocate_each_grants U order _ _ _ _ _ _ _ (proj1 Hm1) Hap2 E x Hx) as [_ Hu]. by apply Hu.
Qed.

Lemma cloud_Release_holds f c i s0 node :
  0 ≤ i < maxCIDRs s0 → cloud_spares K f (block_base f c s0 i) (nodeMaskSize s0) (OpRelease node) →
  gsteps (holds U f c i s0) (cloud_ReleaseCIDR K order node).
Proof.
  intros Hi Hsp. destruct node as [n|]; [|cbn; go_steps]. cbn [cloud_ReleaseCIDR].
  destruct (_ =? _)%nat; [go_steps|]. apply releaseCIDRs_holds; [done|]. intros cidr x Hin E. by apply (Hsp cidr x).
Qed.

Lemma cloud_run_evolves ops r : ca_evolves U r (cloud_run ops r).
Proof.
  apply alloc_run_steps; [exact _|]. apply Forall_forall. intros [n|n] _.
  - by apply cloud_AllocateOrOccupyCIDR_steps.
  - by apply cloud_ReleaseCIDR_steps.
Qed.

Lemma cloud_run_holds f c i s0 ops r :
  wf f c s0 → 0 ≤ i < maxCIDRs s0 → keys_apart (cloud_run ops r) →
  Forall (cloud_spares K f (block_base f c s0 i) (nodeMaskSize s0)) ops → holds U f c i s0 r (cloud_run ops r).
Proof.
  intros Hw Hi Hap Hsp. revert r Hap. induction Hsp as [|op ops Hop Hsp IH]; intros r Hap; [reflexivity|].
  set (r1 := (alloc_step (cloudAllocator_CIDRAllocator T order) K op r).2).
  change (cloud_run (op :: ops) r) with (cloud_run ops r1) in *. intros Hm.
  pose proof (cloud_run_evolves [op] r (proj1 Hm)) as (Hr1 & _). change (cloud_run [op] r) with r1 in Hr1.
  apply IH; [done|]. assert (keys_apart r1) as Hap1 by (by apply (keys_apart_back U r1 _ Hr1 (cloud_run_evolves ops r1))).
  subst r1. destruct op as [n|n]; cbn [alloc_step] in *; [by apply cloud_Allocate_holds|by apply cloud_Release_holds].
Qed.

(** An assignment is of marked networks that were not marked before. *)
Lemma cloud_assigned r node strs :
  ca_ok U r → keys_apart (cloud_AllocateOrOccupyCIDR K T order (Some node) r).2 → assigned_in r (cloud_AllocateOrOccupyCIDR K T order (Some node) r).2 strs →
  ∃ l g r1, strs = ipnetToStringList l ∧ defineNodeGlobalCIDRs K T order (Some node) r = (Ok g, r1) ∧
    no_new_keys r1 (cloud_AllocateOrOccupyCIDR K T order (Some node) r).2 ∧ keys_apart r1 ∧
    ∀ n, Some n ∈ l →
      granted U (cloud_AllocateOrOccupyCIDR K T order (Some node) r).2 n ∧ unmarked U r n ∧ unmarked U r1 n.
Proof.
  intros Hr Hap Ha. revert Hap Ha.
  pose proof (cloud_AllocateOrOccupyCIDR_steps K T order U HT (Some node) r Hr) as (Hr' & _). revert Hr'.
  cbn [cloud_AllocateOrOccupyCIDR]. destruct (0 <? length (PodCIDRs node))%nat.
  { intros _ _ Ha. exfalso. revert Ha. apply no_patch_not_assigned, occupyPodCIDRs_silent. }
  unfold gbind. pose proof (defineNodeGlobalCIDRs_silent K T order (Some node) r) as N1.
  pose proof (defineNodeGlobalCIDRs_steps K T order U HT (Some node) r Hr) as (Hr1 & _).
  pose proof (λ f c i s0, defineNodeGlobalCIDRs_holds K T U HT order f c i s0 (Some node) r) as H1.
  destruct (defineNodeGlobalCIDRs K T order (Some node) r) as [[g|e|] r1]; cbn [snd gget] in *.
  2-3: intros _ _ Ha; exfalso; revert Ha; by apply no_patch_not_assigned.
  pose proof (allocate_each_silent order node g 0 (ca_clusterCIDRs r1) r1) as N2.
  destruct (allocate_each order node g 0 (ca_clusterCIDRs r1) r1) as [[l|e|] r2] eqn:E; cbn [snd] in *.
  2-3: intros _ _ Ha; exfalso; revert Ha; apply no_patch_not_assigned; by transitivity r1.
  intros Hr' Hap Ha. destruct (update_assigns K order (Name node) l r r2 strs) as (-> & Es & Ec); [by transitivity r1|done|].
  pose proof (allocate_each_no_new_keys order node g 0 (ca_clusterCIDRs r1) r1) as D2. rewrite E in D2.
  exists l, g, r1. split; [done|]. split; [done|].
  split. { intros k Hk. apply D2. cbn [snd]. by rewrite <-Es. }
  pose proof (cloud_allocate_each_steps order U node g 0 (ca_clusterCIDRs r1) r1) as H2. rewrite E in H2.
  cbn [snd] in H2. destruct (H2 Hr1) as (Hr2 & _). assert (keys_apart r2) as Hap2.
  { by apply (keys_apart_back U r2 _ Hr2 (cloud_update_steps K order U (Name node) l r2)). }
  split; [by apply (keys_apart_back U r1 r2)|]. intros n Hn.
  destruct (allocate_each_grants U order _ _ _ _ _ _ _ Hr1 Hap2 E n Hn) as [Hg Hu]. split_and!; [| |done].
  - apply (granted_holds U r2); [|done]. intros f c i s0 Hw Hi [_ Hm]. split; [done|]. by rewrite Es.
  - apply (unmarked_holds U r r1); [|done]. intros f c i s0 Hw Hi. apply H1.
Qed.
End whole.

(** ** The addresses of a node *)

Section node_addresses.
Context (K : Kube) (T : Talos) (U : Prefix → Prop) (HT : TalosLaws U T).
Context (order : nat → list Prefix → list Prefix) (Ho : order_ok order).

(** Steps that keep the sets, their marks and the keys. *)
Definition tightens (r r' : cloudAllocator) : Prop :=
  ca_evolves U r r' ∧ (∀ f c i s0, holds U f c i s0 r r') ∧
  ∀ k, is_Some (ca_cidrSets r' !! k) → is_Some (ca_cidrSets r !! k).

#[local] Instance tightens_preorder : PreOrder tightens.
Proof.
  split.
  - intros r. split_and!; [reflexivity|by intros f c i s0|done].
  - intros r1 r2 r3 (E12 & H12 & D12) (E23 & H23 & D23). split_and!.
    + by transitivity r2.
    + intros f c i s0. by transitivity r2.
    + auto.
Qed.

Lemma occupyCIDR_tightens n : gsteps tightens (occupyCIDR order n).
Proof.
  intros r. split_and!; [apply occupyCIDR_steps|intros f c i s0; apply occupyCIDR_holds|].
  unfold occupyCIDR. assert (∀ m : GoM cloudAllocator bool, gsteps no_new_keys m → ∀ k,
    is_Some (ca_cidrSets (m r).2 !! k) → is_Some (ca_cidrSets r !! k)) as H by (intros m Hm; apply Hm).
  apply H. go_steps.
Qed.

Lemma key_for_unique r ip k s keys :
  keys_apart r → keys = order (ca_loops r) (map_to_list (ca_cidrSets r)).*1 →
  ca_cidrSets r !! k = Some s → Prefix_Contains k ip = true → key_for ip keys = Some k.
Proof.
  intros Hr -> Hs Hc. unfold key_for. destruct (find _ _) as [k'|] eqn:E.
  - apply key_for_elem in E as [Hk' Hc']. apply (range_keys order Ho r) in Hk' as [s' Hs']. f_equal.
    apply (Hr k' k ip); [by eexists..|done|done].
  - exfalso. pose proof (find_none _ _ E k) as Hn. cbn in Hn. rewrite Hn in Hc; [done|].
    apply list_elem_of_In, (range_keys order Ho r). by exists s.
Qed.

(** The address [x] is in a marked network. *)
Definition covers (r : cloudAllocator) (x : Z) : Prop :=
  ∃ c i s0, wf V6 c s0 ∧ 0 ≤ i < maxCIDRs s0 ∧ marked U V6 c i s0 r ∧
    in_net V6 (block_base V6 c s0 i) (nodeMaskSize s0) x.

Lemma canon_host x : 0 ≤ x < 2 ^ 128 → plain V6 x → canon V6 x 128.
Proof. intros Hx Hp. split; cbn [width]; [lia|done| |done]. by rewrite Z.sub_diag, Z.mod_1_r. Qed.

(** Occupying an address that lies in a set marks its position. *)
Lemma occupy_address r x k s b r' :
  ca_ok U r → keys_apart r → 0 ≤ x < 2 ^ 128 → plain V6 x →
  ca_cidrSets r !! k = Some s → Prefix_Contains k (addr_of V6 x) = true →
  occupyCIDR order (mk_net V6 x 128) r = (Ok b, r') → covers r' x.
Proof.
  intros Hr Hap Hx Hp Hs Hc E. pose proof (occupyCIDR_steps order U (mk_net V6 x 128) r Hr) as (Hr' & _).
  rewrite E in Hr'. cbn [snd] in Hr'. revert E. unfold occupyCIDR, gbind, range_cidrSets. cbn [mk_net ip_of].
  rewrite AddrFromSlice_mk by done. cbn [from_option id].
  rewrite (key_for_unique r _ k s _ Hap eq_refl Hs Hc).
  destruct (ca_sets _ _ Hr k s Hs) as (_ & f & c & -> & Hw).
  destruct (Contains_family f c _ _ Hc) as (x' & Ex). destruct f; [done|]. injection Ex as <-.
  rewrite Contains_prefix_of in Hc by apply Hw. apply bool_decide_eq_true in Hc.
  assert (overlap V6 c (clusterMaskSize s) x 128) as Hov.
  { exists x. split; [done|]. unfold in_net. cbn [width]. lia. }
  destruct (Occupy_inside V6 c s x 128 Hw (canon_host x Hx Hp) Hov) as (s' & Eo & Hu).
  unfold gcatch, on_key. cbn [ca_cidrSets]. rewrite Hs.
  change (mkIPNet (mk_ip V6 x) (CIDRMask 128 (width V6))) with (mk_net V6 x 128). rewrite Eo. cbn [gret].
  intros [= _ <-]. pose proof (wf_geom _ _ _ Hw) as HG.
  set (i := (x - c) / block_size V6 s).
  assert (0 ≤ i < maxCIDRs s ∧ in_net V6 (block_base V6 c s i) (nodeMaskSize s) x) as [Hi Hin].
  { pose proof (position_range V6 c s HG x Hc). split; [done|]. by apply (position_iff V6 c s HG). }
  exists c, i, s. split; [done|]. split; [done|]. split; [|done]. split; [done|].
  exists s'. cbn [with_sets ca_cidrSets]. rewrite lookup_insert_eq. split_and!; [done|apply Hu|].
  apply (upd_used _ _ _ _ _ Hu i Hi). right. exists x. split; [done|]. unfold in_net. cbn [width]. lia.
Qed.

Lemma occupyNodeIPs_covers l r r' x k :
  ca_ok U r → keys_apart r' → occupyNodeIPs order l r = (Ok tt, r') →
  Addr6 x "" ∈ l → IsPrivate (Addr6 x "") = false → 0 ≤ x < 2 ^ 128 → plain V6 x →
  is_Some (ca_cidrSets r' !! k) → Prefix_Contains k (addr_of V6 x) = true → covers r' x.
Proof.
  intros Hr Hap E Hin Hpr Hx Hp Hk Hc. unfold occupyNodeIPs in E.
  match type of E with gforeach _ ?body _ = _ => assert (∀ a, gsteps tightens (body a)) as Hb end.
  { pose proof occupyCIDR_tightens. go_steps. }
  destruct (gforeach_reaches tightens _ _ _ _ _ Hb E Hin) as (r1 & r2 & (E1 & _ & _) & Eb & (E2 & H2 & D2)).
  destruct (E1 Hr) as (Hr1 & _). rewrite Hpr, ParseIP_String in Eb by done. cbn [Is6 negb orb] in Eb.
  change (mkIPNet (mk_ip V6 x) (CIDRMask 128 128)) with (mk_net V6 x 128) in Eb. unfold gbind in Eb.
  pose proof (occupyCIDR_tightens (mk_net V6 x 128) r1) as (E12 & _ & D1).
  destruct (occupyCIDR order (mk_net V6 x 128) r1) as [[b|e|] r2'] eqn:Eo; [|done..].
  cbn [gret] in Eb. injection Eb as <-. cbn [snd] in D1, E12. destruct (D1 k (D2 k Hk)) as [s Hs].
  assert (keys_apart r1) as Hap1 by (apply (keys_apart_back U r1 r' Hr1); [by transitivity r2'|done]).
  destruct (occupy_address r1 x k s b r2' Hr1 Hap1 Hx Hp Hs Hc Eo) as (c & i & s0 & Hw & Hi & Hm & Hin0).
  exists c, i, s0. split_and!; [done|lia|lia|by apply H2|done].
Qed.

Lemma defineNodeGlobalCIDRs_covers node r g r' ips x k :
  ca_ok U r → keys_apart r' → defineNodeGlobalCIDRs K T order (Some node) r = (Ok g, r') → g ≠ "" →
  GetNodeIPs (Some node) = Ok ips → Addr6 x "" ∈ ips → IsPrivate (Addr6 x "") = false →
  0 ≤ x < 2 ^ 128 → plain V6 x →
  is_Some (ca_cidrSets r' !! k) → Prefix_Contains k (addr_of V6 x) = true → covers r' x.
Proof.
  intros Hr Hap E Hg Hips Hin Hpr Hx Hp Hk Hc. rewrite defineNodeGlobalCIDRs_unfold, Hips in E. revert E.
  unfold gbind. unfold gcatch at 1, gof_outcome at 1. destruct (_ =? _)%nat; [done|].
  pose proof (talosclient_New_steps T U r Hr) as (H1 & _).
  destruct (talosclient_New T r) as [[[]|e|] r1]; [|done..]. cbn [snd] in H1.
  pose proof (first_ifaces_steps T U ips r1 H1) as (H2 & _).
  destruct (first_ifaces T ips r1) as [[ifaces|e|] r2] eqn:E2; [|done..]. cbn [snd] in H2.
  pose proof (discovery_found T U HT (public_ips ips) ifaces (first_ifaces_reported T _ _ _ _ E2)) as Hd.
  set (cidrs := (NodeCIDRDiscovery T (public_ips ips) ifaces).2) in *.
  assert (Addr6 x "" ∈ public_ips ips) as Hin'.
  { apply list_elem_of_filter. split; [by rewrite Hpr|done]. }
  unfold use_cidrs. destruct cidrs as [|first rest]; [intros [= <- _]; done|].
  destruct (ParseCIDRs K (first :: rest)) as [e|subnets]; [done|]. unfold gbind.
  destruct (range_cidrSets order r2) as [[keys|e|] r3] eqn:E3; [|done..].
  pose proof (range_steps U order r2 H2) as (H3 & _). rewrite E3 in H3. cbn [snd] in H3.
  assert (∀ r4 r5 h, ca_ok U r4 → (∀ e, ∃ e', h e = gfail e') →
    gcatch (occupyNodeIPs order (public_ips ips)) h r4 = (Ok tt, r5) → r5 = r' → covers r' x) as Hfin.
  { intros r4 r5 h H4 Hh E ->. unfold gcatch in E.
    destruct (occupyNodeIPs order (public_ips ips) r4) as [[[]|e|] r6] eqn:E6; [|by destruct (Hh e) as [? ->] in E|done].
    injection E as ->. by eapply occupyNodeIPs_covers. }
  destruct (known_for subnets keys) as [k'|].
  - destruct (gcatch _ _ r3) as [[[]|e|] r4] eqn:E4; [|done..]. intros [= _ E']. by eapply Hfin; eauto.
  - destruct (gforeach _ _ r3) as [[[]|e|] r4] eqn:E4; [|done..].
    destruct (gcatch _ _ r4) as [[[]|e|] r5] eqn:E5; [|done..]. intros [= _ E'].
    assert (ca_ok U r4) as H4; [|by eapply Hfin; eauto].
    assert (gsteps (ca_evolves U) (gforeach (first :: rest) (λ cidr,
      p <- gof_outcome (MustParsePrefix cidr) ;;
      if Bits p =? 128 then gret tt
      else gcatch (addCIDRSet cidr (getNodeMaxPods (Some node)))
                  (λ e, gfail (ErrV "error to add CIDRv6 to CIDRSet: " e))))) as Hst.
    { apply gsteps_foreach_elem; [exact _|]. eapply Forall_impl; [exact Hd|]. cbn. intros cidr (p & -> & Hp' & HUp).
      pose proof (addCIDRSet_steps U p (getNodeMaxPods (Some node)) Hp' HUp). go_steps. }
    destruct (Hst r3 H3) as (H4 & _). unfold gbind in H4. by rewrite E4 in H4.
Qed.
End node_addresses.
