(* ===== verification/CloudAllocatorInit.v ===== *)
(** * Construction of the cloud allocator

    What [NewCIDRCloudAllocator] establishes: a set for every cluster range under
    its network, and marks for the service ranges and the networks of the existing
    nodes that lie in one of them. *)

From S2P Require Import Prelude GoNet GoStrings NetIP NetIPRoundTrip CidrSet CidrSetGeometry CidrSetSpec CidrPool.
From S2P Require Import Kube CidrAllocator AllocatorParams NodeUtils TalosClient CloudAllocator CloudAllocatorSpec.
From S2P Require Import CloudAllocatorSafety CloudAllocatorRuns.

Local Open Scope go_scope.

(** The network of a layout, as a key. *)
Definition l_key (L : layout) : Prefix := prefix_of (l_fam L) (l_base L) (l_cmask L).

(** A set of layout [L], and the one in the map. *)
Definition set_like (L : layout) (s : CidrSet) : Prop :=
  wf (l_fam L) (l_base L) s ∧ clusterMaskSize s = l_cmask L ∧ nodeMaskSize s = l_nmask L.
Definition set_for (m : gmap Prefix CidrSet) (L : layout) : Prop :=
  ∃ s, m !! l_key L = Some s ∧ set_like L s.

Lemma set_like_config L s s' f c :
  wf f c s' → config s' = config s → set_like L s → set_like L s'.
Proof.
  intros Hw Hc (Hws & Hcm & Hnm). pose proof (config_clusterMaskSize _ _ Hc) as Ecm.
  pose proof (geom_cluster _ _ _ (wf_geom _ _ _ Hw)) as E'. pose proof (geom_cluster _ _ _ (wf_geom _ _ _ Hws)) as E.
  assert (clusterCIDR s' = clusterCIDR s) as Ecl by (unfold config in Hc; congruence).
  rewrite E, E' in Ecl. apply mk_net_inj in Ecl as (-> & -> & _);
    [|by apply wf_geom in Hw as []|by apply wf_geom in Hws as []].
  split; [done|]. rewrite Ecm, (config_nodeMaskSize _ _ Hc). done.
Qed.

Lemma MustParsePrefix_cluster L :
  layout_ok L → MustParsePrefix (IPNet_String (Some (l_cluster L))) = Ok (l_key L).
Proof.
  intros HL. unfold l_cluster, l_key. pose proof (lo_canon _ HL) as Hc. rewrite (IPNet_String_prefix _ _ _ Hc).
  apply MustParsePrefix_ok, prefix_of_ok; apply Hc.
Qed.

Lemma make_set_map_ok Ls m :
  Forall layout_ok Ls → NoDup (map l_key Ls) →
  ∃ m', make_set_map (map l_cluster Ls) (map l_nmask Ls) m = Ok m' ∧ Forall (set_for m') Ls ∧
    (∀ k, k ∉ map l_key Ls → m' !! k = m !! k) ∧
    (∀ k s, m' !! k = Some s → m !! k = Some s ∨ ∃ L, L ∈ Ls ∧ k = l_key L).
Proof.
  intros Hok. revert m. induction Hok as [|L Ls HL Hok IH]; intros m Hnd; cbn [make_set_map map]; [by exists m; eauto|].
  inversion_clear Hnd as [|? ? Hnot Hnd']. destruct (layout_set L HL) as (s & Es & Hs).
  rewrite Es. cbn [obind]. rewrite (MustParsePrefix_cluster L HL). cbn [obind].
  destruct (IH (<[l_key L := s]> m) Hnd') as (m' & E & Hf & Hm & Hb). exists m'. split; [done|]. split.
  - constructor; [|done]. exists s. split; [|done]. rewrite Hm by done. apply lookup_insert_eq.
  - split.
    + intros k Hk. rewrite not_elem_of_cons in Hk. destruct Hk. rewrite Hm by done. by apply lookup_insert_ne.
    + intros k s' [Hk|(L' & HL' & ->)]%Hb; [|right; exists L'; split; [by right|done]].
      destruct (decide (k = l_key L)) as [->|Hne]; [right; exists L; split; [by left|done]|].
      rewrite lookup_insert_ne in Hk by done. by left.
Qed.

Section init.
Context (K : Kube) (HC : CIDRLaws K) (T : Talos) (U : Prefix → Prop) (HT : TalosLaws U T).
Context (order : nat → list Prefix → list Prefix) (Ho : order_ok order).

(** In order, and no mark lost. *)
Definition cloud_grows (r r' : cloudAllocator) : Prop :=
  ca_evolves U r r' ∧ ∀ f c i s0, wf f c s0 → 0 ≤ i < maxCIDRs s0 → holds U f c i s0 r r'.

#[export] Instance cloud_grows_preorder : PreOrder cloud_grows.
Proof.
  split; [intros r; split; [reflexivity|intros; reflexivity]|]. intros r1 r2 r3 [E12 H12] [E23 H23].
  split; [by etransitivity|]. intros f c i s0 Hw Hi. etransitivity; eauto.
Qed.

Lemma occupyCIDR_grows n : gsteps cloud_grows (occupyCIDR order n).
Proof.
  intros r. split; [apply occupyCIDR_steps|]. intros f c i s0 Hw Hi. by apply occupyCIDR_holds.
Qed.

Lemma occupyPodCIDRs_grows node : gsteps cloud_grows (occupyPodCIDRs K T order node).
Proof.
  intros r. split; [by apply occupyPodCIDRs_steps|]. intros f c i s0 Hw Hi. by apply occupyPodCIDRs_holds.
Qed.

Lemma define_grows node : gsteps cloud_grows (defineNodeGlobalCIDRs K T order node).
Proof.
  intros r. split; [by apply defineNodeGlobalCIDRs_steps|]. intros f c i s0 Hw Hi.
  by apply defineNodeGlobalCIDRs_holds.
Qed.

(** The set of layout [L] is there, and every node network of it that meets [b/m]
    is marked. *)
Definition taken (L : layout) (r : cloudAllocator) (b m : Z) : Prop :=
  ∃ s, ca_cidrSets r !! l_key L = Some s ∧ set_like L s ∧
    ∀ i, 0 ≤ i < maxCIDRs s → meets (l_fam L) (l_base L) s b m i → Z.testbit (used s) i = true.

Lemma set_for_evolves L r r' :
  ca_ok U r → ca_evolves U r r' → set_for (ca_cidrSets r) L → set_for (ca_cidrSets r') L.
Proof.
  intros Hr He (s & Es & Hs). destruct (He Hr) as (Hr' & _ & Hcfg & _).
  destruct (Hcfg _ _ Es) as (s' & Es' & Hc). exists s'. split; [done|].
  destruct (ca_sets _ _ Hr' _ _ Es') as (_ & f & c & Ek & Hw'). by apply (set_like_config L s s' f c).
Qed.

Lemma taken_grows L r r' b m : ca_ok U r → cloud_grows r r' → taken L r b m → taken L r' b m.
Proof.
  intros Hr [He Hh] (s & Es & Hs & Hm).
  destruct (set_for_evolves L r r' Hr He) as (s' & Es' & Hs'); [by exists s|].
  destruct (He Hr) as (_ & _ & Hcfg & _). destruct (Hcfg _ _ Es) as (s1 & Es1 & Hc).
  rewrite Es' in Es1. injection Es1 as <-. exists s'. split; [done|]. split; [done|]. intros i Hi Hmeet.
  destruct Hs as (Hw & Hcm & Hnm). rewrite (config_maxCIDRs _ _ Hc) in Hi.
  destruct (Hh _ _ i s Hw Hi) as (_ & s2 & Es2 & _ & Hbit).
  - split; [done|]. exists s. rewrite Hcm. split; [done|]. split; [done|]. apply Hm; [done|].
    unfold meets in *. by rewrite (block_base_config _ _ _ _ i Hc), (config_nodeMaskSize _ _ Hc) in Hmeet.
  - rewrite Hcm in Es2. fold (l_key L) in Es2. rewrite Es' in Es2. by injection Es2 as <-.
Qed.

(** Occupying a network that starts in the range of [L] marks all of it. *)
Lemma occupyCIDR_takes L r b m :
  keys_apart r → set_for (ca_cidrSets r) L → canon (l_fam L) b m →
  in_net (l_fam L) (l_base L) (l_cmask L) b →
  ∃ r', occupyCIDR order (mk_net (l_fam L) b m) r = (Ok true, r') ∧ taken L r' b m.
Proof.
  intros Hr (s & Es & Hs) Hcan Hin. destruct Hs as (Hw & Hcm & Hnm) eqn:EHs. clear EHs.
  unfold occupyCIDR, gbind, range_cidrSets. cbn [mk_net ip_of].
  rewrite AddrFromSlice_mk by apply Hcan. cbn [from_option id].
  rewrite (key_for_unique order Ho r _ (l_key L) s _ Hr eq_refl Es).
  2:{ unfold l_key. rewrite Contains_prefix_of by (rewrite <-Hcm; apply Hw). by apply bool_decide_eq_true. }
  assert (overlap (l_fam L) (l_base L) (clusterMaskSize s) b m) as Hov.
  { exists b. rewrite Hcm. split; [done|]. split; [lia|]. pose proof (pow2_pos (width (l_fam L) - m)).
    pose proof (canon_mask _ _ _ Hcan). lia. }
  destruct (Occupy_inside _ _ s b m Hw Hcan Hov) as (s' & Eo & Hu).
  unfold gcatch, on_key. cbn [ca_cidrSets]. rewrite Es. cbn [mk_net] in Eo. rewrite Eo. cbn [gret].
  eexists. split; [done|]. exists s'. cbn [with_sets ca_cidrSets]. rewrite lookup_insert_eq. split; [done|].
  pose proof (upd_config _ _ _ _ _ Hu) as Hc. split; [by apply (set_like_config L s s' (l_fam L) (l_base L)); [apply Hu|..]|].
  intros i Hi Hmeet. rewrite (config_maxCIDRs _ _ Hc) in Hi. apply (upd_used _ _ _ _ _ Hu i Hi). right.
  unfold meets in *. by rewrite (block_base_config _ _ _ _ i Hc), (config_nodeMaskSize _ _ Hc) in Hmeet.
Qed.

(** A node's networks that start in the range of [L]. *)
Lemma occupyPodCIDRs_takes L node r r' cidr b m :
  ca_ok U r → keys_apart r' → set_for (ca_cidrSets r) L → occupyPodCIDRs K T order node r = (Ok tt, r') →
  (length (PodCIDRs node) ≤ 2)%nat → cidr ∈ PodCIDRs node →
  ParseCIDRSloppy K cidr = inr (mk_net (l_fam L) b m) → canon (l_fam L) b m →
  in_net (l_fam L) (l_base L) (l_cmask L) b → taken L r' b m.
Proof.
  intros Hr Hap HL E Hlen Hin Hp Hcan Hb. unfold occupyPodCIDRs in E.
  destruct (PodCIDRs node) as [|c0 cs] eqn:Epod; [by apply elem_of_nil in Hin|].
  rewrite (proj2 (Nat.ltb_ge 2 (length (c0 :: cs))) Hlen) in E. cbn [length Nat.eqb orb] in E.
  apply (gforeach_reaches cloud_grows) with (x := cidr) in E as (r1 & r2 & H1 & E & H2); [| |done].
  2:{ pose proof occupyCIDR_grows. pose proof define_grows. go_steps. }
  pose proof E as Eb. rewrite Hp in E. destruct (proj1 H1 Hr) as (Hr1 & _).
  assert (cloud_grows r1 r2) as H12.
  { match type of Eb with ?m r1 = _ => assert (gsteps cloud_grows m) as Hm by (pose proof occupyCIDR_grows; pose proof define_grows; go_steps) end.
    specialize (Hm r1). by rewrite Eb in Hm. }
  assert (keys_apart r1) as Hap1 by (apply (keys_apart_back U r1 r' Hr1); [by transitivity r2; [apply H12|apply H2]|done]).
  destruct (occupyCIDR_takes L r1 b m Hap1) as (r3 & Eo & Ht); [by apply (set_for_evolves L r r1 Hr (proj1 H1))|done..|].
  unfold gbind, gcatch in E. rewrite Eo in E. injection E as <-.
  pose proof (occupyCIDR_grows (mk_net (l_fam L) b m) r1) as Hg. rewrite Eo in Hg.
  apply (taken_grows L r3); [by apply (proj1 Hg)|done|done].
Qed.

(** ** The steps of [NewCIDRCloudAllocator] *)

Definition cloud_filter (c : option IPNet) : GoM cloudAllocator unit :=
  match c with Some cidr => filterOutServiceRange order cidr | None => gret tt end.

Lemma cloud_filter_grows c : gsteps cloud_grows (cloud_filter c).
Proof. pose proof occupyCIDR_grows. destruct c; unfold cloud_filter, filterOutServiceRange; go_steps. Qed.

Lemma cloud_filter_ends c r :
  ca_ok U r → (∀ n, c = Some n → sized n) →
  ∃ r', cloud_filter c r = (Ok tt, r') ∧ ca_ok U r' ∧ cloud_grows r r'.
Proof.
  intros Hr Hc. pose proof (cloud_filter_grows c r) as Hg.
  assert (∃ r', cloud_filter c r = (Ok tt, r')) as [r' E].
  { destruct c as [n|]; [|by eexists]. cbn. unfold filterOutServiceRange, gcatch, gbind.
    destruct (occupyCIDR_ok U order Ho n (Hc n eq_refl) r Hr) as [Hnp _].
    destruct (occupyCIDR order n r) as [[?|?|] r1]; [by eexists..|done]. }
  exists r'. rewrite E in Hg. split_and!; [done|by apply (proj1 Hg)|done].
Qed.

Lemma cloud_filter_takes L r b m :
  keys_apart r → set_for (ca_cidrSets r) L → canon (l_fam L) b m →
  in_net (l_fam L) (l_base L) (l_cmask L) b →
  taken L (cloud_filter (Some (mk_net (l_fam L) b m)) r).2 b m.
Proof.
  intros Hr HL Hcan Hb. destruct (occupyCIDR_takes L r b m Hr HL Hcan Hb) as (r' & E & Ht).
  cbn. unfold filterOutServiceRange, gcatch, gbind. by rewrite E.
Qed.

Definition cloud_occupy_nodes (items : list Node) : GoM cloudAllocator unit :=
  gforeach items (λ node, if (length (PodCIDRs node) =? 0)%nat then gret tt else occupyPodCIDRs K T order node).

Lemma cloud_occupy_nodes_grows items : gsteps cloud_grows (cloud_occupy_nodes items).
Proof. unfold cloud_occupy_nodes. pose proof occupyPodCIDRs_grows. go_steps. Qed.

Lemma cloud_occupy_nodes_ok items : gok (ca_ok U) (cloud_occupy_nodes items).
Proof. unfold cloud_occupy_nodes. pose proof (occupyPodCIDRs_ok K HC T U HT order Ho). go_ok. Qed.

Lemma cloud_occupy_nodes_takes L items r r' node cidr b m :
  ca_ok U r → keys_apart r' → set_for (ca_cidrSets r) L → cloud_occupy_nodes items r = (Ok tt, r') → node ∈ items →
  (length (PodCIDRs node) ≤ 2)%nat → cidr ∈ PodCIDRs node →
  ParseCIDRSloppy K cidr = inr (mk_net (l_fam L) b m) → canon (l_fam L) b m →
  in_net (l_fam L) (l_base L) (l_cmask L) b → taken L r' b m.
Proof.
  intros Hr Hap HL E Hn Hlen Hin Hp Hcan Hb. unfold cloud_occupy_nodes in E.
  apply (gforeach_reaches cloud_grows) with (x := node) in E as (r1 & r2 & H1 & E & H2); [| |done].
  2:{ pose proof occupyPodCIDRs_grows. go_steps. }
  destruct (proj1 H1 Hr) as (Hr1 & _).
  assert (length (PodCIDRs node) ≠ 0)%nat as Hne by (by intros H0%nil_length_inv; rewrite H0, elem_of_nil in Hin).
  rewrite (proj2 (Nat.eqb_neq _ _) Hne) in E.
  pose proof (occupyPodCIDRs_grows node r1) as Hg. rewrite E in Hg.
  apply (taken_grows L r2); [by apply (proj1 Hg)|done|].
  assert (keys_apart r2) as Hap2 by (apply (keys_apart_back U r2 r'); [by apply (proj1 Hg)|apply H2|done]).
  by apply (occupyPodCIDRs_takes L node r1 r2 cidr); [| |apply (set_for_evolves L r r1 Hr (proj1 H1))|..].
Qed.

Lemma new_cloud_allocator Ls p nodes :
  params_ok Ls p → NoDup (map l_key Ls) → (∀ L, L ∈ Ls → U (l_key L)) →
  ∃ r0 r1 r2, ca_ok U r0 ∧ ca_clusterCIDRs r0 = ClusterCIDRs p ∧ Forall (set_for (ca_cidrSets r0)) Ls ∧
    cloud_filter (ServiceCIDR p) r0 = (Ok tt, r1) ∧ ca_ok U r1 ∧ cloud_grows r0 r1 ∧
    cloud_filter (SecondaryServiceCIDR p) r1 = (Ok tt, r2) ∧ ca_ok U r2 ∧ cloud_grows r1 r2 ∧
    NewCIDRCloudAllocator K T order p nodes =
      (let '(o, r3) := cloud_occupy_nodes (default [] nodes) r2 in obind o (λ _, Ok r3)).
Proof.
  intros [Hcl Hm Hok Hsvc] Hnd HUL. destruct (make_set_map_ok Ls ∅ Hok Hnd) as (sets & Es & Hf & _ & Hback).
  set (r0 := mkCloudAllocator (ClusterCIDRs p) sets [] 0).
  assert (ca_ok U r0) as Hr0.
  { split; cbn.
    - intros k s Hk. destruct (Hback k s Hk) as [Hn|(L & HL & ->)]; [by rewrite lookup_empty in Hn|].
      split; [by apply HUL|]. rewrite Forall_forall in Hf. destruct (Hf L HL) as (s' & Es' & Hw & Hcm & _).
      rewrite Hk in Es'. injection Es' as <-. exists (l_fam L), (l_base L). by rewrite Hcm.
    - rewrite Hcl. apply Forall_fmap, (Forall_impl _ _ _ Hok). intros L HL.
      eexists _, _, _. split; [done|apply HL]. }
  assert (∀ n, ServiceCIDR p = Some n ∨ SecondaryServiceCIDR p = Some n → sized n) as Hsized.
  { intros n Hn. destruct (Hsvc n Hn) as (f & b & m & -> & Hcan). apply sized_mk_net, Hcan. }
  destruct (cloud_filter_ends (ServiceCIDR p) r0 Hr0) as (r1 & E1 & Hr1 & G1); [by eauto|].
  destruct (cloud_filter_ends (SecondaryServiceCIDR p) r1 Hr1) as (r2 & E2 & Hr2 & G2); [by eauto|].
  exists r0, r1, r2. split_and!; [done..|].
  unfold NewCIDRCloudAllocator. rewrite Hm, Hcl, Es. rewrite <-Hcl. cbn [obind]. fold r0. unfold gbind.
  fold (cloud_filter (ServiceCIDR p)). rewrite E1. fold (cloud_filter (SecondaryServiceCIDR p)). rewrite E2.
  by destruct nodes.
Qed.
End init.
