(* ===== verification/CloudAllocatorUndo.v ===== *)
(** * The cloud allocator gives back exactly what it took

    The marks of an allocator as a set of pairs of a key and a position; what the
    allocation loop adds to it and what the release loop removes. *)

From S2P Require Import Prelude GoNet GoStrings NetIP NetIPRoundTrip CidrSet CidrSetGeometry CidrSetSpec CidrPool.
From S2P Require Import Kube CidrAllocator NodeUtils TalosClient CloudAllocator CloudAllocatorSpec.
From S2P Require Import CloudAllocatorSafety CloudAllocatorRuns.

Local Open Scope go_scope.

(** Position [i] of the set under [k] is marked. *)
Definition mark (r : cloudAllocator) (p : Prefix * Z) : Prop :=
  ∃ s, ca_cidrSets r !! p.1 = Some s ∧ Z.testbit (used s) p.2 = true.

(** [n] is the network at position [p]. *)
Definition placed (r : cloudAllocator) (n : IPNet) (p : Prefix * Z) : Prop :=
  ∃ f c s, p.1 = prefix_of f c (clusterMaskSize s) ∧ ca_cidrSets r !! p.1 = Some s ∧ wf f c s ∧
    0 ≤ p.2 < maxCIDRs s ∧ n = mk_net f (block_base f c s p.2) (nodeMaskSize s).

Lemma placed_evolves U r r' n p : ca_ok U r → ca_evolves U r r' → placed r n p → placed r' n p.
Proof.
  intros Hr He (f & c & s & Ek & Es & Hw & Hi & ->). destruct (He Hr) as (Hr' & _ & Hst & _).
  destruct (Hst _ s Es) as (s' & Es' & Hcfg). destruct (ca_sets _ _ Hr' _ s' Es') as (_ & f' & c' & Ek' & Hw').
  rewrite Ek in Ek'. rewrite (config_clusterMaskSize _ _ Hcfg) in Ek'. apply prefix_of_inj in Ek' as (<- & <- & _).
  exists f, c, s'. rewrite (config_clusterMaskSize _ _ Hcfg), (config_maxCIDRs _ _ Hcfg),
    (config_nodeMaskSize _ _ Hcfg), (block_base_config f c s s' p.2 Hcfg). done.
Qed.

Section taking.
Context (U : Prefix → Prop) (order : nat → list Prefix → list Prefix).

Lemma allocate_mark k r n r' :
  ca_ok U r → on_key k AllocateNext r = (Ok n, r') →
  ∃ i, ¬ mark r (k, i) ∧ placed r n (k, i) ∧ ∀ p, mark r' p ↔ mark r p ∨ p = (k, i).
Proof.
  intros Hr E. unfold on_key in E. destruct (ca_cidrSets r !! k) as [s|] eqn:Es; [|done].
  destruct (ca_sets _ _ Hr k s Es) as (_ & f & c & Ek & Hw).
  destruct (full_dec f c s Hw) as [Hfull|Hfree]; [by rewrite (AllocateNext_full f c) in E|].
  destruct (AllocateNext_free f c s Hw Hfree) as (i & s' & Ea & Ha). rewrite Ea in E.
  apply pair_equal_spec in E as [[= <-] <-]. pose proof (all_first _ _ _ _ _ Ha) as (Hi & Hb & _).
  pose proof (all_used _ _ _ _ _ Ha) as Hused. exists i. split_and!.
  - intros (s1 & E1 & Hb1). cbn in *. rewrite Es in E1. injection E1 as <-. congruence.
  - exists f, c, s. done.
  - intros [k' j]. unfold mark. cbn [fst snd with_sets ca_cidrSets]. destruct (decide (k' = k)) as [->|Hne].
    + rewrite lookup_insert_eq, Es. setoid_rewrite (inj_iff Some). split.
      * intros (s1 & <- & Hj). apply Hused in Hj as [->|Hj]; [by right|by left; exists s].
      * intros [(s1 & <- & Hj)|[= ->]]; exists s'; (split; [done|]); apply Hused; auto.
    + rewrite lookup_insert_ne by done. split; [by left|]. intros [?|[= ? _]]; done.
Qed.

(** What the allocation loop takes: the networks of [ps], all unmarked before. *)
Lemma allocate_each_marks node g idx cidrs r l r' :
  ca_ok U r → allocate_each order node g idx cidrs r = (Ok l, r') →
  ∃ ps, NoDup ps ∧ (∀ p, p ∈ ps → ¬ mark r p) ∧ (∀ p, mark r' p ↔ mark r p ∨ p ∈ ps) ∧
    Forall2 (placed r') (omap id l) ps.
Proof.
  revert idx r l. induction cidrs as [|cidr cidrs IH]; intros idx r l Hr; cbn [allocate_each].
  { intros [= <- <-]. exists []. split_and!; [constructor|set_solver|set_solver|constructor]. }
  unfold gbind, gof_outcome. destruct (selecting_ip cidr g) as [ip|e|]; [|done..].
  destruct (range_cidrSets order r) as [[keys|e|] r1] eqn:E1; [|done..].
  pose proof (range_steps U order r Hr) as (Hr1 & _). rewrite E1 in Hr1. cbn [snd] in Hr1.
  assert (∀ p, mark r1 p ↔ mark r p) as H01 by (injection E1 as _ <-; done).
  destruct (key_for ip keys) as [k|]; cbn [gret].
  - unfold gcatch. destruct (on_key k AllocateNext r1) as [[n|e|] r2] eqn:E2; [|done..]. cbn [gret].
    destruct (allocate_mark k r1 n r2 Hr1 E2) as (i & Hfree & Hpl & Hmark).
    pose proof (on_key_steps U k AllocateNext AllocateNext_safe r1) as Hev. rewrite E2 in Hev. cbn [snd] in Hev.
    destruct (Hev Hr1) as (Hr2 & _).
    pose proof (cloud_allocate_each_steps order U node g (S idx) cidrs r2) as Hev2.
    destruct (allocate_each order node g (S idx) cidrs r2) as [[l1|e|] r3] eqn:E3; [|done..]. cbn [snd] in Hev2.
    intros [= <- <-]. destruct (IH _ _ _ Hr2 E3) as (ps & Hnd & Hnew & Hall & Hf2).
    exists ((k, i) :: ps). split_and!.
    + apply NoDup_cons. split; [|done]. intros Hin. apply (Hnew _ Hin), Hmark. by right.
    + intros p [->|Hp]%elem_of_cons; [by rewrite <-H01|]. rewrite <-H01. intros Hm. apply (Hnew p Hp), Hmark. by left.
    + intros p. rewrite Hall, Hmark, H01, elem_of_cons. naive_solver.
    + constructor; [|done]. eapply placed_evolves, placed_evolves; [exact Hr2|exact Hev2|exact Hr1|exact Hev|done].
  - destruct (allocate_each order node g (S idx) cidrs r1) as [[l1|e|] r3] eqn:E3; [|done..].
    intros [= <- <-]. destruct (IH _ _ _ Hr1 E3) as (ps & Hnd & Hnew & Hall & Hf2). exists ps.
    split_and!; [done| | |done]; intros p; rewrite ?Hall, <-H01; [apply Hnew|done].
Qed.

End taking.

Section undo.
Context (K : Kube) (HC : CIDRLaws K) (U : Prefix → Prop).
Context (order : nat → list Prefix → list Prefix) (Ho : order_ok order).

(** Giving back a placed network clears its mark and no other. *)
Lemma release_placed r n p :
  keys_apart r → placed r n p →
  ∃ r', releaseCIDRs K order [IPNet_String (Some n)] r = (Ok tt, r') ∧
    (∀ q, mark r' q ↔ mark r q ∧ q ≠ p) ∧ ca_actions r' = ca_actions r.
Proof.
  intros Hr (f & c & s & Ek & Es & Hw & Hi & ->). destruct p as [k i]. cbn [fst snd] in *.
  pose proof (wf_geom _ _ _ Hw) as HG. pose proof (block_canon f c s HG i Hi) as Hcan.
  set (a := block_base f c s i) in *. set (m := nodeMaskSize s) in *.
  assert (in_net f a m a) as Hself. { unfold in_net. pose proof (pow2_pos (width f - m) (proj2 (Z.le_0_sub _ _) (proj2 (canon_mask _ _ _ Hcan)))). lia. }
  assert (Prefix_Contains k (addr_of f a) = true) as Hc.
  { rewrite Ek. exact (block_inside f c s i a HG Hi Hself). }
  unfold releaseCIDRs. cbn [gforeach]. rewrite (parse_canon K f a m HC Hcan).
  unfold gbind at 1. unfold gbind at 1, range_cidrSets. set (keys := order _ _).
  pose proof (key_for_unique order Ho r (addr_of f a) k s keys Hr eq_refl Es Hc) as Ekey.
  destruct keys as [|k0 keys]; [done|]. cbn [mk_net ip_of].
  rewrite MustParseAddr_mk by apply Hcan. unfold gbind at 1, gof_outcome at 1. rewrite Ekey.
  destruct (Release_inside f c s a m Hw Hcan) as (s' & Er & Hu).
  { exists a. split; [|done]. by apply (block_in_cluster f c s HG i a Hi). }
  unfold gcatch, on_key. cbn [ca_cidrSets]. rewrite Es.
  change (mkIPNet (mk_ip f a) (CIDRMask m (width f))) with (mk_net f a m). rewrite Er.
  eexists. split; [reflexivity|]. split; [|done]. intros [k' j].
  unfold mark. cbn [fst snd with_sets ca_cidrSets]. destruct (decide (k' = k)) as [->|Hne].
  - rewrite lookup_insert_eq, Es. setoid_rewrite (inj_iff Some).
    assert (Z.testbit (used s') j = true ↔ Z.testbit (used s) j = true ∧ j ≠ i) as Hj; [|naive_solver].
    destruct (decide (0 ≤ j < maxCIDRs s)) as [Hj|Hj].
    + rewrite (upd_used _ _ _ _ _ Hu j Hj). unfold meets. split; intros [Hb H]; (split; [done|]).
      * intros ->. apply H. exists a. done.
      * intros Hov. apply (blocks_disjoint f c s j i HG); [done|exact Hov].
    + pose proof (upd_config _ _ _ _ _ Hu) as Hcfg. split.
      * intros Hb. apply (wf_used _ _ _ (upd_wf _ _ _ _ _ Hu)) in Hb. by rewrite (config_maxCIDRs _ _ Hcfg) in Hb.
      * intros [Hb _]. by apply (wf_used _ _ _ Hw) in Hb.
  - rewrite lookup_insert_ne by done. split; [|naive_solver]. intros H. split; [done|]. congruence.
Qed.

Lemma keys_apart_stay r r' : no_new_keys r r' → keys_apart r → keys_apart r'.
Proof. intros Hk Ha k1 k2 a H1 H2. apply Ha; by apply Hk. Qed.

Lemma releaseCIDRs_no_new_keys l : gsteps no_new_keys (releaseCIDRs K order l).
Proof. unfold releaseCIDRs. go_steps. Qed.

(** The release loop clears the marks of the placed networks; nil networks are
    passed over. *)
Lemma release_each_marks l ps r :
  ca_ok U r → keys_apart r → Forall2 (placed r) (omap id l) ps →
  ∃ r', release_each K order l r = (Ok tt, r') ∧
    (∀ q, mark r' q ↔ mark r q ∧ q ∉ ps) ∧ ca_actions r' = ca_actions r.
Proof.
  revert ps r. induction l as [|o l IH]; intros ps r Hr Hap Hps.
  { inversion Hps; subst. exists r. split_and!; [done| |done]. set_solver. }
  destruct o as [n|]; cbn [omap list_omap id] in Hps.
  - inversion Hps as [|? p ? ps' Hp Hps']; subst. destruct (release_placed r n p Hap Hp) as (r1 & E1 & Hm1 & Ha1).
    pose proof (releaseCIDRs_steps K order U [IPNet_String (Some n)] r) as Hev. rewrite E1 in Hev. cbn [snd] in Hev.
    pose proof (releaseCIDRs_no_new_keys [IPNet_String (Some n)] r) as Hnn. rewrite E1 in Hnn. cbn [snd] in Hnn.
    destruct (Hev Hr) as (Hr1 & _). destruct (IH ps' r1 Hr1 (keys_apart_stay _ _ Hnn Hap)) as (r2 & E2 & Hm2 & Ha2).
    { eapply Forall2_impl; [exact Hps'|]. intros x q. by apply (placed_evolves U). }
    exists r2. split_and!; [|intros q; rewrite Hm2, Hm1; set_solver|congruence].
    unfold release_each. cbn [gforeach]. unfold gbind, gcatch. rewrite E1. exact E2.
  - destruct (IH ps r Hr Hap Hps) as (r2 & E2 & Hm2 & Ha2). exists r2. split_and!; [|done|done].
    unfold release_each. cbn [gforeach]. unfold gbind, gcatch, releaseCIDRs. cbn [gforeach IPNet_String].
    destruct (parse_nil K HC) as [e ->]. exact E2.
Qed.

End undo.

(** Equal marks are equal use. *)
Lemma same_marks U r r' k s s' :
  ca_ok U r → ca_ok U r' → (∀ q, mark r q ↔ mark r' q) →
  ca_cidrSets r !! k = Some s → ca_cidrSets r' !! k = Some s' → config s' = config s →
  used s' = used s ∧ allocatedCIDRs s' = allocatedCIDRs s.
Proof.
  intros Hr Hr' Hm Es Es' Hcfg. assert (used s' = used s) as Hu.
  { apply Z.bits_inj'. intros i Hi. apply eq_true_iff_eq. specialize (Hm (k, i)). unfold mark in Hm. cbn in Hm.
    rewrite Es, Es' in Hm. split; intros Hb; [destruct (proj2 Hm) as (s1 & [= <-] & ?)|destruct (proj1 Hm) as (s1 & [= <-] & ?)];
      eauto. }
  split; [done|]. destruct (ca_sets _ _ Hr k s Es) as (_ & f & c & _ & Hw).
  destruct (ca_sets _ _ Hr' k s' Es') as (_ & f' & c' & _ & Hw').
  by rewrite (wf_count _ _ _ Hw), (wf_count _ _ _ Hw'), Hu, (config_maxCIDRs _ _ Hcfg).
Qed.

(** Two states have the same sets with the same marks. *)
Definition same_sets (r r' : cloudAllocator) : Prop :=
  ∀ k s, ca_cidrSets r !! k = Some s →
    ∃ s', ca_cidrSets r' !! k = Some s' ∧ config s' = config s ∧
      used s' = used s ∧ allocatedCIDRs s' = allocatedCIDRs s.

Section update.
Context (K : Kube) (HK : KubeLaws K) (HC : CIDRLaws K) (U : Prefix → Prop).
Context (order : nat → list Prefix → list Prefix) (Ho : order_ok order).

(** Giving back all that the allocation loop took, whatever was recorded since. *)
Lemma release_each_undoes node g idx cidrs r1 l r2 acts :
  ca_ok U r1 → keys_apart r2 → allocate_each order node g idx cidrs r1 = (Ok l, r2) →
  ∃ r3, release_each K order l (add_actions acts r2) = (Ok tt, r3) ∧ same_sets r1 r3 ∧
    ca_actions r3 = acts ++ ca_actions r2.
Proof.
  intros Hr1 Hap E.
  pose proof (cloud_allocate_each_steps order U node g idx cidrs r1) as Hev. rewrite E in Hev. cbn [snd] in Hev.
  destruct (Hev Hr1) as (Hr2 & _ & Hst & _).
  destruct (allocate_each_marks U order node g idx cidrs r1 l r2 Hr1 E) as (ps & _ & Hnew & Hall & Hpl).
  rewrite add_actions_cloud. set (r4 := mkCloudAllocator _ _ _ _).
  assert (ca_ok U r4) as Hr4 by (by destruct Hr2; split).
  destruct (release_each_marks K HC U order Ho l ps r4 Hr4 Hap Hpl) as (r5 & E5 & Hm5 & Ha5).
  pose proof (release_each_steps K order U l r4) as Hev5. rewrite E5 in Hev5 |- *. cbn [snd] in Hev5.
  destruct (Hev5 Hr4) as (Hr5 & _ & Hst5 & _).
  exists r5. split; [done|]. split; [|by rewrite Ha5].
  intros k s Es. destruct (Hst k s Es) as (s2 & Es2 & Hc2). destruct (Hst5 k s2 Es2) as (s5 & Es5 & Hc5).
  exists s5. split; [done|]. assert (config s5 = config s) as Hc by congruence. split; [done|].
  apply (same_marks U r1 r5 k s s5); [done|done| |done|done|done].
  intros q. rewrite Hm5. change (mark r4 q) with (mark r2 q). rewrite Hall.
  split; [intros Hq; split; [by left|]|]. { intros Hin. by apply (Hnew q Hin). } by intros [[?|?] ?].
Qed.

(** [updateCIDRsAllocation] of just allocated networks: what it returns, the sets it
    leaves and what it did, for each answer of the cache. *)
Lemma update_outcomes node g idx cidrs r1 l r2 name :
  ca_ok U r1 → keys_apart r2 → allocate_each order node g idx cidrs r1 = (Ok l, r2) → l ≠ [] →
  let strs := ipnetToStringList l in
  let ends o r3 acts := updateCIDRsAllocation K order name l r2 = (o, r3) ∧ ca_actions r3 = acts ++ ca_actions r2 in
  match lister_Get K (ca_actions r2) name with
  | inl e => ∃ r3, ends (Err e) r3 [ActGet name] ∧ ca_cidrSets r3 = ca_cidrSets r2
  | inr node' =>
      if decide (PodCIDRs node' = strs) then ∃ r3, ends (Ok tt) r3 [ActGet name] ∧ ca_cidrSets r3 = ca_cidrSets r2
      else if decide (PodCIDRs node' = []) then
        ∃ r3 past, Forall (refused_patch (Name node') strs) past ∧
          (((length past < 3)%nat ∧ ca_cidrSets r3 = ca_cidrSets r2 ∧
            ends (Ok tt) r3 (accepted_patch (Name node') strs :: past ++ [ActGet name])) ∨
           (length past = 3%nat ∧ same_sets r1 r3 ∧ ∃ e,
            ends (Err (ErrPatch e)) r3 (ActEvent (Name node') "CIDRAssignmentFailed" :: past ++ [ActGet name])))
      else ∃ r3, ends (Ok tt) r3 [ActGet name] ∧ same_sets r1 r3
  end.
Proof.
  intros Hr1 Hap E Hl strs ends. subst ends.
  assert (strs ≠ []) as Hs by (by destruct l).
  pose proof (λ acts, release_each_undoes node g idx cidrs r1 l r2 acts Hr1 Hap E) as Hundo. cbn beta.
  unfold updateCIDRsAllocation. fold strs. unfold nodeLister_Get, gbind. cbn [gget trace cloudAllocator_traced].
  change (emit ?a r2) with (@Ok unit tt, add_action a r2).
  destruct (lister_Get K (ca_actions r2) name) as [e|node']; cbn [gfail gret]; [by eexists|].
  destruct (decide (PodCIDRs node' = strs)) as [Ep|Ep].
  { rewrite Ep, bool_decide_true by done. unfold strs, ipnetToStringList at 1. rewrite length_map, Nat.eqb_refl.
    by eexists. }
  rewrite bool_decide_false, andb_false_r by done.
  destruct (decide (PodCIDRs node' = [])) as [En|En].
  2:{ destruct (PodCIDRs node') as [|? ?]; [done|]. destruct (Hundo [ActGet name]) as (r3 & E3 & ? & ?). by exists r3. }
  rewrite En. cbn [length Nat.eqb negb].
  destruct (patch_attempts_spec K cidrUpdateRetries (add_action (ActGet name) r2) None (Name node') strs Hs)
    as [(past & Hpast & Hlen & _ & ->)|(past & err & Hpast & Hlen & -> & _ & Herr)].
  { eexists _, past. split; [done|]. left. split; [done|]. rewrite add_actions_cloud.
    split; [|split; [reflexivity|]]; cbn; [done|by rewrite <-app_assoc]. }
  destruct Herr as (e & ->); [done|]. unfold RecordNodeStatusChange.
  change (emit ?a ?x) with (@Ok unit tt, add_action a x). rewrite (timeout_status K HK) by apply ErrPatch_no_status.
  destruct (Hundo (ActEvent (Name node') "CIDRAssignmentFailed" :: past ++ [ActGet name])) as (r3 & E3 & Hs3 & Ha3).
  exists r3, past. split; [done|]. right. split; [done|]. split; [done|]. exists e. split; [|done].
  replace (add_action _ (add_actions past _)) with
    (add_actions (ActEvent (Name node') "CIDRAssignmentFailed" :: past ++ [ActGet name]) r2); [by rewrite E3|].
  unfold add_actions. cbn [foldr]. by rewrite foldr_app.
Qed.
End update.
