(* ===== verification/CloudAllocatorDemo.v ===== *)
(** * A small cluster for the cloud allocator

    An environment that meets the assumptions of the theorems: a parser for
    networks, an API server that accepts or refuses, nodes whose public IPv6
    addresses lie in one /64 network, and an allocator for an IPv4 range and a
    private IPv6 range. *)

From S2P Require Import Prelude GoNet GoStrings NetIP NetIPRoundTrip CidrSet CidrSetGeometry CidrSetSpec CidrPool.
From S2P Require Import Kube CidrAllocator AllocatorParams NodeUtils TalosClient CloudAllocator CloudAllocatorSpec.
From S2P Require Import CloudAllocatorSafety CloudAllocatorRuns CloudAllocatorInit.

Local Open Scope go_scope.

(** ** An environment *)

(** The network of a prefix, for [ParseCIDRSloppy]. *)
Definition checked_net (f : family) (a m : Z) : error + IPNet :=
  if decide (0 ≤ m ≤ width f ∧ 0 ≤ a < 2 ^ width f) then inr (mk_net f a m)
  else inl (ErrNew "invalid CIDR address").
Definition parse_cidr (s : string) : error + IPNet :=
  match ParsePrefix s with
  | Some (mkPrefix (Addr4 x) m) => checked_net V4 (round_to x (32 - m)) m
  | Some (mkPrefix (Addr6 x _) m) => checked_net V6 (round_to x (128 - m)) m
  | _ => inl (ErrNew "invalid CIDR address")
  end.
Fixpoint parse_cidrs (l : list string) : error + list IPNet :=
  match l with
  | [] => inr []
  | s :: l' => match parse_cidr s, parse_cidrs l' with
               | inr n, inr ns => inr (n :: ns)
               | inl e, _ => inl e
               | _, inl e => inl e
               end
  end.

(** The last networks the API server accepted for a node. *)
Fixpoint accepted_for (name : string) (past : list action) : list string :=
  match past with
  | [] => []
  | ActPatch n _ cidrs None :: past' => if decide (n = name) then cidrs else accepted_for name past'
  | _ :: past' => accepted_for name past'
  end.

(** A node with one internal address. *)
Definition cloud_node (name ip : string) (cidrs : list string) : Node :=
  mkNode name ∅ ∅ false (default "" (head cidrs)) cidrs "" [] [mkNodeAddress NodeInternalIP ip] None None.

(** The API server accepts what [accept] lets through; the cache is up to date. *)
Definition cloud_kube (ip_of_node : string → string) (accept : list action → bool) : Kube := {|
  ParseCIDRSloppy := parse_cidr;
  ParseCIDRs := parse_cidrs;
  IsNotFound e := bool_decide (errors_As e = Some "NotFound");
  IsServerTimeout e := bool_decide (errors_As e = Some "ServerTimeout");
  MatchTaint t u := bool_decide (taint_key t = taint_key u ∧ taint_effect t = taint_effect u);
  lister_Get past name := inr (cloud_node name (ip_of_node name) (accepted_for name past));
  api_Patch past name _ _ := if accept past then None else Some (ErrAPI "Conflict") |}.

Lemma parse_cidr_prefix f x m :
  0 ≤ m ≤ width f → 0 ≤ x < 2 ^ width f →
  parse_cidr (Prefix_String (prefix_of f x m)) = inr (mk_net f (round_to x (width f - m)) m).
Proof.
  intros Hm Hx. unfold parse_cidr. rewrite ParsePrefix_String by (by apply prefix_of_ok).
  assert (0 ≤ round_to x (width f - m) < 2 ^ width f) as Hr.
  { unfold round_to. pose proof (pow2_pos (width f - m) ltac:(lia)).
    pose proof (Z.div_mod x (2 ^ (width f - m)) ltac:(lia)).
    pose proof (Z.mod_pos_bound x (2 ^ (width f - m)) ltac:(lia)).
    pose proof (Z.div_pos x (2 ^ (width f - m)) ltac:(lia) ltac:(lia)). nia. }
  destruct f; cbn [prefix_of addr_of]; unfold checked_net; by rewrite decide_True.
Qed.

Lemma cloud_kube_laws ips accept : KubeLaws (cloud_kube ips accept).
Proof.
  split; cbn.
  - intros e ->. done.
  - intros e ->. done.
  - intros t u. apply bool_decide_eq_true.
  - intros s n. unfold parse_cidr, checked_net. repeat case_match; intros; simplify_eq;
      apply sized_mk_net; naive_solver.
Qed.

Lemma cloud_kube_cidrs ips accept : CIDRLaws (cloud_kube ips accept).
Proof.
  split; cbn.
  - intros s n. unfold parse_cidr, checked_net.
    repeat case_match; intros; simplify_eq; eexists _, _, _; (split; [reflexivity|naive_solver]).
  - intros f x m Hm Hx _. by apply parse_cidr_prefix.
  - eexists. vm_compute. reflexivity.
  - induction l as [|s l IH]; intros ns; cbn; [intros [= <-]; constructor|].
    destruct (parse_cidr s) eqn:E; [done|]. destruct (parse_cidrs l); [done|]. intros [= <-]. constructor; auto.
Qed.

(** Networks of one IPv4 range, and any /64 networks of IPv6. *)
Definition demo_range : Prefix := prefix_of V4 (10 * 2 ^ 24) 24.
Definition demo_segments (k : Prefix) : Prop := k = demo_range ∨ ∃ c, k = prefix_of V6 c 64 ∧ canon V6 c 64.

(** Every node of the cluster has an address in [2001:db8::/64]. *)
Definition node_ip (name : string) : string := if decide (name = "a") then "2001:db8::5" else "2001:db8::6".
Definition segment_talos : Talos :=
  demo_talos (λ ip, [demo_iface "lo" "::1/128";
                     demo_iface "eth0" (if decide (ip = "2001:db8::5") then "2001:db8::5/64" else "2001:db8::6/64")]).

Definition db8 : Z := 0x20010db8 * 2 ^ 96.

Lemma segment_talos_laws : TalosLaws demo_segments segment_talos.
Proof.
  assert (∀ x, x = db8 + 5 ∨ x = db8 + 6 →
    global_v6 (prefix_of V6 x 64) ∧ demo_segments (segment (prefix_of V6 x 64))) as Hx.
  { intros x Hx. assert (0 ≤ x < 2 ^ 128 ∧ 2 ^ 64 ≤ x) as [Hr Hl] by (unfold db8 in Hx; lia).
    split; [split; [by apply prefix_of_ok|by exists x]|]. right. rewrite segment_of by lia.
    change (segment_bits 64) with 64. eexists. split; [done|]. by apply round_to_canon. }
  assert (∀ ip, Address (demo_iface "eth0" (if decide (ip = "2001:db8::5") then "2001:db8::5/64" else "2001:db8::6/64")) =
    prefix_of V6 (db8 + if decide (ip = "2001:db8::5") then 5 else 6) 64) as Ea.
  { intros ip. case_decide; vm_compute; reflexivity. }
  split; cbn [segment_talos demo_talos talos_GetNodeIfaces].
  - intros past ip l [= <-]. apply Forall_cons. split; [|apply Forall_singleton].
    + vm_compute. repeat split; discriminate.
    + rewrite Ea. case_decide; apply prefix_of_ok; unfold db8; cbn [width]; lia.
  - intros past ip l i [= <-] Hi. apply elem_of_cons in Hi as [->|Hi]; [by vm_compute|].
    apply list_elem_of_singleton in Hi as ->. rewrite Ea. intros _ _ _.
    destruct (Hx (db8 + if decide (ip = "2001:db8::5") then 5 else 6)) as [Hg Hs]; [case_decide; auto|done].
Qed.

Definition demo_layouts : list layout :=
  [mkLayout V4 (10 * 2 ^ 24) 24 26; mkLayout V6 (0xfd00 * 2 ^ 112) 64 80].
Definition demo_params : CIDRAllocatorParams :=
  mkParams (map l_cluster demo_layouts) None None (map l_nmask demo_layouts).

Definition demo_cloud : cloudAllocator :=
  match make_set_map (ClusterCIDRs demo_params) (NodeCIDRMaskSizes demo_params) ∅ with
  | Ok m => mkCloudAllocator (ClusterCIDRs demo_params) m [] 0
  | _ => mkCloudAllocator [] ∅ [] 0
  end.

Lemma demo_canon4 : canon V4 (10 * 2 ^ 24) 24.
Proof. split; [done|done|by vm_compute|done]. Qed.
Lemma demo_canon6 : canon V6 (0xfd00 * 2 ^ 112) 64.
Proof. split; [done|done|by vm_compute|]. intros _. by vm_compute. Qed.

Lemma demo_layouts_ok : Forall layout_ok demo_layouts.
Proof.
  constructor; [|constructor; [|constructor]].
  - split; cbn; [apply demo_canon4|done..].
  - split; cbn; [apply demo_canon6|done..|].
    intros x Hx _ E. unfold in_net in Hx. cbn [width] in Hx. pose proof (Z.div_mod x (2 ^ 32) ltac:(lia)).
    pose proof (Z.mod_pos_bound x (2 ^ 32) ltac:(lia)). lia.
Qed.

Lemma demo_keys : NoDup (map l_key demo_layouts).
Proof. apply (bool_decide_unpack _). vm_compute. exact I. Qed.

Lemma demo_layouts_segments L : L ∈ demo_layouts → demo_segments (l_key L).
Proof.
  intros [->|[->|[]%elem_of_nil]%elem_of_cons]%elem_of_cons; [by left|]. right. eexists. split; [done|apply demo_canon6].
Qed.

Lemma demo_params_ok : params_ok demo_layouts demo_params.
Proof. split; [done..|apply demo_layouts_ok|]. intros n [[=]|[=]]. Qed.

Lemma demo_cloud_ok : ca_ok demo_segments demo_cloud.
Proof.
  destruct (make_set_map_ok demo_layouts ∅ demo_layouts_ok demo_keys) as (m & E & Hf & _ & Hb).
  unfold demo_cloud. change (make_set_map (ClusterCIDRs demo_params) (NodeCIDRMaskSizes demo_params) ∅)
    with (make_set_map (map l_cluster demo_layouts) (map l_nmask demo_layouts) ∅). rewrite E.
  split; cbn [ca_cidrSets ca_clusterCIDRs].
  - intros k s Hk. destruct (Hb k s Hk) as [Hn|(L & HL & ->)]; [by rewrite lookup_empty in Hn|].
    split; [by apply demo_layouts_segments|]. rewrite Forall_forall in Hf. destruct (Hf L HL) as (s' & Es & Hw & Hcm & _).
    rewrite Hk in Es. injection Es as <-. exists (l_fam L), (l_base L). rewrite Hcm. split; [reflexivity|exact Hw].
  - constructor; [|constructor; [|constructor]]; eexists _, _, _; (split; [reflexivity|]);
      [apply demo_canon4|apply demo_canon6].
Qed.

Definition demoK : Kube := cloud_kube node_ip (λ _, true).
Definition demo_order (i : nat) (l : list Prefix) : list Prefix := if Nat.even i then l else rev l.
Lemma demo_order_ok : order_ok demo_order.
Proof. intros i l. unfold demo_order. destruct (Nat.even i); [done|]. symmetry. apply Permutation_rev. Qed.
