(* ===== verification/CloudAllocatorTheorems.v ===== *)
(** * Theorems about the cloud allocator

    The allocator as its clients see it, and the behaviours the maintainers should
    know.  The witnesses run on the small cluster of [CloudAllocatorDemo]. *)

From S2P Require Import Prelude GoNet GoStrings NetIP NetIPRoundTrip CidrSet CidrSetGeometry CidrSetSpec CidrPool.
From S2P Require Import Kube CidrAllocator NodeUtils TalosClient CloudAllocator CloudAllocatorSpec.
From S2P Require Import AllocatorParams CloudAllocatorSafety CloudAllocatorRuns CloudAllocatorUndo CloudAllocatorInit CloudAllocatorDemo.

Local Open Scope go_scope.

(** ** Safety *)

(** C15. Two nodes never share a network, also when their networks come from
    different sets: when a run of the allocator assigns networks to a node and
    later, after any allocations and releases, assigns networks to a node again,
    then a network of the first and a network of the second share no address,
    provided no release in between named a network that meets the first.  This
    holds for every order of map iteration and all answers of the API server and
    of Talos, with one exception the code does not guard against: by the end of the
    run the allocator has two sets of which one starts inside the other. *)
Theorem cloud_nodes_never_share K T order r n1 mid n2 strs1 strs2 :
  CIDRLaws K → TalosLaws anywhere T → ca_ok anywhere r →
  let r1 := (cloud_AllocateOrOccupyCIDR K T order (Some n1) r).2 in
  let r2 := alloc_run (cloudAllocator_CIDRAllocator T order) K mid r1 in
  let r3 := (cloud_AllocateOrOccupyCIDR K T order (Some n2) r2).2 in
  assigned_in r r1 strs1 → assigned_in r2 r3 strs2 →
  sets_nested r3 = true ∨
  ∃ nets1 nets2, strs1 = ipnetToStringList nets1 ∧ strs2 = ipnetToStringList nets2 ∧
    ∀ x y, Some x ∈ nets1 → Some y ∈ nets2 →
      ∃ f a m f' b m', x = mk_net f a m ∧ canon f a m ∧ y = mk_net f' b m' ∧ canon f' b m' ∧
        (Forall (cloud_spares K f a m) mid → f' = f → ¬ overlap f a m b m').
Proof.
  intros HC HT Hr r1 r2 r3 H1 H3. destruct (sets_nested r3) eqn:Hn; [by left|right].
  pose proof (cloud_AllocateOrOccupyCIDR_steps K T order anywhere HT (Some n1) r Hr) as (Hr1 & _). fold r1 in Hr1.
  pose proof (cloud_run_evolves K T anywhere HT order mid r1) as E12. fold r2 in E12. destruct (E12 Hr1) as (Hr2 & _).
  pose proof (cloud_AllocateOrOccupyCIDR_steps K T order anywhere HT (Some n2) r2) as E23. fold r3 in E23.
  destruct (E23 Hr2) as (Hr3 & _). pose proof (nested_or_apart r3 Hn) as A3.
  pose proof (keys_apart_back anywhere r2 r3 Hr2 E23 A3) as A2.
  pose proof (keys_apart_back anywhere r1 r2 Hr1 E12 A2) as A1.
  destruct (cloud_assigned K T anywhere HT order r n1 strs1 Hr A1 H1) as (l1 & g1 & ra & -> & _ & _ & _ & Hl1).
  destruct (cloud_assigned K T anywhere HT order r2 n2 strs2 Hr2 A3 H3) as (l2 & g2 & rb & -> & _ & _ & _ & Hl2).
  exists l1, l2. split; [done|]. split; [done|]. intros x y Hx Hy.
  destruct (Hl1 x Hx) as [(f & c & i & s0 & Hw & Hi & Hm & ->) _]. fold r1 in Hm.
  destruct (Hl2 y Hy) as (Hg & Hu & _). destruct (granted_canon anywhere _ _ Hg) as (f' & b & m' & -> & Hcb).
  eexists f, _, _, f', b, m'. split; [done|]. split; [by apply block_canon; [apply Hw|]|].
  split; [done|]. split; [done|]. intros Hsp ->.
  pose proof (cloud_run_holds K HC T anywhere HT order f c i s0 mid r1 Hw Hi A2 Hsp Hm) as Hm2. fold r2 in Hm2.
  destruct (Hu f c i s0 Hw Hi Hm2) as (f2 & b2 & m2 & E & Hc2 & Hno).
  apply mk_net_inj in E as (<- & <- & <-); [|done..]. by apply Hno.
Qed.

Lemma segment_talos_any : TalosLaws anywhere segment_talos.
Proof. exact (TalosLaws_anywhere _ _ segment_talos_laws). Qed.
Lemma demo_cloud_any : ca_ok anywhere demo_cloud.
Proof. exact (ca_ok_anywhere _ _ demo_cloud_ok). Qed.

Definition node_a : Node := cloud_node "a" "2001:db8::5" [].
Definition node_b : Node := cloud_node "b" "2001:db8::6" [].
Definition node_c : Node := cloud_node "c" "2001:db8::6" [].
Notation demo_allocate n := (cloud_AllocateOrOccupyCIDR demoK segment_talos demo_order (Some n)).
Notation demo_run := (alloc_run (cloudAllocator_CIDRAllocator segment_talos demo_order) demoK).

Definition talk (name ip : string) : list action := [ActGet name; ActGetNodeIfaces ip; ActTalosNew].

Lemma cloud_nodes_never_share_witness :
  let r1 := (demo_allocate node_a demo_cloud).2 in
  let r2 := demo_run [OpAllocate (Some node_c)] r1 in
  let r3 := (demo_allocate node_b r2).2 in
  assigned_in demo_cloud r1 ["10.0.0.0/26"; "2001:db8:0:0:1::/80"] ∧
  assigned_in r2 r3 ["10.0.0.128/26"; "2001:db8:0:0:3::/80"] ∧
  ∃ nets1 nets2, ["10.0.0.0/26"; "2001:db8:0:0:1::/80"] = ipnetToStringList nets1 ∧
    ["10.0.0.128/26"; "2001:db8:0:0:3::/80"] = ipnetToStringList nets2 ∧
    ∀ x y, Some x ∈ nets1 → Some y ∈ nets2 →
      ∃ f a m f' b m', x = mk_net f a m ∧ canon f a m ∧ y = mk_net f' b m' ∧ canon f' b m' ∧
        (f' = f → ¬ overlap f a m b m').
Proof.
  intros r1 r2 r3.
  assert (assigned_in demo_cloud r1 ["10.0.0.0/26"; "2001:db8:0:0:1::/80"]) as A1.
  { exists "a", (talk "a" "2001:db8::5"). vm_compute. reflexivity. }
  assert (assigned_in r2 r3 ["10.0.0.128/26"; "2001:db8:0:0:3::/80"]) as A3.
  { exists "b", (talk "b" "2001:db8::6"). vm_compute. reflexivity. }
  split; [exact A1|]. split; [exact A3|].
  destruct (cloud_nodes_never_share demoK segment_talos demo_order demo_cloud node_a
    [OpAllocate (Some node_c)] node_b _ _ (cloud_kube_cidrs _ _) segment_talos_any
    demo_cloud_any A1 A3) as [Hn|(nets1 & nets2 & E1 & E2 & H)].
  { exfalso. revert Hn. vm_compute. discriminate. }
  exists nets1, nets2. split; [exact E1|]. split; [exact E2|]. intros x y Hx Hy.
  destruct (H x y Hx Hy) as (f & a & m & f' & b & m' & Ex & Hca & Ey & Hcb & Hno).
  exists f, a, m, f', b, m'. split; [exact Ex|]. split; [exact Hca|]. split; [exact Ey|]. split; [exact Hcb|].
  apply Hno. repeat constructor.
Defined.

(** C17. A node's pods never get a network with the node's own addresses: when the
    allocator found a public network on a node and assigned networks to it, none of
    them contains a public IPv6 address of the node (from its status, or given to
    the kubelet), for every order of map iteration and all answers, unless of two
    sets of the allocator one starts inside the other. *)
Theorem cloud_avoids_node_addresses K T order r node g r1 ips x strs :
  TalosLaws anywhere T → order_ok order → ca_ok anywhere r →
  defineNodeGlobalCIDRs K T order (Some node) r = (Ok g, r1) → g ≠ "" →
  GetNodeIPs (Some node) = Ok ips → Addr6 x "" ∈ ips → IsPrivate (Addr6 x "") = false →
  0 ≤ x < 2 ^ 128 → Is4In6 (Addr6 x "") = false →
  let r' := (cloud_AllocateOrOccupyCIDR K T order (Some node) r).2 in
  assigned_in r r' strs →
  sets_nested r' = true ∨
  ∃ nets, strs = ipnetToStringList nets ∧
    ∀ n, Some n ∈ nets → ∃ f a m, n = mk_net f a m ∧ canon f a m ∧ (f = V6 → ¬ in_net V6 a m x).
Proof.
  intros HT Ho Hr Ed Hg Hips Hin Hpr Hx Hp r' Ha. destruct (sets_nested r') eqn:Hn; [by left|right].
  pose proof (cloud_AllocateOrOccupyCIDR_steps K T order anywhere HT (Some node) r Hr) as (Hr' & _). fold r' in Hr'.
  pose proof (nested_or_apart r' Hn) as Hap.
  assert (plain V6 x) as Hpl. { intros _ E. cbn in Hp. rewrite E in Hp. done. }
  destruct (cloud_assigned K T anywhere HT order r node strs Hr Hap Ha) as (l & g' & r1' & -> & Ed' & Hk & Hap1 & Hl).
  rewrite Ed in Ed'. apply pair_equal_spec in Ed' as [[= <-] <-].
  exists l. split; [done|]. intros n Hin'. destruct (Hl n Hin') as (Hgr & _ & Hu).
  destruct Hgr as (f & c & i & s0 & Hw & Hi & Hm & ->). eexists f, _, _. split; [done|].
  split; [by apply block_canon; [apply Hw|]|]. intros -> Hxn.
  destruct (defineNodeGlobalCIDRs_covers K T anywhere HT order Ho node r g r1 ips x
              (prefix_of V6 c (clusterMaskSize s0)) Hr Hap1 Ed Hg Hips Hin Hpr Hx Hpl)
    as (c' & i' & s' & Hw' & Hi' & Hm' & Hb').
  { apply Hk. destruct Hm as [_ (s1 & Es1 & _)]. by exists s1. }
  { by eapply block_inside; [apply Hw|done|]. }
  destruct (Hu V6 c' i' s' Hw' Hi' Hm') as (f2 & b2 & m2 & E & Hc2 & Hno).
  apply mk_net_inj in E as (<- & <- & <-); [|by apply block_canon; [apply Hw|]|done].
  apply Hno; [done|]. by exists x.
Qed.

Lemma cloud_avoids_node_addresses_witness :
  Addr6 (db8 + 5) "" ∈ [Addr6 (db8 + 5) ""] ∧
  ∃ nets, ["10.0.0.0/26"; "2001:db8:0:0:1::/80"] = ipnetToStringList nets ∧
    ∀ n, Some n ∈ nets → ∃ f a m, n = mk_net f a m ∧ canon f a m ∧ (f = V6 → ¬ in_net V6 a m (db8 + 5)).
Proof.
  split; [by left|].
  assert ((defineNodeGlobalCIDRs demoK segment_talos demo_order (Some node_a) demo_cloud).1 = Ok "2001:db8::5/64") as Eg
    by (vm_compute; reflexivity).
  destruct (defineNodeGlobalCIDRs demoK segment_talos demo_order (Some node_a) demo_cloud) as [o r1] eqn:Ed.
  cbn [fst] in Eg. rewrite Eg in Ed.
  destruct (cloud_avoids_node_addresses demoK segment_talos demo_order demo_cloud node_a
    "2001:db8::5/64" r1 [Addr6 (db8 + 5) ""] (db8 + 5) ["10.0.0.0/26"; "2001:db8:0:0:1::/80"]) as [Hn|H].
  - apply segment_talos_any.
  - apply demo_order_ok.
  - apply demo_cloud_any.
  - exact Ed.
  - discriminate.
  - vm_compute. reflexivity.
  - by left.
  - vm_compute. reflexivity.
  - unfold db8. lia.
  - vm_compute. reflexivity.
  - exists "a", (talk "a" "2001:db8::5"). vm_compute. reflexivity.
  - exfalso. revert Hn. vm_compute. discriminate.
  - exact H.
Defined.

(** C18. A worker's turn is total: whatever the queue delivers and the cluster and
    Talos answer, [processNextNodeWorkItem] neither panics nor fails; it leaves the
    allocator in order, with the same cluster CIDRs and every set it had.  A key
    whose sync succeeded is forgotten and done; a key whose sync failed is put back
    with a delay, done, and the error reported. *)
Theorem cloud_worker_total K T U order r item :
  KubeLaws K → CIDRLaws K → TalosLaws U T → order_ok order → ca_ok U r → ca_clusterCIDRs r ≠ [] →
  ∃ r', processNextNodeWorkItem K T order item r = (Ok (bool_decide (item ≠ None)), r') ∧
    ca_ok U r' ∧ ca_clusterCIDRs r' = ca_clusterCIDRs r ∧
    (∀ k s, ca_cidrSets r !! k = Some s → ∃ s', ca_cidrSets r' !! k = Some s' ∧ config s' = config s) ∧
    ∀ key, item = Some key →
      match syncNode K T order key r with
      | (Ok _, r1) => ca_cidrSets r' = ca_cidrSets r1 ∧
          ca_actions r' = ActQueueDone key :: ActQueueForget key :: ca_actions r1
      | (Err e, r1) => ca_cidrSets r' = ca_cidrSets r1 ∧
          ca_actions r' = ActHandleError (ErrSync key e)
                            :: ActQueueDone key :: ActQueueAddRateLimited key :: ca_actions r1
      | (Panic, _) => False
      end.
Proof.
  intros HK HC HT Ho Hr Hne.
  pose proof (cloud_worker_steps K T order U HT item r Hr) as (Hr' & Hcl & Hcfg & _).
  assert (∀ key, (syncNode K T order key r).1 ≠ Panic) as Hnp.
  { intros key. by apply (cloud_syncNode_ok K HC T U HT order Ho key r). }
  exists (processNextNodeWorkItem K T order item r).2. split_and!; [|done|done|done|].
  - destruct item as [key|]; [|done]. cbn. unfold gcatch, gbind. specialize (Hnp key).
    by destruct (syncNode K T order key r) as [[[]|e|] r1].
  - intros key ->. unfold processNextNodeWorkItem, gcatch, gbind. specialize (Hnp key).
    by destruct (syncNode K T order key r) as [[[]|e|] r1].
Qed.

Lemma cloud_worker_total_witness :
  ∃ r', processNextNodeWorkItem demoK segment_talos demo_order (Some "a") demo_cloud = (Ok true, r') ∧
    ca_ok demo_segments r'.
Proof.
  destruct (cloud_worker_total demoK segment_talos demo_segments demo_order demo_cloud (Some "a"))
    as (r' & E & Hr & _).
  - apply cloud_kube_laws.
  - apply cloud_kube_cidrs.
  - apply segment_talos_laws.
  - apply demo_order_ok.
  - apply demo_cloud_ok.
  - vm_compute. discriminate.
  - exists r'. split; [exact E|exact Hr].
Defined.

(** C19. All outcomes once a network was taken for every cluster range that has a
    set.  When the cache fails, its error is returned and the networks stay marked,
    for no node.  When the node has exactly these networks by now, they stay marked;
    when it has others, every set, also one discovered for this node, has the marks
    it had before the networks were taken.  When it still has none, the networks are
    offered to the API server at most three times as the node's whole list: when a
    try is accepted the sets stay as they are, and when all three are refused,
    whatever the refusals were, server time-outs included, an event is recorded, the
    error returned, and every set has the marks it had before.  The one exception
    the code does not guard against: of two sets one starts inside the other. *)
Theorem cloud_allocate_outcomes K T order r node g r1 l r2 :
  KubeLaws K → CIDRLaws K → TalosLaws anywhere T → order_ok order → ca_ok anywhere r →
  PodCIDRs node = [] → ca_clusterCIDRs r ≠ [] →
  defineNodeGlobalCIDRs K T order (Some node) r = (Ok g, r1) →
  allocate_each order node g 0 (ca_clusterCIDRs r1) r1 = (Ok l, r2) →
  let strs := ipnetToStringList l in
  let ends o r3 acts :=
    cloud_AllocateOrOccupyCIDR K T order (Some node) r = (o, r3) ∧ ca_actions r3 = acts ++ ca_actions r2 in
  sets_nested r2 = true ∨
  match lister_Get K (ca_actions r2) (Name node) with
  | inl e => ∃ r3, ends (Err e) r3 [ActGet (Name node)] ∧ ca_cidrSets r3 = ca_cidrSets r2
  | inr node' =>
      if decide (PodCIDRs node' = strs)
      then ∃ r3, ends (Ok tt) r3 [ActGet (Name node)] ∧ ca_cidrSets r3 = ca_cidrSets r2
      else if decide (PodCIDRs node' = []) then
        ∃ r3 past, Forall (refused_patch (Name node') strs) past ∧
          (((length past < 3)%nat ∧ ca_cidrSets r3 = ca_cidrSets r2 ∧
            ends (Ok tt) r3 (accepted_patch (Name node') strs :: past ++ [ActGet (Name node)])) ∨
           (length past = 3%nat ∧ same_sets r1 r3 ∧ ∃ e,
            ends (Err (ErrPatch e)) r3
              (ActEvent (Name node') "CIDRAssignmentFailed" :: past ++ [ActGet (Name node)])))
      else ∃ r3, ends (Ok tt) r3 [ActGet (Name node)] ∧ same_sets r1 r3
  end.
Proof.
  intros HK HC HT Ho Hr Hnil Hne Ed Ea strs ends. destruct (sets_nested r2) eqn:Hn; [by left|right].
  pose proof (defineNodeGlobalCIDRs_steps K T order anywhere HT (Some node) r Hr) as (Hr1 & Hc1 & _).
  rewrite Ed in Hr1, Hc1. cbn [snd] in Hr1, Hc1.
  pose proof (cloud_allocate_each_steps order anywhere node g 0 (ca_clusterCIDRs r1) r1 Hr1) as (Hr2 & _).
  rewrite Ea in Hr2. cbn [snd] in Hr2. subst ends.
  cbn [cloud_AllocateOrOccupyCIDR]. rewrite Hnil. cbn [length Nat.ltb Nat.leb]. unfold gbind.
  rewrite Ed. cbn [gget]. rewrite Ea.
  apply (update_outcomes K HK HC anywhere order Ho node g 0 (ca_clusterCIDRs r1) r1); try done.
  - by apply nested_or_apart.
  - intros ->. apply allocate_each_length in Ea. rewrite Hc1 in Ea. by destruct (ca_clusterCIDRs r).
Qed.

Definition stubbornK : Kube := cloud_kube node_ip (λ _, false).

Lemma cloud_allocate_outcomes_witness :
  ∃ g r1 l r2 r3 past,
    defineNodeGlobalCIDRs stubbornK segment_talos demo_order (Some node_a) demo_cloud = (Ok g, r1) ∧
    allocate_each demo_order node_a g 0 (ca_clusterCIDRs r1) r1 = (Ok l, r2) ∧
    Forall (refused_patch "a" (ipnetToStringList l)) past ∧
    (length past < 3 ∨ length past = 3 ∧ same_sets r1 r3)%nat.
Proof.
  destruct (defineNodeGlobalCIDRs stubbornK segment_talos demo_order (Some node_a) demo_cloud) as [o r1] eqn:Ed.
  assert (r1 = (defineNodeGlobalCIDRs stubbornK segment_talos demo_order (Some node_a) demo_cloud).2) as Er1
    by (by rewrite Ed).
  assert (o = Ok "2001:db8::5/64") as ->.
  { transitivity (defineNodeGlobalCIDRs stubbornK segment_talos demo_order (Some node_a) demo_cloud).1;
      [by rewrite Ed|vm_compute; reflexivity]. }
  assert (∃ x xs, (allocate_each demo_order node_a "2001:db8::5/64" 0 (ca_clusterCIDRs r1) r1).1 = Ok (x :: xs)) as (x & xs & El).
  { rewrite Er1. eexists _, _. vm_compute. reflexivity. }
  destruct (allocate_each demo_order node_a "2001:db8::5/64" 0 (ca_clusterCIDRs r1) r1) as [o r2] eqn:Ea.
  assert (r2 = (allocate_each demo_order node_a "2001:db8::5/64" 0 (ca_clusterCIDRs r1) r1).2) as Er2 by (by rewrite Ea).
  cbn [fst] in El. rewrite El in Ea.
  assert (sets_nested r2 = false) as Hnest by (rewrite Er2, Er1; vm_compute; reflexivity).
  assert (ca_actions r2 = [ActGetNodeIfaces "2001:db8::5"; ActTalosNew]) as Eacts
    by (rewrite Er2, Er1; vm_compute; reflexivity).
  destruct (cloud_allocate_outcomes stubbornK segment_talos demo_order demo_cloud node_a
    "2001:db8::5/64" r1 (x :: xs) r2) as [Hn|H].
  - apply cloud_kube_laws.
  - apply cloud_kube_cidrs.
  - apply segment_talos_any.
  - apply demo_order_ok.
  - apply demo_cloud_any.
  - reflexivity.
  - vm_compute. discriminate.
  - exact Ed.
  - exact Ea.
  - exfalso. rewrite Hnest in Hn. discriminate.
  - rewrite Eacts in H.
    change (lister_Get stubbornK _ (Name node_a)) with (@inr error Node (cloud_node "a" "2001:db8::5" [])) in H.
    cbn [PodCIDRs cloud_node] in H. rewrite decide_False in H by discriminate. rewrite decide_True in H by reflexivity.
    destruct H as (r3 & past & Hp & H).
    exists "2001:db8::5/64", r1, (x :: xs), r2, r3, past. split; [reflexivity|]. split; [exact Ea|]. split; [exact Hp|].
    destruct H as [(Hlt & _)|(Hlen & Hs & _)]; [left; exact Hlt|right; split; [exact Hlen|exact Hs]].
Defined.

(** ** Construction *)

(** C22. Construction: with cluster ranges and mask sizes in order and no two ranges
    the same network, [NewCIDRCloudAllocator] never panics; it fails only with the
    error of a listed node whose networks could not be occupied; and when it succeeds
    every set is in order, each cluster range has its set with its mask size, and in
    that set every node network is marked that meets a service range or a network of
    a listed node (of at most two networks) which starts in the cluster range, unless
    of two sets of the allocator one starts inside the other. *)
Theorem cloud_constructor K T order Ls p nodes :
  CIDRLaws K → TalosLaws anywhere T → order_ok order → params_ok Ls p → NoDup (map l_key Ls) →
  match NewCIDRCloudAllocator K T order p nodes with
  | Panic => False
  | Err e => ∃ node r0, node ∈ default [] nodes ∧ (occupyPodCIDRs K T order node r0).1 = Err e
  | Ok r =>
      ca_ok anywhere r ∧ ca_clusterCIDRs r = ClusterCIDRs p ∧
      ∀ L, L ∈ Ls → set_for (ca_cidrSets r) L ∧
        (sets_nested r = true ∨
         ∀ b m, canon (l_fam L) b m → in_net (l_fam L) (l_base L) (l_cmask L) b →
          ServiceCIDR p = Some (mk_net (l_fam L) b m) ∨ SecondaryServiceCIDR p = Some (mk_net (l_fam L) b m) ∨
          (∃ node cidr, node ∈ default [] nodes ∧ (length (PodCIDRs node) ≤ 2)%nat ∧ cidr ∈ PodCIDRs node ∧
             ParseCIDRSloppy K cidr = inr (mk_net (l_fam L) b m)) →
          taken L r b m)
  end.
Proof.
  intros HC HT Ho Hp Hnd.
  destruct (new_cloud_allocator K T anywhere order Ho Ls p nodes Hp Hnd (λ _ _, I))
    as (r0 & r1 & r2 & Hr0 & Hcl & Hf & E1 & Hr1 & G1 & E2 & Hr2 & G2 & ->).
  pose proof (cloud_occupy_nodes_grows K T anywhere HT order (default [] nodes) r2) as G3.
  pose proof (cloud_occupy_nodes_ok K HC T anywhere HT order Ho (default [] nodes) r2 Hr2) as [Hnp _].
  destruct (cloud_occupy_nodes K T order (default [] nodes) r2) as [[[]|e|] r3] eqn:E3; cbn [obind fst snd] in *; [| |done].
  2:{ apply gforeach_stops in E3 as (node & s1 & s2 & Hin & Eo). exists node, s1. split; [done|].
      destruct (length (PodCIDRs node) =? 0)%nat; [done|]. by rewrite Eo. }
  destruct (proj1 G1 Hr0) as (_ & C1 & _). destruct (proj1 G2 Hr1) as (_ & C2 & _).
  destruct (proj1 G3 Hr2) as (Hr3 & C3 & _).
  split; [done|]. split; [congruence|]. intros L HL. rewrite Forall_forall in Hf.
  pose proof (set_for_evolves anywhere L _ _ Hr0 (proj1 G1) (Hf L HL)) as F1.
  pose proof (set_for_evolves anywhere L _ _ Hr1 (proj1 G2) F1) as F2.
  split; [by apply (set_for_evolves anywhere L r2 r3 Hr2 (proj1 G3))|].
  destruct (sets_nested r3) eqn:Hn; [by left|right]. pose proof (nested_or_apart r3 Hn) as A3.
  pose proof (keys_apart_back anywhere r2 r3 Hr2 (proj1 G3) A3) as A2.
  pose proof (keys_apart_back anywhere r1 r2 Hr1 (proj1 G2) A2) as A1.
  pose proof (keys_apart_back anywhere r0 r1 Hr0 (proj1 G1) A1) as A0.
  intros b m Hcan Hb [Hs|[Hs|(node & cidr & Hin & Hlen & Hc & Ep)]].
  - rewrite Hs in E1. apply (taken_grows anywhere L r2 r3); [done..|]. apply (taken_grows anywhere L r1 r2); [done..|].
    pose proof (cloud_filter_takes order Ho L r0 b m A0 (Hf L HL) Hcan Hb) as Ht. by rewrite E1 in Ht.
  - rewrite Hs in E2. apply (taken_grows anywhere L r2 r3); [done..|].
    pose proof (cloud_filter_takes order Ho L r1 b m A1 F1 Hcan Hb) as Ht. by rewrite E2 in Ht.
  - by apply (cloud_occupy_nodes_takes K T anywhere HT order Ho L (default [] nodes) r2 r3 node cidr).
Qed.

(** The demo cluster with one node that already has networks. *)
Definition node_d : Node := cloud_node "d" "2001:db8::5" ["10.0.0.64/26"; "2001:db8:0:0:1::/80"].

Lemma cloud_constructor_witness :
  ∃ r, NewCIDRCloudAllocator demoK segment_talos demo_order demo_params (Some [node_d]) = Ok r ∧
    ca_ok anywhere r ∧ taken (mkLayout V4 (10 * 2 ^ 24) 24 26) r (10 * 2 ^ 24 + 64) 26.
Proof.
  pose proof (cloud_constructor demoK segment_talos demo_order demo_layouts demo_params (Some [node_d])
    (cloud_kube_cidrs _ _) segment_talos_any demo_order_ok demo_params_ok demo_keys) as H.
  assert (match NewCIDRCloudAllocator demoK segment_talos demo_order demo_params (Some [node_d]) with
          | Ok r => sets_nested r = false | _ => False end) as Hok by (vm_compute; reflexivity).
  destruct (NewCIDRCloudAllocator demoK segment_talos demo_order demo_params (Some [node_d])) as [r| |];
    [|destruct Hok..].
  exists r. split; [reflexivity|]. destruct H as (Hr & _ & H). split; [exact Hr|].
  destruct (H (mkLayout V4 (10 * 2 ^ 24) 24 26)) as [_ [Hn|Ht]].
  - by left.
  - exfalso. rewrite Hok in Hn. discriminate.
  - apply Ht.
    + split; [done|done|by vm_compute|done].
    + split; vm_compute; [discriminate|reflexivity].
    + right. right. exists node_d, "10.0.0.64/26". split; [by left|]. split; [cbn; lia|]. split; [by left|].
      vm_compute. reflexivity.
Defined.

(** ** Discovered networks *)

(** C20. What [addCIDRSet] does with a discovered public network [p] of a node that
    runs up to [maxPods] pods.  It is refused, with no change, exactly when it is
    longer than /123, or longer than /117 with pod networks too small for the pods.
    Otherwise the network, cut down to the /64 of its address when it is larger,
    gets a set of its own: unused, with between 2 and 2^16 pod networks, the
    address of the node inside it; a set that is already there is kept. *)
Theorem cloud_add_set p maxPods r :
  global_v6 p → 0 < maxPods < 2 ^ 63 →
  match addCIDRSet (Prefix_String p) maxPods r with
  | (Ok _, r') => Bits p ≤ 123 ∧ (117 < Bits p → maxPods ≤ 2 ^ (127 - Bits p) - 2) ∧
      ∃ s, fresh_segment p s ∧ 2 ≤ maxCIDRs s ≤ 2 ^ 16 ∧ r' = with_segment p r s
  | (Err _, r') => r' = r ∧ (123 < Bits p ∨ 117 < Bits p ≤ 123 ∧ 2 ^ (127 - Bits p) - 2 < maxPods)
  | (Panic, _) => False
  end.
Proof.
  intros Hp Hm. destruct (Z.lt_ge_cases 123 (Bits p)) as [H123|H123].
  { destruct (addCIDRSet_too_small p maxPods r Hp H123) as (e & ->). auto. }
  destruct (decide (117 < Bits p ∧ 2 ^ (127 - Bits p) - 2 < maxPods)) as [[H1 H2]|Hn].
  { destruct (addCIDRSet_too_few p maxPods r Hp (conj H1 H123)) as (e & ->); [by rewrite wrapu_small by lia|]. auto. }
  destruct (addCIDRSet_adds p maxPods r Hp H123) as (s & Hs & ->).
  { rewrite wrapu_small by lia. lia. }
  split; [done|]. split; [lia|]. exists s. split; [done|]. split; [|done].
  destruct Hs as (c & x & _ & _ & _ & Hw & _ & _ & Hcm & Hnm). pose proof (wf_geom _ _ _ Hw) as HG.
  rewrite (geom_max _ _ _ HG), Hcm, Hnm.
  assert (1 ≤ pod_bits (Bits p) - segment_bits (Bits p) ≤ 16) as Hd.
  { unfold pod_bits, segment_bits.
    repeat match goal with |- context [?a <? ?b] => destruct (Z.ltb_spec a b) end; lia. }
  split; [change 2 with (2 ^ 1) at 1|]; apply Z.pow_le_mono_r; lia.
Qed.

Definition demo_public : Prefix := prefix_of V6 (db8 + 5) 120.
Lemma demo_public_global : global_v6 demo_public.
Proof. split; [apply prefix_of_ok; unfold db8; cbn [width]; lia|]. exists (db8 + 5). split; [done|]. unfold db8. lia. Qed.

Lemma cloud_add_set_witness :
  (addCIDRSet (Prefix_String demo_public) 110 demo_cloud).1 = Ok tt ∧
  ∃ s r', addCIDRSet (Prefix_String demo_public) 110 demo_cloud = (Ok tt, r') ∧
    fresh_segment demo_public s ∧ 2 ≤ maxCIDRs s ≤ 2 ^ 16.
Proof.
  assert ((addCIDRSet (Prefix_String demo_public) 110 demo_cloud).1 = Ok tt) as E by (vm_compute; reflexivity).
  split; [exact E|]. pose proof (cloud_add_set demo_public 110 demo_cloud demo_public_global ltac:(lia)) as H.
  destruct (addCIDRSet (Prefix_String demo_public) 110 demo_cloud) as [o r']. cbn [fst] in E. rewrite E in *.
  destruct H as (_ & _ & s & Hs & Hm & _). exists s, r'. split; [reflexivity|]. split; [exact Hs|exact Hm].
Defined.

(** ** Behaviours to know *)

(** A /112 network inside the /64 network of another node. *)
Definition nested_ip (name : string) : string := if decide (name = "a") then "2001:db8::1:0:0:1" else "2001:db8::5".
Definition nestedK : Kube := cloud_kube nested_ip (λ _, true).
Definition nested_talos : Talos :=
  demo_talos (λ ip, [demo_iface "eth0" (if decide (ip = "2001:db8::5") then "2001:db8::5/64" else "2001:db8::1:0:0:1/112")]).

(** Networks that lie one inside the other break the allocator: a node with a
    public /112 joins, then a node whose public /64 contains that /112.  Only
    whether a known network contains the new one is looked up, so the /64 gets a
    set of its own next to that of the /112, and the pod networks assigned to the
    two nodes overlap, at the first address of the first node's. *)
Theorem cloud_nested_networks_overlap :
  let allocate n := cloud_AllocateOrOccupyCIDR nestedK nested_talos demo_order (Some n) in
  let r1 := (allocate (cloud_node "a" (nested_ip "a") []) demo_cloud).2 in
  let r2 := (allocate (cloud_node "b" (nested_ip "b") []) r1).2 in
  let net_a := 0x20010db8000000000001 * 2 ^ 48 + 0x4000 in
  let net_b := 0x20010db8000000000001 * 2 ^ 48 in
  assigned_in demo_cloud r1 ["10.0.0.0/26"; IPNet_String (Some (mk_net V6 net_a 114))] ∧
  assigned_in r1 r2 ["10.0.0.64/26"; IPNet_String (Some (mk_net V6 net_b 80))] ∧
  overlap V6 net_a 114 net_b 80.
Proof.
  split; [|split].
  - exists "a", (talk "a" "2001:db8::1:0:0:1"). vm_compute. reflexivity.
  - exists "b", (talk "b" "2001:db8::5"). vm_compute. reflexivity.
  - exists (0x20010db8000000000001 * 2 ^ 48 + 0x4000). split; split; vm_compute; congruence.
Qed.

(** A node whose only public IPv6 address is a /128 gets no IPv6 network: no
    set is made for a /128, none covers it, and the text of the nil network is
    sent to the API server as the node's second pod CIDR. *)
Theorem cloud_host_address_unserved :
  let T := demo_talos (λ _, [demo_iface "eth0" "2001:db8::5/128"]) in
  let r := (cloud_AllocateOrOccupyCIDR demoK T demo_order (Some node_a) demo_cloud).2 in
  assigned_in demo_cloud r ["10.0.0.0/26"; "<nil>"].
Proof. exists "a", (talk "a" "2001:db8::5"). vm_compute. reflexivity. Qed.

(** A service range that surrounds a cluster range is not filtered out: when no
    set contains the first address of the service range, [filterOutServiceRange]
    marks nothing, also where the service range covers a whole set. *)
Theorem cloud_service_range_missed order r f b m :
  order_ok order → canon f b m →
  (∀ k s, ca_cidrSets r !! k = Some s → Prefix_Contains k (addr_of f b) = false) →
  ∃ r', filterOutServiceRange order (mk_net f b m) r = (Ok tt, r') ∧ ca_cidrSets r' = ca_cidrSets r.
Proof.
  intros Ho Hc Hno. unfold filterOutServiceRange, occupyCIDR, gcatch, gbind, range_cidrSets. cbn [mk_net ip_of].
  rewrite AddrFromSlice_mk by apply Hc. cbn [from_option id].
  destruct (key_for (addr_of f b) _) as [k|] eqn:Ek; [|by eexists].
  apply key_for_elem in Ek as [Hk Hc']. apply (range_keys order Ho r) in Hk as [s Hs].
  by rewrite (Hno k s Hs) in Hc'.
Qed.

Lemma cloud_service_range_missed_witness :
  overlap V4 (8 * 2 ^ 24) 6 (10 * 2 ^ 24) 24 ∧ canon V4 (8 * 2 ^ 24) 6 ∧
  ∃ r', filterOutServiceRange demo_order (mk_net V4 (8 * 2 ^ 24) 6) demo_cloud = (Ok tt, r') ∧
    ca_cidrSets r' = ca_cidrSets demo_cloud.
Proof.
  assert (canon V4 (8 * 2 ^ 24) 6) as Hc by (split; [done|done|by vm_compute|done]).
  split; [exists (10 * 2 ^ 24); split; split; vm_compute; congruence|]. split; [exact Hc|].
  apply (cloud_service_range_missed demo_order demo_cloud V4 (8 * 2 ^ 24) 6 demo_order_ok Hc).
  intros k s Hs. destruct (ca_sets _ _ demo_cloud_ok k s Hs) as ([->|(c & -> & _)] & _); vm_compute; reflexivity.
Defined.
