(* ===== verification/CloudRestart.v ===== *)
(** * Networks of existing nodes the cloud allocator does not mark

    [occupyPodCIDRs] marks the networks a node already has.  For a network that no
    set contains it discovers the node's public networks and adds sets for them, but
    does not come back to the network itself.  Here: what the operation marks at most,
    and the network it leaves free. *)

From S2P Require Import Prelude GoNet GoStrings NetIP NetIPRoundTrip CidrSet CidrSetGeometry CidrSetSpec CidrPool.
From S2P Require Import Kube CidrAllocator NodeUtils TalosClient CloudAllocator CloudAllocatorSpec.
From S2P Require Import AllocatorParams CloudAllocatorSafety CloudAllocatorRuns CloudAllocatorUndo CloudAllocatorDemo CloudAllocatorTheorems.

Local Open Scope go_scope.

(** The networks share an address. *)
Definition meet_nets (x y : IPNet) : Prop :=
  ∃ f a m b n, x = mk_net f a m ∧ canon f a m ∧ y = mk_net f b n ∧ canon f b n ∧ overlap f a m b n.

Lemma meet_nets_inv f a m f' b n :
  canon f a m → canon f' b n → meet_nets (mk_net f a m) (mk_net f' b n) → f' = f ∧ overlap f a m b n.
Proof.
  intros Ha Hb (f1 & a1 & m1 & b1 & n1 & Ex & H1 & Ey & H2 & Ho).
  apply mk_net_inj in Ex as (<- & <- & <-); [|done..]. by apply mk_net_inj in Ey as (-> & <- & <-).
Qed.

(** [Occupy] marks positions that meet the network, and no others. *)
Lemma Occupy_only f c s f' b m j :
  wf f c s → canon f' b m → Z.testbit (used (Occupy s (Some (mk_net f' b m))).2) j = true →
  Z.testbit (used s) j = true ∨ f' = f ∧ 0 ≤ j < maxCIDRs s ∧ meets f c s b m j.
Proof.
  intros Hw Hc Hj. destruct (decide (f' = f)) as [->|Hf].
  2:{ unfold Occupy in Hj. rewrite (indices_other_family f f' c s b m) in Hj; [by left|apply Hw|congruence|done]. }
  destruct (decide (overlap f c (clusterMaskSize s) b m)) as [Ho|Ho].
  2:{ rewrite (Occupy_outside f c s b m Hw Hc Ho) in Hj. by left. }
  destruct (Occupy_inside f c s b m Hw Hc Ho) as (s' & E & Hu). rewrite E in Hj. cbn [snd] in Hj.
  assert (0 ≤ j < maxCIDRs s) as Hr.
  { rewrite <-(config_maxCIDRs _ _ (upd_config _ _ _ _ _ Hu)).
    by apply (wf_used _ _ _ (upd_wf _ _ _ _ _ Hu)). }
  apply (upd_used _ _ _ _ _ Hu j Hr) in Hj as [?|?]; auto.
Qed.

Section within.
Context (U : Prefix → Prop) (N : IPNet → Prop).

(** New marks are of positions that meet a network of [N]. *)
Definition within (r r' : cloudAllocator) : Prop :=
  ca_evolves U r r' ∧
  (ca_ok U r → ∀ p, mark r' p → mark r p ∨ ∃ x n, N n ∧ placed r' x p ∧ meet_nets x n).

#[export] Instance within_preorder : PreOrder within.
Proof.
  split; [by intros r; split; [reflexivity|auto]|]. intros r1 r2 r3 [E12 M12] [E23 M23].
  split; [by transitivity r2|]. intros H1 p H3. destruct (E12 H1) as (H2 & _).
  destruct (M23 H2 p H3) as [Hm|?]; [|by right]. destruct (M12 H1 p Hm) as [?|(x & n & Hn & Hp & Hx)]; [by left|].
  right. exists x, n. split; [done|]. split; [|done]. by apply (placed_evolves U r2 r3).
Qed.

(** A step that changes no mark. *)
Lemma within_same {A} (m : GoM cloudAllocator A) :
  gsteps (ca_evolves U) m → (∀ r p, mark (m r).2 p → mark r p) → gsteps within m.
Proof. intros He Hm r. split; [apply He|]. intros _ p Hp. left. by apply Hm. Qed.

Lemma range_within order : gsteps within (range_cidrSets order).
Proof. by apply within_same; [apply range_steps|]. Qed.
Lemma emit_within a : gsteps within (emit (S := cloudAllocator) a).
Proof. by apply within_same; [apply emit_cloud_steps|]. Qed.

Lemma occupy_within k f b m : N (mk_net f b m) → canon f b m → gsteps within (on_key k (λ s, Occupy s (Some (mk_net f b m)))).
Proof.
  intros HN Hc r. set (n := mk_net f b m) in *.
  pose proof (on_key_steps U k _ (Occupy_safe (Some n)) r) as He. split; [exact He|]. intros Hr [k' j] Hm.
  destruct (He Hr) as (Hr' & _). revert Hr' Hm. clear He. unfold on_key.
  destruct (ca_cidrSets r !! k) as [s|] eqn:Es; [|by left].
  destruct (ca_sets _ _ Hr k s Es) as (_ & f' & c & Ek & Hw).
  destruct (Occupy_wf f' c s (Some n) Hw) as [Hw' Hcfg].
  pose proof (λ H, Occupy_only f' c s f b m j Hw Hc H) as Honly. fold n in Honly.
  destruct (Occupy s (Some n)) as [o s'] eqn:Eo. cbn [snd] in *. intros Hr'.
  unfold mark at 1. cbn [fst snd with_sets ca_cidrSets]. destruct (decide (k' = k)) as [->|Hne].
  2:{ rewrite lookup_insert_ne by done. by left. }
  rewrite lookup_insert_eq. intros (s1 & [= <-] & Hj). destruct (Honly Hj) as [Hb|(-> & Hj' & Hmeet)]; [by left; exists s|].
  right. exists (mk_net f' (block_base f' c s' j) (nodeMaskSize s')), n. split; [done|]. split.
  - exists f', c, s'. cbn [fst snd with_sets ca_cidrSets]. rewrite lookup_insert_eq.
    rewrite (config_clusterMaskSize _ _ Hcfg), (config_maxCIDRs _ _ Hcfg). done.
  - rewrite (block_base_config f' c s s' j Hcfg), (config_nodeMaskSize _ _ Hcfg).
    eexists f', _, _, b, m. split; [done|]. split; [by apply block_canon; [apply Hw|]|done].
Qed.

Lemma add_within p maxPods :
  global_v6 p → (Bits p ≤ 123 → U (segment p)) → gsteps within (addCIDRSet (Prefix_String p) maxPods).
Proof.
  intros Hp HUp. apply within_same; [by apply addCIDRSet_steps|]. intros r q.
  destruct (Z.lt_ge_cases 123 (Bits p)) as [H123|H123].
  { by destruct (addCIDRSet_too_small p maxPods r Hp H123) as (e & ->). }
  destruct (decide (117 < Bits p ∧ 2 ^ (127 - Bits p) - 2 < wrapu 64 maxPods)) as [[H1 H2]|Hn].
  { by destruct (addCIDRSet_too_few p maxPods r Hp (conj H1 H123) H2) as (e & ->). }
  destruct (addCIDRSet_adds p maxPods r Hp H123) as (s & (c & x & _ & _ & _ & _ & Hu & _) & ->).
  { intros H1. apply Z.nlt_ge. intros H2. by apply Hn. }
  cbn [snd]. unfold with_segment. destruct (ca_cidrSets r !! segment p) eqn:E1; [done|].
  unfold mark. cbn [with_sets ca_cidrSets]. destruct (decide (q.1 = segment p)) as [->|Hne].
  - rewrite lookup_insert_eq. intros (s1 & [= <-] & Hb). by rewrite Hu, Z.bits_0 in Hb.
  - by rewrite lookup_insert_ne.
Qed.
End within.

#[export] Hint Resolve range_within emit_within : go_steps.

Section restart.
Context (K : Kube) (T : Talos) (U : Prefix → Prop) (HT : TalosLaws U T).
Context (order : nat → list Prefix → list Prefix) (N : IPNet → Prop).

(** The IPv6 addresses of a node, as the program reads them. *)
Definition proper (ips : list Addr) : Prop :=
  ∀ a, a ∈ ips → Is6 a = true → ∃ x, a = Addr6 x "" ∧ 0 ≤ x < 2 ^ 128 ∧ plain V6 x.
(** A public IPv6 address among them, as a network of one address. *)
Definition own_address (ips : list Addr) (n : IPNet) : Prop :=
  ∃ x, Addr6 x "" ∈ ips ∧ IsPrivate (Addr6 x "") = false ∧ n = mk_net V6 x 128.

Lemma occupyCIDR_within n : N n → (∃ f b m, n = mk_net f b m ∧ canon f b m) → gsteps (within U N) (occupyCIDR order n).
Proof.
  intros HN (f & b & m & -> & Hc). unfold occupyCIDR.
  pose proof (λ k, occupy_within U N k f b m HN Hc). go_steps.
Qed.

Lemma occupyNodeIPs_within ips l :
  proper ips → (∀ n, own_address ips n → N n) → (∀ a, a ∈ l → a ∈ ips) → gsteps (within U N) (occupyNodeIPs order l).
Proof.
  intros Hp HN Hl. unfold occupyNodeIPs. apply gsteps_foreach_elem; [exact _|]. apply Forall_forall. intros a Ha.
  destruct (negb (Is6 a) || IsPrivate a) eqn:E; [go_steps|].
  apply orb_false_iff in E as [H6%negb_false_iff Hpr]. destruct (Hp a (Hl a Ha) H6) as (x & -> & Hx & Hpl).
  rewrite ParseIP_String by done. change (mkIPNet (mk_ip V6 x) (CIDRMask 128 128)) with (mk_net V6 x 128).
  assert (gsteps (within U N) (occupyCIDR order (mk_net V6 x 128))); [|go_steps].
  apply occupyCIDR_within; [|by eexists _, _, _; split; [|apply canon_host]].
  apply HN. exists x. split; [by apply Hl|done].
Qed.

Lemma define_within node ips :
  GetNodeIPs (Some node) = Ok ips → proper ips → (∀ n, own_address ips n → N n) →
  gsteps (within U N) (defineNodeGlobalCIDRs K T order (Some node)).
Proof using HT.
  intros Hips Hp HN. rewrite defineNodeGlobalCIDRs_unfold, Hips.
  assert (gsteps (within U N) (occupyNodeIPs order (public_ips ips))) as Hocc.
  { apply (occupyNodeIPs_within ips); [done..|]. intros a. unfold public_ips. by intros [_ ?]%list_elem_of_filter. }
  change (gcatch (gof_outcome (Ok ips)) ?h) with (gret (S := cloudAllocator) ips).
  change (gbind (gret ips) ?k) with (k ips). cbn beta. destruct (_ =? _)%nat; [go_steps|].
  apply gsteps_bind; [exact _|unfold talosclient_New; go_steps|intros _].
  apply gsteps_bind_result; [exact _| |intros ifaces r r' E].
  { clear. induction ips; cbn [first_ifaces]; unfold GetNodeIfaces; go_steps. }
  pose proof (discovery_found T U HT (public_ips ips) ifaces (first_ifaces_reported T _ _ _ _ E)) as Hd.
  unfold use_cidrs. destruct (NodeCIDRDiscovery T (public_ips ips) ifaces).2 as [|first rest]; [go_steps|].
  destruct (ParseCIDRs K (first :: rest)); [go_steps|].
  apply gsteps_bind; [exact _|apply range_within|intros keys]. destruct (known_for _ keys); [go_steps|].
  apply gsteps_bind; [exact _| |go_steps]. apply gsteps_foreach_elem; [exact _|].
  eapply Forall_impl; [exact Hd|]. cbn. intros cidr (p & -> & Hgp & HUp).
  pose proof (add_within U N p (getNodeMaxPods (Some node)) Hgp HUp). go_steps.
Qed.

Lemma occupyCIDR_no_new_keys n : gsteps no_new_keys (occupyCIDR order n).
Proof. unfold occupyCIDR. go_steps. Qed.

(** A network that starts in a set: [occupyCIDR] does not report false. *)
Lemma occupyCIDR_known r n k r' :
  order_ok order → is_Some (ca_cidrSets r !! k) →
  Prefix_Contains k (default AddrZero (AddrFromSlice (ip_of n))) = true →
  occupyCIDR order n r ≠ (Ok false, r').
Proof.
  intros Ho Hk Hc. unfold occupyCIDR, gbind, range_cidrSets.
  destruct (key_for _ _) as [k'|] eqn:E; [by destruct (gcatch _ _ _) as [[]]|].
  pose proof (find_none _ _ E k) as Hn. cbn in Hn. rewrite Hc in Hn. discriminate Hn.
  by apply list_elem_of_In, (range_keys order Ho r).
Qed.

(** A network that starts in no set: it does, and marks nothing. *)
Lemma occupyCIDR_unknown r n :
  order_ok order →
  (∀ k, is_Some (ca_cidrSets r !! k) → Prefix_Contains k (default AddrZero (AddrFromSlice (ip_of n))) = false) →
  occupyCIDR order n r = (Ok false, (range_cidrSets order r).2).
Proof.
  intros Ho Hno. unfold occupyCIDR, gbind, range_cidrSets.
  destruct (key_for _ _) as [k|] eqn:E; [|done]. apply key_for_elem in E as [Hk%(range_keys order Ho r) Hc].
  by rewrite (Hno k Hk) in Hc.
Qed.

(** One network of [occupyPodCIDRs]. *)
Definition occupy_one (node : Node) (cidr : string) : GoM cloudAllocator unit :=
  match ParseCIDRSloppy K cidr with
  | inl _ => gfail (ErrNew ("failed to parse node " +:+ Name node +:+ ", CIDR " +:+ PodCIDR node))
  | inr podCIDR =>
      ok <- gcatch (occupyCIDR order podCIDR)
                   (λ e, gfail (ErrV ("failed to mark cidr[" +:+ IPNet_String (Some podCIDR) +:+
                                      "] as occupied for node: " +:+ Name node +:+ ": ") e)) ;;
      if (ok : bool) then gret tt
      else
        gcatch (defineNodeGlobalCIDRs K T order (Some node))
               (λ e, gfail (ErrV ("failed to find a CIDRSet for node " +:+ Name node +:+
                                  ", CIDR " +:+ cidr +:+ ": ") e)) ;;;
        gret tt
  end.

Context (node : Node) (ips : list Addr) (Ho : order_ok order).
Context (Hips : GetNodeIPs (Some node) = Ok ips) (Hproper : proper ips) (Hown : ∀ n, own_address ips n → N n).

Lemma occupy_one_within cidr :
  (∀ n, ParseCIDRSloppy K cidr = inr n → N n ∧ ∃ f b m, n = mk_net f b m ∧ canon f b m) →
  gsteps (within U N) (occupy_one node cidr).
Proof using HT Hips Hproper Hown.
  intros Hc. unfold occupy_one. destruct (ParseCIDRSloppy K cidr) as [e|n]; [go_steps|].
  destruct (Hc n eq_refl) as [HN Hnet]. pose proof (occupyCIDR_within n HN Hnet).
  pose proof (define_within node ips Hips Hproper Hown). go_steps.
Qed.

(** Networks that start in sets add no set. *)
Lemma occupy_known_within pre r r' :
  (∀ cidr n, cidr ∈ pre → ParseCIDRSloppy K cidr = inr n →
     N n ∧ (∃ f b m, n = mk_net f b m ∧ canon f b m) ∧
     ∃ k, is_Some (ca_cidrSets r !! k) ∧ Prefix_Contains k (default AddrZero (AddrFromSlice (ip_of n))) = true) →
  ca_ok U r → gforeach pre (occupy_one node) r = (Ok tt, r') → within U N r r' ∧ no_new_keys r r'.
Proof using HT Hips Hproper Hown Ho.
  revert r. induction pre as [|cidr pre IH]; intros r Hpre Hr; cbn [gforeach].
  { intros [= <-]. split; reflexivity. }
  unfold gbind at 1. destruct (occupy_one node cidr r) as [[[]|e|] r1] eqn:E1; [|done..]. intros E.
  assert (within U N r r1) as W1.
  { pose proof (occupy_one_within cidr) as H. specialize (H ltac:(intros n Hn; by destruct (Hpre cidr n ltac:(by left) Hn) as (? & ? & _)) r).
    by rewrite E1 in H. }
  assert (no_new_keys r r1) as D1.
  { revert E1. unfold occupy_one. destruct (ParseCIDRSloppy K cidr) as [e|n] eqn:En; [done|].
    destruct (Hpre cidr n ltac:(by left) En) as (_ & _ & k & Hk & Hc). unfold gbind at 1, gcatch at 1.
    pose proof (occupyCIDR_no_new_keys n r) as D. pose proof (λ r', occupyCIDR_known r n k r' Ho Hk Hc) as Hf.
    destruct (occupyCIDR order n r) as [[[]|e|] r2]; [|by destruct (Hf r2)|done..]. by intros [= <-]. }
  destruct (proj1 W1 Hr) as (Hr1 & _ & S1 & _). destruct (IH r1) as [W2 D2]; [|done..|].
  { intros c n Hc Hn. destruct (Hpre c n ltac:(by right) Hn) as (? & ? & k & [s Hs] & Hk).
    split; [done|]. split; [done|]. exists k. split; [|done]. destruct (S1 k s Hs) as (s' & ? & _). by exists s'. }
  split; by etransitivity.
Qed.
End restart.

(** A position holds one network. *)
Lemma placed_inj r x y p : placed r x p → placed r y p → x = y.
Proof.
  intros (f & c & s & Ek & Es & _ & _ & ->) (f' & c' & s' & Ek' & Es' & _ & _ & ->).
  rewrite Es in Es'. injection Es' as <-. rewrite Ek in Ek'. by apply prefix_of_inj in Ek' as (<- & <- & _).
Qed.

(** The first of a node's networks that starts in no set: only the others, and the
    addresses of the node, are marked. *)
Lemma occupyPodCIDRs_forgets K T order r node ips pre cidr post n r' :
  TalosLaws anywhere T → order_ok order → ca_ok anywhere r →
  GetNodeIPs (Some node) = Ok ips → proper ips → PodCIDRs node = pre ++ cidr :: post →
  (∀ c x, c ∈ PodCIDRs node → ParseCIDRSloppy K c = inr x → ∃ f b m, x = mk_net f b m ∧ canon f b m) →
  (∀ c x, c ∈ pre → ParseCIDRSloppy K c = inr x →
     ∃ k, is_Some (ca_cidrSets r !! k) ∧ Prefix_Contains k (default AddrZero (AddrFromSlice (ip_of x))) = true) →
  ParseCIDRSloppy K cidr = inr n →
  (∀ k, is_Some (ca_cidrSets r !! k) → Prefix_Contains k (default AddrZero (AddrFromSlice (ip_of n))) = false) →
  occupyPodCIDRs K T order node r = (Ok tt, r') →
  within anywhere (λ x, (∃ c, c ∈ pre ++ post ∧ ParseCIDRSloppy K c = inr x) ∨ own_address ips x) r r'.
Proof.
  intros HT Ho Hr Hips Hp Epod Hnets Hpre Hn Hno E. set (N := λ x, _ ∨ own_address ips x).
  revert E. unfold occupyPodCIDRs. destruct (_ || _); [intros [= <-]; reflexivity|].
  fold (occupy_one K T order node). rewrite Epod in Hnets |- *.
  assert (∀ x, own_address ips x → N x) as Hown by (by right).
  assert (∀ l r, gforeach (pre ++ l) (occupy_one K T order node) r =
                 gbind (gforeach pre (occupy_one K T order node)) (λ _, gforeach l (occupy_one K T order node)) r) as Happ.
  { clear. intros l. induction pre as [|c pre IH]; intros r; cbn [app gforeach]; [done|].
    unfold gbind in *. destruct (occupy_one K T order node c r) as [[[]|e|] r1]; [apply IH|done..]. }
  rewrite Happ. clear Happ. unfold gbind at 1.
  destruct (gforeach pre _ r) as [[[]|e|] r1] eqn:E1; [|done..].
  destruct (occupy_known_within K T anywhere HT order N node ips Ho Hips Hp Hown pre r r1) as [W1 D1]; [|done..|].
  { intros c x Hc Hx. split; [left; exists c; split; [set_solver|done]|]. split; [|by eapply Hpre].
    apply (Hnets c x); [set_solver|done]. }
  cbn [gforeach]. unfold gbind at 1. destruct (occupy_one K T order node cidr r1) as [[[]|e|] r2] eqn:E2; [|done..].
  assert (within anywhere N r1 r2) as W2.
  { revert E2. unfold occupy_one. rewrite Hn. unfold gbind at 1, gcatch at 1.
    rewrite occupyCIDR_unknown; [|done|intros k Hk; by apply Hno, D1].
    pose proof (define_within K T anywhere HT order N node ips Hips Hp Hown) as Hd.
    pose proof (range_within anywhere N order r1) as H12. set (r12 := (range_cidrSets order r1).2) in *.
    assert (gsteps (within anywhere N) (gcatch (defineNodeGlobalCIDRs K T order (Some node))
      (λ e, gfail (A := string) (ErrV ("failed to find a CIDRSet for node " +:+ Name node +:+ ", CIDR " +:+ cidr +:+ ": ") e)) ;;; gret tt)) as Hg by go_steps.
    intros E2. specialize (Hg r12). rewrite E2 in Hg. by transitivity r12. }
  intros E3. assert (within anywhere N r2 r') as W3.
  { assert (gsteps (within anywhere N) (gforeach post (occupy_one K T order node))) as Hg.
    { apply gsteps_foreach_elem; [exact _|]. apply Forall_forall. intros c Hc.
      apply (occupy_one_within K T anywhere HT order N node ips Hips Hp Hown). intros x Hx.
      split; [left; exists c; split; [set_solver|done]|]. apply (Hnets c x); [set_solver|done]. }
    specialize (Hg r2). by rewrite E3 in Hg. }
  transitivity r1; [done|]. by transitivity r2.
Qed.

(** C40. After a restart a node's network may be assigned again: when [occupyPodCIDRs]
    succeeds for a node, the first of the node's networks that starts in no set is not
    marked in the sets that were added for it.  A position of the allocator that is
    marked afterwards was marked before, or meets another network of the node, or
    holds a public address of the node.  A position of the forgotten network of which
    none of this is true is free, and [AllocateNext] hands it out once it is the last
    free one of its set. *)
Theorem cloud_restart_forgets K T order r node ips pre cidr post n r' :
  TalosLaws anywhere T → order_ok order → ca_ok anywhere r →
  GetNodeIPs (Some node) = Ok ips → proper ips → PodCIDRs node = pre ++ cidr :: post →
  (∀ c x, c ∈ PodCIDRs node → ParseCIDRSloppy K c = inr x → ∃ f b m, x = mk_net f b m ∧ canon f b m) →
  (∀ c x, c ∈ pre → ParseCIDRSloppy K c = inr x →
     ∃ k, is_Some (ca_cidrSets r !! k) ∧ Prefix_Contains k (default AddrZero (AddrFromSlice (ip_of x))) = true) →
  ParseCIDRSloppy K cidr = inr n →
  (∀ k, is_Some (ca_cidrSets r !! k) → Prefix_Contains k (default AddrZero (AddrFromSlice (ip_of n))) = false) →
  occupyPodCIDRs K T order node r = (Ok tt, r') →
  ∀ x k i, placed r' x (k, i) → ¬ mark r (k, i) →
    (∀ c y, c ∈ pre ++ post → ParseCIDRSloppy K c = inr y → ¬ meet_nets x y) →
    (∀ y, own_address ips y → ¬ meet_nets x y) →
    ¬ mark r' (k, i) ∧
    ((∀ y j, placed r' y (k, j) → j ≠ i → mark r' (k, j)) → (on_key k AllocateNext r').1 = Ok x).
Proof.
  intros HT Ho Hr Hips Hp Epod Hnets Hpre Hn Hno E x k i Hx Hfree Hothers Haddr.
  destruct (occupyPodCIDRs_forgets K T order r node ips pre cidr post n r' HT Ho Hr Hips Hp Epod Hnets Hpre Hn Hno E)
    as [_ Hw].
  assert (¬ mark r' (k, i)) as Hm.
  { intros [?|(x' & y & Hy & Hx' & Hmeet)]%(Hw Hr); [done|]. rewrite <-(placed_inj r' x x' (k, i) Hx Hx') in Hmeet.
    destruct Hy as [(c & Hc & Ec)|Hy]; [by apply (Hothers c y)|by apply (Haddr y)]. }
  split; [done|]. intros Hall. destruct Hx as (f & c & s & Ek & Es & Hws & Hi & ->). cbn [fst snd] in *.
  unfold on_key. rewrite Es. pose proof (AllocateNext_last f c s i Hws Hi) as HA.
  destruct (AllocateNext s) as [o s'] eqn:Ea. cbn [fst] in HA |- *. apply HA.
  - apply not_true_iff_false. intros Hb. apply Hm. by exists s.
  - intros j Hj Hne. destruct (Hall (mk_net f (block_base f c s j) (nodeMaskSize s)) j) as (s1 & Es1 & Hb); [|done|].
    + by exists f, c, s.
    + cbn [fst snd] in *. rewrite Es in Es1. by injection Es1 as <-.
Qed.

(** Node [d] of the demo cluster holds the first pod network of its public range.  It
    is free after the constructor ran, and node [b] gets it. *)
Lemma cloud_restart_demo :
  match NewCIDRCloudAllocator demoK segment_talos demo_order demo_params (Some [node_d]) with
  | Ok r => ca_actions (demo_allocate node_b r).2 =
      accepted_patch "b" ["10.0.0.0/26"; "2001:db8:0:0:1::/80"] :: talk "b" "2001:db8::6" ++ ca_actions r
  | _ => False
  end.
Proof. vm_compute. reflexivity. Qed.

Definition seg_key : Prefix := prefix_of V6 db8 64.
Definition seg_first : IPNet := mk_net V6 (db8 + 2 ^ 48) 80.

Lemma node_d_parses c x :
  c ∈ PodCIDRs node_d → ParseCIDRSloppy demoK c = inr x →
  x = mk_net V4 (10 * 2 ^ 24 + 64) 26 ∨ x = seg_first.
Proof.
  intros [->|[->|[]%elem_of_nil]%elem_of_cons]%elem_of_cons E; [left|right].
  - assert (ParseCIDRSloppy demoK "10.0.0.64/26" = inr (mk_net V4 (10 * 2 ^ 24 + 64) 26)) as E' by (vm_compute; reflexivity).
    congruence.
  - assert (ParseCIDRSloppy demoK "2001:db8:0:0:1::/80" = inr seg_first) as E' by (vm_compute; reflexivity).
    congruence.
Qed.

Lemma demo_canon_pod4 : canon V4 (10 * 2 ^ 24 + 64) 26.
Proof. split; [done|done|by vm_compute|done]. Qed.
Lemma demo_canon_pod6 : canon V6 (db8 + 2 ^ 48) 80.
Proof. split; [done|done|by vm_compute|]. intros _. by vm_compute. Qed.

Lemma cloud_restart_forgets_witness :
  ∃ r', occupyPodCIDRs demoK segment_talos demo_order node_d demo_cloud = (Ok tt, r') ∧
    placed r' seg_first (seg_key, 1) ∧ ¬ mark r' (seg_key, 1).
Proof.
  destruct (occupyPodCIDRs demoK segment_talos demo_order node_d demo_cloud) as [o r'] eqn:E.
  assert (o = Ok tt) as ->.
  { transitivity (occupyPodCIDRs demoK segment_talos demo_order node_d demo_cloud).1; [by rewrite E|vm_compute; reflexivity]. }
  exists r'. split; [reflexivity|].
  assert (∃ s, ca_cidrSets r' !! seg_key = Some s ∧ clusterMaskSize s = 64 ∧ nodeMaskSize s = 80 ∧ maxCIDRs s = 65536)
    as (s & Es & Hcm & Hnm & Hmax).
  { assert (r' = (occupyPodCIDRs demoK segment_talos demo_order node_d demo_cloud).2) as -> by (by rewrite E).
    eexists. split; [vm_compute; reflexivity|]. split; [reflexivity|]. split; reflexivity. }
  assert (placed r' seg_first (seg_key, 1)) as Hp.
  { pose proof (occupyPodCIDRs_steps demoK segment_talos demo_order anywhere segment_talos_any node_d demo_cloud
      demo_cloud_any) as (Hr' & _). rewrite E in Hr'.
    destruct (ca_sets _ _ Hr' seg_key s Es) as (_ & f & c & Ek & Hw). pose proof Ek as Ek'. rewrite Hcm in Ek'.
    apply prefix_of_inj in Ek' as (<- & <- & _). exists V6, db8, s. cbn [fst snd].
    split; [exact Ek|]. split; [exact Es|]. split; [exact Hw|]. split; [lia|].
    unfold block_base, block_size. rewrite Hnm. reflexivity. }
  split; [exact Hp|].
  refine (proj1 (cloud_restart_forgets demoK segment_talos demo_order demo_cloud node_d [Addr6 (db8 + 5) ""]
    ["10.0.0.64/26"] "2001:db8:0:0:1::/80" [] seg_first r' segment_talos_any demo_order_ok demo_cloud_any
    _ _ eq_refl _ _ _ _ E seg_first seg_key 1 Hp _ _ _)).
  - vm_compute. reflexivity.
  - intros a ->%list_elem_of_singleton _. exists (db8 + 5). split; [done|]. split; [unfold db8; lia|]. intros _. by vm_compute.
  - intros c x Hc Hx. destruct (node_d_parses c x Hc Hx) as [-> | ->]; eexists _, _, _;
      (split; [reflexivity|]); [apply demo_canon_pod4|apply demo_canon_pod6].
  - intros c x ->%list_elem_of_singleton Hx. exists demo_range. split; [eexists; vm_compute; reflexivity|].
    destruct (node_d_parses "10.0.0.64/26" x ltac:(by left) Hx) as [-> | ->]; [vm_compute; reflexivity|].
    vm_compute in Hx. discriminate Hx.
  - vm_compute. reflexivity.
  - intros k [s' Hs']. destruct (ca_sets _ _ demo_cloud_ok k s' Hs') as ([->|(c & -> & Hc)] & _); [vm_compute; reflexivity|].
    assert (default AddrZero (AddrFromSlice (ip_of seg_first)) = addr_of V6 (db8 + 2 ^ 48)) as -> by (vm_compute; reflexivity).
    apply not_true_iff_false. intros Hin. rewrite Contains_prefix_of in Hin by exact Hc.
    apply bool_decide_eq_true in Hin. assert (c = db8) as ->.
    { destruct Hc as [_ _ Hal _]. unfold in_net in Hin. cbn [width] in *. change (128 - 64) with 64 in *.
      pose proof (Z.div_mod c (2 ^ 64) ltac:(lia)). unfold db8 in *. lia. }
    assert (ca_cidrSets demo_cloud !! seg_key = None) as Hnone by (vm_compute; reflexivity).
    unfold seg_key in Hnone. congruence.
  - intros (s' & Hs' & _). cbn [fst] in Hs'.
    assert (ca_cidrSets demo_cloud !! seg_key = None) as Hnone by (vm_compute; reflexivity). congruence.
  - intros c y Hc Hy. rewrite app_nil_r in Hc. apply list_elem_of_singleton in Hc as ->.
    destruct (node_d_parses "10.0.0.64/26" y ltac:(by left) Hy) as [-> | ->]; [|vm_compute in Hy; discriminate Hy].
    intros Hm. destruct (meet_nets_inv _ _ _ _ _ _ demo_canon_pod6 demo_canon_pod4 Hm) as [Hf _]. discriminate Hf.
  - intros y (x & [= ->]%list_elem_of_singleton & _ & ->) Hm.
    destruct (meet_nets_inv _ _ _ _ _ _ demo_canon_pod6 (canon_host (db8 + 5) ltac:(unfold db8; lia) ltac:(intros _; by vm_compute)) Hm)
      as (_ & z & Hz & Hz'). unfold in_net in Hz, Hz'. cbn [width] in *. change (128 - 128) with 0 in *. lia.
Defined.
