(* ===== verification/CloudWorkers.v ===== *)
(** * The cloud allocator's workers: [runWorker] returns once the queue is shut down *)

From S2P Require Import Prelude GoNet GoStrings NetIP CidrSet CidrSetSpec Kube CidrAllocator NodeUtils TalosClient.
From S2P Require Import CloudAllocator CloudAllocatorSpec CloudAllocatorSafety CloudAllocatorRuns Workers.

Local Open Scope go_scope.

Definition cloud_runWorker K T order (Get : list action → option string)
    : nat → GoM cloudAllocator bool := runWorker (processNextNodeWorkItem K T order) Get.

Section cloud_worker.
Context (K : Kube) (HC : CIDRLaws K) (T : Talos) (U : Prefix → Prop) (HT : TalosLaws U T).
Context (order : nat → list Prefix → list Prefix) (Ho : order_ok order).

Definition in_order (r : cloudAllocator) : Prop := ca_ok U r ∧ ca_clusterCIDRs r ≠ [].

Lemma cloud_turn_ok : turn_ok (processNextNodeWorkItem K T order) in_order.
Proof using All.
  intros it r [Hr Hne]. pose proof (cloud_worker_steps K T order U HT it r Hr) as (Hr' & Hcl & _ & _).
  exists (processNextNodeWorkItem K T order it r).2. destruct it as [key|]; [|by split_and!].
  assert (in_order (processNextNodeWorkItem K T order (Some key) r).2) as Hin by (split; [done|congruence]).
  pose proof (cloud_syncNode_steps K T order U HT key r Hr) as (_ & _ & _ & Hs%dones_suffix).
  pose proof (cloud_syncNode_ok K HC T U HT order Ho key r (conj Hr Hne)) as Hnp.
  unfold processNextNodeWorkItem, gcatch, gbind in *.
  destruct (syncNode K T order key r) as [[[]|e|] r1]; [| |done];
    (split_and!; [done|exact Hin|intros _; apply Nat.lt_succ_r; exact Hs|done]).
Qed.

(** Whatever the cluster and Talos answer, a worker whose queue delivers at most
    [n] items returns after at most one turn for each item still to come and one
    more. *)
Theorem cloud_worker_terminates Get n r : delivers_at_most Get n → in_order r →
  ∃ r', in_order r' ∧ Get (ca_actions r') = None ∧
    ∀ fuel, (n - dones (ca_actions r) < fuel)%nat → cloud_runWorker K T order Get fuel r = (Ok true, r').
Proof using All. intros Hn Hr. exact (runWorker_returns _ Get in_order n r cloud_turn_ok Hn Hr). Qed.
End cloud_worker.
