(* ===== verification/CloudConcurrent.v ===== *)
(** * The cloud allocator in atomic steps

    The operations of [cloud_allocator.go] as the goroutines run them.  A call of a
    [CidrSet] method is one step (it holds the set's mutex), and so is a call to
    Talos, the informer cache or the API server.  A loop over [r.cidrSets] reads the
    keys in one step.  [defineNodeGlobalCIDRs] holds [r.lock] from the look-up of a
    known set to its end: nobody else adds a set meanwhile, so that the test and the
    insertion at the end of [addCIDRSet] are one step.  The other effect of the lock,
    that such sections exclude each other, is not used: what is shown holds for more
    interleavings than the lock admits.  The loops outside that section read the map
    without the lock; here their reads are taken to be atomic.

    Run alone, each operation is the sequential one of [CloudAllocator]. *)

From S2P Require Import Prelude GoNet GoStrings NetIP CidrSet Kube CidrAllocator NodeUtils TalosClient CloudAllocator.
From S2P Require Import Interleaving Ownership.

Local Open Scope go_scope.

Notation cproc := (proc cloudAllocator).

Section threads.
Context (K : Kube) (T : Talos) (order : nat → list Prefix → list Prefix).

Definition occupyCIDR_proc (cidr : IPNet) : cproc bool :=
  let ip := default AddrZero (AddrFromSlice (ip_of cidr)) in
  let* keys := patom (range_cidrSets order) in
  match key_for ip keys with
  | None => pret false
  | Some k =>
      let* _ := pcatch (patom (on_key k (λ s, Occupy s (Some cidr))))
             (λ e, pfail (ErrV ("failed to mark cidr " +:+ IPNet_String (Some cidr) +:+
                                " as occupied in subnet " +:+ Prefix_String k +:+ ": ") e)) in
      pret true
  end.

Definition occupyNodeIPs_proc (addrs : list Addr) : cproc unit :=
  pforeach addrs (λ addr,
    if negb (Is6 addr) || IsPrivate addr then pret tt
    else match ParseIP (Addr_String addr) with
         | None => pret tt
         | Some ip => let* _ := occupyCIDR_proc (mkIPNet ip (CIDRMask 128 128)) in pret tt
         end).

Fixpoint first_ifaces_proc (nodeIPs : list Addr) : cproc (list AddressStatusSpec) :=
  match nodeIPs with
  | [] => pret []
  | ip :: nodeIPs' => pcatch (patom (GetNodeIfaces T (Addr_String ip))) (λ _, first_ifaces_proc nodeIPs')
  end.

Definition defineNodeGlobalCIDRs_proc (node : option Node) : cproc string :=
  match node with
  | None => pfail (ErrNew "node is nil")
  | Some n =>
      let* nodeIPs := pcatch (PRet (GetNodeIPs node))
                        (λ e, pfail (ErrV ("failed to get IPs for node " +:+ Name n +:+ ": ") e)) in
      if (length nodeIPs =? 0)%nat then pfail (ErrNew "node has no addresses")
      else
        let* _ := patom (talosclient_New T) in
        let* ifaces := first_ifaces_proc nodeIPs in
        let ipv6 := filter (λ nodeIP, (Is6 nodeIP && negb (IsPrivate nodeIP)) = true) nodeIPs in
        let cidrs := (NodeCIDRDiscovery T ipv6 ifaces).2 in
        match cidrs with
        | [] => pret ""
        | first :: _ =>
            match ParseCIDRs K cidrs with
            | inl e => pfail e
            | inr subnets =>
                let* keys := patom (range_cidrSets order) in
                match known_for subnets keys with
                | Some k =>
                    let* _ := pcatch (occupyNodeIPs_proc ipv6)
                           (λ e, pfail (ErrV ("error to occupy node IPs in CIDRSet " +:+ Prefix_String k +:+ ": ") e)) in
                    pret (Prefix_String k)
                | None =>
                    let maxPods := getNodeMaxPods node in
                    let* _ := pforeach cidrs (λ cidr,
                      let* p := PRet (MustParsePrefix cidr) in
                      if Bits p =? 128 then pret tt
                      else pcatch (patom (addCIDRSet cidr maxPods))
                                  (λ e, pfail (ErrV "error to add CIDRv6 to CIDRSet: " e))) in
                    let* _ := pcatch (occupyNodeIPs_proc ipv6)
                           (λ e, pfail (ErrV "error to occupy node IPs in CIDRSet: " e)) in
                    pret first
                end
            end
        end
  end.

Definition occupyPodCIDRs_proc (node : Node) : cproc unit :=
  if (length (PodCIDRs node) =? 0)%nat || (2 <? length (PodCIDRs node))%nat then pret tt
  else
    pforeach (PodCIDRs node) (λ cidr,
      match ParseCIDRSloppy K cidr with
      | inl _ => pfail (ErrNew ("failed to parse node " +:+ Name node +:+ ", CIDR " +:+ PodCIDR node))
      | inr podCIDR =>
          let* ok := pcatch (occupyCIDR_proc podCIDR)
                       (λ e, pfail (ErrV ("failed to mark cidr[" +:+ IPNet_String (Some podCIDR) +:+
                                          "] as occupied for node: " +:+ Name node +:+ ": ") e)) in
          if (ok : bool) then pret tt
          else
            let* _ := pcatch (defineNodeGlobalCIDRs_proc (Some node))
                   (λ e, pfail (ErrV ("failed to find a CIDRSet for node " +:+ Name node +:+
                                      ", CIDR " +:+ cidr +:+ ": ") e)) in
            pret tt
      end).

(** One turn of the loop of [releaseCIDRs]. *)
Definition releaseCIDR_proc (cidr : string) : cproc unit :=
  match ParseCIDRSloppy K cidr with
  | inl e => pfail (ErrV ("failed to parse CIDR " +:+ cidr +:+ ": ") e)
  | inr podCIDR =>
      let* keys := patom (range_cidrSets order) in
      match keys with
      | [] => pret tt
      | _ =>
          let* ip := PRet (MustParseAddr (IP_String (ip_of podCIDR))) in
          match key_for ip keys with
          | None => pret tt
          | Some k =>
              pcatch (patom (on_key k (λ s, Release s (Some podCIDR))))
                     (λ e, pfail (ErrV ("error when releasing CIDR " +:+ cidr +:+ ": ") e))
          end
      end
  end.

Definition releaseCIDRs_proc (addresses : list string) : cproc unit := pforeach addresses releaseCIDR_proc.

Definition release_each_proc (allocatedCIDRs : list (option IPNet)) : cproc unit :=
  pforeach allocatedCIDRs (λ cidr, pcatch (releaseCIDRs_proc [IPNet_String cidr]) (λ _, pret tt)).

Definition cloud_updateCIDRsAllocation_proc (nodeName : string) (allocatedCIDRs : list (option IPNet))
    : cproc unit :=
  let cidrsString := ipnetToStringList allocatedCIDRs in
  let* node := patom (nodeLister_Get K nodeName) in
  if (length (PodCIDRs node) =? length allocatedCIDRs)%nat &&
     bool_decide (PodCIDRs node = cidrsString) then pret tt
  else if negb (length (PodCIDRs node) =? 0)%nat then release_each_proc allocatedCIDRs
  else
    let* res := patch_attempts_proc K cidrUpdateRetries None (Name node) cidrsString in
    match res with
    | None => pret tt
    | Some err =>
        let* _ := patom (RecordNodeStatusChange node "CIDRAssignmentFailed") in
        let* _ := (if IsServerTimeout K err then pret tt else release_each_proc allocatedCIDRs) in
        pfail err
    end.

Fixpoint cloud_allocate_each_proc (node : Node) (globalCIDR : string) (idx : nat) (cidrs : list IPNet)
    : cproc (list (option IPNet)) :=
  match cidrs with
  | [] => pret []
  | cidr :: cidrs' =>
      let* ip := PRet (selecting_ip cidr globalCIDR) in
      let* keys := patom (range_cidrSets order) in
      let* podCIDR := match key_for ip keys with
                 | None => pret None
                 | Some k =>
                     let* p := pcatch (patom (on_key k AllocateNext)) (λ e,
                       let* _ := patom (RecordNodeStatusChange node "CIDRNotAvailable") in
                       pfail (ErrV ("failed to allocate cidr from cluster cidr at idx:" +:+
                                    Uitoa (Z.of_nat idx) +:+ ": ") e)) in
                     pret (Some p)
                 end in
      let* rest := cloud_allocate_each_proc node globalCIDR (S idx) cidrs' in
      pret (podCIDR :: rest)
  end.

Definition cloud_AllocateOrOccupyCIDR_proc (node : option Node) : cproc unit :=
  match node with
  | None => pret tt
  | Some n =>
      if (0 <? length (PodCIDRs n))%nat then occupyPodCIDRs_proc n
      else
        let* globalCIDR := defineNodeGlobalCIDRs_proc node in
        let* r := patom gget in
        let* allocatedCIDRs := cloud_allocate_each_proc n globalCIDR 0 (ca_clusterCIDRs r) in
        cloud_updateCIDRsAllocation_proc (Name n) allocatedCIDRs
  end.

Definition cloud_ReleaseCIDR_proc (node : option Node) : cproc unit :=
  match node with
  | None => pret tt
  | Some node => if (length (PodCIDRs node) =? 0)%nat then pret tt else releaseCIDRs_proc (PodCIDRs node)
  end.

(** ** Alone, a thread is the sequential code *)

Lemma occupyCIDR_run n r : prun (occupyCIDR_proc n) r = occupyCIDR order n r.
Proof. unfold occupyCIDR_proc, occupyCIDR. go_run. Qed.

Lemma occupyNodeIPs_run l r : prun (occupyNodeIPs_proc l) r = occupyNodeIPs order l r.
Proof. pose proof occupyCIDR_run. unfold occupyNodeIPs_proc, occupyNodeIPs. go_run. Qed.

Lemma first_ifaces_run l r : prun (first_ifaces_proc l) r = first_ifaces T l r.
Proof. revert r. induction l as [|ip l IH]; cbn [first_ifaces_proc first_ifaces]; go_run. Qed.

Lemma defineNodeGlobalCIDRs_run node r :
  prun (defineNodeGlobalCIDRs_proc node) r = defineNodeGlobalCIDRs K T order node r.
Proof.
  pose proof occupyNodeIPs_run. pose proof first_ifaces_run.
  unfold defineNodeGlobalCIDRs_proc, defineNodeGlobalCIDRs. go_run.
Qed.

Lemma occupyPodCIDRs_run node r : prun (occupyPodCIDRs_proc node) r = occupyPodCIDRs K T order node r.
Proof.
  pose proof occupyCIDR_run. pose proof defineNodeGlobalCIDRs_run.
  unfold occupyPodCIDRs_proc, occupyPodCIDRs. go_run.
Qed.

Lemma releaseCIDRs_run l r : prun (releaseCIDRs_proc l) r = releaseCIDRs K order l r.
Proof. unfold releaseCIDRs_proc, releaseCIDRs, releaseCIDR_proc. go_run. Qed.

Lemma release_each_run l r : prun (release_each_proc l) r = release_each K order l r.
Proof. pose proof releaseCIDRs_run. unfold release_each_proc, release_each. go_run. Qed.

Lemma cloud_updateCIDRsAllocation_run name l r :
  prun (cloud_updateCIDRsAllocation_proc name l) r = updateCIDRsAllocation K order name l r.
Proof.
  pose proof release_each_run. pose proof (patch_attempts_run (S := cloudAllocator) K).
  unfold cloud_updateCIDRsAllocation_proc, updateCIDRsAllocation. go_run.
Qed.

Lemma cloud_allocate_each_run node g idx cidrs r :
  prun (cloud_allocate_each_proc node g idx cidrs) r = allocate_each order node g idx cidrs r.
Proof. revert idx r. induction cidrs as [|c cidrs IH]; cbn [cloud_allocate_each_proc allocate_each]; go_run. Qed.

(** A worker that is not interrupted does what the sequential model says. *)
Theorem cloud_steps_sequential node r :
  prun (cloud_AllocateOrOccupyCIDR_proc node) r = cloud_AllocateOrOccupyCIDR K T order node r ∧
  prun (cloud_ReleaseCIDR_proc node) r = cloud_ReleaseCIDR K order node r.
Proof.
  pose proof occupyPodCIDRs_run. pose proof defineNodeGlobalCIDRs_run. pose proof cloud_allocate_each_run.
  pose proof cloud_updateCIDRsAllocation_run. pose proof releaseCIDRs_run.
  split; destruct node as [node|]; [|done| |done];
    unfold cloud_AllocateOrOccupyCIDR_proc, cloud_AllocateOrOccupyCIDR, cloud_ReleaseCIDR_proc, cloud_ReleaseCIDR; go_run.
Qed.
End threads.
