(* ===== verification/CloudConcurrentSafety.v ===== *)
(** * Workers of the cloud allocator that interleave

    The threads of [CloudConcurrent] keep to the discipline of [Ownership]: a token is
    a network of a marked position of some set.  Sets appear while the threads run.
    [rF] is the state the run ends in: every state on the way has some of its sets,
    and what is proved is under the assumption that no address lies in two of them.
    As for the range allocator, networks that a stray release names are owned by
    nobody. *)

From S2P Require Import Prelude GoNet GoStrings NetIP NetIPRoundTrip CidrSet CidrSetGeometry CidrSetSpec CidrPool.
From S2P Require Import Kube CidrAllocator NodeUtils TalosClient CloudAllocator CloudAllocatorSpec CloudAllocatorSafety CloudAllocatorRuns.
From S2P Require Import Interleaving Ownership CloudConcurrent.

Local Open Scope go_scope.

Notation csys_step K T order :=
  (system_step (λ node, cloud_AllocateOrOccupyCIDR_proc K T order (Some node))
               (λ node, cloud_ReleaseCIDR_proc K order (Some node))).

Definition network (x : IPNet) : Prop := ∃ f a m, x = mk_net f a m ∧ canon f a m.

Lemma overlap_self f a m : canon f a m → overlap f a m a m.
Proof. intros [Hm _ _ _]. exists a. pose proof (pow2_pos (width f - m) ltac:(lia)). unfold in_net. lia. Qed.

(** No patch, no assignment. *)
Lemma no_patch_accepts r r' : no_patch r r' → accepted_of (fresh_actions r r') = [].
Proof.
  intros (l & E & Hl). unfold fresh_actions. cbn [trace cloudAllocator_traced]. rewrite E, length_app.
  replace (length l + length (ca_actions r) - length (ca_actions r))%nat with (length l) by lia.
  rewrite take_app_length. clear E. induction Hl as [|a l Ha _ IH]; [done|].
  unfold accepted_of in *. destruct a; first [discriminate Ha|exact IH].
Qed.

(** The sets of [r], made as they are, are sets of [r']. *)
Definition sets_grow (r r' : cloudAllocator) : Prop :=
  ∀ k s, ca_cidrSets r !! k = Some s → ∃ s', ca_cidrSets r' !! k = Some s' ∧ config s' = config s.

#[export] Instance sets_grow_preorder : PreOrder sets_grow.
Proof.
  split; [intros r k s Hk; by exists s|]. intros r1 r2 r3 H12 H23 k s Hk. destruct (H12 k s Hk) as (s2 & H2 & E2).
  destruct (H23 k s2 H2) as (s3 & H3 & E3). exists s3. split; [done|congruence].
Qed.

Lemma sets_grow_apart r r' : sets_grow r r' → keys_apart r' → keys_apart r.
Proof.
  intros Hg Ha k1 k2 a [s1 E1] [s2 E2]. destruct (Hg _ _ E1) as (s1' & E1' & _).
  destruct (Hg _ _ E2) as (s2' & E2' & _). apply Ha; by eexists.
Qed.

(** An operation on a set that leaves the set's configuration. *)
Definition op_config {A} (op : CidrSet → outcome A * CidrSet) : Prop := ∀ s, config (op s).2 = config s.

Lemma loop_config (step : CidrSet → Z → CidrSet) l s :
  (∀ s i, config (step s i) = config s) → config (foldl step s l) = config s.
Proof. intros Hs. revert s. induction l as [|i l IH]; intros s; cbn [foldl]; [done|]. by rewrite IH, Hs. Qed.

Lemma Occupy_config n : op_config (λ s, Occupy s n).
Proof.
  intros s. unfold Occupy. destruct (getBeginningAndEndIndices s n) as [[b e]|e|]; [|done..]. cbn [snd].
  transitivity (config (foldl occupy_bit s (index_range b e))); [done|]. apply loop_config.
  intros s' i. unfold occupy_bit. by destruct (Z.testbit _ i).
Qed.
Lemma Release_config n : op_config (λ s, Release s n).
Proof.
  intros s. unfold Release. destruct (getBeginningAndEndIndices s n) as [[b e]|e|]; [|done..]. cbn [snd].
  transitivity (config (foldl release_bit s (index_range b e))); [done|]. apply loop_config.
  intros s' i. unfold release_bit. by destruct (Z.testbit _ i).
Qed.
Lemma AllocateNext_config : op_config AllocateNext.
Proof. intros s. unfold AllocateNext. repeat case_match; done. Qed.

Lemma on_key_grow {A} k (op : CidrSet → outcome A * CidrSet) : op_config op → gsteps sets_grow (on_key k op).
Proof.
  intros Hop r k' s' Hk'. unfold on_key. destruct (ca_cidrSets r !! k) as [s|] eqn:Es; [|by exists s'].
  specialize (Hop s). destruct (op s) as [o s1]. cbn [snd with_sets ca_cidrSets] in *.
  destruct (decide (k' = k)) as [->|Hne]; [|rewrite lookup_insert_ne by done; by exists s'].
  rewrite lookup_insert_eq. rewrite Es in Hk'. injection Hk' as <-. by exists s1.
Qed.
Lemma range_grow order : gsteps sets_grow (range_cidrSets order).
Proof. intros r k s Hk. by exists s. Qed.
Lemma emit_grow a : gsteps sets_grow (emit (S := cloudAllocator) a).
Proof. intros r k s Hk. by exists s. Qed.
#[export] Hint Resolve on_key_grow range_grow emit_grow Occupy_config Release_config AllocateNext_config : go_steps.

Lemma addCIDRSet_grow cidr maxPods : gsteps sets_grow (addCIDRSet cidr maxPods).
Proof.
  unfold addCIDRSet. destruct (ParsePrefix cidr) as [p|]; [|go_steps].
  apply gsteps_bind; [exact _|go_steps|]. intros [q m]. apply gsteps_bind; [exact _|go_steps|]. intros s r k s' Hk.
  unfold gbind. cbn [gget]. destruct (ca_cidrSets r !! Masked q) eqn:E; [by exists s'|].
  cbn. rewrite lookup_insert_ne; [by exists s'|congruence].
Qed.
#[export] Hint Resolve addCIDRSet_grow : go_steps.

Section grow.
Context (K : Kube) (T : Talos) (order : nat → list Prefix → list Prefix).
Notation grow := (psteps sets_grow).

Lemma occupyCIDR_grow n : grow (occupyCIDR_proc order n).
Proof. unfold occupyCIDR_proc. go_psteps. Qed.
Lemma occupyNodeIPs_grow l : grow (occupyNodeIPs_proc order l).
Proof. pose proof occupyCIDR_grow. unfold occupyNodeIPs_proc. go_psteps. Qed.
Lemma first_ifaces_grow l : grow (first_ifaces_proc T l).
Proof. induction l; cbn [first_ifaces_proc]; unfold GetNodeIfaces; go_psteps. Qed.
Lemma defineNodeGlobalCIDRs_grow node : grow (defineNodeGlobalCIDRs_proc K T order node).
Proof.
  pose proof occupyNodeIPs_grow. pose proof first_ifaces_grow. unfold defineNodeGlobalCIDRs_proc, talosclient_New. go_psteps.
Qed.
Lemma occupyPodCIDRs_grow node : grow (occupyPodCIDRs_proc K T order node).
Proof. pose proof occupyCIDR_grow. pose proof defineNodeGlobalCIDRs_grow. unfold occupyPodCIDRs_proc. go_psteps. Qed.
Lemma releaseCIDR_grow cidr : grow (releaseCIDR_proc K order cidr).
Proof. unfold releaseCIDR_proc. go_psteps. Qed.
Lemma release_each_grow l : grow (release_each_proc K order l).
Proof. pose proof releaseCIDR_grow. unfold release_each_proc, releaseCIDRs_proc. go_psteps. Qed.
Lemma cloud_allocate_each_grow node g idx cidrs : grow (cloud_allocate_each_proc order node g idx cidrs).
Proof.
  revert idx. induction cidrs as [|cidr cidrs IH]; intros idx; cbn [cloud_allocate_each_proc];
    unfold RecordNodeStatusChange; go_psteps.
Qed.
Lemma patch_attempts_grow n err node cidrs : grow (patch_attempts_proc K n err node cidrs).
Proof. revert err. induction n as [|n IH]; intros err; cbn [patch_attempts_proc]; unfold PatchNodeCIDRs; go_psteps. Qed.
Lemma cloud_update_grow name l : grow (cloud_updateCIDRsAllocation_proc K order name l).
Proof.
  pose proof release_each_grow. pose proof patch_attempts_grow.
  unfold cloud_updateCIDRsAllocation_proc, RecordNodeStatusChange, nodeLister_Get. go_psteps.
Qed.
Lemma cloud_AllocateOrOccupyCIDR_grow node : grow (cloud_AllocateOrOccupyCIDR_proc K T order node).
Proof.
  pose proof occupyPodCIDRs_grow. pose proof defineNodeGlobalCIDRs_grow. pose proof cloud_allocate_each_grow.
  pose proof cloud_update_grow. unfold cloud_AllocateOrOccupyCIDR_proc. go_psteps.
Qed.
Lemma cloud_ReleaseCIDR_grow node : grow (cloud_ReleaseCIDR_proc K order node).
Proof. pose proof releaseCIDR_grow. unfold cloud_ReleaseCIDR_proc, releaseCIDRs_proc. go_psteps. Qed.
End grow.

Section safety.
Context (rF : cloudAllocator) (HF : keys_apart rF) (K : Kube) (S : list Node).

Notation U := anywhere.
Notation good := (ca_ok anywhere).
Notation marked := (granted anywhere).

Definition ends_in (r : cloudAllocator) : Prop := sets_grow r rF.

(** [x] is a node network of a set that is there in the end. *)
Definition block_net (x : IPNet) : Prop :=
  ∃ f c i s0 s, wf f c s0 ∧ 0 ≤ i < maxCIDRs s0 ∧ ca_cidrSets rF !! prefix_of f c (clusterMaskSize s0) = Some s ∧
    config s = config s0 ∧ x = mk_net f (block_base f c s0 i) (nodeMaskSize s0).

Definition marked_clean (r : cloudAllocator) (x : IPNet) : Prop := marked r x ∧ ¬ disturbed K S x.
(** Those that no stray release names. *)
Definition kept (nets : list IPNet) : list IPNet := filter (λ x, ¬ disturbed K S x) nets.

(** The networks among those of an assignment; a cluster range without a set leaves
    none. *)
Definition cloud_assigned_nets (a : string * list string) (toks : list IPNet) : Prop :=
  ∃ l, a.2 = ipnetToStringList l ∧ kept (omap id l) = toks ∧ Forall block_net (omap id l).

Notation holds := (owned marked_clean).
Notation trans := (Ownership.trans good marked_clean cloud_assigned_nets).
Notation wpt := (wp good ends_in holds trans).

Lemma block_network x : block_net x → network x.
Proof. intros (f & c & i & s0 & s & Hw & Hi & _ & _ & ->). eexists f, _, _. split; [done|]. by apply block_canon; [apply Hw|]. Qed.

Lemma granted_block r x : ends_in r → marked r x → block_net x.
Proof.
  intros Hr (f & c & i & s0 & Hw & Hi & (_ & s & Es & Ec & _) & ->). destruct (Hr _ _ Es) as (s' & Es' & Ec').
  exists f, c, i, s0, s'. split; [done|]. split; [done|]. split; [done|]. split; [congruence|done].
Qed.

(** Two such networks are equal or share no address. *)
Lemma block_nets_clear x y : block_net x → block_net y → x ≠ y → clear_nets x y.
Proof using HF.
  intros (f & c & i & s0 & s & Hw & Hi & Es & Ec & ->) (f' & c' & j & s0' & s' & Hw' & Hj & Es' & Ec' & ->) Hne.
  eexists f, _, _, f', _, _.
  split; [done|]. split; [by apply block_canon; [apply Hw|]|].
  split; [done|]. split; [by apply block_canon; [apply Hw'|]|].
  intros -> (z & Hz & Hz').
  pose proof (block_inside _ _ _ _ _ (wf_geom _ _ _ Hw) Hi Hz) as Hin.
  pose proof (block_inside _ _ _ _ _ (wf_geom _ _ _ Hw') Hj Hz') as Hin'.
  pose proof (HF _ _ _ (mk_is_Some _ _ Es) (mk_is_Some _ _ Es') Hin Hin') as Ek. rewrite Ek, Es' in Es. injection Es as <-.
  apply prefix_of_inj in Ek as (_ & -> & _). rewrite Ec' in Ec.
  rewrite (block_base_config f c' s0 s0' j Ec), (config_nodeMaskSize _ _ Ec) in *.
  destruct (decide (i = j)) as [-> |Hij]; [done|].
  apply (blocks_disjoint f c' s0 i j (wf_geom _ _ _ Hw) Hij). by exists z.
Qed.

(** A network that was not marked is not marked. *)
Lemma unmarked_not_granted r x : unmarked U r x → ¬ marked r x.
Proof.
  intros Hu (f & c & i & s0 & Hw & Hi & Hm & ->).
  destruct (Hu f c i s0 Hw Hi Hm) as (f' & b & m & E & Hc & Hno).
  assert (canon f (block_base f c s0 i) (nodeMaskSize s0)) as Hcan by (by apply block_canon; [apply Hw|]).
  apply mk_net_inj in E as (<- & <- & <-); [|done..]. by apply Hno, overlap_self.
Qed.

(** ** Rules for the atomic operations *)

(** A step that keeps every mark and patches nothing. *)
Definition keeps_marks {A} (m : GoM cloudAllocator A) : Prop :=
  gsteps (ca_evolves U) m ∧ gsteps no_patch m ∧
  ∀ f c i s0, wf f c s0 → 0 ≤ i < maxCIDRs s0 → gsteps (CloudAllocatorRuns.holds U f c i s0) m.

Lemma wp_keeps {A} (m : GoM cloudAllocator A) own (Q : outcome A → list IPNet → Prop) :
  keeps_marks m → (∀ r, good r → Q (m r).1 own) → wpt (patom m) own Q.
Proof.
  intros (He & Hp & Hk) HQ. apply wp_atom. intros r Hg Hh _. exists own. split; [|by apply HQ].
  apply trans_quiet; [done|by apply (He r)| |by apply no_patch_accepts, Hp].
  intros n [Hn Hd]. split; [|done]. revert Hn. apply granted_holds. intros f c i s0 Hw Hi. by apply Hk.
Qed.

Lemma range_keeps order : keeps_marks (range_cidrSets order).
Proof. split_and!; [apply range_steps|apply range_silent|]. intros. apply range_holds. Qed.

Lemma occupy_keeps k n : keeps_marks (on_key k (λ s, Occupy s n)).
Proof.
  split_and!; [apply on_key_steps, Occupy_safe|apply on_key_silent|].
  intros f c i s0 _ _. apply on_key_holds; [apply Occupy_safe|apply Occupy_op_keeps].
Qed.

Lemma add_keeps cidr maxPods : discovered U cidr → keeps_marks (addCIDRSet cidr maxPods).
Proof.
  intros (p & -> & Hp & HUp). split_and!; [by apply addCIDRSet_steps|apply addCIDRSet_silent|].
  intros f c i s0 _ _. by apply addCIDRSet_holds.
Qed.

Lemma ifaces_keeps T ip : keeps_marks (GetNodeIfaces T ip).
Proof. unfold GetNodeIfaces. split_and!; [go_steps|go_steps|]. intros. go_steps. Qed.

Lemma talosclient_keeps T : keeps_marks (talosclient_New T).
Proof. unfold talosclient_New. split_and!; [go_steps|go_steps|]. intros. go_steps. Qed.

Lemma cloud_actions : action_laws good marked_clean.
Proof.
  split; [done| |].
  - intros a r Hr. by apply (emit_cloud_steps U a r).
  - intros a r n [Hn Hd]. split; [|done]. revert Hn. apply granted_holds. intros f c i s0 _ _.
    apply (emit_holds U f c i s0 a r).
Qed.

Lemma wp_cloud_allocate k own (Q : outcome IPNet → list IPNet → Prop) :
  Q Panic own → (∀ e, Q (Err e) own) → (∀ x, block_net x → Q (Ok x) (own ++ kept [x])) →
  wpt (patom (on_key k AllocateNext)) own Q.
Proof using HF.
  intros Hp He HQ. apply wp_atom. intros r Hg Hh Hend.
  pose proof (on_key_steps U k AllocateNext AllocateNext_safe r Hg) as (Hg' & _).
  pose proof (on_key_grow k AllocateNext AllocateNext_config r) as Hgrow.
  assert (∀ n, marked_clean r n → marked_clean (on_key k AllocateNext r).2 n) as Hk.
  { intros n [Hn Hd]. split; [|done]. revert Hn. apply granted_holds. intros f c i s0 _ _.
    apply (on_key_holds U f c i s0 k AllocateNext AllocateNext_safe), AllocateNext_op_keeps. }
  assert (trace (on_key k AllocateNext r).2 = trace r) as Ht.
  { unfold on_key. destruct (_ !! k) as [s|]; [by destruct (AllocateNext s)|done]. }
  destruct (on_key k AllocateNext r) as [[x|e|] r'] eqn:E; cbn [fst snd] in *.
  2-3: exists own; split; [|done]; apply trans_quiet; [done..|]; by rewrite fresh_same.
  assert (keys_apart r) as Hap by (apply (sets_grow_apart r rF); [by transitivity r'|done]).
  destruct (allocate_grants U k r x r' Hg Hap E) as [Hx Hu]. exists (own ++ kept [x]).
  split; [|by eapply HQ, granted_block]. unfold kept. rewrite filter_cons, filter_nil.
  destruct (decide (¬ disturbed K S x)) as [Hd|Hd].
  - apply trans_take; [done..| |by split|done]. intros [Hm _]. by apply (unmarked_not_granted r x).
  - rewrite app_nil_r. apply trans_quiet; [done..|]. by rewrite fresh_same.
Qed.

(** Releasing a network that is clear of a marked one leaves its mark. *)
Lemma release_leaves k n r x :
  good r → marked r x → clear_nets x n → marked (on_key k (λ s, Release s (Some n)) r).2 x.
Proof.
  intros Hg Hx (f & a & m & f' & b & m' & Ex & Hcx & -> & Hcn & Hno).
  destruct Hx as (f1 & c & i & s0 & Hw & Hi & Hm & Ex'). rewrite Ex' in Ex.
  apply mk_net_inj in Ex as (-> & <- & <-); [|by apply block_canon; [apply Hw|]|done].
  exists f, c, i, s0. split; [done|]. split; [done|]. split; [|done].
  apply (on_key_holds U f c i s0 k (λ s, Release s (Some _)) (Release_safe (Some _))); [|done].
  apply Release_op_keeps; [done|]. by exists f', b, m'.
Qed.

Lemma release_trace k n r : trace (on_key k (λ s, Release s (Some n)) r).2 = trace r.
Proof. unfold on_key. destruct (_ !! k) as [s|]; [by destruct (Release s (Some n))|done]. Qed.

Lemma release_ends k n r : ends_in (on_key k (λ s, Release s (Some n)) r).2 → ends_in r.
Proof. intros H. unfold ends_in in *. etransitivity; [|exact H]. apply on_key_grow, Release_config. Qed.

(** Giving back an owned network leaves every other mark. *)
Lemma wp_cloud_release k x own own' (Q : outcome unit → list IPNet → Prop) :
  own ≡ₚ x :: own' → (∀ o, Q o own') → wpt (patom (on_key k (λ s, Release s (Some x)))) own Q.
Proof using HF.
  intros Ho HQ. apply wp_atom. intros r Hg Hh Hend%release_ends. exists own'. split; [|done].
  apply (trans_perm _ _ _ _ (x :: own')); [done|]. apply (owned_perm _ _ (x :: own')) in Hh; [|done].
  apply trans_drop; [done|by apply (on_key_steps U k _ (Release_safe (Some x)) r)| |apply release_trace].
  intros n [Hn Hd] Hne. split; [|done]. apply release_leaves; [done..|].
  assert (marked r x) as Hx by (apply Hh; by left). apply block_nets_clear; [by apply (granted_block r)..|done].
Qed.

(** Releasing a network that is clear of all that somebody can own. *)
Lemma wp_cloud_release_clear k n own (Q : outcome unit → list IPNet → Prop) :
  (∀ y, block_net y → ¬ disturbed K S y → clear_nets y n) → (∀ o, Q o own) →
  wpt (patom (on_key k (λ s, Release s (Some n)))) own Q.
Proof.
  intros Hc HQ. apply wp_atom. intros r Hg Hh Hend%release_ends. exists own. split; [|done].
  apply trans_quiet; [done|by apply (on_key_steps U k _ (Release_safe (Some n)) r)| |by rewrite fresh_same by apply release_trace].
  intros x [Hx Hd]. split; [|done]. apply release_leaves; [done..|]. apply Hc; [by apply (granted_block r)|done].
Qed.

(** ** The operations *)

Context (HC : CIDRLaws K) (T : Talos) (HT : TalosLaws U T).
Context (order : nat → list Prefix → list Prefix).

Notation safe p own := (wpt p own (λ _ _, True)).
Notation same p own := (wpt p own (λ _ own', own' = own)).

Lemma occupyCIDR_same n own : same (occupyCIDR_proc order n) own.
Proof.
  unfold occupyCIDR_proc. apply wp_bind, wp_keeps; [apply range_keeps|]. intros r _. cbn [after_bind range_cidrSets fst].
  destruct (key_for _ _) as [k|]; [|done].
  apply wp_bind, wp_catch, wp_keeps; [apply occupy_keeps|]. intros r' _. by destruct (on_key _ _ r').1.
Qed.

Lemma occupyNodeIPs_same l own : same (occupyNodeIPs_proc order l) own.
Proof.
  apply (wp_foreach _ _ _ _ (λ _ own', own' = own)); [done| |done]. intros a l' own' ->.
  destruct (_ || _); [done|]. destruct (ParseIP _); [|done].
  apply wp_bind. eapply wp_mono; [|apply occupyCIDR_same]. by intros [] own' ->.
Qed.

Lemma first_ifaces_wp l own :
  wpt (first_ifaces_proc T l) own (λ o own', own' = own ∧ match o with Ok i => reported T i | _ => True end).
Proof.
  induction l as [|ip l IH]; cbn [first_ifaces_proc]; [by split; [|left]|].
  apply wp_catch, wp_keeps; [apply ifaces_keeps|]. intros r _.
  unfold GetNodeIfaces, gbind. cbn [gget emit gmodify].
  destruct (talos_GetNodeIfaces T (trace r) (Addr_String ip)) as [e|i] eqn:E; cbn [gfail gret fst after_catch]; [done|].
  split; [done|]. right. by eexists _, _.
Qed.

Lemma add_all_same cidrs maxPods own :
  Forall (discovered U) cidrs →
  same (pforeach cidrs (λ cidr,
    let* p := PRet (MustParsePrefix cidr) in
    if Bits p =? 128 then pret tt
    else pcatch (patom (addCIDRSet cidr maxPods)) (λ e, pfail (ErrV "error to add CIDRv6 to CIDRSet: " e)))) own.
Proof.
  intros Hd. apply (wp_foreach _ _ _ _ (λ l own', Forall (discovered U) l ∧ own' = own)); [done| |by intros ? []].
  intros cidr l own' [[Hc Hl]%Forall_cons ->]. apply wp_bind.
  destruct (MustParsePrefix cidr) as [p|e|]; [|done..]. cbn [wp after_bind].
  destruct (_ =? _); [done|]. apply wp_catch, wp_keeps; [by apply add_keeps|].
  intros r _. by destruct (addCIDRSet cidr maxPods r).1.
Qed.

Lemma defineNodeGlobalCIDRs_same node own : same (defineNodeGlobalCIDRs_proc K T order node) own.
Proof using HT.
  destruct node as [node|]; [|done]. unfold defineNodeGlobalCIDRs_proc. apply wp_bind, wp_catch.
  destruct (GetNodeIPs (Some node)) as [ips|e|]; [|done..]. cbn [wp after_catch after_bind].
  destruct (_ =? _)%nat; [done|]. apply wp_bind, wp_keeps; [apply talosclient_keeps|].
  intros r _. destruct (talosclient_New T r).1; [|done..]. cbn [after_bind].
  apply wp_bind. eapply wp_mono; [|apply first_ifaces_wp]. intros [ifaces|e|] own'; [|by intros [-> _]..].
  intros [-> Hrep]. cbn [after_bind].
  pose proof (discovery_found T U HT (public_ips ips) ifaces Hrep) as Hd. unfold public_ips in Hd.
  destruct (NodeCIDRDiscovery T _ ifaces).2 as [|first rest]; [done|].
  destruct (ParseCIDRs K (first :: rest)) as [e|subnets]; [done|].
  apply wp_bind, wp_keeps; [apply range_keeps|]. intros r' _. cbn [after_bind range_cidrSets fst].
  destruct (known_for _ _) as [k|].
  - apply wp_bind, wp_catch. eapply wp_mono; [|apply occupyNodeIPs_same]. by intros [] own' ->.
  - apply wp_bind. eapply wp_mono; [|by apply add_all_same]. intros [u|e|] own' ->; [|done..]. cbn [after_bind].
    apply wp_bind, wp_catch. eapply wp_mono; [|apply occupyNodeIPs_same]. by intros [] own' ->.
Qed.

Lemma occupyPodCIDRs_safe node own : safe (occupyPodCIDRs_proc K T order node) own.
Proof using HT.
  unfold occupyPodCIDRs_proc. destruct (_ || _); [done|].
  apply (wp_foreach _ _ _ _ (λ _ _, True)); [done| |done]. intros cidr l own' _.
  destruct (ParseCIDRSloppy K cidr) as [e|n]; [done|].
  apply wp_bind, wp_catch. eapply wp_mono; [|apply occupyCIDR_same]. intros [ok|e|] own2 _; [|done..].
  cbn [after_catch after_bind]. destruct ok; [done|].
  apply wp_bind, wp_catch. eapply wp_mono; [|apply defineNodeGlobalCIDRs_same]. by intros [] ? _.
Qed.

(** One text: whatever is done about its network [x] in some set. *)
Lemma releaseCIDR_wp cidr x own (Q : outcome unit → list IPNet → Prop) :
  ParseCIDRSloppy K cidr = inr x → (∀ o, Q o own) →
  (∀ k, wpt (patom (on_key k (λ s, Release s (Some x)))) own (λ o own', ∀ o', Q o' own')) →
  wpt (releaseCIDR_proc K order cidr) own Q.
Proof.
  intros Ex HQ Hk. unfold releaseCIDR_proc. rewrite Ex.
  apply wp_bind, wp_keeps; [apply range_keeps|]. intros r _. cbn [after_bind range_cidrSets fst].
  destruct (order _ _) as [|k0 keys]; [apply HQ|]. apply wp_bind.
  destruct (MustParseAddr _) as [ip|e|]; [|apply HQ..]. cbn [wp after_bind].
  destruct (key_for ip _) as [k|]; [|apply HQ].
  apply wp_catch. eapply wp_mono; [|apply Hk]. intros [] own' H; apply H.
Qed.

(** The thread's list is of networks of sets, and it owns those among them that no
    stray release names. *)
Definition carries (l : list (option IPNet)) (own : list IPNet) : Prop :=
  Forall block_net (omap id l) ∧ ∃ rest, own ≡ₚ kept (omap id l) ++ rest.

Lemma carries_none l own : carries (None :: l) own → carries l own.
Proof. done. Qed.
Lemma carries_some x l own : carries (Some x :: l) own →
  block_net x ∧ carries l own ∧ (disturbed K S x ∨ ∃ own', own ≡ₚ x :: own' ∧ carries l own').
Proof.
  intros [[Hx Hl]%Forall_cons (rest & E)]. change (omap id (Some x :: l)) with (x :: omap id l) in E.
  unfold kept in E. rewrite filter_cons in E. split; [done|].
  destruct (decide (¬ disturbed K S x)) as [Hd|Hd]; split.
  - split; [done|]. exists (x :: rest). rewrite E. cbn. apply Permutation_middle.
  - right. exists (kept (omap id l) ++ rest). split; [done|]. split; [done|by exists rest].
  - split; [done|by exists rest].
  - left. by destruct (decide (disturbed K S x)).
Qed.

(** Giving back a network the thread carries. *)
Lemma releaseCIDR_carried cidr x l own (Q : outcome unit → list IPNet → Prop) :
  ParseCIDRSloppy K cidr = inr x → carries (Some x :: l) own → (∀ o own', carries l own' → Q o own') →
  wpt (releaseCIDR_proc K order cidr) own Q.
Proof using HF.
  intros Ex (Hx & Hl & Hown)%carries_some HQ. apply (releaseCIDR_wp cidr x); [done|intros o; by apply HQ|]. intros k.
  destruct Hown as [Hd|(own' & E & Hl')].
  - apply wp_cloud_release_clear; [|intros o o'; by apply HQ]. intros y Hy Hyd.
    apply block_nets_clear; [done..|]. by intros ->.
  - apply (wp_cloud_release k x own own'); [done|]. intros o o'. by apply HQ.
Qed.

Lemma parse_network x : network x → ParseCIDRSloppy K (IPNet_String (Some x)) = inr x.
Proof using HC. intros (f & a & m & -> & Hc). by apply parse_canon. Qed.

Lemma release_each_safe l own : carries l own → safe (release_each_proc K order l) own.
Proof using HF HC.
  intros Hc. apply (wp_foreach _ _ _ _ carries); [done| |done]. intros [x|] l' own' H.
  - pose proof (carries_some _ _ _ H) as (Hx & _). apply wp_catch.
    apply (wp_foreach _ _ _ _ (λ strs o, strs = [IPNet_String (Some x)] ∧ o = own' ∨ strs = [] ∧ carries l' o));
      [by left| |].
    + intros cidr strs o [[[= -> ->] ->]|[? _]]; [|done].
      apply (releaseCIDR_carried _ x l'); [by apply parse_network, block_network|done|intros [] ? ?; by auto].
    + intros o [[? _]|[_ Ho]]; [done|exact Ho].
  - apply carries_none in H. apply wp_catch.
    apply (wp_foreach _ _ _ _ (λ strs o, o = own' ∧ (strs = [IPNet_String None] ∨ strs = []))); [by auto| |by intros o [-> _]].
    intros cidr strs o [-> [[= -> ->]|?]]; [|done]. unfold releaseCIDR_proc.
    destruct (parse_nil K HC) as [e E]. cbn [IPNet_String]. by rewrite E.
Qed.

Lemma cloud_ReleaseCIDR_safe node nets :
  cloud_assigned_nets (Name node, PodCIDRs node) nets → safe (cloud_ReleaseCIDR_proc K order (Some node)) nets.
Proof using HF HC.
  intros (l & El & <- & Hn). cbn [snd] in El. unfold cloud_ReleaseCIDR_proc. destruct (_ =? _)%nat; [done|].
  apply (wp_foreach _ _ _ _ (λ strs own, ∃ l, strs = ipnetToStringList l ∧ carries l own)); [| |done].
  { exists l. split; [done|]. split; [done|]. exists []. by rewrite app_nil_r. }
  intros cidr strs own (l' & E & H). destruct l' as [|[x|] l']; [done| |].
  - assert (cidr = IPNet_String (Some x) ∧ strs = ipnetToStringList l') as [-> ->] by by injection E.
    pose proof (carries_some _ _ _ H) as (Hx & _).
    apply (releaseCIDR_carried _ x l'); [by apply parse_network, block_network|done|intros [] ? ?; by eauto].
  - assert (cidr = IPNet_String None) as -> by by injection E.
    unfold releaseCIDR_proc. destruct (parse_nil K HC) as [e Ee]. cbn [IPNet_String]. by rewrite Ee.
Qed.

(** A release that was recorded as stray harms nobody's network. *)
Lemma cloud_stray_safe node : node ∈ S → safe (cloud_ReleaseCIDR_proc K order (Some node)) [].
Proof.
  intros Hn. unfold cloud_ReleaseCIDR_proc. destruct (_ =? _)%nat; [done|].
  apply (wp_foreach _ _ _ _ (λ strs own, own = [] ∧ ∀ cidr, cidr ∈ strs → cidr ∈ PodCIDRs node)); [done| |done].
  intros cidr strs own [-> Hin]. destruct (ParseCIDRSloppy K cidr) as [e|n] eqn:En.
  { unfold releaseCIDR_proc. by rewrite En. }
  assert (∀ c, c ∈ strs → c ∈ PodCIDRs node) as Hin' by (intros c Hc; apply Hin; by right).
  apply (releaseCIDR_wp cidr n); [done|by intros []|]. intros k. apply wp_cloud_release_clear; [|by intros o []].
  intros y _ Hyd. apply (undisturbed K S y node cidr n); [done..| |done]. apply Hin. by left.
Qed.

Lemma cloud_allocate_each_wp node g idx cidrs own :
  wpt (cloud_allocate_each_proc order node g idx cidrs) own (λ o own', match o with
    | Ok l => own' = own ++ kept (omap id l) ∧ Forall block_net (omap id l)
    | _ => True end).
Proof using HF.
  revert idx own. induction cidrs as [|cidr cidrs IH]; intros idx own; cbn [cloud_allocate_each_proc].
  { split; [by rewrite app_nil_r|constructor]. }
  apply wp_bind. destruct (selecting_ip cidr g) as [ip|e|]; [|done..]. cbn [wp after_bind].
  apply wp_bind, wp_keeps; [apply range_keeps|]. intros r _. cbn [after_bind range_cidrSets fst].
  apply wp_bind. destruct (key_for ip _) as [k|].
  - apply wp_bind, wp_catch, wp_cloud_allocate; [done| |].
    + intros e. cbn [after_catch]. by apply wp_bind, (wp_emit _ _ _ _ cloud_actions).
    + intros x Hx. cbn [after_catch after_bind wp pret]. apply wp_bind. eapply wp_mono; [|apply IH].
      intros [l|e|] own'; [|done..]. intros [-> Hl]. cbn [after_bind]. rewrite <- app_assoc.
      split; [|by constructor]. f_equal. symmetry. apply (filter_app _ [x]).
  - cbn [wp pret after_bind]. apply wp_bind. eapply wp_mono; [|apply IH].
    intros [l|e|] own'; [|done..]. done.
Qed.

Lemma cloud_update_safe name l : Forall block_net (omap id l) →
  safe (cloud_updateCIDRsAllocation_proc K order name l) (kept (omap id l)).
Proof using HF HC.
  intros Hl. assert (carries l (kept (omap id l))) as Hc by (split; [done|exists []; by rewrite app_nil_r]).
  unfold cloud_updateCIDRsAllocation_proc. apply wp_bind, (wp_lister _ _ _ _ cloud_actions).
  intros [node|e|]; [|done..]. cbn [after_bind]. destruct (_ && _); [done|].
  destruct (negb _); [by apply release_each_safe|].
  apply wp_bind. eapply wp_mono; [|apply (patch_attempts_wp _ _ _ _ cloud_actions); by exists l].
  intros [[err|]|e|] own'; [|done..]. intros ->. cbn [after_bind].
  apply wp_bind, (wp_emit _ _ _ _ cloud_actions); [done|]. cbn [after_bind]. apply wp_bind.
  destruct (IsServerTimeout K err); [done|]. eapply wp_mono; [|by apply release_each_safe]. by intros [].
Qed.

Lemma cloud_AllocateOrOccupyCIDR_safe node : safe (cloud_AllocateOrOccupyCIDR_proc K T order (Some node)) [].
Proof using HF HC HT.
  unfold cloud_AllocateOrOccupyCIDR_proc. destruct (_ <? _)%nat; [apply occupyPodCIDRs_safe|].
  apply wp_bind. eapply wp_mono; [|apply defineNodeGlobalCIDRs_same]. intros [g|e|] own' ->; [|done..]. cbn [after_bind].
  apply wp_bind, wp_get. intros r _. cbn [after_bind]. apply wp_bind. eapply wp_mono; [|apply cloud_allocate_each_wp].
  intros [l|e|] own'; [|done..]. intros [-> Hl]. by apply cloud_update_safe.
Qed.

(** ** The system's invariant *)

Lemma cloud_reach_ok r0 sys :
  good r0 → rtc (csys_step K T order) (mkSystem [] r0 [] []) sys → ends_in (shared sys) →
  (∀ node, node ∈ strays sys → node ∈ S) →
  ∃ owns cms, sys_ok good ends_in marked_clean cloud_assigned_nets r0 sys owns cms.
Proof using HF HC HT.
  intros Hr Hrun Hend Hst.
  apply (sys_reach_ok good ends_in marked_clean cloud_assigned_nets r0
           (λ node, cloud_AllocateOrOccupyCIDR_proc K T order (Some node))
           (λ node, cloud_ReleaseCIDR_proc K order (Some node))
           cloud_AllocateOrOccupyCIDR_safe cloud_ReleaseCIDR_safe S cloud_stray_safe
           sets_grow (λ r r' H H', transitivity H H')
           (λ _, cloud_AllocateOrOccupyCIDR_grow K T order _) (λ _, cloud_ReleaseCIDR_grow K order _)
           (mkSystem [] r0 [] []) sys [] []); [|done..]. by apply sys_start_ok.
Qed.
End safety.
