(* ===== verification/CloudConcurrentTheorems.v ===== *)
(** * Concurrent workers of the cloud allocator never share a network

    The system of [CloudConcurrentSafety] from a freshly made allocator, and a
    concrete interleaving in which two workers discover the same network at once. *)

From S2P Require Import Prelude GoNet GoStrings NetIP CidrSet CidrSetGeometry CidrSetSpec Kube CidrAllocator.
From S2P Require Import TalosClient CloudAllocator CloudAllocatorSpec CloudAllocatorSafety CloudAllocatorRuns CloudAllocatorDemo.
From S2P Require Import CloudAllocatorTheorems Interleaving Ownership CloudConcurrent CloudConcurrentSafety.

Local Open Scope go_scope.

Lemma elem_of_omap_id {A} (l : list (option A)) x : Some x ∈ l → x ∈ omap id l.
Proof. intros H. apply list_elem_of_omap. by exists (Some x). Qed.

(** C16. Concurrent workers of the cloud allocator give no two nodes a common
    address: let any number of goroutines allocate for any nodes, discovering public
    networks and adding sets for them, and release any node objects, those that hold an
    assignment and others, with their atomic steps in any order, any order of map
    iteration and any answers of Talos, the informer cache and the API server.  In
    every state that can be reached the allocator is in order, and for the accepted
    assignments that are not being released: each network is marked and was not at the
    start, and two such assignments have no address in common, also when their
    networks come from different sets.  There are two exceptions: of the sets that were
    added one starts inside another; and networks that meet a network named by a stray
    release (of a node released a second time, or whose networks were assigned to
    others) may be unmarked, and then two nodes may hold the same one. *)
Theorem cloud_concurrent_never_share K T order r0 sys :
  CIDRLaws K → TalosLaws anywhere T → ca_ok anywhere r0 →
  rtc (csys_step K T order) (mkSystem [] r0 [] []) sys →
  sets_nested (shared sys) = true ∨
  ca_ok anywhere (shared sys) ∧
  ∀ j a, live sys !! j = Some a →
    ∃ l, a.2 = ipnetToStringList l ∧
      (∀ x, Some x ∈ l →
         disturbed K (strays sys) x ∨ granted anywhere (shared sys) x ∧ ¬ granted anywhere r0 x) ∧
      ∀ k b, live sys !! k = Some b → j ≠ k →
        ∃ l', b.2 = ipnetToStringList l' ∧
          ∀ x y, Some x ∈ l → Some y ∈ l' → clear_nets x y ∨ x = y ∧ disturbed K (strays sys) x.
Proof.
  intros HC HT Hr Hrun. destruct (sets_nested (shared sys)) eqn:Hnest; [by left|right].
  set (S := strays sys). set (rF := shared sys). pose proof (nested_or_apart rF Hnest) as HF.
  assert (ends_in rF (shared sys)) as Hend by (unfold ends_in; reflexivity).
  destruct (cloud_reach_ok rF HF K S HC T HT order r0 sys Hr Hrun Hend (λ _ H, H)) as (owns & cms & H).
  split; [apply (sys_good _ _ _ _ _ _ _ _ H)|]. intros j a Ha.
  destruct (Forall2_lookup_l _ _ _ _ _ (sys_live _ _ _ _ _ _ _ _ H) Ha) as (nets & Et & l & El & <- & Hb).
  exists l. split_and!; [done| |].
  - intros x Hx%elem_of_omap_id. destruct (decide (disturbed K S x)) as [|Hd]; [by left|right].
    assert (x ∈ concat owns ++ concat cms) as Hc.
    { apply elem_of_app. right. eapply elem_of_concat_lookup; [exact Et|]. by apply list_elem_of_filter. }
    split; [by apply (sys_marked _ _ _ _ _ _ _ _ H)|]. intros H0.
    by destruct (sys_first _ _ _ _ _ _ _ _ H x (conj H0 Hd)).
  - intros k b Hk Hjk.
    destruct (Forall2_lookup_l _ _ _ _ _ (sys_live _ _ _ _ _ _ _ _ H) Hk) as (nets' & Et' & l' & El' & <- & Hb').
    exists l'. split; [done|]. intros x y Hx%elem_of_omap_id Hy%elem_of_omap_id. rewrite Forall_forall in Hb, Hb'.
    destruct (decide (x = y)) as [<-|Hne]; [right|left; by apply (block_nets_clear rF HF); auto].
    split; [done|]. destruct (decide (disturbed K S x)) as [|Hd]; [done|]. exfalso.
    pose proof (sys_once _ _ _ _ _ _ _ _ H) as (_ & _ & Hnd)%NoDup_app.
    apply (NoDup_concat_lookup cms j k _ _ x Hnd Et Et' Hjk); by apply list_elem_of_filter.
Qed.

(** ** A concrete interleaving *)

(** Two workers serve nodes [a] and [b] in turns, one step each: both discover the
    network 2001:db8::/64 before either has added a set for it. *)
Definition cloud_start : system cloudAllocator :=
  mkSystem (map (λ n, cloud_AllocateOrOccupyCIDR_proc demoK segment_talos demo_order (Some n)) [node_a; node_b])
    demo_cloud [] [].
Definition cloud_turns : system cloudAllocator := foldl run_thread cloud_start (concat (replicate 14 [0; 1]%nat)).

Lemma cloud_turns_live : live cloud_turns =
  [("b", ["10.0.0.64/26"; "2001:db8:0:0:2::/80"]); ("a", ["10.0.0.0/26"; "2001:db8:0:0:1::/80"])].
Proof. vm_compute. reflexivity. Qed.

Lemma cloud_turns_reach : rtc (csys_step demoK segment_talos demo_order) (mkSystem [] demo_cloud [] []) cloud_turns.
Proof.
  eapply rtc_l; [apply (step_allocate _ _ _ node_a)|].
  eapply rtc_l; [apply (step_allocate _ _ _ node_b)|].
  exact (run_threads_reach _ _ _ cloud_start).
Qed.

Lemma cloud_concurrent_never_share_witness :
  ∃ l l', ["10.0.0.64/26"; "2001:db8:0:0:2::/80"] = ipnetToStringList l ∧
    ["10.0.0.0/26"; "2001:db8:0:0:1::/80"] = ipnetToStringList l' ∧
    ∀ x y, Some x ∈ l → Some y ∈ l' → clear_nets x y.
Proof.
  assert (sets_nested (shared cloud_turns) = false) as Hn by (vm_compute; reflexivity).
  assert (strays cloud_turns = []) as Hs by (vm_compute; reflexivity).
  destruct (cloud_concurrent_never_share demoK segment_talos demo_order demo_cloud cloud_turns
              (cloud_kube_cidrs _ _) segment_talos_any demo_cloud_any cloud_turns_reach) as [Hnest|[_ H]].
  { exfalso. rewrite Hn in Hnest. discriminate Hnest. }
  destruct (H 0%nat ("b", ["10.0.0.64/26"; "2001:db8:0:0:2::/80"])) as (l & E & _ & H').
  - rewrite cloud_turns_live. reflexivity.
  - destruct (H' 1%nat ("a", ["10.0.0.0/26"; "2001:db8:0:0:1::/80"])) as (l' & E' & H'').
    + rewrite cloud_turns_live. reflexivity.
    + discriminate.
    + exists l, l'. split; [exact E|]. split; [exact E'|]. intros x y Hx Hy.
      destruct (H'' x y Hx Hy) as [Hc|[_ Hd]]; [exact Hc|]. rewrite Hs in Hd. exfalso. inversion Hd.
Defined.
