(* ===== verification/IpamController.v ===== *)
(** * The node IPAM controller

    [cmd/talos-cloud-controller-manager/nodeipamcontroller.go] reads the flags and
    the configuration of Talos, [pkg/nodeipam/node_ipam_controller.go] checks them
    and makes the allocator, which [pkg/nodeipam/ipam/cidr_allocator.go] chooses by
    type.  The shared configuration of the controller manager, which the start
    function changes, is the state.  Log lines are left out. *)

From S2P Require Import Prelude GoNet GoStrings NetIP CidrSet Kube CidrAllocator RangeAllocator TalosClient CloudAllocator.
From Stdlib Require Import Ascii.

Local Open Scope go_scope.

(** ** Data *)

(** [pkg/nodeipam/config]; the mask sizes are [int32] flags. *)
Record NodeIPAMControllerConfiguration := mkIPAMConfig {
  cfg_ServiceCIDR : string;
  cfg_SecondaryServiceCIDR : string;
  NodeCIDRMaskSize : Z;
  NodeCIDRMaskSizeIPv4 : Z;
  NodeCIDRMaskSizeIPv6 : Z }.

(** What the controllers share of the controller manager's configuration. *)
Record KubeCloudShared := mkShared {
  AllocateNodeCIDRs : bool;
  ClusterCIDR : string;
  CIDRAllocatorType : string }.

(** [k8s.ControllerManagerConfigSpec], as Talos reports it. *)
Record ControllerManagerConfigSpec := mkControllerManagerConfig {
  spec_PodCIDRs : list string;
  spec_ServiceCIDRs : list string }.

(** What the controller gets from outside: the cluster, Talos, the order of map
    iteration, the address predicates of [k8s.io/utils/net], the answers to the
    two calls for the controller manager's configuration, and the answers to the
    polls for the node list. *)
Record Env := mkEnv {
  env_kube : Kube;
  env_talos : Talos;
  env_order : nat → list Prefix → list Prefix;
  IsIPv6CIDR : IPNet → bool;
  IsDualStackCIDRs : list IPNet → bool;
  cosi_for_pods : error + ControllerManagerConfigSpec;
  cosi_for_services : error + ControllerManagerConfigSpec;
  env_polls : list (error + list Node) }.

(** ** Options *)

(** [Validate] and [ApplyTo]; a nil pointer is [None]. *)
Definition Validate (o : option NodeIPAMControllerConfiguration) : list error :=
  match o with
  | None => []
  | Some o =>
      let serviceCIDRList := Split (cfg_ServiceCIDR o) ","%char in
      if (2 <? length serviceCIDRList)%nat
      then [ErrNew "--service-cluster-ip-range can not contain more than two entries"]
      else []
  end.

Definition ApplyTo (o : option NodeIPAMControllerConfiguration) (cfg : NodeIPAMControllerConfiguration)
    : NodeIPAMControllerConfiguration :=
  match o with
  | None => cfg
  | Some o =>
      let serviceCIDRList := Split (cfg_ServiceCIDR o) ","%char in
      mkIPAMConfig (default (cfg_ServiceCIDR cfg) (serviceCIDRList !! 0%nat))
                   (default (cfg_SecondaryServiceCIDR cfg) (serviceCIDRList !! 1%nat))
                   (NodeCIDRMaskSize o) (NodeCIDRMaskSizeIPv4 o) (NodeCIDRMaskSizeIPv6 o)
  end.

(** ** Mask sizes *)

Definition defaultNodeMaskCIDRIPv4 : Z := 24.
Definition defaultNodeMaskCIDRIPv6 : Z := 80.

Definition ErrMaskDualStack : error :=
  ErrNew "usage of --node-cidr-mask-size is not allowed with dual-stack clusters".
Definition ErrMaskBoth : error :=
  ErrNew "usage of --node-cidr-mask-size-ipv4 and --node-cidr-mask-size-ipv6 is not allowed if --node-cidr-mask-size is set. For dual-stack clusters please unset it and use IPFamily specific flags".
Definition ErrMaskIPv4 : error :=
  ErrNew "usage of --node-cidr-mask-size-ipv4 is not allowed for a single-stack IPv6 cluster".
Definition ErrMaskIPv6 : error :=
  ErrNew "usage of --node-cidr-mask-size-ipv6 is not allowed for a single-stack IPv4 cluster".

Section start.
Context (E : Env).

Definition sortedSizes (clusterCIDRs : list IPNet) (maskSizeIPv4 maskSizeIPv6 : Z) : list Z :=
  map (λ clusterCIDR, if IsIPv6CIDR E clusterCIDR then maskSizeIPv6 else maskSizeIPv4) clusterCIDRs.

Definition setNodeCIDRMaskSizes (cfg : NodeIPAMControllerConfiguration) (clusterCIDRs : list IPNet)
    : outcome (list Z) :=
  if (1 <? length clusterCIDRs)%nat then
    if negb (NodeCIDRMaskSize cfg =? 0) then Err ErrMaskDualStack
    else
      let ipv4Mask := if negb (NodeCIDRMaskSizeIPv4 cfg =? 0) then NodeCIDRMaskSizeIPv4 cfg
                      else defaultNodeMaskCIDRIPv4 in
      let ipv6Mask := if negb (NodeCIDRMaskSizeIPv6 cfg =? 0) then NodeCIDRMaskSizeIPv6 cfg
                      else defaultNodeMaskCIDRIPv6 in
      Ok (sortedSizes clusterCIDRs ipv4Mask ipv6Mask)
  else
    let maskConfigured := negb (NodeCIDRMaskSize cfg =? 0) in
    let maskV4Configured := negb (NodeCIDRMaskSizeIPv4 cfg =? 0) in
    let maskV6Configured := negb (NodeCIDRMaskSizeIPv6 cfg =? 0) in
    match clusterCIDRs with
    | [] => Panic (* clusterCIDRs[0] *)
    | first :: _ =>
        let isSingleStackIPv6 := IsIPv6CIDR E first in
        if maskConfigured then
          if maskV4Configured || maskV6Configured then Err ErrMaskBoth
          else let mask := NodeCIDRMaskSize cfg in Ok (sortedSizes clusterCIDRs mask mask)
        else
          let? ipv4Mask :=
            (if maskV4Configured then
               if isSingleStackIPv6 then Err ErrMaskIPv4 else Ok (NodeCIDRMaskSizeIPv4 cfg)
             else Ok defaultNodeMaskCIDRIPv4) in
          let? ipv6Mask :=
            (if maskV6Configured then
               if negb isSingleStackIPv6 then Err ErrMaskIPv6 else Ok (NodeCIDRMaskSizeIPv6 cfg)
             else Ok defaultNodeMaskCIDRIPv6) in
          Ok (sortedSizes clusterCIDRs ipv4Mask ipv6Mask)
    end.

Definition processCIDRs (cidrsList : string) : error + list IPNet * bool :=
  let cidrsSplit := Split (TrimSpace cidrsList) ","%char in
  match ParseCIDRs (env_kube E) cidrsSplit with
  | inl err => inl err
  | inr cidrs => inr (cidrs, IsDualStackCIDRs E cidrs)
  end.

(** ** Making the allocator *)

(** An allocator of one of the two types. *)
Inductive allocator :=
  | ARange (r : rangeAllocator)
  | ACloud (r : cloudAllocator).

(** [ipam.New] *)
Definition New (K : Kube) (allocatorType : string) (allocatorParams : CIDRAllocatorParams) : outcome allocator :=
  let? nodeList := listNodes (env_polls E) in
  if bool_decide (allocatorType = RangeAllocatorType) then
    let? r := NewCIDRRangeAllocator K allocatorParams (Some nodeList) in Ok (ARange r)
  else if bool_decide (allocatorType = CloudAllocatorType) then
    let? r := NewCIDRCloudAllocator K (env_talos E) (env_order E) allocatorParams (Some nodeList) in Ok (ACloud r)
  else Err (ErrNew ("invalid CIDR allocator type: " +:+ allocatorType)).

Record Controller := mkController {
  ctl_allocatorType : string;
  ctl_clusterCIDRs : list IPNet;
  ctl_serviceCIDRs : list IPNet;
  cidrAllocator : allocator }.

Definition ErrNilClient : error := ErrNew "kubeClient is nil when starting Controller".
Definition ErrNoClusterRange : error :=
  ErrNew "Controller: Must specify --cluster-cidr if --allocate-node-cidrs is set".
Definition ErrMaskSize : error :=
  ErrNew "Controller: Invalid --cluster-cidr, mask size of cluster CIDR must be less than or equal to --node-cidr-mask-size configured for CIDR family".

(** The loop over the cluster CIDRs of [NewNodeIpamController]. *)
Fixpoint check_mask_sizes (clusterCIDRs : list IPNet) (nodeCIDRMaskSizes : list Z) : outcome unit :=
  match clusterCIDRs with
  | [] => Ok tt
  | cidr :: clusterCIDRs' =>
      match nodeCIDRMaskSizes with
      | [] => Panic
      | size :: nodeCIDRMaskSizes' =>
          if size <? (Mask_Size (mask_of cidr)).1 then Err ErrMaskSize
          else check_mask_sizes clusterCIDRs' nodeCIDRMaskSizes'
      end
  end.

Definition NewNodeIpamController (kubeClient : option Kube) (clusterCIDRs serviceCIDRs : list IPNet)
    (nodeCIDRMaskSizes : list Z) (allocatorType : string) : outcome Controller :=
  match kubeClient with
  | None => Err ErrNilClient
  | Some K =>
      let? _ :=
        (if negb (bool_decide (allocatorType = CloudAllocatorType)) then
           if (length clusterCIDRs =? 0)%nat then Err ErrNoClusterRange
           else check_mask_sizes clusterCIDRs nodeCIDRMaskSizes
         else Ok tt) in
      let? secondaryServiceCIDR :=
        (if (1 <? length clusterCIDRs)%nat then
           match serviceCIDRs !! 1%nat with Some c => Ok (Some c) | None => Panic end
         else Ok None) in
      match serviceCIDRs !! 0%nat with
      | None => Panic
      | Some serviceCIDR =>
          let? a := New K allocatorType
                      (mkParams clusterCIDRs (Some serviceCIDR) secondaryServiceCIDR nodeCIDRMaskSizes) in
          Ok (mkController allocatorType clusterCIDRs serviceCIDRs a)
      end
  end.

(** ** Start *)

(** [GetPodCIDRs] and [GetServiceCIDRs] of the Talos client. *)
Definition GetPodCIDRs : error + list string :=
  match cosi_for_pods E with inl err => inl err | inr res => inr (spec_PodCIDRs res) end.
Definition GetServiceCIDRs : error + list string :=
  match cosi_for_services E with inl err => inl err | inr res => inr (spec_ServiceCIDRs res) end.

(** The result [(nil, started, err)], and the controller that was set running. *)
Record start_result := mkResult {
  st_started : bool;
  st_err : option error;
  st_running : option Controller }.

Definition refuse (err : error) : GoM KubeCloudShared start_result := gret (mkResult false (Some err) None).

Definition set_ClusterCIDR (s : string) (ccm : KubeCloudShared) : KubeCloudShared :=
  mkShared (AllocateNodeCIDRs ccm) s (CIDRAllocatorType ccm).

(** From the service CIDRs on: [clusterCIDRs] are the checked cluster CIDRs. *)
Definition start_with_clusters (nodeIPAMConfig : NodeIPAMControllerConfiguration) (clusterCIDRs : list IPNet)
    : GoM KubeCloudShared start_result :=
  match GetServiceCIDRs with
  | inl err => refuse err
  | inr svcCIDRs =>
      match ParseCIDRs (env_kube E) svcCIDRs with
      | inl err => refuse err
      | inr serviceCIDRs =>
          match svcCIDRs with
          | [] => gpanic (* svcCIDRs[0] *)
          | primary :: rest =>
              let nodeIPAMConfig :=
                mkIPAMConfig primary (default (cfg_SecondaryServiceCIDR nodeIPAMConfig) (rest !! 0%nat))
                  (NodeCIDRMaskSize nodeIPAMConfig) (NodeCIDRMaskSizeIPv4 nodeIPAMConfig)
                  (NodeCIDRMaskSizeIPv6 nodeIPAMConfig) in
              match setNodeCIDRMaskSizes nodeIPAMConfig clusterCIDRs with
              | Panic => gpanic
              | Err err => refuse err
              | Ok nodeCIDRMaskSizes =>
                  ccm <- gget ;;
                  match NewNodeIpamController (Some (env_kube E)) clusterCIDRs serviceCIDRs nodeCIDRMaskSizes
                          (CIDRAllocatorType ccm) with
                  | Panic => gpanic
                  | Err err => gret (mkResult true (Some err) None)
                  | Ok c => gret (mkResult true None (Some c))
                  end
              end
          end
      end
  end.

(** The cluster CIDRs of the flag or, when it is empty, of Talos. *)
Definition default_ClusterCIDR : GoM KubeCloudShared (option error) :=
  ccm <- gget ;;
  if bool_decide (ClusterCIDR ccm = "") then
    match GetPodCIDRs with
    | inl err => gret (Some err)
    | inr clusterCIDRs => gmodify (set_ClusterCIDR (join clusterCIDRs ","%char)) ;;; gret None
    end
  else gret None.

Definition startNodeIpamController (nodeIPAMConfig : NodeIPAMControllerConfiguration)
    : GoM KubeCloudShared start_result :=
  ccm <- gget ;;
  if negb (AllocateNodeCIDRs ccm) then gret (mkResult false None None)
  else
    match talos_New (env_talos E) [] with
    | Some err => refuse err
    | None =>
        err <- default_ClusterCIDR ;;
        match err with
        | Some err => refuse err
        | None =>
            ccm <- gget ;;
            match processCIDRs (ClusterCIDR ccm) with
            | inl err => refuse err
            | inr (clusterCIDRs, dualStack) =>
                if (1 <? length clusterCIDRs)%nat && negb dualStack then
                  refuse (ErrNew ("len of ClusterCIDRs==" +:+ Uitoa (Z.of_nat (length clusterCIDRs)) +:+
                            " and they are not configured as dual stack (at least one from each IPFamily"))
                else if (2 <? length clusterCIDRs)%nat then
                  refuse (ErrNew ("len of clusters is:" +:+ Uitoa (Z.of_nat (length clusterCIDRs)) +:+
                            " > more than max allowed of 2"))
                else start_with_clusters nodeIPAMConfig clusterCIDRs
            end
        end
    end.

(** [startNodeIpamControllerWrapper]: [None] when the process exits with
    [klog.Fatal], otherwise the function to start with and the configuration. *)
Definition startNodeIpamControllerWrapper (o : option NodeIPAMControllerConfiguration)
    (cfg : NodeIPAMControllerConfiguration) : option (GoM KubeCloudShared start_result) :=
  match Validate o with
  | _ :: _ => None
  | [] => Some (startNodeIpamController (ApplyTo o cfg))
  end.
End start.
