(* ===== verification/IpamTheorems.v ===== *)
(** * Theorems about the node IPAM controller

    What the flags and the configuration of Talos become: the mask sizes, the
    choice of the allocator, and that a controller that starts runs an allocator
    whose state is in order. *)

From S2P Require Import Prelude GoNet GoStrings NetIP NetIPRoundTrip CidrSet CidrSetGeometry CidrSetSpec CidrPool.
From S2P Require Import Kube CidrAllocator AllocatorParams RangeAllocator RangeAllocatorSpec RangeAllocatorInit.
From S2P Require Import TalosClient CloudAllocator CloudAllocatorSpec CloudAllocatorSafety CloudAllocatorRuns.
From S2P Require Import CloudAllocatorInit CloudAllocatorDemo IpamController.
From Stdlib Require Import Ascii.

Local Open Scope go_scope.

(** ** Networks and mask sizes *)

(** A network by family, address and mask. *)
Definition net_of (n : family * Z * Z) : IPNet := let '(f, a, m) := n in mk_net f a m.
Definition canonical (n : family * Z * Z) : Prop := let '(f, a, m) := n in canon f a m.
Definition fam_of (n : family * Z * Z) : family := n.1.1.

(** Documented behaviour of [k8s.io/utils/net]: the family of a network, and that a
    dual-stack list has a network of each family. *)
Record NetLaws (E : Env) : Prop := {
  ipv6_cidr : ∀ n, canonical n → IsIPv6CIDR E (net_of n) = match fam_of n with V4 => false | V6 => true end;
  dual_stack : ∀ l, Forall canonical l → IsDualStackCIDRs E (map net_of l) = true →
    V4 ∈ map fam_of l ∧ V6 ∈ map fam_of l }.

(** The size of node networks of family [f] that the flags ask for. *)
Definition mask_for (cfg : NodeIPAMControllerConfiguration) (dual : bool) (f : family) : Z :=
  let own := match f with V4 => NodeCIDRMaskSizeIPv4 cfg | V6 => NodeCIDRMaskSizeIPv6 cfg end in
  let std := match f with V4 => defaultNodeMaskCIDRIPv4 | V6 => defaultNodeMaskCIDRIPv6 end in
  if negb dual && negb (NodeCIDRMaskSize cfg =? 0) then NodeCIDRMaskSize cfg
  else if own =? 0 then std else own.

(** The flags contradict each other or the families of the cluster ranges. *)
Definition flags_conflict (cfg : NodeIPAMControllerConfiguration) (fs : list family) : Prop :=
  match fs with
  | [f] => (NodeCIDRMaskSize cfg ≠ 0 ∧ (NodeCIDRMaskSizeIPv4 cfg ≠ 0 ∨ NodeCIDRMaskSizeIPv6 cfg ≠ 0)) ∨
           (NodeCIDRMaskSizeIPv4 cfg ≠ 0 ∧ f = V6) ∨ (NodeCIDRMaskSizeIPv6 cfg ≠ 0 ∧ f = V4)
  | _ => NodeCIDRMaskSize cfg ≠ 0
  end.

Section masks.
Context (E : Env) (HN : NetLaws E).

Lemma sortedSizes_families l m4 m6 :
  Forall canonical l →
  sortedSizes E (map net_of l) m4 m6 = map (λ n, match fam_of n with V4 => m4 | V6 => m6 end) l.
Proof.
  intros Hl. unfold sortedSizes. rewrite map_map. induction Hl as [|n l Hn _ IH]; cbn; [done|]. rewrite IH. f_equal.
  rewrite (ipv6_cidr _ HN n Hn). by destruct (fam_of n).
Qed.

Lemma mask_sizes cfg l :
  Forall canonical l → l ≠ [] →
  match setNodeCIDRMaskSizes E cfg (map net_of l) with
  | Panic => False
  | Err _ => flags_conflict cfg (map fam_of l)
  | Ok sizes => ¬ flags_conflict cfg (map fam_of l) ∧
      sizes = map (λ n, mask_for cfg (1 <? length l)%nat (fam_of n)) l
  end.
Proof.
  intros Hl Hne. unfold setNodeCIDRMaskSizes. rewrite length_map.
  destruct l as [|n [|n' l]]; [done| |]; cbn [length Nat.ltb Nat.leb map].
  - inversion_clear Hl as [|? ? Hn _]. unfold sortedSizes. cbn [map]. rewrite (ipv6_cidr _ HN n Hn).
    unfold flags_conflict, mask_for. destruct (fam_of n);
      destruct (Z.eqb_spec (NodeCIDRMaskSize cfg) 0), (Z.eqb_spec (NodeCIDRMaskSizeIPv4 cfg) 0),
        (Z.eqb_spec (NodeCIDRMaskSizeIPv6 cfg) 0); cbn; intuition congruence.
  - change (net_of n :: net_of n' :: map net_of l) with (map net_of (n :: n' :: l)).
    rewrite sortedSizes_families by done.
    destruct (Z.eqb_spec (NodeCIDRMaskSize cfg) 0) as [E0|E0]; cbn [negb]; [|exact E0].
    split; [by intros H|].
    transitivity (map (λ n, mask_for cfg true (fam_of n)) (n :: n' :: l)); [|done]. apply map_ext. intros a. unfold mask_for. cbn [negb andb].
    by destruct (fam_of a), (NodeCIDRMaskSizeIPv4 cfg =? 0), (NodeCIDRMaskSizeIPv6 cfg =? 0).
Qed.
End masks.

(** ** Making the allocator *)

(** The layout the flags give a network. *)
Definition with_mask (cfg : NodeIPAMControllerConfiguration) (dual : bool) (n : family * Z * Z) : layout :=
  let '(f, a, m) := n in mkLayout f a m (mask_for cfg dual f).

Lemma with_mask_cluster cfg dual l : map l_cluster (map (with_mask cfg dual) l) = map net_of l.
Proof. rewrite map_map. apply map_ext. by intros [[f a] m]. Qed.
Lemma with_mask_nmask cfg dual l :
  map l_nmask (map (with_mask cfg dual) l) = map (λ n, mask_for cfg dual (fam_of n)) l.
Proof. rewrite map_map. apply map_ext. by intros [[f a] m]. Qed.
Lemma with_mask_fam cfg dual l : map l_fam (map (with_mask cfg dual) l) = map fam_of l.
Proof. rewrite map_map. apply map_ext. by intros [[f a] m]. Qed.

(** What [NewNodeIpamController] checks of the mask sizes. *)
Lemma check_mask_sizes_spec Ls :
  Forall (λ L, canon (l_fam L) (l_base L) (l_cmask L)) Ls →
  match check_mask_sizes (map l_cluster Ls) (map l_nmask Ls) with
  | Panic => False
  | Err _ => True
  | Ok _ => Forall (λ L, l_cmask L ≤ l_nmask L) Ls
  end.
Proof.
  induction 1 as [|L Ls Hc _ IH]; cbn [map check_mask_sizes]; [constructor|].
  unfold l_cluster at 1. rewrite (Mask_Size_canon _ _ _ Hc). cbn [fst].
  destruct (Z.ltb_spec (l_nmask L) (l_cmask L)); [done|].
  destruct (check_mask_sizes _ _); [|done..]. by constructor.
Qed.

Definition canonical_net (n : IPNet) : Prop := ∃ f b m, n = mk_net f b m ∧ canon f b m.

Lemma make_sets_fits Ls :
  Forall layout_fits Ls →
  Forall layout_ok Ls ∨ make_sets (map l_cluster Ls) (map l_nmask Ls) = Err ErrCIDRSetSubNetTooBig.
Proof.
  induction 1 as [|L Ls HL _ IH]; cbn [map make_sets]; [by left|].
  destruct (layout_fits_cases L HL) as [Hok| -> ]; [|by right].
  destruct IH as [IH|IH]; [left; by constructor|]. right.
  destruct (layout_set L Hok) as (s & -> & _). cbn [obind]. by rewrite IH.
Qed.

Lemma make_set_map_fits Ls m :
  Forall layout_fits Ls →
  Forall layout_ok Ls ∨ make_set_map (map l_cluster Ls) (map l_nmask Ls) m = Err ErrCIDRSetSubNetTooBig.
Proof.
  intros Hfit. revert m. induction Hfit as [|L Ls HL _ IH]; intros m; cbn [map make_set_map]; [by left|].
  destruct (layout_fits_cases L HL) as [Hok| -> ]; [|by right].
  destruct (layout_set L Hok) as (s & -> & _). cbn [obind]. rewrite (MustParsePrefix_cluster L Hok). cbn [obind].
  destruct (IH (<[l_key L:=s]> m)) as [IH'|IH']; [left; by constructor|by right].
Qed.

Section construction.
Context (K : Kube) (HK : KubeLaws K) (Ls : list layout) (Hfit : Forall layout_fits Ls).
Context (svc sec : option IPNet) (Hsvc : ∀ n, svc = Some n ∨ sec = Some n → canonical_net n).
Notation params := (mkParams (map l_cluster Ls) svc sec (map l_nmask Ls)).

Lemma fitting_params : Forall layout_ok Ls → params_ok Ls params.
Proof. intros Hok. by split. Qed.

Lemma range_constructed nodes :
  match NewCIDRRangeAllocator K params nodes with
  | Panic => False
  | Err _ => True
  | Ok r => Forall layout_ok Ls ∧ ra_ok (places_of Ls) r
  end.
Proof.
  destruct (make_sets_fits Ls Hfit) as [Hok|Ebig].
  2:{ unfold NewCIDRRangeAllocator. cbn [ClusterCIDRs NodeCIDRMaskSizes]. by rewrite Ebig. }
  destruct (new_range_allocator K Ls params nodes HK (fitting_params Hok))
    as (sets & r1 & r2 & _ & _ & _ & _ & Hr2 & _ & _ & ->).
  assert (gok (ra_ok (places_of Ls)) match nodes with None => gret tt | Some items => occupy_nodes K items end) as Hg.
  { destruct nodes; [by apply occupy_nodes_ok|apply gok_ret]. }
  destruct (Hg r2 Hr2) as [Hnp Hr3].
  destruct (match nodes with None => gret tt | Some items => occupy_nodes K items end r2) as [[[]|e|] r3]; done.
Qed.

Section cloud.
Context (HC : CIDRLaws K) (T : Talos) (HT : TalosLaws anywhere T).
Context (order : nat → list Prefix → list Prefix) (Ho : order_ok order).
Context (Hnd : NoDup (map l_key Ls)).

Lemma cloud_constructed nodes :
  match NewCIDRCloudAllocator K T order params nodes with
  | Panic => False
  | Err _ => True
  | Ok r => Forall layout_ok Ls ∧ ca_ok anywhere r ∧ ca_clusterCIDRs r = map l_cluster Ls
  end.
Proof.
  destruct (make_set_map_fits Ls ∅ Hfit) as [Hok|Ebig].
  2:{ unfold NewCIDRCloudAllocator. cbn [ClusterCIDRs NodeCIDRMaskSizes]. by rewrite Ebig. }
  destruct (new_cloud_allocator K T anywhere order Ho Ls params nodes (fitting_params Hok) Hnd (λ _ _, I))
    as (r0 & r1 & r2 & Hr0 & Hcl & _ & _ & Hr1 & G1 & _ & Hr2 & G2 & ->).
  destruct (cloud_occupy_nodes_ok K HC T anywhere HT order Ho (default [] nodes) r2 Hr2) as [Hnp Hr3].
  pose proof (cloud_occupy_nodes_grows K T anywhere HT order (default [] nodes) r2) as G3.
  destruct (cloud_occupy_nodes K T order (default [] nodes) r2) as [[[]|e|] r3]; [|done..].
  split; [done|]. split; [done|].
  destruct (proj1 G1 Hr0) as (_ & C1 & _), (proj1 G2 Hr1) as (_ & C2 & _), (proj1 G3 Hr2) as (_ & C3 & _).
  cbn [snd] in C3. rewrite C3, C2, C1. exact Hcl.
Qed.
End cloud.
End construction.

(** ** A controller that starts *)

(** The cluster ranges as the flag or Talos names them. *)
Definition effective_ClusterCIDR (E : Env) (ccm : KubeCloudShared) : string :=
  if bool_decide (ClusterCIDR ccm = "")
  then match GetPodCIDRs E with inr l => join l ","%char | inl _ => "" end
  else ClusterCIDR ccm.

(** What is assumed of the surroundings: the libraries behave as documented, and the
    parser delivers the networks of addresses (no IPv4 addresses mapped into IPv6). *)
Record setting (E : Env) (ccm : KubeCloudShared) : Prop := {
  se_kube : KubeLaws (env_kube E);
  se_cidrs : CIDRLaws (env_kube E);
  se_talos : TalosLaws anywhere (env_talos E);
  se_order : order_ok (env_order E);
  se_net : NetLaws E;
  se_ranges : ∀ cidrs dual, processCIDRs E (effective_ClusterCIDR E ccm) = inr (cidrs, dual) →
    ∃ l, cidrs = map net_of l ∧ Forall canonical l;
  se_services : ∀ svc nets, GetServiceCIDRs E = inr svc → ParseCIDRs (env_kube E) svc = inr nets →
    Forall canonical_net nets }.

(** The allocator is of the type asked for. *)
Definition of_type (ty : string) (a : allocator) : Prop :=
  match a with ARange _ => ty = RangeAllocatorType | ACloud _ => ty = CloudAllocatorType end.

(** It is in order on the layouts [Ls]. *)
Definition allocator_ok (Ls : list layout) (a : allocator) : Prop :=
  match a with
  | ARange r => ra_ok (places_of Ls) r
  | ACloud r => ca_ok anywhere r ∧ ca_clusterCIDRs r = map l_cluster Ls
  end.

Lemma NoDup_l_key Ls : NoDup (map l_fam Ls) → NoDup (map l_key Ls).
Proof.
  intros H. apply (NoDup_fmap_1 (λ p, match Prefix_Addr p with Addr4 _ => V4 | _ => V6 end)).
  rewrite <-list_fmap_compose. erewrite list_fmap_ext; [exact H|]. intros i L _. by destruct L as [[] ? ? ?].
Qed.

Section made.
Context (E : Env) (cfg : NodeIPAMControllerConfiguration) (ccm : KubeCloudShared).
Context (HS : setting E ccm).
Context (l : list (family * Z * Z)).
Notation ty := (CIDRAllocatorType ccm).
Notation dual := (1 <? length l)%nat.
Notation Ls := (map (with_mask cfg dual) l).
Context (Hl : Forall canonical l) (Hnd : NoDup (map fam_of l)).

Lemma allocator_made svc sec :
  (∀ n, svc = Some n ∨ sec = Some n → canonical_net n) →
  match New E (env_kube E) ty (mkParams (map l_cluster Ls) svc sec (map l_nmask Ls)) with
  | Panic => ¬ Forall layout_fits Ls
  | Err _ => True
  | Ok a => of_type ty a ∧ (Forall layout_fits Ls → Forall layout_ok Ls ∧ allocator_ok Ls a)
  end.
Proof using HS Hnd.
  intros Hsvc. unfold New. destruct HS as [HK HC HT Ho _ _ _].
  assert (∃ o, listNodes (env_polls E) = o ∧ o ≠ Panic) as (o & -> & Hnp).
  { eexists. split; [done|]. by induction (env_polls E) as [|[e|ns] ps IH]. }
  destruct o as [nodes|e|]; cbn [obind]; [|done..].
  case_bool_decide as Hr.
  { pose proof (λ Hf, range_constructed (env_kube E) HK Ls Hf svc sec Hsvc (Some nodes)) as H.
    destruct (NewCIDRRangeAllocator _ _ _); cbn [obind]; [|done|exact H]. split; [done|]. intros Hf. by apply H. }
  case_bool_decide as Hc; [|done].
  assert (NoDup (map l_key Ls)) as Hk by (apply NoDup_l_key; by rewrite with_mask_fam).
  pose proof (λ Hf, cloud_constructed (env_kube E) Ls Hf svc sec Hsvc HC (env_talos E) HT (env_order E) Ho Hk (Some nodes)) as H.
  destruct (NewCIDRCloudAllocator _ _ _ _ _); cbn [obind]; [|done|exact H]. split; [done|]. intros Hf. by apply H.
Qed.

Lemma masks_checked :
  match (if negb (bool_decide (ty = CloudAllocatorType)) then
           if (length (map net_of l) =? 0)%nat then Err ErrNoClusterRange
           else check_mask_sizes (map net_of l) (map l_nmask Ls)
         else Ok tt) with
  | Panic => False
  | Err _ => True
  | Ok _ => ty ≠ CloudAllocatorType → Forall (λ L, l_cmask L ≤ l_nmask L) Ls
  end.
Proof using Hl.
  case_bool_decide as Hc; cbn [negb]; [done|].
  destruct (length (map net_of l) =? 0)%nat; [done|]. rewrite <-(with_mask_cluster cfg dual l).
  assert (Forall (λ L, canon (l_fam L) (l_base L) (l_cmask L)) Ls) as Hcan.
  { rewrite Forall_fmap. apply (Forall_impl _ _ _ Hl). by intros [[f a] m]. }
  pose proof (check_mask_sizes_spec Ls Hcan) as H. destruct (check_mask_sizes _ _); [by intros _|done..].
Qed.

Lemma controller_made services :
  Forall canonical_net services →
  match NewNodeIpamController E (Some (env_kube E)) (map net_of l) services (map l_nmask Ls) ty with
  | Panic => services = [] ∨ length l ≠ 1%nat ∧ length services = 1%nat ∨ ¬ Forall layout_fits Ls
  | Err _ => True
  | Ok c => ctl_clusterCIDRs c = map net_of l ∧ ctl_serviceCIDRs c = services ∧ of_type ty (cidrAllocator c) ∧
      (ty ≠ CloudAllocatorType → Forall (λ L, l_cmask L ≤ l_nmask L) Ls) ∧
      (Forall layout_fits Ls → Forall layout_ok Ls ∧ allocator_ok Ls (cidrAllocator c))
  end.
Proof using HS Hl Hnd.
  intros Hsvc. unfold NewNodeIpamController. pose proof masks_checked as Hm.
  destruct (if negb _ then _ else _) as [[]|e|]; cbn [obind]; [|done..]. rewrite length_map.
  destruct services as [|svc services]; [by destruct (1 <? length l)%nat; left|].
  assert (∃ o, (if dual then match (svc :: services) !! 1%nat with Some c => Ok (Some c) | None => Panic end else Ok None) = o ∧
    match o with Panic => (1 < length l)%nat ∧ services = []
               | Ok sec => ∀ n, sec = Some n → canonical_net n | Err _ => False end) as (o & Eo & Ho).
  { eexists. split; [done|]. destruct (Nat.ltb_spec 1 (length l)); [|done].
    destruct services as [|sec services]; [done|]. cbn. intros n [= <-]. by apply Forall_cons in Hsvc as [_ [? _]%Forall_cons]. }
  rewrite Eo. change ((svc :: services) !! 0%nat) with (Some svc). clear Eo.
  destruct o as [sec| |]; cbn [obind]; [|done|destruct Ho as [? ->]; right; left; cbn; split; [lia|done]].
  pose proof (allocator_made (Some svc) sec) as Ha. rewrite with_mask_cluster in Ha.
  ospecialize (Ha _). { apply Forall_cons in Hsvc as [? _]. intros n [[= <-]|Hn]; auto. }
  destruct (New _ _ _ _); cbn [obind]; [|done|by right; right]. by destruct Ha.
Qed.
End made.

Lemma two_families l :
  V4 ∈ map fam_of l → V6 ∈ map fam_of l → (length l ≤ 2)%nat → NoDup (map fam_of l).
Proof.
  destruct l as [|n [|n' [|]]]; cbn [map length]; intros H4 H6 Hlen; [constructor|apply NoDup_singleton| |lia].
  apply NoDup_cons. split; [|apply NoDup_singleton]. rewrite list_elem_of_singleton. intros E.
  rewrite E, !elem_of_cons, elem_of_nil in *. naive_solver congruence.
Qed.

(** The configuration after the default for the cluster ranges is filled in. *)
Lemma default_ClusterCIDR_spec E ccm :
  ∃ o ccm', default_ClusterCIDR E ccm = (Ok o, ccm') ∧
    AllocateNodeCIDRs ccm' = AllocateNodeCIDRs ccm ∧ CIDRAllocatorType ccm' = CIDRAllocatorType ccm ∧
    (o = None → ClusterCIDR ccm' = effective_ClusterCIDR E ccm).
Proof.
  unfold default_ClusterCIDR, effective_ClusterCIDR, gbind. cbn [gget].
  destruct (bool_decide (ClusterCIDR ccm = "")) eqn:Eb; [|by eexists _, _].
  destruct (GetPodCIDRs E) as [e|l]; by eexists _, _.
Qed.

(** What a running controller has: the cluster ranges [Ls], at most two and of
    different families, with the mask sizes of the flags; an allocator of the type asked
    for; for the range allocator node networks no larger than the cluster range.  When
    the sizes also fit the addresses, the allocator is in order. *)
Definition runs_on (cfg : NodeIPAMControllerConfiguration) (ty : string) (c : Controller) (Ls : list layout) : Prop :=
  ctl_clusterCIDRs c = map l_cluster Ls ∧ (length Ls ≤ 2)%nat ∧ NoDup (map l_fam Ls) ∧
  (∀ L, L ∈ Ls → l_nmask L = mask_for cfg (1 <? length Ls)%nat (l_fam L)) ∧
  of_type ty (cidrAllocator c) ∧
  (ty ≠ CloudAllocatorType → Forall (λ L, l_cmask L ≤ l_nmask L) Ls) ∧
  (Forall layout_fits Ls → Forall layout_ok Ls ∧ allocator_ok Ls (cidrAllocator c)).

(** Mask sizes that do not fit the cluster ranges [l]. *)
Definition misfit (cfg : NodeIPAMControllerConfiguration) (l : list (family * Z * Z)) : Prop :=
  ¬ Forall layout_fits (map (with_mask cfg (1 <? length l)%nat) l).

Lemma started_with_clusters E cfg ccm ccm' l :
  setting E ccm → CIDRAllocatorType ccm' = CIDRAllocatorType ccm → l ≠ [] → (length l ≤ 2)%nat →
  Forall canonical l → NoDup (map fam_of l) →
  match start_with_clusters E cfg (map net_of l) ccm' with
  | (Panic, _) => (∃ svc, GetServiceCIDRs E = inr svc ∧ (length svc ≤ 1)%nat) ∨ misfit cfg l
  | (Err _, _) => False
  | (Ok st, ccm2) => ccm2 = ccm' ∧
      match st_running st with
      | None => is_Some (st_err st)
      | Some c => st_started st = true ∧ st_err st = None ∧ ∃ Ls, runs_on cfg (CIDRAllocatorType ccm) c Ls
      end
  end.
Proof.
  intros HS Hty Hne Hlen2 Hl Hnd. unfold start_with_clusters.
  destruct (GetServiceCIDRs E) as [e|svc] eqn:Esvc; [by split; [|eexists]|].
  destruct (ParseCIDRs (env_kube E) svc) as [e|nets] eqn:Enets; [by split; [|eexists]|].
  pose proof (se_services _ _ HS svc nets Esvc Enets) as Hnets.
  pose proof (parse_all _ (se_cidrs _ _ HS) svc nets Enets) as Hlen%Forall2_length.
  destruct svc as [|primary rest]; [left; exists []; split; [done|cbn; lia]|].
  set (cfg' := mkIPAMConfig _ _ _ _ _).
  pose proof (mask_sizes E (se_net _ _ HS) cfg' l Hl Hne) as Hm.
  destruct (setNodeCIDRMaskSizes E cfg' (map net_of l)) as [sizes|e|]; [|by split; [|eexists]|done]. destruct Hm as [_ ->].
  unfold gbind. cbn [gget]. rewrite Hty.
  pose proof (controller_made E cfg ccm HS l Hl Hnd nets Hnets) as Hc. rewrite with_mask_nmask in Hc.
  change (λ n, mask_for cfg' (1 <? length l)%nat (fam_of n)) with (λ n, mask_for cfg (1 <? length l)%nat (fam_of n)).
  destruct (NewNodeIpamController _ _ _ _ _ _) as [c|e|].
  - split; [done|]. split; [done|]. split; [done|]. destruct Hc as (Ecl & _ & Ht & Hle & Ha).
    exists (map (with_mask cfg (1 <? length l)%nat) l). unfold runs_on. rewrite with_mask_cluster, with_mask_fam, length_map.
    split_and!; [done..| |done|done|done]. by intros L ([[f a] m] & -> & _)%list_elem_of_fmap.
  - by split; [|eexists].
  - destruct Hc as [->|[[_ Hc]|Hc]]; [done|left; eexists; split; [done|]; cbn [length] in *; lia|by right].
Qed.


(** *** The small cluster, dual stack *)

Definition demo_env (services : list string) : Env := {|
  env_kube := demoK;
  env_talos := segment_talos;
  env_order := demo_order;
  IsIPv6CIDR n := (length (ip_of n) =? 16)%nat;
  IsDualStackCIDRs l :=
    existsb (λ n, (length (ip_of n) =? 4)%nat) l && existsb (λ n, (length (ip_of n) =? 16)%nat) l;
  cosi_for_pods := inr (mkControllerManagerConfig ["10.0.0.0/24"; "fd00::/64"] services);
  cosi_for_services := inr (mkControllerManagerConfig ["10.0.0.0/24"; "fd00::/64"] services);
  env_polls := [inl (ErrNew "not ready"); inr [cloud_node "e" "2001:db8::5" ["10.0.0.64/26"]]] |}.

Definition demo_flags : NodeIPAMControllerConfiguration := mkIPAMConfig "" "" 0 26 0.
Definition demo_shared (ty : string) : KubeCloudShared := mkShared true "" ty.

Lemma net_of_length n : canonical n →
  length (ip_of (net_of n)) = match fam_of n with V4 => 4%nat | V6 => 16%nat end.
Proof. destruct n as [[[] a] m]; intros _; apply length_mk_ip. Qed.

Lemma demo_net_laws services : NetLaws (demo_env services).
Proof.
  split; cbn.
  - intros n Hn. rewrite (net_of_length n Hn). by destruct (fam_of n).
  - intros l Hl [H4 H6]%andb_true_iff. apply existsb_exists in H4 as (n4 & Hn4 & E4), H6 as (n6 & Hn6 & E6).
    apply in_map_iff in Hn4 as (m4 & <- & Hm4), Hn6 as (m6 & <- & Hm6). apply list_elem_of_In in Hm4, Hm6.
    rewrite Forall_forall in Hl. rewrite net_of_length in E4, E6 by auto.
    split; apply list_elem_of_fmap; [exists m4|exists m6]; (split; [|done]); [by destruct (fam_of m4)|by destruct (fam_of m6)].
Qed.

Definition demo_nets : list (family * Z * Z) := [(V4, 10 * 2 ^ 24, 24); (V6, 0xfd00 * 2 ^ 112, 64)].

Lemma demo_setting ty services :
  (∀ nets, parse_cidrs services = inr nets → Forall canonical_net nets) →
  setting (demo_env services) (demo_shared ty).
Proof.
  intros Hs. split.
  - apply cloud_kube_laws.
  - apply cloud_kube_cidrs.
  - exact (TalosLaws_anywhere _ _ segment_talos_laws).
  - apply demo_order_ok.
  - apply demo_net_laws.
  - intros cidrs dual E. exists demo_nets.
    assert (processCIDRs (demo_env services) (effective_ClusterCIDR (demo_env services) (demo_shared ty)) =
      inr (map net_of demo_nets, true)) as E' by (vm_compute; reflexivity).
    rewrite E' in E. injection E as <- _. split; [reflexivity|].
    constructor; [apply demo_canon4|constructor; [apply demo_canon6|constructor]].
  - intros svc nets [= <-]. apply Hs.
Qed.

Lemma demo_services_ok nets :
  parse_cidrs ["10.0.0.0/26"; "fd00::/108"] = inr nets → Forall canonical_net nets.
Proof.
  assert (parse_cidrs ["10.0.0.0/26"; "fd00::/108"] =
    inr [mk_net V4 (10 * 2 ^ 24) 26; mk_net V6 (0xfd00 * 2 ^ 112) 108]) as -> by (vm_compute; reflexivity).
  intros [= <-]. constructor; [|constructor; [|constructor]]; eexists _, _, _; (split; [reflexivity|]);
    (split; [done|done|by vm_compute|]); [done|]. intros _. by vm_compute.
Qed.


(** ** Mask sizes that do not fit *)

Lemma oversized_set f c m n :
  canon f c m → width f < n → n - m < 63 → (f = V6 → n - m ≤ 16) →
  ∃ s, NewCIDRSet (mk_net f c m) n = Ok s ∧ clusterCIDR s = mk_net f c m ∧ clusterMaskSize s = m ∧
    nodeMask s = [] ∧ nodeMaskSize s = n ∧ maxCIDRs s = 2 ^ (n - m) ∧ allocatedCIDRs s = 0 ∧ nextCandidate s = 0 ∧ used s = 0.
Proof.
  intros Hc Hn H63 H6. pose proof Hc as [Hm _ _ _]. unfold NewCIDRSet. rewrite (Mask_Size_canon f c m Hc).
  assert (bool_decide (To4 (ip_of (mk_net f c m)) = None) && (clusterSubnetMaxDiff <? n - m) = false) as ->.
  { destruct f; [done|]. apply andb_false_intro2. specialize (H6 eq_refl).
    unfold clusterSubnetMaxDiff. apply Z.ltb_ge. lia. }
  eexists. split; [done|]. cbn [clusterCIDR clusterMaskSize nodeMask nodeMaskSize maxCIDRs allocatedCIDRs nextCandidate used].
  split_and!; try done.
  - unfold CIDRMask. rewrite (proj2 (Z.ltb_lt (width f) n)), orb_true_r by lia. by destruct (negb _ && negb _).
  - unfold getMaxCIDRs. rewrite wrapu_small by lia. apply shl1_int_pow. lia.
Qed.

(** C26. The program accepts node mask sizes longer than an address.  For a cluster range
    and a node mask size beyond the width of its family, the check of the mask sizes and
    the construction of the set succeed, and the network the set hands out first prints
    as <nil>, the text that is then sent to the API server. *)
Theorem ipam_mask_unchecked f c m n :
  canon f c m → width f < n → n - m < 63 → (f = V6 → n - m ≤ 16) →
  check_mask_sizes [mk_net f c m] [n] = Ok tt ∧
  ∃ s net s', NewCIDRSet (mk_net f c m) n = Ok s ∧ AllocateNext s = (Ok net, s') ∧
    ipnetToStringList [Some net] = ["<nil>"].
Proof.
  intros Hc Hn H63 H6. pose proof Hc as [Hm Ha _ Hp]. split.
  { cbn [check_mask_sizes]. cbn [mk_net mask_of]. rewrite Mask_Size_CIDRMask by done. cbn [fst].
    by rewrite (proj2 (Z.ltb_ge _ _)) by lia. }
  pose proof (pow2_pos (n - m) ltac:(lia)) as Hpos.
  destruct (oversized_set f c m n Hc Hn H63 H6) as (s & -> & Hcl & Hcm & Hnm & Hns & Hmax & Hal & Hnx & Hu).
  exists s. unfold AllocateNext. rewrite Hal, Hmax, Hnx, Hu.
  rewrite (proj2 (Z.eqb_neq 0 (2 ^ (n - m)))), (proj2 (Z.eqb_neq (2 ^ (n - m)) 0)) by lia.
  assert (find_free (Z.to_nat (2 ^ (n - m))) 0 (2 ^ (n - m)) 0 0 = (0, 0)) as ->.
  { destruct (Z.to_nat (2 ^ (n - m))) eqn:E; [lia|]. cbn. done. }
  match goal with |- context [indexToCIDRBlock ?s' 0] => set (t := s') end.
  assert (∃ ip, indexToCIDRBlock t 0 = Ok (mkIPNet ip [])) as (ip & ->).
  { unfold indexToCIDRBlock, t. cbn [clusterCIDR nodeMask nodeMaskSize clusterMaskSize].
    rewrite Hcl, Hcm, Hnm, Hns. cbn [mk_net ip_of]. destruct f.
    - rewrite To4_v4. unfold Uint32. rewrite length_mk_ip. cbn. by eexists.
    - rewrite To4_v6 by done. unfold To16. rewrite length_mk_ip. rewrite decide_False, decide_True by done.
      unfold Uint64. rewrite length_take, length_drop, length_mk_ip. cbn [nbytes IPv6len Nat.min Nat.sub Nat.ltb Nat.leb obind].
      cbn [width] in Hn. rewrite (proj2 (Z.leb_gt n 64)) by lia. by eexists. }
  exists (mkIPNet ip []), t. split; [done|]. split; [done|].
  unfold ipnetToStringList. cbn [map IPNet_String]. f_equal. unfold networkNumberAndMask. cbn [ip_of mask_of length].
  by destruct (_ || _).
Qed.

Lemma ipam_mask_unchecked_witness :
  check_mask_sizes [mk_net V4 (10 * 2 ^ 24) 24] [40] = Ok tt ∧
  ∃ s net s', NewCIDRSet (mk_net V4 (10 * 2 ^ 24) 24) 40 = Ok s ∧ AllocateNext s = (Ok net, s') ∧
    ipnetToStringList [Some net] = ["<nil>"].
Proof. apply (ipam_mask_unchecked V4 (10 * 2 ^ 24) 24 40 demo_canon4); [cbn; lia|lia|discriminate]. Defined.

(** A dual-stack cluster with a single service range makes the start panic: the
    second service range is read whenever there are two cluster ranges. *)
Lemma ipam_single_service_panics :
  (startNodeIpamController (demo_env ["10.0.0.0/26"]) demo_flags (demo_shared RangeAllocatorType)).1 = Panic.
Proof. vm_compute. reflexivity. Qed.

(** The flag for the service ranges has no effect: Talos's ranges replace it. *)
Lemma ipam_service_flag_unused E cfg svc sec ccm :
  startNodeIpamController E (mkIPAMConfig svc sec (NodeCIDRMaskSize cfg) (NodeCIDRMaskSizeIPv4 cfg) (NodeCIDRMaskSizeIPv6 cfg)) ccm =
  startNodeIpamController E cfg ccm.
Proof. reflexivity. Qed.
