(* ===== verification/IpamRun.v ===== *)
(** * What the node IPAM controller and its allocator do when they are run

    [Controller.Run] of [node_ipam_controller.go] and [Run] of either allocator: the
    calls they make, in order, and the deferred calls when they return, last one
    first.  The answer of [cache.WaitForNamedCacheSync] is a parameter; so is all that
    the goroutines do which are started here, whose own turns are
    [processNextNodeWorkItem] and [runWorker] of the allocators. *)

From S2P Require Import Prelude.

Local Open Scope go_scope.

Definition cidrUpdateWorkers : nat := 30.

Inductive run_event :=
  | StartStructuredLogging | StartRecordingToSink | broadcaster_Shutdown | queue_ShutDown | HandleCrash
  | LogInfo (msg : string)
  | WaitForNamedCacheSync (controller : string) (synced : bool)
  | GoAllocatorRun | GoUntilRunWorker
  | CtxDone.

#[export] Instance run_event_eq_dec : EqDecision run_event.
Proof. solve_decision. Defined.

(** The calls made so far, and the deferred ones, the last first. *)
Record call := mkCall { made : list run_event; deferred : list run_event }.

Definition does (e : run_event) (c : call) : call := mkCall (made c ++ [e]) (deferred c).
Definition defers (e : run_event) (c : call) : call := mkCall (made c) (e :: deferred c).
Definition returns (c : call) : list run_event := made c ++ deferred c.
Notation "c ▷ f" := (f c) (at level 61, left associativity).

Section run.
Context (WaitFor : string → bool).

(** [Run] of the range and of the cloud allocator, which are the same. *)
Definition allocator_Run : list run_event :=
  let c := mkCall [] [] ▷ defers HandleCrash
    ▷ does StartStructuredLogging
    ▷ does (LogInfo "Sending events to api server")
    ▷ does StartRecordingToSink
    ▷ defers broadcaster_Shutdown
    ▷ defers queue_ShutDown
    ▷ does (LogInfo "Starting range CIDR allocator")
    ▷ defers (LogInfo "Shutting down range CIDR allocator")
    ▷ does (WaitForNamedCacheSync "cidrallocator" (WaitFor "cidrallocator")) in
  if negb (WaitFor "cidrallocator") then returns c
  else
    let c := Nat.iter cidrUpdateWorkers (does GoUntilRunWorker) c in
    returns (c ▷ does CtxDone).

Definition Controller_Run : list run_event :=
  let c := mkCall [] [] ▷ defers HandleCrash
    ▷ does StartStructuredLogging
    ▷ does StartRecordingToSink
    ▷ defers broadcaster_Shutdown
    ▷ does (LogInfo "Starting ipam controller")
    ▷ defers (LogInfo "Shutting down ipam controller")
    ▷ does (WaitForNamedCacheSync "node" (WaitFor "node")) in
  if negb (WaitFor "node") then returns c
  else returns (c ▷ does GoAllocatorRun ▷ does CtxDone).

(** Nothing is started before the cache is synced, and the queue is shut down, before
    the broadcaster of events, whether it ever was or not. *)
Lemma allocator_Run_shape :
  ∃ before after, allocator_Run = before ++ WaitForNamedCacheSync "cidrallocator" (WaitFor "cidrallocator") :: after ∧
    GoUntilRunWorker ∉ before ∧
    after = (if WaitFor "cidrallocator" then replicate cidrUpdateWorkers GoUntilRunWorker ++ [CtxDone] else []) ++
            [LogInfo "Shutting down range CIDR allocator"; queue_ShutDown; broadcaster_Shutdown; HandleCrash].
Proof.
  unfold allocator_Run. destruct (WaitFor "cidrallocator"); cbn [negb].
  all: exists [StartStructuredLogging; LogInfo "Sending events to api server"; StartRecordingToSink;
               LogInfo "Starting range CIDR allocator"]; eexists.
  all: split_and!; [reflexivity|apply (bool_decide_unpack _); vm_compute; exact I|reflexivity].
Qed.

(** The allocator is started once the controller saw the cache synced, and not else. *)
Lemma Controller_Run_starts : GoAllocatorRun ∈ Controller_Run ↔ WaitFor "node" = true.
Proof.
  unfold Controller_Run. destruct (WaitFor "node"); cbn [negb].
  - split; [done|]. intros _. apply (bool_decide_unpack _). vm_compute. exact I.
  - split; [|done]. intros H. exfalso. revert H. apply (bool_decide_unpack _). vm_compute. exact I.
Qed.
End run.
