(* ===== verification/Provider.v ===== *)
(** * [pkg/talos]: the cloud provider

    [instances.go] and the helpers of [helper.go]: what the provider reports about
    a node, and how it brings the node's annotations, labels and taints in line with
    the transformation rules.  The state is the trace of what was done.  The
    platform metadata is the struct of [Transformer], read and written by field.
    Log lines are left out. *)

From S2P Require Import Prelude GoNet GoStrings NetIP Kube NodeSelector Transformer TalosClient NodeUtils NetUtils Azure.
From Stdlib Require Import Ascii.

Local Open Scope go_scope.

(** ** Constants and configuration *)

Definition ProviderName : string := "talos".
Definition ClusterNameNodeLabel : string := "node.cloudprovider.kubernetes.io/clustername".
Definition ClusterNodePlatformLabel : string := "node.cloudprovider.kubernetes.io/platform".
Definition ClusterNodeLifeCycleLabel : string := "node.cloudprovider.kubernetes.io/lifecycle".
Definition ClusterNodeLifeCycleLabelSpot : string := "spot".

Definition uninitializedTaint : Taint :=
  mkTaint "node.cloudprovider.kubernetes.io/uninitialized" "" "NoSchedule".
Definition notReadyTaint : Taint := mkTaint "node.kubernetes.io/not-ready" "" "NoExecute".
(** In nanoseconds. *)
Definition initializedNodeDelay : Z := 30 * 1000000000.

Record cloudConfig := mkCloudConfig {
  ClusterName : string;
  PreferIPv6 : bool;
  Transformations : list NodeTerm }.

(** What the provider gets from outside.  As before, an answer may depend on the
    trace; [json.Marshal], the merge patch and the taint and label helpers are
    library functions, and so is everything [TransformNode] takes. *)
Record Outside := mkOutside {
  out_kube : Kube;
  out_talos : Talos;
  talos_GetNodeMetadata : list action → string → error + struct;
  talos_GetNodeSystemInfo : list action → string → error + struct;
  talos_GetClusterName : string;
  PlatformMetadataID : string;
  SystemInformationID : string;
  go_syntax : Node → string;
  json_Marshal : Node → error + string;
  CreateTwoWayMergePatch : string → string → error + string;
  nodes_Patch : list action → string → string → option error;
  AddOrUpdateTaintOnNode : list action → string → list Taint → option error;
  AddOrUpdateLabelsOnNode : list action → gmap string string → Node → bool;
  range_map : gmap string string → list (string * string);
  (* for [TransformNode] *)
  template : Type;
  template_Parse : string → error + template;
  template_Execute : template → struct * struct → error + string;
  out_IsQualifiedName : string → list string;
  out_IsValidLabelValue : string → list string;
  out_compile : string → option (string → bool);
  out_order : nat → gmap string string → list (string * string) }.

Record provider := mkProvider { pv_actions : list action }.

#[export] Instance provider_traced : Traced provider := {|
  trace := pv_actions;
  add_action a p := mkProvider (a :: pv_actions p) |}.

(** *** Fields of the platform metadata *)

Definition field_index (name : string) (meta : struct) : option nat :=
  fst <$> list_find (λ f, fname f = name) meta.
Definition get_field (name : string) (meta : struct) : option fval :=
  fvalue ∘ snd <$> list_find (λ f, fname f = name) meta.
Definition get_string (name : string) (meta : struct) : string :=
  match get_field name meta with Some (FString s) => s | _ => "" end.
Definition get_bool (name : string) (meta : struct) : bool :=
  match get_field name meta with Some (FBool b) => b | _ => false end.
Definition set_string (name s : string) (meta : struct) : struct :=
  match field_index name meta with Some i => set_value meta i (FString s) | None => meta end.

(** ** Addresses *)

Section addresses.
Context (T : Talos).

(** [ipDiscovery] *)
Definition ipDiscovery_step (nodeIPs : list string) (acc : list string * list string)
    (iface : AddressStatusSpec) : list string * list string :=
  let '(publicIPv4s, publicIPv6s) := acc in
  if bool_decide (LinkName iface = KubeSpanLinkName T) || bool_decide (LinkName iface = SideroLinkName T) ||
     bool_decide (LinkName iface = "lo") || bool_decide (LinkName iface = "cilium_host") ||
     HasPrefix (LinkName iface) "dummy" then acc
  else
    let ip := Prefix_Addr (Address iface) in
    if IsGlobalUnicast ip && negb (IsPrivate ip) then
      if bool_decide (Addr_String ip ∈ nodeIPs) then acc
      else if Is6 ip then
        if negb (Z.land (Flags iface) (AddressPermanent T) =? 0)
        then (publicIPv4s, Addr_String ip :: publicIPv6s)
        else (publicIPv4s, publicIPv6s ++ [Addr_String ip])
      else (publicIPv4s ++ [Addr_String ip], publicIPv6s)
    else acc.

Definition ipDiscovery (nodeIPs : list string) (ifaces : list AddressStatusSpec)
    : list string * list string := foldl (ipDiscovery_step nodeIPs) ([], []) ifaces.

(** The loop over the interfaces of a platform that names the external one. *)
Definition external_step (nodeIPs : list string) (acc : list string * list string)
    (iface : AddressStatusSpec) : list string * list string :=
  let '(publicIPv4s, publicIPv6s) := acc in
  if bool_decide (LinkName iface = "external") then
    let ip := Prefix_Addr (Address iface) in
    if bool_decide (Addr_String ip ∈ nodeIPs) then acc
    else if Is6 ip then (publicIPv4s, publicIPv6s ++ [Addr_String ip])
    else (publicIPv4s ++ [Addr_String ip], publicIPv6s)
  else acc.

Definition getNodeAddresses (config : cloudConfig) (platform : string) (features : option NodeFeaturesFlagSpec)
    (nodeIPs : list string) (ifaces : list AddressStatusSpec) : list NodeAddress :=
  let '(publicIPv4s, publicIPv6s) :=
    if bool_decide (platform ∈ ["nocloud"; "metal"; "openstack"; "oracle"]) then ipDiscovery nodeIPs ifaces
    else foldl (external_step nodeIPs) ([], []) ifaces in
  let '(publicIPv4s, publicIPv6s) :=
    match features with
    | Some f => if PublicIPDiscovery f then
                  let '(ipv4, ipv6) := ipDiscovery nodeIPs ifaces in (publicIPv4s ++ ipv4, publicIPv6s ++ ipv6)
                else (publicIPv4s, publicIPv6s)
    | None => (publicIPv4s, publicIPv6s)
    end in
  let publicIPs := PreferredDualStackNodeIPs (PreferIPv6 config) (publicIPv4s ++ publicIPv6s) in
  map (mkNodeAddress NodeInternalIP) (PreferredDualStackNodeIPs (PreferIPv6 config) nodeIPs) ++
  map (mkNodeAddress NodeExternalIP) publicIPs.
End addresses.

(** ** Bringing a node in line *)

Section sync.
Context (O : Outside) (config : cloudConfig).

(** The entries of [wanted] that [orig] lacks or has otherwise. *)
Definition to_update (orig wanted : gmap string string) : gmap string string :=
  filter (λ kv, orig !! kv.1 ≠ Some kv.2) wanted.

Definition with_annotations (node : Node) (annotations : gmap string string) : Node :=
  mkNode (Name node) (Labels node) annotations (Deleting node) (PodCIDR node) (PodCIDRs node)
    (ProviderID node) (Taints node) (Addresses node) (AllocatablePods node) (CapacityPods node).

Definition syncNodeAnnotations (node : Node) (nodeAnnotations : gmap string string) : GoM provider unit :=
  let annotationsToUpdate := to_update (Annotations node) nodeAnnotations in
  if bool_decide (annotationsToUpdate = ∅) then gret tt
  else
    match json_Marshal O node with
    | inl err => gfail (ErrW ("failed to marshal the existing node " +:+ go_syntax O node +:+ ": ") err)
    | inr oldData =>
        let newNode := with_annotations node (annotationsToUpdate ∪ Annotations node) in
        match json_Marshal O newNode with
        | inl err => gfail (ErrW ("failed to marshal the new node " +:+ go_syntax O newNode +:+ ": ") err)
        | inr newData =>
            match CreateTwoWayMergePatch O oldData newData with
            | inl err => gfail (ErrV "failed to create a two-way merge patch: " err)
            | inr patchBytes =>
                p <- gget ;;
                emit (ActPatchNode (Name node) patchBytes) ;;;
                match nodes_Patch O (trace p) (Name node) patchBytes with
                | Some err => gfail (ErrV "failed to patch the node: " err)
                | None => gret tt
                end
            end
        end
    end.

(** The taint for an entry [k: v] of the rules. *)
Definition taint_of (kv : string * string) : Taint :=
  let '(k, v) := kv in
  match Split v ":"%char with
  | [value; effect] => mkTaint k value effect
  | value => mkTaint k "" (default "" (head value))
  end.

Definition syncNodeTaints (node : Node) (nodeTaints : gmap string string) : GoM provider unit :=
  let taints := map taint_of (range_map O nodeTaints) in
  p <- gget ;;
  emit (ActTaintNode (Name node) taints) ;;;
  match AddOrUpdateTaintOnNode O (trace p) (Name node) taints with
  | Some err => gfail err
  | None => gret tt
  end.

Definition taintExists (taints : list Taint) (taintToFind : Taint) : bool :=
  existsb (λ taint, MatchTaint (out_kube O) taint taintToFind) taints.

Definition setTalosNodeLabels (meta : option struct) : gmap string string :=
  match meta with
  | None => ∅
  | Some meta =>
      let labels := ∅ in
      let labels := if bool_decide (get_string "Platform" meta = "") then labels
                    else <[ClusterNodePlatformLabel := get_string "Platform" meta]> labels in
      let labels := if get_bool "Spot" meta
                    then <[ClusterNodeLifeCycleLabel := ClusterNodeLifeCycleLabelSpot]> labels else labels in
      let clusterName := if bool_decide (ClusterName config = "") then talos_GetClusterName O
                         else ClusterName config in
      if bool_decide (clusterName = "") then labels else <[ClusterNameNodeLabel := clusterName]> labels
  end.

Definition syncNodeLabels (node : Node) (nodeLabels : gmap string string) : GoM provider unit :=
  let labelsToUpdate := to_update (Labels node) nodeLabels in
  if bool_decide (labelsToUpdate = ∅) then gret tt
  else
    p <- gget ;;
    emit (ActLabelNode (Name node) labelsToUpdate) ;;;
    if AddOrUpdateLabelsOnNode O (trace p) labelsToUpdate node then gret tt
    else gfail (ErrNew ("failed update labels for node " +:+ Name node)).

(** ** [InstancesV2] *)

(** [age] is [time.Since(node.ObjectMeta.CreationTimestamp.Time)]. *)
Fixpoint scan_taints (taints : list Taint) (notReady : bool) : option bool :=
  match taints with
  | [] => Some notReady
  | taint :: taints' =>
      if MatchTaint (out_kube O) taint uninitializedTaint then None
      else scan_taints taints' (if MatchTaint (out_kube O) taint notReadyTaint then true else notReady)
  end.

Definition InstanceExists (age : Z) (node : Node) : bool :=
  if bool_decide (ProviderID node = "") then true
  else
    match scan_taints (Taints node) false with
    | None => true (* the uninitialized taint *)
    | Some notReady =>
        if age <? initializedNodeDelay then true
        else if notReady &&
                bool_decide (default "" (Labels node !! ClusterNodePlatformLabel) = "gcp") &&
                bool_decide (default "" (Labels node !! ClusterNodeLifeCycleLabel) = ClusterNodeLifeCycleLabelSpot)
        then false
        else true
    end.

Definition InstanceShutdown (node : Node) : bool := false.

Record InstanceMetadata_result := mkInstanceMetadata {
  im_ProviderID : string;
  im_InstanceType : string;
  im_NodeAddresses : list NodeAddress;
  im_Zone : string;
  im_Region : string }.

(** [mc.ObserveRequest(err)], [mct.ObserveTransformer(err)]. *)
Definition Observe (what : string) (failed : bool) : GoM provider unit := emit (ActObserve what failed).

(** A call to Talos, observed. *)
Definition observed {A} (call : GoM provider A) (what : string) : GoM provider A :=
  a <- gcatch call (λ err, Observe what true ;;; gfail err) ;;
  Observe what false ;;;
  gret a.

Definition GetNodeMetadata (ip : string) : GoM provider struct :=
  p <- gget ;;
  emit (ActGetNodeMetadata ip) ;;;
  match talos_GetNodeMetadata O (trace p) ip with inl err => gfail err | inr meta => gret meta end.

Definition GetNodeSystemInfo (ip : string) : GoM provider struct :=
  p <- gget ;;
  emit (ActGetNodeSystemInfo ip) ;;;
  match talos_GetNodeSystemInfo O (trace p) ip with inl err => gfail err | inr info => gret info end.

(** The loop over the addresses of the node: the metadata from the first that
    answers, and that address. *)
Fixpoint first_metadata (nodeIPs : list string) : GoM provider (option (struct * string)) :=
  match nodeIPs with
  | [] => gret None
  | ip :: nodeIPs' =>
      gcatch (meta <- observed (GetNodeMetadata ip) (PlatformMetadataID O) ;; gret (Some (meta, ip)))
             (λ _, first_metadata nodeIPs')
  end.

(** The metadata with the provider's own rules applied. *)
Definition fix_metadata (node : Node) (nodeIP : string) (meta : struct) : outcome struct :=
  let meta := if bool_decide (get_string "ProviderID" meta = "")
              then set_string "ProviderID" (ProviderName +:+ "://" +:+ get_string "Platform" meta +:+ "/" +:+ nodeIP) meta
              else meta in
  let? meta :=
    (if bool_decide (get_string "Platform" meta = "azure") then
       match AzureConvertResourceGroupNameToLower (get_string "ProviderID" meta) with
       | Ok id => Ok (set_string "ProviderID" id meta)
       | Err err => Err (ErrW "error converting resource group name to lower case: " err)
       | Panic => Panic
       end
     else Ok meta) in
  Ok (if bool_decide (get_string "Hostname" meta = "") then set_string "Hostname" (Name node) meta else meta).

Definition ErrNoMetadata (node : Node) : error :=
  ErrNew ("error getting metadata from the node " +:+ Name node).

(** The transformation of the metadata, with the system information it needs. *)
Definition transform (node : Node) (nodeIP : string) (meta : struct) : GoM provider (NodeSpec * struct) :=
  sysInfo <- (if (0 <? length (Transformations config))%nat then
                gcatch (info <- observed (GetNodeSystemInfo nodeIP) (SystemInformationID O) ;; gret (Some info))
                       (λ err, gfail (ErrW ("error getting system info from the node " +:+ Name node +:+ ": ") err))
              else gret None) ;;
  gcatch (observed (gof_outcome (TransformNode (template_Parse O) (template_Execute O) (out_IsQualifiedName O)
             (out_IsValidLabelValue O) (out_compile O) (out_order O) (Transformations config) meta sysInfo)) "transformer")
         (λ err, gfail (ErrW "error transforming node: " err)).

(** Errors of the three updates are only logged. *)
Definition apply_spec (node : Node) (nodeSpec : NodeSpec) (meta : struct) : GoM provider unit :=
  (if bool_decide (spec_Annotations nodeSpec = ∅) then gret tt
   else gcatch (syncNodeAnnotations node (spec_Annotations nodeSpec)) (λ _, gret tt)) ;;;
  (if bool_decide (spec_Taints nodeSpec = ∅) then gret tt
   else if taintExists (Taints node) uninitializedTaint
        then gcatch (syncNodeTaints node (spec_Taints nodeSpec)) (λ _, gret tt)
        else gret tt) ;;;
  gcatch (syncNodeLabels node (spec_Labels nodeSpec ∪ setTalosNodeLabels (Some meta))) (λ _, gret tt).

Definition InstanceMetadata (node : Node) : GoM provider InstanceMetadata_result :=
  match Annotations node !! AnnotationAlphaProvidedIPAddr with
  | None => gret (mkInstanceMetadata "" "" [] "" "")
  | Some providedIP =>
      let nodeIPs := PreferredDualStackNodeIPs (PreferIPv6 config) (Split providedIP ","%char) in
      found <- first_metadata nodeIPs ;;
      match found with
      | None => gfail (ErrNoMetadata node)
      | Some (meta, nodeIP) =>
          meta <- gof_outcome (fix_metadata node nodeIP meta) ;;
          spec <- transform node nodeIP meta ;;
          let '(nodeSpec, meta) := spec in
          ifaces <- gcatch (observed (GetNodeIfaces (out_talos O) nodeIP) "addresses")
                           (λ err, gfail (ErrW ("error getting interfaces list from the node " +:+ Name node +:+ ": ") err)) ;;
          let addresses := getNodeAddresses (out_talos O) config (get_string "Platform" meta)
                             (Some (spec_Features nodeSpec)) nodeIPs ifaces in
          let addresses := addresses ++ [mkNodeAddress NodeHostName (Name node)] in
          let hostname := get_string "Hostname" meta in
          let addresses := if negb (bool_decide (hostname = "")) && (0 <? IndexByte hostname "."%char)
                           then addresses ++ [mkNodeAddress NodeInternalDNS hostname] else addresses in
          apply_spec node nodeSpec meta ;;;
          gret (mkInstanceMetadata (get_string "ProviderID" meta) (get_string "InstanceType" meta) addresses
                  (get_string "Zone" meta) (get_string "Region" meta))
      end
  end.
End sync.
