(* ===== verification/ProviderTheorems.v ===== *)
(** * Theorems about the cloud provider

    What [InstanceMetadata] reports and does, that bringing a node in line
    converges, and when an instance is reported gone. *)

From S2P Require Import Prelude GoNet GoStrings NetIP NetIPRoundTrip NetIPParse Kube NodeSelector Transformer.
From S2P Require Import TalosClient NodeUtils NetUtils Azure CloudAllocatorSpec CloudAllocatorDemo Provider.
From Stdlib Require Import Ascii.

Local Open Scope go_scope.

(** ** Effects *)

(** Only actions with [P] are added to the trace. *)
Definition does (P : action → Prop) (p p' : provider) : Prop :=
  ∃ l, pv_actions p' = l ++ pv_actions p ∧ Forall P l.

#[export] Instance does_preorder P : PreOrder (does P).
Proof.
  split; [intros p; by exists []|]. intros p1 p2 p3 (l & E & Hl) (l' & E' & Hl').
  exists (l' ++ l). rewrite E', E, app_assoc. split; [done|]. by apply Forall_app.
Qed.

Lemma emit_does P a : P a → gsteps (does P) (emit (S := provider) a).
Proof. intros Ha p. exists [a]. split; [done|]. by constructor. Qed.

(** The entries that are to be updated. *)
Lemma to_update_lookup orig wanted k v :
  to_update orig wanted !! k = Some v ↔ wanted !! k = Some v ∧ orig !! k ≠ Some v.
Proof. unfold to_update. rewrite map_lookup_filter_Some. done. Qed.

Section effects.
Context (O : Outside) (config : cloudConfig) (node : Node).

(** The addresses the node may be asked at. *)
Definition node_ips : list string :=
  match Annotations node !! AnnotationAlphaProvidedIPAddr with
  | Some providedIP => PreferredDualStackNodeIPs (PreferIPv6 config) (Split providedIP ","%char)
  | None => []
  end.

(** What the provider may do on behalf of [node]. *)
Definition node_effect (a : action) : Prop :=
  match a with
  | ActGetNodeMetadata ip | ActGetNodeSystemInfo ip | ActGetNodeIfaces ip => ip ∈ node_ips
  | ActObserve _ _ => True
  | ActPatchNode n patch => n = Name node ∧
      ∃ wanted old new, to_update (Annotations node) wanted ≠ ∅ ∧
        json_Marshal O node = inr old ∧
        json_Marshal O (with_annotations node (to_update (Annotations node) wanted ∪ Annotations node)) = inr new ∧
        CreateTwoWayMergePatch O old new = inr patch
  | ActTaintNode n _ => n = Name node ∧ taintExists O (Taints node) uninitializedTaint = true
  | ActLabelNode n l => n = Name node ∧ l ≠ ∅ ∧ ∀ k v, l !! k = Some v → Labels node !! k ≠ Some v
  | _ => False
  end.

Notation fine := (gsteps (does node_effect)).

Lemma observed_fine {A} (call : GoM provider A) what : fine call → fine (observed call what).
Proof.
  intros Hc. assert (∀ b, fine (Observe what b)) by (intros b; by apply emit_does). unfold observed. go_steps.
Qed.

Lemma ask_fine ip : ip ∈ node_ips →
  fine (GetNodeMetadata O ip) ∧ fine (GetNodeSystemInfo O ip) ∧ fine (GetNodeIfaces (out_talos O) ip).
Proof.
  intros Hip. assert (fine (emit (ActGetNodeMetadata ip))) by (by apply emit_does).
  assert (fine (emit (ActGetNodeSystemInfo ip))) by (by apply emit_does).
  assert (fine (emit (ActGetNodeIfaces ip))) by (by apply emit_does).
  unfold GetNodeMetadata, GetNodeSystemInfo, GetNodeIfaces. split_and!; go_steps.
Qed.

Lemma first_metadata_fine l : Forall (λ ip, ip ∈ node_ips) l → fine (first_metadata O l).
Proof.
  induction 1 as [|ip l Hip _ IH]; cbn; [by apply gsteps_ret, _|]. destruct (ask_fine ip Hip) as (H & _).
  apply (observed_fine _ (PlatformMetadataID O)) in H. go_steps.
Qed.

Lemma first_metadata_asked l p meta ip p' : first_metadata O l p = (Ok (Some (meta, ip)), p') → ip ∈ l.
Proof.
  revert p. induction l as [|ip' l IH]; intros p; [done|]. cbn. unfold gcatch, gbind.
  destruct (observed _ _ p) as [[m|e|] p1]; [|intros H; right; by eapply IH|done].
  cbn. intros [= _ -> _]. left.
Qed.

Lemma syncNodeAnnotations_fine wanted : fine (syncNodeAnnotations O node wanted).
Proof.
  unfold syncNodeAnnotations. case_bool_decide as Hu; [by apply gsteps_ret, _|].
  destruct (json_Marshal O node) as [|old] eqn:E1; [by apply gsteps_fail, _|].
  destruct (json_Marshal O (with_annotations node _)) as [|new] eqn:E2; [by apply gsteps_fail, _|].
  destruct (CreateTwoWayMergePatch O old new) as [|patch] eqn:E3; [by apply gsteps_fail, _|].
  assert (fine (emit (ActPatchNode (Name node) patch))).
  { apply emit_does. split; [done|]. by exists wanted, old, new. }
  go_steps.
Qed.

Lemma syncNodeTaints_fine wanted :
  taintExists O (Taints node) uninitializedTaint = true → fine (syncNodeTaints O node wanted).
Proof.
  intros Ht. unfold syncNodeTaints.
  assert (fine (emit (ActTaintNode (Name node) (map taint_of (range_map O wanted))))) by (by apply emit_does).
  go_steps.
Qed.

Lemma syncNodeLabels_fine wanted : fine (syncNodeLabels O node wanted).
Proof.
  unfold syncNodeLabels. case_bool_decide as Hu; [by apply gsteps_ret, _|].
  assert (fine (emit (ActLabelNode (Name node) (to_update (Labels node) wanted)))).
  { apply emit_does. split; [done|]. split; [done|]. intros k v [_ H]%to_update_lookup. done. }
  go_steps.
Qed.

Lemma apply_spec_fine nodeSpec meta : fine (apply_spec O config node nodeSpec meta).
Proof.
  pose proof syncNodeAnnotations_fine. pose proof syncNodeTaints_fine. pose proof syncNodeLabels_fine.
  unfold apply_spec. destruct (taintExists O (Taints node) uninitializedTaint) eqn:E; go_steps.
Qed.

Lemma transform_fine ip meta : ip ∈ node_ips → fine (transform O config node ip meta).
Proof.
  intros Hip. destruct (ask_fine ip Hip) as (_ & H & _). apply (observed_fine _ (SystemInformationID O)) in H.
  unfold transform. apply gsteps_bind; [exact _|go_steps|intros info].
  apply gsteps_catch; [exact _|apply observed_fine; go_steps|go_steps].
Qed.

Lemma InstanceMetadata_fine : fine (InstanceMetadata O config node).
Proof.
  unfold InstanceMetadata. pose proof node_ips as ips. pose proof (eq_refl node_ips) as Eips. unfold node_ips in Eips at 2.
  destruct (Annotations node !! AnnotationAlphaProvidedIPAddr) as [provided|]; [|by apply gsteps_ret, _].
  set (nodeIPs := PreferredDualStackNodeIPs _ _) in *.
  apply gsteps_bind_result; [exact _|apply first_metadata_fine; rewrite Eips; by apply Forall_forall|].
  intros [[meta ip]|] p p' E; [|by apply gsteps_fail, _]. apply first_metadata_asked in E. rewrite <-Eips in E.
  apply gsteps_bind; [exact _|by apply gsteps_of_outcome, _|intros meta1].
  apply gsteps_bind; [exact _|by apply transform_fine|intros [nodeSpec meta2]].
  apply gsteps_bind; [exact _| |intros ifaces].
  { apply gsteps_catch; [exact _|by apply observed_fine, ask_fine|go_steps]. }
  apply gsteps_bind; [exact _|apply apply_spec_fine|go_steps].
Qed.
End effects.

(** ** Addresses *)

(** [x] is the address of an interface, and not one of the node's own. *)
Definition public_of (nodeIPs : list string) (ifaces : list AddressStatusSpec) (x : string) : Prop :=
  x ∉ nodeIPs ∧ ∃ i, i ∈ ifaces ∧ x = Addr_String (Prefix_Addr (Address i)).

Section public.
Context (T : Talos) (nodeIPs : list string) (ifaces : list AddressStatusSpec).
Notation pub := (Forall (public_of nodeIPs ifaces)).

Lemma public_fold (step : list string * list string → AddressStatusSpec → list string * list string) :
  (∀ acc i, i ∈ ifaces → pub acc.1 → pub acc.2 → pub (step acc i).1 ∧ pub (step acc i).2) →
  pub (foldl step ([], []) ifaces).1 ∧ pub (foldl step ([], []) ifaces).2.
Proof.
  intros Hs. assert (∀ l acc, (∀ i, i ∈ l → i ∈ ifaces) → pub acc.1 → pub acc.2 →
    pub (foldl step acc l).1 ∧ pub (foldl step acc l).2) as H; [|by apply H].
  induction l as [|i l IH]; intros acc Hin H1 H2; cbn [foldl]; [done|].
  destruct (Hs acc i (Hin i ltac:(left)) H1 H2) as [S1 S2]. apply IH; [|done..]. intros j Hj. apply Hin. by right.
Qed.

Lemma public_own i : i ∈ ifaces → Addr_String (Prefix_Addr (Address i)) ∉ nodeIPs →
  public_of nodeIPs ifaces (Addr_String (Prefix_Addr (Address i))).
Proof. intros Hi Hn. split; [done|]. by exists i. Qed.

Lemma ipDiscovery_public : pub (ipDiscovery T nodeIPs ifaces).1 ∧ pub (ipDiscovery T nodeIPs ifaces).2.
Proof.
  apply public_fold. intros [v4 v6] i Hi H4 H6. cbn [fst snd] in *. unfold ipDiscovery_step.
  destruct (_ || _); [done|]. destruct (_ && _); [|done]. case_bool_decide as Hn; [done|].
  pose proof (public_own i Hi Hn). destruct (Is6 _); [case_match|]; cbn; rewrite ?Forall_cons, ?Forall_app, ?Forall_singleton; done.
Qed.

Lemma external_public :
  pub (foldl (external_step nodeIPs) ([], []) ifaces).1 ∧ pub (foldl (external_step nodeIPs) ([], []) ifaces).2.
Proof.
  apply public_fold. intros [v4 v6] i Hi H4 H6. cbn [fst snd] in *. unfold external_step.
  case_bool_decide; [|done]. case_bool_decide as Hn; [done|]. pose proof (public_own i Hi Hn).
  destruct (Is6 _); cbn; rewrite ?Forall_app, ?Forall_singleton; done.
Qed.
End public.

Lemma preferred_length p ips : (length (PreferredDualStackNodeIPs p ips) ≤ 2)%nat.
Proof.
  rewrite preferred_first. assert (∀ six, length (first_of six ips) ≤ 1)%nat as H.
  { intros six. destruct (first_of_cases six ips) as [-> |(ip & a & _ & _ & _ & ->)]; cbn; lia. }
  pose proof (H true). pose proof (H false). destruct p; rewrite length_app; lia.
Qed.

(** Of texts of well-formed addresses some are chosen as they are. *)
Lemma preferred_public nodeIPs ifaces p l :
  Forall (λ i, prefix_ok (Address i)) ifaces → Forall (public_of nodeIPs ifaces) l →
  Forall (public_of nodeIPs ifaces) (PreferredDualStackNodeIPs p l).
Proof.
  intros Hok Hl. apply Forall_forall. intros x Hx. rewrite preferred_first in Hx.
  assert (∃ six, x ∈ first_of six l) as [six Hs] by (destruct p; apply elem_of_app in Hx as [Hx|Hx]; eauto).
  destruct (first_of_cases six l) as [E|(ip & a & Hip & Ea & _ & E)]; rewrite E in Hs; [by apply elem_of_nil in Hs|].
  apply list_elem_of_singleton in Hs as ->. rewrite Forall_forall in Hl. pose proof (Hl ip Hip) as Hpub.
  destruct Hpub as [Hn (i & Hi & ->)]. rewrite Forall_forall in Hok. destruct (Hok i Hi) as (Ha & _).
  rewrite ParseAddr_String in Ea by done. injection Ea as <-. by apply public_own.
Qed.

Lemma getNodeAddresses_shape T config platform features nodeIPs ifaces :
  Forall (λ i, prefix_ok (Address i)) ifaces →
  ∃ external, getNodeAddresses T config platform features nodeIPs ifaces =
      map (mkNodeAddress NodeInternalIP) (PreferredDualStackNodeIPs (PreferIPv6 config) nodeIPs) ++
      map (mkNodeAddress NodeExternalIP) external ∧
    (length external ≤ 2)%nat ∧ Forall (public_of nodeIPs ifaces) external.
Proof.
  intros Hok. unfold getNodeAddresses. destruct (ipDiscovery_public T nodeIPs ifaces) as [D4 D6].
  destruct (external_public nodeIPs ifaces) as [E4 E6].
  destruct (ipDiscovery T nodeIPs ifaces) as [d4 d6], (foldl (external_step nodeIPs) ([], []) ifaces) as [e4 e6].
  cbn [fst snd] in *.
  assert (∃ p4 p6, (if bool_decide (platform ∈ ["nocloud"; "metal"; "openstack"; "oracle"]) then (d4, d6) else (e4, e6)) =
    (p4, p6) ∧ Forall (public_of nodeIPs ifaces) p4 ∧ Forall (public_of nodeIPs ifaces) p6) as (p4 & p6 & -> & P4 & P6).
  { destruct (bool_decide _); eauto. }
  destruct features as [[[]]|]; cbn [PublicIPDiscovery]; (eexists; split; [done|]; split; [apply preferred_length|]);
    apply preferred_public; rewrite ?Forall_app; done.
Qed.

(** ** [InstanceMetadata] *)

Section metadata.
Context (O : Outside) (config : cloudConfig) (node : Node).

(** A transformation panics on some metadata. *)
Definition transform_panics : Prop :=
  ∃ meta sysInfo, TransformNode (template_Parse O) (template_Execute O) (out_IsQualifiedName O)
    (out_IsValidLabelValue O) (out_compile O) (out_order O) (Transformations config) meta sysInfo = Panic.

(** [m] only panics when [P]. *)
Definition panics_if {A} (P : Prop) (m : GoM provider A) : Prop := ∀ p, (m p).1 = Panic → P.

Lemma panics_bind {A B} P (m : GoM provider A) (k : A → GoM provider B) :
  panics_if P m → (∀ a, panics_if P (k a)) → panics_if P (gbind m k).
Proof.
  intros Hm Hk p. unfold gbind. specialize (Hm p). destruct (m p) as [[a|e|] p']; cbn; [apply Hk|done|auto].
Qed.

Lemma panics_catch {A} P (m : GoM provider A) h :
  panics_if P m → (∀ e, panics_if P (h e)) → panics_if P (gcatch m h).
Proof.
  intros Hm Hh p. unfold gcatch. specialize (Hm p). destruct (m p) as [[a|e|] p']; cbn; [done|apply Hh|auto].
Qed.

Lemma panics_ret {A} P (a : A) : panics_if P (gret a).
Proof. by intros p. Qed.
Lemma panics_fail {A} P e : panics_if P (gfail (A := A) e).
Proof. by intros p. Qed.
Lemma panics_get P : panics_if P gget.
Proof. by intros p. Qed.
Lemma panics_emit P a : panics_if P (emit a).
Proof. by intros p. Qed.
End metadata.

Create HintDb go_panics discriminated.
#[export] Hint Resolve panics_ret panics_fail panics_get panics_emit : go_panics.

Ltac go_panics :=
  intros;
  repeat (first
    [ solve [auto with go_panics]
    | match goal with
      | |- panics_if _ (gbind _ _) => apply panics_bind; [|intros]
      | |- panics_if _ (gcatch _ _) => apply panics_catch; [|intros]
      | |- panics_if _ (match ?x with _ => _ end) => destruct x
      | |- panics_if _ (if ?x then _ else _) => destruct x
      end ]).

Lemma observed_panics {A} P (call : GoM provider A) what : panics_if P call → panics_if P (observed call what).
Proof. intros Hc. unfold observed, Observe. go_panics. Qed.

Lemma first_metadata_panics P O l : panics_if P (first_metadata O l).
Proof.
  induction l as [|ip l IH]; cbn; [go_panics|]. apply panics_catch; [|done].
  apply panics_bind; [apply observed_panics; unfold GetNodeMetadata; go_panics|go_panics].
Qed.

Lemma transform_may_panic O config node ip meta :
  panics_if (transform_panics O config) (transform O config node ip meta).
Proof.
  unfold transform. apply panics_bind.
  - destruct (_ <? _)%nat; [|go_panics]. apply panics_catch; [|go_panics].
    apply panics_bind; [apply observed_panics; unfold GetNodeSystemInfo; go_panics|go_panics].
  - intros info. apply panics_catch; [|go_panics]. apply observed_panics. intros p Hp. cbn in Hp. by exists meta, info.
Qed.

Lemma apply_spec_panics P O config node spec meta : panics_if P (apply_spec O config node spec meta).
Proof. unfold apply_spec, syncNodeAnnotations, syncNodeTaints, syncNodeLabels. go_panics. Qed.

Lemma fix_metadata_no_panic node ip meta : fix_metadata node ip meta ≠ Panic.
Proof.
  unfold fix_metadata. cbn zeta. destruct (bool_decide (get_string "Platform" _ = "azure")); cbn [obind]; [|done].
  match goal with |- context [AzureConvertResourceGroupNameToLower ?x] =>
    pose proof (azure_no_panic x); destruct (AzureConvertResourceGroupNameToLower x) end; done.
Qed.

Lemma InstanceMetadata_panics O config node :
  panics_if (transform_panics O config) (InstanceMetadata O config node).
Proof.
  unfold InstanceMetadata. destruct (Annotations node !! _); [|go_panics].
  apply panics_bind; [apply first_metadata_panics|]. intros [[meta ip]|]; [|go_panics].
  apply panics_bind.
  { intros p Hp. by apply fix_metadata_no_panic in Hp. }
  intros meta1. apply panics_bind; [apply transform_may_panic|]. intros [spec meta2].
  apply panics_bind.
  { apply panics_catch; [apply observed_panics; unfold GetNodeIfaces; go_panics|go_panics]. }
  intros ifaces. apply panics_bind; [apply apply_spec_panics|go_panics].
Qed.

(** The result of a successful call, step by step. *)
Lemma InstanceMetadata_inv O config node provided p res p' :
  Annotations node !! AnnotationAlphaProvidedIPAddr = Some provided →
  InstanceMetadata O config node p = (Ok res, p') →
  let nodeIPs := PreferredDualStackNodeIPs (PreferIPv6 config) (Split provided ","%char) in
  ∃ nodeIP past ifaces meta spec, nodeIP ∈ nodeIPs ∧ talos_GetNodeIfaces (out_talos O) past nodeIP = inr ifaces ∧
    im_ProviderID res = get_string "ProviderID" meta ∧
    im_NodeAddresses res =
      getNodeAddresses (out_talos O) config (get_string "Platform" meta) (Some spec) nodeIPs ifaces ++
      [mkNodeAddress NodeHostName (Name node)] ++
      (if negb (bool_decide (get_string "Hostname" meta = "")) && (0 <? IndexByte (get_string "Hostname" meta) "."%char)
       then [mkNodeAddress NodeInternalDNS (get_string "Hostname" meta)] else []).
Proof.
  intros Hp. unfold InstanceMetadata. rewrite Hp. cbn zeta. set (nodeIPs := PreferredDualStackNodeIPs _ _).
  unfold gbind at 1. destruct (first_metadata O nodeIPs p) as [[[[meta0 nodeIP]|]|e|] p1] eqn:E1; try done.
  apply first_metadata_asked in E1.
  unfold gbind at 1. cbn [gof_outcome]. destruct (fix_metadata node nodeIP meta0) as [meta1|e|]; try done.
  unfold gbind at 1. destruct (transform O config node nodeIP meta1 p1) as [[[spec meta]|e|] p2]; try done.
  unfold observed, GetNodeIfaces, Observe, emit, gbind, gcatch, gget, gmodify.
  destruct (talos_GetNodeIfaces (out_talos O) (trace p2) nodeIP) as [e|ifaces] eqn:E3; [done|]. cbn [gret].
  destruct (apply_spec O config node spec meta _) as [[[]|e|] p4]; try done. intros [= <- <-].
  exists nodeIP, (trace p2), ifaces, meta, (spec_Features spec). cbn [im_ProviderID im_NodeAddresses].
  split; [done|]. split; [done|]. split; [done|].
  destruct (_ && _); [by rewrite <-!app_assoc|done].
Qed.

(** C27. What [InstanceMetadata] reports.  Without the kubelet's annotation nothing
    is reported and nothing done.  Otherwise the addresses are, in this order: the
    node's own (one per family, the preferred family first), at most two external
    ones, the node's name as host name, and the host name of the metadata when it
    has a domain.  An external address belongs to an interface that Talos reported
    for the node, and is never one of the node's own.  The call panics only when a
    transformation rule does. *)
Theorem instance_metadata O config node p :
  (∀ past ip l, talos_GetNodeIfaces (out_talos O) past ip = inr l → Forall (λ i, prefix_ok (Address i)) l) →
  match InstanceMetadata O config node p with
  | (Panic, _) => transform_panics O config
  | (Err _, _) => True
  | (Ok res, p') =>
      match Annotations node !! AnnotationAlphaProvidedIPAddr with
      | None => res = mkInstanceMetadata "" "" [] "" "" ∧ p' = p
      | Some provided =>
          let internal := PreferredDualStackNodeIPs (PreferIPv6 config) (Split provided ","%char) in
          ∃ external dns ifaces nodeIP past,
            im_NodeAddresses res =
              map (mkNodeAddress NodeInternalIP) internal ++ map (mkNodeAddress NodeExternalIP) external ++
              [mkNodeAddress NodeHostName (Name node)] ++ map (mkNodeAddress NodeInternalDNS) dns ∧
            nodeIP ∈ internal ∧ talos_GetNodeIfaces (out_talos O) past nodeIP = inr ifaces ∧
            (length internal ≤ 2)%nat ∧ (length external ≤ 2)%nat ∧
            Forall (public_of internal ifaces) external ∧
            (length dns ≤ 1)%nat ∧ Forall (λ h, 0 < IndexByte h "."%char) dns
      end
  end.
Proof.
  intros HT. pose proof (InstanceMetadata_panics O config node p) as Hpanic.
  destruct (InstanceMetadata O config node p) as [[res|e|] p'] eqn:E; [|done|by apply Hpanic]. clear Hpanic.
  destruct (Annotations node !! AnnotationAlphaProvidedIPAddr) as [provided|] eqn:Ea.
  2:{ unfold InstanceMetadata in E. rewrite Ea in E. by injection E as <- <-. }
  destruct (InstanceMetadata_inv O config node provided p res p' Ea E)
    as (nodeIP & past & ifaces & meta & spec & Hin & Hif & _ & Haddr).
  cbn zeta. set (internal := PreferredDualStackNodeIPs _ _) in *.
  destruct (getNodeAddresses_shape (out_talos O) config (get_string "Platform" meta) (Some spec) internal ifaces (HT _ _ _ Hif))
    as (external & Eext & Hlen & Hpub). rewrite Eext in Haddr. unfold internal in Haddr at 1.
  rewrite preferred_idem in Haddr. fold internal in Haddr.
  set (h := get_string "Hostname" meta) in *.
  exists external, (if negb (bool_decide (h = "")) && (0 <? IndexByte h "."%char) then [h] else []), ifaces, nodeIP, past.
  split; [rewrite Haddr, <-!app_assoc; by destruct (_ && _)|].
  split; [done|]. split; [done|]. split; [apply preferred_length|]. split; [done|]. split; [done|].
  destruct (_ && _) eqn:Eh; [|by split; [cbn; lia|constructor]]. split; [done|]. constructor; [|constructor].
  apply andb_true_iff in Eh as [_ Eh]. lia.
Qed.

(** *** A node on bare metal *)

Definition demo_metadata : struct :=
  [mkField "Platform" "platform" true (FString "metal"); mkField "Hostname" "hostname" true (FString "n.example.org");
   mkField "ProviderID" "providerId" true (FString ""); mkField "Spot" "spot" true (FBool false)].

Definition demo_outside : Outside := {|
  out_kube := demoK;
  out_talos := segment_talos;
  talos_GetNodeMetadata past ip := inr demo_metadata;
  talos_GetNodeSystemInfo past ip := inr [];
  talos_GetClusterName := "demo";
  PlatformMetadataID := "platformmetadata";
  SystemInformationID := "systeminformation";
  go_syntax n := Name n;
  json_Marshal n := inr (Name n);
  CreateTwoWayMergePatch old new := inr new;
  nodes_Patch past node patch := None;
  AddOrUpdateTaintOnNode past node taints := None;
  AddOrUpdateLabelsOnNode past labels node := true;
  range_map m := map_to_list m;
  template := string;
  template_Parse s := inr s;
  template_Execute t values := inr t;
  out_IsQualifiedName s := [];
  out_IsValidLabelValue s := [];
  out_compile s := None;
  out_order i m := map_to_list m |}.

Definition demo_config : cloudConfig := mkCloudConfig "" false [].
Definition demo_metal : Node :=
  mkNode "n" ∅ {[AnnotationAlphaProvidedIPAddr := "10.0.0.5,2001:db8::5"]} false "" [] "" [] [] None None.

Lemma instance_metadata_witness :
  match InstanceMetadata demo_outside demo_config demo_metal (mkProvider []) with
  | (Ok res, _) =>
      im_ProviderID res = "talos://metal/10.0.0.5" ∧
      im_NodeAddresses res =
        [mkNodeAddress NodeInternalIP "10.0.0.5"; mkNodeAddress NodeInternalIP "2001:db8::5";
         mkNodeAddress NodeExternalIP "2001:db8::6"; mkNodeAddress NodeHostName "n";
         mkNodeAddress NodeInternalDNS "n.example.org"] ∧
      ∃ external, Forall (λ x, x ∉ ["10.0.0.5"; "2001:db8::5"]) external ∧
        (length external ≤ 2)%nat
  | _ => False
  end.
Proof.
  pose proof (instance_metadata demo_outside demo_config demo_metal (mkProvider [])
    (ifaces_ok _ _ segment_talos_laws)) as H.
  assert (match InstanceMetadata demo_outside demo_config demo_metal (mkProvider []) with
    | (Ok res, _) => im_ProviderID res = "talos://metal/10.0.0.5" ∧
        im_NodeAddresses res =
        [mkNodeAddress NodeInternalIP "10.0.0.5"; mkNodeAddress NodeInternalIP "2001:db8::5";
         mkNodeAddress NodeExternalIP "2001:db8::6"; mkNodeAddress NodeHostName "n";
         mkNodeAddress NodeInternalDNS "n.example.org"]
    | _ => False end) as Hc by (vm_compute; split; reflexivity).
  destruct (InstanceMetadata demo_outside demo_config demo_metal (mkProvider [])) as [[res|e|] p']; [|destruct Hc..].
  destruct Hc as [Hid Haddr]. split; [exact Hid|]. split; [exact Haddr|].
  assert (Annotations demo_metal !! AnnotationAlphaProvidedIPAddr = Some "10.0.0.5,2001:db8::5") as Ea by (vm_compute; reflexivity).
  rewrite Ea in H. destruct H as (external & dns & ifaces & ip & past & _ & _ & _ & _ & Hlen & Hpub & _).
  exists external. split; [|exact Hlen]. apply (Forall_impl _ _ _ Hpub). intros x [Hx _].
  assert (PreferredDualStackNodeIPs (PreferIPv6 demo_config) (Split "10.0.0.5,2001:db8::5" ","%char) =
    ["10.0.0.5"; "2001:db8::5"]) as El by (vm_compute; reflexivity). rewrite El in Hx. exact Hx.
Defined.

(** C28. What [InstanceMetadata] does to the outside: it asks Talos only at the
    node's own addresses; it patches only this node, with the merge patch for
    annotations that differ; it updates only labels of this node that differ; it
    touches taints only while the node has the uninitialized taint; and it does
    nothing else, whatever the answers. *)
Theorem instance_effects O config node p :
  does (node_effect O config node) p (InstanceMetadata O config node p).2.
Proof. apply InstanceMetadata_fine. Qed.

(** ** Bringing a node in line converges *)

Lemma to_update_empty orig wanted : to_update orig wanted = ∅ ↔ wanted ⊆ orig.
Proof.
  rewrite map_subseteq_spec. split.
  - intros E k v Hk. destruct (decide (orig !! k = Some v)) as [|Hn]; [done|].
    pose proof (proj2 (to_update_lookup orig wanted k v) (conj Hk Hn)) as H. by rewrite E, lookup_empty in H.
  - intros Hs. apply map_eq. intros k. rewrite lookup_empty. apply eq_None_not_Some. intros [v Hv].
    apply to_update_lookup in Hv as [Hw Hn]. by apply Hn, Hs.
Qed.

Lemma updated_lookup orig wanted k :
  (to_update orig wanted ∪ orig) !! k = match wanted !! k with Some v => Some v | None => orig !! k end.
Proof.
  rewrite lookup_union. destruct (to_update orig wanted !! k) as [v|] eqn:E.
  - apply to_update_lookup in E as [-> _]. by destruct (orig !! k).
  - rewrite (left_id_L None _). destruct (wanted !! k) as [v|] eqn:Ew; [|done].
    destruct (decide (orig !! k = Some v)) as [|Hn]; [done|].
    by rewrite (proj2 (to_update_lookup orig wanted k v) (conj Ew Hn)) in E.
Qed.

(** The wanted entries that are missing or different. *)
Definition differing (orig wanted update : gmap string string) : Prop :=
  ∀ k v, update !! k = Some v ↔ wanted !! k = Some v ∧ orig !! k ≠ Some v.
(** The entries after an update: the wanted ones, and the others as they were. *)
Definition brought_in_line (orig wanted result : gmap string string) : Prop :=
  ∀ k, result !! k = match wanted !! k with Some v => Some v | None => orig !! k end.

(** C29. Bringing labels and annotations in line converges.  Labels: when the node has
    every wanted entry nothing is done, otherwise one call is made that carries the
    wanted labels that are missing or different, and no others.  Annotations: when the
    node has every wanted entry nothing is done, otherwise one patch is sent, the
    two-way merge patch between the node and the node with exactly the wanted
    annotations brought in line (nothing is sent when the patch cannot be computed).
    On a node whose entries are in line nothing is updated any more. *)
Theorem sync_converges O node wanted p :
  (∃ update, differing (Labels node) wanted update ∧ brought_in_line (Labels node) wanted (update ∪ Labels node) ∧
     syncNodeLabels O node wanted p =
       (if bool_decide (wanted ⊆ Labels node) then (Ok tt, p)
        else (if AddOrUpdateLabelsOnNode O (pv_actions p) update node then Ok tt
              else Err (ErrNew ("failed update labels for node " +:+ Name node)),
              mkProvider (ActLabelNode (Name node) update :: pv_actions p)))) ∧
  (∃ result, brought_in_line (Annotations node) wanted result ∧
     if bool_decide (wanted ⊆ Annotations node) then syncNodeAnnotations O node wanted p = (Ok tt, p)
     else match json_Marshal O node, json_Marshal O (with_annotations node result) with
          | inr old, inr new =>
              match CreateTwoWayMergePatch O old new with
              | inr patch =>
                  syncNodeAnnotations O node wanted p =
                    (match nodes_Patch O (pv_actions p) (Name node) patch with
                     | None => Ok tt | Some err => Err (ErrV "failed to patch the node: " err) end,
                     mkProvider (ActPatchNode (Name node) patch :: pv_actions p))
              | inl _ => ∃ err, syncNodeAnnotations O node wanted p = (Err err, p)
              end
          | _, _ => ∃ err, syncNodeAnnotations O node wanted p = (Err err, p)
          end) ∧
  (∀ node', brought_in_line (Labels node) wanted (Labels node') → syncNodeLabels O node' wanted p = (Ok tt, p)) ∧
  (∀ node', brought_in_line (Annotations node) wanted (Annotations node') →
     syncNodeAnnotations O node' wanted p = (Ok tt, p)).
Proof.
  assert (∀ orig m, brought_in_line orig wanted m → to_update m wanted = ∅) as Hline.
  { intros orig m Hm. apply to_update_empty, map_subseteq_spec. intros k v Hk. by rewrite Hm, Hk. }
  split; [|split; [|split]].
  - exists (to_update (Labels node) wanted). split; [intros k v; apply to_update_lookup|].
    split; [intros k; apply updated_lookup|].
    unfold syncNodeLabels. rewrite (bool_decide_ext _ _ (to_update_empty (Labels node) wanted)).
    case_bool_decide; [done|]. unfold gbind, emit, gmodify. cbn [gget]. by destruct (AddOrUpdateLabelsOnNode _ _ _ _).
  - exists (to_update (Annotations node) wanted ∪ Annotations node). split; [intros k; apply updated_lookup|].
    unfold syncNodeAnnotations. rewrite (bool_decide_ext _ _ (to_update_empty (Annotations node) wanted)).
    case_bool_decide; [done|]. destruct (json_Marshal O node) as [e|old]; [by eexists|].
    destruct (json_Marshal O (with_annotations _ _)) as [e|new]; [by eexists|].
    destruct (CreateTwoWayMergePatch O old new) as [e|patch]; [by eexists|].
    unfold gbind, emit, gmodify. cbn [gget]. by destruct (nodes_Patch _ _ _ _).
  - intros node' E. unfold syncNodeLabels. by rewrite (Hline _ _ E), bool_decide_true.
  - intros node' E. unfold syncNodeAnnotations. by rewrite (Hline _ _ E), bool_decide_true.
Qed.

(** ** [InstanceExists] *)

Lemma scan_taints_spec O taints b :
  scan_taints O taints b =
    if taintExists O taints uninitializedTaint then None else Some (b || taintExists O taints notReadyTaint).
Proof.
  revert b. induction taints as [|t taints IH]; intros b; cbn; [by rewrite orb_false_r|].
  destruct (MatchTaint (out_kube O) t uninitializedTaint); [done|]. cbn. rewrite IH.
  unfold taintExists. destruct (existsb _ taints); [done|].
  destruct (MatchTaint (out_kube O) t notReadyTaint), b; cbn; by rewrite ?orb_true_r.
Qed.

(** A node is reported gone, and so deleted, only when it is an initialized spot
    instance on gcp that is not ready and at least thirty seconds old, and then
    always. *)
Theorem instance_gone O age node :
  InstanceExists O age node = false ↔
    ProviderID node ≠ "" ∧ taintExists O (Taints node) uninitializedTaint = false ∧
    taintExists O (Taints node) notReadyTaint = true ∧ initializedNodeDelay ≤ age ∧
    Labels node !! ClusterNodePlatformLabel = Some "gcp" ∧
    Labels node !! ClusterNodeLifeCycleLabel = Some ClusterNodeLifeCycleLabelSpot.
Proof.
  unfold InstanceExists. rewrite scan_taints_spec. case_bool_decide as Hid; [naive_solver|].
  destruct (taintExists O (Taints node) uninitializedTaint); [naive_solver|]. cbn [orb].
  destruct (Z.ltb_spec age initializedNodeDelay); [naive_solver lia|].
  assert (∀ k v, v ≠ "" → default "" (Labels node !! k) = v ↔ Labels node !! k = Some v) as Hd.
  { intros k v Hv. destruct (Labels node !! k); cbn; naive_solver. }
  rewrite (bool_decide_ext (default "" _ = "gcp") (Labels node !! ClusterNodePlatformLabel = Some "gcp"))
    by (by apply Hd).
  rewrite (bool_decide_ext (default "" _ = ClusterNodeLifeCycleLabelSpot)
    (Labels node !! ClusterNodeLifeCycleLabel = Some ClusterNodeLifeCycleLabelSpot)) by (by apply Hd).
  destruct (taintExists O (Taints node) notReadyTaint); cbn [andb]; [|naive_solver].
  repeat case_bool_decide; cbn; naive_solver.
Qed.
