(* ===== verification/CloudSetup.v ===== *)
(** * [pkg/talos/cloud.go], [cloud_config.go]: how the provider comes up

    [newCloud] makes a [client] with a connection to Talos and an [instances] object
    that points to the same [client]; [Initialize] later stores the clientset in that
    shared object, makes a context and starts a goroutine that waits for the stop
    channel.  Objects live in a store and are known by their addresses, so that what
    one part writes another part sees.  Reading the environment, YAML decoding and
    the client builder are the parameter [Host].  A process that ends notes its exit
    code and runs nothing more. *)

From S2P Require Import Prelude GoNet GoStrings NetIP Kube Transformer TalosClient TalosSession Provider.

Local Open Scope go_scope.

Definition ServiceAccountName : string := "talos-cloud-controller-manager".
Definition ServiceAccountNameEnv : string := "SERVICE_ACCOUNT".

(** ** Objects and the process *)

(** [kclient] is the clientset of a service account, [nil] before [Initialize]. *)
Record client := mkClientObject {
  client_config : cloudConfig;
  client_talos : nat;
  client_kclient : option string }.

(** [instances] with its pointer [c]. *)
Record instances := mkInstances { inst_c : nat }.

(** [cloud_ctx] and [cloud_stop] are one context, [nil] before [Initialize]. *)
Record Cloud := mkCloudObject {
  cloud_client : nat;
  cloud_instancesV2 : option instances;
  cloud_ctx : option nat;
  cloud_stop : option nat }.

(** The store, the contexts made and cancelled, the goroutines that wait for the
    stop channel (each with the provider it was given), whether that channel is
    closed, and the exit code once the process has ended. *)
Record Process := mkProcess {
  session : Client;
  clients : list client;
  clouds : list Cloud;
  contexts : nat;
  cancelled : list nat;
  waiting : list nat;
  stopped : bool;
  exited : option Z }.

Definition set_session (c : Client) (p : Process) : Process :=
  mkProcess c (clients p) (clouds p) (contexts p) (cancelled p) (waiting p) (stopped p) (exited p).
Definition set_clients (l : list client) (p : Process) : Process :=
  mkProcess (session p) l (clouds p) (contexts p) (cancelled p) (waiting p) (stopped p) (exited p).
Definition set_clouds (l : list Cloud) (p : Process) : Process :=
  mkProcess (session p) (clients p) l (contexts p) (cancelled p) (waiting p) (stopped p) (exited p).
Definition add_context (p : Process) : Process :=
  mkProcess (session p) (clients p) (clouds p) (S (contexts p)) (cancelled p) (waiting p) (stopped p) (exited p).
Definition add_cancelled (n : nat) (p : Process) : Process :=
  mkProcess (session p) (clients p) (clouds p) (contexts p) (n :: cancelled p) (waiting p) (stopped p) (exited p).
Definition set_waiting (l : list nat) (p : Process) : Process :=
  mkProcess (session p) (clients p) (clouds p) (contexts p) (cancelled p) l (stopped p) (exited p).
Definition set_stopped (p : Process) : Process :=
  mkProcess (session p) (clients p) (clouds p) (contexts p) (cancelled p) (waiting p) true (exited p).
Definition set_exited (code : Z) (p : Process) : Process :=
  mkProcess (session p) (clients p) (clouds p) (contexts p) (cancelled p) (waiting p) (stopped p) (Some code).

(** The program's surroundings: [ClientOrDie] ends the process when it cannot make a
    clientset ([klog.Fatal], exit code 255). *)
Record Host := mkHost {
  host_api : API;
  Getenv : string → string;
  yaml_Decode : string → cloudConfig → option error * cloudConfig;
  can_make_client : string → bool }.

(** The process ends with a code: nothing runs after it. *)
Definition exit {A} (code : Z) : GoM Process A := gmodify (set_exited code) ;;; gpanic.

(** A call of the Talos client's code on the process. *)
Definition in_session {A} (m : GoM Client A) : GoM Process A :=
  λ p, let '(o, c) := m (session p) in (o, set_session c p).

(** Pointers: a nil or dangling one panics. *)
Definition load {A} (cells : Process → list A) (a : nat) : GoM Process A :=
  p <- gget ;; match cells p !! a with Some x => gret x | None => gpanic end.

Section host.
Context (H : Host).

(** ** Configuration *)

Definition zeroConfig : cloudConfig := mkCloudConfig "" false [].

(** The text of the reader, [None] for a nil reader. *)
Definition readCloudConfig (config : option string) : error + cloudConfig :=
  match config with
  | None => inr zeroConfig
  | Some text =>
      match yaml_Decode H text zeroConfig with
      | (Some err, _) => inl err
      | (None, cfg) => inr cfg
      end
  end.

(** ** Construction *)

(** [&client{...}]: the address of a new object. *)
Definition alloc_client (c : client) : GoM Process nat :=
  p <- gget ;; gmodify (λ p, set_clients (clients p ++ [c]) p) ;;; gret (length (clients p)).
Definition alloc_cloud (c : Cloud) : GoM Process nat :=
  p <- gget ;; gmodify (λ p, set_clouds (clouds p ++ [c]) p) ;;; gret (length (clouds p)).

Definition newClient (config : option cloudConfig) : GoM Process nat :=
  match config with
  | None => gfail (ErrNew "talos cloudConfig is nil")
  | Some config =>
      talos <- in_session (New (host_api H)) ;;
      alloc_client (mkClientObject config talos None)
  end.

Definition newInstances (client : nat) : instances := mkInstances client.

Definition newCloud (config : option cloudConfig) : GoM Process nat :=
  client <- newClient config ;;
  alloc_cloud (mkCloudObject client (Some (newInstances client)) None None).

(** The factory that [init] registers under [ProviderName]. *)
Definition factory (config : option string) : GoM Process nat :=
  match readCloudConfig config with
  | inl err => gfail err
  | inr cfg => newCloud (Some cfg)
  end.

(** ** Initialisation *)

Definition serviceAccountName : string :=
  if decide (Getenv H ServiceAccountNameEnv = "") then ServiceAccountName else Getenv H ServiceAccountNameEnv.

Definition ClientOrDie (account : string) : GoM Process string :=
  if can_make_client H account then gret account else exit 255.

(** [c.client.kclient = ...], through the pointer. *)
Definition set_kclient (a : nat) (account : string) : GoM Process unit :=
  x <- load clients a ;;
  gmodify (λ p, set_clients (<[a := mkClientObject (client_config x) (client_talos x) (Some account)]> (clients p)) p).

(** [c.ctx = ctx; c.stop = cancel]. *)
Definition set_ctx (a n : nat) : GoM Process unit :=
  c <- load clouds a ;;
  gmodify (λ p, set_clouds (<[a := mkCloudObject (cloud_client c) (cloud_instancesV2 c) (Some n) (Some n)]> (clouds p)) p).

Definition Initialize (a : nat) : GoM Process unit :=
  account <- ClientOrDie serviceAccountName ;;
  c <- load clouds a ;;
  set_kclient (cloud_client c) account ;;;
  p <- gget ;;
  gmodify add_context ;;;
  set_ctx a (contexts p) ;;;
  gmodify (λ p, set_waiting (a :: waiting p) p).

(** The body of the goroutine after [<-stop]: [provider.stop()]. *)
Definition stop_provider (a : nat) : GoM Process unit :=
  c <- load clouds a ;;
  match cloud_stop c with
  | Some n => gmodify (add_cancelled n)
  | None => gpanic
  end.

(** ** The interface [cloudprovider.Interface]: [None] is an interface that is not
    supported; of the ones the provider never supports there are no objects. *)

Definition LoadBalancer (a : nat) : GoM Process (option Empty_set) := gret None.
Definition Instances (a : nat) : GoM Process (option Empty_set) := gret None.
Definition InstancesV2 (a : nat) : GoM Process (option instances) :=
  c <- load clouds a ;; gret (cloud_instancesV2 c).
Definition Zones (a : nat) : GoM Process (option Empty_set) := gret None.
Definition Clusters (a : nat) : GoM Process (option Empty_set) := gret None.
Definition Routes (a : nat) : GoM Process (option Empty_set) := gret None.
Definition Cloud_ProviderName (a : nat) : string := ProviderName.
Definition HasClusterID (a : nat) : bool := true.
End host.

(** ** The stop signal *)

(** What can happen to the process: a provider is initialised, the stop channel is
    closed, or, after that, one of the waiting goroutines runs. *)
Inductive happens (H : Host) : Process → Process → Prop :=
  | happens_init p a p' : Initialize H a p = (Ok tt, p') → happens H p p'
  | happens_close p : happens H p (set_stopped p)
  | happens_wake p a l l' p' :
      stopped p = true → waiting p = l ++ a :: l' →
      stop_provider a (set_waiting (l ++ l') p) = (Ok tt, p') → happens H p p'.
