(* ===== verification/CloudSetupTheorems.v ===== *)
(** * The provider's set-up: what holds

    A provider that comes up has one connection, and after [Initialize] the instances
    interface works with the clientset of the service account; the stop signal
    reaches the context of every provider. *)

From S2P Require Import Prelude GoNet GoStrings NetIP Kube Transformer TalosClient TalosSession Provider CloudSetup.

Local Open Scope go_scope.

(** Opening a connection: one more, or none and an error. *)
Lemma New_opens P c :
  match New P c with
  | (Ok h, c') => h = opened c ∧ opened c' = S (opened c)
  | (Err _, c') => opened c' = opened c
  | (Panic, _) => False
  end.
Proof. unfold New, gbind, gget, gmodify. cbn. by destruct (api_New _ _ _). Qed.

Lemma provider_factory_total H config p : (factory H config p).1 ≠ Panic.
Proof.
  unfold factory. destruct (readCloudConfig H config) as [err|cfg]; [done|].
  unfold newCloud, newClient, in_session, gbind.
  pose proof (New_opens (host_api H) (session p)).
  by destruct (New (host_api H) (session p)) as [[h|e|] c'].
Qed.

(** A provider made by the registered factory: when the configuration cannot be
    read or Talos cannot be reached the caller gets an error, no object is left and
    no connection is open.  Otherwise exactly one connection is opened, and
    [Initialize] either ends the process, when there is no clientset for the service
    account, or leaves a provider whose [InstancesV2] works with that clientset, that
    connection and the decoded configuration, although it was made before
    [Initialize] stored the clientset. *)
Theorem provider_comes_up (H : Host) (config : option string) (p : Process) :
  match factory H config p with
  | (Panic, _) => False
  | (Err _, p1) => clients p1 = clients p ∧ clouds p1 = clouds p ∧ opened (session p1) = opened (session p)
  | (Ok a, p1) =>
      ∃ cfg, readCloudConfig H config = inr cfg ∧ opened (session p1) = S (opened (session p)) ∧
      match Initialize H a p1 with
      | (Ok _, p2) =>
          can_make_client H (serviceAccountName H) = true ∧
          ∃ i, InstancesV2 a p2 = (Ok (Some i), p2) ∧
               clients p2 !! inst_c i =
                 Some (mkClientObject cfg (opened (session p)) (Some (serviceAccountName H))) ∧
               session p2 = session p1 ∧ exited p2 = exited p1
      | (Err _, _) => False
      | (Panic, p2) => can_make_client H (serviceAccountName H) = false ∧ exited p2 = Some 255
      end
  end.
Proof.
  unfold factory. destruct (readCloudConfig H config) as [err|cfg]; [done|].
  unfold newCloud, newClient, in_session, alloc_client, alloc_cloud, gbind at 1.
  pose proof (New_opens (host_api H) (session p)) as Hn.
  unfold gbind. destruct (New (host_api H) (session p)) as [[h|e|] c']; [|done|done].
  destruct Hn as [-> Hopen]. cbn. exists cfg. split_and!; [done|done|].
  unfold Initialize, ClientOrDie.
  destruct (can_make_client H (serviceAccountName H)); [|done].
  unfold load, set_kclient, set_ctx, InstancesV2, load, gbind, gget, gmodify, gret. cbn.
  rewrite !list_lookup_middle by done. cbn. rewrite !list_lookup_middle by done. cbn.
  rewrite list_lookup_middle by done. cbn.
  split; [done|]. eexists. rewrite list_lookup_insert_eq by (rewrite length_app; cbn; lia). cbn.
  split; [done|]. rewrite list_lookup_insert_eq by (rewrite length_app; cbn; lia). done.
Qed.

(** ** The stop signal *)

(** Nothing is cancelled before the signal; a provider that has a context can cancel
    it, and it is cancelled or a goroutine waits to do so; only providers that have a
    context are waited for. *)
Record signalled (p : Process) : Prop := {
  sg_quiet : stopped p = false → cancelled p = [];
  sg_ctx : ∀ a c n, clouds p !! a = Some c → cloud_ctx c = Some n →
             cloud_stop c = Some n ∧ (n ∈ cancelled p ∨ a ∈ waiting p);
  sg_wait : ∀ a, a ∈ waiting p → ∃ c n, clouds p !! a = Some c ∧ cloud_ctx c = Some n }.

(** What [Initialize] does when it returns. *)
Lemma Initialize_effect H a p p' :
  Initialize H a p = (Ok tt, p') →
  ∃ c, clouds p !! a = Some c ∧
    clouds p' = <[a := mkCloudObject (cloud_client c) (cloud_instancesV2 c) (Some (contexts p)) (Some (contexts p))]> (clouds p) ∧
    cancelled p' = cancelled p ∧ stopped p' = stopped p ∧ waiting p' = a :: waiting p.
Proof.
  unfold Initialize, ClientOrDie. destruct (can_make_client _ _); [|done].
  unfold set_kclient, set_ctx, load, gbind, gget, gmodify, gret.
  destruct (clouds p !! a) as [c|] eqn:Hc; [|done].
  destruct (clients p !! cloud_client c) as [x|] eqn:Hx; [|done].
  cbn. rewrite Hc. intros [= <-]. by exists c.
Qed.

(** A goroutine that wakes cancels the context of its provider. *)
Lemma stop_provider_cancels a c n p :
  clouds p !! a = Some c → cloud_stop c = Some n → stop_provider a p = (Ok tt, add_cancelled n p).
Proof. intros Hc Hn. unfold stop_provider, load, gbind, gget. by rewrite Hc; cbn; rewrite Hn. Qed.

Lemma happens_signalled H p p' : signalled p → happens H p p' → signalled p'.
Proof.
  intros [Hq Hctx Hw]; destruct 1 as [p a p' Hi|p|p a l l' p' Hs Hl Hp].
  - apply Initialize_effect in Hi as (c & Hc & Hcl & Hcan & Hst & Hwt).
    pose proof (lookup_lt_Some _ _ _ Hc) as Hlt.
    split.
    + by rewrite Hst, Hcan.
    + intros b d n. rewrite Hcl, Hcan, Hwt. destruct (decide (a = b)) as [->|Hab].
      * rewrite list_lookup_insert_eq by done. intros [= <-] [= <-]. cbn. set_solver.
      * rewrite list_lookup_insert_ne by done. intros Hd Hn. destruct (Hctx b d n Hd Hn). set_solver.
    + intros b. rewrite Hwt, Hcl. destruct (decide (a = b)) as [->|Hab]; intros Hb.
      * rewrite list_lookup_insert_eq by done. eauto.
      * rewrite list_lookup_insert_ne by done. apply Hw. set_solver.
  - split; cbn; [done|apply Hctx|apply Hw].
  - destruct (Hw a) as (c & n & Hc & Hn); [rewrite Hl; set_solver|].
    destruct (Hctx a c n Hc Hn) as [Hstop _].
    rewrite (stop_provider_cancels a c n) in Hp by done. injection Hp as <-.
    split; cbn.
    + congruence.
    + intros b d m Hd Hm. destruct (Hctx b d m Hd Hm) as [? Hor]. split; [done|].
      rewrite Hl in Hor. destruct (decide (b = a)) as [->|]; [|set_solver].
      left. simplify_eq. set_solver.
    + intros b Hb. apply Hw. rewrite Hl. set_solver.
Qed.

(** A process in which no provider is initialised yet. *)
Definition uninitialised (p : Process) : Prop :=
  cancelled p = [] ∧ waiting p = [] ∧ ∀ c, c ∈ clouds p → cloud_ctx c = None.

Lemma uninitialised_signalled p : uninitialised p → signalled p.
Proof.
  intros (Hc & Hw & Hn). split; [done| |rewrite Hw; set_solver].
  intros a c n Hl. by rewrite (Hn c) by (by eapply list_elem_of_lookup_2).
Qed.

(** The stop signal: however initialisations, the closing of the channel and the
    goroutines interleave, no context is cancelled before the channel is closed; no
    goroutine that wakes panics, each cancels the context its provider has; and when
    the channel is closed and no goroutine is left waiting, the context of every
    provider is cancelled. *)
Theorem stop_reaches_providers (H : Host) (p0 p : Process) :
  uninitialised p0 → rtc (happens H) p0 p →
  (stopped p = false → cancelled p = []) ∧
  (∀ a, a ∈ waiting p → ∃ c n, clouds p !! a = Some c ∧ cloud_ctx c = Some n ∧
                         stop_provider a p = (Ok tt, add_cancelled n p)) ∧
  (waiting p = [] → ∀ c n, c ∈ clouds p → cloud_ctx c = Some n → n ∈ cancelled p).
Proof.
  intros H0 Hrun. assert (signalled p) as [Hq Hctx Hw].
  { eapply (rtc_ind_r (λ q, signalled q)); [by apply uninitialised_signalled| |exact Hrun].
    intros; by eapply happens_signalled. }
  split_and!; [done| |].
  - intros a Ha. destruct (Hw a Ha) as (c & n & Hc & Hn). exists c, n.
    split_and!; [done|done|]. destruct (Hctx a c n Hc Hn). by eapply stop_provider_cancels.
  - intros Hnil c n Hc Hn. apply list_elem_of_lookup_1 in Hc as [a Ha].
    destruct (Hctx a c n Ha Hn) as [_ []]; [done|]. rewrite Hnil in *. set_solver.
Qed.

Definition demo_host : Host :=
  mkHost (mkAPI "" (λ _ _, None) (λ _ _, None) (λ _ _ _, inr []) (λ _ _ _, inr ResOther))
    (λ _, "") (λ _ c, (None, c)) (λ _, true).
Definition demo_process : Process := mkProcess (mkClient 0 0 [] []) [] [] 0 [] [] false None.
Definition demo_up : Process := (factory demo_host None demo_process).2.
Definition demo_initialised : Process := (Initialize demo_host 0 demo_up).2.

Lemma stop_reaches_providers_witness :
  ∃ p, rtc (happens demo_host) demo_up p ∧ (∃ c, c ∈ clouds p ∧ cloud_ctx c = Some 0%nat) ∧ 0%nat ∈ cancelled p.
Proof.
  exists (add_cancelled 0 (set_waiting [] (set_stopped demo_initialised))).
  assert (rtc (happens demo_host) demo_up (add_cancelled 0 (set_waiting [] (set_stopped demo_initialised)))) as Hrun.
  { eapply rtc_l; [eapply (happens_init _ _ 0 demo_initialised); vm_compute; reflexivity|].
    eapply rtc_l; [apply happens_close|].
    eapply rtc_l; [|apply rtc_refl].
    eapply (happens_wake _ _ 0 [] []); vm_compute; reflexivity. }
  split; [exact Hrun|]. split; [eexists; split; [left|reflexivity]|].
  refine (proj2 (proj2 (stop_reaches_providers demo_host demo_up _ _ Hrun)) _ (mkCloudObject 0 (Some (mkInstances 0)) (Some 0%nat) (Some 0%nat)) _ _ _).
  - split_and!; [vm_compute; reflexivity|vm_compute; reflexivity|].
    intros c Hc. apply list_elem_of_singleton in Hc. by rewrite Hc.
  - vm_compute; reflexivity.
  - left.
  - reflexivity.
Defined.
