(* ===== verification/Command.v ===== *)
(** * [cmd/talos-cloud-controller-manager], [pkg/names]: the command

    [main] adds the node IPAM and the certificate controller to those of the
    cloud-provider library, makes three controllers opt-in, adds two aliases, sets the
    default of the flag [--cloud-provider] and runs the command; the command calls
    [cloudInitializer] for the provider.  The library's tables, its registry of
    providers and the command line framework are parameters. *)

From S2P Require Import Prelude GoNet GoStrings NetIP Kube Csr CsrRun TalosClient TalosSession Provider CloudSetup.

Local Open Scope go_scope.

(** ** Controller names *)

Definition ServiceAccountTokenController : string := "serviceaccount-token-controller".
Definition EndpointsController : string := "endpoints-controller".
Definition EndpointSliceController : string := "endpointslice-controller".
Definition EndpointSliceMirroringController : string := "endpointslice-mirroring-controller".
Definition ReplicationControllerController : string := "replicationcontroller-controller".
Definition PodGarbageCollectorController : string := "pod-garbage-collector-controller".
Definition ResourceQuotaController : string := "resourcequota-controller".
Definition NamespaceController : string := "namespace-controller".
Definition ServiceAccountController : string := "serviceaccount-controller".
Definition GarbageCollectorController : string := "garbage-collector-controller".
Definition DaemonSetController : string := "daemonset-controller".
Definition JobController : string := "job-controller".
Definition DeploymentController : string := "deployment-controller".
Definition ReplicaSetController : string := "replicaset-controller".
Definition HorizontalPodAutoscalerController : string := "horizontal-pod-autoscaler-controller".
Definition DisruptionController : string := "disruption-controller".
Definition StatefulSetController : string := "statefulset-controller".
Definition CronJobController : string := "cronjob-controller".
Definition CertificateSigningRequestSigningController : string := "certificatesigningrequest-signing-controller".
Definition CertificateSigningRequestApprovingController : string := "certificatesigningrequest-approving-controller".
Definition CertificateSigningRequestCleanerController : string := "certificatesigningrequest-cleaner-controller".
Definition TTLController : string := "ttl-controller".
Definition BootstrapSignerController : string := "bootstrap-signer-controller".
Definition TokenCleanerController : string := "token-cleaner-controller".
Definition NodeIpamController : string := "node-ipam-controller".
Definition NodeLifecycleController : string := "node-lifecycle-controller".
Definition TaintEvictionController : string := "taint-eviction-controller".
Definition PersistentVolumeBinderController : string := "persistentvolume-binder-controller".
Definition PersistentVolumeAttachDetachController : string := "persistentvolume-attach-detach-controller".
Definition PersistentVolumeExpanderController : string := "persistentvolume-expander-controller".
Definition ClusterRoleAggregationController : string := "clusterrole-aggregation-controller".
Definition PersistentVolumeClaimProtectionController : string := "persistentvolumeclaim-protection-controller".
Definition PersistentVolumeProtectionController : string := "persistentvolume-protection-controller".
Definition TTLAfterFinishedController : string := "ttl-after-finished-controller".
Definition RootCACertificatePublisherController : string := "root-ca-certificate-publisher-controller".
Definition EphemeralVolumeController : string := "ephemeral-volume-controller".
Definition StorageVersionGarbageCollectorController : string := "storageversion-garbage-collector-controller".
Definition ResourceClaimController : string := "resourceclaim-controller".
Definition LegacyServiceAccountTokenCleanerController : string := "legacy-serviceaccount-token-cleaner-controller".
Definition ValidatingAdmissionPolicyStatusController : string := "validatingadmissionpolicy-status-controller".
Definition ServiceCIDRController : string := "service-cidr-controller".
Definition StorageVersionMigratorController : string := "storage-version-migrator-controller".

Definition controller_names : list string :=
  [ServiceAccountTokenController; EndpointsController; EndpointSliceController;
   EndpointSliceMirroringController; ReplicationControllerController; PodGarbageCollectorController;
   ResourceQuotaController; NamespaceController; ServiceAccountController; GarbageCollectorController;
   DaemonSetController; JobController; DeploymentController; ReplicaSetController;
   HorizontalPodAutoscalerController; DisruptionController; StatefulSetController; CronJobController;
   CertificateSigningRequestSigningController; CertificateSigningRequestApprovingController;
   CertificateSigningRequestCleanerController; TTLController; BootstrapSignerController;
   TokenCleanerController; NodeIpamController; NodeLifecycleController; TaintEvictionController;
   PersistentVolumeBinderController; PersistentVolumeAttachDetachController;
   PersistentVolumeExpanderController; ClusterRoleAggregationController;
   PersistentVolumeClaimProtectionController; PersistentVolumeProtectionController;
   TTLAfterFinishedController; RootCACertificatePublisherController; EphemeralVolumeController;
   StorageVersionGarbageCollectorController; ResourceClaimController;
   LegacyServiceAccountTokenCleanerController; ValidatingAdmissionPolicyStatusController;
   ServiceCIDRController; StorageVersionMigratorController].

(** ** Registration *)

(** The function that starts a controller: one of the library's, or one of
    [nodeipamcontroller.go] and [nodecsrapprovalcontroller.go]. *)
Inductive constructor :=
  | FromLibrary (id : nat)
  | startNodeIpamControllerWrapper_of
  | startNodeCSRApprovalControllerWrapper_of.

(** [InitContext.ClientName] and the constructor. *)
Record ControllerInitFuncConstructor := mkInitFunc { ClientName : string; Constructor : constructor }.

(** What [NewCloudControllerManagerCommand] is given, the set of controllers that are
    off by default, and the values of flags set afterwards. *)
Record command := mkCommand {
  controllerInitializers : gmap string ControllerInitFuncConstructor;
  controllerAliases : gmap string string;
  disabledByDefault : gset string;
  flagSets : list string;
  flagValues : gmap string string }.

Record Library := mkLibrary {
  NewCloudControllerManagerOptions : option error;
  DefaultInitFuncConstructors : gmap string ControllerInitFuncConstructor;
  CCMControllerAliases : gmap string string;
  ControllersDisabledByDefault : gset string;
  command_flags : command → list string;
  flag_Set : string → string → option error;
  cli_Run : command → Z }.

Section main.
Context (H : Host) (L : Library).

Definition registered : command :=
  mkCommand
    (<[CertificateSigningRequestApprovingController :=
         mkInitFunc (serviceAccountName H) startNodeCSRApprovalControllerWrapper_of]>
       (<[NodeIpamController := mkInitFunc "node-controller" startNodeIpamControllerWrapper_of]>
          (DefaultInitFuncConstructors L)))
    (<["node-csr-approval" := CertificateSigningRequestApprovingController]>
       (<["nodeipam" := NodeIpamController]> (CCMControllerAliases L)))
    ({[CertificateSigningRequestApprovingController]} ∪ ({[NodeIpamController]} ∪
       ({[NodeLifecycleController]} ∪ ControllersDisabledByDefault L)))
    [NodeIpamController]
    ∅.

Definition set_flag (name value : string) (c : command) : command :=
  mkCommand (controllerInitializers c) (controllerAliases c) (disabledByDefault c) (flagSets c)
    (<[name := value]> (flagValues c)).

(** The visit of all flags; [None] when a value is refused. *)
Fixpoint visit_flags (flags : list string) (c : command) : option command :=
  match flags with
  | [] => Some c
  | name :: flags' =>
      if decide (name = "cloud-provider") then
        match flag_Set L name ProviderName with
        | Some _ => None
        | None => visit_flags flags' (set_flag name ProviderName c)
        end
      else visit_flags flags' c
  end.

(** The exit code, and the command when it was run. *)
Definition main : Z * option command :=
  match NewCloudControllerManagerOptions L with
  | Some _ => (1, None)
  | None =>
      match visit_flags (command_flags L registered) registered with
      | None => (1, None)
      | Some c => (cli_Run L c, Some c)
      end
  end.
End main.

(** ** The provider *)

Record CloudProviderConfig := mkProviderConfig {
  Name : string;
  CloudConfigFile : string;
  AllowUntaggedCloud : bool }.

(** The registry of [cloudprovider]: factories by name, which [init] fills. *)
Notation registry := (gmap string (option string → GoM Process nat)).

Section initializer.
Context (InitCloudProvider : registry → string → string → GoM Process (option nat)).
Context (H : Host) (others : registry).

Definition RegisterCloudProvider : registry := <[ProviderName := factory H]> others.

Definition cloudInitializer (config : CloudProviderConfig) : GoM Process nat :=
  cloud <- gcatch (InitCloudProvider RegisterCloudProvider (Name config) (CloudConfigFile config)) (λ _, exit 1) ;;
  match cloud with
  | None => exit 1
  | Some cloud =>
      (if HasClusterID cloud then gret tt
       else if AllowUntaggedCloud config then gret tt else exit 1) ;;;
      gret cloud
  end.
End initializer.

(** [InitCloudProvider]: no provider without a name; a registered factory is called
    with the content of the configuration file, or with nothing when no file is named,
    and an error of it is an error of the call. *)
Record RegistryLaws (Init : registry → string → string → GoM Process (option nat))
    (ReadFile : string → option string) : Prop := {
  registry_unnamed : ∀ fs file p, Init fs "" file p = (Ok None, p);
  registry_factory : ∀ fs name f file reader p,
    name ≠ "" → fs !! name = Some f →
    (file = "" ∧ reader = None ∨ file ≠ "" ∧ reader = ReadFile file ∧ reader ≠ None) →
    match f reader p with
    | (Ok a, p') => Init fs name file p = (Ok (Some a), p')
    | (Err _, p') => ∃ e, Init fs name file p = (Err e, p')
    | (Panic, p') => Init fs name file p = (Panic, p')
    end }.

(** ** The certificate controller *)

Record Reconciler := mkReconciler { rec_cluster : Cluster }.

(** A clientset is what the cluster answers through it; the provider checks are
    [CSRNodeChecks], as [Run] has them. *)
Definition NewCsrController (kclient : Cluster) : Reconciler := mkReconciler kclient.

(** What the start function returns, and the goroutine it leaves, turn by turn;
    [None] when there is no clientset for the account and the process ends. *)
Definition startNodeCSRApprovalController (connect : string → option Cluster) (clientName : string) :
    option ((bool * option error) * (nat → GoM log place)) :=
  match connect clientName with
  | None => None
  | Some kclient =>
      let csrController := NewCsrController kclient in
      Some ((true, None), Run (rec_cluster csrController))
  end.
