(* ===== verification/CommandTheorems.v ===== *)
(** * The command: which controllers run, and which provider

    Which controllers a value of [--controllers] starts, compared with the library
    alone, and what [cloudInitializer] returns for the Talos provider. *)

From S2P Require Import Prelude GoNet GoStrings NetIP Kube Csr CsrRun TalosClient TalosSession Provider CloudSetup CloudSetupTheorems Command.

Local Open Scope go_scope.

(** What [--help] says of [--controllers]: '*' enables all on-by-default controllers,
    'foo' enables the controller named 'foo', '-foo' disables it. *)
Record EnabledLaws (enabled : string → gset string → list string → bool) : Prop := {
  enabled_named : ∀ name off cs, name ∈ cs → ("-" +:+ name) ∉ cs → enabled name off cs = true;
  enabled_refused : ∀ name off cs, name ∉ cs → ("-" +:+ name) ∈ cs → enabled name off cs = false;
  enabled_star : ∀ name off cs, name ∉ cs → ("-" +:+ name) ∉ cs →
    enabled name off cs = bool_decide ("*" ∈ cs) && bool_decide (name ∉ off) }.

Section enabled.
Context (enabled : string → gset string → list string → bool) (Hen : EnabledLaws enabled).

(** A controller that is off by default runs when it is named, unless it is refused by
    name too. *)
Lemma enabled_off name off cs :
  name ∈ off → ¬ (name ∈ cs ∧ ("-" +:+ name) ∈ cs) → enabled name off cs = bool_decide (name ∈ cs).
Proof using Hen.
  intros Hoff Hboth. case_bool_decide as Hn; [apply (enabled_named _ Hen); tauto|].
  destruct (decide (("-" +:+ name) ∈ cs)) as [Hm|Hm]; [by apply (enabled_refused _ Hen)|].
  rewrite (enabled_star _ Hen) by done. rewrite (bool_decide_eq_false_2 (name ∉ off)) by tauto.
  apply andb_false_r.
Qed.

(** Only whether the controller itself is off matters. *)
Lemma enabled_ext name off off' cs :
  (name ∈ off ↔ name ∈ off') → ¬ (name ∈ cs ∧ ("-" +:+ name) ∈ cs) →
  enabled name off cs = enabled name off' cs.
Proof using Hen.
  intros Hoff Hboth.
  destruct (decide (name ∈ cs)) as [Hn|Hn].
  { rewrite !(enabled_named _ Hen) by tauto. done. }
  destruct (decide (("-" +:+ name) ∈ cs)) as [Hm|Hm].
  { rewrite !(enabled_refused _ Hen) by done. done. }
  rewrite !(enabled_star _ Hen) by done. f_equal. apply bool_decide_ext. tauto.
Qed.
End enabled.

(** The visit sets [--cloud-provider] when the command has that flag, and nothing
    else. *)
Lemma visit_flags_accepted L flags c :
  flag_Set L "cloud-provider" ProviderName = None →
  ∃ values, visit_flags L flags c =
    Some (mkCommand (controllerInitializers c) (controllerAliases c) (disabledByDefault c) (flagSets c) values) ∧
    (∀ name, values !! name =
       if decide (name = "cloud-provider" ∧ name ∈ flags) then Some ProviderName else flagValues c !! name).
Proof.
  intros Hset. revert c. induction flags as [|f flags IH]; intros c; cbn [visit_flags].
  - exists (flagValues c). destruct c. split; [done|]. intros name.
    rewrite decide_False by set_solver. done.
  - destruct (decide (f = "cloud-provider")) as [->|Hf].
    + rewrite Hset. destruct (IH (set_flag "cloud-provider" ProviderName c)) as (values & -> & Hv).
      exists values. split; [done|]. intros name. rewrite Hv. cbn [set_flag flagValues].
      destruct (decide (name = "cloud-provider")) as [->|Hn].
      * rewrite (decide_True (P := _ ∧ _ ∈ _ :: _)) by (split; [done|left]).
        case_decide; [done|]. by rewrite lookup_insert_eq.
      * rewrite lookup_insert_ne by done. rewrite !decide_False by tauto. done.
    + destruct (IH c) as (values & -> & Hv). exists values. split; [done|]. intros name. rewrite Hv.
      apply decide_ext. set_solver.
Qed.

(** The names of [pkg/names] are distinct. *)
Lemma controller_names_distinct : NoDup controller_names.
Proof. apply (bool_decide_unpack (NoDup controller_names)). vm_compute. exact I. Qed.

(** The names that are off by default. *)
Definition opt_in : list string :=
  [NodeLifecycleController; NodeIpamController; CertificateSigningRequestApprovingController].

(** C37. The command runs with the library's controllers and the two of this program,
    the certificate controller under the service account of the environment; its
    aliases stand for them, and [--cloud-provider] is set to talos when the command
    has that flag.  Take a value of [--controllers], a list of controller names with
    '*' and '-name', and a controller the list does not both name and refuse: the node
    IPAM and the certificate controller run exactly when the list names them (so not
    for '*', and not for '*,-node-ipam-controller'); every other controller of the
    library runs exactly when it would without this program.  The third name that
    is taken off the default, node-lifecycle-controller, starts nothing unless the
    library has a controller of that name: cloud-node-lifecycle-controller, the name
    the library gives its life cycle controller, stays on by default. *)
Theorem controllers_started (H : Host) (L : Library) (enabled : string → gset string → list string → bool) :
  EnabledLaws enabled →
  NewCloudControllerManagerOptions L = None → flag_Set L "cloud-provider" ProviderName = None →
  ∃ cmd, main H L = (cli_Run L cmd, Some cmd) ∧
    (∀ name, controllerInitializers cmd !! name =
       if decide (name = NodeIpamController) then Some (mkInitFunc "node-controller" startNodeIpamControllerWrapper_of)
       else if decide (name = CertificateSigningRequestApprovingController)
            then Some (mkInitFunc (serviceAccountName H) startNodeCSRApprovalControllerWrapper_of)
       else DefaultInitFuncConstructors L !! name) ∧
    controllerAliases cmd !! "nodeipam" = Some NodeIpamController ∧
    controllerAliases cmd !! "node-csr-approval" = Some CertificateSigningRequestApprovingController ∧
    ("cloud-provider" ∈ command_flags L (registered H L) → flagValues cmd !! "cloud-provider" = Some "talos") ∧
    (∀ name cs, name ∈ opt_in → ¬ (name ∈ cs ∧ ("-" +:+ name) ∈ cs) →
       enabled name (disabledByDefault cmd) cs = bool_decide (name ∈ cs)) ∧
    (∀ name cs, name ∉ opt_in → ¬ (name ∈ cs ∧ ("-" +:+ name) ∈ cs) →
       enabled name (disabledByDefault cmd) cs = enabled name (ControllersDisabledByDefault L) cs) ∧
    ("cloud-node-lifecycle-controller" ∉ ControllersDisabledByDefault L →
       enabled "cloud-node-lifecycle-controller" (disabledByDefault cmd) ["*"] = true).
Proof.
  intros Hen Hopt Hset.
  destruct (visit_flags_accepted L (command_flags L (registered H L)) (registered H L) Hset) as (values & Hvisit & Hv).
  eexists. unfold main. rewrite Hopt, Hvisit. split; [done|].
  cbn [controllerInitializers controllerAliases disabledByDefault flagValues registered].
  split_and!.
  - intros name. unfold registered. cbn [controllerInitializers].
    case_decide as Hi; [subst name; by rewrite lookup_insert_ne, lookup_insert_eq|].
    case_decide as Hc; [subst name; by rewrite lookup_insert_eq|].
    by rewrite !lookup_insert_ne by congruence.
  - unfold registered. cbn [controllerAliases]. by rewrite lookup_insert_ne, lookup_insert_eq.
  - unfold registered. cbn [controllerAliases]. by rewrite lookup_insert_eq.
  - intros Hf. by rewrite Hv, decide_True.
  - intros name cs Hname. apply enabled_off; [done|]. unfold opt_in in Hname. set_solver.
  - intros name cs Hname. apply enabled_ext; [done|]. unfold opt_in in Hname. set_solver.
  - intros Hoff. rewrite (enabled_star _ Hen) by (intros [?|?%elem_of_nil]%elem_of_cons; done).
    apply andb_true_intro. split; apply bool_decide_eq_true_2; [left|].
    rewrite !elem_of_union, !elem_of_singleton. intros [?|[?|[?|?]]]; done.
Qed.

Definition demo_enabled (name : string) (off : gset string) (cs : list string) : bool :=
  if decide (name ∈ cs) then true
  else if decide (("-" +:+ name) ∈ cs) then false
  else bool_decide ("*" ∈ cs) && bool_decide (name ∉ off).

Lemma demo_enabled_laws : EnabledLaws demo_enabled.
Proof.
  split; intros name off cs H1 H2; unfold demo_enabled.
  - by rewrite decide_True.
  - by rewrite decide_False, decide_True by done.
  - by rewrite !decide_False by done.
Qed.

(** The library's controllers as the documentation lists them. *)
Definition demo_library : Library :=
  mkLibrary None
    (list_to_map [("cloud-node-controller", mkInitFunc "node-controller" (FromLibrary 0));
                  ("cloud-node-lifecycle-controller", mkInitFunc "node-controller" (FromLibrary 1));
                  ("service-lb-controller", mkInitFunc "service-controller" (FromLibrary 2));
                  ("node-route-controller", mkInitFunc "route-controller" (FromLibrary 3))])
    (list_to_map [("cloud-node", "cloud-node-controller"); ("cloud-node-lifecycle", "cloud-node-lifecycle-controller")])
    ∅ (λ _, ["bind-address"; "cloud-provider"]) (λ _ _, None) (λ _, 0%Z).

(** With the default value of [--controllers] the life cycle controller runs, and the
    node IPAM controller does not. *)
Lemma controllers_started_witness :
  ∃ cmd, main demo_host demo_library = (0%Z, Some cmd) ∧
    demo_enabled "cloud-node-lifecycle-controller" (disabledByDefault cmd) ["*"] = true ∧
    demo_enabled NodeIpamController (disabledByDefault cmd) ["*"] = false ∧
    demo_enabled NodeIpamController (disabledByDefault cmd) ["*"; NodeIpamController] = true ∧
    demo_enabled NodeIpamController (disabledByDefault cmd) ["*"; "-node-ipam-controller"] = false.
Proof.
  destruct (controllers_started demo_host demo_library demo_enabled demo_enabled_laws eq_refl eq_refl)
    as (cmd & Hmain & _ & _ & _ & _ & Hopt & _ & Hlife).
  exists cmd. split; [exact Hmain|]. split; [apply Hlife, not_elem_of_empty|].
  split.
  - rewrite Hopt; [reflexivity|unfold opt_in; set_solver|]. intros [[?|?%elem_of_nil]%elem_of_cons _]; done.
  - split; (rewrite Hopt; [reflexivity|unfold opt_in; set_solver|]).
    + intros [_ [?|[?|?%elem_of_nil]%elem_of_cons]%elem_of_cons]; done.
    + intros [[?|[?|?%elem_of_nil]%elem_of_cons]%elem_of_cons _]; done.
Defined.

(** ** The provider *)

(** The Talos provider: with a configuration file that can be read, or none,
    [cloudInitializer] returns the provider its factory makes; when the factory fails
    the process ends with exit code 1.  Untagged clusters make no difference.  Without
    a provider name the process ends with exit code 1. *)
Theorem cloud_initializer_result
    (Init : registry → string → string → GoM Process (option nat)) (ReadFile : string → option string)
    (H : Host) (others : registry) (config : CloudProviderConfig) (reader : option string) (p : Process) :
  RegistryLaws Init ReadFile →
  (CloudConfigFile config = "" ∧ reader = None ∨
   CloudConfigFile config ≠ "" ∧ reader = ReadFile (CloudConfigFile config) ∧ reader ≠ None) →
  (Name config = ProviderName →
   match factory H reader p with
   | (Ok a, p') => cloudInitializer Init H others config p = (Ok a, p')
   | (_, p') => cloudInitializer Init H others config p = (Panic, set_exited 1 p')
   end) ∧
  (Name config = "" → cloudInitializer Init H others config p = (Panic, set_exited 1 p)).
Proof.
  intros [Hno Hreg] Hfile. unfold cloudInitializer, gcatch, gbind. split; intros ->.
  - pose proof (Hreg (RegisterCloudProvider H others) ProviderName (factory H) (CloudConfigFile config) reader p) as Hf.
    unfold RegisterCloudProvider in *. rewrite lookup_insert_eq in Hf.
    specialize (Hf ltac:(done) ltac:(done) Hfile).
    pose proof (provider_factory_total H reader p) as Htot.
    destruct (factory H reader p) as [[a|e|] p']; [by rewrite Hf|by destruct Hf as [? ->]|done].
  - by rewrite Hno.
Qed.
