(* ===== verification/Metrics.v ===== *)
(** * [pkg/metrics]: latencies and errors

    A [MetricContext] remembers when a call started and what it was for;
    [ObserveRequest] and [ObserveTransformer] record the latency under that label,
    count the error if there is one, and hand the error on.  A histogram is the list of
    its observations per label, newest first; times are in milliseconds.  Registration
    with Prometheus is left out. *)

From S2P Require Import Prelude.

Local Open Scope go_scope.

(** ** State *)

Record TalosMetrics := mkTalosMetrics { Duration : gmap string (list Z); Errors : gmap string nat }.

Record registry := mkRegistry {
  apiMetrics : TalosMetrics;
  transformerMetrics : TalosMetrics;
  approvalCount : gmap string nat }.

Definition emptyMetrics : registry := mkRegistry (mkTalosMetrics ∅ ∅) (mkTalosMetrics ∅ ∅) ∅.

(** The bounds of the buckets. *)
Definition apiBuckets : list Z := [100; 250; 500; 1000; 2500; 5000; 10000; 30000].
(** In microseconds. *)
Definition transformerBuckets : list Z := [1000; 10000; 50000; 100000].

Definition ApprovalStatusDeny : string := "deny".
Definition ApprovalStatusApprove : string := "approve".

Record MetricContext := mkMetricContext { start : Z; attribute : string }.

(** ** Operations *)

Definition NewMetricContext (now : Z) (resource : string) : MetricContext := mkMetricContext now resource.

Definition Inc (label : string) (m : gmap string nat) : gmap string nat := <[label := S (default 0%nat (m !! label))]> m.

Definition observe (mc : MetricContext) (now : Z) (err : option error) (t : TalosMetrics) : TalosMetrics :=
  mkTalosMetrics
    (<[attribute mc := (now - start mc) :: default [] (Duration t !! attribute mc)]> (Duration t))
    (match err with Some _ => Inc (attribute mc) (Errors t) | None => Errors t end).

Definition ObserveRequest (mc : MetricContext) (now : Z) (err : option error) : GoM registry (option error) :=
  gmodify (λ r, mkRegistry (observe mc now err (apiMetrics r)) (transformerMetrics r) (approvalCount r)) ;;;
  gret err.

Definition ObserveTransformer (mc : MetricContext) (now : Z) (err : option error) : GoM registry (option error) :=
  gmodify (λ r, mkRegistry (apiMetrics r) (observe mc now err (transformerMetrics r)) (approvalCount r)) ;;;
  gret err.

Definition CSRApprovedCount (status : string) : GoM registry unit :=
  gmodify (λ r, mkRegistry (apiMetrics r) (transformerMetrics r) (Inc status (approvalCount r))).

(** ** What the metrics say *)

(** A sequence of observed calls: label, start, end and error. *)
Notation calls := (list (string * Z * Z * option error)).

Definition observe_all (l : calls) (t : TalosMetrics) : TalosMetrics :=
  foldl (λ t '(resource, from, now, err), observe (NewMetricContext from resource) now err t) t l.

Definition of_label (label : string) (l : calls) : calls := filter (λ c, c.1.1.1 = label) l.
Definition failed (l : calls) : calls := filter (λ c, is_Some c.2) l.

(** After any calls, the observations under a label are the calls with it in order,
    its error count is the number of those that failed, and so at most the number of
    observations. *)
Theorem metrics_count l label :
  let t := observe_all l (mkTalosMetrics ∅ ∅) in
  default [] (Duration t !! label) = reverse (map (λ c, c.1.2 - c.1.1.2) (of_label label l)) ∧
  default 0%nat (Errors t !! label) = length (failed (of_label label l)) ∧
  (default 0%nat (Errors t !! label) ≤ length (default [] (Duration t !! label)))%nat.
Proof.
  assert (∀ l, let t := observe_all l (mkTalosMetrics ∅ ∅) in
    default [] (Duration t !! label) = reverse (map (λ c, c.1.2 - c.1.1.2) (of_label label l)) ∧
    default 0%nat (Errors t !! label) = length (failed (of_label label l))) as H.
  { clear l. intros l. induction l as [|[[[resource from] now] err] l [IHd IHe]] using rev_ind; [done|].
    cbn zeta. unfold observe_all, of_label, failed in *. rewrite foldl_snoc, !filter_app, filter_cons.
    cbn [foldl]. set (t := foldl _ _ l) in *. unfold observe, NewMetricContext. cbn [Duration Errors attribute start fst].
    destruct (decide (resource = label)) as [-> |Hne].
    - rewrite lookup_insert_eq, map_app, reverse_app. cbn [from_option id map fst snd filter list_filter]. split; [by rewrite IHd|].
      rewrite length_app, <-IHe. destruct err as [e|].
      + rewrite decide_True by (by eexists). unfold Inc. rewrite lookup_insert_eq. cbn. lia.
      + rewrite decide_False by (by intros []). cbn. lia.
    - rewrite lookup_insert_ne by done. cbn [filter list_filter]. rewrite !app_nil_r. split; [exact IHd|].
      rewrite <-IHe. by destruct err; [unfold Inc; rewrite lookup_insert_ne by done|]. }
  destruct (H l) as [Hd He]. split_and!; [done..|]. rewrite He, Hd, length_reverse, length_map.
  apply length_filter.
Qed.

(** The observers hand the error on. *)
Lemma observers_return mc now err r :
  (ObserveRequest mc now err r).1 = Ok err ∧ (ObserveTransformer mc now err r).1 = Ok err.
Proof. done. Qed.
